(* ===== verification/_CoqProject ===== *)
-Q . S2P
Prelude.v
Persister.v
Raft.v
RaftCodec.v
RaftLocal.v
RaftReplication.v
RaftCluster.v
RaftRun.v
RaftElection.v
RaftAbstract.v
RaftRefinement.v
RaftSafety.v
RaftDelivery.v
Replicated.v
RaftCommands.v
KvSrv.v
Waiters.v
Dedup.v
KvRaft.v
KvRaftDelivery.v
Clerks.v
KvCluster.v
ShardCtrler.v
Rebalance.v
ScCluster.v
ShardKV.v
ShardMigration.v
SkvGroup.v
SkvSystem.v
SkvController.v
MapReduce.v
MapReduceProofs.v
Porcupine.v
PorcupineList.v
PorcupineBitset.v
PorcupineSearch.v
Models.v
PorcupineOps.v
PorcupineKv.v
PorcupineEvents.v
LabRpc.v
LabRpcProofs.v
LabGob.v
LabGobProofs.v
Harness.v
RaftConfig.v
RaftConfigWires.v
RaftConfigProcs.v
RaftHarness.v
RaftTester.v
RaftChecks.v
RaftSnapReader.v
