(* ===== verification/Prelude.v ===== *)
(** * Verification of the 6.5840 lab programs

    The repository is a set of Go packages that build on each other (paths below are
    under [src/src/]):

    - [raft/]: a consensus peer ([raft.go]), its stable storage ([persister.go]) and the
      harness that starts, crashes, partitions and checks the peers ([config.go]);
    - [kvsrv/]: a single key/value server and its clerk;
    - [kvraft/]: the key/value service replicated over Raft;
    - [shardctrler/]: a replicated service of numbered configurations, which assign
      shards to replica groups;
    - [shardkv/]: replica groups that serve the shards they own and hand them over when
      the configuration changes;
    - [mr/], [mrapps/], [main/mrsequential.go]: MapReduce, its applications, and the
      sequential program it is compared with;
    - [porcupine/], [models/]: a linearizability checker and its key/value model;
    - [labrpc/], [labgob/]: the simulated network and the checked encoder the packages
      communicate with.

    ** How the code is modelled

    A Go struct is a record, an operation under a lock is one definition from the state
    before to the state after, and a function that gives up its lock (an RPC, a receive
    from a channel) is split there, one definition per critical section.  Functions that
    loop are structural or take fuel.  [None] is a run-time panic, a fatal error or, where
    the file says so, an operation that blocks.  [int] is [Z] where values only count
    events; where width matters (bitsets, FNV hashes) the wrap-around is written out.
    What a run can not determine is an argument: the order in which a map is iterated,
    the clock, random numbers, the outcome of an RPC.  Code outside the repository is a
    type class of operations with a class of laws: [encoding/gob] and [encoding/json]
    (decoding gives back what was encoded), [sort] (a sorted permutation), reflection.

    A system of several processes is a transition system whose steps are these
    definitions and events of the network.  Each system has an executable scheduler,
    sound for its steps, on which the examples run.

    ** Files and what they show

    - [Prelude]: Go slices, maps and integers; tactics; generic lemmas.
    - [Persister], [Raft]: the definitions of [persister.go] and [raft.go], one record per
      struct and one definition per function; [RaftCodec] is a concrete codec.
    - [RaftLocal]: what holds of one peer whatever it receives: no handler panics, terms
      never decrease, one vote per term, what matters for safety is persisted before a
      reply leaves, and a restart recovers it.
    - [RaftReplication]: functional behaviour of the log operations: the append loop, the
      conflict report, the commit rule, compaction.
    - [RaftCluster], [RaftRun]: peers, goroutines and messages as one transition
      system with losses, delays, reordering, crashes and restarts; its scheduler.
    - [RaftElection]: at most one leader per term.
    - [RaftAbstract]: the protocol on whole logs, without messages, snapshots and crashes, and
      the safety argument on it.
    - [RaftRefinement]: every step of the cluster is matched by the abstract protocol.
    - [RaftSafety]: log matching, leader completeness and state machine safety of the
      cluster, and that its critical sections never index out of range.
    - [RaftDelivery]: what the cluster promises a service that reads [applyCh]: one sequence
      of submitted commands, in order, and snapshots that stand for a prefix of it, if the
      service reads a snapshot before the commands after it (see Assumptions).
    - [KvSrv]: the single server with its clerks over a lossy network is linearizable; a
      clerk's call takes effect once.
    - [Waiters]: the table of channels in which RPC handlers wait for a log index.
    - [KvRaft]: duplicate suppression makes every request take effect once; a replica fed
      commands, snapshots and restarts holds the state of the prefix it applied and answers
      each client with its own result; the clerk's loops end.
    - [Replicated]: a service over a Raft cluster, generic in its servers: what they are told
      is the committed log; [Dedup]: client tables that filter repeated requests, as a
      reference; [Clerks]: clients that number their requests and retry, and their history.
    - [RaftCommands]: what is true of all submitted commands is true of those delivered,
      in whatever order snapshots arrive.
    - [KvCluster], [ScCluster]: clerks, servers and Raft together: the key/value service and
      the controller are linearizable end to end, the former under the same condition when
      servers compact their logs; its apply loop goes on in any case.
    - [KvRaftDelivery]: a cluster run in which Raft delivers a command before the snapshot
      it follows, which [KvRaft] excludes by its hypothesis [faithful].
    - [ShardCtrler], [Rebalance]: the controller; rebalancing ends, is balanced, keeps what
      it can and does not depend on map iteration; histories of configurations.
    - [ShardKV], [ShardMigration]: a replica group, and the groups together: no shard is
      held by two groups, and no accepted write is lost or repeated by a migration, as long
      as shards stay assigned; a shard that is given to nobody is lost.
    - [SkvGroup], [SkvSystem]: groups of replicas on Raft clusters, and clerks that find their
      group: the sharded service is linearizable, under the same condition and while shards
      stay assigned.  [SkvController]: a controller cluster
      serves the configurations that [SkvSystem] asks for.
    - [MapReduce], [MapReduceProofs]: a finished job has a line for each key, made of all
      its values in some order, whatever workers crashed or were slow; if their order does
      not matter, the lines are those of the sequential program.
    - [Porcupine], [PorcupineList], [PorcupineBitset], [PorcupineSearch], [PorcupineOps],
      [Models], [PorcupineKv], [PorcupineEvents]: the checker decides linearizability of
      histories that are not empty, on its linked list in a heap, with its cache and its
      parallel partitions; on an empty one it may wait forever.
    - [LabRpc], [LabRpcProofs]: the network executes a call at most once and a reliable
      one exactly once; [LabGob], [LabGobProofs]: the search of types for lower-case fields.
    - [Harness]: loops and fatal errors of a test; [RaftConfig]: the definitions of
      [raft/config.go], with persisters behind pointers that several instances may share.
    - [RaftConfigWires], [RaftConfigProcs]: which client ends are enabled, and which instance
      owns which persister; [RaftHarness]: whatever the harness does, the servers that are
      up form a run of [RaftCluster], and requests pass between connected servers only.
    - [RaftTester], [RaftChecks]: in the tests without snapshots, in no run do the checks on
      [applyCh] fail; what [one] and [checkOneLeader] return is what they promise.
      [RaftSnapReader]: the reader of the snapshot tests accepts the log, in order, makes
      snapshots of it that it accepts again, and stops the test at any other command.

    ** Fuel and bounds

    The release loop of [rebalance] has fuel [NShards + 1] and is shown not to run out.
    The grouping loop of a reduce task has the length of its input.  The clerks' loops take
    the outcomes of their calls, and are shown to end once a server answers.  [checkSingle]
    is shown to answer for all large enough fuel, and to answer the same.  [checkType] has
    more fuel than there are types and is shown to finish.

    ** Assumptions

    The laws of the codecs and sorts above.  Map and reduce functions are functions of their
    arguments, which the applications of [mrapps/] that count or time processes are not.  A
    handler called through [labrpc] runs as one step.  [KvRaft] assumes that commands arrive
    in order and a snapshot before the commands after it ([faithful]); [RaftDelivery] proves
    this of the cluster up to the second part, which [KvCluster] and [SkvSystem] keep as a
    condition on the runs with snapshots, since [KvRaftDelivery] shows a run of the code
    without it.  [ShardMigration] and [SkvSystem] assume that the configurations are
    numbered consecutively and that every shard with data keeps an owner ([controller_ok]);
    [SkvController] proves it of a controller whose users never remove the last group nor
    assign shards to groups that are not there.  Each assumption has an instance in the
    development.

    ** Not modelled

    Sleeping and wall-clock time (a step may always happen later instead); debugging output;
    the listeners and dialling of [mr/] (Unix sockets) and the text of JSON files; command
    lines under [main/], several of which import packages that are not in the repository;
    the test applications of [mrapps/] that sleep, exit or count processes; the HTML of
    [porcupine/visualization.go]; the test harnesses [config.go] of the services, and the
    tests themselves.  Of [raft/config.go], the reader of the snapshot tests ([applierSnap])
    is modelled and shown to accept a log in order; the theorems of [RaftTester] about whole
    runs are about the tests without snapshots. *)

From stdpp Require Export base tactics option list list_numbers gmap strings sorting pretty.
From Stdlib Require Export ZArith Lia.
From Stdlib Require Init.Byte.

#[global] Open Scope Z_scope.

(** ** Go values *)

(** A [byte] slice, as the persister and the gob encoder produce it. *)
Abbreviation bytes := (list Byte.byte).

(** [len(l)] as a Go [int]. *)
Definition zlen {A} (l : list A) : Z := Z.of_nat (length l).

(** [l[i]]; [None] is the run-time panic "index out of range". *)
Definition go_index {A} (l : list A) (i : Z) : option A :=
  if 0 <=? i then l !! Z.to_nat i else None.

(** [l[i] = x]. *)
Definition go_update {A} (l : list A) (i : Z) (x : A) : option (list A) :=
  if (0 <=? i) && (i <? zlen l) then Some (<[Z.to_nat i := x]> l) else None.

(** [l[i:]]. *)
Definition go_slice_from {A} (l : list A) (i : Z) : option (list A) :=
  if (0 <=? i) && (i <=? zlen l) then Some (drop (Z.to_nat i) l) else None.

(** [l[:i]] for [i <= len(l)]. *)
Definition go_slice_to {A} (l : list A) (i : Z) : option (list A) :=
  if (0 <=? i) && (i <=? zlen l) then Some (take (Z.to_nat i) l) else None.

(** [m[k]] on a Go map with zero value [z]. *)
Definition go_map_get `{Countable K} {V} (z : V) (m : gmap K V) (k : K) : V :=
  default z (m !! k).

(** The two's complement reading of the low [w] bits of [x]. *)
Definition wrap_signed (w x : Z) : Z :=
  let r := x mod 2 ^ w in if r <? 2 ^ (w - 1) then r else r - 2 ^ w.

(** [sort.Strings]. *)
Definition sortStrings (l : list string) : list string := merge_sort String.le l.

Declare Scope go_scope.
Delimit Scope go_scope with go.
Notation "l @! i" := (go_index l i) (at level 25, left associativity) : go_scope.
Notation "x '|>' f" := (f x) (at level 50, left associativity, only parsing) : go_scope.
#[global] Open Scope go_scope.

(** ** Tactics *)

(** Turn boolean comparisons in hypotheses and goal into propositions. *)
Ltac b2p :=
  repeat match goal with
  | H : _ && _ = true |- _ => apply andb_prop in H as [? ?]
  | H : _ || _ = false |- _ => apply orb_false_elim in H as [? ?]
  | H : negb _ = true |- _ => apply negb_true_iff in H
  | H : negb _ = false |- _ => apply negb_false_iff in H
  | H : (_ =? _) = true |- _ => apply Z.eqb_eq in H
  | H : (_ =? _) = false |- _ => apply Z.eqb_neq in H
  | H : (_ <=? _) = true |- _ => apply Z.leb_le in H
  | H : (_ <=? _) = false |- _ => apply Z.leb_gt in H
  | H : (_ <? _) = true |- _ => apply Z.ltb_lt in H
  | H : (_ <? _) = false |- _ => apply Z.ltb_ge in H
  | H : (_ >? _) = _ |- _ => rewrite Z.gtb_ltb in H
  | H : (_ >=? _) = _ |- _ => rewrite Z.geb_leb in H
  | H : bool_decide _ = true |- _ => apply bool_decide_eq_true in H
  | H : bool_decide _ = false |- _ => apply bool_decide_eq_false in H
  end.

(** Case analysis on the conditionals and matches of a hypothesis. *)
Ltac case_in H :=
  repeat (match type of H with
  | context [if ?b then _ else _] =>
      lazymatch b with context [if _ then _ else _] => fail | _ => destruct b eqn:? end
  | context [match ?o with Some _ => _ | None => _ end] => destruct o eqn:?
  end; simpl in H; simplify_eq).

(** Invert the successful binds of the context. *)
Ltac bind_all :=
  repeat match goal with
  | H : mbind _ _ = Some _ |- _ => apply bind_Some in H as (? & ? & H)
  end; simplify_eq.

(** [lia] with the equations of quotients and remainders. *)
Ltac lia_div := Z.to_euclidean_division_equations; lia.

(** ** Shared lemmas *)

Create HintDb golist.
Create Rewrite HintDb golist.

Section slices.
Context {A : Type}.
Implicit Types (l : list A) (i : Z) (x : A).

Lemma zlen_nonneg l : 0 <= zlen l.
Proof. unfold zlen. lia. Qed.

Lemma zlen_app l1 l2 : zlen (l1 ++ l2) = zlen l1 + zlen l2.
Proof. unfold zlen. rewrite length_app. lia. Qed.

Lemma zlen_cons x l : zlen (x :: l) = zlen l + 1.
Proof. unfold zlen. simpl. lia. Qed.

Lemma zlen_nil : zlen (@nil A) = 0.
Proof. done. Qed.

Lemma go_index_is_Some l i : is_Some (l @! i) <-> 0 <= i < zlen l.
Proof.
  unfold go_index, zlen. destruct (Z.leb_spec 0 i); [|split; [intros []; done|lia]].
  rewrite lookup_lt_is_Some. lia.
Qed.

Lemma go_index_Some_bound l i x : l @! i = Some x -> 0 <= i < zlen l.
Proof. intros H. apply go_index_is_Some. eauto. Qed.

Lemma go_index_in_range l i : 0 <= i < zlen l -> exists x, l @! i = Some x.
Proof. intros H%go_index_is_Some. exact H. Qed.

Lemma go_index_nat l (n : nat) : l @! Z.of_nat n = l !! n.
Proof. unfold go_index. rewrite Nat2Z.id. destruct (Z.leb_spec 0 (Z.of_nat n)); [done|lia]. Qed.

Lemma go_index_app_l l1 l2 i : i < zlen l1 -> (l1 ++ l2) @! i = l1 @! i.
Proof.
  unfold go_index, zlen. intros ?. destruct (Z.leb_spec 0 i); [|done].
  apply lookup_app_l. lia.
Qed.

Lemma go_index_app_r l1 l2 i : zlen l1 <= i -> (l1 ++ l2) @! i = l2 @! (i - zlen l1).
Proof.
  unfold go_index, zlen. intros ?.
  destruct (Z.leb_spec 0 i), (Z.leb_spec 0 (i - Z.of_nat (length l1))); try lia.
  rewrite lookup_app_r by lia. f_equal. lia.
Qed.

Lemma go_index_cons x l i : 0 < i -> (x :: l) @! i = l @! (i - 1).
Proof.
  intros. change (x :: l) with ([x] ++ l). rewrite go_index_app_r; [done|].
  unfold zlen. simpl. lia.
Qed.

Lemma go_index_0 x l : (x :: l) @! 0 = Some x.
Proof. done. Qed.

Lemma go_index_drop l (n : nat) i : 0 <= i -> drop n l @! i = l @! (Z.of_nat n + i).
Proof.
  unfold go_index. intros ?.
  destruct (Z.leb_spec 0 i), (Z.leb_spec 0 (Z.of_nat n + i)); try lia.
  rewrite lookup_drop. f_equal. lia.
Qed.

Lemma go_index_take l (n : nat) i : i < Z.of_nat n -> take n l @! i = l @! i.
Proof.
  unfold go_index. intros ?. destruct (Z.leb_spec 0 i); [|done].
  apply lookup_take_lt. lia.
Qed.

Lemma zlen_drop l (n : nat) : (n <= length l)%nat -> zlen (drop n l) = zlen l - Z.of_nat n.
Proof. unfold zlen. rewrite length_drop. lia. Qed.

Lemma zlen_take l (n : nat) : (n <= length l)%nat -> zlen (take n l) = Z.of_nat n.
Proof. unfold zlen. rewrite length_take. lia. Qed.

Lemma go_slice_from_Some l i :
  0 <= i <= zlen l -> go_slice_from l i = Some (drop (Z.to_nat i) l).
Proof.
  intros. unfold go_slice_from.
  destruct (Z.leb_spec 0 i), (Z.leb_spec i (zlen l)); try lia. done.
Qed.

Lemma go_slice_to_Some l i :
  0 <= i <= zlen l -> go_slice_to l i = Some (take (Z.to_nat i) l).
Proof.
  intros. unfold go_slice_to.
  destruct (Z.leb_spec 0 i), (Z.leb_spec i (zlen l)); try lia. done.
Qed.

Lemma go_update_Some l i x :
  0 <= i < zlen l -> go_update l i x = Some (<[Z.to_nat i := x]> l).
Proof.
  intros. unfold go_update.
  destruct (Z.leb_spec 0 i), (Z.ltb_spec i (zlen l)); try lia. done.
Qed.

Lemma go_update_length l i x l' : go_update l i x = Some l' -> length l' = length l.
Proof.
  unfold go_update. destruct (_ && _); [|done]. intros [= <-]. apply length_insert.
Qed.

Lemma go_update_index l i x l' j :
  go_update l i x = Some l' -> l' @! j = if j =? i then Some x else l @! j.
Proof.
  unfold go_update, go_index, zlen. intros H. case_in H. b2p.
  destruct (Z.eqb_spec j i) as [->|]; destruct (Z.leb_spec 0 i); try lia.
  - apply list_lookup_insert_eq. lia.
  - destruct (Z.leb_spec 0 j); [|done]. apply list_lookup_insert_ne. lia.
Qed.

(** Two slices that agree at every index are equal. *)
Lemma go_index_ext l1 l2 : (forall i, 0 <= i -> l1 @! i = l2 @! i) -> l1 = l2.
Proof.
  intros H. apply list_eq. intros n. rewrite <- !go_index_nat. apply H. lia.
Qed.
End slices.

#[export] Hint Rewrite @zlen_app @zlen_cons @zlen_nil : golist.
#[export] Hint Resolve zlen_nonneg : golist.

Lemma go_map_get_insert `{Countable K} {V} (z : V) (m : gmap K V) k v k' :
  go_map_get z (<[k := v]> m) k' = if decide (k' = k) then v else go_map_get z m k'.
Proof.
  unfold go_map_get. case_decide; [subst; by rewrite lookup_insert_eq|by rewrite lookup_insert_ne].
Qed.

Lemma elem_of_snoc {A} (l : list A) x y : x ∈ l ++ [y] <-> x ∈ l \/ x = y.
Proof. by rewrite elem_of_app, list_elem_of_singleton. Qed.

Lemma NoDup_snoc {A} (l : list A) x : NoDup (l ++ [x]) <-> NoDup l /\ x ∉ l.
Proof.
  rewrite NoDup_app. split.
  - intros (? & Hd & _). split; [done|]. intros Hx. by eapply Hd, list_elem_of_singleton.
  - intros [? Hx]. split_and!; [done| |apply NoDup_singleton]. by intros y Hy ->%list_elem_of_singleton.
Qed.

(** ** Tables indexed by an id *)

Definition upd {A} (f : Z -> A) (i : Z) (x : A) : Z -> A :=
  fun j => if decide (j = i) then x else f j.

Lemma upd_eq {A} (f : Z -> A) i x : upd f i x i = x.
Proof. unfold upd. by rewrite decide_True. Qed.

Lemma upd_ne {A} (f : Z -> A) i x j : j <> i -> upd f i x j = f j.
Proof. intros. unfold upd. by rewrite decide_False. Qed.

Ltac upd_cases c c' :=
  destruct (decide (c' = c)) as [->|?];
  [rewrite ?upd_eq in * | rewrite ?upd_ne in * by done].

(** ** Machine integers *)

Lemma wrap_signed_small w x :
  0 < w -> - 2 ^ (w - 1) <= x < 2 ^ (w - 1) -> wrap_signed w x = x.
Proof.
  intros Hw Hx. unfold wrap_signed.
  assert (2 ^ w = 2 * 2 ^ (w - 1)) as E.
  { rewrite <- Z.pow_succ_r by lia. f_equal. lia. }
  destruct (Z.le_gt_cases 0 x).
  - rewrite Z.mod_small by lia. destruct (Z.ltb_spec x (2 ^ (w - 1))); lia.
  - replace (x mod 2 ^ w) with (x + 2 ^ w).
    + destruct (Z.ltb_spec (x + 2 ^ w) (2 ^ (w - 1))); lia.
    + symmetry. rewrite <- (Z.mod_add x 1 (2 ^ w)) by lia. rewrite Z.mod_small; lia.
Qed.

(** ** Counting *)

Section counting.
Context {A : Type}.
Implicit Types (l : list A) (P Q : A -> Prop).

Definition countP P `{forall x, Decision (P x)} l : Z := zlen (filter P l).

Lemma countP_cons P `{forall x, Decision (P x)} x l :
  countP P (x :: l) = (if decide (P x) then 1 else 0) + countP P l.
Proof.
  unfold countP, zlen. rewrite filter_cons. destruct (decide (P x)); simpl; lia.
Qed.

Lemma countP_ext P Q `{forall x, Decision (P x)} `{forall x, Decision (Q x)} l :
  (forall x, x ∈ l -> P x <-> Q x) -> countP P l = countP Q l.
Proof.
  intros HPQ. induction l as [|x l IH]; [done|]. rewrite !countP_cons, IH by set_solver.
  assert (P x <-> Q x) by set_solver. repeat case_decide; naive_solver.
Qed.

Lemma countP_le P `{forall x, Decision (P x)} l : 0 <= countP P l <= zlen l.
Proof. unfold countP, zlen. pose proof (length_filter P l). lia. Qed.

Lemma countP_mono P Q `{forall x, Decision (P x)} `{forall x, Decision (Q x)} l :
  (forall x, x ∈ l -> P x -> Q x) -> countP P l <= countP Q l.
Proof.
  intros HPQ. induction l as [|x l IH]; [done|]. rewrite !countP_cons.
  assert (countP P l <= countP Q l) by (apply IH; set_solver).
  assert (P x -> Q x) by set_solver. repeat case_decide; try lia; naive_solver.
Qed.

Lemma countP_none P `{forall x, Decision (P x)} l : (forall x, x ∈ l -> ~ P x) -> countP P l = 0.
Proof.
  intros HP. induction l as [|x l IH]; [done|]. rewrite countP_cons, IH by set_solver.
  rewrite decide_False by set_solver. done.
Qed.

Lemma countP_pos P `{forall x, Decision (P x)} l : 0 < countP P l -> exists x, x ∈ l /\ P x.
Proof.
  intros Hp. destruct (decide (Exists P l)) as [He|Hn]; [by apply Exists_exists in He|].
  rewrite countP_none in Hp; [lia|]. intros x Hx HP. apply Hn, Exists_exists. eauto.
Qed.

(** Predicates that agree but at one element. *)
Lemma countP_one P Q `{forall x, Decision (P x)} `{forall x, Decision (Q x)} l x :
  NoDup l -> x ∈ l -> ~ Q x -> (forall y, y ∈ l -> y <> x -> P y <-> Q y) ->
  countP P l = countP Q l + (if decide (P x) then 1 else 0).
Proof.
  induction l as [|y l IH]; intros Hnd Hx HQ HPQ; [by apply not_elem_of_nil in Hx|].
  apply NoDup_cons in Hnd as [Hy Hnd]. rewrite !countP_cons. apply elem_of_cons in Hx as [->|Hx].
  - rewrite (countP_ext P Q l) by (intros z Hz; apply HPQ; set_solver).
    rewrite (decide_False (P := Q y)) by done. destruct (decide (P y)); lia.
  - rewrite IH; [|done..|set_solver]. assert (P y <-> Q y) by (apply HPQ; set_solver).
    repeat case_decide; try lia; naive_solver.
Qed.

(** Elements grouped by a key from a list without duplicates. *)
Lemma countP_partition {K} `{EqDecision K} (f : A -> option K) (ks : list K) l :
  NoDup ks -> (forall x, x ∈ l -> exists k, k ∈ ks /\ f x = Some k) ->
  foldr Z.add 0 ((fun k => countP (fun x => f x = Some k) l) <$> ks) = zlen l.
Proof.
  intros Hnd. induction l as [|x l IH]; intros Hf.
  - induction ks as [|k ks IHk]; [done|]. apply NoDup_cons in Hnd as [_ Hnd]. rewrite fmap_cons; cbn [foldr].
    rewrite IHk; done || (intros ? ?%not_elem_of_nil; done).
  - rewrite zlen_cons, <- IH by set_solver. destruct (Hf x) as (k0 & Hk0 & Hx); [set_solver|].
    clear IH Hf. induction ks as [|k ks IHk]; [by apply not_elem_of_nil in Hk0|].
    apply NoDup_cons in Hnd as [Hk Hnd]. rewrite !fmap_cons; cbn [foldr]. rewrite countP_cons.
    destruct (decide (k = k0)) as [->|Hne].
    + rewrite decide_True by done.
      replace ((fun k => countP (fun x => f x = Some k) (x :: l)) <$> ks)
        with ((fun k => countP (fun x => f x = Some k) l) <$> ks); [lia|].
      apply list_fmap_ext. intros i k Hik%list_elem_of_lookup_2. rewrite countP_cons, decide_False; [lia|].
      intros ?. simplify_eq. done.
    + rewrite decide_False by naive_solver. rewrite IHk; [lia|done|set_solver].
Qed.

Lemma countP_fmap {B} (f : B -> A) P `{forall x, Decision (P x)} (l : list B) :
  zlen (filter (fun x => P (f x)) l) = countP P (f <$> l).
Proof.
  induction l as [|x l IH]; [done|]. rewrite fmap_cons, countP_cons, filter_cons, <- IH.
  destruct (decide (P (f x))); rewrite ?zlen_cons; lia.
Qed.

Lemma countP_filter P Q `{forall x, Decision (P x)} `{forall x, Decision (Q x)} l :
  countP (fun x => P x /\ Q x) l = countP Q (filter P l).
Proof.
  induction l as [|x l IH]; [done|]. rewrite countP_cons, filter_cons, IH.
  destruct (decide (P x)); [rewrite countP_cons|]; repeat case_decide; tauto || lia.
Qed.
End counting.

(** Sums of integers over a list. *)
Definition sumZ {A} (f : A -> Z) (l : list A) : Z := foldr Z.add 0 (f <$> l).

Lemma sumZ_cons {A} (f : A -> Z) x l : sumZ f (x :: l) = f x + sumZ f l.
Proof. done. Qed.

Lemma sumZ_app {A} (f : A -> Z) l1 l2 : sumZ f (l1 ++ l2) = sumZ f l1 + sumZ f l2.
Proof. induction l1 as [|x l1 IH]; [done|]. simpl. rewrite !sumZ_cons, IH. lia. Qed.

Lemma sumZ_ext {A} (f g : A -> Z) l : (forall x, x ∈ l -> f x = g x) -> sumZ f l = sumZ g l.
Proof.
  intros Hfg. induction l as [|x l IH]; [done|]. rewrite !sumZ_cons.
  rewrite Hfg by (by left). rewrite IH; [done|]. intros y ?. apply Hfg. by right.
Qed.

(** Sums that agree agree termwise, when the terms are ordered. *)
Lemma sumZ_eq {A} (f g : A -> Z) l :
  (forall x, x ∈ l -> f x <= g x) -> sumZ f l = sumZ g l -> forall x, x ∈ l -> f x = g x.
Proof.
  intros Hle. assert (forall l', (forall x, x ∈ l' -> f x <= g x) -> sumZ f l' <= sumZ g l') as Hs.
  { induction l' as [|y l' IH]; intros Hl'; [done|]. rewrite !sumZ_cons.
    pose proof (Hl' y ltac:(by left)). assert (sumZ f l' <= sumZ g l'); [|lia].
    apply IH. intros z ?. apply Hl'. by right. }
  induction l as [|y l IH]; intros He x Hx; [by apply not_elem_of_nil in Hx|].
  rewrite !sumZ_cons in He. pose proof (Hle y ltac:(by left)).
  assert (forall z, z ∈ l -> f z <= g z) as Hl by (intros z ?; apply Hle; by right).
  pose proof (Hs l Hl). apply elem_of_cons in Hx as [->|Hx]; [lia|]. apply IH; [done|lia|done].
Qed.

(** The first element of a list that satisfies [P]. *)
Lemma list_lookup_first {A} (P : A -> Prop) `{forall x, Decision (P x)} (l : list A) k x :
  l !! k = Some x -> P x ->
  exists p y, (p <= k)%nat /\ l !! p = Some y /\ P y /\ forall j z, (j < p)%nat -> l !! j = Some z -> ~ P z.
Proof.
  revert k. induction l as [|y l IH]; intros k Hk Hx; [done|].
  destruct (decide (P y)) as [Hy|Hy]; [exists 0%nat, y; split_and!; [lia|done|done|]; intros; lia|].
  destruct k as [|k]; [by simplify_eq/=|]. destruct (IH k Hk Hx) as (p & z & ? & ? & ? & Hf).
  exists (S p), z. split_and!; [lia|done|done|]. intros [|j] u Hj Hu; [by simplify_eq/=|]. apply (Hf j); [lia|done].
Qed.

Definition isSome {A} (o : option A) : bool := match o with Some _ => true | None => false end.
