(* ===== verification/Persister.v ===== *)
(** * Stable storage: [src/src/raft/persister.go]

    The persister keeps two byte slices, the encoded Raft state and the service's
    snapshot.  Slices are values here, so [clone] is the identity: a caller can
    not reach the stored bytes through the slice it passed or received. *)

From S2P Require Import Prelude.

Record Persister := mkPersister {
  raftstate : bytes;
  snapshot : bytes;
}.

Definition MakePersister : Persister := mkPersister [] [].

Definition clone (orig : bytes) : bytes := orig.

Definition Copy (ps : Persister) : Persister :=
  mkPersister (raftstate ps) (snapshot ps).

Definition ReadRaftState (ps : Persister) : bytes := clone (raftstate ps).

Definition RaftStateSize (ps : Persister) : Z := zlen (raftstate ps).

(** One atomic write of both parts. *)
Definition Save (rs snap : bytes) (ps : Persister) : Persister :=
  mkPersister (clone rs) (clone snap).

Definition ReadSnapshot (ps : Persister) : bytes := clone (snapshot ps).

Definition SnapshotSize (ps : Persister) : Z := zlen (snapshot ps).
