(* ===== verification/Raft.v ===== *)
(** * One Raft peer: [src/src/raft/raft.go]

    The struct [Raft] is the record [Raft]; every function that runs under
    [rf.mu] is one definition from the state before to the state after.  A Go
    panic (slice index out of range) is [None].  A function that talks to the
    network is split where it releases the lock: [replicateTo] sends with
    [replicateTo_send] and resumes with [replicateTo_snapshot_reply] or
    [replicateTo_append_reply]; the vote goroutine of [startElection] resumes with
    [requestVote_reply].  Goroutines started and messages put on [applyCh] are
    the [Effect]s a function returns; [applyCond.Signal] only wakes the applier
    and has no other effect on the state.  [int] is [Z]: terms and indices grow by
    one per step and stay far below 2^63. *)

From S2P Require Import Prelude Persister.

(** ** Data *)

Inductive Role := Follower | Candidate | Leader.

#[global] Instance Role_eq_dec : EqDecision Role.
Proof. solve_decision. Defined.

(** Durations are in nanoseconds. *)
Definition heartbeatInterval : Z := 100 * 1000000.
Definition electionTimeoutLo : Z := 300 * 1000000.
Definition electionTimeoutHi : Z := 600 * 1000000.

(** [Command] is a Go [interface{}]; [None] is [nil]. *)
Record LogEntry (Cmd : Type) := mkEntry { Term : Z; Command : option Cmd }.
Arguments mkEntry {Cmd} _ _.
Arguments Term {Cmd} _.
Arguments Command {Cmd} _.

Inductive ApplyMsg (Cmd : Type) :=
| CommandMsg (Command : option Cmd) (CommandIndex : Z)
| SnapshotMsg (Snapshot : bytes) (SnapshotTerm SnapshotIndex : Z).
Arguments CommandMsg {Cmd} _ _.
Arguments SnapshotMsg {Cmd} _ _ _.

Record Raft (Cmd : Type) := mkRaft {
  npeers : nat; (* len(rf.peers) *)
  me : Z;
  dead : bool;
  persister : Persister;
  currentTerm : Z;
  votedFor : Z;
  log : list (LogEntry Cmd);
  lastIncludedIndex : Z;
  lastIncludedTerm : Z;
  commitIndex : Z;
  lastApplied : Z;
  role : Role;
  nextIndex : list Z;
  matchIndex : list Z;
  electionResetAt : Z;
  electionTimeout : Z;
}.
Arguments mkRaft {Cmd} _ _ _ _ _ _ _ _ _ _ _ _ _ _ _ _.
Arguments npeers {Cmd} _.
Arguments me {Cmd} _.
Arguments dead {Cmd} _.
Arguments persister {Cmd} _.
Arguments currentTerm {Cmd} _.
Arguments votedFor {Cmd} _.
Arguments log {Cmd} _.
Arguments lastIncludedIndex {Cmd} _.
Arguments lastIncludedTerm {Cmd} _.
Arguments commitIndex {Cmd} _.
Arguments lastApplied {Cmd} _.
Arguments role {Cmd} _.
Arguments nextIndex {Cmd} _.
Arguments matchIndex {Cmd} _.
Arguments electionResetAt {Cmd} _.
Arguments electionTimeout {Cmd} _.

Record RequestVoteArgs := mkRequestVoteArgs {
  rv_Term : Z; rv_CandidateId : Z; rv_LastLogIndex : Z; rv_LastLogTerm : Z }.

Record RequestVoteReply := mkRequestVoteReply {
  rvr_Term : Z; rvr_VoteGranted : bool }.

Record AppendEntriesArgs (Cmd : Type) := mkAppendEntriesArgs {
  ae_Term : Z; ae_LeaderId : Z; ae_PrevLogIndex : Z; ae_PrevLogTerm : Z;
  ae_Entries : list (LogEntry Cmd); ae_LeaderCommit : Z }.
Arguments mkAppendEntriesArgs {Cmd} _ _ _ _ _ _.
Arguments ae_Term {Cmd} _.
Arguments ae_LeaderId {Cmd} _.
Arguments ae_PrevLogIndex {Cmd} _.
Arguments ae_PrevLogTerm {Cmd} _.
Arguments ae_Entries {Cmd} _.
Arguments ae_LeaderCommit {Cmd} _.

Record AppendEntriesReply := mkAppendEntriesReply {
  aer_Term : Z; aer_Success : bool; aer_ConflictTerm : Z; aer_ConflictIndex : Z }.

Record InstallSnapshotArgs := mkInstallSnapshotArgs {
  is_Term : Z; is_LeaderId : Z; is_LastIncludedIndex : Z; is_LastIncludedTerm : Z;
  is_Data : bytes }.

Record InstallSnapshotReply := mkInstallSnapshotReply { isr_Term : Z }.

(** What a function under the lock leaves to other goroutines. *)
Inductive Effect (Cmd : Type) :=
| GoRequestVote (server : Z) (args : RequestVoteArgs)
| GoReplicateTo (server term : Z)
| SendApplyCh (msg : ApplyMsg Cmd).
Arguments GoRequestVote {Cmd} _ _.
Arguments GoReplicateTo {Cmd} _ _.
Arguments SendApplyCh {Cmd} _.

(** The environment of one call: the clock and the value [rand.Int63n] returns. *)
Record Env := mkEnv { now : Z; rnd : Z }.

(** The five values [encodeState] writes, in its order. *)
Record PersistentState (Cmd : Type) := mkPState {
  p_currentTerm : Z; p_votedFor : Z; p_log : list (LogEntry Cmd);
  p_lastIncludedIndex : Z; p_lastIncludedTerm : Z }.
Arguments mkPState {Cmd} _ _ _ _ _.

(** [encoding/gob], as [encodeState] and [readPersist] use it: the five values
    written by a fresh encoder, and read back by a fresh decoder ([None] when one
    of the reads returns an error). *)
Class StateCodec (Cmd : Type) := {
  gobEncodeState : PersistentState Cmd -> bytes;
  gobDecodeState : bytes -> option (PersistentState Cmd);
}.

Class StateCodecOk (Cmd : Type) `{StateCodec Cmd} : Prop := {
  gob_roundtrip : forall s, gobDecodeState (gobEncodeState s) = Some s;
  gob_nonempty : forall s, gobEncodeState s <> [];
}.

Section raft.
Context {Cmd : Type} `{StateCodec Cmd}.
Implicit Types (rf : Raft Cmd).

Definition set_dead (v : bool) (rf : Raft Cmd) : Raft Cmd :=
  mkRaft
    (npeers rf) (me rf) v (persister rf) (currentTerm rf) (votedFor rf) (log rf) (lastIncludedIndex rf)
    (lastIncludedTerm rf) (commitIndex rf) (lastApplied rf) (role rf) (nextIndex rf) (matchIndex rf) (electionResetAt rf) (electionTimeout rf).
Definition set_persister (v : Persister) (rf : Raft Cmd) : Raft Cmd :=
  mkRaft
    (npeers rf) (me rf) (dead rf) v (currentTerm rf) (votedFor rf) (log rf) (lastIncludedIndex rf)
    (lastIncludedTerm rf) (commitIndex rf) (lastApplied rf) (role rf) (nextIndex rf) (matchIndex rf) (electionResetAt rf) (electionTimeout rf).
Definition set_currentTerm (v : Z) (rf : Raft Cmd) : Raft Cmd :=
  mkRaft
    (npeers rf) (me rf) (dead rf) (persister rf) v (votedFor rf) (log rf) (lastIncludedIndex rf)
    (lastIncludedTerm rf) (commitIndex rf) (lastApplied rf) (role rf) (nextIndex rf) (matchIndex rf) (electionResetAt rf) (electionTimeout rf).
Definition set_votedFor (v : Z) (rf : Raft Cmd) : Raft Cmd :=
  mkRaft
    (npeers rf) (me rf) (dead rf) (persister rf) (currentTerm rf) v (log rf) (lastIncludedIndex rf)
    (lastIncludedTerm rf) (commitIndex rf) (lastApplied rf) (role rf) (nextIndex rf) (matchIndex rf) (electionResetAt rf) (electionTimeout rf).
Definition set_log (v : list (LogEntry Cmd)) (rf : Raft Cmd) : Raft Cmd :=
  mkRaft
    (npeers rf) (me rf) (dead rf) (persister rf) (currentTerm rf) (votedFor rf) v (lastIncludedIndex rf)
    (lastIncludedTerm rf) (commitIndex rf) (lastApplied rf) (role rf) (nextIndex rf) (matchIndex rf) (electionResetAt rf) (electionTimeout rf).
Definition set_lastIncludedIndex (v : Z) (rf : Raft Cmd) : Raft Cmd :=
  mkRaft
    (npeers rf) (me rf) (dead rf) (persister rf) (currentTerm rf) (votedFor rf) (log rf) v
    (lastIncludedTerm rf) (commitIndex rf) (lastApplied rf) (role rf) (nextIndex rf) (matchIndex rf) (electionResetAt rf) (electionTimeout rf).
Definition set_lastIncludedTerm (v : Z) (rf : Raft Cmd) : Raft Cmd :=
  mkRaft
    (npeers rf) (me rf) (dead rf) (persister rf) (currentTerm rf) (votedFor rf) (log rf) (lastIncludedIndex rf)
    v (commitIndex rf) (lastApplied rf) (role rf) (nextIndex rf) (matchIndex rf) (electionResetAt rf) (electionTimeout rf).
Definition set_commitIndex (v : Z) (rf : Raft Cmd) : Raft Cmd :=
  mkRaft
    (npeers rf) (me rf) (dead rf) (persister rf) (currentTerm rf) (votedFor rf) (log rf) (lastIncludedIndex rf)
    (lastIncludedTerm rf) v (lastApplied rf) (role rf) (nextIndex rf) (matchIndex rf) (electionResetAt rf) (electionTimeout rf).
Definition set_lastApplied (v : Z) (rf : Raft Cmd) : Raft Cmd :=
  mkRaft
    (npeers rf) (me rf) (dead rf) (persister rf) (currentTerm rf) (votedFor rf) (log rf) (lastIncludedIndex rf)
    (lastIncludedTerm rf) (commitIndex rf) v (role rf) (nextIndex rf) (matchIndex rf) (electionResetAt rf) (electionTimeout rf).
Definition set_role (v : Role) (rf : Raft Cmd) : Raft Cmd :=
  mkRaft
    (npeers rf) (me rf) (dead rf) (persister rf) (currentTerm rf) (votedFor rf) (log rf) (lastIncludedIndex rf)
    (lastIncludedTerm rf) (commitIndex rf) (lastApplied rf) v (nextIndex rf) (matchIndex rf) (electionResetAt rf) (electionTimeout rf).
Definition set_nextIndex (v : list Z) (rf : Raft Cmd) : Raft Cmd :=
  mkRaft
    (npeers rf) (me rf) (dead rf) (persister rf) (currentTerm rf) (votedFor rf) (log rf) (lastIncludedIndex rf)
    (lastIncludedTerm rf) (commitIndex rf) (lastApplied rf) (role rf) v (matchIndex rf) (electionResetAt rf) (electionTimeout rf).
Definition set_matchIndex (v : list Z) (rf : Raft Cmd) : Raft Cmd :=
  mkRaft
    (npeers rf) (me rf) (dead rf) (persister rf) (currentTerm rf) (votedFor rf) (log rf) (lastIncludedIndex rf)
    (lastIncludedTerm rf) (commitIndex rf) (lastApplied rf) (role rf) (nextIndex rf) v (electionResetAt rf) (electionTimeout rf).
Definition set_electionResetAt (v : Z) (rf : Raft Cmd) : Raft Cmd :=
  mkRaft
    (npeers rf) (me rf) (dead rf) (persister rf) (currentTerm rf) (votedFor rf) (log rf) (lastIncludedIndex rf)
    (lastIncludedTerm rf) (commitIndex rf) (lastApplied rf) (role rf) (nextIndex rf) (matchIndex rf) v (electionTimeout rf).
Definition set_electionTimeout (v : Z) (rf : Raft Cmd) : Raft Cmd :=
  mkRaft
    (npeers rf) (me rf) (dead rf) (persister rf) (currentTerm rf) (votedFor rf) (log rf) (lastIncludedIndex rf)
    (lastIncludedTerm rf) (commitIndex rf) (lastApplied rf) (role rf) (nextIndex rf) (matchIndex rf) (electionResetAt rf) v.

(** ** Log index helpers *)

Definition lastLogIndex rf : Z := lastIncludedIndex rf + zlen (log rf) - 1.

Definition entryAt rf (idx : Z) : option (LogEntry Cmd) :=
  log rf @! (idx - lastIncludedIndex rf).

Definition termAt rf (idx : Z) : option Z :=
  e ← log rf @! (idx - lastIncludedIndex rf); Some (Term e).

Definition GetState rf : Z * bool :=
  (currentTerm rf, bool_decide (role rf = Leader)).

Definition HasCurrentTermLog rf : option bool :=
  t ← termAt rf (lastLogIndex rf); Some (t =? currentTerm rf).

(** ** Persistence *)

Definition persistentState rf : PersistentState Cmd :=
  mkPState (currentTerm rf) (votedFor rf) (log rf)
    (lastIncludedIndex rf) (lastIncludedTerm rf).

Definition encodeState rf : bytes := gobEncodeState (persistentState rf).

Definition persist rf : Raft Cmd :=
  set_persister (Save (encodeState rf) (ReadSnapshot (persister rf)) (persister rf)) rf.

Definition dummyLog : list (LogEntry Cmd) := [mkEntry 0 None].

Definition readPersist (data : bytes) rf : Raft Cmd :=
  if zlen data <? 1 then set_log dummyLog rf
  else match gobDecodeState data with
  | None => set_log dummyLog rf
  | Some p =>
      rf |> set_currentTerm (p_currentTerm _ p)
         |> set_votedFor (p_votedFor _ p)
         |> set_log (p_log _ p)
         |> set_lastIncludedIndex (p_lastIncludedIndex _ p)
         |> set_lastIncludedTerm (p_lastIncludedTerm _ p)
         |> set_commitIndex (p_lastIncludedIndex _ p)
         |> set_lastApplied (p_lastIncludedIndex _ p)
  end.

Definition Snapshot (index : Z) (snap : bytes) rf : option (Raft Cmd) :=
  if (index <=? lastIncludedIndex rf) || (index >? commitIndex rf) then Some rf
  else
    t ← termAt rf index;
    tail ← go_slice_from (log rf) (index - lastIncludedIndex rf + 1);
    let rf := rf |> set_lastIncludedTerm t
                 |> set_lastIncludedIndex index
                 |> set_log (mkEntry t None :: tail) in
    Some (set_persister (Save (encodeState rf) snap (persister rf)) rf).

(** ** Role transitions and timers *)

Definition resetElectionTimer (env : Env) rf : Raft Cmd :=
  rf |> set_electionResetAt (now env)
     |> set_electionTimeout (electionTimeoutLo + rnd env).

Definition becomeFollower (term : Z) rf : Raft Cmd :=
  rf |> set_currentTerm term
     |> set_votedFor (-1)
     |> set_role Follower
     |> persist.

(** The preamble the three RPC handlers share: a newer term makes a follower. *)
Definition observeTerm (term : Z) rf : Raft Cmd :=
  if term >? currentTerm rf then becomeFollower term rf else rf.

(** ** RequestVote *)

Definition candidateUpToDate (lastIndex lastTerm : Z) rf : option bool :=
  let myIndex := lastLogIndex rf in
  myTerm ← termAt rf myIndex;
  Some (if negb (lastTerm =? myTerm) then lastTerm >? myTerm
        else lastIndex >=? myIndex).

Definition RequestVote (env : Env) (args : RequestVoteArgs) rf
  : option (Raft Cmd * RequestVoteReply) :=
  if rv_Term args <? currentTerm rf then
    Some (rf, mkRequestVoteReply (currentTerm rf) false)
  else
    let rf := observeTerm (rv_Term args) rf in
    upToDate ← candidateUpToDate (rv_LastLogIndex args) (rv_LastLogTerm args) rf;
    if ((votedFor rf =? -1) || (votedFor rf =? rv_CandidateId args)) && upToDate then
      Some (rf |> set_votedFor (rv_CandidateId args)
               |> resetElectionTimer env
               |> persist,
            mkRequestVoteReply (currentTerm rf) true)
    else Some (rf, mkRequestVoteReply (currentTerm rf) false).

(** ** AppendEntries *)

(** The loop that walks back to the first index of the conflicting term; the
    loop variable is [i = lastIncludedIndex + d]. *)
Fixpoint conflictScan (ct : Z) rf (d : nat) : option Z :=
  match d with
  | O => Some (lastIncludedIndex rf)
  | S d' =>
      t ← termAt rf (lastIncludedIndex rf + Z.of_nat d');
      if t =? ct then conflictScan ct rf d'
      else Some (lastIncludedIndex rf + Z.of_nat d)
  end.

(** The loop over [args.Entries]: skip the entries already present, truncate at
    the first conflict, append the rest. *)
Fixpoint appendLoop rf (idx : Z) (entries : list (LogEntry Cmd))
  : option (list (LogEntry Cmd)) :=
  match entries with
  | [] => Some (log rf)
  | entry :: rest =>
      if idx <=? lastLogIndex rf then
        t ← termAt rf idx;
        if t =? Term entry then appendLoop rf (idx + 1) rest
        else
          kept ← go_slice_to (log rf) (idx - lastIncludedIndex rf);
          Some (kept ++ entries)
      else Some (log rf ++ entries)
  end.

(** [AppendEntries] from the consistency check on. *)
Definition AppendEntries_check (args : AppendEntriesArgs Cmd) (ci : Z) rf
  : option (Raft Cmd * AppendEntriesReply) :=
  let fail ct ci := mkAppendEntriesReply (currentTerm rf) false ct ci in
  if ae_PrevLogIndex args >? lastLogIndex rf then
    Some (rf, fail (-1) (lastLogIndex rf + 1))
  else
    t ← termAt rf (ae_PrevLogIndex args);
    if negb (t =? ae_PrevLogTerm args) then
      i ← conflictScan t rf (Z.to_nat (ae_PrevLogIndex args - lastIncludedIndex rf));
      Some (rf, fail t i)
    else
      l ← appendLoop rf (ae_PrevLogIndex args + 1) (ae_Entries args);
      let rf := persist (set_log l rf) in
      let rf := set_commitIndex
                  (if ae_LeaderCommit args >? commitIndex rf
                   then Z.min (ae_LeaderCommit args) (lastLogIndex rf)
                   else commitIndex rf) rf in
      Some (rf, mkAppendEntriesReply (currentTerm rf) true (-1) ci).

Definition AppendEntries (env : Env) (args : AppendEntriesArgs Cmd) rf
  : option (Raft Cmd * AppendEntriesReply) :=
  if ae_Term args <? currentTerm rf then
    Some (rf, mkAppendEntriesReply (currentTerm rf) false (-1) (-1))
  else
    let rf := observeTerm (ae_Term args) rf in
    let rf := rf |> set_role Follower |> resetElectionTimer env in
    if ae_PrevLogIndex args <? lastIncludedIndex rf then
      let ci := lastIncludedIndex rf + 1 in
      if ae_PrevLogIndex args + zlen (ae_Entries args) <=? lastIncludedIndex rf then
        Some (rf, mkAppendEntriesReply (currentTerm rf) false (-1) ci)
      else
        let offset := lastIncludedIndex rf - ae_PrevLogIndex args in
        entries ← (if offset <=? zlen (ae_Entries args)
                   then go_slice_from (ae_Entries args) offset else Some []);
        AppendEntries_check
          (mkAppendEntriesArgs (ae_Term args) (ae_LeaderId args)
             (lastIncludedIndex rf) (lastIncludedTerm rf) entries
             (ae_LeaderCommit args)) ci rf
    else AppendEntries_check args (-1) rf.

(** ** InstallSnapshot *)

(** The log after the snapshot [(LII, LIT)]: the entries after [LII] if the log
    holds the entry the snapshot ends with, nothing otherwise. *)
Definition snapshotLog (LII LIT : Z) rf : option (list (LogEntry Cmd)) :=
  covered ← (if LII <? lastLogIndex rf
             then t ← termAt rf LII; Some (t =? LIT) else Some false);
  if covered : bool then
    tail ← go_slice_from (log rf) (LII - lastIncludedIndex rf + 1);
    Some (mkEntry LIT None :: tail)
  else Some [mkEntry LIT None].

Definition InstallSnapshot (env : Env) (args : InstallSnapshotArgs) rf
  : option (Raft Cmd * InstallSnapshotReply * list (Effect Cmd)) :=
  if is_Term args <? currentTerm rf then
    Some (rf, mkInstallSnapshotReply (currentTerm rf), [])
  else
    let rf := observeTerm (is_Term args) rf in
    let reply := mkInstallSnapshotReply (currentTerm rf) in
    let rf := rf |> set_role Follower |> resetElectionTimer env in
    let LII := is_LastIncludedIndex args in
    let LIT := is_LastIncludedTerm args in
    if LII <=? lastIncludedIndex rf then Some (rf, reply, [])
    else
      newLog ← snapshotLog LII LIT rf;
      let rf := rf |> set_log newLog
                   |> set_lastIncludedIndex LII
                   |> set_lastIncludedTerm LIT in
      let rf := set_commitIndex (if commitIndex rf <? LII then LII else commitIndex rf) rf in
      let rf := set_lastApplied (if lastApplied rf <? LII then LII else lastApplied rf) rf in
      let rf := set_persister (Save (encodeState rf) (is_Data args) (persister rf)) rf in
      Some (rf, reply, [SendApplyCh (SnapshotMsg (is_Data args) LIT LII)]).

(** ** Start, Kill *)

(** [for peer := range rf.peers { if peer == rf.me { continue } ... }] *)
Definition otherPeers rf : list Z :=
  filter (fun p => p <> me rf) (seqZ 0 (Z.of_nat (npeers rf))).

Definition broadcastAppendEntries rf : list (Effect Cmd) :=
  (fun peer => GoReplicateTo peer (currentTerm rf)) <$> otherPeers rf.

Definition Start (command : option Cmd) rf
  : Raft Cmd * (Z * Z * bool) * list (Effect Cmd) :=
  if negb (bool_decide (role rf = Leader)) then
    (rf, (-1, currentTerm rf, false), [])
  else
    let rf := set_log (log rf ++ [mkEntry (currentTerm rf) command]) rf in
    let index := lastLogIndex rf in
    let rf := persist rf in
    (rf, (index, currentTerm rf, true), broadcastAppendEntries rf).

Definition Kill rf : Raft Cmd := set_dead true rf.

Definition killed rf : bool := dead rf.

(** ** Elections *)

Definition startElection (env : Env) rf : option (Raft Cmd * list (Effect Cmd)) :=
  let rf := rf |> set_role Candidate
               |> set_currentTerm (currentTerm rf + 1)
               |> set_votedFor (me rf)
               |> resetElectionTimer env
               |> persist in
  let lastIndex := lastLogIndex rf in
  lastTerm ← termAt rf lastIndex;
  let args := mkRequestVoteArgs (currentTerm rf) (me rf) lastIndex lastTerm in
  Some (rf, (fun peer => GoRequestVote peer args) <$> otherPeers rf).

(** One iteration of the ticker's loop, after the sleep. *)
Definition ticker (env : Env) rf : option (Raft Cmd * list (Effect Cmd)) :=
  if negb (bool_decide (role rf = Leader))
     && (now env - electionResetAt rf >=? electionTimeout rf)
  then startElection env rf else Some (rf, []).

Definition becomeLeader rf : Raft Cmd * list (Effect Cmd) :=
  if negb (bool_decide (role rf = Candidate)) then (rf, [])
  else
    let next := lastLogIndex rf + 1 in
    let rf := rf |> set_role Leader
                 |> set_nextIndex (replicate (npeers rf) next)
                 |> set_matchIndex (replicate (npeers rf) 0) in
    (rf, broadcastAppendEntries rf).

(** The vote goroutine once the reply is in: [term] and [votes] are the variables
    the closure shares with [startElection]. *)
Definition requestVote_reply (term votes : Z) (reply : RequestVoteReply) rf
  : Raft Cmd * Z * list (Effect Cmd) :=
  if negb (currentTerm rf =? term) || negb (bool_decide (role rf = Candidate)) then
    (rf, votes, [])
  else if rvr_Term reply >? currentTerm rf then
    (becomeFollower (rvr_Term reply) rf, votes, [])
  else if rvr_VoteGranted reply then
    let votes := votes + 1 in
    if votes >? Z.of_nat (npeers rf) / 2 then
      let '(rf, eff) := becomeLeader rf in (rf, votes, eff)
    else (rf, votes, [])
  else (rf, votes, []).

(** One iteration of the heartbeat loop. *)
Definition heartbeatLoop rf : list (Effect Cmd) :=
  if bool_decide (role rf = Leader) then broadcastAppendEntries rf else [].

(** ** Replication *)

(** What [replicateTo] sends, read under the first lock. *)
Inductive ReplicateMsg :=
| ReplicateNothing
| ReplicateSnapshot (args : InstallSnapshotArgs)
| ReplicateEntries (args : AppendEntriesArgs Cmd).

Definition replicateTo_send (server term : Z) rf : option ReplicateMsg :=
  if negb (bool_decide (role rf = Leader)) || negb (currentTerm rf =? term) then
    Some ReplicateNothing
  else
    next ← nextIndex rf @! server;
    if next <=? lastIncludedIndex rf then
      Some (ReplicateSnapshot
        (mkInstallSnapshotArgs (currentTerm rf) (me rf) (lastIncludedIndex rf)
           (lastIncludedTerm rf) (ReadSnapshot (persister rf))))
    else
      let prevIndex := next - 1 in
      prevTerm ← termAt rf prevIndex;
      entries ← go_slice_from (log rf) (prevIndex - lastIncludedIndex rf + 1);
      Some (ReplicateEntries
        (mkAppendEntriesArgs (currentTerm rf) (me rf) prevIndex prevTerm entries
           (commitIndex rf))).

Definition replicateTo_snapshot_reply (server term : Z) (args : InstallSnapshotArgs)
    (reply : InstallSnapshotReply) rf : option (Raft Cmd) :=
  if negb (bool_decide (role rf = Leader)) || negb (currentTerm rf =? term) then Some rf
  else if isr_Term reply >? currentTerm rf then
    Some (becomeFollower (isr_Term reply) rf)
  else
    m ← matchIndex rf @! server;
    let m := Z.max m (is_LastIncludedIndex args) in
    matches ← go_update (matchIndex rf) server m;
    nexts ← go_update (nextIndex rf) server (m + 1);
    Some (rf |> set_matchIndex matches |> set_nextIndex nexts).

(** The inner loop of [advanceCommit] over the peers. *)
Fixpoint countMatches (n : Z) rf (peers : list Z) (count : Z) : option Z :=
  match peers with
  | [] => Some count
  | peer :: rest =>
      if negb (peer =? me rf) then
        m ← matchIndex rf @! peer;
        countMatches n rf rest (if m >=? n then count + 1 else count)
      else countMatches n rf rest count
  end.

(** The outer loop; the loop variable is [n = commitIndex + d]. *)
Fixpoint advanceLoop rf (d : nat) : option (Raft Cmd) :=
  match d with
  | O => Some rf
  | S d' =>
      let n := commitIndex rf + Z.of_nat d in
      t ← termAt rf n;
      if negb (t =? currentTerm rf) then advanceLoop rf d'
      else
        count ← countMatches n rf (seqZ 0 (Z.of_nat (npeers rf))) 1;
        if count >? Z.of_nat (npeers rf) / 2 then Some (set_commitIndex n rf)
        else advanceLoop rf d'
  end.

Definition advanceCommit rf : option (Raft Cmd) :=
  advanceLoop rf (Z.to_nat (lastLogIndex rf - commitIndex rf)).

(** The last index in the log with term [ct], [-1] if none; the loop variable
    is [i = lastIncludedIndex + d]. *)
Fixpoint lastOfTerm (ct : Z) rf (d : nat) : option Z :=
  match d with
  | O => Some (-1)
  | S d' =>
      t ← termAt rf (lastIncludedIndex rf + Z.of_nat d);
      if t =? ct then Some (lastIncludedIndex rf + Z.of_nat d)
      else lastOfTerm ct rf d'
  end.

(** Where to resume after a failed [AppendEntries]; [next] is the current
    [nextIndex[server]]. *)
Definition backupNext (next : Z) (reply : AppendEntriesReply) rf : option Z :=
  next ← (if aer_ConflictTerm reply =? -1 then
            Some (if aer_ConflictIndex reply >? 0 then aer_ConflictIndex reply else next)
          else
            last ← lastOfTerm (aer_ConflictTerm reply) rf
                     (Z.to_nat (lastLogIndex rf - lastIncludedIndex rf));
            Some (if last >=? 0 then last + 1 else aer_ConflictIndex reply));
  Some (if next <? 1 then 1 else next).

Definition replicateTo_append_reply (server term : Z) (args : AppendEntriesArgs Cmd)
    (reply : AppendEntriesReply) rf : option (Raft Cmd) :=
  if negb (bool_decide (role rf = Leader)) || negb (currentTerm rf =? term) then Some rf
  else if aer_Term reply >? currentTerm rf then
    Some (becomeFollower (aer_Term reply) rf)
  else if aer_Success reply then
    let newMatch := ae_PrevLogIndex args + zlen (ae_Entries args) in
    m ← matchIndex rf @! server;
    rf ← (if newMatch >? m then
            matches ← go_update (matchIndex rf) server newMatch;
            nexts ← go_update (nextIndex rf) server (newMatch + 1);
            Some (rf |> set_matchIndex matches |> set_nextIndex nexts)
          else Some rf);
    advanceCommit rf
  else
    next ← nextIndex rf @! server;
    next ← backupNext next reply rf;
    nexts ← go_update (nextIndex rf) server next;
    Some (set_nextIndex nexts rf).

(** ** Applying *)

(** One iteration of the applier's loop; no effect means it waits or retries. *)
Definition applier rf : option (Raft Cmd * list (Effect Cmd)) :=
  if (lastApplied rf <? commitIndex rf) && (lastApplied rf >=? lastIncludedIndex rf) then
    let rf := set_lastApplied (lastApplied rf + 1) rf in
    if lastApplied rf <=? lastIncludedIndex rf then
      Some (set_lastApplied (lastIncludedIndex rf) rf, [])
    else
      e ← entryAt rf (lastApplied rf);
      Some (rf, [SendApplyCh (CommandMsg (Command e) (lastApplied rf))])
  else Some (rf, []).

(** ** Make *)

Definition Make (env : Env) (n : nat) (me : Z) (ps : Persister) : Raft Cmd :=
  let rf := mkRaft n me false ps 0 (-1) [] 0 0 0 0 Follower [] [] 0 0 in
  let rf := resetElectionTimer env rf in
  readPersist (ReadRaftState ps) rf.

End raft.
Arguments ReplicateMsg Cmd : clear implicits.
Arguments dummyLog : clear implicits.
