(* ===== verification/RaftCodec.v ===== *)
(** * A concrete codec for the persistent state

    [Raft] is parameterised by the codec [encoding/gob] provides; this one packs
    the state into the bits of a number.  It shows that the laws assumed of the codec
    can hold, and makes the examples of the other files executable. *)

From S2P Require Import Prelude Persister Raft.

(** The bits of a [positive], one per byte. *)
Fixpoint bitsOfPos (p : positive) : bytes :=
  match p with
  | xH => [Byte.x01]
  | xO q => Byte.x00 :: bitsOfPos q
  | xI q => Byte.x01 :: bitsOfPos q
  end.

Fixpoint posOfBits (b : bytes) : option positive :=
  match b with
  | [] => None
  | [Byte.x01] => Some xH
  | Byte.x00 :: b => xO <$> posOfBits b
  | Byte.x01 :: b => xI <$> posOfBits b
  | _ => None
  end.

Lemma posOfBits_bitsOfPos p : posOfBits (bitsOfPos p) = Some p.
Proof.
  induction p as [p IH|p IH|]; simpl; [|by rewrite IH|done].
  rewrite IH. by destruct p.
Qed.

Lemma bitsOfPos_nonempty p : bitsOfPos p <> [].
Proof. by destruct p. Qed.

Definition packState {Cmd} (s : PersistentState Cmd) : Z * Z * list (Z * option Cmd) * Z * Z :=
  (p_currentTerm _ s, p_votedFor _ s, (fun e => (Term e, Command e)) <$> p_log _ s,
   p_lastIncludedIndex _ s, p_lastIncludedTerm _ s).

Definition unpackState {Cmd} (x : Z * Z * list (Z * option Cmd) * Z * Z) : PersistentState Cmd :=
  let '(t, v, l, i, it) := x in
  mkPState t v ((fun e => mkEntry e.1 e.2) <$> l) i it.

#[global] Instance bitCodec Cmd `{Countable Cmd} : StateCodec Cmd := {|
  gobEncodeState s := bitsOfPos (encode (packState s));
  gobDecodeState b := p ← posOfBits b; unpackState <$> decode p;
|}.

#[global] Instance bitCodecOk Cmd `{Countable Cmd} : StateCodecOk Cmd.
Proof.
  split; intros s; simpl; [|apply bitsOfPos_nonempty].
  rewrite posOfBits_bitsOfPos. simpl. rewrite decode_encode. simpl. f_equal.
  destruct s as [t v l i it]. unfold unpackState, packState. simpl. f_equal.
  induction l as [|[tm c] l IH]; simpl; [done|]. by f_equal.
Qed.

(** A call at time 0, and one a second later (past any election timeout). *)
Definition demoEnv : Env := mkEnv 0 0.
Definition lateEnv : Env := mkEnv 1000000000 5.
