(* ===== verification/RaftLocal.v ===== *)
(** * Theorems about one Raft peer

    Properties of the definitions of [Raft] that hold for every message a peer
    may receive, before any assumption on the other peers. *)

From S2P Require Import Prelude Persister Raft RaftCodec.

Section local.
Context {Cmd : Type} `{StateCodec Cmd}.
Implicit Types (rf : Raft Cmd).

(** ** Reading the log *)

Lemma termAt_is_Some rf idx :
  is_Some (termAt rf idx) <-> lastIncludedIndex rf <= idx <= lastLogIndex rf.
Proof.
  unfold termAt, lastLogIndex. split.
  - intros [t (e & He%go_index_Some_bound & _)%bind_Some]. lia.
  - intros ?. destruct (go_index_in_range (log rf) (idx - lastIncludedIndex rf)) as [e ->]; [lia|eauto].
Qed.

Lemma termAt_in_range rf idx :
  lastIncludedIndex rf <= idx <= lastLogIndex rf -> exists t, termAt rf idx = Some t.
Proof. intros Hr%termAt_is_Some. exact Hr. Qed.

Lemma termAt_Some_bound rf idx t :
  termAt rf idx = Some t -> lastIncludedIndex rf <= idx <= lastLogIndex rf.
Proof. intros Ht. apply termAt_is_Some. eauto. Qed.

Lemma termAt_entryAt rf idx t :
  termAt rf idx = Some t <-> exists e, entryAt rf idx = Some e /\ Term e = t.
Proof. unfold termAt, entryAt. rewrite bind_Some. split; intros (e & ? & ?); exists e; naive_solver. Qed.

Lemma log_nonempty_last rf : log rf <> [] -> lastIncludedIndex rf <= lastLogIndex rf.
Proof. unfold lastLogIndex, zlen. destruct (log rf); simpl; [done|lia]. Qed.

(** ** The invariant of a peer *)

(** [log] starts with the dummy entry of the snapshot; a leader has one
    [nextIndex] and one [matchIndex] per peer. *)
Record wf rf : Prop := {
  wf_dummy : exists e, log rf @! 0 = Some e /\ Term e = lastIncludedTerm rf;
  wf_lii : 0 <= lastIncludedIndex rf <= commitIndex rf;
  wf_applied : lastIncludedIndex rf <= lastApplied rf;
  wf_me : 0 <= me rf < Z.of_nat (npeers rf);
  wf_arrays : role rf = Leader ->
    length (nextIndex rf) = npeers rf /\ length (matchIndex rf) = npeers rf;
}.

Lemma wf_log rf : wf rf -> log rf <> [].
Proof. intros [(e & He & _) _ _ _ _] E. by rewrite E in He. Qed.

Lemma wf_last rf : wf rf -> lastIncludedIndex rf <= lastLogIndex rf.
Proof. intros. by apply log_nonempty_last, wf_log. Qed.

(** A state that keeps the snapshot position, the leader arrays and the start of
    the log, and does not move [commitIndex] and [lastApplied] back, stays well
    formed. *)
Lemma wf_frame rf rf' :
  wf rf ->
  npeers rf' = npeers rf -> me rf' = me rf ->
  lastIncludedIndex rf' = lastIncludedIndex rf ->
  lastIncludedTerm rf' = lastIncludedTerm rf ->
  log rf' @! 0 = log rf @! 0 ->
  lastIncludedIndex rf <= commitIndex rf' ->
  lastIncludedIndex rf <= lastApplied rf' ->
  (role rf' = Leader ->
    (length (nextIndex rf') = npeers rf /\ length (matchIndex rf') = npeers rf)) ->
  wf rf'.
Proof.
  intros [Hd Hl Ha Hm Harr] En Em Ei Et Elog Hc Hap Hr.
  split; rewrite ?En, ?Em, ?Ei, ?Et, ?Elog; auto; lia.
Qed.

Ltac wf_tac Hwf :=
  eapply (wf_frame _ _ Hwf); simpl; try done;
  solve [ apply Hwf | destruct Hwf; lia | congruence ] || idtac.

Lemma wf_persist rf : wf rf -> wf (persist rf).
Proof. intros Hwf. wf_tac Hwf. Qed.

Lemma wf_becomeFollower t rf : wf rf -> wf (becomeFollower t rf).
Proof. intros Hwf. wf_tac Hwf. Qed.

Lemma wf_observeTerm t rf : wf rf -> wf (observeTerm t rf).
Proof. intros. unfold observeTerm. destruct (_ >? _); auto using wf_becomeFollower. Qed.

Lemma wf_followerTimer env rf :
  wf rf -> wf (rf |> set_role Follower |> resetElectionTimer env).
Proof. intros Hwf. wf_tac Hwf. Qed.

(** ** The loop of [AppendEntries] over the entries *)

(** The loop never indexes outside the log, and keeps the first
    [idx - lastIncludedIndex] slots. *)
Lemma appendLoop_spec rf idx entries :
  lastIncludedIndex rf < idx <= lastLogIndex rf + 1 ->
  exists l, appendLoop rf idx entries = Some l /\
    (l = log rf \/ exists n k, (Z.to_nat (idx - lastIncludedIndex rf) <= n)%nat /\
                     l = take n (log rf) ++ drop k entries).
Proof.
  revert idx. induction entries as [|e es IH]; intros idx Hidx; simpl; [eauto|].
  destruct (Z.leb_spec idx (lastLogIndex rf)).
  - destruct (termAt_in_range rf idx) as [t Ht]; [lia|]. rewrite Ht. simpl.
    destruct (t =? Term e).
    + destruct (IH (idx + 1)) as (l & -> & Hl); [lia|].
      exists l. split; [done|]. destruct Hl as [->|(n & k & Hn & ->)]; [by left|].
      right. exists n, (S k). simpl. split; [lia|done].
    + rewrite go_slice_to_Some by (unfold lastLogIndex in *; lia). simpl.
      eexists. split; [done|]. right. exists (Z.to_nat (idx - lastIncludedIndex rf)), 0%nat.
      split; [lia|done].
  - eexists. split; [done|]. right. exists (length (log rf)), 0%nat.
    rewrite firstn_all. simpl. split; [|done]. unfold lastLogIndex, zlen in *. lia.
Qed.

Lemma appendLoop_head rf idx entries l :
  lastIncludedIndex rf < idx <= lastLogIndex rf + 1 ->
  appendLoop rf idx entries = Some l -> l @! 0 = log rf @! 0.
Proof.
  intros Hidx Hl. destruct (appendLoop_spec rf idx entries Hidx) as (l' & Hl' & Hs).
  rewrite Hl in Hl'. simplify_eq. destruct Hs as [->|(n & k & Hn & ->)]; [done|].
  assert (0 < zlen (log rf)) by (unfold lastLogIndex in Hidx; lia).
  rewrite go_index_app_l; [apply go_index_take; lia|].
  unfold zlen in *. rewrite length_take. lia.
Qed.

Lemma conflictScan_total ct rf d :
  lastIncludedIndex rf + Z.of_nat d <= lastLogIndex rf + 1 ->
  exists i, conflictScan ct rf d = Some i /\
    lastIncludedIndex rf <= i <= lastIncludedIndex rf + Z.of_nat d.
Proof.
  induction d as [|d IH]; intros Hd; cbn [conflictScan]; [eexists; split; [done|lia]|].
  destruct (termAt_in_range rf (lastIncludedIndex rf + Z.of_nat d)) as [t ->]; [lia|]. simpl.
  destruct (t =? ct).
  - destruct IH as (i & -> & Hi); [lia|]. eexists. split; [done|lia].
  - eexists. split; [done|lia].
Qed.

(** ** Every handler returns, and keeps the invariant *)

Lemma RequestVote_wf env args rf :
  wf rf -> exists rf' reply, RequestVote env args rf = Some (rf', reply) /\ wf rf'.
Proof.
  intros Hwf. unfold RequestVote. destruct (_ <? _); [eauto|].
  pose proof (wf_observeTerm (rv_Term args) rf Hwf) as Hwf1.
  set (rf1 := observeTerm _ rf) in *. unfold candidateUpToDate.
  destruct (termAt_in_range rf1 (lastLogIndex rf1)) as [t ->].
  { split; [by apply wf_last|done]. }
  simpl. destruct (_ && _); eexists _, _; (split; [done|]); [|done].
  apply wf_persist. wf_tac Hwf1.
Qed.

Lemma AppendEntries_check_wf args ci rf :
  wf rf -> role rf = Follower -> lastIncludedIndex rf <= ae_PrevLogIndex args ->
  exists rf' reply, AppendEntries_check args ci rf = Some (rf', reply) /\ wf rf'.
Proof.
  intros Hwf Hrole Hprev. unfold AppendEntries_check.
  rewrite Z.gtb_ltb. destruct (Z.ltb_spec (lastLogIndex rf) (ae_PrevLogIndex args)); [eauto|].
  destruct (termAt_in_range rf (ae_PrevLogIndex args)) as [t ->]; [lia|]. simpl.
  assert (exists l0, go_index (log rf) 0 = Some l0) as [e0 He0] by (destruct Hwf as [(e0 & He0 & _) _ _ _ _]; eauto).
  destruct (t =? _); simpl.
  - destruct (appendLoop_spec rf (ae_PrevLogIndex args + 1) (ae_Entries args))
      as (l & Hl & _); [lia|].
    assert (l @! 0 = log rf @! 0) as Hhead by (eapply appendLoop_head; [|exact Hl]; lia). rewrite Hl. simpl.
    eexists _, _. split; [done|]. wf_tac Hwf.
    assert (0 < zlen l) by (apply (go_index_Some_bound l 0 e0); congruence).
    destruct Hwf. case_match; b2p; unfold lastLogIndex in *; simpl in *; lia.
  - destruct (conflictScan_total t rf (Z.to_nat (ae_PrevLogIndex args - lastIncludedIndex rf)))
      as (i & -> & _); [lia|]. simpl. eauto.
Qed.

Lemma AppendEntries_wf env args rf :
  wf rf -> exists rf' reply, AppendEntries env args rf = Some (rf', reply) /\ wf rf'.
Proof.
  intros Hwf. unfold AppendEntries. destruct (_ <? _); [eauto|].
  pose proof (wf_followerTimer env _ (wf_observeTerm (ae_Term args) rf Hwf)) as Hwf1.
  set (rf1 := resetElectionTimer env _) in *.
  destruct (Z.ltb_spec (ae_PrevLogIndex args) (lastIncludedIndex rf1));
    [|by apply AppendEntries_check_wf].
  destruct (Z.leb_spec (ae_PrevLogIndex args + zlen (ae_Entries args)) (lastIncludedIndex rf1));
    [eauto|].
  destruct (Z.leb_spec (lastIncludedIndex rf1 - ae_PrevLogIndex args) (zlen (ae_Entries args)));
    [|lia].
  rewrite go_slice_from_Some by lia. simpl. by apply AppendEntries_check_wf.
Qed.

Lemma snapshotLog_total LII LIT rf :
  lastIncludedIndex rf < LII ->
  exists tail, snapshotLog LII LIT rf = Some (mkEntry LIT None :: tail).
Proof.
  intros HLII. unfold snapshotLog.
  destruct (Z.ltb_spec LII (lastLogIndex rf)); simpl; [|eauto].
  destruct (termAt_in_range rf LII) as [t ->]; [lia|]. simpl.
  destruct (_ =? _); [|eauto].
  rewrite go_slice_from_Some by (unfold lastLogIndex in *; lia). simpl. eauto.
Qed.

Lemma InstallSnapshot_wf env args rf :
  wf rf -> exists rf' reply eff, InstallSnapshot env args rf = Some (rf', reply, eff) /\ wf rf'.
Proof.
  intros Hwf. unfold InstallSnapshot. destruct (_ <? _); [eauto|].
  pose proof (wf_followerTimer env _ (wf_observeTerm (is_Term args) rf Hwf)) as Hwf1.
  set (rf1 := resetElectionTimer env _) in *.
  assert (role rf1 = Follower) as Hrole by done.
  destruct (Z.leb_spec (is_LastIncludedIndex args) (lastIncludedIndex rf1)); [eauto|].
  set (LII := is_LastIncludedIndex args) in *.
  destruct (snapshotLog_total LII (is_LastIncludedTerm args) rf1) as [tail ->]; [lia|].
  simpl. eexists _, _, _. split; [done|]. destruct Hwf1 as [? ? ? ? ?].
  split; simpl in *; eauto; try congruence; [|]; case_match; b2p; lia.
Qed.

Lemma Snapshot_wf index snap rf rf' :
  wf rf -> index <= lastApplied rf -> Snapshot index snap rf = Some rf' -> wf rf'.
Proof.
  intros Hwf Hidx Hs. unfold Snapshot in Hs. case_match; simplify_eq; [done|]. b2p.
  bind_all. simplify_eq. destruct Hwf as [? ? ? ? ?].
  split; simpl in *; eauto; lia.
Qed.

Lemma Start_wf cmd rf rf' r eff : wf rf -> Start cmd rf = (rf', r, eff) -> wf rf'.
Proof.
  intros Hwf Hs. unfold Start in Hs. case_match; simplify_eq; [done|].
  apply wf_persist. pose proof (wf_log rf Hwf). wf_tac Hwf.
  rewrite go_index_app_l; [done|]. unfold zlen. destruct (log rf); simpl; [done|lia].
Qed.

Lemma startElection_wf env rf :
  wf rf -> exists rf' eff, startElection env rf = Some (rf', eff) /\ wf rf'.
Proof.
  intros Hwf. unfold startElection.
  set (rf1 := persist _). assert (wf rf1) as Hwf1 by (apply wf_persist; wf_tac Hwf).
  destruct (termAt_in_range rf1 (lastLogIndex rf1)) as [t ->].
  { split; [by apply wf_last|done]. }
  simpl. eauto.
Qed.

Lemma ticker_wf env rf :
  wf rf -> exists rf' eff, ticker env rf = Some (rf', eff) /\ wf rf'.
Proof. intros Hwf. unfold ticker. destruct (_ && _); [by apply startElection_wf|eauto]. Qed.

Lemma requestVote_reply_wf term votes reply rf rf' v eff :
  wf rf -> requestVote_reply term votes reply rf = (rf', v, eff) -> wf rf'.
Proof.
  intros Hwf Hs. unfold requestVote_reply in Hs.
  repeat case_match; simplify_eq; auto using wf_becomeFollower.
  unfold becomeLeader in *. repeat case_match; simplify_eq; [done|].
  wf_tac Hwf. intros _. by rewrite !length_replicate.
Qed.

(** ** Replies to a leader *)

Lemma countMatches_total n rf peers c :
  (forall p, p ∈ peers -> 0 <= p < zlen (matchIndex rf)) ->
  exists c', countMatches n rf peers c = Some c'.
Proof.
  revert c. induction peers as [|p ps IH]; intros c Hp; simpl; [eauto|].
  destruct (negb _).
  - destruct (go_index_in_range (matchIndex rf) p) as [m ->]; [apply Hp; left|].
    simpl. apply IH. intros q Hq. apply Hp. by right.
  - apply IH. intros q Hq. apply Hp. by right.
Qed.

Lemma elem_of_peers rf p :
  p ∈ seqZ 0 (Z.of_nat (npeers rf)) <-> 0 <= p < Z.of_nat (npeers rf).
Proof. rewrite elem_of_seqZ. lia. Qed.

Lemma advanceLoop_total rf d :
  lastIncludedIndex rf <= commitIndex rf ->
  commitIndex rf + Z.of_nat d <= Z.max (commitIndex rf) (lastLogIndex rf) ->
  length (matchIndex rf) = npeers rf ->
  exists rf', advanceLoop rf d = Some rf' /\
    (rf' = rf \/ exists n, commitIndex rf < n <= lastLogIndex rf /\ rf' = set_commitIndex n rf).
Proof.
  intros Hl Hd Hm. induction d as [|d IH]; cbn [advanceLoop]; [eauto|].
  destruct (termAt_in_range rf (commitIndex rf + Z.of_nat (S d))) as [t ->]; [lia|]. simpl.
  destruct (negb _); [apply IH; lia|].
  destruct (countMatches_total (commitIndex rf + Z.of_nat (S d)) rf
              (seqZ 0 (Z.of_nat (npeers rf))) 1) as [c ->].
  { intros p Hp%elem_of_peers. unfold zlen. lia. }
  simpl. destruct (_ >? _); [|apply IH; lia].
  eexists. split; [done|]. right. eexists. split; [|done]. lia.
Qed.

Lemma advanceCommit_total rf :
  lastIncludedIndex rf <= commitIndex rf -> length (matchIndex rf) = npeers rf ->
  exists rf', advanceCommit rf = Some rf' /\
    (rf' = rf \/ exists n, commitIndex rf < n <= lastLogIndex rf /\ rf' = set_commitIndex n rf).
Proof. intros. apply advanceLoop_total; [done|lia|done]. Qed.

Lemma lastOfTerm_total ct rf d :
  0 <= lastIncludedIndex rf ->
  lastIncludedIndex rf + Z.of_nat d <= Z.max (lastIncludedIndex rf) (lastLogIndex rf) ->
  exists i, lastOfTerm ct rf d = Some i /\ -1 <= i <= lastIncludedIndex rf + Z.of_nat d.
Proof.
  intros Hl. induction d as [|d IH]; intros Hd; cbn [lastOfTerm]; [eexists; split; [done|lia]|].
  destruct (termAt_in_range rf (lastIncludedIndex rf + Z.of_nat (S d))) as [t ->]; [lia|]. simpl.
  destruct (_ =? _); [eexists; split; [done|lia]|].
  destruct IH as (i & -> & Hi); [lia|]. eexists. split; [done|lia].
Qed.

Lemma backupNext_total next reply rf :
  wf rf -> exists n, backupNext next reply rf = Some n /\ 1 <= n.
Proof.
  intros Hwf. unfold backupNext. pose proof (wf_last rf Hwf). destruct Hwf.
  destruct (_ =? -1); simpl.
  - eexists. split; [done|]. case_match; b2p; lia.
  - destruct (lastOfTerm_total (aer_ConflictTerm reply) rf
      (Z.to_nat (lastLogIndex rf - lastIncludedIndex rf))) as (i & -> & _); [lia..|].
    simpl. eexists. split; [done|]. case_match; b2p; lia.
Qed.

Lemma replicateTo_snapshot_reply_wf server term args reply rf :
  wf rf -> 0 <= server < Z.of_nat (npeers rf) ->
  exists rf', replicateTo_snapshot_reply server term args reply rf = Some rf' /\ wf rf'.
Proof.
  intros Hwf Hs. unfold replicateTo_snapshot_reply.
  destruct (bool_decide (role rf = Leader)) eqn:Hr; simpl; [|eauto]. b2p.
  destruct (wf_arrays rf Hwf Hr) as [Hn Hm].
  destruct (_ =? _); simpl; [|eauto].
  destruct (_ >? _); [eauto using wf_becomeFollower|].
  destruct (go_index_in_range (matchIndex rf) server) as [m ->]; [unfold zlen; lia|]. simpl.
  rewrite !go_update_Some by (unfold zlen; lia). simpl. eexists. split; [done|].
  wf_tac Hwf. intros _. by rewrite !length_insert.
Qed.

Lemma replicateTo_append_reply_wf server term args reply rf :
  wf rf -> 0 <= server < Z.of_nat (npeers rf) ->
  exists rf', replicateTo_append_reply server term args reply rf = Some rf' /\ wf rf'.
Proof.
  intros Hwf Hs. unfold replicateTo_append_reply.
  destruct (bool_decide (role rf = Leader)) eqn:Hr; simpl; [|eauto]. b2p.
  destruct (wf_arrays rf Hwf Hr) as [Hn Hm].
  destruct (_ =? _); simpl; [|eauto].
  destruct (_ >? _); [eauto using wf_becomeFollower|].
  destruct (aer_Success reply).
  - destruct (go_index_in_range (matchIndex rf) server) as [m ->]; [unfold zlen; lia|]. simpl.
    match goal with |- context [mbind _ ?o = Some _] =>
      assert (exists rf1, o = Some rf1 /\ wf rf1 /\ length (matchIndex rf1) = npeers rf1)
        as (rf1 & -> & Hwf1 & Hm1) end.
    { destruct (_ >? _); [|eauto].
      rewrite !go_update_Some by (unfold zlen; lia). simpl. eexists. split; [done|].
      simpl. rewrite length_insert. split; [|done].
      wf_tac Hwf. intros _. by rewrite !length_insert. }
    simpl. destruct (advanceCommit_total rf1) as (rf2 & -> & Hrf2); [apply Hwf1|done|].
    eexists. split; [done|]. destruct Hrf2 as [->|(n & Hn2 & ->)]; [done|]. wf_tac Hwf1.
  - destruct (go_index_in_range (nextIndex rf) server) as [x ->]; [unfold zlen; lia|]. simpl.
    destruct (backupNext_total x reply rf Hwf) as (n & -> & _). simpl.
    rewrite go_update_Some by (unfold zlen; lia). simpl. eexists. split; [done|].
    wf_tac Hwf. intros _. by rewrite length_insert.
Qed.

(** ** All the steps of a peer *)

(** One critical section of a peer, with any message from the network, any clock
    and any random number.  [Snapshot] is called by the service, for a state it
    has applied.  [rs_restart] is a crash: [Make] on what is in the persister. *)
Inductive rstep rf : Raft Cmd -> Prop :=
| rs_RequestVote env args rf' reply :
    RequestVote env args rf = Some (rf', reply) -> rstep rf rf'
| rs_AppendEntries env args rf' reply :
    AppendEntries env args rf = Some (rf', reply) -> rstep rf rf'
| rs_InstallSnapshot env args rf' reply eff :
    InstallSnapshot env args rf = Some (rf', reply, eff) -> rstep rf rf'
| rs_Snapshot index snap rf' :
    index <= lastApplied rf -> Snapshot index snap rf = Some rf' -> rstep rf rf'
| rs_Start cmd rf' r eff :
    Start cmd rf = (rf', r, eff) -> rstep rf rf'
| rs_ticker env rf' eff :
    ticker env rf = Some (rf', eff) -> rstep rf rf'
| rs_requestVote_reply term votes reply rf' v eff :
    requestVote_reply term votes reply rf = (rf', v, eff) -> rstep rf rf'
| rs_snapshot_reply server term args reply rf' :
    0 <= server < Z.of_nat (npeers rf) ->
    replicateTo_snapshot_reply server term args reply rf = Some rf' -> rstep rf rf'
| rs_append_reply server term args reply rf' :
    0 <= server < Z.of_nat (npeers rf) ->
    replicateTo_append_reply server term args reply rf = Some rf' -> rstep rf rf'
| rs_applier rf' eff :
    applier rf = Some (rf', eff) -> rstep rf rf'
| rs_Kill : rstep rf (Kill rf)
| rs_restart env :
    rstep rf (Make env (npeers rf) (me rf) (Copy (persister rf))).

(** What the persister holds is the peer's persistent state (a peer that has not
    saved yet is in the state [Make] gives a fresh one). *)
Definition durable rf : Prop :=
  raftstate (persister rf) = encodeState rf \/
  raftstate (persister rf) = [] /\
    persistentState rf = mkPState 0 (-1) (dummyLog Cmd) 0 0.

(** Either nothing persistent changed, or the new state was saved. *)
Definition saved rf rf' : Prop :=
  (persistentState rf' = persistentState rf /\ persister rf' = persister rf) \/
  raftstate (persister rf') = encodeState rf'.

Lemma saved_durable rf rf' : durable rf -> saved rf rf' -> durable rf'.
Proof.
  unfold durable, saved, encodeState. intros Hd [[-> ->]|Hs]; [exact Hd|by left].
Qed.

(** [rf'] follows [rf] on terms and votes: the term does not decrease, and a vote
    cast in a term is not changed in that term. *)
Definition vote_le rf rf' : Prop :=
  currentTerm rf <= currentTerm rf' /\
  (currentTerm rf' = currentTerm rf -> votedFor rf <> -1 -> votedFor rf' = votedFor rf).

Definition follows rf rf' : Prop :=
  npeers rf' = npeers rf /\ me rf' = me rf /\ vote_le rf rf' /\ saved rf rf'.

Ltac follows_tac :=
  split_and!; simpl; try done;
  try solve [split; simpl; try done; lia | by left | by right].

Lemma follows_refl rf : follows rf rf.
Proof. follows_tac. Qed.

Lemma follows_becomeFollower t rf : currentTerm rf < t -> follows rf (becomeFollower t rf).
Proof. intros. follows_tac. Qed.

Lemma follows_observeTerm t rf : follows rf (observeTerm t rf).
Proof.
  unfold observeTerm. destruct (_ >? _) eqn:?; [|apply follows_refl]. b2p.
  by apply follows_becomeFollower.
Qed.

Lemma follows_trans rf1 rf2 rf3 : follows rf1 rf2 -> follows rf2 rf3 -> follows rf1 rf3.
Proof.
  intros (En & Em & [Ht Hv] & Hs) (En' & Em' & [Ht' Hv'] & Hs').
  split_and!; [congruence..| |].
  - split; [lia|]. intros E Hne. rewrite Hv'; [apply Hv; [lia|done]|lia|].
    rewrite Hv; [done|lia|done].
  - destruct Hs' as [[Ep Eq]|Hs']; [|by right].
    destruct Hs as [[Ep2 Eq2]|Hs]; [left; split; congruence|right].
    unfold encodeState in *. by rewrite Eq, Ep.
Qed.

(** A change of volatile fields only. *)
Lemma follows_volatile rf rf' :
  npeers rf' = npeers rf -> me rf' = me rf -> persister rf' = persister rf ->
  persistentState rf' = persistentState rf -> follows rf rf'.
Proof.
  intros En Em Ep Es. split_and!; try done; [|by left].
  injection Es as Et Ev _ _ _. split; [lia|auto].
Qed.

(** A saved change that keeps the term and the vote. *)
Lemma follows_saved rf rf' :
  npeers rf' = npeers rf -> me rf' = me rf ->
  currentTerm rf' = currentTerm rf -> votedFor rf' = votedFor rf ->
  raftstate (persister rf') = encodeState rf' -> follows rf rf'.
Proof. intros. split_and!; try done; [split; [lia|done]|by right]. Qed.

Lemma RequestVote_follows env args rf rf' reply :
  RequestVote env args rf = Some (rf', reply) -> follows rf rf'.
Proof.
  unfold RequestVote. intros Hs. case_match; simplify_eq; [apply follows_refl|].
  bind_all. eapply follows_trans; [apply (follows_observeTerm (rv_Term args))|].
  revert Hs. generalize (observeTerm (rv_Term args) rf). intros rf1 Hs.
  case_match eqn:Hc; simplify_eq; [|apply follows_refl].
  split_and!; [done..| |by right]. split; simpl; [lia|]. intros _ Hne.
  apply andb_prop in Hc as [Hv _]. apply orb_prop in Hv as [Hv|Hv]; b2p; congruence.
Qed.

Lemma AppendEntries_check_follows args ci rf rf' reply :
  AppendEntries_check args ci rf = Some (rf', reply) -> follows rf rf'.
Proof.
  unfold AppendEntries_check. intros Hs. case_match; simplify_eq; [apply follows_refl|].
  bind_all. case_match; bind_all; simplify_eq; [apply follows_refl|].
  by apply follows_saved.
Qed.

Lemma AppendEntries_follows env args rf rf' reply :
  AppendEntries env args rf = Some (rf', reply) -> follows rf rf'.
Proof.
  unfold AppendEntries. intros Hs. case_match; simplify_eq; [apply follows_refl|].
  eapply follows_trans; [apply (follows_observeTerm (ae_Term args))|].
  set (rf1 := observeTerm _ rf) in *.
  eapply follows_trans; [by apply (follows_volatile _ (resetElectionTimer env (set_role Follower rf1)))|].
  repeat case_match; simplify_eq; bind_all; simplify_eq;
    first [apply follows_refl | by eapply AppendEntries_check_follows].
Qed.

Lemma InstallSnapshot_follows env args rf rf' reply eff :
  InstallSnapshot env args rf = Some (rf', reply, eff) -> follows rf rf'.
Proof.
  unfold InstallSnapshot. intros Hs. case_match; simplify_eq; [apply follows_refl|].
  eapply follows_trans; [apply (follows_observeTerm (is_Term args))|].
  set (rf1 := observeTerm _ rf) in *.
  case_match; simplify_eq; [by apply follows_volatile|].
  bind_all. simplify_eq. by apply follows_saved.
Qed.

Lemma Snapshot_follows index snap rf rf' :
  Snapshot index snap rf = Some rf' -> follows rf rf'.
Proof.
  unfold Snapshot. intros Hs. case_match; simplify_eq; [apply follows_refl|].
  bind_all. simplify_eq. by apply follows_saved.
Qed.

Lemma Start_follows cmd rf rf' r eff : Start cmd rf = (rf', r, eff) -> follows rf rf'.
Proof.
  unfold Start. intros Hs. case_match; simplify_eq; [apply follows_refl|].
  by apply follows_saved.
Qed.

Lemma ticker_follows env rf rf' eff : ticker env rf = Some (rf', eff) -> follows rf rf'.
Proof.
  unfold ticker, startElection. intros Hs. case_match; simplify_eq; [|apply follows_refl].
  bind_all. simplify_eq. split_and!; [done..| |by right]. split; simpl; lia.
Qed.

Lemma requestVote_reply_follows term votes reply rf rf' v eff :
  requestVote_reply term votes reply rf = (rf', v, eff) -> follows rf rf'.
Proof.
  unfold requestVote_reply, becomeLeader. intros Hs.
  repeat case_match; simplify_eq; b2p;
    auto using follows_refl, follows_becomeFollower; by apply follows_volatile.
Qed.

Lemma replicateTo_snapshot_reply_follows server term args reply rf rf' :
  replicateTo_snapshot_reply server term args reply rf = Some rf' -> follows rf rf'.
Proof.
  unfold replicateTo_snapshot_reply. intros Hs.
  repeat case_match; simplify_eq; b2p; auto using follows_refl, follows_becomeFollower.
  bind_all. simplify_eq. by apply follows_volatile.
Qed.

Lemma advanceLoop_follows rf d rf' : advanceLoop rf d = Some rf' -> follows rf rf'.
Proof.
  induction d as [|d IH]; cbn [advanceLoop]; intros Hs; simplify_eq; [apply follows_refl|].
  bind_all. case_match; [auto|]. bind_all.
  case_match; simplify_eq; [by apply follows_volatile|auto].
Qed.

Lemma replicateTo_append_reply_follows server term args reply rf rf' :
  replicateTo_append_reply server term args reply rf = Some rf' -> follows rf rf'.
Proof.
  unfold replicateTo_append_reply. intros Hs.
  case_match; simplify_eq; [apply follows_refl|].
  case_match; b2p; simplify_eq; [by apply follows_becomeFollower|].
  case_match; [|bind_all; by apply follows_volatile].
  apply bind_Some in Hs as (m & Hm & Hs). apply bind_Some in Hs as (rf1 & Hrf1 & Hs).
  eapply follows_trans; [|by eapply advanceLoop_follows].
  case_match; bind_all; [by apply follows_volatile|apply follows_refl].
Qed.

Lemma applier_follows rf rf' eff : applier rf = Some (rf', eff) -> follows rf rf'.
Proof.
  unfold applier. intros Hs. repeat case_match; simplify_eq; try by apply follows_volatile.
  bind_all. simplify_eq. by apply follows_volatile.
Qed.

(** ** Crash recovery *)

Context `{!StateCodecOk Cmd}.

Lemma Make_state env n me ps :
  let rf := Make env n me ps in
  npeers rf = n /\ Raft.me rf = me /\ persister rf = ps /\ role rf = Follower.
Proof. unfold Make, readPersist. repeat case_match; done. Qed.

Lemma Make_persistentState env n me rf :
  durable rf -> persistentState (Make env n me (Copy (persister rf))) = persistentState rf.
Proof.
  unfold Make, readPersist, ReadRaftState, clone. intros [Hd|[Hd Hs]]; simpl; rewrite Hd.
  - pose proof (gob_nonempty (persistentState rf)) as Hne. unfold encodeState.
    rewrite gob_roundtrip. destruct (gobEncodeState _) as [|b bs]; [done|].
    rewrite zlen_cons. pose proof (zlen_nonneg bs).
    destruct (Z.ltb_spec (zlen bs + 1) 1); [lia|done].
  - by rewrite Hs.
Qed.

Lemma restart_follows env rf :
  durable rf -> follows rf (Make env (npeers rf) (me rf) (Copy (persister rf))).
Proof.
  intros Hd. pose proof (Make_state env (npeers rf) (me rf) (Copy (persister rf)))
    as (En & Em & Ep & _).
  apply follows_volatile; try done; [|by apply Make_persistentState].
  rewrite Ep. by destruct (persister rf).
Qed.

Lemma rstep_follows rf rf' : durable rf -> rstep rf rf' -> follows rf rf'.
Proof.
  intros Hd []; eauto using RequestVote_follows, AppendEntries_follows,
    InstallSnapshot_follows, Snapshot_follows, Start_follows, ticker_follows,
    requestVote_reply_follows, replicateTo_snapshot_reply_follows,
    replicateTo_append_reply_follows, applier_follows, restart_follows.
  by apply follows_volatile.
Qed.

Lemma rstep_durable rf rf' : durable rf -> rstep rf rf' -> durable rf'.
Proof. intros Hd (_ & _ & _ & Hs)%rstep_follows; [|done]. by eapply saved_durable. Qed.

Lemma Make_commit env n me ps :
  let rf := Make env n me ps in
  commitIndex rf = lastIncludedIndex rf /\ lastApplied rf = lastIncludedIndex rf.
Proof. unfold Make, readPersist. repeat case_match; done. Qed.

Lemma Make_wf env rf :
  wf rf -> durable rf -> wf (Make env (npeers rf) (me rf) (Copy (persister rf))).
Proof.
  intros Hwf Hd. set (rf' := Make _ _ _ _).
  assert (persistentState rf' = persistentState rf) as Hp by by apply Make_persistentState.
  injection Hp as _ _ El Ei Et.
  pose proof (Make_state env (npeers rf) (me rf) (Copy (persister rf))) as (En & Em & _ & Er).
  pose proof (Make_commit env (npeers rf) (me rf) (Copy (persister rf))) as (Ec & Ea).
  fold rf' in En, Em, Er, Ec, Ea. eapply (wf_frame _ _ Hwf); try congruence; lia.
Qed.

Lemma applier_wf rf rf' eff : wf rf -> applier rf = Some (rf', eff) -> wf rf'.
Proof.
  intros Hwf Hs. unfold applier in Hs.
  repeat case_match; simplify_eq; bind_all; b2p; try done; wf_tac Hwf.
Qed.

Lemma rstep_wf rf rf' : wf rf -> durable rf -> rstep rf rf' -> wf rf'.
Proof.
  intros Hwf Hd []; eauto using Snapshot_wf, Start_wf, requestVote_reply_wf, applier_wf, Make_wf.
  - destruct (RequestVote_wf env args rf Hwf) as (? & ? & E & ?). congruence.
  - destruct (AppendEntries_wf env args rf Hwf) as (? & ? & E & ?). congruence.
  - destruct (InstallSnapshot_wf env args rf Hwf) as (? & ? & ? & E & ?). congruence.
  - destruct (ticker_wf env rf Hwf) as (? & ? & E & ?). congruence.
  - destruct (replicateTo_snapshot_reply_wf server term args reply rf Hwf) as (? & E & ?); [done|].
    congruence.
  - destruct (replicateTo_append_reply_wf server term args reply rf Hwf) as (? & E & ?); [done|].
    congruence.
  - wf_tac Hwf.
Qed.

(** A peer started on an empty persister, after any sequence of steps. *)
Definition reachable rf : Prop :=
  exists env n me, 0 <= me < Z.of_nat n /\ rtc rstep (Make env n me MakePersister) rf.

Lemma fresh_wf env n me :
  0 <= me < Z.of_nat n -> wf (Make env n me MakePersister : Raft Cmd).
Proof.
  intros Hme. split; simpl; [eexists; split; reflexivity|lia|lia|done|done].
Qed.

Lemma fresh_durable env n me : durable (Make env n me MakePersister : Raft Cmd).
Proof. by right. Qed.

Lemma steps_inv rf rf' : wf rf -> durable rf -> rtc rstep rf rf' -> wf rf' /\ durable rf'.
Proof.
  intros Hwf Hd Hs. induction Hs as [|rf1 rf2 rf3 Hs1 Hs2 IH]; [done|].
  apply IH; eauto using rstep_wf, rstep_durable.
Qed.

Lemma reachable_inv rf : reachable rf -> wf rf /\ durable rf.
Proof.
  intros (env & n & me & Hme & Hs). eapply steps_inv; eauto using fresh_wf, fresh_durable.
Qed.

Lemma steps_vote_le rf rf' : durable rf -> rtc rstep rf rf' -> vote_le rf rf'.
Proof.
  intros Hd Hs. induction Hs as [|rf1 rf2 rf3 Hs1 Hs2 IH]; [split; [lia|done]|].
  pose proof (rstep_follows _ _ Hd Hs1) as (_ & _ & [Ht Hv] & _).
  destruct (IH (rstep_durable _ _ Hd Hs1)) as [Ht' Hv']. split; [lia|].
  intros E Hne. rewrite Hv'; [apply Hv; [lia|done]|lia|]. rewrite Hv; [done|lia|done].
Qed.

(** ** Theorems *)

(** A peer never crashes on a message: in every state a peer can reach, whatever
    the RPC arguments, the reply, the clock and the random numbers, the RPC
    handlers, the ticker and the reply handlers of a leader return a state; no
    slice index is out of range. *)
Theorem handlers_total rf :
  reachable rf ->
  (forall env args, is_Some (RequestVote env args rf)) /\
  (forall env args, is_Some (AppendEntries env args rf)) /\
  (forall env args, is_Some (InstallSnapshot env args rf)) /\
  (forall env, is_Some (ticker env rf)) /\
  (forall server term args reply, 0 <= server < Z.of_nat (npeers rf) ->
     is_Some (replicateTo_append_reply server term args reply rf)) /\
  (forall server term args reply, 0 <= server < Z.of_nat (npeers rf) ->
     is_Some (replicateTo_snapshot_reply server term args reply rf)).
Proof.
  intros [Hwf _]%reachable_inv. split_and!; intros.
  - destruct (RequestVote_wf env args rf Hwf) as (? & ? & -> & _). eauto.
  - destruct (AppendEntries_wf env args rf Hwf) as (? & ? & -> & _). eauto.
  - destruct (InstallSnapshot_wf env args rf Hwf) as (? & ? & ? & -> & _). eauto.
  - destruct (ticker_wf env rf Hwf) as (? & ? & -> & _). eauto.
  - destruct (replicateTo_append_reply_wf server term args reply rf Hwf) as (? & -> & _); eauto.
  - destruct (replicateTo_snapshot_reply_wf server term args reply rf Hwf) as (? & -> & _); eauto.
Qed.

(** C24. A crash between any two critical sections loses nothing: [Make] on the
    persister of a reachable peer gives back its term, vote, log and snapshot
    position. *)
Theorem crash_recovery rf env :
  reachable rf ->
  persistentState (Make env (npeers rf) (me rf) (Copy (persister rf))) = persistentState rf.
Proof. intros [_ Hd]%reachable_inv. by apply Make_persistentState. Qed.

(** A peer votes at most once per term, across crashes: along any run the term
    does not decrease, and while it stays the same a vote that was cast is kept. *)
Theorem vote_once rf rf' :
  reachable rf -> rtc rstep rf rf' ->
  currentTerm rf <= currentTerm rf' /\
  (currentTerm rf' = currentTerm rf -> votedFor rf <> -1 -> votedFor rf' = votedFor rf).
Proof. intros [_ Hd]%reachable_inv Hs. by apply steps_vote_le. Qed.

End local.

(** ** Examples *)

(** Peer 0 of three, as [Make] starts it, and after it started an election. *)
Definition demoPeer : Raft Z := Make demoEnv 3 0 MakePersister.
Definition demoCandidate : Raft Z :=
  match ticker lateEnv demoPeer with Some (rf, _) => rf | None => demoPeer end.

Lemma demoCandidate_reachable : reachable demoCandidate.
Proof.
  exists demoEnv, 3%nat, 0. split; [lia|]. eapply rtc_l; [|apply rtc_refl].
  eapply (rs_ticker _ lateEnv). vm_compute. reflexivity.
Qed.

Lemma handlers_total_witness :
  reachable demoCandidate /\
  forall args, is_Some (AppendEntries lateEnv args demoCandidate).
Proof.
  split; [exact demoCandidate_reachable|].
  exact (proj1 (proj2 (handlers_total demoCandidate demoCandidate_reachable)) lateEnv).
Defined.

Lemma crash_recovery_witness :
  reachable demoCandidate /\ votedFor demoCandidate = 0 /\
  persistentState (Make demoEnv 3 0 (Copy (persister demoCandidate)))
    = persistentState demoCandidate.
Proof.
  split; [exact demoCandidate_reachable|]. split; [vm_compute; reflexivity|].
  exact (crash_recovery demoCandidate demoEnv demoCandidate_reachable).
Defined.

Lemma vote_once_witness :
  votedFor demoCandidate = 0 /\
  votedFor (Make demoEnv 3 0 (Copy (persister demoCandidate)) : Raft Z) = 0.
Proof.
  split; [vm_compute; reflexivity|].
  assert (rtc (rstep (Cmd := Z)) demoCandidate (Make demoEnv 3 0 (Copy (persister demoCandidate)))) as Hs.
  { eapply rtc_l; [|apply rtc_refl]. apply (rs_restart demoCandidate demoEnv). }
  exact (proj2 (vote_once demoCandidate _ demoCandidate_reachable Hs)
           ltac:(vm_compute; reflexivity) ltac:(vm_compute; discriminate)).
Defined.
