(* ===== verification/RaftReplication.v ===== *)
(** * Replication: what one [AppendEntries] round does to two logs

    The functional behaviour of the log operations of [Raft]: the append loop, the
    consistency check and its conflict report, the commit rule, compaction, and
    the exchange between [replicateTo] and [AppendEntries]. *)

From S2P Require Import Prelude Persister Raft RaftCodec RaftLocal.

Section repl.
Context {Cmd : Type} `{StateCodec Cmd}.
Implicit Types (rf : Raft Cmd) (es : list (LogEntry Cmd)).

(** ** Views of the log by absolute index *)

Lemma entryAt_set_log_lt rf l idx j n :
  n = Z.to_nat (idx - lastIncludedIndex rf) -> lastIncludedIndex rf <= idx -> j < idx ->
  idx <= lastLogIndex rf + 1 ->
  entryAt (set_log (take n (log rf) ++ l) rf) j = entryAt rf j.
Proof.
  intros -> Hidx Hj Hl. unfold entryAt, lastLogIndex, zlen in *. simpl.
  rewrite go_index_app_l; [apply go_index_take; lia|].
  unfold zlen. rewrite length_take. lia.
Qed.

Lemma entryAt_set_log_ge rf es idx n k :
  n = Z.to_nat (idx - lastIncludedIndex rf) -> lastIncludedIndex rf <= idx ->
  idx <= lastLogIndex rf + 1 ->
  entryAt (set_log (take n (log rf) ++ es) rf) (idx + Z.of_nat k) = es !! k.
Proof.
  intros -> Hidx Hl. unfold entryAt, lastLogIndex, zlen in *. simpl.
  rewrite go_index_app_r; unfold zlen; rewrite length_take, Nat.min_l by lia; [|lia].
  rewrite <- go_index_nat. f_equal. lia.
Qed.

(** The result of the append loop by absolute index: below [idx] nothing changes;
    from [idx] on, the log holds entries with the terms of [es], each either [es]'s
    own or the one that was there; the log reaches at least the end of [es]; and
    if no term conflicts, no entry is lost. *)
Lemma appendLoop_view rf idx es l :
  lastIncludedIndex rf < idx <= lastLogIndex rf + 1 ->
  appendLoop rf idx es = Some l ->
  let rf' := set_log l rf in
  (forall j, j < idx -> entryAt rf' j = entryAt rf j) /\
  (forall (k : nat) e, es !! k = Some e -> exists e',
     entryAt rf' (idx + Z.of_nat k) = Some e' /\ Term e' = Term e /\
     (e' = e \/ entryAt rf (idx + Z.of_nat k) = Some e')) /\
  idx + zlen es - 1 <= lastLogIndex rf' /\
  ((lastLogIndex rf' = idx + zlen es - 1 /\
    exists (k : nat) e t, es !! k = Some e /\ termAt rf (idx + Z.of_nat k) = Some t /\ t <> Term e)
   \/
   (lastLogIndex rf' = Z.max (lastLogIndex rf) (idx + zlen es - 1) /\
    forall j, j <= lastLogIndex rf -> entryAt rf' j = entryAt rf j)).
Proof.
  revert idx. induction es as [|e es IH]; intros idx Hidx Hl; cbn [appendLoop] in Hl.
  - simplify_eq. split_and!; [done|done|unfold lastLogIndex, zlen in *; simpl; lia|right].
    split; [|done]. unfold lastLogIndex, zlen in *. simpl. lia.
  - destruct (Z.leb_spec idx (lastLogIndex rf)) as [Hle|Hgt].
    + apply bind_Some in Hl as (t & Ht & Hl).
      destruct (Z.eqb_spec t (Term e)) as [Heq|Hne].
      * destruct (IH (idx + 1) ltac:(lia) Hl) as (Hlow & Hat & Hend & Hor). clear IH.
        assert (exists e0, entryAt (set_log l rf) idx = Some e0 /\ Term e0 = Term e /\
                  entryAt rf idx = Some e0) as (e0 & He0 & Hte0 & He0').
        { apply termAt_entryAt in Ht as (e0 & He0 & <-). exists e0.
          rewrite Hlow by lia. done. }
        rewrite zlen_cons. split_and!.
        -- intros j Hj. apply Hlow. lia.
        -- intros [|k] e1 Hk; simpl in Hk.
           ++ simplify_eq. replace (idx + Z.of_nat 0) with idx by lia. eauto.
           ++ replace (idx + Z.of_nat (S k)) with (idx + 1 + Z.of_nat k) by lia. auto.
        -- lia.
        -- destruct Hor as [(Hlast & k & e1 & t1 & Hk & Ht1 & Hne)|[Hlast Hkeep]].
           ++ left. split; [lia|]. exists (S k), e1, t1.
              replace (idx + Z.of_nat (S k)) with (idx + 1 + Z.of_nat k) by lia. done.
           ++ right. split; [lia|done].
      * apply bind_Some in Hl as (kept & Hkept & Hl). simplify_eq.
        rewrite go_slice_to_Some in Hkept by (unfold lastLogIndex in *; lia). simplify_eq.
        assert (lastLogIndex (set_log (take (Z.to_nat (idx - lastIncludedIndex rf)) (log rf)
                  ++ e :: es) rf) = idx + zlen (e :: es) - 1) as Hlast.
        { unfold lastLogIndex, zlen in *. simpl. rewrite length_app, length_take. simpl. lia. }
        split_and!; [| |lia|left; split; [done|]].
        -- intros j Hj. eapply entryAt_set_log_lt; [done|lia..].
        -- intros k e1 Hk. exists e1. rewrite entryAt_set_log_ge by (done || lia). auto.
        -- exists 0%nat, e, t. replace (idx + Z.of_nat 0) with idx by lia. done.
    + simplify_eq. assert (idx = lastLogIndex rf + 1) as -> by lia.
      assert (log rf = take (Z.to_nat (lastLogIndex rf + 1 - lastIncludedIndex rf)) (log rf)) as Htk.
      { symmetry. apply take_ge. unfold lastLogIndex, zlen. lia. }
      assert (lastLogIndex (set_log (log rf ++ e :: es) rf)
                = lastLogIndex rf + 1 + zlen (e :: es) - 1) as Hlast.
      { unfold lastLogIndex. simpl. rewrite zlen_app. lia. }
      pose proof (zlen_nonneg (e :: es)).
      split_and!; [| |lia|right; split; [lia|]].
      * intros j Hj. rewrite Htk at 1. eapply entryAt_set_log_lt; [done|lia..].
      * intros k e1 Hk. exists e1. rewrite Htk at 1.
        rewrite entryAt_set_log_ge by (done || lia). auto.
      * intros j Hj. rewrite Htk at 1. eapply entryAt_set_log_lt; [done|lia..].
Qed.

(** The log [l] that [es], sent for the indices after [prev], leaves behind: if every
    entry the peer's snapshot does not cover has the term of the peer's own entry, its log
    is unchanged; otherwise the log is cut at the first one that has not, and continues with
    the entries sent from there on. *)
Definition merged rf prev (es l : list (LogEntry Cmd)) : Prop :=
  let agrees (k : nat) e :=
    lastIncludedIndex rf <= prev + Z.of_nat k -> termAt rf (prev + 1 + Z.of_nat k) = Some (Term e) in
  (forall k e, es !! k = Some e -> agrees k e) /\ l = log rf \/
  exists (k : nat) e, es !! k = Some e /\ ~ agrees k e /\
    (forall k' e', (k' < k)%nat -> es !! k' = Some e' -> agrees k' e') /\
    l = take (Z.to_nat (prev + 1 + Z.of_nat k - lastIncludedIndex rf)) (log rf) ++ drop k es.

Lemma termAt_beyond rf idx : lastLogIndex rf < idx -> termAt rf idx = None.
Proof.
  intros Hlt. destruct (termAt rf idx) as [t|] eqn:E; [|done].
  apply termAt_entryAt in E as (e & He & _). apply go_index_Some_bound in He. unfold lastLogIndex in Hlt. lia.
Qed.

Lemma appendLoop_merged rf idx es l :
  lastIncludedIndex rf < idx <= lastLogIndex rf + 1 ->
  appendLoop rf idx es = Some l -> merged rf (idx - 1) es l.
Proof.
  revert idx. induction es as [|e es IH]; intros idx Hidx Hl; cbn [appendLoop] in Hl.
  { simplify_eq. by left. }
  assert (idx - 1 + 1 + Z.of_nat 0 = idx) as E0 by lia.
  assert (termAt rf idx <> Some (Term e) -> l = take (Z.to_nat (idx - lastIncludedIndex rf)) (log rf) ++ e :: es ->
    merged rf (idx - 1) (e :: es) l) as Hcut.
  { intros Hne ->. right. exists 0%nat, e. rewrite E0. split_and!; [done| |lia|done]. intros Hag. apply Hne, Hag. lia. }
  destruct (Z.leb_spec idx (lastLogIndex rf)) as [Hle|Hgt].
  - apply bind_Some in Hl as (t & Ht & Hl). destruct (Z.eqb_spec t (Term e)) as [->|Hne].
    + assert (forall k, idx + 1 - 1 + 1 + Z.of_nat k = idx - 1 + 1 + Z.of_nat (S k)) as Ek by lia.
      destruct (IH (idx + 1) ltac:(lia) Hl) as [[Hag ->]|(k & e1 & Hk & Hne & Hlow & ->)]; [left|right].
      * split; [|done]. intros [|k] e1 Hk Hle'; [simpl in Hk; simplify_eq; by rewrite E0|].
        rewrite <- Ek. apply Hag; [done|lia].
      * exists (S k), e1. rewrite <- Ek. split_and!; [done| | |done].
        -- intros Hag. apply Hne. intros _. apply Hag. lia.
        -- intros [|k'] e' Hlt Hk' Hle'; [simpl in Hk'; simplify_eq; by rewrite E0|].
           rewrite <- Ek. apply Hlow; [lia|done|lia].
    + apply bind_Some in Hl as (kept & Hkept & [= <-]).
      rewrite go_slice_to_Some in Hkept by (unfold lastLogIndex in *; lia). simplify_eq.
      apply Hcut; [congruence|done].
  - simplify_eq. apply Hcut; [by rewrite termAt_beyond|]. rewrite take_ge; [done|]. unfold lastLogIndex, zlen in *. lia.
Qed.

(** The entries that a snapshot covers do not matter. *)
Lemma merged_clamp rf prev es l :
  prev < lastIncludedIndex rf -> lastIncludedIndex rf - prev <= zlen es ->
  merged rf (lastIncludedIndex rf) (drop (Z.to_nat (lastIncludedIndex rf - prev)) es) l -> merged rf prev es l.
Proof.
  intros Hprev Hoff. set (off := Z.to_nat (lastIncludedIndex rf - prev)).
  assert (forall k e, es !! k = Some e -> lastIncludedIndex rf <= prev + Z.of_nat k ->
    exists k', k = (off + k')%nat /\ drop off es !! k' = Some e) as Hdrop.
  { intros k e Hk Hle. exists (k - off)%nat. split; [lia|]. rewrite lookup_drop. rewrite <- Hk. f_equal. lia. }
  assert (forall k', prev + 1 + Z.of_nat (off + k') = lastIncludedIndex rf + 1 + Z.of_nat k') as Ek by lia.
  intros [[Hag ->]|(k & e & Hk & Hne & Hlow & ->)]; [left|right].
  - split; [|done]. intros k e Hk Hle. destruct (Hdrop k e Hk Hle) as (k' & -> & Hk'). rewrite Ek. apply Hag; [done|lia].
  - exists (off + k)%nat, e. rewrite lookup_drop in Hk. rewrite Ek. split_and!; [done| | |].
    + intros Hag. apply Hne. intros _. apply Hag. lia.
    + intros j e' Hlt Hj Hle. destruct (Hdrop j e' Hj Hle) as (k' & -> & Hk'). rewrite Ek. apply Hlow; [lia|done|lia].
    + by rewrite drop_drop.
Qed.

Lemma merged_same rf1 rf prev es l :
  (forall j, entryAt rf1 j = entryAt rf j) -> log rf1 = log rf -> lastIncludedIndex rf1 = lastIncludedIndex rf ->
  merged rf1 prev es l -> merged rf prev es l.
Proof.
  intros Ee El Ei. assert (forall j, termAt rf1 j = termAt rf j) as Et by (intros j; unfold termAt; by rewrite ?Ee, ?El, ?Ei).
  unfold merged. rewrite El, Ei. setoid_rewrite Et. done.
Qed.

(** ** The consistency check *)

(** What a peer's log looks like after [es] was accepted after index [prev]. *)
Definition accepted rf prev es rf' : Prop :=
  lastIncludedIndex rf' = lastIncludedIndex rf /\
  (forall j, j <= prev -> entryAt rf' j = entryAt rf j) /\
  (forall (k : nat) e, es !! k = Some e -> lastIncludedIndex rf <= prev + Z.of_nat k ->
     exists e', entryAt rf' (prev + 1 + Z.of_nat k) = Some e' /\ Term e' = Term e /\
       (e' = e \/ entryAt rf (prev + 1 + Z.of_nat k) = Some e')) /\
  prev + zlen es <= lastLogIndex rf' /\
  (lastLogIndex rf' = prev + zlen es \/
   (lastLogIndex rf' = Z.max (lastLogIndex rf) (prev + zlen es) /\
    forall j, j <= lastLogIndex rf -> entryAt rf' j = entryAt rf j)).

(** The commit index an accepting peer moves to. *)
Definition accepted_commit (leaderCommit : Z) rf rf' : Z :=
  if leaderCommit >? commitIndex rf then Z.min leaderCommit (lastLogIndex rf')
  else commitIndex rf.

Lemma AppendEntries_check_success args ci rf rf' reply :
  lastIncludedIndex rf <= ae_PrevLogIndex args ->
  AppendEntries_check args ci rf = Some (rf', reply) -> aer_Success reply = true ->
  ae_PrevLogIndex args <= lastLogIndex rf /\
  termAt rf (ae_PrevLogIndex args) = Some (ae_PrevLogTerm args) /\
  exists l, appendLoop rf (ae_PrevLogIndex args + 1) (ae_Entries args) = Some l /\
    rf' = set_commitIndex
            (accepted_commit (ae_LeaderCommit args) rf (set_log l rf)) (persist (set_log l rf)).
Proof.
  intros Hprev Hs Hok. unfold AppendEntries_check in Hs.
  destruct (_ >? _) eqn:?; simplify_eq; b2p. bind_all.
  case_match eqn:Ht; bind_all; b2p. subst. split_and!; [done|done|].
  eexists. split; [done|]. done.
Qed.

Lemma AppendEntries_check_accepted args ci rf rf' reply :
  lastIncludedIndex rf <= ae_PrevLogIndex args ->
  AppendEntries_check args ci rf = Some (rf', reply) -> aer_Success reply = true ->
  accepted rf (ae_PrevLogIndex args) (ae_Entries args) rf' /\
  commitIndex rf' = accepted_commit (ae_LeaderCommit args) rf rf' /\
  termAt rf (ae_PrevLogIndex args) = Some (ae_PrevLogTerm args) /\
  merged rf (ae_PrevLogIndex args) (ae_Entries args) (log rf').
Proof.
  intros Hprev Hs Hok.
  destruct (AppendEntries_check_success _ _ _ _ _ Hprev Hs Hok) as (Hle & Ht & l & Hl & ->).
  assert (lastIncludedIndex rf < ae_PrevLogIndex args + 1 <= lastLogIndex rf + 1) as Hr by lia.
  destruct (appendLoop_view rf _ _ _ Hr Hl) as (Hlow & Hat & Hend & Hor).
  pose proof (appendLoop_merged rf _ _ _ Hr Hl) as Hm.
  replace (ae_PrevLogIndex args + 1 - 1) with (ae_PrevLogIndex args) in Hm by lia.
  split_and!; [|done|done|done].
  assert (forall j, entryAt (set_commitIndex (accepted_commit (ae_LeaderCommit args) rf
    (set_log l rf)) (persist (set_log l rf))) j = entryAt (set_log l rf) j) as E by done.
  split_and!; [done| | | |].
  - intros j Hj. rewrite E. apply Hlow. lia.
  - intros k e Hk _. rewrite E. auto.
  - unfold lastLogIndex in *. simpl in *. lia.
  - destruct Hor as [[Hlast _]|[Hlast Hkeep]]; [left|right; split].
    + unfold lastLogIndex in *. simpl in *. lia.
    + unfold lastLogIndex in *. simpl in *. lia.
    + intros j Hj. rewrite E. auto.
Qed.

Lemma AppendEntries_check_failure args ci rf rf' reply :
  AppendEntries_check args ci rf = Some (rf', reply) -> aer_Success reply = false -> rf' = rf.
Proof.
  unfold AppendEntries_check. intros Hs Hok. case_match; simplify_eq; [done|].
  apply bind_Some in Hs as (t & _ & Hs). case_match; bind_all; done.
Qed.

(** A newer term does not touch the log, the commit index or the snapshot. *)
Lemma observeTerm_log t rf :
  log (observeTerm t rf) = log rf /\
  lastIncludedIndex (observeTerm t rf) = lastIncludedIndex rf /\
  lastIncludedTerm (observeTerm t rf) = lastIncludedTerm rf /\
  commitIndex (observeTerm t rf) = commitIndex rf /\
  lastApplied (observeTerm t rf) = lastApplied rf.
Proof. unfold observeTerm. by destruct (_ >? _). Qed.

Lemma observeTerm_currentTerm t rf :
  currentTerm rf <= t -> currentTerm (observeTerm t rf) = t.
Proof. unfold observeTerm. intros ?. case_match; b2p; simpl; lia. Qed.

(** The state in which [AppendEntries] checks the log of a peer. *)
Definition heard env t rf : Raft Cmd :=
  observeTerm t rf |> set_role Follower |> resetElectionTimer env.

Lemma heard_view env t rf :
  (forall j, entryAt (heard env t rf) j = entryAt rf j) /\
  lastLogIndex (heard env t rf) = lastLogIndex rf /\
  lastIncludedIndex (heard env t rf) = lastIncludedIndex rf /\
  lastIncludedTerm (heard env t rf) = lastIncludedTerm rf /\
  commitIndex (heard env t rf) = commitIndex rf.
Proof.
  destruct (observeTerm_log t rf) as (El & Ei & Et & Ec & _).
  unfold entryAt, lastLogIndex, heard. simpl. rewrite El, Ei, Et, Ec. done.
Qed.

Lemma accepted_view rf1 rf prev es rf' :
  (forall j, entryAt rf1 j = entryAt rf j) -> lastLogIndex rf1 = lastLogIndex rf ->
  lastIncludedIndex rf1 = lastIncludedIndex rf ->
  accepted rf1 prev es rf' -> accepted rf prev es rf'.
Proof.
  unfold accepted. intros Ee El Ei (H1 & H2 & H3 & H4 & H5).
  rewrite Ei, ?El in *. split_and!; [done| |  |done|].
  - intros j Hj. rewrite <- Ee. auto.
  - intros k e Hk Hle. destruct (H3 k e Hk Hle) as (e' & ? & ? & Hor).
    rewrite Ee in Hor. eauto.
  - destruct H5 as [?|[? Hkeep]]; [by left|right; split; [done|]].
    intros j Hj. rewrite <- Ee. auto.
Qed.

(** Dropping the entries a snapshot already covers. *)
Lemma accepted_clamp rf prev es rf' :
  prev < lastIncludedIndex rf -> lastIncludedIndex rf - prev <= zlen es ->
  accepted rf (lastIncludedIndex rf)
    (drop (Z.to_nat (lastIncludedIndex rf - prev)) es) rf' ->
  accepted rf prev es rf'.
Proof.
  intros Hprev Hoff (H1 & H2 & H3 & H4 & H5). unfold zlen in *.
  rewrite length_drop in *. split_and!; [done| | | |].
  - intros j Hj. apply H2. lia.
  - intros k e Hk Hle. destruct (H3 (k - Z.to_nat (lastIncludedIndex rf - prev))%nat e) as (e' & He').
    + rewrite lookup_drop. rewrite <- Hk. f_equal. lia.
    + lia.
    + exists e'. by replace (prev + 1 + Z.of_nat k) with (lastIncludedIndex rf + 1 +
        Z.of_nat (k - Z.to_nat (lastIncludedIndex rf - prev))) by lia.
  - unfold zlen. lia.
  - unfold zlen. destruct H5 as [?|[? ?]]; [left; lia|right; split; [lia|done]].
Qed.

Lemma AppendEntries_accepted env args rf rf' reply :
  wf rf -> AppendEntries env args rf = Some (rf', reply) -> aer_Success reply = true ->
  accepted rf (ae_PrevLogIndex args) (ae_Entries args) rf' /\
  commitIndex rf' = accepted_commit (ae_LeaderCommit args) rf rf' /\
  (ae_PrevLogIndex args < lastIncludedIndex rf \/
   termAt rf (ae_PrevLogIndex args) = Some (ae_PrevLogTerm args)) /\
  merged rf (ae_PrevLogIndex args) (ae_Entries args) (log rf').
Proof.
  intros Hwf Hs Hok. unfold AppendEntries in Hs.
  destruct (_ <? _) eqn:?; simplify_eq; b2p.
  fold (heard env (ae_Term args) rf) in Hs.
  destruct (heard_view env (ae_Term args) rf) as (Ee & El & Ei & Et & Ec).
  set (rf1 := heard env (ae_Term args) rf) in *.
  assert (forall es p, accepted rf1 p es rf' -> accepted rf p es rf') as Hview
    by (intros ??; by apply accepted_view).
  assert (forall es p l, merged rf1 p es l -> merged rf p es l) as Hsame
    by (intros ???; apply merged_same; [done|unfold rf1, heard; simpl; apply observeTerm_log|done]).
  assert (forall c, accepted_commit c rf1 rf' = accepted_commit c rf rf') as Hc
    by (intros c; unfold accepted_commit; by rewrite Ec).
  destruct (Z.ltb_spec (ae_PrevLogIndex args) (lastIncludedIndex rf1)) as [Hlt|Hge].
  - destruct (_ <=? lastIncludedIndex rf1) eqn:?; simplify_eq; b2p.
    destruct (Z.leb_spec (lastIncludedIndex rf1 - ae_PrevLogIndex args) (zlen (ae_Entries args)));
      [|lia].
    rewrite go_slice_from_Some in Hs by lia. simpl in Hs.
    apply AppendEntries_check_accepted in Hs as (Ha & Hcm & _ & Hm); [|apply Z.le_refl|done].
    simpl in *. rewrite <- Hc. split_and!; [by apply Hview, accepted_clamp|done|left; lia|].
    by apply Hsame, merged_clamp.
  - destruct (AppendEntries_check_accepted _ _ _ _ _ Hge Hs Hok) as (Ha & Hcm & Ht & Hm).
    rewrite <- Hc. split_and!; [auto|done|right|by apply Hsame].
    apply termAt_entryAt in Ht as (e & He & Hte). apply termAt_entryAt. rewrite Ee in He. eauto.
Qed.

(** ** The conflict report *)

Lemma conflictScan_spec ct rf d i :
  conflictScan ct rf d = Some i ->
  lastIncludedIndex rf <= i <= lastIncludedIndex rf + Z.of_nat d /\
  (forall j, i <= j < lastIncludedIndex rf + Z.of_nat d -> termAt rf j = Some ct) /\
  (i = lastIncludedIndex rf \/ termAt rf (i - 1) <> Some ct).
Proof.
  revert i. induction d as [|d IH]; intros i Hs; cbn [conflictScan] in Hs.
  - simplify_eq. split_and!; [lia|lia|intros; lia|by left].
  - bind_all. case_match; b2p.
    + subst. destruct (IH i Hs) as (Hi & Hall & Hend). split_and!; [lia|lia| |done].
      intros j Hj. destruct (decide (j = lastIncludedIndex rf + Z.of_nat d)) as [->|]; [done|].
      apply Hall. lia.
    + simplify_eq. split_and!; [lia|lia|intros; lia|right].
      replace (lastIncludedIndex rf + Z.of_nat (S d) - 1)
        with (lastIncludedIndex rf + Z.of_nat d) by lia. congruence.
Qed.

(** ** The commit rule *)

(** Peer [p] is known to hold entry [n]. *)
Definition holds (n : Z) rf (p : Z) : bool :=
  match matchIndex rf @! p with Some m => m >=? n | None => false end.

(** The peers that hold entry [n], the leader itself included. *)
Definition holders (n : Z) rf : list Z :=
  filter (fun p => p = me rf \/ holds n rf p = true) (seqZ 0 (Z.of_nat (npeers rf))).

(** Entry [n] is of the current term and on a majority of the peers. *)
Definition committable (n : Z) rf : Prop :=
  termAt rf n = Some (currentTerm rf) /\ Z.of_nat (npeers rf) / 2 < zlen (holders n rf).

Lemma countMatches_spec n rf peers c c' :
  countMatches n rf peers c = Some c' ->
  c' = c + zlen (filter (fun p => p <> me rf /\ holds n rf p = true) peers).
Proof.
  revert c. induction peers as [|p ps IH]; intros c Hs; cbn [countMatches] in Hs.
  - simplify_eq. unfold zlen. simpl. lia.
  - rewrite filter_cons. destruct (Z.eqb_spec p (me rf)) as [->|Hne]; simpl in Hs.
    + rewrite decide_False by tauto. by apply IH.
    + apply bind_Some in Hs as (m & Hm & Hs). rewrite (IH _ Hs).
      assert (holds n rf p = (m >=? n)) as Hh by (unfold holds; by rewrite Hm).
      destruct (m >=? n).
      * rewrite decide_True by done. rewrite zlen_cons. lia.
      * rewrite decide_False by (intros [? ?]; congruence). lia.
Qed.

(** Counting an element apart from the others of a duplicate-free list. *)
Lemma filter_apart (x : Z) (P : Z -> bool) (l : list Z) :
  NoDup l ->
  zlen (filter (fun p => p = x \/ P p = true) l) =
  zlen (filter (fun p => p <> x /\ P p = true) l) + (if decide (x ∈ l) then 1 else 0).
Proof.
  induction l as [|p l IH]; intros Hnd; [done|].
  apply NoDup_cons in Hnd as [Hp Hnd]. specialize (IH Hnd). rewrite !filter_cons.
  destruct (decide (p = x)) as [->|Hne].
  - rewrite decide_False in IH by done.
    rewrite decide_True by auto. rewrite decide_False by tauto.
    rewrite decide_True by (by left). rewrite zlen_cons. lia.
  - assert (x ∈ p :: l <-> x ∈ l) as Hin by (rewrite elem_of_cons; split; [intros [?|?]; congruence|auto]).
    rewrite (decide_ext _ _ _ _ Hin).
    destruct (P p) eqn:HP.
    + rewrite (decide_True (P := p = x \/ _)), (decide_True (P := p <> x /\ _)) by auto.
      rewrite !zlen_cons. lia.
    + rewrite (decide_False (P := p = x \/ _)) by (intros [?|?]; congruence).
      rewrite (decide_False (P := p <> x /\ _)) by (intros [? ?]; congruence). done.
Qed.

Lemma holders_count n rf :
  0 <= me rf < Z.of_nat (npeers rf) ->
  zlen (holders n rf) =
  1 + zlen (filter (fun p => p <> me rf /\ holds n rf p = true)
              (seqZ 0 (Z.of_nat (npeers rf)))).
Proof.
  intros Hme. unfold holders. rewrite filter_apart by apply NoDup_seqZ.
  rewrite decide_True by (apply elem_of_seqZ; lia). lia.
Qed.

Lemma advanceLoop_spec rf d rf' :
  0 <= me rf < Z.of_nat (npeers rf) ->
  advanceLoop rf d = Some rf' ->
  (rf' = rf /\ forall n, commitIndex rf < n <= commitIndex rf + Z.of_nat d -> ~ committable n rf) \/
  (exists n, commitIndex rf < n <= commitIndex rf + Z.of_nat d /\ committable n rf /\
     rf' = set_commitIndex n rf /\
     forall m, n < m <= commitIndex rf + Z.of_nat d -> ~ committable m rf).
Proof.
  intros Hme. induction d as [|d IH]; intros Hs; cbn [advanceLoop] in Hs.
  - simplify_eq. left. split; [done|]. intros; lia.
  - apply bind_Some in Hs as (t & Ht & Hs).
    set (n := commitIndex rf + Z.of_nat (S d)) in *.
    assert (~ committable n rf -> advanceLoop rf d = Some rf' ->
      (rf' = rf /\ forall n, commitIndex rf < n <= commitIndex rf + Z.of_nat (S d) -> ~ committable n rf) \/
      (exists n, commitIndex rf < n <= commitIndex rf + Z.of_nat (S d) /\ committable n rf /\
         rf' = set_commitIndex n rf /\
         forall m, n < m <= commitIndex rf + Z.of_nat (S d) -> ~ committable m rf)) as Hskip.
    { intros Hn [[-> Hno]|(k & Hk & Hck & -> & Hno)]%IH.
      - left. split; [done|]. intros m Hm.
        destruct (decide (m = n)) as [->|]; [done|]. apply Hno. lia.
      - right. exists k. split_and!; [lia|lia|done|done|]. intros m Hm.
        destruct (decide (m = n)) as [->|]; [done|]. apply Hno. lia. }
    destruct (Z.eqb_spec t (currentTerm rf)) as [->|Hne]; simpl in Hs.
    + apply bind_Some in Hs as (c & Hc & Hs). apply countMatches_spec in Hc.
      rewrite <- holders_count in Hc by done. case_match; b2p.
      * simplify_eq. right. exists n. split_and!; [lia|lia|split; [done|lia]|done|].
        intros m Hm. lia.
      * apply Hskip; [|done]. intros [_ Hmaj]. lia.
    + apply Hskip; [|done]. intros [Ht' _]. congruence.
Qed.

(** ** Compaction *)

(** A log whose prefix up to [index] is replaced by a dummy entry keeps its
    other entries at their absolute index. *)
Lemma compact_view rf rf' index t :
  lastIncludedIndex rf < index <= lastLogIndex rf ->
  lastIncludedIndex rf' = index ->
  log rf' = mkEntry t None :: drop (Z.to_nat (index - lastIncludedIndex rf + 1)) (log rf) ->
  termAt rf index = Some t ->
  lastLogIndex rf' = lastLogIndex rf /\
  (forall j, index < j -> entryAt rf' j = entryAt rf j) /\
  (forall j, index <= j -> termAt rf' j = termAt rf j).
Proof.
  intros Hi Ei El Ht.
  assert (forall j, index < j -> entryAt rf' j = entryAt rf j) as He.
  { intros j Hj. unfold entryAt. rewrite Ei, El, go_index_cons by lia.
    rewrite go_index_drop by lia. f_equal. lia. }
  split_and!; [|done|].
  - unfold lastLogIndex in *. rewrite Ei, El, zlen_cons. unfold zlen in *.
    rewrite length_drop. lia.
  - intros j Hj. destruct (decide (j = index)) as [->|].
    + rewrite Ht. unfold termAt. rewrite Ei, El, Z.sub_diag. done.
    + specialize (He j ltac:(lia)). unfold entryAt in He. unfold termAt. by rewrite He.
Qed.

Lemma snapshotLog_spec LII LIT rf l :
  lastIncludedIndex rf < LII -> snapshotLog LII LIT rf = Some l ->
  (LII < lastLogIndex rf /\ termAt rf LII = Some LIT /\
   l = mkEntry LIT None :: drop (Z.to_nat (LII - lastIncludedIndex rf + 1)) (log rf)) \/
  (~ (LII < lastLogIndex rf /\ termAt rf LII = Some LIT) /\ l = [mkEntry LIT None]).
Proof.
  intros HLII Hs. unfold snapshotLog in Hs.
  destruct (Z.ltb_spec LII (lastLogIndex rf)).
  - apply bind_Some in Hs as (c & Hc & Hs). bind_all. case_match; b2p; bind_all.
    + left. unfold go_slice_from in *. case_match; by simplify_eq.
    + right. split; [|done]. intros [_ ?]. congruence.
  - simpl in Hs. simplify_eq. right. split; [lia|done].
Qed.

(** ** Theorems *)

(** C26. The acceptance of [AppendEntries], exactly: the log is unchanged if it has all
    the entries sent (those the peer's snapshot covers do not count), and otherwise it is
    cut at the first index where it lacks the entry sent or has one of another term, and
    continues with the entries sent from there ([merged]); so up to [PrevLogIndex] it is
    untouched, and it has the terms sent up to the last entry of the request ([accepted]).
    The commit index becomes [min(LeaderCommit, lastLogIndex)] if [LeaderCommit] is
    greater, and the entry at [PrevLogIndex] had the term sent or is in the snapshot. *)
Theorem AppendEntries_success_spec env args rf rf' reply :
  wf rf -> AppendEntries env args rf = Some (rf', reply) -> aer_Success reply = true ->
  merged rf (ae_PrevLogIndex args) (ae_Entries args) (log rf') /\
  accepted rf (ae_PrevLogIndex args) (ae_Entries args) rf' /\
  commitIndex rf' = accepted_commit (ae_LeaderCommit args) rf rf' /\
  (ae_PrevLogIndex args < lastIncludedIndex rf \/
   termAt rf (ae_PrevLogIndex args) = Some (ae_PrevLogTerm args)).
Proof. intros Hwf Hs Hok. destruct (AppendEntries_accepted _ _ _ _ _ Hwf Hs Hok) as (? & ? & ? & ?). auto. Qed.

(** A rejected [AppendEntries] changes neither the log nor the commit index. *)
Theorem AppendEntries_failure_spec env args rf rf' reply :
  AppendEntries env args rf = Some (rf', reply) -> aer_Success reply = false ->
  log rf' = log rf /\ lastIncludedIndex rf' = lastIncludedIndex rf /\
  commitIndex rf' = commitIndex rf.
Proof.
  unfold AppendEntries. intros Hs Hok.
  destruct (observeTerm_log (ae_Term args) rf) as (El & Ei & _ & Ec & _).
  case_match; simplify_eq; [done|]. case_match.
  - case_match; simplify_eq; [done|]. apply bind_Some in Hs as (es & _ & Hs).
    by apply AppendEntries_check_failure in Hs as ->.
  - by apply AppendEntries_check_failure in Hs as ->.
Qed.

(** The conflict report (fast backup): when the terms at [PrevLogIndex] differ,
    [ConflictTerm] is the peer's term there and [ConflictIndex] the first index of
    the run of that term that ends at [PrevLogIndex], as far as the log reaches
    below. *)
Theorem AppendEntries_conflict_spec env args rf t :
  wf rf -> currentTerm rf <= ae_Term args ->
  lastIncludedIndex rf <= ae_PrevLogIndex args ->
  termAt rf (ae_PrevLogIndex args) = Some t -> t <> ae_PrevLogTerm args ->
  exists rf' i,
    AppendEntries env args rf = Some (rf', mkAppendEntriesReply (ae_Term args) false t i) /\
    log rf' = log rf /\
    lastIncludedIndex rf <= i <= ae_PrevLogIndex args /\
    (forall j, i <= j <= ae_PrevLogIndex args -> termAt rf j = Some t) /\
    (i = lastIncludedIndex rf \/ termAt rf (i - 1) <> Some t).
Proof.
  intros Hwf Hterm Hprev Ht Hne. pose proof (termAt_Some_bound _ _ _ Ht) as Hb.
  destruct (heard_view env (ae_Term args) rf) as (Ee & El & Ei & _ & _).
  assert (forall j, termAt (heard env (ae_Term args) rf) j = termAt rf j) as Et.
  { intros j. unfold termAt. unfold entryAt in Ee. by rewrite Ee. }
  unfold AppendEntries. destruct (Z.ltb_spec (ae_Term args) (currentTerm rf)); [lia|].
  fold (heard env (ae_Term args) rf).
  assert (currentTerm (heard env (ae_Term args) rf) = ae_Term args) as Ect.
  { apply (observeTerm_currentTerm (ae_Term args) rf Hterm). }
  assert (log (heard env (ae_Term args) rf) = log rf) as Elog by apply observeTerm_log.
  set (rf1 := heard env (ae_Term args) rf) in *. clearbody rf1.
  destruct (Z.ltb_spec (ae_PrevLogIndex args) (lastIncludedIndex rf1)); [lia|].
  unfold AppendEntries_check. rewrite Z.gtb_ltb, Ect.
  destruct (Z.ltb_spec (lastLogIndex rf1) (ae_PrevLogIndex args)); [lia|].
  rewrite Et, Ht. simpl. destruct (Z.eqb_spec t (ae_PrevLogTerm args)); [done|]. simpl.
  destruct (conflictScan_total t rf1 (Z.to_nat (ae_PrevLogIndex args - lastIncludedIndex rf1)))
    as (i & Hi & _); [lia|].
  destruct (conflictScan_spec _ _ _ _ Hi) as (Hr & Hall & Hend). rewrite Hi. simpl.
  exists rf1, i. rewrite Ei, Et in *. split_and!; try done; [lia..|].
  intros j Hj. destruct (decide (j = ae_PrevLogIndex args)) as [->|]; [done|].
  rewrite <- Et. apply Hall. lia.
Qed.

(** C25. The commit rule: [advanceCommit] returns, and moves [commitIndex] to the
    largest index above it that holds an entry of the current term and is on a
    majority of the peers; if there is none it changes nothing. *)
Theorem advanceCommit_spec rf :
  wf rf -> role rf = Leader ->
  exists rf', advanceCommit rf = Some rf' /\
  ((rf' = rf /\ forall n, commitIndex rf < n <= lastLogIndex rf -> ~ committable n rf) \/
   (exists n, commitIndex rf < n <= lastLogIndex rf /\ committable n rf /\
      rf' = set_commitIndex n rf /\
      forall m, n < m <= lastLogIndex rf -> ~ committable m rf)).
Proof.
  intros Hwf Hl. destruct (wf_arrays _ Hwf Hl) as [_ Hm].
  destruct (advanceCommit_total rf) as (rf' & Hs & _); [apply Hwf|done|].
  exists rf'. split; [done|]. apply advanceLoop_spec in Hs; [|apply Hwf].
  destruct Hs as [[-> Hno]|(n & Hn & Hc & -> & Hno)]; [left|right].
  - split; [done|]. intros n Hn. apply Hno. lia.
  - exists n. split_and!; [lia|lia|done|done|]. intros m Hm'. apply Hno. lia.
Qed.

(** A snapshot of the service compacts the log and nothing else: the entries
    after [index] and the terms from [index] on keep their absolute index, the last
    index stays, and the snapshot is saved together with the new state. *)
Theorem Snapshot_spec index snap rf :
  lastIncludedIndex rf < index <= commitIndex rf -> index <= lastLogIndex rf ->
  exists rf', Snapshot index snap rf = Some rf' /\
    lastIncludedIndex rf' = index /\ lastLogIndex rf' = lastLogIndex rf /\
    termAt rf index = Some (lastIncludedTerm rf') /\
    (forall j, index < j -> entryAt rf' j = entryAt rf j) /\
    (forall j, index <= j -> termAt rf' j = termAt rf j) /\
    raftstate (persister rf') = encodeState rf' /\ snapshot (persister rf') = snap.
Proof.
  intros Hi Hlast. unfold Snapshot.
  destruct (Z.leb_spec index (lastIncludedIndex rf)); [lia|]. rewrite Z.gtb_ltb.
  destruct (Z.ltb_spec (commitIndex rf) index); [lia|]. simpl.
  destruct (termAt_in_range rf index) as [t Ht]; [lia|]. rewrite Ht. simpl.
  rewrite go_slice_from_Some by (unfold lastLogIndex in *; lia). simpl.
  eexists. split; [done|].
  match goal with |- lastIncludedIndex ?rf' = _ /\ _ =>
    destruct (compact_view rf rf' index t) as (E1 & E2 & E3); [lia|done..|] end.
  split_and!; done.
Qed.

(** A newer snapshot from the leader: the peer takes its position, moves its
    commit and applied indices up to it, saves it with the state and hands it to the
    service; it keeps the entries after it if its log holds the entry the snapshot
    ends with (before its last one), and drops the whole log otherwise. *)
Theorem InstallSnapshot_spec env args rf :
  wf rf -> currentTerm rf <= is_Term args ->
  lastIncludedIndex rf < is_LastIncludedIndex args ->
  exists rf',
    InstallSnapshot env args rf =
      Some (rf', mkInstallSnapshotReply (is_Term args),
            [SendApplyCh (SnapshotMsg (is_Data args) (is_LastIncludedTerm args)
                            (is_LastIncludedIndex args))]) /\
    lastIncludedIndex rf' = is_LastIncludedIndex args /\
    lastIncludedTerm rf' = is_LastIncludedTerm args /\
    commitIndex rf' = Z.max (commitIndex rf) (is_LastIncludedIndex args) /\
    lastApplied rf' = Z.max (lastApplied rf) (is_LastIncludedIndex args) /\
    raftstate (persister rf') = encodeState rf' /\
    snapshot (persister rf') = is_Data args /\
    ((is_LastIncludedIndex args < lastLogIndex rf /\
      termAt rf (is_LastIncludedIndex args) = Some (is_LastIncludedTerm args) /\
      lastLogIndex rf' = lastLogIndex rf /\
      forall j, is_LastIncludedIndex args < j -> entryAt rf' j = entryAt rf j) \/
     (~ (is_LastIncludedIndex args < lastLogIndex rf /\
         termAt rf (is_LastIncludedIndex args) = Some (is_LastIncludedTerm args)) /\
      lastLogIndex rf' = is_LastIncludedIndex args)).
Proof.
  intros Hwf Hterm Hlt. unfold InstallSnapshot.
  destruct (Z.ltb_spec (is_Term args) (currentTerm rf)); [lia|].
  fold (heard env (is_Term args) rf).
  rewrite (observeTerm_currentTerm (is_Term args) rf Hterm).
  destruct (heard_view env (is_Term args) rf) as (Ee & El & Ei & _ & Ec).
  assert (lastApplied (heard env (is_Term args) rf) = lastApplied rf) as Ea
    by apply observeTerm_log.
  assert (forall j, termAt (heard env (is_Term args) rf) j = termAt rf j) as Et.
  { intros j. unfold termAt. unfold entryAt in Ee. by rewrite Ee. }
  set (rf1 := heard env (is_Term args) rf) in *. clearbody rf1.
  destruct (Z.leb_spec (is_LastIncludedIndex args) (lastIncludedIndex rf1)); [lia|].
  destruct (snapshotLog_total (is_LastIncludedIndex args) (is_LastIncludedTerm args) rf1)
    as [tail Htail]; [lia|].
  pose proof Htail as Hspec. apply snapshotLog_spec in Hspec; [|lia].
  rewrite Htail. simpl. rewrite Ec, Ea. eexists. split; [done|]. simpl.
  split_and!; try done; [case_match; b2p; lia..|].
  rewrite <- Et, <- El.
  destruct Hspec as [(Hc1 & Hc2 & Hc3)|[Hc1 Hc2]]; [left; split; [done|]; split; [done|]|right; split; [done|]].
  all: match goal with |- context [lastLogIndex ?rf' = _] => set (rf2 := rf') end.
  - destruct (compact_view rf1 rf2 (is_LastIncludedIndex args) (is_LastIncludedTerm args))
      as (E1 & E2 & _); [lia|done..|]. split; [congruence|]. intros j Hj. rewrite <- Ee. auto.
  - simplify_eq. unfold lastLogIndex, rf2, zlen. simpl. lia.
Qed.

(** What a leader sends: the entries after [PrevLogIndex] up to the end of its
    log. *)
Lemma replicateTo_send_entries server term rf args :
  replicateTo_send server term rf = Some (ReplicateEntries args) ->
  role rf = Leader /\ currentTerm rf = term /\ ae_Term args = term /\
  ae_LeaderCommit args = commitIndex rf /\
  lastIncludedIndex rf <= ae_PrevLogIndex args <= lastLogIndex rf /\
  termAt rf (ae_PrevLogIndex args) = Some (ae_PrevLogTerm args) /\
  ae_PrevLogIndex args + zlen (ae_Entries args) = lastLogIndex rf /\
  (forall k : nat, ae_Entries args !! k = entryAt rf (ae_PrevLogIndex args + 1 + Z.of_nat k)).
Proof.
  unfold replicateTo_send. intros Hs. case_match eqn:Hr; simplify_eq. b2p.
  apply bind_Some in Hs as (next & Hnext & Hs). case_match; simplify_eq. b2p.
  apply bind_Some in Hs as (t & Ht & Hs). apply bind_Some in Hs as (es & Hes & Hs). simplify_eq.
  simpl in *. pose proof (termAt_Some_bound _ _ _ Ht) as Hb.
  rewrite go_slice_from_Some in Hes by (unfold lastLogIndex in *; lia). simplify_eq.
  split_and!; try done; [lia..| |].
  - unfold lastLogIndex, zlen in *. rewrite length_drop. lia.
  - intros k. rewrite lookup_drop, <- go_index_nat. unfold entryAt. f_equal. lia.
Qed.

(** One replication round: if a peer accepts the request a leader's
    [replicateTo] built, then the leader's record of the match,
    [PrevLogIndex + len(Entries)], is the end of the leader's log, the two logs have
    the same terms from [PrevLogIndex] to that end, and the peer's commit index
    becomes the larger of the two (the use of [lastLogIndex()] rather than the
    last new entry in [AppendEntries] is harmless, because the leader always sends
    its whole tail). *)
Theorem replication_round env server term ld args rf rf' reply :
  wf rf -> commitIndex ld <= lastLogIndex ld ->
  replicateTo_send server term ld = Some (ReplicateEntries args) ->
  AppendEntries env args rf = Some (rf', reply) -> aer_Success reply = true ->
  ae_PrevLogIndex args + zlen (ae_Entries args) = lastLogIndex ld /\
  lastLogIndex ld <= lastLogIndex rf' /\
  (forall j, ae_PrevLogIndex args <= j <= lastLogIndex ld -> lastIncludedIndex rf < j ->
     termAt rf' j = termAt ld j) /\
  commitIndex rf' = Z.max (commitIndex rf) (commitIndex ld).
Proof.
  intros Hwf Hcl Hsend Hs Hok.
  apply replicateTo_send_entries in Hsend as (_ & _ & _ & Hc & Hp & Ht & Hlen & Hent).
  apply AppendEntries_accepted in Hs as (Ha & Hcm & Hprev & _); [|done..].
  destruct Ha as (Ei & Hlow & Hat & Hend & _).
  split_and!; [done|lia| |].
  - intros j Hj Hlii. destruct (decide (j = ae_PrevLogIndex args)) as [->|Hne].
    + destruct Hprev as [|Hprev]; [lia|]. rewrite Ht. apply termAt_entryAt.
      apply termAt_entryAt in Hprev as (e & He & Hte). exists e. rewrite Hlow by lia. done.
    + assert (exists k : nat, j = ae_PrevLogIndex args + 1 + Z.of_nat k) as [k ->].
      { exists (Z.to_nat (j - ae_PrevLogIndex args - 1)). lia. }
      destruct (termAt_in_range ld (ae_PrevLogIndex args + 1 + Z.of_nat k)) as [t Htk]; [lia|].
      rewrite Htk. apply termAt_entryAt in Htk as (e & He & Hte).
      rewrite <- Hent in He. destruct (Hat k e He) as (e' & He' & Hte' & _); [lia|].
      apply termAt_entryAt. exists e'. split; [done|congruence].
  - rewrite Hcm. unfold accepted_commit. rewrite Hc. case_match; b2p; lia.
Qed.

End repl.

(** ** Examples *)

(** A follower with a stale entry at index 2, and the leader of term 2. *)
Definition demoFollower : Raft Z :=
  mkRaft 3 1 false MakePersister 1 (-1)
    [mkEntry 0 None; mkEntry 1 (Some 10); mkEntry 1 (Some 11)] 0 0 1 1 Follower [] [] 0 0.
Definition demoLeader : Raft Z :=
  mkRaft 3 0 false MakePersister 2 0
    [mkEntry 0 None; mkEntry 1 (Some 10); mkEntry 2 (Some 20); mkEntry 2 (Some 21)] 0 0 1 1
    Leader [4; 2; 4] [0; 1; 2] 0 0.

Lemma demoFollower_wf : wf demoFollower.
Proof. split; simpl; try done; try lia. by eexists. Qed.

Lemma demoLeader_wf : wf demoLeader.
Proof. split; simpl; try done; try lia. by eexists. Qed.

(** What the leader sends to peer 1, and how the follower answers. *)
Definition demoAppend : AppendEntriesArgs Z :=
  mkAppendEntriesArgs 2 0 1 1 [mkEntry 2 (Some 20); mkEntry 2 (Some 21)] 1.



Lemma AppendEntries_success_spec_witness :
  exists rf' reply, AppendEntries lateEnv demoAppend demoFollower = Some (rf', reply) /\
    log rf' = [mkEntry 0 None; mkEntry 1 (Some 10); mkEntry 2 (Some 20); mkEntry 2 (Some 21)] /\
    merged demoFollower 1 [mkEntry 2 (Some 20); mkEntry 2 (Some 21)] (log rf').
Proof.
  eexists _, _. split; [vm_compute; reflexivity|]. split; [vm_compute; reflexivity|].
  eapply (AppendEntries_success_spec lateEnv demoAppend demoFollower);
    [exact demoFollower_wf|vm_compute; reflexivity|reflexivity].
Defined.

Lemma AppendEntries_failure_spec_witness :
  exists rf' reply,
    AppendEntries lateEnv (mkAppendEntriesArgs 2 0 2 2 [mkEntry 2 (Some 21)] 1) demoFollower
      = Some (rf', reply) /\ log rf' = log demoFollower.
Proof.
  eexists _, _. split; [vm_compute; reflexivity|].
  eapply (AppendEntries_failure_spec lateEnv (mkAppendEntriesArgs 2 0 2 2 [mkEntry 2 (Some 21)] 1)
            demoFollower); [vm_compute; reflexivity|reflexivity].
Defined.

Lemma AppendEntries_conflict_spec_witness :
  exists rf' i,
    AppendEntries lateEnv (mkAppendEntriesArgs 2 0 2 2 [mkEntry 2 (Some 21)] 1) demoFollower
      = Some (rf', mkAppendEntriesReply 2 false 1 i) /\ termAt demoFollower (i - 1) <> Some 1.
Proof.
  destruct (AppendEntries_conflict_spec lateEnv
    (mkAppendEntriesArgs 2 0 2 2 [mkEntry 2 (Some 21)] 1) demoFollower 1 demoFollower_wf)
    as (rf' & i & Ha & _ & Hi & _ & Hor);
    [vm_compute; discriminate|vm_compute; discriminate|vm_compute; reflexivity|discriminate|].
  exists rf', i. split; [exact Ha|]. destruct Hor as [->|Hor]; [vm_compute; discriminate|exact Hor].
Defined.

Lemma advanceCommit_spec_witness :
  exists rf', advanceCommit demoLeader = Some rf' /\ commitIndex rf' = 2.
Proof.
  destruct (advanceCommit_spec demoLeader demoLeader_wf eq_refl) as (rf' & Ha & _).
  exists rf'. split; [exact Ha|]. vm_compute in Ha. by simplify_eq.
Defined.

Lemma Snapshot_spec_witness :
  exists rf', Snapshot 1 [Byte.x01] demoFollower = Some rf' /\
    entryAt rf' 2 = Some (mkEntry 1 (Some 11)).
Proof.
  destruct (Snapshot_spec 1 [Byte.x01] demoFollower) as (rf' & Hs & _ & _ & _ & He & _);
    [vm_compute; split; [reflexivity|discriminate]|vm_compute; discriminate|].
  exists rf'. split; [exact Hs|]. rewrite He by lia. vm_compute. reflexivity.
Defined.

Lemma InstallSnapshot_spec_witness :
  exists rf', InstallSnapshot lateEnv (mkInstallSnapshotArgs 2 0 5 2 [Byte.x02]) demoFollower =
    Some (rf', mkInstallSnapshotReply 2, [SendApplyCh (SnapshotMsg [Byte.x02] 2 5)]) /\
    commitIndex rf' = 5.
Proof.
  destruct (InstallSnapshot_spec lateEnv (mkInstallSnapshotArgs 2 0 5 2 [Byte.x02]) demoFollower
    demoFollower_wf) as (rf' & Hs & _ & _ & Hc & _); [vm_compute; discriminate|vm_compute; reflexivity|].
  exists rf'. split; [exact Hs|]. rewrite Hc. vm_compute. reflexivity.
Defined.

Lemma replication_round_witness :
  exists rf' reply, AppendEntries lateEnv demoAppend demoFollower = Some (rf', reply) /\
    lastLogIndex demoLeader <= lastLogIndex rf' /\ termAt rf' 2 = termAt demoLeader 2.
Proof.
  eexists _, _. split; [vm_compute; reflexivity|].
  match goal with |- _ <= lastLogIndex ?rf' /\ _ =>
    destruct (replication_round lateEnv 1 2 demoLeader demoAppend demoFollower rf'
      (mkAppendEntriesReply 2 true (-1) (-1)) demoFollower_wf) as (_ & Hl & Ht & _) end;
    [vm_compute; discriminate|vm_compute; reflexivity|vm_compute; reflexivity|reflexivity|].
  split; [exact Hl|]. apply Ht; vm_compute; [split; discriminate|reflexivity].
Defined.
