(* ===== verification/RaftCluster.v ===== *)
(** * A cluster of Raft peers over the lab network

    The peers of [Raft], the goroutines they start and the RPCs under way form a
    transition system.  One step is one critical section of one peer, or an event of
    the network: [labrpc] executes a request at most once, may lose the request or
    the reply, and may delay and reorder both.  A peer may crash at any time and is
    restarted by [Make] on its persister; replies to calls of an earlier incarnation
    are lost, its requests may still arrive. *)

From S2P Require Import Prelude Persister Raft RaftLocal.

Section cluster.
Context {Cmd : Type} `{StateCodec Cmd}.

(** A goroutine of peer [i] (in its incarnation [inc]) that waits for its turn. *)
Inductive Thread :=
| TReplicate (i : Z) (inc : nat) (server term : Z)
  (* [replicateTo] before its first lock *)
| TVoteReq (i : Z) (inc : nat) (term server : Z) (args : RequestVoteArgs)
| TVoteRep (i : Z) (inc : nat) (term server : Z) (reply : RequestVoteReply)
| TAppReq (i : Z) (inc : nat) (term server : Z) (args : AppendEntriesArgs Cmd)
| TAppRep (i : Z) (inc : nat) (term server : Z) (args : AppendEntriesArgs Cmd)
    (reply : AppendEntriesReply)
| TSnapReq (i : Z) (inc : nat) (term server : Z) (args : InstallSnapshotArgs)
| TSnapDeliver (i : Z) (inc : nat) (term server : Z) (sinc : nat)
    (args : InstallSnapshotArgs) (msg : ApplyMsg Cmd) (reply : InstallSnapshotReply)
  (* the handler of peer [server], blocked on [applyCh <- msg] *)
| TSnapRep (i : Z) (inc : nat) (term server : Z) (args : InstallSnapshotArgs)
    (reply : InstallSnapshotReply).

Record Cluster := mkCluster {
  nodes : Z -> Raft Cmd;
  incs : Z -> nat;                        (* incarnation of each peer *)
  votes : Z -> Z -> Z;                    (* the [votes] variable of each election *)
  delivering : Z -> option (ApplyMsg Cmd); (* the applier, blocked on [applyCh] *)
  applied : Z -> list (ApplyMsg Cmd);     (* what the service has received *)
  threads : list Thread;
}.

Definition setNode (i : Z) (rf : Raft Cmd) (w : Cluster) : Cluster :=
  mkCluster (upd (nodes w) i rf) (incs w) (votes w) (delivering w) (applied w) (threads w).

Definition setThreads (ts : list Thread) (w : Cluster) : Cluster :=
  mkCluster (nodes w) (incs w) (votes w) (delivering w) (applied w) ts.

Definition setVotes (i term v : Z) (w : Cluster) : Cluster :=
  mkCluster (nodes w) (incs w) (upd (votes w) i (upd (votes w i) term v))
    (delivering w) (applied w) (threads w).

Definition setDelivering (i : Z) (m : option (ApplyMsg Cmd)) (w : Cluster) : Cluster :=
  mkCluster (nodes w) (incs w) (votes w) (upd (delivering w) i m) (applied w) (threads w).

Definition deliver (i : Z) (m : ApplyMsg Cmd) (w : Cluster) : Cluster :=
  mkCluster (nodes w) (incs w) (votes w) (delivering w)
    (upd (applied w) i (applied w i ++ [m])) (threads w).

(** The goroutines an effect of peer [i] starts. *)
Definition spawn (i : Z) (inc : nat) (e : Effect Cmd) : option Thread :=
  match e with
  | GoRequestVote server args => Some (TVoteReq i inc (rv_Term args) server args)
  | GoReplicateTo server term => Some (TReplicate i inc server term)
  | SendApplyCh _ => None
  end.

Definition spawns (i : Z) (w : Cluster) (eff : list (Effect Cmd)) : list Thread :=
  omap (spawn i (incs w i)) eff.

(** The RPC or reply that [replicateTo] waits on, given what it read. *)
Definition replicateThread (i : Z) (inc : nat) (term server : Z) (m : ReplicateMsg Cmd)
  : list Thread :=
  match m with
  | ReplicateNothing => []
  | ReplicateSnapshot args => [TSnapReq i inc term server args]
  | ReplicateEntries args => [TAppReq i inc term server args]
  end.

(** Peer [i] crashes and restarts. *)
Definition restart (env : Env) (i : Z) (w : Cluster) : Cluster :=
  let rf := nodes w i in
  mkCluster (upd (nodes w) i (Make env (npeers rf) (me rf) (Copy (persister rf))))
    (upd (incs w) i (S (incs w i))) (votes w)
    (upd (delivering w) i None) (upd (applied w) i []) (threads w).

Definition isRpc (t : Thread) : bool :=
  match t with TReplicate _ _ _ _ | TSnapDeliver _ _ _ _ _ _ _ _ => false | _ => true end.

Context (n : nat).
Implicit Types (w : Cluster) (rf : Raft Cmd).

Definition peer (i : Z) : Prop := 0 <= i < Z.of_nat n.

(** What a step shows to the service above a peer: a command submitted and the answer of
    [Start], a snapshot handed over, a message received on [applyCh], a restart. *)
Inductive Label :=
| LTau
| LStart (i : Z) (cmd : option Cmd) (r : Z * Z * bool)
| LSnapshot (i index : Z) (snap : bytes)
| LDeliver (i : Z) (msg : ApplyMsg Cmd)
| LRestart (i : Z).

Inductive lstep w : Label -> Cluster -> Prop :=
| cs_ticker env i rf' eff : (* a new term: [startElection] set its [votes] to 1 *)
    peer i -> ticker env (nodes w i) = Some (rf', eff) ->
    lstep w LTau (w |> setNode i rf'
               |> (fun w' => if currentTerm rf' =? currentTerm (nodes w i) then w'
                             else setVotes i (currentTerm rf') 1 w')
               |> setThreads (threads w ++ spawns i w eff))
| cs_heartbeat i :
    peer i ->
    lstep w LTau (setThreads (threads w ++ spawns i w (heartbeatLoop (nodes w i))) w)
| cs_Start i cmd rf' r eff :
    peer i -> Start cmd (nodes w i) = (rf', r, eff) ->
    lstep w (LStart i cmd r) (w |> setNode i rf' |> setThreads (threads w ++ spawns i w eff))
| cs_Snapshot i index snap rf' :
    peer i -> index <= lastApplied (nodes w i) ->
    Snapshot index snap (nodes w i) = Some rf' ->
    lstep w (LSnapshot i index snap) (setNode i rf' w)
| cs_applier_wait i rf' :
    peer i -> delivering w i = None -> applier (nodes w i) = Some (rf', []) ->
    lstep w LTau (setNode i rf' w)
| cs_applier_send i rf' msg :
    peer i -> delivering w i = None ->
    applier (nodes w i) = Some (rf', [SendApplyCh msg]) ->
    lstep w LTau (w |> setNode i rf' |> setDelivering i (Some msg))
| cs_applier_sent i msg :
    peer i -> delivering w i = Some msg ->
    lstep w (LDeliver i msg) (w |> setDelivering i None |> deliver i msg)
| cs_replicate ts1 ts2 i inc server term m :
    threads w = ts1 ++ TReplicate i inc server term :: ts2 ->
    incs w i = inc -> replicateTo_send server term (nodes w i) = Some m ->
    lstep w LTau (setThreads (ts1 ++ replicateThread i inc term server m ++ ts2) w)
| cs_vote_exec ts1 ts2 env i inc term server args rf' reply :
    threads w = ts1 ++ TVoteReq i inc term server args :: ts2 ->
    RequestVote env args (nodes w server) = Some (rf', reply) ->
    lstep w LTau (w |> setNode server rf'
               |> setThreads (ts1 ++ TVoteRep i inc term server reply :: ts2))
| cs_vote_reply ts1 ts2 i inc term server reply rf' v eff :
    threads w = ts1 ++ TVoteRep i inc term server reply :: ts2 ->
    incs w i = inc ->
    requestVote_reply term (votes w i term) reply (nodes w i) = (rf', v, eff) ->
    lstep w LTau (w |> setNode i rf' |> setVotes i term v
               |> setThreads (ts1 ++ ts2 ++ spawns i w eff))
| cs_append_exec ts1 ts2 env i inc term server args rf' reply :
    threads w = ts1 ++ TAppReq i inc term server args :: ts2 ->
    AppendEntries env args (nodes w server) = Some (rf', reply) ->
    lstep w LTau (w |> setNode server rf'
               |> setThreads (ts1 ++ TAppRep i inc term server args reply :: ts2))
| cs_append_reply ts1 ts2 i inc term server args reply rf' :
    threads w = ts1 ++ TAppRep i inc term server args reply :: ts2 ->
    incs w i = inc ->
    replicateTo_append_reply server term args reply (nodes w i) = Some rf' ->
    lstep w LTau (w |> setNode i rf' |> setThreads (ts1 ++ ts2))
| cs_snap_exec ts1 ts2 env i inc term server args rf' reply :
    threads w = ts1 ++ TSnapReq i inc term server args :: ts2 ->
    InstallSnapshot env args (nodes w server) = Some (rf', reply, []) ->
    lstep w LTau (w |> setNode server rf'
               |> setThreads (ts1 ++ TSnapRep i inc term server args reply :: ts2))
| cs_snap_install ts1 ts2 env i inc term server args rf' reply msg :
    threads w = ts1 ++ TSnapReq i inc term server args :: ts2 ->
    InstallSnapshot env args (nodes w server) = Some (rf', reply, [SendApplyCh msg]) ->
    lstep w LTau (w |> setNode server rf'
               |> setThreads (ts1 ++
                    TSnapDeliver i inc term server (incs w server) args msg reply :: ts2))
| cs_snap_deliver ts1 ts2 i inc term server args msg reply :
    threads w = ts1 ++ TSnapDeliver i inc term server (incs w server) args msg reply :: ts2 ->
    lstep w (LDeliver server msg) (w |> deliver server msg
               |> setThreads (ts1 ++ TSnapRep i inc term server args reply :: ts2))
| cs_snap_reply ts1 ts2 i inc term server args reply rf' :
    threads w = ts1 ++ TSnapRep i inc term server args reply :: ts2 ->
    incs w i = inc ->
    replicateTo_snapshot_reply server term args reply (nodes w i) = Some rf' ->
    lstep w LTau (w |> setNode i rf' |> setThreads (ts1 ++ ts2))
| cs_lose ts1 ts2 t :
    threads w = ts1 ++ t :: ts2 -> isRpc t = true ->
    lstep w LTau (setThreads (ts1 ++ ts2) w)
| cs_restart env i :
    peer i -> lstep w (LRestart i) (restart env i w).

Definition cstep w w' : Prop := exists l, lstep w l w'.

Lemma lstep_cstep w l w' : lstep w l w' -> cstep w w'.
Proof. by exists l. Qed.

(** [n] peers, each started by [Make] on an empty persister. *)
Definition cinit (envs : Z -> Env) : Cluster :=
  mkCluster (fun i => Make (envs i) n i MakePersister) (fun _ => 0%nat) (fun _ _ => 0)
    (fun _ => None) (fun _ => []) [].

Definition creachable w : Prop := exists envs, rtc cstep (cinit envs) w.

(** ** The peers of a reachable cluster are peers of [RaftLocal] *)

Definition owner (t : Thread) : Z :=
  match t with
  | TReplicate i _ _ _ | TVoteReq i _ _ _ _ | TVoteRep i _ _ _ _ | TAppReq i _ _ _ _
  | TAppRep i _ _ _ _ _ | TSnapReq i _ _ _ _ | TSnapDeliver i _ _ _ _ _ _ _
  | TSnapRep i _ _ _ _ _ => i
  end.

Definition target (t : Thread) : Z :=
  match t with
  | TReplicate _ _ s _ | TVoteReq _ _ _ s _ | TVoteRep _ _ _ s _ | TAppReq _ _ _ s _
  | TAppRep _ _ _ s _ _ | TSnapReq _ _ _ s _ | TSnapDeliver _ _ _ s _ _ _ _
  | TSnapRep _ _ _ s _ _ => s
  end.

Definition thread_ok (t : Thread) : Prop := peer (owner t) /\ peer (target t).

Record base_inv w : Prop := {
  bi_npeers : forall i, peer i -> npeers (nodes w i) = n;
  bi_me : forall i, peer i -> me (nodes w i) = i;
  bi_wf : forall i, peer i -> wf (nodes w i);
  bi_durable : forall i, peer i -> durable (nodes w i);
  bi_threads : Forall thread_ok (threads w);
}.

(** A step of the cluster is a step of at most one peer. *)
Lemma cstep_nodes w w' :
  base_inv w -> cstep w w' ->
  forall i, nodes w' i = nodes w i \/ (peer i /\ rstep (nodes w i) (nodes w' i)).
Proof.
  intros [Hn Hm _ _ Hts] [l Hs] j.
  assert (forall k rf', peer k -> rstep (nodes w k) rf' ->
    upd (nodes w) k rf' j = nodes w j \/
    (peer j /\ rstep (nodes w j) (upd (nodes w) k rf' j))) as Hupd.
  { intros k rf' Hk Hr. unfold upd. case_decide; subst; auto. }
  destruct Hs; simpl;
    try match goal with E : threads _ = _ |- _ =>
      rewrite E in Hts; apply Forall_app in Hts as [_ Hts]; apply Forall_cons in Hts as [[Ho Ht] _]
    end; simpl in *; auto.
  all: try (apply Hupd; [done|]; by econstructor).
  - case_match; simpl; (apply Hupd; [done|]; by econstructor).
  - apply Hupd; [done|]. eapply rs_append_reply; [|done]. rewrite Hn by done. done.
  - apply Hupd; [done|]. eapply rs_snapshot_reply; [|done]. rewrite Hn by done. done.
Qed.

(** Goroutines go to other peers. *)
Definition effect_ok (e : Effect Cmd) : Prop :=
  match e with
  | GoRequestVote server _ | GoReplicateTo server _ => peer server
  | SendApplyCh _ => True
  end.

Lemma otherPeers_ok rf p : npeers rf = n -> p ∈ otherPeers rf -> peer p /\ p <> me rf.
Proof.
  unfold otherPeers, peer. intros E [Hne Hp]%list_elem_of_filter.
  apply elem_of_seqZ in Hp. split; [lia|done].
Qed.

Lemma broadcast_ok rf : npeers rf = n -> Forall effect_ok (broadcastAppendEntries rf).
Proof.
  intros E. apply Forall_fmap, Forall_forall. intros p Hp. by eapply otherPeers_ok.
Qed.

Lemma spawns_ok i w eff : peer i -> Forall effect_ok eff -> Forall thread_ok (spawns i w eff).
Proof.
  intros Hi Heff. unfold spawns. apply Forall_forall. intros t (e & He & Ht)%list_elem_of_omap.
  rewrite Forall_forall in Heff. specialize (Heff e He).
  destruct e; simplify_eq/=; split; done.
Qed.

Lemma ticker_effect_ok env rf rf' eff :
  npeers rf = n -> ticker env rf = Some (rf', eff) -> Forall effect_ok eff.
Proof.
  unfold ticker, startElection. intros E Hs. case_match; simplify_eq; [|done].
  apply bind_Some in Hs as (t & _ & Hs). simplify_eq.
  apply Forall_fmap, Forall_forall. intros p Hp. by eapply otherPeers_ok.
Qed.

Lemma Start_effect_ok cmd rf rf' r eff :
  npeers rf = n -> Start cmd rf = (rf', r, eff) -> Forall effect_ok eff.
Proof.
  unfold Start. intros E Hs. case_match; simplify_eq; [done|]. by apply broadcast_ok.
Qed.

Lemma heartbeat_effect_ok rf : npeers rf = n -> Forall effect_ok (heartbeatLoop rf).
Proof. unfold heartbeatLoop. intros E. case_match; [by apply broadcast_ok|done]. Qed.

Lemma requestVote_reply_effect_ok term v reply rf rf' v' eff :
  npeers rf = n -> requestVote_reply term v reply rf = (rf', v', eff) -> Forall effect_ok eff.
Proof.
  unfold requestVote_reply, becomeLeader. intros E Hs.
  repeat case_match; simplify_eq; try done. by apply broadcast_ok.
Qed.

Lemma cstep_threads w w' :
  base_inv w -> cstep w w' -> Forall thread_ok (threads w').
Proof.
  intros [Hn Hm _ _ Hts] [l Hs].
  assert (forall ts1 t ts2 us, threads w = ts1 ++ t :: ts2 ->
    (thread_ok t -> Forall thread_ok us) -> Forall thread_ok (ts1 ++ us ++ ts2)) as Hrep.
  { intros ts1 t ts2 us E Hus. rewrite E in Hts.
    apply Forall_app in Hts as [Hts1 Hts]. apply Forall_cons in Hts as [Ht Hts2].
    apply Forall_app. split; [done|]. apply Forall_app. split; auto. }
  destruct Hs as [env i rf' eff Hi Hs|i Hi|i cmd rf' r eff Hi Hs| | | | |
    ts1 ts2 i inc server term m E Hinc Hs| ts1 ts2 env i inc term server args rf' reply E Hs
    |ts1 ts2 i inc term server reply rf' v eff E Hinc Hs|ts1 ts2 env i inc term server args rf' reply E Hs
    |ts1 ts2 i inc term server args reply rf' E Hinc Hs|ts1 ts2 env i inc term server args rf' reply E Hs
    |ts1 ts2 env i inc term server args rf' reply msg E Hs|ts1 ts2 i inc term server args msg reply E
    |ts1 ts2 i inc term server args reply rf' E Hinc Hs|ts1 ts2 t E|]; simpl; try done.
  - apply Forall_app. split; [done|]. apply spawns_ok; [done|].
    eapply ticker_effect_ok; [|done]. auto.
  - apply Forall_app. split; [done|]. apply spawns_ok, heartbeat_effect_ok; auto.
  - apply Forall_app. split; [done|]. apply spawns_ok; [done|].
    eapply Start_effect_ok; [|done]. auto.
  - eapply Hrep; [done|]. intros Ht. destruct m; simpl; auto.
  - eapply (Hrep _ _ _ [_]); [done|]. intros Ht. by apply Forall_singleton.
  - pose proof (Hrep _ _ _ [] E) as Hr. simpl in Hr. rewrite app_assoc. apply Forall_app.
    split; [auto|]. rewrite E in Hts. apply Forall_app in Hts as [_ [[Hi _] _]%Forall_cons].
    apply spawns_ok; [done|]. eapply requestVote_reply_effect_ok; [|done]. auto.
  - eapply (Hrep _ _ _ [_]); [done|]. intros Ht. by apply Forall_singleton.
  - eapply (Hrep _ _ _ []); [done|]. auto.
  - eapply (Hrep _ _ _ [_]); [done|]. intros Ht. by apply Forall_singleton.
  - eapply (Hrep _ _ _ [_]); [done|]. intros Ht. by apply Forall_singleton.
  - eapply (Hrep _ _ _ [_]); [done|]. intros Ht. by apply Forall_singleton.
  - eapply (Hrep _ _ _ []); [done|]. auto.
  - eapply (Hrep _ _ _ []); [done|]. auto.
Qed.

Context `{!StateCodecOk Cmd}.

Lemma base_inv_init envs : base_inv (cinit envs).
Proof.
  split; simpl; try done; intros i Hi; auto using fresh_wf, fresh_durable.
Qed.

Lemma base_inv_step w w' : base_inv w -> cstep w w' -> base_inv w'.
Proof.
  intros Hb Hs. pose proof (cstep_nodes w w' Hb Hs) as Hnodes.
  assert (forall i, peer i -> follows (nodes w i) (nodes w' i) /\
    wf (nodes w' i) /\ durable (nodes w' i)) as Hf.
  { intros i Hi. destruct Hb. destruct (Hnodes i) as [->|[_ Hr]].
    - auto using follows_refl.
    - split_and!; eauto using rstep_wf, rstep_durable. apply rstep_follows; auto. }
  pose proof (cstep_threads w w' Hb Hs) as Hth.
  destruct Hb as [Hn Hm _ _ _]. split; [| | | |done]; intros i Hi.
  - destruct (Hf i Hi) as [(-> & _) _]. auto.
  - destruct (Hf i Hi) as [(_ & -> & _) _]. auto.
  - apply Hf, Hi.
  - apply Hf, Hi.
Qed.

Lemma creachable_base w : creachable w -> base_inv w.
Proof.
  intros [envs Hs]. pose proof (base_inv_init envs) as Hb. revert Hb.
  induction Hs; eauto using base_inv_step.
Qed.

End cluster.
