(* ===== verification/RaftRun.v ===== *)
(** * Running a cluster

    An executable scheduler for the transition system of [RaftCluster], sound for
    its steps; the examples about clusters run on it. *)

From S2P Require Import Prelude Persister Raft RaftLocal RaftCluster.

(** ** The scheduler *)

Section run.
Context {Cmd : Type} `{StateCodec Cmd}.
Context (n : nat).
Implicit Types (w : Cluster (Cmd := Cmd)).

Inductive Event :=
| EvTick (env : Env) (i : Z)
| EvHeartbeat (i : Z)
| EvStart (i : Z) (cmd : option Cmd)
| EvSnapshot (i index : Z) (snap : bytes)
| EvApplier (i : Z)
| EvDeliver (i : Z)
| EvThread (env : Env) (k : nat)
| EvLose (k : nat)
| EvRestart (env : Env) (i : Z).

Definition isPeer (i : Z) : bool := (0 <=? i) && (i <? Z.of_nat n).

(** The turn of goroutine [t], with [ts1] and [ts2] the ones around it. *)
Definition turn (env : Env) (ts1 : list Thread) (t : Thread) (ts2 : list Thread) w
  : option Cluster :=
  match t with
  | TReplicate i inc server term =>
      if bool_decide (incs w i = inc) then
        m ← replicateTo_send server term (nodes w i);
        Some (setThreads (ts1 ++ replicateThread i inc term server m ++ ts2) w)
      else None
  | TVoteReq i inc term server args =>
      '(rf', reply) ← RequestVote env args (nodes w server);
      Some (w |> setNode server rf'
              |> setThreads (ts1 ++ TVoteRep i inc term server reply :: ts2))
  | TVoteRep i inc term server reply =>
      if bool_decide (incs w i = inc) then
        let '(rf', v, eff) := requestVote_reply term (votes w i term) reply (nodes w i) in
        Some (w |> setNode i rf' |> setVotes i term v
                |> setThreads (ts1 ++ ts2 ++ spawns i w eff))
      else None
  | TAppReq i inc term server args =>
      '(rf', reply) ← AppendEntries env args (nodes w server);
      Some (w |> setNode server rf'
              |> setThreads (ts1 ++ TAppRep i inc term server args reply :: ts2))
  | TAppRep i inc term server args reply =>
      if bool_decide (incs w i = inc) then
        rf' ← replicateTo_append_reply server term args reply (nodes w i);
        Some (w |> setNode i rf' |> setThreads (ts1 ++ ts2))
      else None
  | TSnapReq i inc term server args =>
      '(rf', reply, eff) ← InstallSnapshot env args (nodes w server);
      match eff with
      | [] => Some (w |> setNode server rf'
                      |> setThreads (ts1 ++ TSnapRep i inc term server args reply :: ts2))
      | [SendApplyCh msg] =>
          Some (w |> setNode server rf'
                  |> setThreads (ts1 ++
                       TSnapDeliver i inc term server (incs w server) args msg reply :: ts2))
      | _ => None
      end
  | TSnapDeliver i inc term server sinc args msg reply =>
      if bool_decide (sinc = incs w server) then
        Some (w |> deliver server msg
                |> setThreads (ts1 ++ TSnapRep i inc term server args reply :: ts2))
      else None
  | TSnapRep i inc term server args reply =>
      if bool_decide (incs w i = inc) then
        rf' ← replicateTo_snapshot_reply server term args reply (nodes w i);
        Some (w |> setNode i rf' |> setThreads (ts1 ++ ts2))
      else None
  end.

Definition exec (ev : Event) w : option Cluster :=
  match ev with
  | EvTick env i =>
      if isPeer i then
        '(rf', eff) ← ticker env (nodes w i);
        Some (w |> setNode i rf'
                |> (fun w' => if currentTerm rf' =? currentTerm (nodes w i) then w'
                              else setVotes i (currentTerm rf') 1 w')
                |> setThreads (threads w ++ spawns i w eff))
      else None
  | EvHeartbeat i =>
      if isPeer i
      then Some (setThreads (threads w ++ spawns i w (heartbeatLoop (nodes w i))) w) else None
  | EvStart i cmd =>
      if isPeer i then
        let '(rf', r, eff) := Start cmd (nodes w i) in
        Some (w |> setNode i rf' |> setThreads (threads w ++ spawns i w eff))
      else None
  | EvSnapshot i index snap =>
      if isPeer i && (index <=? lastApplied (nodes w i)) then
        rf' ← Snapshot index snap (nodes w i); Some (setNode i rf' w)
      else None
  | EvApplier i =>
      if isPeer i then
        match delivering w i, applier (nodes w i) with
        | None, Some (rf', []) => Some (setNode i rf' w)
        | None, Some (rf', [SendApplyCh msg]) =>
            Some (w |> setNode i rf' |> setDelivering i (Some msg))
        | _, _ => None
        end
      else None
  | EvDeliver i =>
      if isPeer i then
        msg ← delivering w i; Some (w |> setDelivering i None |> deliver i msg)
      else None
  | EvThread env k =>
      t ← threads w !! k; turn env (take k (threads w)) t (drop (S k) (threads w)) w
  | EvLose k =>
      t ← threads w !! k;
      if isRpc t then Some (setThreads (take k (threads w) ++ drop (S k) (threads w)) w) else None
  | EvRestart env i => if isPeer i then Some (restart env i w) else None
  end.

(** What the service sees of an event. *)
Definition labelOf (ev : Event) w : Label :=
  match ev with
  | EvStart i cmd => LStart i cmd (Start cmd (nodes w i)).1.2
  | EvSnapshot i index snap => LSnapshot i index snap
  | EvDeliver i => match delivering w i with Some msg => LDeliver i msg | None => LTau end
  | EvThread _ k =>
      match threads w !! k with
      | Some (TSnapDeliver _ _ _ server _ _ msg _) => LDeliver server msg
      | _ => LTau
      end
  | EvRestart _ i => LRestart i
  | EvTick _ _ | EvHeartbeat _ | EvApplier _ | EvLose _ => LTau
  end.

Fixpoint run (evs : list Event) w : option Cluster :=
  match evs with
  | [] => Some w
  | ev :: evs => w' ← exec ev w; run evs w'
  end.

Lemma isPeer_peer i : isPeer i = true -> peer n i.
Proof. unfold isPeer, peer. intros ?. b2p. lia. Qed.

Lemma turn_sound env ts1 t ts2 w w' :
  threads w = ts1 ++ t :: ts2 -> turn env ts1 t ts2 w = Some w' ->
  lstep n w (match t with TSnapDeliver _ _ _ server _ _ msg _ => LDeliver server msg | _ => LTau end) w'.
Proof.
  intros Hts Ht. destruct t; simpl in Ht; try (case_bool_decide; [|done]).
  - bind_all. by econstructor.
  - apply bind_Some in Ht as ([rf' r] & Hr & Ht). simplify_eq. by econstructor.
  - repeat case_match. simplify_eq. by econstructor.
  - apply bind_Some in Ht as ([rf' r] & Hr & Ht). simplify_eq. by econstructor.
  - bind_all. by econstructor.
  - apply bind_Some in Ht as ([[rf' r] eff] & Hr & Ht).
    repeat case_match; simplify_eq; by econstructor.
  - simplify_eq. by econstructor.
  - bind_all. by econstructor.
Qed.

Lemma exec_label ev w w' : exec ev w = Some w' -> lstep n w (labelOf ev w) w'.
Proof.
  intros He. destruct ev; simpl in He |- *;
    try (match type of He with (if isPeer ?i then _ else _) = _ =>
           destruct (isPeer i) eqn:Hi; [apply isPeer_peer in Hi|done] end).
  - apply bind_Some in He as ([rf' eff] & Ht & He). simplify_eq. by econstructor.
  - simplify_eq. by econstructor.
  - destruct (Start cmd (nodes w i)) as [[rf' r] eff] eqn:Hs. simplify_eq. by econstructor.
  - case_match eqn:Hc; [|done]. apply andb_prop in Hc as [Hi%isPeer_peer Hx]. b2p.
    bind_all. by econstructor.
  - repeat case_match; simplify_eq; by econstructor.
  - apply bind_Some in He as (msg & Hd & He). rewrite Hd. simplify_eq. by econstructor.
  - apply bind_Some in He as (t & Ht & He). rewrite Ht. eapply turn_sound; [|done].
    symmetry. by apply take_drop_middle.
  - apply bind_Some in He as (t & Ht & He). case_match eqn:Hr; [|done]. simplify_eq.
    eapply cs_lose; [|done]. symmetry. by apply take_drop_middle.
  - simplify_eq. by constructor.
Qed.

Lemma exec_sound ev w w' : exec ev w = Some w' -> cstep n w w'.
Proof. intros He. eexists. by apply exec_label. Qed.

Lemma run_sound evs w w' : run evs w = Some w' -> rtc (cstep n) w w'.
Proof.
  revert w. induction evs as [|ev evs IH]; intros w Hr; simpl in Hr; [by simplify_eq|].
  apply bind_Some in Hr as (w1 & He & Hr). eapply rtc_l; eauto using exec_sound.
Qed.

End run.
