(* ===== verification/RaftElection.v ===== *)
(** * Election safety

    At most one leader per term, in every run of the cluster. *)

From S2P Require Import Prelude Persister Raft RaftCodec RaftLocal RaftReplication RaftCluster RaftRun.

Section election.
Context {Cmd : Type} `{StateCodec Cmd}.
Implicit Types (rf : Raft Cmd) (w : Cluster (Cmd := Cmd)).

(** ** Who stays leader *)

(** The step does not make a leader: a leader after it was leader of the same
    term before it. *)
Definition quiet rf rf' : Prop :=
  role rf' = Leader -> role rf = Leader /\ currentTerm rf' = currentTerm rf.

Lemma quiet_observeTerm t rf : quiet rf (observeTerm t rf).
Proof. unfold quiet, observeTerm. by destruct (_ >? _). Qed.

Lemma RequestVote_quiet env args rf rf' reply :
  RequestVote env args rf = Some (rf', reply) -> quiet rf rf'.
Proof.
  unfold RequestVote. intros Hs. pose proof (quiet_observeTerm (rv_Term args) rf) as Hq.
  case_match; simplify_eq; [done|]. apply bind_Some in Hs as (u & _ & Hs).
  case_match; by simplify_eq.
Qed.

Lemma AppendEntries_check_role args ci rf rf' reply :
  AppendEntries_check args ci rf = Some (rf', reply) -> role rf' = role rf.
Proof.
  unfold AppendEntries_check. intros Hs. case_match; simplify_eq; [done|].
  apply bind_Some in Hs as (t & _ & Hs). case_match; by bind_all.
Qed.

Lemma AppendEntries_quiet env args rf rf' reply :
  AppendEntries env args rf = Some (rf', reply) -> quiet rf rf'.
Proof.
  unfold AppendEntries. intros Hs. case_match; simplify_eq; [done|].
  intros Hl. case_match; [case_match; simplify_eq; try done; bind_all|];
    apply AppendEntries_check_role in Hs; simpl in *; congruence.
Qed.

Lemma InstallSnapshot_quiet env args rf rf' reply eff :
  InstallSnapshot env args rf = Some (rf', reply, eff) -> quiet rf rf'.
Proof.
  unfold InstallSnapshot. intros Hs. case_match; simplify_eq; [done|].
  intros Hl. case_match; simplify_eq; try done. by bind_all.
Qed.

Lemma Snapshot_quiet index snap rf rf' : Snapshot index snap rf = Some rf' -> quiet rf rf'.
Proof. unfold Snapshot. intros Hs. case_match; by bind_all. Qed.

Lemma Start_quiet cmd rf rf' r eff : Start cmd rf = (rf', r, eff) -> quiet rf rf'.
Proof. unfold Start. intros Hs. case_match; by simplify_eq. Qed.

Lemma ticker_quiet env rf rf' eff : ticker env rf = Some (rf', eff) -> quiet rf rf'.
Proof. unfold ticker, startElection. intros Hs. case_match; by bind_all. Qed.

Lemma applier_quiet rf rf' eff : applier rf = Some (rf', eff) -> quiet rf rf'.
Proof. unfold applier. intros Hs. repeat case_match; by bind_all. Qed.

Lemma advanceLoop_quiet rf d rf' : advanceLoop rf d = Some rf' -> quiet rf rf'.
Proof.
  induction d as [|d IH]; cbn [advanceLoop]; intros Hs; simplify_eq; [done|].
  apply bind_Some in Hs as (t & _ & Hs). case_match; [auto|].
  apply bind_Some in Hs as (c & _ & Hs). case_match; simplify_eq; auto. done.
Qed.

Lemma append_reply_quiet server term args reply rf rf' :
  replicateTo_append_reply server term args reply rf = Some rf' -> quiet rf rf'.
Proof.
  unfold replicateTo_append_reply. intros Hs.
  case_match; simplify_eq; [done|]. case_match; simplify_eq; [done|].
  case_match; [|by bind_all].
  apply bind_Some in Hs as (m & _ & Hs). apply bind_Some in Hs as (rf1 & Hrf1 & Hs).
  apply advanceLoop_quiet in Hs. case_match; by bind_all.
Qed.

Lemma snapshot_reply_quiet server term args reply rf rf' :
  replicateTo_snapshot_reply server term args reply rf = Some rf' -> quiet rf rf'.
Proof.
  unfold replicateTo_snapshot_reply. intros Hs.
  case_match; simplify_eq; [done|]. case_match; simplify_eq; [done|]. by bind_all.
Qed.

Lemma Make_quiet env n me ps rf : quiet rf (Make env n me ps).
Proof. intros Hl. destruct (Make_state env n me ps) as (_ & _ & _ & Er). congruence. Qed.

(** ** Votes *)

Lemma RequestVote_granted env args rf rf' reply :
  RequestVote env args rf = Some (rf', reply) -> rvr_VoteGranted reply = true ->
  currentTerm rf' = rv_Term args /\ votedFor rf' = rv_CandidateId args.
Proof.
  unfold RequestVote. intros Hs Hok. case_match eqn:Hlt; simplify_eq. b2p.
  apply bind_Some in Hs as (u & _ & Hs). case_match; simplify_eq. simpl.
  split; [|done]. by apply observeTerm_currentTerm.
Qed.

Lemma ticker_cases env rf rf' eff :
  ticker env rf = Some (rf', eff) ->
  (rf' = rf /\ eff = []) \/
  (currentTerm rf' = currentTerm rf + 1 /\ votedFor rf' = me rf /\ role rf' = Candidate /\
   exists args, rv_Term args = currentTerm rf' /\ rv_CandidateId args = me rf /\
     eff = (fun peer => GoRequestVote peer args) <$> otherPeers rf).
Proof.
  unfold ticker, startElection. intros Hs. case_match; simplify_eq; [|by left].
  apply bind_Some in Hs as (t & _ & Hs). simplify_eq. right. split_and!; try done.
  eexists. split_and!; [..|done]; done.
Qed.

(** The vote goroutine: it becomes leader only when the tally it adds to passes
    half of the peers. *)
Lemma requestVote_reply_cases term v reply rf rf' v' eff :
  requestVote_reply term v reply rf = (rf', v', eff) ->
  (quiet rf rf' /\ v' = v /\ eff = []) \/
  (rvr_VoteGranted reply = true /\ currentTerm rf = term /\ currentTerm rf' = term /\ v' = v + 1 /\
   ((rf' = rf /\ eff = []) \/
    (Z.of_nat (npeers rf) / 2 < v' /\ eff = broadcastAppendEntries rf'))).
Proof.
  unfold requestVote_reply, becomeLeader. intros Hs.
  destruct (Z.eqb_spec (currentTerm rf) term) as [Et|]; simpl in Hs; [|left; by simplify_eq].
  destruct (bool_decide (role rf = Candidate)) eqn:Hr; simpl in Hs; [|left; by simplify_eq].
  case_match; simplify_eq; [left; by split_and!|].
  case_match; simplify_eq; [|left; by split_and!].
  right. case_match; simplify_eq; b2p; split_and!; try done; auto.
Qed.

(** ** The invariant *)

Context (n : nat).
Implicit Types (V : gmap (Z * Z) Z).

Definition voteKey (t : Thread (Cmd := Cmd)) : option (Z * Z * Z) :=
  match t with
  | TVoteReq i _ T s _ | TVoteRep i _ T s _ => Some (i, T, s)
  | _ => None
  end.

Abbreviation keys ts := (omap voteKey ts).

(** [L] are voters of [c] in term [T]; [V] records every vote ever cast:
    [V !! (s, T) = Some c] when [s] voted for [c] in [T]. *)
Definition voters V (c T : Z) (L : list Z) : Prop :=
  NoDup L /\ forall s, s ∈ L -> peer n s /\ V !! (s, T) = Some c.

Definition elected V (c T : Z) : Prop :=
  exists L, voters V c T L /\ Z.of_nat n / 2 < zlen L.

Record thread_inv V (ns : Z -> Raft Cmd) (ts : list (Thread (Cmd := Cmd))) : Prop := {
  ti_req : forall i inc T s args, TVoteReq i inc T s args ∈ ts ->
    rv_Term args = T /\ rv_CandidateId args = i;
  ti_key : forall i T s, (i, T, s) ∈ keys ts ->
    peer n i /\ peer n s /\ s <> i /\ T <= currentTerm (ns i);
  ti_nodup : NoDup (keys ts);
  ti_rep : forall i inc T s reply, TVoteRep i inc T s reply ∈ ts ->
    rvr_VoteGranted reply = true -> V !! (s, T) = Some i;
}.

Record election_inv V w : Prop := {
  ei_past : forall s T c, V !! (s, T) = Some c ->
    peer n s /\ c <> -1 /\ T <= currentTerm (nodes w s) /\
    (T = currentTerm (nodes w s) -> votedFor (nodes w s) = c);
  ei_now : forall s, peer n s -> votedFor (nodes w s) <> -1 ->
    V !! (s, currentTerm (nodes w s)) = Some (votedFor (nodes w s));
  ei_threads : thread_inv V (nodes w) (threads w);
  ei_votes : forall i T, peer n i -> exists L,
    voters V i T L /\ zlen L = votes w i T /\ forall s, s ∈ L -> (i, T, s) ∉ keys (threads w);
  ei_leader : forall i, peer n i -> role (nodes w i) = Leader ->
    elected V i (currentTerm (nodes w i));
}.

Lemma voters_mono V V' c T L : V ⊆ V' -> voters V c T L -> voters V' c T L.
Proof.
  intros HV [Hnd HL]. split; [done|]. intros s Hs. destruct (HL s Hs).
  split; [done|]. by eapply lookup_weaken.
Qed.

Lemma elected_mono V V' c T : V ⊆ V' -> elected V c T -> elected V' c T.
Proof. intros HV (L & HL & Hmaj). exists L. eauto using voters_mono. Qed.

(** Two majorities of the same peers share a voter. *)
Lemma elected_unique V c c' T : elected V c T -> elected V c' T -> c = c'.
Proof.
  intros (L & [Hnd HL] & Hmaj) (L' & [Hnd' HL'] & Hmaj').
  destruct (decide (Exists (fun s => s ∈ L') L)) as [(s & Hs & Hs')%Exists_exists|Hno].
  - destruct (HL s Hs), (HL' s Hs'). congruence.
  - exfalso. assert (length (L ++ L') <= length (seqZ 0 (Z.of_nat n)))%nat as Hle.
    { apply submseteq_length, NoDup_submseteq.
      - apply NoDup_app. split_and!; [done| |done].
        intros s Hs Hs'. apply Hno, Exists_exists. eauto.
      - intros s [Hs|Hs]%elem_of_app; apply elem_of_seqZ;
          [destruct (HL s Hs) as [Hp _]|destruct (HL' s Hs) as [Hp _]]; unfold peer in Hp; lia. }
    rewrite length_app, length_seqZ in Hle. unfold zlen in *. lia_div.
Qed.

Lemma thread_inv_mono V V' ns ns' ts :
  V ⊆ V' -> (forall i, peer n i -> currentTerm (ns i) <= currentTerm (ns' i)) ->
  thread_inv V ns ts -> thread_inv V' ns' ts.
Proof.
  intros HV Hns [Hreq Hkey Hnd Hrep]. split; [done| |done|].
  - intros i T s Hin. destruct (Hkey i T s Hin) as (? & ? & ? & ?).
    split_and!; [done..|]. specialize (Hns i ltac:(done)). lia.
  - intros i inc T s reply Hin Hg. eapply lookup_weaken; eauto.
Qed.

(** ** Recording a vote *)

(** What peer [s] in state [rf'] adds to the record. *)
Definition record V (s : Z) rf' : gmap (Z * Z) Z :=
  if decide (votedFor rf' = -1) then V else <[(s, currentTerm rf') := votedFor rf']> V.

Lemma record_le V w s rf' :
  election_inv V w -> peer n s -> vote_le (nodes w s) rf' -> V ⊆ record V s rf'.
Proof.
  intros Hinv Hs [Ht Hv]. unfold record. case_decide as Hd; [done|].
  destruct (V !! (s, currentTerm rf')) as [c|] eqn:Hc.
  - destruct (ei_past _ _ Hinv _ _ _ Hc) as (_ & Hne & Hle & Heq).
    rewrite insert_id; [done|]. rewrite Hc. f_equal.
    assert (currentTerm rf' = currentTerm (nodes w s)) as E by lia.
    rewrite <- (Heq E) in *. symmetry. by apply Hv.
  - by apply insert_subseteq.
Qed.

Lemma record_now V s rf' :
  votedFor rf' <> -1 -> record V s rf' !! (s, currentTerm rf') = Some (votedFor rf').
Proof. intros Hne. unfold record. rewrite decide_False by done. apply lookup_insert_eq. Qed.

Lemma record_inv V s rf' s' T c :
  record V s rf' !! (s', T) = Some c ->
  V !! (s', T) = Some c \/
  (s' = s /\ T = currentTerm rf' /\ c = votedFor rf' /\ c <> -1).
Proof.
  unfold record. case_decide as Hd; [by left|].
  rewrite lookup_insert. case_decide as He; [|by left]. intros. simplify_eq. by right.
Qed.

(** ** Preservation *)

(** A step of one peer that leaves the goroutines alone. *)
Lemma inv_setNode V w s rf' :
  election_inv V w -> peer n s -> follows (nodes w s) rf' ->
  (role rf' = Leader -> elected (record V s rf') s (currentTerm rf')) ->
  election_inv (record V s rf') (setNode s rf' w).
Proof.
  intros Hinv Hs (_ & _ & Hv & _) Hlead.
  pose proof (record_le _ _ _ _ Hinv Hs Hv) as HV.
  assert (forall i, peer n i -> currentTerm (nodes w i) <= currentTerm (upd (nodes w) s rf' i)) as Hle.
  { intros i _. unfold upd. case_decide as E; [|lia]. subst. apply Hv. }
  destruct Hinv as [Hpast Hnow Hth Hvotes Hlead0]. split; simpl.
  - intros s' T c [Hc|(-> & -> & -> & Hne)]%record_inv.
    + destruct (Hpast _ _ _ Hc) as (Hp & Hne & HT & HTc). split_and!; [done..| |].
      * specialize (Hle s' Hp). lia.
      * unfold upd in *. case_decide as E; [|done]. subst. intros ->.
        destruct Hv as [Hv1 Hv2]. rewrite Hv2; [apply HTc; lia|lia|].
        rewrite HTc by lia. done.
    + unfold upd. rewrite decide_True by done. split_and!; [done|done|lia|done].
  - intros s' Hs'. unfold upd. case_decide as E; [subst; apply record_now|].
    intros Hne. eapply lookup_weaken; eauto.
  - by eapply thread_inv_mono.
  - intros i T Hi. destruct (Hvotes i T Hi) as (L & HL & Hz & Hk). eauto using voters_mono.
  - intros i Hi. unfold upd. case_decide as E; [subst; auto|]. eauto using elected_mono.
Qed.

(** The common case: the peer was leader of that term already. *)
Lemma inv_setNode_quiet V w s rf' :
  election_inv V w -> peer n s -> follows (nodes w s) rf' -> quiet (nodes w s) rf' ->
  election_inv (record V s rf') (setNode s rf' w).
Proof.
  intros Hinv Hs Hf Hq. apply inv_setNode; [done..|]. intros Hl.
  destruct (Hq Hl) as [Hl0 ->]. eapply elected_mono; [|by eapply ei_leader].
  eapply record_le; [done..|]. apply Hf.
Qed.

Lemma thread_inv_change V ns ts ts' :
  thread_inv V ns ts ->
  (forall i inc T s args, TVoteReq i inc T s args ∈ ts' -> TVoteReq i inc T s args ∈ ts) ->
  (forall i inc T s reply, TVoteRep i inc T s reply ∈ ts' -> rvr_VoteGranted reply = true ->
     TVoteRep i inc T s reply ∈ ts \/ V !! (s, T) = Some i) ->
  sublist (keys ts') (keys ts) -> thread_inv V ns ts'.
Proof.
  intros [Hreq Hkey Hnd Hrep] Hr Hp Hk. split.
  - eauto.
  - intros i T s Hin. apply Hkey. by eapply elem_of_sublist.
  - by eapply sublist_NoDup.
  - intros i inc T s reply Hin Hg. destruct (Hp _ _ _ _ _ Hin Hg); eauto.
Qed.

Lemma inv_setThreads V w ts :
  election_inv V w -> thread_inv V (nodes w) ts ->
  sublist (keys ts) (keys (threads w)) -> election_inv V (setThreads ts w).
Proof.
  intros [Hpast Hnow Hth Hvotes Hlead] Hts Hk. split; simpl; auto.
  intros i T Hi. destruct (Hvotes i T Hi) as (L & HL & Hz & Hno). exists L.
  split_and!; [done..|]. intros s Hs Hin. eapply Hno; [done|]. by eapply elem_of_sublist.
Qed.

Lemma keys_nil (ts : list (Thread (Cmd := Cmd))) t :
  keys ts = [] -> t ∈ ts -> voteKey t = None.
Proof.
  intros E Hin. destruct (voteKey t) as [k|] eqn:Hk; [|done]. exfalso.
  assert (k ∈ keys ts) as Hkin by (apply list_elem_of_omap; eauto).
  rewrite E in Hkin. by apply elem_of_nil in Hkin.
Qed.

(** Goroutines that carry no vote come and go freely. *)
Lemma inv_novote V w ts1 us ts2 us1 us2 :
  election_inv V w -> threads w = ts1 ++ us ++ ts2 -> keys us1 = [] -> keys us2 = [] ->
  election_inv V (setThreads (ts1 ++ us1 ++ ts2 ++ us2) w).
Proof.
  intros Hinv Hts Hus1 Hus2.
  assert (sublist (keys (ts1 ++ us1 ++ ts2 ++ us2)) (keys (threads w))) as Hsub.
  { rewrite Hts, !omap_app, Hus1, Hus2, app_nil_r. simpl.
    apply sublist_app; [done|]. by apply sublist_inserts_l. }
  assert (forall t, t ∈ ts1 ++ us1 ++ ts2 ++ us2 -> is_Some (voteKey t) -> t ∈ threads w) as Hin.
  { intros t Ht [k Hk]. rewrite Hts. rewrite !elem_of_app in *.
    destruct Ht as [?|[Ht|[?|Ht]]]; auto;
      eapply keys_nil in Ht; try done; congruence. }
  apply inv_setThreads; [done| |done].
  eapply thread_inv_change; [apply Hinv| | |done].
  - intros i inc T s args Ht. apply Hin; [done|]. by eexists.
  - intros i inc T s reply Ht _. left. apply Hin; [done|]. by eexists.
Qed.

(** The case of [ticker] that starts an election: [i] votes for itself, its tally
    is one, and a request goes to every other peer. *)
Lemma inv_election V w i rf' args inc :
  base_inv n w -> election_inv V w -> peer n i -> follows (nodes w i) rf' ->
  currentTerm rf' = currentTerm (nodes w i) + 1 -> votedFor rf' = i -> role rf' = Candidate ->
  rv_Term args = currentTerm rf' -> rv_CandidateId args = i ->
  election_inv (record V i rf')
    (w |> setNode i rf' |> setVotes i (currentTerm rf') 1
       |> setThreads (threads w ++
            ((fun p => TVoteReq i inc (currentTerm rf') p args) <$> otherPeers (nodes w i)))).
Proof.
  intros Hb Hinv Hi Hf ET EV ER Ea Ec.
  assert (i <> -1) as Hne by (unfold peer in Hi; lia).
  pose proof (inv_setNode _ _ _ _ Hinv Hi Hf ltac:(congruence)) as Hinv1.
  set (T := currentTerm rf') in *. set (V1 := record V i rf') in *.
  assert (V1 !! (i, T) = Some i) as Hself.
  { rewrite <- EV at 2. apply record_now. congruence. }
  set (us := (fun p => TVoteReq i inc T p args) <$> otherPeers (nodes w i)).
  assert (keys us = (fun p => (i, T, p)) <$> otherPeers (nodes w i)) as Hkeys.
  { unfold us. generalize (otherPeers (nodes w i)). intros l. induction l; simpl; [done|].
    by f_equal. }
  assert (forall p, p ∈ otherPeers (nodes w i) -> peer n p /\ p <> i) as Hother.
  { intros p Hp. apply (otherPeers_ok n) in Hp; [|by apply bi_npeers].
    by rewrite (bi_me _ _ Hb) in Hp. }
  assert (forall j t s, (j, t, s) ∈ keys (threads w) -> t = T -> j = i -> False) as Hfresh.
  { intros j t s Hin -> ->. apply (ti_key _ _ _ (ei_threads _ _ Hinv)) in Hin. lia. }
  destruct Hinv1 as [Hpast Hnow [Hreq Hkey Hnd Hrep] Hvotes Hlead]. simpl in *.
  split; simpl; [done|done| | |done].
  - split.
    + intros j ic t s a. rewrite elem_of_app. intros [Hin|Hin]; [eauto|].
      apply list_elem_of_fmap in Hin as (p & Hp & _). by simplify_eq.
    + intros j t s. rewrite omap_app, elem_of_app, Hkeys. intros [Hin|Hin]; [auto|].
      apply list_elem_of_fmap in Hin as (p & Hp & Hin). simplify_eq.
      destruct (Hother _ Hin). unfold upd. rewrite decide_True by done. split_and!; [done..|lia].
    + rewrite omap_app, Hkeys. apply NoDup_app. split_and!; [done| |].
      * intros [[j t] s] Hin (p & Hp & _)%list_elem_of_fmap. simplify_eq. eauto.
      * apply NoDup_fmap_2; [intros ???; by simplify_eq|].
        apply NoDup_filter, NoDup_seqZ.
    + intros j ic t s r. rewrite elem_of_app. intros [Hin|Hin]; [eauto|].
      apply list_elem_of_fmap in Hin as (p & Hp & _). by simplify_eq.
  - intros j t Hj. rewrite omap_app, Hkeys.
    destruct (decide ((j, t) = (i, T))) as [E|E].
    + injection E as -> ->. exists [i]. unfold upd. rewrite !decide_True by done. split_and!; [|done|].
      * split; [apply NoDup_singleton|]. intros s ->%list_elem_of_singleton. done.
      * intros s ->%list_elem_of_singleton. rewrite elem_of_app. intros [Hin|Hin]; [eauto|].
        apply list_elem_of_fmap in Hin as (p & Hp & Hin). simplify_eq.
        destruct (Hother _ Hin). done.
    + destruct (Hvotes j t Hj) as (L & HL & Hz & Hno). exists L. split_and!; [done| |].
      * rewrite Hz. unfold upd. repeat case_decide; subst; done.
      * intros s Hs. rewrite elem_of_app. intros [Hin|Hin]; [by eapply Hno|].
        apply list_elem_of_fmap in Hin as (p & Hp & Hin). by simplify_eq.
Qed.

Lemma inv_vote_exec V w ts1 ts2 env i inc T server args rf' reply :
  election_inv V w -> threads w = ts1 ++ TVoteReq i inc T server args :: ts2 ->
  RequestVote env args (nodes w server) = Some (rf', reply) ->
  election_inv (record V server rf')
    (w |> setNode server rf' |> setThreads (ts1 ++ TVoteRep i inc T server reply :: ts2)).
Proof.
  intros Hinv Hts Hs.
  assert ((i, T, server) ∈ keys (threads w)) as Hk.
  { apply list_elem_of_omap. eexists. split; [rewrite Hts; apply elem_of_app; right; left|done]. }
  destruct (ti_key _ _ _ (ei_threads _ _ Hinv) _ _ _ Hk) as (Hi & Hsv & _ & _).
  destruct (ti_req _ _ _ (ei_threads _ _ Hinv) i inc T server args) as [ET EC].
  { rewrite Hts. apply elem_of_app. right. left. }
  pose proof (inv_setNode_quiet _ _ _ _ Hinv Hsv (RequestVote_follows _ _ _ _ _ Hs)
    (RequestVote_quiet _ _ _ _ _ Hs)) as Hinv1.
  assert (keys (ts1 ++ TVoteRep i inc T server reply :: ts2) = keys (threads w)) as Hkeys.
  { rewrite Hts, !omap_app. done. }
  apply inv_setThreads; [done| |simpl; by rewrite Hkeys].
  eapply thread_inv_change; [apply Hinv1| | |simpl; by rewrite Hkeys]; simpl; rewrite Hts.
  - intros j ic t s a. rewrite !elem_of_app, !elem_of_cons.
    intros [?|[?|?]]; [auto|by simplify_eq|auto].
  - intros j ic t s r. rewrite !elem_of_app, !elem_of_cons.
    intros [?|[?|?]] Hg; [auto| |auto]. simplify_eq. right.
    destruct (RequestVote_granted _ _ _ _ _ Hs Hg) as [<- E].
    rewrite <- E. apply record_now. rewrite E. unfold peer in Hi. lia.
Qed.

Lemma inv_setVotes V w i T v :
  election_inv V w ->
  (exists L, voters V i T L /\ zlen L = v /\ forall s, s ∈ L -> (i, T, s) ∉ keys (threads w)) ->
  election_inv V (setVotes i T v w).
Proof.
  intros [Hpast Hnow Hth Hvotes Hlead] HL. split; simpl; auto.
  intros j t Hj. unfold upd. destruct (decide (j = i)) as [->|]; [|auto].
  destruct (decide (t = T)) as [->|]; auto.
Qed.

Lemma spawns_broadcast i w rf : keys (spawns i w (broadcastAppendEntries rf)) = [].
Proof.
  unfold spawns, broadcastAppendEntries. generalize (otherPeers rf). intros l.
  induction l; simpl; done.
Qed.

Lemma inv_vote_reply V w ts1 ts2 i inc T server reply rf' v eff :
  base_inv n w -> election_inv V w -> threads w = ts1 ++ TVoteRep i inc T server reply :: ts2 ->
  requestVote_reply T (votes w i T) reply (nodes w i) = (rf', v, eff) ->
  election_inv (record V i rf')
    (w |> setNode i rf' |> setVotes i T v |> setThreads (ts1 ++ ts2 ++ spawns i w eff)).
Proof.
  intros Hb Hinv Hts Hs.
  change (election_inv (record V i rf')
    (setNode i rf' (setVotes i T v (setThreads (ts1 ++ ts2 ++ spawns i w eff) w)))).
  assert (TVoteRep i inc T server reply ∈ threads w) as Hin.
  { rewrite Hts. apply elem_of_app. right. left. }
  assert ((i, T, server) ∈ keys (threads w)) as Hk by (apply list_elem_of_omap; eauto).
  pose proof (ei_threads _ _ Hinv) as Hti.
  destruct (ti_key _ _ _ Hti _ _ _ Hk) as (Hi & Hsv & _ & _).
  assert (keys (spawns i w eff) = []) as Hsp.
  { destruct (requestVote_reply_cases _ _ _ _ _ _ _ Hs)
      as [(_ & _ & ->)|(_ & _ & _ & _ & [[_ ->]|[_ ->]])]; [done|done|apply spawns_broadcast]. }
  pose proof (inv_novote V w ts1 [TVoteRep i inc T server reply] ts2 [] (spawns i w eff)
    Hinv Hts eq_refl Hsp) as Hinv1. simpl in Hinv1.
  pose proof (requestVote_reply_follows _ _ _ _ _ _ _ Hs) as Hf.
  assert ((i, T, server) ∉ keys (ts1 ++ ts2 ++ spawns i w eff)) as Hgone.
  { pose proof (ti_nodup _ _ _ Hti) as Hnd. rewrite Hts, omap_app in Hnd. simpl in Hnd.
    rewrite !omap_app, Hsp, app_nil_r. apply NoDup_app in Hnd as (_ & Hd & [Hd2 _]%NoDup_cons).
    rewrite elem_of_app. intros [Hx|Hx]; [|done]. apply (Hd _ Hx). left. }
  destruct (ei_votes _ _ Hinv i T Hi) as (L & HL & Hz & Hno).
  assert (forall s, (i, T, s) ∉ keys (threads w) ->
    (i, T, s) ∉ keys (ts1 ++ ts2 ++ spawns i w eff)) as Hmono.
  { intros s Hs1 Hs2. apply Hs1. rewrite Hts, !omap_app, Hsp, app_nil_r in *.
    simpl. rewrite !elem_of_app, !elem_of_cons in *. tauto. }
  destruct (requestVote_reply_cases _ _ _ _ _ _ _ Hs)
    as [(Hq & -> & _)|(Hg & ET & ET' & -> & Hor)].
  - apply (inv_setNode_quiet V (setVotes _ _ _ _)); [|done..].
    apply inv_setVotes; [done|]. exists L. eauto.
  - pose proof (ti_rep _ _ _ Hti _ _ _ _ _ Hin Hg) as HV.
    assert (voters V i T (server :: L)) as HL'.
    { destruct HL as [Hnd HL]. split.
      - apply NoDup_cons. split; [|done]. intros Hx. by apply (Hno server).
      - intros s [->|Hx]%elem_of_cons; auto. }
    assert (election_inv V (setVotes i T (votes w i T + 1)
              (setThreads (ts1 ++ ts2 ++ spawns i w eff) w))) as Hinv2.
    { apply inv_setVotes; [done|]. exists (server :: L). split_and!; [done|rewrite zlen_cons; lia|].
      intros s [->|Hx]%elem_of_cons; auto. }
    apply (inv_setNode V (setVotes _ _ _ _)); [done|done|done|]. intros Hl.
    destruct Hor as [[-> _]|[Hmaj _]].
    + eapply elected_mono; [|by eapply ei_leader]. eapply record_le; [done|done|apply Hf].
    + rewrite ET'. exists (server :: L). split.
      * eapply voters_mono; [|done]. eapply record_le; [done|done|apply Hf].
      * rewrite zlen_cons. rewrite (bi_npeers _ _ Hb) in Hmaj by done. lia.
Qed.

Lemma spawns_keys_broadcast i w rf eff :
  eff = [] \/ eff = broadcastAppendEntries rf -> keys (spawns i w eff) = [].
Proof. intros [->| ->]; [done|apply spawns_broadcast]. Qed.

(** A peer steps quietly while goroutines that carry no vote come and go. *)
Lemma inv_node_novote V w s rf' ts1 us ts2 us1 us2 :
  election_inv V w -> peer n s -> follows (nodes w s) rf' -> quiet (nodes w s) rf' ->
  threads w = ts1 ++ us ++ ts2 -> keys us1 = [] -> keys us2 = [] ->
  election_inv (record V s rf')
    (setThreads (ts1 ++ us1 ++ ts2 ++ us2) (setNode s rf' w)).
Proof. intros. eapply inv_novote; [by apply inv_setNode_quiet|done..]. Qed.

(** [V'] adds to [V] votes that peers hold in [w]. *)
Definition recorded V V' w : Prop :=
  V ⊆ V' /\ forall s T c, V' !! (s, T) = Some c ->
    V !! (s, T) = Some c \/ (T = currentTerm (nodes w s) /\ c = votedFor (nodes w s)).

Lemma recorded_refl V w : recorded V V w.
Proof. split; [done|by left]. Qed.

Lemma recorded_record V w w' s rf' :
  election_inv V w -> peer n s -> follows (nodes w s) rf' -> nodes w' s = rf' ->
  recorded V (record V s rf') w'.
Proof.
  intros Hinv Hs Hf <-. split; [eapply record_le; [done..|apply Hf]|].
  intros s' T c [?|(-> & -> & -> & _)]%record_inv; auto.
Qed.

Context `{!StateCodecOk Cmd}.

Ltac rec_tac Hle := apply Hle; [done|done|simpl; repeat case_match; apply upd_eq].

Lemma election_inv_step V w w' :
  base_inv n w -> election_inv V w -> cstep n w w' ->
  exists V', recorded V V' w' /\ election_inv V' w'.
Proof.
  intros Hb Hinv Hs.
  assert (forall s rf', peer n s -> follows (nodes w s) rf' -> nodes w' s = rf' ->
    recorded V (record V s rf') w') as Hle by (intros; by eapply recorded_record).
  assert (forall ts1 t ts2, threads w = ts1 ++ t :: ts2 -> peer n (owner t) /\ peer n (target t)) as Hok.
  { intros ts1 t ts2 E. pose proof (bi_threads _ _ Hb) as Hts. rewrite E in Hts.
    by apply Forall_app in Hts as [_ [? _]%Forall_cons]. }
  assert (threads w = threads w ++ [] ++ []) as Eself by (by rewrite !app_nil_r).
  destruct Hs as [lb Hs]. destruct Hs as [env i rf' eff Hi Hs|i Hi|i cmd rf' r eff Hi Hs|i index snap rf' Hi Hx Hs
    |i rf' Hi Hd Hs|i rf' msg Hi Hd Hs|i msg Hi Hd
    |ts1 ts2 i inc server term m E Hinc Hs|ts1 ts2 env i inc term server args rf' reply E Hs
    |ts1 ts2 i inc term server reply rf' v eff E Hinc Hs
    |ts1 ts2 env i inc term server args rf' reply E Hs
    |ts1 ts2 i inc term server args reply rf' E Hinc Hs
    |ts1 ts2 env i inc term server args rf' reply E Hs
    |ts1 ts2 env i inc term server args rf' reply msg E Hs|ts1 ts2 i inc term server args msg reply E
    |ts1 ts2 i inc term server args reply rf' E Hinc Hs|ts1 ts2 t E Hrpc|env i Hi];
    try (destruct (Hok _ _ _ E) as [Ho Ht]; simpl in Ho, Ht).
  - (* ticker *)
    pose proof (ticker_follows _ _ _ _ Hs) as Hf. exists (record V i rf'). split; [rec_tac Hle|].
    destruct (ticker_cases _ _ _ _ Hs) as [[-> ->]|(ET & EV & ER & args & Ea & Ec & ->)].
    + rewrite Z.eqb_refl. simpl. rewrite app_nil_r.
      change (election_inv (record V i (nodes w i)) (setThreads (threads w) (setNode i (nodes w i) w))).
      rewrite Eself. eapply (inv_node_novote V w i _ (threads w) [] [] [] []); try done.
    + rewrite (bi_me _ _ Hb) in * by done.
      destruct (Z.eqb_spec (currentTerm rf') (currentTerm (nodes w i))); [lia|].
      assert (spawns i w ((fun peer => GoRequestVote peer args) <$> otherPeers (nodes w i)) =
        (fun p => TVoteReq i (incs w i) (currentTerm rf') p args) <$> otherPeers (nodes w i)) as ->.
      { unfold spawns. rewrite <- Ea. generalize (otherPeers (nodes w i)).
        intros l. induction l; simpl; [done|]. by f_equal. }
      by apply inv_election.
  - (* heartbeat *)
    exists V. split; [apply recorded_refl|].
    eapply (inv_novote V w (threads w) [] [] []); [done|done|done|].
    eapply spawns_keys_broadcast. unfold heartbeatLoop. case_match; auto.
  - (* Start *)
    pose proof (Start_follows _ _ _ _ _ Hs) as Hf. exists (record V i rf'). split; [rec_tac Hle|].
    eapply (inv_node_novote V w i _ (threads w) [] [] []); try done; [by eapply Start_quiet|].
    eapply (spawns_keys_broadcast _ _ rf'). unfold Start in Hs. case_match; simplify_eq; auto.
  - (* Snapshot *)
    pose proof (Snapshot_follows _ _ _ _ Hs) as Hf. exists (record V i rf'). split; [rec_tac Hle|].
    apply inv_setNode_quiet; try done. by eapply Snapshot_quiet.
  - pose proof (applier_follows _ _ _ Hs) as Hf. exists (record V i rf'). split; [rec_tac Hle|].
    apply inv_setNode_quiet; try done. by eapply applier_quiet.
  - pose proof (applier_follows _ _ _ Hs) as Hf. exists (record V i rf'). split; [rec_tac Hle|].
    pose proof (inv_setNode_quiet V w i rf' Hinv Hi Hf (applier_quiet _ _ _ Hs)) as [].
    by split.
  - exists V. split; [apply recorded_refl|]. destruct Hinv. by split.
  - (* replicate *)
    exists V. split; [apply recorded_refl|].
    rewrite <- (app_nil_r ts2).
    eapply (inv_novote V w ts1 [_] ts2); [done|done|by destruct m|done].
  - (* vote_exec *)
    pose proof (RequestVote_follows _ _ _ _ _ Hs) as Hf. exists (record V server rf').
    split; [rec_tac Hle|]. by eapply inv_vote_exec.
  - (* vote_reply *)
    pose proof (requestVote_reply_follows _ _ _ _ _ _ _ Hs) as Hf. exists (record V i rf').
    split; [rec_tac Hle|]. by eapply inv_vote_reply.
  - pose proof (AppendEntries_follows _ _ _ _ _ Hs) as Hf. exists (record V server rf').
    split; [rec_tac Hle|]. rewrite <- (app_nil_r ts2).
    eapply (inv_node_novote V w _ _ ts1 [_] ts2 [_] []); try done. by eapply AppendEntries_quiet.
  - pose proof (replicateTo_append_reply_follows _ _ _ _ _ _ Hs) as Hf. exists (record V i rf').
    split; [rec_tac Hle|]. rewrite <- (app_nil_r ts2).
    eapply (inv_node_novote V w _ _ ts1 [_] ts2 [] []); try done. by eapply append_reply_quiet.
  - pose proof (InstallSnapshot_follows _ _ _ _ _ _ Hs) as Hf. exists (record V server rf').
    split; [rec_tac Hle|]. rewrite <- (app_nil_r ts2).
    eapply (inv_node_novote V w _ _ ts1 [_] ts2 [_] []); try done. by eapply InstallSnapshot_quiet.
  - pose proof (InstallSnapshot_follows _ _ _ _ _ _ Hs) as Hf. exists (record V server rf').
    split; [rec_tac Hle|]. rewrite <- (app_nil_r ts2).
    eapply (inv_node_novote V w _ _ ts1 [_] ts2 [_] []); try done. by eapply InstallSnapshot_quiet.
  - exists V. split; [apply recorded_refl|].
    assert (election_inv V (setThreads (ts1 ++ TSnapRep i inc term server args reply :: ts2) w)) as [].
    { rewrite <- (app_nil_r ts2). by eapply (inv_novote V w ts1 [_] ts2 [_] []). }
    by split.
  - pose proof (replicateTo_snapshot_reply_follows _ _ _ _ _ _ Hs) as Hf. exists (record V i rf').
    split; [rec_tac Hle|]. rewrite <- (app_nil_r ts2).
    eapply (inv_node_novote V w _ _ ts1 [_] ts2 [] []); try done. by eapply snapshot_reply_quiet.
  - exists V. split; [apply recorded_refl|]. rewrite <- (app_nil_r ts2).
    by eapply (inv_novote V w ts1 [_] ts2 [] []).
  - pose proof (restart_follows env _ (bi_durable _ _ Hb i Hi)) as Hf.
    eexists. split; [by apply (Hle i); [..|apply upd_eq]|].
    pose proof (inv_setNode_quiet V w i _ Hinv Hi Hf (Make_quiet _ _ _ _ _)) as []. by split.
Qed.

Lemma election_inv_init envs : election_inv ∅ (cinit n envs).
Proof.
  split; simpl; try done.
  - split; [by intros ????? Hx%elem_of_nil|by intros ??? Hx%elem_of_nil|by constructor|].
    by intros ????? Hx%elem_of_nil.
  - intros i T Hi. exists []. split_and!; [split; [constructor|]|done|];
      by intros s Hs%elem_of_nil.
Qed.

Lemma election_inv_steps V w w' :
  base_inv n w -> election_inv V w -> rtc (cstep n) w w' ->
  exists V', V ⊆ V' /\ election_inv V' w'.
Proof.
  intros Hb Hinv Hs. revert V Hb Hinv. induction Hs as [|w1 w2 w3 H12 H23 IH]; intros V Hb Hinv; [eauto|].
  destruct (election_inv_step V _ _ Hb Hinv H12) as (V1 & [HV1 _] & Hinv1).
  destruct (IH V1) as (V2 & HV2 & Hinv2); [by eapply base_inv_step|done|].
  exists V2. split; [by etrans|done].
Qed.

(** ** Theorem *)

(** C2. Election safety: in every run of the cluster there is at most one leader per
    term.  If peer [i] is leader of term [T] at some moment and peer [j] is leader of
    [T] at that moment or later, through any losses, delays, crashes and restarts,
    then [i = j]. *)
Theorem election_safety w1 w2 i j :
  creachable n w1 -> rtc (cstep n) w1 w2 -> peer n i -> peer n j ->
  role (nodes w1 i) = Leader -> role (nodes w2 j) = Leader ->
  currentTerm (nodes w1 i) = currentTerm (nodes w2 j) -> i = j.
Proof.
  intros Hr Hs Hi Hj Hli Hlj ET. pose proof (creachable_base n w1 Hr) as Hb.
  destruct Hr as [envs Hr].
  destruct (election_inv_steps ∅ _ _ (base_inv_init n envs) (election_inv_init envs) Hr)
    as (V1 & _ & Hinv1).
  destruct (election_inv_steps V1 _ _ Hb Hinv1 Hs) as (V2 & HV & Hinv2).
  eapply elected_unique.
  - eapply elected_mono; [done|]. by apply (ei_leader _ _ Hinv1).
  - rewrite ET. by apply (ei_leader _ _ Hinv2).
Qed.

End election.

(** ** Example *)

(** Three peers; peer 0 is elected in term 1 by the vote of peer 1, then commits
    and applies one command. *)
Definition demoCluster : Cluster (Cmd := Z) := cinit 3 (fun _ => demoEnv).
Definition demoElection : list (Event (Cmd := Z)) :=
  [EvTick lateEnv 0; EvThread lateEnv 0; EvThread lateEnv 0].
Definition demoCommit : list (Event (Cmd := Z)) :=
  [EvStart 0 (Some 42); EvThread lateEnv 1; EvThread lateEnv 1; EvThread lateEnv 1;
   EvApplier 0; EvDeliver 0].

Definition demoElected : Cluster (Cmd := Z) := default demoCluster (run 3 demoElection demoCluster).
Definition demoCommitted : Cluster (Cmd := Z) := default demoElected (run 3 demoCommit demoElected).

Lemma election_safety_witness :
  run 3 demoElection demoCluster = Some demoElected /\
  run 3 demoCommit demoElected = Some demoCommitted /\
  role (nodes demoElected 0) = Leader /\ role (nodes demoCommitted 0) = Leader /\
  applied demoCommitted 0 = [CommandMsg (Some 42) 1] /\
  forall j, peer 3 j -> role (nodes demoCommitted j) = Leader ->
    currentTerm (nodes demoCommitted j) = 1 -> 0 = j.
Proof.
  split; [vm_compute; reflexivity|]. split; [vm_compute; reflexivity|].
  split; [reflexivity|]. split; [reflexivity|]. split; [reflexivity|].
  intros j Hj Hl ET.
  apply (election_safety 3 demoElected demoCommitted 0 j); [| |split; lia|exact Hj|reflexivity|exact Hl|].
  - exists (fun _ => demoEnv). apply (run_sound 3 demoElection). vm_compute. reflexivity.
  - apply (run_sound 3 demoCommit). vm_compute. reflexivity.
  - rewrite ET. reflexivity.
Defined.
