(* ===== verification/RaftAbstract.v ===== *)
(** * Raft on whole logs: the abstract protocol

    The protocol [raft.go] implements, without snapshots, messages and crashes: every
    peer has its whole log from index 0 on, with the dummy entry of term 0 in front,
    and each step is one decision.  The state also remembers what has happened: the
    votes, the log a candidate stood with, the log of the leader of each term, and how
    much of it each peer has acknowledged.  The theorems are the safety argument of
    Raft: a leader's log contains everything chosen in earlier terms, so chosen
    prefixes never diverge.  [RaftRefinement] shows that the peers of [Raft] follow
    this protocol. *)

From S2P Require Import Prelude Raft RaftCluster RaftElection.

Section abstract.
Context {Cmd : Type} (n : nat).
Abbreviation Log := (list (LogEntry Cmd)).
Implicit Types (l : Log).

(** The leader of a term, the log it was elected with, and its log since. *)
Record Leadership := mkLead { ld_owner : Z; ld_base : Log; ld_log : Log }.

Record Spec := mkSpec {
  cur : Z -> Z;                     (* the term of each peer *)
  full : Z -> Log;                  (* its log *)
  voted : gmap (Z * Z) Z;           (* voter and term to candidate *)
  stood : gmap (Z * Z) Log;         (* candidate and term to its log *)
  lead : gmap Z Leadership;
  acks : Z -> Z -> nat;             (* peer, term: length of the leader's log it holds *)
}.
Implicit Types (A : Spec).

Definition set_cur i T A : Spec :=
  mkSpec (upd (cur A) i T) (full A) (voted A) (stood A) (lead A) (acks A).
Definition set_full i l A : Spec :=
  mkSpec (cur A) (upd (full A) i l) (voted A) (stood A) (lead A) (acks A).
Definition set_voted s T c A : Spec :=
  mkSpec (cur A) (full A) (<[(s, T) := c]> (voted A)) (stood A) (lead A) (acks A).
Definition set_stood c T l A : Spec :=
  mkSpec (cur A) (full A) (voted A) (<[(c, T) := l]> (stood A)) (lead A) (acks A).
Definition set_lead T ld A : Spec :=
  mkSpec (cur A) (full A) (voted A) (stood A) (<[T := ld]> (lead A)) (acks A).
Definition set_acks s T (k : nat) A : Spec :=
  mkSpec (cur A) (full A) (voted A) (stood A) (lead A) (upd (acks A) s (upd (acks A s) T k)).

(** ** Logs *)

Definition lterm l (k : nat) : option Z := Term <$> l !! k.

(** A log is up to date for a voter: its last term is larger, or the same and it is
    not shorter. *)
Definition upToDate l l' : Prop :=
  exists k k' t t', length l = S k /\ length l' = S k' /\ lterm l k = Some t /\ lterm l' k' = Some t' /\
    (t' < t \/ t = t' /\ (k' <= k)%nat).

Definition conflict l l' : Prop :=
  exists k t t', lterm l k = Some t /\ lterm l' k = Some t' /\ t <> t'.

(** A log [l] after it took over the prefix [p] of the leader's log. *)
Definition absorbs l p l' : Prop :=
  (p `prefix_of` l /\ l' = l) \/ ((l `prefix_of` p \/ conflict l p) /\ l' = p).

Definition quorum (L : list Z) : Prop :=
  NoDup L /\ (forall s, s ∈ L -> peer n s) /\ Z.of_nat n / 2 < zlen L.

(** ** Steps *)

(** A step of peer [i]. *)
Inductive astep (i : Z) A : Spec -> Prop :=
| as_term T :
    cur A i <= T -> astep i A (set_cur i T A)
| as_stand T :
    cur A i < T ->
    astep i A (A |> set_cur i T |> set_voted i T i |> set_stood i T (full A i))
| as_vote c T l :
    cur A i = T -> voted A !! (i, T) = None -> stood A !! (c, T) = Some l ->
    upToDate l (full A i) ->
    astep i A (set_voted i T c A)
| as_elect T L :
    cur A i = T -> stood A !! (i, T) = Some (full A i) -> lead A !! T = None -> quorum L ->
    (forall s, s ∈ L -> voted A !! (s, T) = Some i) ->
    astep i A (A |> set_lead T (mkLead i (full A i) (full A i)) |> set_acks i T (length (full A i)))
| as_append T ld e :
    cur A i = T -> lead A !! T = Some ld -> ld_owner ld = i -> full A i = ld_log ld -> Term e = T ->
    astep i A (A |> set_full i (ld_log ld ++ [e])
                 |> set_lead T (mkLead i (ld_base ld) (ld_log ld ++ [e]))
                 |> set_acks i T (S (length (ld_log ld))))
| as_absorb T ld k l' :
    cur A i <= T -> lead A !! T = Some ld -> (k <= length (ld_log ld))%nat ->
    absorbs (full A i) (take k (ld_log ld)) l' ->
    astep i A (A |> set_cur i T |> set_full i l' |> set_acks i T (Nat.max k (acks A i T))).

(** Term 0 has no leader; its log is the dummy entry, which every peer holds. *)
Definition ainit : Spec :=
  mkSpec (fun _ => 0) (fun _ => dummyLog Cmd) ∅ ∅ {[0 := mkLead (-1) [] (dummyLog Cmd)]}
    (fun _ T => if decide (T = 0) then 1%nat else 0%nat).

(** ** What is chosen *)

(** Position [m] of the log of leader [T] is of term [T] and on a majority. *)
Definition chosen A T (m : nat) : Prop :=
  exists ld L, lead A !! T = Some ld /\ lterm (ld_log ld) m = Some T /\ quorum L /\
    forall s, s ∈ L -> (m < acks A s T)%nat.

(** [l] is a prefix of what a leader of a term up to [t] chose. *)
Definition committed A (t : Z) l : Prop :=
  exists T m ld, T <= t /\ chosen A T m /\ lead A !! T = Some ld /\ l `prefix_of` take (S m) (ld_log ld).

(** ** The invariant *)

(** Every prefix that ends with an entry of term [t] is the leader's of [t]. *)
Definition prov A l : Prop :=
  forall k t, lterm l k = Some t ->
  exists ld, lead A !! t = Some ld /\ take (S k) l `prefix_of` ld_log ld.

(** Terms do not decrease and stay below [b]. *)
Definition wfLog (b : Z) l : Prop :=
  (forall j k t u, (j <= k)%nat -> lterm l j = Some t -> lterm l k = Some u -> t <= u) /\
  (forall k t, lterm l k = Some t -> t <= b).

(** What peer [s] acknowledged in terms below [b] is in [l], or missing in the log
    some leader of a later term below [hi] was elected with. *)
Definition covered A s l (b hi : Z) : Prop :=
  forall T m ld, T < b -> lead A !! T = Some ld -> (m < acks A s T)%nat ->
  lterm (ld_log ld) m = Some T ->
  lterm l m = Some T \/
  exists T' ld', T < T' < hi /\ lead A !! T' = Some ld' /\ lterm (ld_base ld') m <> Some T.

Record lead_ok A T ld : Prop := {
  lo_nonneg : 0 <= T;
  lo_prov : prov A (ld_log ld);
  lo_wf : wfLog T (ld_log ld);
  lo_base_wf : wfLog (T - 1) (ld_base ld);
  lo_suffix : exists suf, ld_log ld = ld_base ld ++ suf /\ Forall (fun e => Term e = T) suf;
  lo_elected : T = 0 \/ exists L, quorum L /\
    forall s, s ∈ L -> T <= cur A s /\ voted A !! (s, T) = Some (ld_owner ld) /\
      covered A s (ld_base ld) T T;
}.

Record ainv A : Prop := {
  ai_cur : forall i, 0 <= cur A i;
  ai_full : forall i, prov A (full A i) /\ wfLog (cur A i) (full A i);
  ai_stood : forall c T l, stood A !! (c, T) = Some l ->
    prov A l /\ wfLog (T - 1) l /\ T <= cur A c;
  ai_lead : forall T ld, lead A !! T = Some ld -> lead_ok A T ld;
  ai_acks : forall s T, (0 < acks A s T)%nat -> exists ld, lead A !! T = Some ld /\
    (acks A s T <= length (ld_log ld))%nat /\ T <= cur A s;
  ai_held : forall s, covered A s (full A s) (cur A s + 1) (cur A s + 1);
  ai_voted : forall s T c, voted A !! (s, T) = Some c -> T <= cur A s /\
    exists l, stood A !! (c, T) = Some l /\ covered A s l T (T + 1);
}.

(** ** Logs, again *)

Lemma lterm_take l (j k : nat) : (j < k)%nat -> lterm (take k l) j = lterm l j.
Proof. intros. unfold lterm. by rewrite lookup_take_lt. Qed.

Lemma lterm_lt l k t : lterm l k = Some t -> (k < length l)%nat.
Proof. unfold lterm. intros (e & He & _)%fmap_Some. by eapply lookup_lt_Some. Qed.

Lemma lterm_is_Some l k : (k < length l)%nat -> exists t, lterm l k = Some t.
Proof. intros [e He]%lookup_lt_is_Some. exists (Term e). unfold lterm. by rewrite He. Qed.

Lemma lterm_prefix l l' k t : l `prefix_of` l' -> lterm l k = Some t -> lterm l' k = Some t.
Proof.
  unfold lterm. intros Hp (e & He & ->)%fmap_Some. by rewrite (prefix_lookup_Some _ _ _ _ He Hp).
Qed.

Lemma lterm_prefix_lt l l' k : l `prefix_of` l' -> (k < length l)%nat -> lterm l k = lterm l' k.
Proof.
  intros Hp Hk. destruct (lterm_is_Some l k Hk) as [t Ht]. rewrite Ht. symmetry.
  by eapply lterm_prefix.
Qed.

Lemma take_prefix_le l (j k : nat) : (j <= k)%nat -> take j l `prefix_of` take k l.
Proof.
  intros. replace (take j l) with (take j (take k l)) by (rewrite take_take; f_equal; lia).
  apply prefix_take.
Qed.

Lemma take_prefix_mono l l' (k : nat) : l `prefix_of` l' -> take k l `prefix_of` take k l'.
Proof. intros [x ->]. rewrite take_app. by apply prefix_app_r. Qed.

(** Prefixes of one list that are as long are equal. *)
Lemma prefix_same_length {X} (p q r : list X) :
  p `prefix_of` r -> q `prefix_of` r -> length p = length q -> p = q.
Proof.
  intros Hp Hq E. destruct (prefix_weak_total _ _ _ Hp Hq) as [H|H].
  - apply (prefix_length_eq _ _ H). lia.
  - symmetry. apply (prefix_length_eq _ _ H). lia.
Qed.

Lemma take_of_prefix {X} (l l' : list X) (k : nat) :
  take k l `prefix_of` l' -> (k <= length l)%nat -> take k l = take k l'.
Proof.
  intros Hp Hk. apply (prefix_same_length _ _ l'); [done|apply prefix_take|].
  apply prefix_length in Hp. rewrite !length_take in *. lia.
Qed.

Lemma wfLog_prefix b l l' : l `prefix_of` l' -> wfLog b l' -> wfLog b l.
Proof. intros Hp [Hs Hb]. split; eauto using lterm_prefix. Qed.

Lemma wfLog_mono b b' l : b <= b' -> wfLog b l -> wfLog b' l.
Proof. intros Hb [Hs Hl]. split; [done|]. intros k t Ht. specialize (Hl k t Ht). lia. Qed.

Lemma lterm_snoc l e k t :
  lterm (l ++ [e]) k = Some t -> lterm l k = Some t \/ (k = length l /\ t = Term e).
Proof.
  unfold lterm. intros (x & Hx & ->)%fmap_Some. apply lookup_app_Some in Hx as [Hx|[Hle Hx]].
  - left. by rewrite Hx.
  - apply list_lookup_singleton_Some in Hx as [Hk ->]. right. split; [lia|done].
Qed.

Lemma wfLog_snoc l e : wfLog (Term e) l -> wfLog (Term e) (l ++ [e]).
Proof.
  intros [Hs Hb]. split.
  - intros j k t u Hjk [Hj|[-> ->]]%lterm_snoc [Hk|[-> ->]]%lterm_snoc; [eauto|eauto| |lia].
    apply lterm_lt in Hk. lia.
  - intros k t [Hk|[-> ->]]%lterm_snoc; [eauto|lia].
Qed.

(** ** Provenance *)

Definition lead_le A A' : Prop :=
  forall T ld, lead A !! T = Some ld -> exists ld', lead A' !! T = Some ld' /\
    ld_owner ld' = ld_owner ld /\ ld_base ld' = ld_base ld /\ ld_log ld `prefix_of` ld_log ld'.

Lemma lead_le_refl A A' : lead A' = lead A -> lead_le A A'.
Proof. intros E T ld Hl. rewrite E. eauto. Qed.

Lemma lead_le_trans A1 A2 A3 : lead_le A1 A2 -> lead_le A2 A3 -> lead_le A1 A3.
Proof.
  intros H12 H23 T ld Hl. destruct (H12 T ld Hl) as (ld2 & Hl2 & Eo & Eb & Ep).
  destruct (H23 T ld2 Hl2) as (ld3 & Hl3 & Eo' & Eb' & Ep'). exists ld3.
  split_and!; [done|congruence|congruence|by etrans].
Qed.

Lemma prov_mono A A' l : lead_le A A' -> prov A l -> prov A' l.
Proof.
  intros Hle Hp k t Ht. destruct (Hp k t Ht) as (ld & Hl & Hk).
  destruct (Hle t ld Hl) as (ld' & Hl' & _ & _ & Hpre). exists ld'. split; [done|by etrans].
Qed.

Lemma prov_prefix A l l' : l `prefix_of` l' -> prov A l' -> prov A l.
Proof.
  intros Hl Hp k t Ht. destruct (Hp k t (lterm_prefix _ _ _ _ Hl Ht)) as (ld & Hld & Hk).
  exists ld. split; [done|]. etrans; [|done]. by apply take_prefix_mono.
Qed.

(** Log matching: logs with the same term at a position are the same up to it. *)
Lemma prov_agree A l l' k t :
  prov A l -> prov A l' -> lterm l k = Some t -> lterm l' k = Some t ->
  take (S k) l = take (S k) l'.
Proof.
  intros Hp Hp' Ht Ht'. destruct (Hp k t Ht) as (ld & Hl & H1).
  destruct (Hp' k t Ht') as (ld' & Hl' & H2). simplify_eq.
  apply (prefix_same_length _ _ (ld_log ld)); [done..|].
  apply lterm_lt in Ht, Ht'. rewrite !length_take. lia.
Qed.

Lemma prov_lead A l k t ld :
  prov A l -> lterm l k = Some t -> lead A !! t = Some ld -> take (S k) l = take (S k) (ld_log ld).
Proof.
  intros Hp Ht Hl. destruct (Hp k t Ht) as (ld' & Hl' & H1). simplify_eq.
  apply take_of_prefix; [done|]. apply lterm_lt in Ht. lia.
Qed.

Lemma prov_snoc A l e ld :
  prov A l -> lead A !! Term e = Some ld -> l ++ [e] `prefix_of` ld_log ld -> prov A (l ++ [e]).
Proof.
  intros Hp Hl Hpre k t [Hk|[-> ->]]%lterm_snoc.
  - destruct (Hp k t Hk) as (ld' & Hl' & H1). exists ld'. split; [done|].
    rewrite take_app_le; [done|]. apply lterm_lt in Hk. lia.
  - exists ld. split; [done|]. rewrite take_ge; [done|]. rewrite length_app. simpl. lia.
Qed.

(** ** Taking over a prefix *)

Lemma absorbs_prefix l p l' : absorbs l p l' -> p `prefix_of` l'.
Proof. by intros [[? ->]|[_ ->]]. Qed.

(** What a log and the leader's have in common survives. *)
Lemma absorbs_keeps l r (k j : nat) l' :
  absorbs l (take k r) l' -> take (S j) l = take (S j) r -> (j < length l)%nat ->
  take (S j) l' = take (S j) l.
Proof.
  intros Ha E Hj. destruct Ha as [[_ ->]|[[Hp|(i & t & t' & Ht & Ht' & Hne)] ->]]; [done| |].
  - destruct Hp as [x Ex]. rewrite Ex, take_app_le by lia. done.
  - rewrite E, take_take. f_equal. apply Nat.min_l. pose proof (lterm_lt _ _ _ Ht') as Hi.
    rewrite length_take in Hi. destruct (decide (i <= j)%nat); [|lia]. exfalso. apply Hne.
    rewrite lterm_take in Ht' by lia.
    rewrite <- (lterm_take l i (S j)), E, (lterm_take r i (S j)) in Ht by lia. congruence.
Qed.

(** ** Votes *)

Lemma covered_mono A A' s l b hi :
  ainv A -> lead_le A A' -> (forall T, T < b -> acks A' s T = acks A s T) ->
  covered A s l b hi -> covered A' s l b hi.
Proof.
  intros Hi Hle Ha Hc T m ld' HT Hl' Hm Ht. rewrite Ha in Hm by done.
  destruct (ai_acks _ Hi s T) as (ld & Hl & Hlen & _); [lia|].
  destruct (Hle T ld Hl) as (ld2 & Hl2 & _ & _ & Hp). simplify_eq.
  rewrite <- (lterm_prefix_lt _ _ _ Hp) in Ht by lia.
  destruct (Hc T m ld HT Hl Hm Ht) as [?|(T' & ld2 & HT' & Hld2 & Hne)]; [by left|right].
  destruct (Hle T' ld2 Hld2) as (ld3 & Hl3 & _ & Eb & _). exists T', ld3.
  split_and!; [lia|lia|done|by rewrite Eb].
Qed.

(** Nothing is acknowledged in terms a peer has not reached. *)
Lemma covered_raise A s l b hi hi' :
  ainv A -> hi <= hi' -> covered A s l (cur A s + 1) hi -> covered A s l b hi'.
Proof.
  intros Hi Hhi Hc T m ld HT Hl Hm Ht.
  destruct (ai_acks _ Hi s T) as (_ & _ & _ & Hcur); [lia|].
  destruct (Hc T m ld ltac:(lia) Hl Hm Ht) as [?|(T' & ld' & HT' & ?)]; [by left|right].
  exists T', ld'. split; [lia|done].
Qed.

Lemma covered_lower A s l b b' hi : b' <= b -> covered A s l b hi -> covered A s l b' hi.
Proof. intros Hb Hc T m ld HT. apply Hc. lia. Qed.

(** A log that is up to date for a voter covers what the voter acknowledged. *)
Lemma upToDate_covered A s c T l :
  ainv A -> stood A !! (c, T) = Some l -> upToDate l (full A s) ->
  covered A s (full A s) (T + 1) (T + 1) -> covered A s l T (T + 1).
Proof.
  intros Hi Hst (k & k' & t & t' & El & El' & Ht & Ht' & Hup) Hc T0 m ld HT0 Hl Hm Hterm.
  destruct (ai_full _ Hi s) as [Hpf [Hsf _]].
  destruct (ai_stood _ Hi _ _ _ Hst) as (Hpl & [_ Hbl] & _).
  destruct (Hc T0 m ld ltac:(lia) Hl Hm Hterm) as [Hin|Hbad]; [|by right].
  assert (m <= k')%nat as Hmk by (apply lterm_lt in Hin; lia).
  pose proof (Hsf m k' _ _ Hmk Hin Ht') as HT0t'.
  destruct Hup as [Hlt|[-> Hle]].
  - destruct (Hpl k t Ht) as (ldt & Hlt' & Hpre). rewrite take_ge in Hpre by lia.
    destruct (ai_lead _ Hi _ _ Hlt') as [_ _ _ Hbw (suf & Esuf & _) _].
    destruct (decide (lterm (ld_base ldt) m = Some T0)) as [Hb|Hb]; [left|right].
    + (* the base of leader [t] is part of [l] *)
      assert (length (ld_base ldt) <= k)%nat as Hk.
      { destruct (decide (k < length (ld_base ldt))%nat) as [Hk|]; [|lia]. exfalso.
        destruct (lterm_is_Some _ _ Hk) as [u Hu]. pose proof (proj2 Hbw _ _ Hu).
        pose proof (lterm_prefix _ _ _ _ Hpre Ht).
        assert (lterm (ld_log ldt) k = Some u); [|simplify_eq; lia].
        eapply lterm_prefix; [|done]. rewrite Esuf. by apply prefix_app_r. }
      pose proof (lterm_lt _ _ _ Hb). rewrite (lterm_prefix_lt _ _ _ Hpre) by lia.
      eapply lterm_prefix; [|done]. rewrite Esuf. by apply prefix_app_r.
    + exists t, ldt. split_and!; [lia| |done|done]. specialize (Hbl k t Ht). lia.
  - left. rewrite <- (lterm_take l m (S k')) by lia. rewrite <- (lterm_take (full A s) m (S k')) in Hin by lia.
    destruct (Hpl k t' Ht) as (ldt & Hlt' & Hpre).
    pose proof (prov_lead _ _ _ _ _ Hpf Ht' Hlt') as E. rewrite E in Hin.
    pose proof (prov_lead _ _ _ _ _ Hpl Ht Hlt') as E2.
    assert (take (S k') l = take (S k') (ld_log ldt)) as ->; [|done].
    rewrite <- (Nat.min_l (S k') (S k)) by lia. by rewrite <- !take_take, E2.
Qed.

(** ** Preservation *)

Lemma aelected_mono A A' T ld :
  ainv A -> lead_le A A' -> (forall i, cur A i <= cur A' i) -> voted A ⊆ voted A' ->
  (forall s T, acks A' s T = acks A s T \/ T = cur A' s) ->
  lead A !! T = Some ld ->
  T = 0 \/ exists L, quorum L /\
    forall s, s ∈ L -> T <= cur A' s /\ voted A' !! (s, T) = Some (ld_owner ld) /\
      covered A' s (ld_base ld) T T.
Proof.
  intros Hi Hle Hcur Hv Ha Hl.
  destruct (lo_elected _ _ _ (ai_lead _ Hi _ _ Hl)) as [?|(L & HL & Hs)]; [by left|right].
  exists L. split; [done|]. intros s Hin. destruct (Hs s Hin) as (Hc & Hvs & Hcov).
  pose proof (Hcur s). split_and!; [lia|by eapply lookup_weaken|].
  eapply covered_mono; [done..| |done]. intros T' HT'. destruct (Ha s T') as [?| ->]; [done|lia].
Qed.

(** The parts of the state a step leaves alone keep what holds of them. *)
Lemma ainv_frame A A' :
  ainv A -> lead_le A A' -> (forall i, cur A i <= cur A' i) ->
  voted A ⊆ voted A' -> stood A ⊆ stood A' ->
  (forall s T, acks A' s T = acks A s T \/ T = cur A' s) ->
  (forall i, full A' i = full A i \/ prov A' (full A' i) /\ wfLog (cur A' i) (full A' i)) ->
  (forall c T l, stood A' !! (c, T) = Some l -> stood A !! (c, T) = Some l \/
     prov A' l /\ wfLog (T - 1) l /\ T <= cur A' c) ->
  (forall T ld, lead A' !! T = Some ld -> lead A !! T = Some ld \/ lead_ok A' T ld) ->
  (forall s T, acks A' s T = acks A s T \/ exists ld, lead A' !! T = Some ld /\
     (acks A' s T <= length (ld_log ld))%nat /\ T <= cur A' s) ->
  (forall s, full A' s = full A s /\ acks A' s = acks A s \/
     covered A' s (full A' s) (cur A' s + 1) (cur A' s + 1)) ->
  (forall s T c, voted A' !! (s, T) = Some c -> voted A !! (s, T) = Some c \/
     T <= cur A' s /\ exists l, stood A' !! (c, T) = Some l /\ covered A' s l T (T + 1)) ->
  ainv A'.
Proof.
  intros Hi Hle Hcur Hv Hst Hfr Hfull Hstood Hlead Hacks Hheld Hvoted. split.
  - intros i. pose proof (Hcur i). pose proof (ai_cur _ Hi i). lia.
  - intros i. destruct (Hfull i) as [->|?]; [|done]. destruct (ai_full _ Hi i) as [Hp Hw].
    split; [by eapply prov_mono|eapply wfLog_mono; [|done]; (apply Hcur || done)].
  - intros c T l Hl. destruct (Hstood c T l Hl) as [Hold|?]; [|done].
    destruct (ai_stood _ Hi _ _ _ Hold) as (Hp & Hw & HT). pose proof (Hcur c).
    split_and!; [by eapply prov_mono|done|lia].
  - intros T ld Hl. destruct (Hlead T ld Hl) as [Hold|?]; [|done].
    pose proof (aelected_mono A A' T ld Hi Hle Hcur Hv Hfr Hold).
    destruct (ai_lead _ Hi _ _ Hold). split; eauto using prov_mono.
  - intros s T Hpos. destruct (Hacks s T) as [E|(ld & ?)]; [|eauto]. rewrite E in *.
    destruct (ai_acks _ Hi s T Hpos) as (ld & Hl & Hlen & HT). pose proof (Hcur s).
    destruct (Hle T ld Hl) as (ld' & Hl' & _ & _ & Hp%prefix_length). exists ld'.
    split_and!; [done|lia|lia].
  - intros s. destruct (Hheld s) as [[Ef Ea]|?]; [|done]. rewrite Ef. pose proof (Hcur s).
    eapply covered_mono; [done..|by intros; rewrite Ea|].
    eapply covered_raise; [done| |by apply ai_held]. lia.
  - intros s T c Hs. destruct (Hvoted s T c Hs) as [Hold|?]; [|done].
    destruct (ai_voted _ Hi _ _ _ Hold) as (HT & l & Hl & Hc). pose proof (Hcur s).
    split; [lia|]. exists l. split; [by eapply lookup_weaken|].
    eapply covered_mono; [done..| |done]. intros T' HT'. destruct (Hfr s T') as [?| ->]; [done|lia].
Qed.

Lemma ainv_term A i T : ainv A -> cur A i <= T -> ainv (set_cur i T A).
Proof.
  intros Hi HT. eapply ainv_frame; [done|by apply lead_le_refl| |done|done|by left|by left|by left|by left|by left|by left|by left].
  intros j. simpl. upd_cases i j; lia.
Qed.

Lemma ainv_stand A i T :
  ainv A -> cur A i < T ->
  ainv (A |> set_cur i T |> set_voted i T i |> set_stood i T (full A i)).
Proof.
  intros Hi HT. set (A' := set_stood _ _ _ _).
  assert (voted A !! (i, T) = None) as Hv.
  { destruct (voted A !! (i, T)) eqn:Hv; [|done]. apply (ai_voted _ Hi) in Hv. lia. }
  assert (stood A !! (i, T) = None) as Hst.
  { destruct (stood A !! (i, T)) eqn:Hst; [|done]. apply (ai_stood _ Hi) in Hst. lia. }
  assert (lead_le A A') as Hle by by apply lead_le_refl.
  assert (forall j, cur A j <= cur A' j) as Hcur by (intros j; simpl; upd_cases i j; lia).
  eapply ainv_frame; [done|done|done|by apply insert_subseteq|by apply insert_subseteq| | | | | | |];
    [by left|by left| |by left|by left|by left|].
  - intros c t l. simpl. rewrite lookup_insert. case_decide as E; [|by left]. intros [= <-]. injection E as <- <-.
    right. destruct (ai_full _ Hi i) as [Hp Hw]. split_and!; [by eapply prov_mono| |].
    + eapply wfLog_mono; [|done]. lia.
    + simpl. by rewrite upd_eq.
  - intros s t c. simpl. rewrite lookup_insert. case_decide as E; [|by left]. intros [= <-]. injection E as <- <-.
    right. rewrite upd_eq. split; [done|]. exists (full A i). rewrite lookup_insert_eq. split; [done|].
    eapply covered_mono; [done|done|done|]. eapply covered_raise; [done| |by apply ai_held]. lia.
Qed.

Lemma ainv_vote A s c T l :
  ainv A -> cur A s = T -> voted A !! (s, T) = None -> stood A !! (c, T) = Some l ->
  upToDate l (full A s) -> ainv (set_voted s T c A).
Proof.
  intros Hi <- Hv Hst Hup. set (A' := set_voted _ _ _ _).
  assert (lead_le A A') as Hle by by apply lead_le_refl.
  eapply ainv_frame; [done|done|done|by apply insert_subseteq|done| | | | | | |]; try by left.
  intros s' t c'. simpl. rewrite lookup_insert. case_decide as E; [|by left]. intros [= <-]. injection E as <- <-.
  right. split; [done|]. exists l. split; [done|].
  eapply covered_mono; [done|done|done|]. eapply upToDate_covered; [done..|]. by apply ai_held.
Qed.

Lemma ainv_elect A c T L :
  ainv A -> cur A c = T -> stood A !! (c, T) = Some (full A c) -> lead A !! T = None -> quorum L ->
  (forall s, s ∈ L -> voted A !! (s, T) = Some c) ->
  ainv (A |> set_lead T (mkLead c (full A c) (full A c)) |> set_acks c T (length (full A c))).
Proof.
  intros Hi HT Hst Hnone HL Hvote. set (A' := set_acks _ _ _ _). set (ld0 := mkLead _ _ _) in *.
  assert (lead_le A A') as Hle.
  { intros t ld Hl. exists ld. split_and!; [|done..]. simpl. rewrite lookup_insert_ne; [done|congruence]. }
  assert (forall s t, acks A' s t = acks A s t \/ (s, t) = (c, T)) as Hacks.
  { intros s t. simpl. unfold upd. repeat case_decide; subst; auto. }
  assert (forall s, acks A s T = 0%nat) as Hzero.
  { intros s. destruct (acks A s T) eqn:E; [done|]. destruct (ai_acks _ Hi s T) as (ld & Hl & _); [lia|congruence]. }
  destruct (ai_stood _ Hi _ _ _ Hst) as (Hp & Hw & _).
  eapply ainv_frame; [done|done|done|done|done| | | | | | |]; try by left.
  - intros s t. destruct (Hacks s t) as [?|[= -> ->]]; [by left|by right].
  - intros t ld. simpl. rewrite lookup_insert. case_decide as E; [|by left]. intros. simplify_eq. right.
    split; simpl; [apply (ai_cur _ Hi)|by eapply prov_mono|eapply wfLog_mono; [|done]; lia|done|by exists []; rewrite app_nil_r|].
    right. exists L. split; [done|]. intros s Hs. specialize (Hvote s Hs).
    destruct (ai_voted _ Hi _ _ _ Hvote) as (Hcur & l & Hl & Hc). simplify_eq.
    split_and!; [done|done|]. eapply covered_mono; [done|done| |].
    { intros t Ht. destruct (Hacks s t) as [?|[= -> ->]]; [done|lia]. }
    intros t m ld Ht Hlt Hm Hterm. destruct (Hc t m ld Ht Hlt Hm Hterm) as [?|(T' & ld' & HT' & Hl' & Hne)];
      [by left|right]. exists T', ld'. split_and!; [lia| |done|done].
    destruct (decide (T' = cur A c)) as [->|]; [congruence|lia].
  - intros s t. destruct (Hacks s t) as [?|[= -> ->]]; [by left|right]. exists ld0. simpl.
    rewrite lookup_insert_eq, !upd_eq. split_and!; [done|done|lia].
  - intros s. destruct (decide (s = c)) as [->|Hne]; [right|left; simpl; by rewrite upd_ne].
    intros t m ld Ht Hl Hm Hterm. destruct (decide (t = T)) as [->|Hne].
    + simpl in Hl. rewrite lookup_insert_eq in Hl. simplify_eq. by left.
    + assert (covered A' c (full A c) (cur A c) (cur A c + 1)) as Hc.
      { eapply covered_mono; [done|done| |].
        - intros u Hu. destruct (Hacks c u) as [?|[= ->]]; [done|lia].
        - eapply covered_lower; [|by apply ai_held]. lia. }
      eapply Hc; [|done..]. simpl in *. lia.
Qed.

Lemma ainv_append A c T ld e :
  ainv A -> cur A c = T -> lead A !! T = Some ld -> ld_owner ld = c -> full A c = ld_log ld ->
  Term e = T ->
  ainv (A |> set_full c (ld_log ld ++ [e])
          |> set_lead T (mkLead c (ld_base ld) (ld_log ld ++ [e]))
          |> set_acks c T (S (length (ld_log ld)))).
Proof.
  intros Hi HT Hl Ho Hf He. set (A' := set_acks _ _ _ _). set (ld0 := mkLead _ _ _) in *.
  assert (ld_log ld `prefix_of` ld_log ld0) as Hpre by by apply prefix_app_r.
  assert (lead A' !! T = Some ld0) as Hl0 by (simpl; by rewrite lookup_insert_eq).
  assert (lead_le A A') as Hle.
  { intros t ldt Hlt. destruct (decide (t = T)) as [->|Hne].
    - simplify_eq. by exists ld0.
    - exists ldt. simpl. rewrite lookup_insert_ne by done. done. }
  assert (forall s t, acks A' s t = acks A s t \/ (s, t) = (c, T)) as Hacks.
  { intros s t. simpl. unfold upd. repeat case_decide; subst; auto. }
  destruct (ai_lead _ Hi _ _ Hl) as [Hnn Hlp Hlw Hbw (suf & Esuf & Hsuf) _].
  assert (prov A' (ld_log ld0)) as Hp0.
  { apply prov_snoc with (ld := ld0); [by eapply prov_mono|by rewrite He|done]. }
  assert (wfLog T (ld_log ld0)) as Hw0 by (subst T; rewrite <- He in *; by apply wfLog_snoc).
  eapply ainv_frame; [done|done|done|done|done| | | | | | |]; try by left.
  - intros s t. destruct (Hacks s t) as [?|[= -> ->]]; [by left|by right].
  - intros i. simpl. upd_cases c i; [right|by left]. split; [done|]. by rewrite HT.
  - intros t ldt. simpl. rewrite lookup_insert. case_decide as E; [|by left]. intros [= <-]. subst t. right.
    split; [done|done|done|done| |].
    + exists (suf ++ [e]). simpl. rewrite Esuf, app_assoc. split; [done|].
      apply Forall_app. split; [done|]. by apply Forall_singleton.
    + assert (forall s t, acks A' s t = acks A s t \/ t = cur A' s) as Hfr.
      { intros s t. destruct (Hacks s t) as [?|[= -> ->]]; [by left|by right]. }
      pose proof (aelected_mono A A' T ld Hi Hle ltac:(done) ltac:(done) Hfr Hl) as Hel.
      by rewrite Ho in Hel.
  - intros s t. destruct (Hacks s t) as [?|[= -> ->]]; [by left|right]. exists ld0.
    split; [done|]. simpl. rewrite !upd_eq, length_app. simpl. lia.
  - intros s. destruct (decide (s = c)) as [->|Hne]; [right|left; simpl; by rewrite !upd_ne].
    simpl. rewrite upd_eq. intros t m ldt Ht Hlt Hm Hterm. destruct (decide (t = T)) as [->|Hne].
    + simplify_eq. by left.
    + assert (covered A' c (full A c) (cur A c) (cur A c + 1)) as Hc.
      { eapply covered_mono; [done|done| |].
        - intros u Hu. destruct (Hacks c u) as [?|[= ->]]; [done|lia].
        - eapply covered_lower; [|by apply ai_held]. lia. }
      destruct (Hc t m ldt ltac:(lia) Hlt Hm Hterm) as [Hin|?]; [left|by right].
      rewrite Hf in Hin. by eapply lterm_prefix.
Qed.

Lemma ainv_absorb A s T ld k l' :
  ainv A -> cur A s <= T -> lead A !! T = Some ld -> (k <= length (ld_log ld))%nat ->
  absorbs (full A s) (take k (ld_log ld)) l' ->
  ainv (A |> set_cur s T |> set_full s l' |> set_acks s T (Nat.max k (acks A s T))).
Proof.
  intros Hi HT Hl Hk Habs. set (A' := set_acks _ _ _ _).
  assert (lead_le A A') as Hle by by apply lead_le_refl.
  assert (forall i, cur A i <= cur A' i) as Hcur by (intros j; simpl; upd_cases s j; lia).
  assert (cur A' s = T) as HT' by (simpl; by rewrite upd_eq).
  assert (forall i t, acks A' i t = acks A i t \/ (i, t) = (s, T)) as Hacks.
  { intros i t. simpl. unfold upd. destruct (decide (i = s)), (decide (t = T)); first [left; congruence|right; congruence]. }
  assert (acks A' s T = Nat.max k (acks A s T)) as HaT by (simpl; by rewrite !upd_eq).
  assert (full A' s = l') as Hfs by (simpl; by rewrite upd_eq).
  destruct (ai_lead _ Hi _ _ Hl) as [Hnn Hlp Hlw Hbw (suf & Esuf & Hsuf) _].
  destruct (ai_full _ Hi s) as [Hpf Hwf].
  (* what both logs hold stays *)
  assert (forall m t ldt, lterm (full A s) m = Some t -> lead A !! t = Some ldt ->
    lterm (ld_log ld) m = Some t -> lterm l' m = Some t) as Hkeep.
  { intros m t ldt Hin Hlt Hin'. pose proof (prov_agree _ _ _ _ _ Hpf Hlp Hin Hin') as E.
    pose proof (lterm_lt _ _ _ Hin). rewrite <- (lterm_take l' m (S m)) by lia.
    rewrite (absorbs_keeps _ _ _ _ _ Habs E) by done. by rewrite lterm_take by lia. }
  eapply ainv_frame; [done|done|done|done|done| | | | | | |]; try by left.
  - intros i t. destruct (Hacks i t) as [?|[= -> ->]]; [by left|by right].
  - intros i. simpl. upd_cases s i; [right|by left].
    destruct Habs as [[_ ->]|[_ ->]].
    + split; [by eapply prov_mono|eapply wfLog_mono; [|done]; (apply Hcur || done)].
    + split; [|by eapply wfLog_prefix; [apply prefix_take|]].
      eapply prov_prefix; [apply prefix_take|]. by eapply prov_mono.
  - intros i t. destruct (Hacks i t) as [?|[= -> ->]]; [by left|right]. exists ld.
    rewrite HaT, HT'. split_and!; [done| |done]. destruct (acks A s T) eqn:E; [lia|].
    destruct (ai_acks _ Hi s T) as (ld' & Hl' & ? & _); [lia|]. simplify_eq. lia.
  - intros i. destruct (decide (i = s)) as [->|Hne]; [right|left; simpl; by rewrite !upd_ne].
    rewrite Hfs, HT'. intros t m ldt Ht Hlt Hm Hterm. destruct (decide (t = T)) as [->|Hne].
    + assert (ldt = ld) as -> by (change (lead A !! T = Some ldt) in Hlt; congruence). left.
      destruct (decide (m < k)%nat) as [Hmk|Hmk].
      * eapply lterm_prefix; [by eapply absorbs_prefix|]. by rewrite lterm_take.
      * assert (cur A s = T) as EcT by (destruct (ai_acks _ Hi s T) as (_ & _ & _ & ?); lia).
        destruct (ai_held _ Hi s T m ld) as [Hin|(T' & _ & ? & _)]; [lia|done|lia|done| |lia].
        by eapply Hkeep.
    + assert (acks A' s t = acks A s t) as Ea by (destruct (Hacks s t) as [?|[=]]; done).
      rewrite Ea in Hm. destruct (ai_acks _ Hi s t) as (_ & _ & _ & Hts); [lia|].
      destruct (ai_held _ Hi s t m ldt) as [Hin|(T' & ld' & ? & Hl' & ?)]; [lia|done|lia|done| |].
      * destruct (decide (lterm (ld_base ld) m = Some t)) as [Hb|Hb].
        -- left. eapply Hkeep; [done..|]. eapply lterm_prefix; [|done]. rewrite Esuf. by apply prefix_app_r.
        -- right. exists T, ld. split_and!; [lia|lia|done|done].
      * right. exists T', ld'. split_and!; [lia|lia|done|done].
Qed.

Lemma ainv_step i A A' : ainv A -> astep i A A' -> ainv A'.
Proof.
  intros Hi []; [by apply ainv_term|by apply ainv_stand|by eapply ainv_vote|by eapply ainv_elect
    |by eapply ainv_append|by eapply ainv_absorb].
Qed.

Lemma ainv_init : ainv ainit.
Proof.
  assert (forall l k t, l = dummyLog Cmd -> lterm l k = Some t -> k = 0%nat /\ t = 0) as Hd.
  { intros l [|k] t -> Ht; [by injection Ht as <-|]. by destruct k. }
  assert (prov ainit (dummyLog Cmd)) as Hp.
  { intros k t [-> ->]%Hd; [|done]. eexists. split; [apply lookup_singleton_eq|done]. }
  assert (forall b, 0 <= b -> wfLog b (dummyLog Cmd)) as Hw.
  { intros b Hb. split; [intros j k t u _ [_ ->]%Hd [_ ->]%Hd|intros k t [_ ->]%Hd]; done || lia. }
  split; simpl.
  - done.
  - intros i. split; [done|]. by apply Hw.
  - intros c T l. by rewrite lookup_empty.
  - intros T ld [<- <-]%lookup_singleton_Some. split; simpl; [done|done|by apply Hw|by split| |by left].
    exists (dummyLog Cmd). split; [done|]. by apply Forall_singleton.
  - intros s T Hpos. case_decide; [subst|lia]. eexists. split; [apply lookup_singleton_eq|done].
  - intros s T m ld HT Hl Hm Ht. simpl in Hl. apply lookup_singleton_Some in Hl as [<- <-]. by left.
  - intros s T c. by rewrite lookup_empty.
Qed.

(** ** Safety *)

Lemma quorum_meet L L' : quorum L -> quorum L' -> exists s, s ∈ L /\ s ∈ L'.
Proof.
  intros (Hnd & HL & Hmaj) (Hnd' & HL' & Hmaj').
  destruct (decide (Exists (fun s => s ∈ L') L)) as [(s & Hs & Hs')%Exists_exists|Hno]; [eauto|].
  exfalso. assert (length (L ++ L') <= length (seqZ 0 (Z.of_nat n)))%nat as Hle.
  { apply submseteq_length, NoDup_submseteq.
    - apply NoDup_app. split_and!; [done| |done]. intros s Hs Hs'. apply Hno, Exists_exists. eauto.
    - intros s [Hs%HL|Hs%HL']%elem_of_app; unfold peer in *; apply elem_of_seqZ; lia. }
  rewrite length_app, length_seqZ in Hle. unfold zlen in *. lia_div.
Qed.

(** Leader completeness: what was chosen in a term is in the log every leader of a
    later term was elected with. *)
Lemma leader_complete A T m T' ld' :
  ainv A -> chosen A T m -> lead A !! T' = Some ld' -> T < T' -> lterm (ld_base ld') m = Some T.
Proof.
  intros Hi (ld & L & Hl & Hterm & HL & Hacks). revert ld'.
  assert (0 <= T) as H0 by apply (ai_lead _ Hi _ _ Hl).
  induction T' as [T' IH] using (well_founded_induction (Z.lt_wf 0)). intros ld' Hl' HT.
  destruct (lo_elected _ _ _ (ai_lead _ Hi _ _ Hl')) as [?|(L' & HL' & Hs)]; [lia|].
  destruct (quorum_meet L L' HL HL') as (s & Hin & Hin'). destruct (Hs s Hin') as (_ & _ & Hc).
  destruct (Hc T m ld HT Hl (Hacks s Hin) Hterm) as [?|(T2 & ld2 & HT2 & Hl2 & Hne)]; [done|].
  exfalso. apply Hne. apply (IH T2); [lia|done|lia].
Qed.

(** A leader's log contains what leaders of terms up to its own have committed. *)
Lemma committed_lead A t l T ld :
  ainv A -> committed A t l -> t <= T -> lead A !! T = Some ld -> l `prefix_of` ld_log ld.
Proof.
  intros Hi (T0 & m & ld0 & HT0 & Hch & Hl0 & Hp) HT Hl. etrans; [done|].
  destruct (decide (T0 = T)) as [->|Hne]; [simplify_eq; apply prefix_take|].
  pose proof (leader_complete A T0 m T ld Hi Hch Hl ltac:(lia)) as Hb.
  destruct (ai_lead _ Hi _ _ Hl) as [_ Hlp _ _ (suf & Esuf & _) _].
  assert (lterm (ld_log ld) m = Some T0) as Hm.
  { eapply lterm_prefix; [|done]. rewrite Esuf. by apply prefix_app_r. }
  rewrite <- (prov_lead _ _ _ _ _ Hlp Hm Hl0). apply prefix_take.
Qed.

(** Committed prefixes do not diverge. *)
Lemma committed_agree A t l t' l' :
  ainv A -> committed A t l -> committed A t' l' -> l `prefix_of` l' \/ l' `prefix_of` l.
Proof.
  intros Hi Hc Hc'. pose proof Hc as (T & m & ld & HT & Hch & Hl & Hp).
  pose proof Hc' as (T' & m' & ld' & HT' & Hch' & Hl' & Hp').
  assert (committed A T l) as HcT by (exists T, m, ld; done).
  assert (committed A T' l') as HcT' by (exists T', m', ld'; done).
  destruct (decide (T <= T')) as [Hle|Hgt].
  - eapply prefix_weak_total; [|etrans; [exact Hp'|apply prefix_take]].
    by apply (committed_lead A T l T' ld').
  - eapply prefix_weak_total; [etrans; [exact Hp|apply prefix_take]|].
    apply (committed_lead A T' l' T ld); [done..|lia|done].
Qed.

Lemma committed_prefix A t l l' : l' `prefix_of` l -> committed A t l -> committed A t l'.
Proof. intros Hp (T & m & ld & ? & ? & ? & ?). exists T, m, ld. split_and!; [done..|by etrans]. Qed.

Lemma committed_later A t t' l : t <= t' -> committed A t l -> committed A t' l.
Proof. intros Hp (T & m & ld & ? & ? & ? & ?). exists T, m, ld. split_and!; [lia|done..]. Qed.

(** ** Growth *)

Record grows A A' : Prop := {
  gr_lead : lead_le A A';
  gr_cur : forall i, cur A i <= cur A' i;
  gr_voted : voted A ⊆ voted A';
  gr_stood : stood A ⊆ stood A';
  gr_acks : forall s T, (acks A s T <= acks A' s T)%nat;
}.

Lemma grows_refl A : grows A A.
Proof. split; [by apply lead_le_refl|done..]. Qed.

Lemma grows_trans A1 A2 A3 : grows A1 A2 -> grows A2 A3 -> grows A1 A3.
Proof.
  intros [Hl Hc Hv Hs Ha] [Hl' Hc' Hv' Hs' Ha']. split; [by eapply lead_le_trans|..].
  - intros i. etrans; [apply Hc|apply Hc'].
  - etrans; [exact Hv|exact Hv'].
  - etrans; [exact Hs|exact Hs'].
  - intros s T. etrans; [apply Ha|apply Ha'].
Qed.

Lemma grows_step i A A' : ainv A -> astep i A A' -> grows A A'.
Proof.
  intros Hi Hs. destruct Hs as [T HT|T HT|c T l HT Hv Hst Hup|T L HT Hst Hn HL Hv
    |T ld e HT Hl Ho Hf He|T ld k l' HT Hl Hk Habs]; split; simpl;
    try done; try (by apply lead_le_refl); try (by intros j; upd_cases i j; lia).
  - apply insert_subseteq. destruct (voted A !! (i, T)) eqn:E; [|done]. apply (ai_voted _ Hi) in E. lia.
  - apply insert_subseteq. destruct (stood A !! (i, T)) eqn:E; [|done]. apply (ai_stood _ Hi) in E. lia.
  - by apply insert_subseteq.
  - intros t ld Hl. exists ld. split_and!; [|done..]. simpl. rewrite lookup_insert_ne; [done|congruence].
  - intros s t. unfold upd. repeat case_decide; subst; try lia. destruct (acks A i (cur A i)) eqn:E; [lia|].
    destruct (ai_acks _ Hi i (cur A i)) as (ld & ? & _); [lia|congruence].
  - intros t ldt Hlt. simpl. rewrite lookup_insert. case_decide as E; [|by exists ldt].
    subst t. simplify_eq. eexists. split_and!; [done..|]. by apply prefix_app_r.
  - intros s t. unfold upd. repeat case_decide; subst; try lia. destruct (acks A _ (cur A _)) eqn:E; [lia|].
    rewrite <- E. destruct (ai_acks _ Hi (ld_owner ld) (cur A (ld_owner ld))) as (ld' & ? & ? & _); [lia|].
    simplify_eq. lia.
  - intros j t. unfold upd. repeat case_decide; subst; lia.
Qed.

Lemma chosen_mono A A' T m : grows A A' -> chosen A T m -> chosen A' T m.
Proof.
  intros Hg (ld & L & Hl & Hterm & HL & Ha). destruct (gr_lead _ _ Hg T ld Hl) as (ld' & Hl' & _ & _ & Hp).
  exists ld', L. split_and!; [done|by eapply lterm_prefix|done|]. intros s Hs. specialize (Ha s Hs).
  pose proof (gr_acks _ _ Hg s T). lia.
Qed.

Lemma committed_mono A A' t l : grows A A' -> committed A t l -> committed A' t l.
Proof.
  intros Hg (T & m & ld & HT & Hch & Hl & Hp).
  destruct (gr_lead _ _ Hg T ld Hl) as (ld' & Hl' & _ & _ & Hpre). exists T, m, ld'.
  split_and!; [done|by eapply chosen_mono|done|]. etrans; [done|]. by apply take_prefix_mono.
Qed.

Lemma asteps_inv i A A' : ainv A -> rtc (astep i) A A' -> ainv A' /\ grows A A'.
Proof.
  intros Hi Hs. induction Hs as [|A1 A2 A3 H12 H23 IH]; [auto using grows_refl|].
  destruct IH as [Hi3 Hg]; [by eapply ainv_step|]. eauto using grows_trans, grows_step.
Qed.

(** ** What a step of peer [i] leaves alone *)

Record local (i : Z) A A' : Prop := {
  lc_cur : forall j, j <> i -> cur A' j = cur A j;
  lc_full : forall j, j <> i -> full A' j = full A j;
  lc_lead : forall T ld, lead A !! T = Some ld -> ld_owner ld <> i -> lead A' !! T = Some ld;
  lc_owner : forall T ld', lead A' !! T = Some ld' ->
    ld_owner ld' = i \/ lead A !! T = Some ld';
}.

Lemma local_refl i A : local i A A.
Proof. split; auto. Qed.

Lemma local_trans i A1 A2 A3 : local i A1 A2 -> local i A2 A3 -> local i A1 A3.
Proof.
  intros [Hc Hf Hl Ho] [Hc' Hf' Hl' Ho']. split.
  - intros j Hj. rewrite Hc', Hc; done.
  - intros j Hj. rewrite Hf', Hf; done.
  - auto.
  - intros T ld' Hl3. destruct (Ho' T ld' Hl3) as [?|?]; auto.
Qed.

Lemma local_step i A A' : astep i A A' -> local i A A'.
Proof.
  intros []; split; simpl; try done; try (by intros j Hj; rewrite upd_ne); try (by right).
  - intros t ld Hl Hne. rewrite lookup_insert_ne; [done|congruence].
  - intros t ld'. rewrite lookup_insert. case_decide as E; [|by right]. intros [= <-]. by left.
  - intros t ldt Hl Hne. rewrite lookup_insert_ne; [done|]. intros ->. simplify_eq.
  - intros t ld'. rewrite lookup_insert. case_decide as E; [|by right]. intros [= <-]. by left.
Qed.

Lemma asteps_local i A A' : rtc (astep i) A A' -> local i A A'.
Proof. induction 1; eauto using local_refl, local_trans, local_step. Qed.

End abstract.
