(* ===== verification/RaftRefinement.v ===== *)
(** * The peers of [raft.go] follow the abstract protocol

    A refinement: every step of the cluster of [RaftCluster], with its messages,
    losses, crashes and snapshots, is matched by steps of [RaftAbstract].  The whole
    log of a peer exists only in the abstract state; [view] says that the slice a
    peer keeps, from its snapshot on, is the end of it. *)

From S2P Require Import Prelude Persister Raft RaftLocal RaftReplication RaftCluster RaftElection RaftAbstract.

(** ** The log of a peer and the whole log *)

Section view.
Context {Cmd : Type} `{StateCodec Cmd}.
Implicit Types (rf : Raft Cmd) (l p : list (LogEntry Cmd)).

Definition view rf l : Prop :=
  0 <= lastIncludedIndex rf /\ exists e0,
  log rf = e0 :: drop (S (Z.to_nat (lastIncludedIndex rf))) l /\
  lterm l (Z.to_nat (lastIncludedIndex rf)) = Some (Term e0).

Lemma view_base rf l : view rf l -> 0 <= lastIncludedIndex rf < zlen l.
Proof. intros (Hz & e0 & _ & Ht%lterm_lt). unfold zlen. lia. Qed.

Lemma view_last rf l : view rf l -> lastLogIndex rf = zlen l - 1.
Proof.
  intros Hv. pose proof (view_base _ _ Hv). destruct Hv as (Hz & e0 & El & _).
  unfold lastLogIndex, zlen in *. rewrite El. simpl. rewrite length_drop. lia.
Qed.

Lemma view_entry rf l idx :
  view rf l -> lastIncludedIndex rf < idx -> entryAt rf idx = l !! Z.to_nat idx.
Proof.
  intros (Hz & e0 & El & _) Hi. unfold entryAt. rewrite El, go_index_cons by lia.
  rewrite go_index_drop by lia. rewrite <- go_index_nat. f_equal. lia.
Qed.

Lemma view_term rf l idx :
  view rf l -> lastIncludedIndex rf <= idx -> termAt rf idx = lterm l (Z.to_nat idx).
Proof.
  intros Hv Hi. destruct (decide (idx = lastIncludedIndex rf)) as [->|Hne].
  - destruct Hv as (Hz & e0 & El & Ht). unfold termAt. rewrite El, Z.sub_diag, Ht. done.
  - pose proof (view_entry rf l idx Hv ltac:(lia)) as He. unfold entryAt in He.
    unfold termAt, lterm. rewrite He. by destruct (l !! Z.to_nat idx).
Qed.

Lemma view_ext rf rf' l :
  log rf' = log rf -> lastIncludedIndex rf' = lastIncludedIndex rf -> view rf l -> view rf' l.
Proof. unfold view. by intros -> ->. Qed.

Lemma view_dummy rf l : wf rf -> view rf l -> lterm l (Z.to_nat (lastIncludedIndex rf)) = Some (lastIncludedTerm rf).
Proof.
  intros Hwf (_ & e0 & El & Ht). destruct (wf_dummy rf Hwf) as (e & He & <-).
  rewrite El in He. by injection He as <-.
Qed.

Lemma view_snoc rf l e rf' :
  log rf' = log rf ++ [e] -> lastIncludedIndex rf' = lastIncludedIndex rf ->
  view rf l -> view rf' (l ++ [e]).
Proof.
  intros El' Ei (Hz & e0 & El & Ht). unfold view. rewrite El', Ei. split; [done|]. exists e0. split.
  - rewrite El. simpl. f_equal. rewrite drop_app_le; [done|]. apply lterm_lt in Ht. lia.
  - eapply lterm_prefix; [|done]. by apply prefix_app_r.
Qed.

(** Compaction at [index] keeps the whole log. *)
Lemma view_compact rf l rf' index t :
  view rf l -> lastIncludedIndex rf <= index -> lterm l (Z.to_nat index) = Some t ->
  lastIncludedIndex rf' = index ->
  log rf' = mkEntry t None :: drop (Z.to_nat (index - lastIncludedIndex rf + 1)) (log rf) ->
  view rf' l.
Proof.
  intros (Hz & e0 & El & Ht) Hi Hti Ei El'. split; [lia|]. exists (mkEntry t None).
  rewrite El', Ei, El. split; [|done]. f_equal.
  replace (Z.to_nat (index - lastIncludedIndex rf + 1))
    with (S (Z.to_nat (index - lastIncludedIndex rf))) by lia. simpl.
  rewrite drop_drop. f_equal. lia.
Qed.

Lemma view_reset rf' l k t :
  lastIncludedIndex rf' = k -> 0 <= k -> zlen l = k + 1 -> lterm l (Z.to_nat k) = Some t ->
  log rf' = [mkEntry t None] -> view rf' l.
Proof.
  intros Ei Hk Hl Ht El. split; [lia|]. exists (mkEntry t None). rewrite El, Ei. split; [|done].
  f_equal. symmetry. apply drop_ge. unfold zlen in Hl. lia.
Qed.

(** The append loop takes over the prefix [p] of the leader's log. *)
Lemma view_append rf l p idx es lg :
  view rf l -> (forall k t, lterm l k = Some t -> lterm p k = Some t -> l !! k = p !! k) ->
  lastIncludedIndex rf < idx -> idx <= zlen l ->
  take (Z.to_nat idx) l = take (Z.to_nat idx) p -> es = drop (Z.to_nat idx) p -> idx <= zlen p ->
  appendLoop rf idx es = Some lg ->
  exists l', view (set_log lg rf) l' /\ absorbs l p l'.
Proof.
  intros Hv Hmatch. pose proof (view_last _ _ Hv) as Hlast. pose proof (view_base _ _ Hv) as Hb.
  revert idx. induction es as [|e es IH]; intros idx Hi Hidx Htake Hes Hp Hs; cbn [appendLoop] in Hs.
  - injection Hs as <-. exists l. split; [by eapply view_ext|]. left. split; [|done].
    assert (p = take (Z.to_nat idx) p) as ->.
    { rewrite <- (take_drop (Z.to_nat idx) p) at 1. rewrite <- Hes, app_nil_r. done. }
    rewrite <- Htake. apply prefix_take.
  - assert (p = take (Z.to_nat idx) l ++ e :: es) as Ep by (by rewrite Htake, Hes, take_drop).
    assert (p !! Z.to_nat idx = Some e) as Hpe.
    { rewrite <- (Nat.add_0_r (Z.to_nat idx)), <- lookup_drop, <- Hes. done. }
    destruct (Z.leb_spec idx (lastLogIndex rf)) as [Hle|Hgt].
    + apply bind_Some in Hs as (t & Ht & Hs). rewrite (view_term _ l) in Ht by (done || lia).
      destruct (Z.eqb_spec t (Term e)) as [->|Hne].
      * assert (l !! Z.to_nat idx = Some e) as Hle'.
        { rewrite <- Hpe. apply (Hmatch _ (Term e)); [done|]. unfold lterm. by rewrite Hpe. }
        apply (IH (idx + 1)); [lia|lia| | | |done].
        -- replace (Z.to_nat (idx + 1)) with (S (Z.to_nat idx)) by lia.
           rewrite (take_S_r _ _ _ Hle'), (take_S_r _ _ _ Hpe). by rewrite Htake.
        -- replace (Z.to_nat (idx + 1)) with (Z.to_nat idx + 1)%nat by lia.
           by rewrite <- drop_drop, <- Hes.
        -- apply lookup_lt_Some in Hpe. unfold zlen. lia.
      * apply bind_Some in Hs as (kept & Hk & Hs). injection Hs as <-. exists p. split; [|right; split; [right|done]].
        -- unfold go_slice_to in Hk. case_match; [|done]. injection Hk as <-.
           destruct Hv as (Hz & e0 & El & Ht0). split; [done|]. exists e0. simpl. split.
           ++ rewrite El. replace (Z.to_nat (idx - lastIncludedIndex rf))
                with (S (Z.to_nat idx - S (Z.to_nat (lastIncludedIndex rf)))) by lia.
              simpl. f_equal. rewrite Ep at 1. rewrite drop_app_le by (rewrite length_take; unfold zlen in *; lia).
              f_equal. rewrite <- skipn_firstn_comm. done.
           ++ rewrite <- (lterm_take p _ (Z.to_nat idx)) by lia. rewrite <- Htake. by rewrite lterm_take by lia.
        -- exists (Z.to_nat idx), t, (Term e). split_and!; [done| |done]. unfold lterm. by rewrite Hpe.
    + injection Hs as <-. exists p. rewrite take_ge in Ep by (unfold zlen in *; lia).
      split; [|right; split; [left; rewrite Ep; by apply prefix_app_r|done]].
      destruct Hv as (Hz & e0 & El & Ht0). split; [done|]. exists e0. simpl. split.
      * rewrite El, Ep. simpl. f_equal. rewrite drop_app_le; [done|]. unfold zlen in *. lia.
      * rewrite Ep. eapply lterm_prefix; [|done]. by apply prefix_app_r.
Qed.
End view.

(** ** The refinement relation *)

Section refinement.
Context {Cmd : Type} `{StateCodec Cmd} (n : nat).
Implicit Types (rf : Raft Cmd) (A : @Spec Cmd) (l p : list (LogEntry Cmd)) (w : Cluster (Cmd := Cmd)).

(** The first [idx + 1] entries: what lies up to index [idx]. *)
Definition upTo (idx : Z) l : list (LogEntry Cmd) := take (S (Z.to_nat idx)) l.

(** A leader's [matchIndex] is acknowledged, and its [nextIndex] in its log. *)
Record leader_ok A i rf ld : Prop := {
  lk_lead : lead A !! currentTerm rf = Some ld;
  lk_owner : ld_owner ld = i;
  lk_log : ld_log ld = full A i;
  lk_self : (length (full A i) <= acks A i (currentTerm rf))%nat;
  lk_match : forall s m, matchIndex rf @! s = Some m ->
    m = 0 \/ 0 < m < Z.of_nat (acks A s (currentTerm rf));
  lk_next : forall s x, nextIndex rf @! s = Some x -> 1 <= x <= zlen (full A i);
}.

Record node_ok A i rf : Prop := {
  no_cur : cur A i = currentTerm rf;
  no_view : view rf (full A i);
  no_commit : 0 <= commitIndex rf < zlen (full A i);
  no_committed : committed n A (currentTerm rf) (upTo (commitIndex rf) (full A i));
  no_applied : lastApplied rf <= commitIndex rf;
  no_cand : role rf = Candidate -> stood A !! (i, currentTerm rf) = Some (full A i) /\
    forall ld, lead A !! currentTerm rf = Some ld -> ld_owner ld <> i;
  no_leader : role rf = Leader -> exists ld, leader_ok A i rf ld;
}.

(** An [AppendEntries] request is a slice of its leader's log. *)
Record append_ok A (args : AppendEntriesArgs Cmd) ld : Prop := {
  ao_lead : lead A !! ae_Term args = Some ld;
  ao_prev : 0 <= ae_PrevLogIndex args;
  ao_term : lterm (ld_log ld) (Z.to_nat (ae_PrevLogIndex args)) = Some (ae_PrevLogTerm args);
  ao_entries : ae_Entries args `prefix_of` drop (S (Z.to_nat (ae_PrevLogIndex args))) (ld_log ld);
  ao_range : 0 <= ae_LeaderCommit args <= ae_PrevLogIndex args + zlen (ae_Entries args);
  ao_commit : committed n A (ae_Term args) (upTo (ae_LeaderCommit args) (ld_log ld));
}.

Record snap_ok A (args : InstallSnapshotArgs) ld : Prop := {
  so_lead : lead A !! is_Term args = Some ld;
  so_index : 0 <= is_LastIncludedIndex args;
  so_term : lterm (ld_log ld) (Z.to_nat (is_LastIncludedIndex args)) = Some (is_LastIncludedTerm args);
  so_commit : committed n A (is_Term args) (upTo (is_LastIncludedIndex args) (ld_log ld));
}.

(** A message to the service is about a committed entry. *)
Definition msg_ok A (m : ApplyMsg Cmd) : Prop :=
  match m with
  | CommandMsg c idx => exists t l e, committed n A t l /\ 0 <= idx /\
      l !! Z.to_nat idx = Some e /\ Command e = c
  | SnapshotMsg _ t idx => exists t' l, committed n A t' l /\ 0 <= idx /\ lterm l (Z.to_nat idx) = Some t
  end.

Definition acked A s T (idx : Z) : Prop := idx < Z.of_nat (acks A s T).

Definition thread_fact A (t : Thread (Cmd := Cmd)) : Prop :=
  match t with
  | TReplicate _ _ _ _ | TVoteRep _ _ _ _ _ => True
  | TVoteReq i _ T s args => exists l, stood A !! (i, T) = Some l /\
      rv_LastLogIndex args = zlen l - 1 /\ lterm l (length l - 1) = Some (rv_LastLogTerm args)
  | TAppReq i _ T s args => ae_Term args = T /\ exists ld, append_ok A args ld
  | TAppRep i _ T s args reply => ae_Term args = T /\ exists ld, lead A !! T = Some ld /\
      0 <= ae_PrevLogIndex args /\
      (aer_Success reply = true -> acked A s T (ae_PrevLogIndex args + zlen (ae_Entries args))) /\
      (aer_Success reply = false -> aer_Term reply <= T -> aer_ConflictIndex reply <= zlen (ld_log ld))
  | TSnapReq i _ T s args => is_Term args = T /\ exists ld, snap_ok A args ld
  | TSnapDeliver i _ T s _ args msg reply => is_Term args = T /\ msg_ok A msg /\
      0 <= is_LastIncludedIndex args /\
      (isr_Term reply <= T -> acked A s T (is_LastIncludedIndex args))
  | TSnapRep i _ T s args reply => is_Term args = T /\ 0 <= is_LastIncludedIndex args /\
      (isr_Term reply <= T -> acked A s T (is_LastIncludedIndex args))
  end.

Record rel A w : Prop := {
  rl_inv : ainv n A;
  rl_base : base_inv n w;
  rl_votes : election_inv n (voted A) w;
  rl_nodes : forall i, peer n i -> node_ok A i (nodes w i);
  rl_threads : Forall (thread_fact A) (threads w);
  rl_delivering : forall i m, delivering w i = Some m -> msg_ok A m;
  rl_received : forall i m, m ∈ applied w i -> msg_ok A m;
}.

(** ** Growth of the abstract state *)

Lemma append_ok_mono A A' args ld :
  grows A A' -> append_ok A args ld -> exists ld', append_ok A' args ld'.
Proof.
  intros Hg [Hl Hp Ht He Hr Hc]. destruct (gr_lead _ _ Hg _ _ Hl) as (ld' & Hl' & _ & _ & Hpre).
  exists ld'. split; [done|done|by eapply lterm_prefix| |done|].
  - etrans; [done|]. destruct Hpre as [x ->]. rewrite drop_app_le; [by apply prefix_app_r|].
    apply lterm_lt in Ht. lia.
  - apply (committed_mono n _ _ _ _ Hg) in Hc. revert Hc. unfold upTo.
    assert (S (Z.to_nat (ae_LeaderCommit args)) <= length (ld_log ld))%nat as Hle.
    { apply prefix_length in He. rewrite length_drop in He. apply lterm_lt in Ht. unfold zlen in Hr. lia. }
    destruct Hpre as [x ->]. by rewrite take_app_le.
Qed.

Lemma snap_ok_mono A A' args ld :
  grows A A' -> snap_ok A args ld -> exists ld', snap_ok A' args ld'.
Proof.
  intros Hg [Hl Hp Ht Hc]. destruct (gr_lead _ _ Hg _ _ Hl) as (ld' & Hl' & _ & _ & Hpre).
  exists ld'. split; [done|done|by eapply lterm_prefix|].
  apply (committed_mono n _ _ _ _ Hg) in Hc. revert Hc. unfold upTo.
  apply lterm_lt in Ht. destruct Hpre as [x ->]. rewrite take_app_le by lia. done.
Qed.

Lemma msg_ok_mono A A' m : grows A A' -> msg_ok A m -> msg_ok A' m.
Proof.
  intros Hg. destruct m; simpl.
  - intros (t & l & e & Hc & ?). exists t, l, e. split; [by eapply committed_mono|done].
  - intros (t & l & Hc & ?). exists t, l. split; [by eapply committed_mono|done].
Qed.

Lemma acked_mono A A' s T idx : grows A A' -> acked A s T idx -> acked A' s T idx.
Proof. intros Hg. unfold acked. pose proof (gr_acks _ _ Hg s T). lia. Qed.

Lemma thread_fact_mono A A' t : grows A A' -> thread_fact A t -> thread_fact A' t.
Proof.
  intros Hg. destruct t; simpl; try done.
  - intros (l & Hl & ?). exists l. split; [|done]. eapply lookup_weaken; [done|apply Hg].
  - intros (? & ld & Ha). split; [done|]. by eapply append_ok_mono.
  - intros (? & ld & Hl & ? & Hok & Hno). split; [done|].
    destruct (gr_lead _ _ Hg _ _ Hl) as (ld' & Hl' & _ & _ & Hpre%prefix_length).
    exists ld'. split_and!; [done|done|eauto using acked_mono|]. intros. unfold zlen in *.
    etrans; [by apply Hno|]. lia.
  - intros (? & ld & Ha). split; [done|]. by eapply snap_ok_mono.
  - intros (? & ? & ? & ?). split_and!; eauto using msg_ok_mono, acked_mono.
  - intros (? & ? & ?). split_and!; eauto using acked_mono.
Qed.

Lemma threads_mono A A' ts : grows A A' -> Forall (thread_fact A) ts -> Forall (thread_fact A') ts.
Proof. intros Hg Hts. eapply Forall_impl; [done|]. intros t. by apply thread_fact_mono. Qed.

(** A peer that did not step. *)
Lemma node_ok_other A A' i j rf :
  grows A A' -> local i A A' -> j <> i -> node_ok A j rf -> node_ok A' j rf.
Proof.
  intros Hg [Hc Hf Hl Ho] Hne [Ncur Nview Ncom Ncd Nap Ncand Nlead].
  split; rewrite ?Hc, ?Hf by done; try done.
  - by eapply committed_mono.
  - intros Hr. destruct (Ncand Hr) as [Hst Hno]. split; [eapply lookup_weaken; [done|apply Hg]|].
    intros ld' Hl'. destruct (Ho _ _ Hl') as [->|Hl0]; [congruence|auto].
  - intros Hr. destruct (Nlead Hr) as (ld & [Kl Ko Klog Kself Km Kn]). exists ld. split; rewrite ?Hf by done; try done.
    + apply Hl; [done|]. congruence.
    + etrans; [done|]. apply Hg.
    + intros s m Hm. destruct (Km s m Hm) as [?|?]; [by left|right]. pose proof (gr_acks _ _ Hg s (currentTerm rf)). lia.
Qed.

(** The same peer, when only its volatile state or its snapshot moved. *)
Lemma node_ok_same A i rf rf' :
  node_ok A i rf -> view rf' (full A i) -> currentTerm rf' = currentTerm rf ->
  commitIndex rf' = commitIndex rf -> lastApplied rf' <= commitIndex rf ->
  (role rf' = Follower \/ role rf' = role rf /\ matchIndex rf' = matchIndex rf /\ nextIndex rf' = nextIndex rf) ->
  node_ok A i rf'.
Proof.
  intros [Ncur Nview Ncom Ncd Nap Ncand Nlead] Hv Et Ec Ha Hr.
  split; rewrite ?Et, ?Ec; try done.
  - intros Er. destruct Hr as [?|[Er' _]]; [congruence|]. apply Ncand. congruence.
  - intros Er. destruct Hr as [?|(Er' & Em & En)]; [congruence|].
    destruct Nlead as (ld & []); [congruence|]. exists ld. split; rewrite ?Et, ?Em, ?En; done.
Qed.

(** A newer term makes a follower. *)
Lemma node_ok_term A i rf rf' T :
  node_ok A i rf -> currentTerm rf <= T -> log rf' = log rf ->
  lastIncludedIndex rf' = lastIncludedIndex rf -> currentTerm rf' = T ->
  commitIndex rf' = commitIndex rf -> lastApplied rf' = lastApplied rf -> role rf' = Follower ->
  node_ok (set_cur i T A) i rf'.
Proof.
  intros [Ncur Nview Ncom Ncd Nap Ncand Nlead] HT El Ei Et Ec Ea Er.
  split; simpl; rewrite ?upd_eq, ?Et, ?Ec, ?Ea; try done; try congruence.
  - by eapply view_ext.
  - eapply committed_later; [done|]. destruct Ncd as (T0 & m & ld & ?). by exists T0, m, ld.
Qed.

(** ** Votes *)

Context `{!StateCodecOk Cmd}.

(** The record of votes after a step of peer [i] that casts no vote. *)
Lemma votes_same V w w' i rf' :
  base_inv n w -> election_inv n V w -> cstep n w w' -> (forall j, nodes w' j = upd (nodes w) i rf' j) ->
  (votedFor rf' = -1 \/
   votedFor rf' = votedFor (nodes w i) /\ currentTerm rf' = currentTerm (nodes w i)) ->
  election_inv n V w'.
Proof.
  intros Hb Hv Hs En Hq. destruct (election_inv_step n V w w' Hb Hv Hs) as (V' & [Hle Hnew] & Hv').
  assert (V' = V) as ->; [|done]. apply (anti_symm (⊆)); [|done].
  apply map_subseteq_spec. intros [s T] c Hc. destruct (Hnew s T c Hc) as [?|[-> ->]]; [done|].
  destruct (ei_past _ _ _ Hv' _ _ _ Hc) as (Hp & Hne & _). rewrite En in *. upd_cases i s.
  - destruct Hq as [?|[Ev Et]]; [done|]. rewrite Ev, Et in *. by apply (ei_now _ _ _ Hv).
  - by apply (ei_now _ _ _ Hv).
Qed.

Lemma votes_new V w w' i rf' :
  base_inv n w -> election_inv n V w -> cstep n w w' -> peer n i ->
  (forall j, nodes w' j = upd (nodes w) i rf' j) -> votedFor rf' <> -1 ->
  election_inv n (<[(i, currentTerm rf') := votedFor rf']> V) w'.
Proof.
  intros Hb Hv Hs Hi En Hne. destruct (election_inv_step n V w w' Hb Hv Hs) as (V' & [Hle Hnew] & Hv').
  pose proof (ei_now _ _ _ Hv' i Hi) as Hnow. rewrite En, upd_eq in Hnow.
  assert (V' = <[(i, currentTerm rf') := votedFor rf']> V) as <-; [|done]. apply (anti_symm (⊆)).
  - apply map_subseteq_spec. intros [s T] c Hc. rewrite lookup_insert. case_decide as E.
    + injection E as <- <-. rewrite Hnow in Hc by done. done.
    + destruct (Hnew s T c Hc) as [?|[-> ->]]; [done|].
      destruct (ei_past _ _ _ Hv' _ _ _ Hc) as (Hp & Hne' & _). rewrite En in *. upd_cases i s; [done|].
      by apply (ei_now _ _ _ Hv).
  - apply insert_subseteq_l; auto.
Qed.

(** ** One peer against its abstract steps *)

(** Abstract steps of peer [i] that cast no vote match [rf] becoming [rf']. *)
Record simulates A i rf A' rf' : Prop := {
  sm_steps : rtc (astep n i) A A';
  sm_node : node_ok A' i rf';
  sm_voted : voted A' = voted A;
  sm_vote : votedFor rf' = -1 \/ votedFor rf' = votedFor rf /\ currentTerm rf' = currentTerm rf;
}.

Lemma simulates_refl A i rf rf' :
  node_ok A i rf' -> votedFor rf' = -1 \/ votedFor rf' = votedFor rf /\ currentTerm rf' = currentTerm rf ->
  simulates A i rf A rf'.
Proof. intros. by split; [apply rtc_refl|..]. Qed.

Lemma simulates_trans A i rf A1 rf1 A2 rf2 :
  simulates A i rf A1 rf1 -> simulates A1 i rf1 A2 rf2 -> simulates A i rf A2 rf2.
Proof.
  intros [Hs Hn Hv Hq] [Hs' Hn' Hv' Hq']. split; [by etrans|done|congruence|].
  destruct Hq' as [?|[-> ->]]; [by left|done].
Qed.

Lemma becomeFollower_sim A i rf T :
  node_ok A i rf -> currentTerm rf <= T -> simulates A i rf (set_cur i T A) (becomeFollower T rf).
Proof.
  intros Hn HT. split; [| |done|by left].
  - apply rtc_once, as_term. by rewrite (no_cur _ _ _ Hn).
  - by eapply node_ok_term.
Qed.

Lemma observeTerm_sim A i rf T :
  node_ok A i rf -> currentTerm rf <= T -> exists A', simulates A i rf A' (observeTerm T rf) /\ lead A' = lead A /\
    stood A' = stood A /\ (A' = A \/ A' = set_cur i T A).
Proof.
  intros Hn HT. unfold observeTerm. destruct (_ >? _) eqn:E; b2p.
  - exists (set_cur i T A). split_and!; [by apply becomeFollower_sim|done|done|by right].
  - exists A. split_and!; [apply simulates_refl; [done|by right]|done|done|by left].
Qed.

Lemma heard_sim A i env rf T :
  node_ok A i rf -> currentTerm rf <= T -> exists A', simulates A i rf A' (heard env T rf) /\ lead A' = lead A.
Proof.
  intros Hn HT. destruct (observeTerm_sim A i rf T Hn HT) as (A' & Hs & El & _). exists A'. split; [|done].
  eapply simulates_trans; [done|]. apply simulates_refl; [|by right].
  pose proof (sm_node _ _ _ _ _ Hs) as Hn'.
  eapply node_ok_same; [done|by eapply view_ext, Hn'|done|done|apply Hn'|by left].
Qed.

(** ** Taking over a prefix of the leader's log *)

Lemma upTo_prefix idx l l' : (Z.to_nat idx < length l)%nat -> l `prefix_of` l' -> upTo idx l' = upTo idx l.
Proof. intros Hi [x ->]. unfold upTo. by rewrite take_app_le. Qed.

(** The leader of a term holds what a peer in that term has committed. *)
Lemma committed_common A i rf ld :
  ainv n A -> node_ok A i rf -> lead A !! currentTerm rf = Some ld ->
  upTo (commitIndex rf) (full A i) = upTo (commitIndex rf) (ld_log ld).
Proof.
  intros Hi Hn Hl. apply take_of_prefix.
  - eapply committed_lead; [done|apply Hn|done|done].
  - pose proof (no_commit _ _ _ Hn) as Hc. unfold zlen in Hc. lia.
Qed.

Lemma node_ok_absorb A i rf rf' ld k l' :
  ainv n A -> node_ok A i rf -> lead A !! currentTerm rf = Some ld -> (k <= length (ld_log ld))%nat ->
  absorbs (full A i) (take k (ld_log ld)) l' ->
  role rf' = Follower -> currentTerm rf' = currentTerm rf -> votedFor rf' = votedFor rf -> view rf' l' ->
  lastApplied rf' <= commitIndex rf' ->
  (commitIndex rf' = commitIndex rf \/
   0 <= commitIndex rf' < Z.of_nat k /\ committed n A (currentTerm rf) (upTo (commitIndex rf') (ld_log ld))) ->
  simulates A i rf
    (A |> set_cur i (currentTerm rf) |> set_full i l'
       |> set_acks i (currentTerm rf) (Nat.max k (acks A i (currentTerm rf)))) rf'.
Proof.
  intros Hi Hn Hl Hk Habs Hr Et Ev Hv Ha Hc.
  assert (astep n i A (A |> set_cur i (currentTerm rf) |> set_full i l'
    |> set_acks i (currentTerm rf) (Nat.max k (acks A i (currentTerm rf))))) as Hstep.
  { by eapply as_absorb; [rewrite (no_cur _ _ _ Hn)|..]. }
  pose proof (grows_step n _ _ _ Hi Hstep) as Hg.
  split; [by apply rtc_once| |done|by right].
  pose proof (no_commit _ _ _ Hn) as Hcr. unfold zlen in Hcr.
  assert (upTo (commitIndex rf) l' = upTo (commitIndex rf) (full A i)) as Hkeep.
  { eapply absorbs_keeps; [done|by apply committed_common|lia]. }
  pose proof (absorbs_prefix _ _ _ Habs) as Hpre. pose proof (prefix_length _ _ Hpre) as Hlen.
  rewrite length_take_le in Hlen by done.
  split; simpl; rewrite ?upd_eq, ?Et; try done; try congruence.
  - destruct Hc as [->|[? _]]; [|unfold zlen; lia].
    assert (length (upTo (commitIndex rf) l') = length (upTo (commitIndex rf) (full A i))) as E by congruence.
    unfold upTo in E. rewrite !length_take in E. unfold zlen. lia.
  - destruct Hc as [->|[Hr' Hc]].
    + rewrite Hkeep. eapply committed_mono; [done|]. apply Hn.
    + assert (upTo (commitIndex rf') l' = upTo (commitIndex rf') (ld_log ld)) as ->; [|by eapply committed_mono].
      rewrite (upTo_prefix _ (take k (ld_log ld))); [|rewrite length_take_le by done; lia|done].
      unfold upTo. rewrite take_take. f_equal. lia.
Qed.

(** ** AppendEntries *)

(** What the reply tells the leader of term [T], whose log is that of [ld]. *)
Definition append_answer A i (args : AppendEntriesArgs Cmd) (ld : @Leadership Cmd) (reply : AppendEntriesReply) : Prop :=
  (aer_Success reply = true -> acked A i (ae_Term args) (ae_PrevLogIndex args + zlen (ae_Entries args))) /\
  (aer_Success reply = false -> aer_Term reply <= ae_Term args -> aer_ConflictIndex reply <= zlen (ld_log ld)).

Lemma append_ok_length A args ld :
  append_ok A args ld ->
  ae_PrevLogIndex args + zlen (ae_Entries args) < zlen (ld_log ld) /\
  take (S (Z.to_nat (ae_PrevLogIndex args)) + length (ae_Entries args)) (ld_log ld) =
  take (S (Z.to_nat (ae_PrevLogIndex args))) (ld_log ld) ++ ae_Entries args.
Proof.
  intros [_ Hp Ht He _ _]. pose proof (prefix_length _ _ He) as Hlen. rewrite length_drop in Hlen.
  apply lterm_lt in Ht. split; [unfold zlen; lia|].
  destruct He as [x Ex]. rewrite <- (take_drop (S (Z.to_nat (ae_PrevLogIndex args))) (ld_log ld)) at 1.
  rewrite Ex, take_app, length_take, Nat.min_l by lia.
  rewrite take_ge by (rewrite length_take; lia). f_equal.
  replace (_ + length (ae_Entries args) - _)%nat with (length (ae_Entries args)) by lia.
  apply take_app_length.
Qed.

Lemma check_failure args ci rf rf' reply ld A i :
  node_ok A i rf -> append_ok A args ld -> lastIncludedIndex rf <= ae_PrevLogIndex args ->
  AppendEntries_check args ci rf = Some (rf', reply) -> aer_Success reply = false ->
  aer_ConflictIndex reply <= zlen (ld_log ld).
Proof.
  intros Hn Ha Hp Hs Hf. destruct (append_ok_length _ _ _ Ha) as [Hl _].
  pose proof (zlen_nonneg (ae_Entries args)).
  unfold AppendEntries_check in Hs. case_match; b2p; [simplify_eq; simpl; lia|].
  apply bind_Some in Hs as (t & Ht & Hs). case_match; bind_all. simpl.
  match goal with Hc : conflictScan _ _ _ = Some _ |- _ => apply conflictScan_spec in Hc as (Hc & _) end. lia.
Qed.

Lemma check_sim A i args ci ld rf rf' reply :
  ainv n A -> node_ok A i rf -> role rf = Follower -> currentTerm rf = ae_Term args ->
  lastIncludedIndex rf <= ae_PrevLogIndex args -> append_ok A args ld ->
  AppendEntries_check args ci rf = Some (rf', reply) ->
  exists A', simulates A i rf A' rf' /\ append_answer A' i args ld reply.
Proof.
  intros Hi Hn Hr Et Hp Ha Hs. destruct (append_ok_length _ _ _ Ha) as [Hlen Htk].
  destruct (aer_Success reply) eqn:Hok.
  2:{ rewrite (AppendEntries_check_failure _ _ _ _ _ Hs Hok). exists A.
      split; [apply simulates_refl; [done|by right]|]. split; [congruence|]. intros _ _.
      by eapply check_failure. }
  destruct (AppendEntries_check_success _ _ _ _ _ Hp Hs Hok) as (Hle & Ht & lg & Hlg & ->).
  pose proof (no_view _ _ _ Hn) as Hv. pose proof (view_last _ _ Hv) as Hlast.
  destruct (ai_full _ _ Hi i) as [Hpf _]. destruct Ha as [Hl H0 Hterm He Hrange Hcom].
  pose proof (lo_prov _ _ _ _ (ai_lead _ _ Hi _ _ Hl)) as Hpl.
  rewrite (view_term _ (full A i)) in Ht by done.
  pose proof (prov_agree _ _ _ _ _ Hpf Hpl Ht Hterm) as Hagree.
  set (k := (S (Z.to_nat (ae_PrevLogIndex args)) + length (ae_Entries args))%nat) in *.
  assert (Z.to_nat (ae_PrevLogIndex args + 1) = S (Z.to_nat (ae_PrevLogIndex args))) as Enat by lia.
  assert (k <= length (ld_log ld))%nat as Hk by (unfold zlen in Hlen; lia).
  assert (length (take (S (Z.to_nat (ae_PrevLogIndex args))) (ld_log ld)) = S (Z.to_nat (ae_PrevLogIndex args))) as El0.
  { rewrite length_take. lia. }
  destruct (view_append rf (full A i) (take k (ld_log ld)) (ae_PrevLogIndex args + 1) (ae_Entries args) lg)
    as (l' & Hv' & Habs); [done| |lia|lia| | | |done|].
  { intros j t Hj Hj'. pose proof (prov_prefix _ _ _ (prefix_take _ k) Hpl) as Hpp.
    pose proof (prov_agree _ _ _ _ _ Hpf Hpp Hj Hj') as E.
    by rewrite <- (lookup_take_lt _ (S j)), E, lookup_take_lt by lia. }
  { rewrite Enat, Hagree, Htk, take_app_le by lia. symmetry. apply take_ge. lia. }
  { rewrite Enat, Htk. symmetry. by apply drop_app_length'. }
  { unfold zlen. rewrite length_take_le by done. lia. }
  rewrite <- Et in Hl. eexists. split.
  - apply (node_ok_absorb A i rf _ ld k l'); try done.
    + simpl. unfold accepted_commit. pose proof (no_applied _ _ _ Hn). case_match; b2p; [|done].
      rewrite (view_last _ _ Hv'). pose proof (prefix_length _ _ (absorbs_prefix _ _ _ Habs)) as Hpl'.
      rewrite length_take_le in Hpl' by done. unfold zlen. unfold zlen in Hrange. lia.
    + simpl. unfold accepted_commit. case_match; b2p; [right|by left].
      rewrite (view_last _ _ Hv'). pose proof (prefix_length _ _ (absorbs_prefix _ _ _ Habs)) as Hpl'.
      rewrite length_take_le in Hpl' by done. unfold zlen in *. rewrite Z.min_l by lia.
      split; [lia|]. by rewrite Et.
  - split; [|congruence]. intros _. unfold acked. simpl. rewrite <- Et, !upd_eq. unfold zlen. lia.
Qed.

(** Entries that the peer's snapshot covers are the leader's. *)
Lemma append_ok_clamp A i args ld rf :
  ainv n A -> wf rf -> node_ok A i rf -> currentTerm rf = ae_Term args -> append_ok A args ld ->
  ae_PrevLogIndex args < lastIncludedIndex rf <= ae_PrevLogIndex args + zlen (ae_Entries args) ->
  append_ok A
    (mkAppendEntriesArgs (ae_Term args) (ae_LeaderId args) (lastIncludedIndex rf) (lastIncludedTerm rf)
       (drop (Z.to_nat (lastIncludedIndex rf - ae_PrevLogIndex args)) (ae_Entries args))
       (ae_LeaderCommit args)) ld.
Proof.
  intros Hi Hwf Hn Et [Hl H0 Hterm He Hrange Hcom] Hlii. unfold zlen in *.
  split; simpl; [done|lia| | |unfold zlen; rewrite length_drop; lia|done].
  - pose proof (view_dummy _ _ Hwf (no_view _ _ _ Hn)) as Hd.
    rewrite <- Et in Hl. pose proof (committed_common _ _ _ _ Hi Hn Hl) as E. unfold upTo in E.
    pose proof (wf_lii _ Hwf). rewrite <- (lterm_take _ _ (S (Z.to_nat (commitIndex rf)))) in Hd by lia.
    by rewrite <- (lterm_take _ _ (S (Z.to_nat (commitIndex rf)))), <- E by lia.
  - destruct He as [x Ex]. exists x.
    replace (S (Z.to_nat (lastIncludedIndex rf))) with
      (S (Z.to_nat (ae_PrevLogIndex args)) + Z.to_nat (lastIncludedIndex rf - ae_PrevLogIndex args))%nat by lia.
    rewrite <- drop_drop, Ex. rewrite drop_app_le by lia. done.
Qed.

Lemma append_ok_lead A A' args ld :
  grows A A' -> lead A' = lead A -> append_ok A args ld -> append_ok A' args ld.
Proof. intros Hg El []. split; try done; [by rewrite El|by eapply committed_mono]. Qed.

Lemma AppendEntries_sim A i env args ld rf rf' reply :
  ainv n A -> wf rf -> node_ok A i rf -> append_ok A args ld ->
  AppendEntries env args rf = Some (rf', reply) ->
  exists A', simulates A i rf A' rf' /\ append_answer A' i args ld reply.
Proof.
  intros Hi Hwf Hn Ha Hs. unfold AppendEntries in Hs.
  destruct (Z.ltb_spec (ae_Term args) (currentTerm rf)) as [Hlt|Hge].
  { simplify_eq. exists A. split; [apply simulates_refl; [done|by right]|]. split; [done|simpl; lia]. }
  fold (heard env (ae_Term args) rf) in Hs.
  destruct (heard_sim A i env rf (ae_Term args) Hn Hge) as (A1 & Hs1 & El1).
  destruct (asteps_inv n i A A1 Hi (sm_steps _ _ _ _ _ Hs1)) as [Hi1 Hg1].
  pose proof (append_ok_lead _ _ _ _ Hg1 El1 Ha) as Ha1. pose proof (sm_node _ _ _ _ _ Hs1) as Hn1.
  assert (wf (heard env (ae_Term args) rf)) as Hwf1 by (by apply wf_followerTimer, wf_observeTerm).
  assert (currentTerm (heard env (ae_Term args) rf) = ae_Term args) as Et.
  { by apply (observeTerm_currentTerm (ae_Term args) rf). }
  assert (role (heard env (ae_Term args) rf) = Follower) as Hr by done.
  set (rf1 := heard env (ae_Term args) rf) in *. clearbody rf1.
  destruct (Z.ltb_spec (ae_PrevLogIndex args) (lastIncludedIndex rf1)) as [Hc|Hc].
  - destruct (Z.leb_spec (ae_PrevLogIndex args + zlen (ae_Entries args)) (lastIncludedIndex rf1)) as [Hall|Hpart].
    + simplify_eq. exists A1. split; [done|]. split; [done|]. intros _ _. simpl.
      destruct Ha1 as [Hl1 _ _ _ _ _]. rewrite <- Et in Hl1.
      pose proof (committed_common _ _ _ _ Hi1 Hn1 Hl1) as E. apply (f_equal length) in E. unfold upTo in E.
      rewrite !length_take in E. pose proof (no_commit _ _ _ Hn1). pose proof (wf_lii _ Hwf1). unfold zlen in *. lia.
    + destruct (Z.leb_spec (lastIncludedIndex rf1 - ae_PrevLogIndex args) (zlen (ae_Entries args))); [|lia].
      rewrite go_slice_from_Some in Hs by lia. simpl in Hs.
      apply (check_sim A1 i _ _ ld) in Hs as (A2 & Hs2 & Hans); try done; [|by apply (append_ok_clamp A1 i); [..|lia]].
      exists A2. split; [by eapply simulates_trans|]. destruct Hans as [Hok Hno]. split; [|done].
      intros Hsu. specialize (Hok Hsu). simpl in Hok. unfold acked, zlen in *. rewrite length_drop in Hok. lia.
  - apply (check_sim A1 i _ _ ld) in Hs as (A2 & Hs2 & Hans); try done. eauto using simulates_trans.
Qed.

(** ** InstallSnapshot *)

(** A peer whose own snapshot reaches further holds what the leader's covers. *)
Lemma snapshot_covered A i rf ld idx :
  ainv n A -> wf rf -> node_ok A i rf -> lead A !! currentTerm rf = Some ld -> 0 <= idx <= lastIncludedIndex rf ->
  upTo idx (ld_log ld) `prefix_of` full A i.
Proof.
  intros Hi Hwf Hn Hl Hidx. pose proof (wf_lii _ Hwf).
  etrans; [|apply (prefix_take _ (S (Z.to_nat (commitIndex rf))))].
  change (upTo idx (ld_log ld) `prefix_of` upTo (commitIndex rf) (full A i)).
  rewrite (committed_common _ _ _ _ Hi Hn Hl). apply take_prefix_le. lia.
Qed.

Lemma snapshotLog_view A i rf ld LII LIT newLog rf' :
  ainv n A -> node_ok A i rf -> lead A !! currentTerm rf = Some ld ->
  lterm (ld_log ld) (Z.to_nat LII) = Some LIT -> lastIncludedIndex rf < LII ->
  snapshotLog LII LIT rf = Some newLog -> log rf' = newLog -> lastIncludedIndex rf' = LII ->
  exists l', view rf' l' /\ absorbs (full A i) (upTo LII (ld_log ld)) l'.
Proof.
  intros Hi Hn Hl Ht Hlt Hs El Ei. pose proof (no_view _ _ _ Hn) as Hv.
  pose proof (view_base _ _ Hv) as Hb. pose proof (view_last _ _ Hv) as Hlast.
  destruct (ai_full _ _ Hi i) as [Hpf _]. pose proof (lo_prov _ _ _ _ (ai_lead _ _ Hi _ _ Hl)) as Hpl.
  pose proof (lterm_lt _ _ _ Ht) as Hlen.
  apply snapshotLog_spec in Hs as [(Hr & Ht' & ->)|[Hno ->]]; [| |lia].
  - rewrite (view_term _ (full A i)) in Ht' by (done || lia).
    exists (full A i). split; [eapply view_compact; [done| |done|done|done]; lia|]. left. split; [|done].
    unfold upTo. rewrite <- (prov_agree _ _ _ _ _ Hpf Hpl Ht' Ht). apply prefix_take.
  - exists (upTo LII (ld_log ld)). split.
    + eapply view_reset; [done|lia| | |done].
      * unfold zlen, upTo. rewrite length_take. lia.
      * unfold upTo. by rewrite lterm_take by lia.
    + destruct (decide (lterm (full A i) (Z.to_nat LII) = Some LIT)) as [Ht'|Ht'].
      * left. assert (length (full A i) = S (Z.to_nat LII)) as Elen.
        { pose proof (lterm_lt _ _ _ Ht'). destruct (decide (LII < lastLogIndex rf)) as [Hr|]; [|unfold zlen in *; lia].
          exfalso. apply Hno. split; [done|]. by rewrite (view_term _ (full A i)) by (done || lia). }
        assert (full A i = upTo LII (ld_log ld)) as ->; [|done].
        unfold upTo. rewrite <- (prov_agree _ _ _ _ _ Hpf Hpl Ht' Ht). symmetry. apply take_ge. lia.
      * right. split; [|done]. destruct (lterm (full A i) (Z.to_nat LII)) as [t|] eqn:Hti.
        -- right. exists (Z.to_nat LII), t, LIT. unfold upTo. rewrite lterm_take by lia. split_and!; [done|done|congruence].
        -- assert (length (full A i) <= Z.to_nat LII)%nat as Hshort.
           { destruct (decide (length (full A i) <= Z.to_nat LII)%nat) as [|Hx]; [done|].
             destruct (lterm_is_Some (full A i) (Z.to_nat LII)) as [t Htt]; [lia|congruence]. }
           (* the last entry of the peer decides *)
           destruct (decide (lterm (full A i) (length (full A i) - 1) = lterm (ld_log ld) (length (full A i) - 1))) as [E|E].
           ++ left. destruct (lterm_is_Some (full A i) (length (full A i) - 1)) as [t Htt]; [unfold zlen in Hb; lia|].
              rewrite Htt in E. pose proof (prov_agree _ _ _ _ _ Hpf Hpl Htt (eq_sym E)) as Ea.
              rewrite take_ge in Ea by lia. rewrite Ea. apply take_prefix_le. lia.
           ++ right. destruct (lterm_is_Some (full A i) (length (full A i) - 1)) as [t Htt]; [unfold zlen in Hb; lia|].
              destruct (lterm_is_Some (ld_log ld) (length (full A i) - 1)) as [t' Htt']; [lia|].
              exists (length (full A i) - 1)%nat, t, t'. unfold upTo. rewrite lterm_take by lia.
              split_and!; [done|done|congruence].
Qed.

Lemma InstallSnapshot_sim A i env args ld rf rf' reply eff :
  ainv n A -> wf rf -> node_ok A i rf -> snap_ok A args ld ->
  InstallSnapshot env args rf = Some (rf', reply, eff) ->
  exists A', simulates A i rf A' rf' /\
    (isr_Term reply <= is_Term args -> acked A' i (is_Term args) (is_LastIncludedIndex args)).
Proof.
  intros Hi Hwf Hn [Hl H0 Ht Hcom] Hs. unfold InstallSnapshot in Hs.
  destruct (Z.ltb_spec (is_Term args) (currentTerm rf)) as [Hlt|Hge].
  { simplify_eq. exists A. split; [apply simulates_refl; [done|by right]|]. simpl. lia. }
  fold (heard env (is_Term args) rf) in Hs.
  destruct (heard_sim A i env rf (is_Term args) Hn Hge) as (A1 & Hs1 & El1).
  destruct (asteps_inv n i A A1 Hi (sm_steps _ _ _ _ _ Hs1)) as [Hi1 Hg1].
  pose proof (sm_node _ _ _ _ _ Hs1) as Hn1.
  assert (wf (heard env (is_Term args) rf)) as Hwf1 by (by apply wf_followerTimer, wf_observeTerm).
  assert (currentTerm (heard env (is_Term args) rf) = is_Term args) as Et.
  { by apply (observeTerm_currentTerm (is_Term args) rf). }
  assert (role (heard env (is_Term args) rf) = Follower) as Hr by done.
  set (rf1 := heard env (is_Term args) rf) in *. clearbody rf1.
  rewrite <- El1, <- Et in Hl. apply (committed_mono n _ _ _ _ Hg1) in Hcom.
  pose proof (lterm_lt _ _ _ Ht) as Hlen. pose proof (no_applied _ _ _ Hn1) as Hap.
  set (k := S (Z.to_nat (is_LastIncludedIndex args))) in *.
  assert (forall A', acks A' i (currentTerm rf1) = Nat.max k (acks A1 i (currentTerm rf1)) ->
    acked A' i (is_Term args) (is_LastIncludedIndex args)) as Hack.
  { intros A' E. unfold acked. rewrite <- Et, E. lia. }
  destruct (Z.leb_spec (is_LastIncludedIndex args) (lastIncludedIndex rf1)) as [Hold|Hnew].
  - simplify_eq. eexists. split.
    + eapply simulates_trans; [done|]. apply (node_ok_absorb A1 i rf' rf' ld k (full A1 i)); try done; [| |by left].
      * left. split; [|done]. by apply (snapshot_covered A1 i rf').
      * apply Hn1.
    + intros _. apply Hack. simpl. by rewrite !upd_eq.
  - apply bind_Some in Hs as (newLog & Hlog & Hs). injection Hs as Hrf' _ _.
    destruct (snapshotLog_view A1 i rf1 ld (is_LastIncludedIndex args) (is_LastIncludedTerm args) newLog rf')
      as (l' & Hv' & Habs); try done; [by rewrite <- Hrf'..|].
    eexists. split.
    + eapply simulates_trans; [done|].
      apply (node_ok_absorb A1 i rf1 rf' ld k l'); try done; try (by rewrite <- Hrf').
      * rewrite <- Hrf'. simpl. repeat case_match; b2p; lia.
      * rewrite <- Hrf'. cbn [commitIndex set_persister set_lastApplied set_commitIndex].
        destruct (Z.ltb_spec (commitIndex rf1) (is_LastIncludedIndex args)); [right|by left].
        split; [lia|]. by rewrite Et.
    + intros _. apply Hack. simpl. by rewrite !upd_eq.
Qed.

(** ** Elections *)

Lemma candidateUpToDate_true A i rf l idx t :
  node_ok A i rf -> 0 < zlen l -> idx = zlen l - 1 -> lterm l (length l - 1) = Some t ->
  candidateUpToDate idx t rf = Some true -> upToDate l (full A i).
Proof.
  intros Hn Hl -> Ht Hs. pose proof (no_view _ _ _ Hn) as Hv. pose proof (view_base _ _ Hv) as Hb.
  unfold candidateUpToDate in Hs. apply bind_Some in Hs as (t' & Ht' & Hs).
  rewrite (view_last _ _ Hv) in *. rewrite (view_term _ (full A i)) in Ht' by (done || lia).
  replace (Z.to_nat (zlen (full A i) - 1)) with (length (full A i) - 1)%nat in Ht' by (unfold zlen; lia).
  unfold zlen in *. exists (length l - 1)%nat, (length (full A i) - 1)%nat, t, t'.
  split_and!; [lia|lia|done|done|]. injection Hs as Hs.
  destruct (Z.eqb_spec t t') as [->|Hne]; simpl in Hs; b2p; [right; split; [done|lia]|left; lia].
Qed.

(** A grant is an abstract vote, unless the same vote was recorded before. *)
Lemma RequestVote_sim A w i env args l rf' reply :
  ainv n A -> election_inv n (voted A) w -> peer n i -> node_ok A i (nodes w i) ->
  rv_CandidateId args <> -1 -> stood A !! (rv_CandidateId args, rv_Term args) = Some l ->
  rv_LastLogIndex args = zlen l - 1 -> lterm l (length l - 1) = Some (rv_LastLogTerm args) ->
  RequestVote env args (nodes w i) = Some (rf', reply) ->
  exists A', simulates A i (nodes w i) A' rf' \/
    rtc (astep n i) A A' /\ node_ok A' i rf' /\ votedFor rf' <> -1 /\
    voted A' = <[(i, currentTerm rf') := votedFor rf']> (voted A).
Proof.
  intros Hi Hv Hp Hn Hc Hst Hidx Ht Hs. unfold RequestVote in Hs.
  destruct (Z.ltb_spec (rv_Term args) (currentTerm (nodes w i))) as [Hlt|Hge].
  { simplify_eq. exists A. left. apply simulates_refl; [done|by right]. }
  destruct (observeTerm_sim A i (nodes w i) (rv_Term args) Hn Hge) as (A1 & Hs1 & El1 & Es1 & HA1).
  pose proof (sm_node _ _ _ _ _ Hs1) as Hn1.
  pose proof (observeTerm_currentTerm (rv_Term args) (nodes w i) Hge) as Et.
  apply bind_Some in Hs as (u & Hu & Hs). destruct (_ && u) eqn:Hg; simplify_eq; [|eauto].
  apply andb_prop in Hg as [Hvf ->].
  assert (node_ok A1 i (persist (resetElectionTimer env (set_votedFor (rv_CandidateId args)
    (observeTerm (rv_Term args) (nodes w i)))))) as Hn2.
  { eapply node_ok_same; [done|by eapply view_ext, Hn1|done|done|apply Hn1|by right]. }
  destruct (voted A !! (i, rv_Term args)) as [c|] eqn:Hrec.
  - (* already recorded *)
    destruct (ei_past _ _ _ Hv _ _ _ Hrec) as (_ & Hne & Hle & Hsame).
    assert (rv_Term args = currentTerm (nodes w i)) as E by lia. specialize (Hsame E).
    assert (observeTerm (rv_Term args) (nodes w i) = nodes w i) as Eo.
    { unfold observeTerm. rewrite E, Z.gtb_ltb, Z.ltb_irrefl. done. }
    rewrite Eo in *. apply orb_prop in Hvf as [Hvf|Hvf]; b2p; [congruence|].
    exists A1. left. eapply simulates_trans; [done|]. apply simulates_refl; [done|right]. simpl. split; [congruence|done].
  - exists (set_voted i (rv_Term args) (rv_CandidateId args) A1). right. split_and!.
    + eapply rtc_r; [apply Hs1|]. eapply as_vote.
      * rewrite (no_cur _ _ _ Hn1). done.
      * by rewrite (sm_voted _ _ _ _ _ Hs1).
      * by rewrite Es1.
      * eapply candidateUpToDate_true; [done| |done|done|done]. apply lterm_lt in Ht. unfold zlen. lia.
    + destruct Hn2 as [N1 N2 N3 N4 N5 N6 N7]. split; try done.
      intros Hr. destruct (N7 Hr) as (ld & []). by exists ld.
    + done.
    + simpl. by rewrite Et, (sm_voted _ _ _ _ _ Hs1).
Qed.

(** No leader of a term a peer has not reached is that peer. *)
Lemma owner_cur A T ld : ainv n A -> lead A !! T = Some ld -> 0 < T -> T <= cur A (ld_owner ld).
Proof.
  intros Hi Hl HT. destruct (lo_elected _ _ _ _ (ai_lead _ _ Hi _ _ Hl)) as [?|(L & (_ & _ & Hmaj) & HL)]; [lia|].
  destruct L as [|s L]; [unfold zlen in Hmaj; simpl in Hmaj; lia_div|].
  destruct (HL s) as (_ & Hv & _); [by left|]. destruct (ai_voted _ _ Hi _ _ _ Hv) as (_ & l & Hst & _).
  by apply (ai_stood _ _ Hi) in Hst as (_ & _ & ?).
Qed.

Lemma startElection_cases env rf rf' eff :
  startElection env rf = Some (rf', eff) ->
  (log rf' = log rf /\ lastIncludedIndex rf' = lastIncludedIndex rf /\ commitIndex rf' = commitIndex rf /\
   lastApplied rf' = lastApplied rf) /\
  (currentTerm rf' = currentTerm rf + 1 /\ votedFor rf' = me rf /\ role rf' = Candidate) /\
  exists t, termAt rf' (lastLogIndex rf') = Some t /\
    eff = (fun peer => GoRequestVote peer
             (mkRequestVoteArgs (currentTerm rf') (me rf) (lastLogIndex rf') t)) <$> otherPeers rf.
Proof.
  unfold startElection. set (rf1 := persist _). intros (t & Ht & Hs)%bind_Some. injection Hs as <- <-.
  split; [done|]. split; [done|]. by exists t.
Qed.

Lemma ticker_sim A i env rf rf' eff :
  ainv n A -> node_ok A i rf -> me rf = i -> i <> -1 -> ticker env rf = Some (rf', eff) ->
  (rf' = rf /\ eff = []) \/
  exists A', rtc (astep n i) A A' /\ node_ok A' i rf' /\ votedFor rf' <> -1 /\
    voted A' = <[(i, currentTerm rf') := votedFor rf']> (voted A) /\
    forall s args, GoRequestVote s args ∈ eff -> stood A' !! (i, rv_Term args) = Some (full A' i) /\
      rv_LastLogIndex args = zlen (full A' i) - 1 /\
      lterm (full A' i) (length (full A' i) - 1) = Some (rv_LastLogTerm args).
Proof.
  intros Hi Hn Em Hne Hs. unfold ticker in Hs. case_match; [|left; by simplify_eq]. right.
  apply startElection_cases in Hs as ((El & Ei & Ec & Ea) & (Et & Ev & Er) & t & Ht & ->).
  pose proof (view_base _ _ (no_view _ _ _ Hn)) as Hb.
  assert (view rf' (full A i)) as Hv by (eapply view_ext; [done|done|apply Hn]).
  set (T := currentTerm rf') in *.
  set (A' := A |> set_cur i T |> set_voted i T i |> set_stood i T (full A i)).
  assert (astep n i A A') as Hstep by (apply as_stand; rewrite (no_cur _ _ _ Hn); lia).
  pose proof (grows_step n _ _ _ Hi Hstep) as Hg.
  assert (full A' i = full A i) as Ef by done.
  assert (stood A' !! (i, T) = Some (full A i)) as Est by apply lookup_insert_eq.
  exists A'. split; [by apply rtc_once|]. split; [|split; [congruence|split; [by rewrite Ev, Em|]]].
  - destruct Hn as [Ncur Nview Ncom Ncd Nap _ _]. split; rewrite ?Ef, ?Ec, ?Ea; try done; try congruence.
    + apply upd_eq.
    + eapply (committed_later n _ (currentTerm rf)); [lia|]. by eapply committed_mono.
    + intros _. split; [done|]. intros ld Hl Ho. change (lead A' !! T) with (lead A !! T) in Hl.
      pose proof (ai_cur _ _ Hi i). apply (owner_cur _ _ _ Hi) in Hl; [|lia]. rewrite Ho in Hl. lia.
  - intros s args (p & Hp & _)%list_elem_of_fmap. injection Hp as _ ->. rewrite Ef. cbn [rv_Term rv_LastLogIndex rv_LastLogTerm].
    rewrite (view_last _ _ Hv) in *. split; [done|]. split; [done|].
    rewrite (view_term _ _ _ Hv) in Ht by lia. rewrite <- Ht. f_equal. unfold zlen. lia.
Qed.

(** Winning: [L] are the voters, from the invariant of the election. *)
Lemma becomeLeader_sim A i rf rf' eff :
  ainv n A -> node_ok A i rf -> role rf = Candidate -> elected n (voted A) i (currentTerm rf) -> 0 < currentTerm rf ->
  becomeLeader rf = (rf', eff) -> exists A', simulates A i rf A' rf'.
Proof.
  intros Hi Hn Hr (L & [Hnd HL] & Hmaj) Hpos Hs. destruct (no_cand _ _ _ Hn Hr) as [Hst Hno].
  assert (quorum n L) as HQ by (split_and!; [done|intros s Hs'; by apply HL|done]).
  assert (lead A !! currentTerm rf = None) as Hnone.
  { destruct (lead A !! currentTerm rf) as [ld|] eqn:Hl; [|done]. exfalso. apply (Hno ld); [done|].
    destruct (lo_elected _ _ _ _ (ai_lead _ _ Hi _ _ Hl)) as [?|(L' & HQ' & HL')]; [lia|].
    destruct (quorum_meet n L L' HQ HQ') as (s & Hs1 & Hs2). destruct (HL s Hs1) as [_ Hv].
    destruct (HL' s Hs2) as (_ & Hv' & _). congruence. }
  set (T := currentTerm rf) in *.
  set (A' := A |> set_lead T (mkLead i (full A i) (full A i)) |> set_acks i T (length (full A i))).
  assert (astep n i A A') as Hstep.
  { apply as_elect with (L := L); [by apply Hn|done|done|done|]. intros s Hs'. by apply HL. }
  pose proof (grows_step n _ _ _ Hi Hstep) as Hg.
  unfold becomeLeader in Hs. rewrite bool_decide_true in Hs by done. simpl in Hs. injection Hs as <- <-.
  exists A'. split; [by apply rtc_once| |done|by right].
  pose proof (no_view _ _ _ Hn) as Hv. pose proof (view_base _ _ Hv) as Hb.
  pose proof Hn as [Ncur Nview Ncom Ncd Nap _ _]. split; try done.
  - by eapply committed_mono.
  - intros _. exists (mkLead i (full A i) (full A i)). split; simpl; try done.
    + by rewrite lookup_insert_eq.
    + by rewrite !upd_eq.
    + intros s m Hm. left. apply go_index_Some_bound in Hm as Hb'. unfold go_index in Hm. case_match; [|done].
      by apply lookup_replicate in Hm as [-> _].
    + intros s x Hx. unfold go_index in Hx. case_match; [|done]. apply lookup_replicate in Hx as [-> _].
      rewrite (view_last _ _ Hv). lia.
Qed.

Lemma requestVote_reply_sim A i T v reply rf rf' v' eff :
  ainv n A -> node_ok A i rf -> 0 <= currentTerm rf ->
  (role rf' = Leader -> elected n (voted A) i (currentTerm rf')) ->
  (role rf = Candidate -> 0 < currentTerm rf) ->
  requestVote_reply T v reply rf = (rf', v', eff) -> exists A', simulates A i rf A' rf'.
Proof.
  intros Hi Hn H0 Hel Hpos Hs. unfold requestVote_reply in Hs.
  destruct (currentTerm rf =? T); simpl in Hs; [|simplify_eq; exists A; apply simulates_refl; [done|by right]].
  destruct (bool_decide (role rf = Candidate)) eqn:Hr; simpl in Hs; b2p;
    [|simplify_eq; exists A; apply simulates_refl; [done|by right]].
  case_match; b2p; [simplify_eq; eexists; apply becomeFollower_sim; [done|lia]|].
  case_match; [|simplify_eq; exists A; apply simulates_refl; [done|by right]].
  case_match; [|simplify_eq; exists A; apply simulates_refl; [done|by right]].
  destruct (becomeLeader rf) as [rf1 eff1] eqn:Hb. simplify_eq.
  eapply becomeLeader_sim; [done|done|done| |auto|done].
  unfold becomeLeader in Hb. rewrite Hr in Hb. simpl in Hb. injection Hb as Hrf1 _.
  rewrite <- Hrf1 in Hel. by apply Hel.
Qed.

Lemma candidate_term A i rf : ainv n A -> node_ok A i rf -> role rf = Candidate -> 0 < currentTerm rf.
Proof.
  intros Hi Hn Hr. destruct (no_cand _ _ _ Hn Hr) as [Hst _].
  destruct (ai_stood _ _ Hi _ _ _ Hst) as (Hp & [_ Hb] & _).
  pose proof (view_base _ _ (no_view _ _ _ Hn)) as Hl.
  destruct (lterm_is_Some (full A i) 0) as [t Ht]; [unfold zlen in Hl; lia|].
  destruct (Hp 0%nat t Ht) as (ld & Hld & _). pose proof (lo_nonneg _ _ _ _ (ai_lead _ _ Hi _ _ Hld)).
  specialize (Hb 0%nat t Ht). lia.
Qed.

(** ** The service's calls and the applier *)

Lemma Start_sim A i cmd rf rf' r eff :
  ainv n A -> node_ok A i rf -> Start cmd rf = (rf', r, eff) -> exists A', simulates A i rf A' rf'.
Proof.
  intros Hi Hn Hs. unfold Start in Hs. destruct (bool_decide (role rf = Leader)) eqn:Hr; simpl in Hs; b2p;
    [|simplify_eq; exists A; apply simulates_refl; [done|by right]].
  injection Hs as <- _ _. destruct (no_leader _ _ _ Hn Hr) as (ld & [Kl Ko Klog Kself Km Kn]).
  set (e := mkEntry (currentTerm rf) cmd) in *. set (T := currentTerm rf) in *.
  set (A' := A |> set_full i (ld_log ld ++ [e]) |> set_lead T (mkLead i (ld_base ld) (ld_log ld ++ [e]))
               |> set_acks i T (S (length (ld_log ld)))).
  assert (astep n i A A') as Hstep by (apply as_append; [apply Hn|done..]).
  pose proof (grows_step n _ _ _ Hi Hstep) as Hg.
  exists A'. split; [by apply rtc_once| |done|by right].
  destruct Hn as [Ncur Nview Ncom Ncd Nap _ _]. unfold zlen in Ncom.
  assert (full A' i = full A i ++ [e]) as Ef by (simpl; by rewrite upd_eq, Klog).
  split; try done.
  - rewrite Ef. by eapply view_snoc.
  - rewrite Ef. simpl. unfold zlen. rewrite length_app. simpl. lia.
  - rewrite Ef, (upTo_prefix _ (full A i)); [by eapply committed_mono|simpl; lia|by apply prefix_app_r].
  - simpl. congruence.
  - intros _. exists (mkLead i (ld_base ld) (ld_log ld ++ [e])). split; rewrite ?Ef; simpl; try done.
    + by rewrite lookup_insert_eq.
    + by rewrite Klog.
    + rewrite !upd_eq, length_app, Klog. simpl. lia.
    + intros s m Hm. destruct (Km s m Hm) as [?|?]; [by left|right].
      pose proof (gr_acks _ _ Hg s T) as Hge. simpl in Hge. fold T. lia.
    + intros s x Hx. specialize (Kn s x Hx). unfold zlen in *. rewrite length_app. simpl. lia.
Qed.

Lemma Snapshot_sim A i index snap rf rf' :
  node_ok A i rf -> Snapshot index snap rf = Some rf' -> simulates A i rf A rf'.
Proof.
  intros Hn Hs. unfold Snapshot in Hs. case_match; simplify_eq; [apply simulates_refl; [done|by right]|]. b2p.
  apply bind_Some in Hs as (t & Ht & Hs). apply bind_Some in Hs as (tl & Htl & Hs). simplify_eq.
  apply simulates_refl; [|by right]. unfold go_slice_from in Htl. case_match; [|done]. simplify_eq.
  pose proof (no_view _ _ _ Hn) as Hv. rewrite (view_term _ (full A i)) in Ht by (done || lia).
  eapply node_ok_same; [done| |done|done|apply Hn|by right].
  eapply view_compact; [done| |done|done|done]. lia.
Qed.

Lemma applier_sim A i rf rf' eff :
  node_ok A i rf -> applier rf = Some (rf', eff) ->
  simulates A i rf A rf' /\ forall m, SendApplyCh m ∈ eff -> msg_ok A m.
Proof.
  intros Hn Hs. unfold applier in Hs. case_match eqn:Hc; b2p; simplify_eq;
    [|split; [apply simulates_refl; [done|by right]|by intros m ?%not_elem_of_nil]].
  pose proof (no_view _ _ _ Hn) as Hv.
  assert (forall a, a <= commitIndex rf -> simulates A i rf A (set_lastApplied a rf)) as Hset.
  { intros a Ha. apply simulates_refl; [|by right].
    eapply node_ok_same; [done|by eapply view_ext|done|done|simpl; lia|by right]. }
  case_match; simplify_eq; b2p; simpl in *.
  - split; [|by intros m ?%not_elem_of_nil]. eapply simulates_trans; [apply (Hset (lastApplied rf + 1)); lia|].
    apply simulates_refl; [|by right]. eapply node_ok_same; [apply (Hset (lastApplied rf + 1)); lia| |done|done| |by right].
    + by eapply view_ext.
    + simpl. lia.
  - apply bind_Some in Hs as (e & He & Hs). simplify_eq. split; [apply Hset; lia|].
    intros m Hm%list_elem_of_singleton. injection Hm as ->. simpl in *.
    assert (entryAt rf (lastApplied rf + 1) = Some e) as He' by done.
    rewrite (view_entry _ (full A i)) in He' by (done || lia).
    exists (currentTerm rf), (upTo (commitIndex rf) (full A i)), e. split; [apply Hn|].
    split; [pose proof (view_base _ _ Hv); lia|]. split; [|done]. unfold upTo. rewrite lookup_take_lt by lia. done.
Qed.

Lemma restart_sim A i env rf :
  wf rf -> durable rf -> node_ok A i rf ->
  simulates A i rf A (Make env (npeers rf) (me rf) (Copy (persister rf))).
Proof.
  intros Hwf Hd Hn. set (rf' := Make _ _ _ _).
  assert (persistentState rf' = persistentState rf) as Hp by by apply Make_persistentState.
  injection Hp as Et Ev El Ei _.
  pose proof (Make_state env (npeers rf) (me rf) (Copy (persister rf))) as (_ & _ & _ & Er).
  pose proof (Make_commit env (npeers rf) (me rf) (Copy (persister rf))) as (Ec & Ea).
  fold rf' in Er, Ec, Ea. apply simulates_refl; [|by right].
  pose proof (wf_lii _ Hwf) as Hlii. destruct Hn as [Ncur Nview Ncom Ncd Nap _ _].
  split; rewrite ?Et, ?Ec, ?Ea, ?Ei; try done; try congruence.
  - by eapply view_ext.
  - lia.
  - eapply committed_prefix; [|done]. apply take_prefix_le. lia.
Qed.

(** ** A leader's goroutines *)

Lemma send_fact A i inc server term rf m :
  wf rf -> node_ok A i rf -> replicateTo_send server term rf = Some m ->
  Forall (thread_fact A) (replicateThread i inc term server m).
Proof.
  intros Hwf Hn Hs. destruct m as [|args|args]; simpl; [done| |]; apply Forall_singleton; simpl.
  - unfold replicateTo_send in Hs. case_match eqn:Hr; simplify_eq. b2p.
    apply bind_Some in Hs as (next & Hnext & Hs). case_match; simplify_eq.
    2:{ apply bind_Some in Hs as (t & _ & Hs). apply bind_Some in Hs as (es & _ & Hs). done. }
    destruct (no_leader _ _ _ Hn) as (ld & [Kl Ko Klog _ _ _]); [done|].
    split; [done|]. exists ld. pose proof (wf_lii _ Hwf). split; simpl; [done|lia| |].
    + rewrite Klog. apply view_dummy; [done|apply Hn].
    + rewrite Klog. eapply committed_prefix; [|apply Hn]. apply take_prefix_le. lia.
  - apply replicateTo_send_entries in Hs as (Hr & Et & Eterm & Ec & Hp & Ht & Hlen & Hent).
    destruct (no_leader _ _ _ Hn Hr) as (ld & [Kl Ko Klog _ _ _]).
    split; [done|]. exists ld. pose proof (no_view _ _ _ Hn) as Hv. pose proof (view_base _ _ Hv).
    pose proof (view_last _ _ Hv). pose proof (no_commit _ _ _ Hn).
    split; rewrite ?Eterm, ?Klog; [congruence|lia|by rewrite <- (view_term rf) by (done || lia)| |lia|].
    + assert (ae_Entries args = drop (S (Z.to_nat (ae_PrevLogIndex args))) (full A i)) as <-; [|done].
      apply list_eq. intros k. rewrite lookup_drop, Hent, (view_entry rf (full A i)) by (done || lia). f_equal. lia.
    + rewrite Ec, <- Et. apply Hn.
Qed.

(** A leader whose arrays and commit index moved. *)
Lemma leader_update A i rf rf' ld :
  node_ok A i rf -> role rf = Leader -> leader_ok A i rf' ld ->
  log rf' = log rf -> lastIncludedIndex rf' = lastIncludedIndex rf -> role rf' = Leader ->
  currentTerm rf' = currentTerm rf -> votedFor rf' = votedFor rf -> lastApplied rf' = lastApplied rf ->
  (commitIndex rf' = commitIndex rf \/ commitIndex rf <= commitIndex rf' < zlen (full A i) /\
   committed n A (currentTerm rf) (upTo (commitIndex rf') (full A i))) ->
  simulates A i rf A rf'.
Proof.
  intros [Ncur Nview Ncom Ncd Nap _ _] Hr Hk El Ei Er Et Ev Ea Hc. apply simulates_refl; [|by right].
  split; rewrite ?Et, ?Ea; try done; try congruence.
  - by eapply view_ext.
  - destruct Hc as [->|[? _]]; lia.
  - by destruct Hc as [->|[_ ?]].
  - destruct Hc as [->|[? _]]; lia.
  - eauto.
Qed.

(** The commit rule: [advanceCommit] counts acknowledgements. *)
Lemma advanceCommit_sim A i rf rf' ld :
  wf rf -> npeers rf = n -> me rf = i -> node_ok A i rf -> role rf = Leader -> leader_ok A i rf ld ->
  advanceCommit rf = Some rf' -> simulates A i rf A rf'.
Proof.
  intros Hwf En Em Hn Hr Hk Hs. unfold advanceCommit in Hs.
  apply advanceLoop_spec in Hs as [[-> _]|(m & Hm & [Ht Hmaj] & -> & _)]; [apply simulates_refl; [done|by right]| |apply Hwf].
  pose proof (no_view _ _ _ Hn) as Hv. pose proof (view_last _ _ Hv) as Hlast.
  pose proof (wf_lii _ Hwf) as Hlii. pose proof (no_commit _ _ _ Hn) as Hc.
  rewrite (view_term _ (full A i)) in Ht by (done || lia).
  pose proof Hk as [Kl Ko Klog Kself Km Kn].
  apply (leader_update A i rf _ ld); try done. right. simpl. unfold zlen in *.
  split; [lia|]. exists (currentTerm rf), (Z.to_nat m), ld. rewrite Klog. split_and!; try done.
  exists ld, (holders m rf). rewrite Klog. split_and!; try done.
  - split_and!; [apply NoDup_filter, NoDup_seqZ| |by rewrite <- En].
    intros s [_ Hs%elem_of_seqZ]%list_elem_of_filter. unfold peer. lia.
  - intros s [Hh _]%list_elem_of_filter. pose proof (lterm_lt _ _ _ Ht). destruct Hh as [->|Hh].
    + rewrite Em. lia.
    + unfold holds in Hh. destruct (matchIndex rf @! s) as [x|] eqn:Hx; [|done]. b2p.
      destruct (Km s x Hx) as [->|?]; lia.
Qed.

(** New values of the two arrays for one peer. *)
Lemma leader_arrays A i rf ld server m x matches nexts :
  leader_ok A i rf ld -> m = 0 \/ 0 < m < Z.of_nat (acks A server (currentTerm rf)) ->
  1 <= x <= zlen (full A i) ->
  go_update (matchIndex rf) server m = Some matches -> go_update (nextIndex rf) server x = Some nexts ->
  leader_ok A i (rf |> set_matchIndex matches |> set_nextIndex nexts) ld.
Proof.
  intros [Kl Ko Klog Kself Km Kn] Hm Hx Hum Hun. split; simpl; try done.
  - intros s y Hy. rewrite (go_update_index _ _ _ _ _ Hum) in Hy. case_match; b2p; simplify_eq; eauto.
  - intros s y Hy. rewrite (go_update_index _ _ _ _ _ Hun) in Hy. case_match; b2p; simplify_eq; eauto.
Qed.

Lemma acked_length A i rf ld s idx :
  ainv n A -> leader_ok A i rf ld -> 0 <= idx -> acked A s (currentTerm rf) idx -> idx < zlen (full A i).
Proof.
  intros Hi [Kl _ Klog _ _ _] H0 Ha. unfold acked in Ha.
  destruct (ai_acks _ _ Hi s (currentTerm rf)) as (ld' & Hl & Hlen & _); [lia|]. simplify_eq.
  rewrite <- Klog. unfold zlen. lia.
Qed.

Lemma append_reply_sim A i inc server term args reply rf rf' :
  ainv n A -> wf rf -> npeers rf = n -> me rf = i -> node_ok A i rf ->
  thread_fact A (TAppRep i inc term server args reply) ->
  replicateTo_append_reply server term args reply rf = Some rf' -> exists A', simulates A i rf A' rf'.
Proof.
  intros Hi Hwf En Em Hn (Ea & ldt & Hlt & Hprev & Hok & Hno) Hs. unfold replicateTo_append_reply in Hs.
  case_match eqn:Hr; [simplify_eq; exists A; apply simulates_refl; [done|by right]|]. b2p. assert (term = currentTerm rf) as -> by done.
  case_match; b2p; [simplify_eq; eexists; apply becomeFollower_sim; [done|lia]|]. exists A.
  destruct (no_leader _ _ _ Hn) as (ld & Hk); [done|]. pose proof Hk as [Kl Ko Klog Kself Km Kn].
  assert (ldt = ld) as -> by congruence.
  destruct (aer_Success reply).
  - apply bind_Some in Hs as (m & Hm & Hs). apply bind_Some in Hs as (rf1 & Hrf1 & Hs).
    specialize (Hok eq_refl). pose proof (zlen_nonneg (ae_Entries args)).
    assert (simulates A i rf A rf1 /\ wf rf1 /\ npeers rf1 = n /\ me rf1 = i /\ role rf1 = Leader /\ leader_ok A i rf1 ld)
      as (Hs1 & Hwf1 & En1 & Em1 & Hr1 & Hk1).
    { case_match; b2p; [|simplify_eq; split_and!; try done; apply simulates_refl; [done|by right]].
      apply bind_Some in Hrf1 as (ms & Hms & Hrf1). apply bind_Some in Hrf1 as (ns & Hns & Hrf1). simplify_eq.
      assert (leader_ok A (me rf) (rf |> set_matchIndex ms |> set_nextIndex ns) ld) as Hk1.
      { eapply leader_arrays; [done| | |exact Hms|exact Hns].
        - destruct (Km server m Hm) as [->|?]; right; unfold acked in Hok; lia.
        - assert (0 <= ae_PrevLogIndex args + zlen (ae_Entries args)) as Hnn by lia.
          pose proof (acked_length _ _ _ _ _ _ Hi Hk Hnn Hok). lia. }
      split_and!; try done.
      - eapply leader_update; try done. by left.
      - destruct (wf_arrays _ Hwf) as [Hl1 Hl2]; [done|]. eapply wf_frame; try done; simpl.
        + apply Hwf.
        + apply Hwf.
        + intros _. apply go_update_length in Hms, Hns. lia. }
    eapply simulates_trans; [done|]. eapply advanceCommit_sim; [exact Hwf1|done|done|apply Hs1|done|done|done].
  - apply bind_Some in Hs as (x & Hx & Hs). apply bind_Some in Hs as (x' & Hx' & Hs).
    apply bind_Some in Hs as (ns & Hns & Hs). simplify_eq.
    assert (1 <= x' <= zlen (full A (me rf))) as Hb.
    { pose proof (view_base _ _ (no_view _ _ _ Hn)) as Hbase. pose proof (view_last _ _ (no_view _ _ _ Hn)) as Hlast.
      specialize (Hno eq_refl ltac:(lia)). rewrite Klog in Hno. specialize (Kn server x Hx).
      unfold backupNext in Hx'. apply bind_Some in Hx' as (y & Hy & Hx'). injection Hx' as <-.
      assert (y <= zlen (full A (me rf))) as Hy'; [|case_match; b2p; lia].
      destruct (aer_ConflictTerm reply =? -1); [injection Hy as <-; destruct (_ >? 0); lia|].
      apply bind_Some in Hy as (z & Hz & Hy).
      destruct (lastOfTerm_total (aer_ConflictTerm reply) rf (Z.to_nat (lastLogIndex rf - lastIncludedIndex rf)))
        as (z' & Hz' & Hzb); [lia|lia|]. simplify_eq. destruct (_ >=? 0); lia. }
    eapply leader_update; try done; [|by left]. split; simpl; try done.
    intros s y Hy. rewrite (go_update_index _ _ _ _ _ Hns) in Hy. case_match; b2p; simplify_eq; eauto.
Qed.

Lemma snapshot_reply_sim A i inc server term args reply rf rf' :
  ainv n A -> wf rf -> node_ok A i rf -> thread_fact A (TSnapRep i inc term server args reply) ->
  replicateTo_snapshot_reply server term args reply rf = Some rf' -> exists A', simulates A i rf A' rf'.
Proof.
  intros Hi Hwf Hn (Ea & Hidx & Hok) Hs. unfold replicateTo_snapshot_reply in Hs.
  case_match eqn:Hr; [simplify_eq; exists A; apply simulates_refl; [done|by right]|]. b2p. assert (term = currentTerm rf) as -> by done.
  case_match; b2p; [simplify_eq; eexists; apply becomeFollower_sim; [done|lia]|]. exists A.
  destruct (no_leader _ _ _ Hn) as (ld & Hk); [done|]. pose proof Hk as [Kl Ko Klog Kself Km Kn].
  apply bind_Some in Hs as (m & Hm & Hs). apply bind_Some in Hs as (ms & Hms & Hs).
  apply bind_Some in Hs as (ns & Hns & Hs). simplify_eq. specialize (Hok ltac:(lia)).
  assert (acked A server (currentTerm rf) (Z.max m (is_LastIncludedIndex args))) as Hack.
  { destruct (Km server m Hm) as [->|?]; [rewrite Z.max_r by done; done|]. unfold acked in *. lia. }
  eapply leader_update; try done; [|by left]. eapply leader_arrays; [done| | |exact Hms|exact Hns].
  - destruct (decide (Z.max m (is_LastIncludedIndex args) = 0)); [by left|right]. unfold acked in Hack. lia.
  - pose proof (acked_length _ _ _ _ _ (Z.max m (is_LastIncludedIndex args)) Hi Hk ltac:(lia) Hack). lia.
Qed.

(** ** The simulation *)

Lemma rel_node A w w' i A' rf' :
  rel A w -> cstep n w w' -> peer n i -> (forall j, nodes w' j = upd (nodes w) i rf' j) ->
  rtc (astep n i) A A' -> election_inv n (voted A') w' -> node_ok A' i rf' ->
  Forall (thread_fact A') (threads w') ->
  (forall j m, delivering w' j = Some m -> delivering w j = Some m \/ msg_ok A' m) ->
  (forall j m, m ∈ applied w' j -> m ∈ applied w j \/ msg_ok A' m) ->
  rel A' w'.
Proof.
  intros [Hi Hb Hv Hn Ht Hd Ha] Hs Hp En Hst Hv' Hn' Ht' Hd' Ha'.
  destruct (asteps_inv n i A A' Hi Hst) as [Hi' Hg]. pose proof (asteps_local n i A A' Hst) as Hl.
  split; [done|by eapply base_inv_step|done| |done| |].
  - intros j Hj. rewrite En. upd_cases i j; [done|]. eapply node_ok_other; eauto.
  - intros j m Hm. destruct (Hd' j m Hm); eauto using msg_ok_mono.
  - intros j m Hm. destruct (Ha' j m Hm); eauto using msg_ok_mono.
Qed.

Lemma rel_sim A w w' i A' rf' :
  rel A w -> cstep n w w' -> peer n i -> (forall j, nodes w' j = upd (nodes w) i rf' j) ->
  simulates A i (nodes w i) A' rf' ->
  (grows A A' -> Forall (thread_fact A') (threads w')) ->
  (forall j m, delivering w' j = Some m -> delivering w j = Some m \/ msg_ok A' m) ->
  (forall j m, m ∈ applied w' j -> m ∈ applied w j \/ msg_ok A' m) ->
  rel A' w'.
Proof.
  intros Hr Hs Hp En [Hst Hn' Hv Hq] Ht Hd Ha. pose proof Hr as [Hi Hb Hv0 _ _ _ _].
  destruct (asteps_inv n i A A' Hi Hst) as [_ Hg].
  eapply rel_node; try done; [|by apply Ht]. rewrite Hv. by eapply votes_same.
Qed.

(** A goroutine is replaced by those it leaves behind. *)
Lemma threads_replace A A' ts1 t ts2 us :
  Forall (thread_fact A) (ts1 ++ t :: ts2) -> grows A A' -> Forall (thread_fact A') us ->
  Forall (thread_fact A') (ts1 ++ us ++ ts2).
Proof.
  intros [H1 [_ H2]%Forall_cons]%Forall_app Hg Hu. rewrite !Forall_app.
  split_and!; [by eapply threads_mono|done|by eapply threads_mono].
Qed.

Lemma threads_member A ts1 t ts2 : Forall (thread_fact A) (ts1 ++ t :: ts2) -> thread_fact A t.
Proof. by intros [_ [Ht _]%Forall_cons]%Forall_app. Qed.

Lemma broadcast_fact A i w rf : Forall (thread_fact A) (spawns i w (broadcastAppendEntries rf)).
Proof.
  apply Forall_forall. intros t (e & He & Ht)%list_elem_of_omap.
  apply list_elem_of_fmap in He as (p & -> & _). by simplify_eq/=.
Qed.

Lemma upd_self (f : Z -> Raft Cmd) i j : f j = upd f i (f i) j.
Proof. unfold upd. by case_decide; subst. Qed.

(** The steps in which the acting peer handles the message of goroutine [t]. *)
Lemma rel_message A w w' ts1 t ts2 us i A' rf' :
  rel A w -> cstep n w w' -> peer n i -> threads w = ts1 ++ t :: ts2 -> threads w' = ts1 ++ us ++ ts2 ->
  (forall j, nodes w' j = upd (nodes w) i rf' j) -> delivering w' = delivering w -> applied w' = applied w ->
  simulates A i (nodes w i) A' rf' -> (grows A A' -> Forall (thread_fact A') us) -> rel A' w'.
Proof.
  intros Hr Hs Hp Et Et' En Ed Ea Hsim Hu. eapply rel_sim; try done.
  - intros Hg. rewrite Et'. eapply threads_replace; [rewrite <- Et; apply Hr|done|auto].
  - rewrite Ed. auto.
  - rewrite Ea. auto.
Qed.

Lemma spawned_votes A i w eff :
  (forall s args, GoRequestVote s args ∈ eff -> stood A !! (i, rv_Term args) = Some (full A i) /\
     rv_LastLogIndex args = zlen (full A i) - 1 /\
     lterm (full A i) (length (full A i) - 1) = Some (rv_LastLogTerm args)) ->
  Forall (thread_fact A) (spawns i w eff).
Proof.
  intros Hf. apply Forall_forall. intros t (e & He & Ht)%list_elem_of_omap.
  destruct e; simplify_eq/=; [|done]. exists (full A i). eauto.
Qed.

(** A step that starts an election or grants a vote. *)
Lemma rel_vote A w w' i A' rf' :
  rel A w -> cstep n w w' -> peer n i -> (forall j, nodes w' j = upd (nodes w) i rf' j) ->
  delivering w' = delivering w -> applied w' = applied w ->
  rtc (astep n i) A A' -> node_ok A' i rf' -> votedFor rf' <> -1 ->
  voted A' = <[(i, currentTerm rf') := votedFor rf']> (voted A) ->
  (grows A A' -> Forall (thread_fact A') (threads w')) -> rel A' w'.
Proof.
  intros Hr Hs Hp En Ed Ea Hst Hn Hne Hv Ht. pose proof Hr as [Hi Hb Hv0 _ _ _ _].
  destruct (asteps_inv n i A A' Hi Hst) as [_ Hg].
  eapply rel_node; try done; [rewrite Hv; by eapply votes_new|auto| |].
  - rewrite Ed. auto.
  - rewrite Ea. auto.
Qed.

Lemma step_ticker A w env i rf' eff :
  rel A w -> peer n i -> ticker env (nodes w i) = Some (rf', eff) ->
  let w' := w |> setNode i rf'
              |> (fun w' => if currentTerm rf' =? currentTerm (nodes w i) then w'
                            else setVotes i (currentTerm rf') 1 w')
              |> setThreads (threads w ++ spawns i w eff) in
  exists A', rtc (astep n i) A A' /\ rel A' w'.
Proof.
  intros Hr Hp Hs w'. pose proof (lstep_cstep _ _ _ _ (cs_ticker n w env i rf' eff Hp Hs)) as Hstep. fold w' in Hstep.
  assert (forall j, nodes w' j = upd (nodes w) i rf' j) as En by (intros j; unfold w'; by case_match).
  assert (delivering w' = delivering w /\ applied w' = applied w) as [Ed Ea] by (unfold w'; by case_match).
  assert (threads w' = threads w ++ spawns i w eff) as Et by (unfold w'; by case_match).
  pose proof Hr as [Hi Hb Hv Hn Ht _ _].
  destruct (ticker_sim A i env (nodes w i) rf' eff) as [[-> ->]|(A' & Hst & Hn' & Hne & Hv' & Hreq)]; [done|auto| | |done|..].
  - by apply (bi_me _ _ Hb).
  - unfold peer in Hp. lia.
  - exists A. split; [done|]. eapply (rel_sim A w w' i A); try done; [| |by rewrite Ed; auto|by rewrite Ea; auto].
    + apply simulates_refl; [auto|by right].
    + intros _. rewrite Et. simpl. by rewrite app_nil_r.
  - exists A'. split; [done|]. eapply rel_vote; try done. intros Hg. rewrite Et.
    apply Forall_app. split; [by eapply threads_mono|by apply spawned_votes].
Qed.

Lemma step_vote_exec A w ts1 ts2 env i inc T server args rf' reply :
  rel A w -> threads w = ts1 ++ TVoteReq i inc T server args :: ts2 ->
  RequestVote env args (nodes w server) = Some (rf', reply) ->
  exists A', rtc (astep n server) A A' /\
    rel A' (w |> setNode server rf' |> setThreads (ts1 ++ TVoteRep i inc T server reply :: ts2)).
Proof.
  intros Hr Et Hs. pose proof (lstep_cstep _ _ _ _ (cs_vote_exec n w ts1 ts2 env i inc T server args rf' reply Et Hs)) as Hstep.
  pose proof Hr as [Hi Hb Hv Hn Ht _ _].
  assert (TVoteReq i inc T server args ∈ threads w) as Hin by (rewrite Et; apply elem_of_app; right; left).
  destruct (proj1 (Forall_forall _ _) (bi_threads _ _ Hb) _ Hin) as [Ho Htg]. simpl in Ho, Htg.
  destruct (ti_req _ _ _ _ (ei_threads _ _ _ Hv) _ _ _ _ _ Hin) as [ET EC].
  rewrite Et in Ht. destruct (threads_member _ _ _ _ Ht) as (l & Hst & Hidx & Hterm).
  destruct (RequestVote_sim A w server env args l rf' reply) as (A' & Hsim); try done; [auto| | |].
  - rewrite EC. unfold peer in Ho. lia.
  - by rewrite EC, ET.
  - exists A'. destruct Hsim as [Hsim|(Hst' & Hn' & Hne & Hv')].
    + split; [apply Hsim|]. eapply (rel_message _ _ _ ts1 _ ts2 [_]); try done. intros _. by apply Forall_singleton.
    + split; [done|]. eapply rel_vote; try done. intros Hg.
      eapply (threads_replace _ _ _ _ _ [_]); [done|done|]. by apply Forall_singleton.
Qed.

Lemma step_vote_reply A w ts1 ts2 i inc T server reply rf' v eff :
  rel A w -> threads w = ts1 ++ TVoteRep i inc T server reply :: ts2 -> incs w i = inc ->
  requestVote_reply T (votes w i T) reply (nodes w i) = (rf', v, eff) ->
  exists A', rtc (astep n i) A A' /\
    rel A' (w |> setNode i rf' |> setVotes i T v |> setThreads (ts1 ++ ts2 ++ spawns i w eff)).
Proof.
  intros Hr Et Hinc Hs. pose proof (lstep_cstep _ _ _ _ (cs_vote_reply n w ts1 ts2 i inc T server reply rf' v eff Et Hinc Hs)) as Hstep.
  pose proof Hr as [Hi Hb Hv Hn Ht _ _].
  assert (TVoteRep i inc T server reply ∈ threads w) as Hin by (rewrite Et; apply elem_of_app; right; left).
  destruct (proj1 (Forall_forall _ _) (bi_threads _ _ Hb) _ Hin) as [Ho _]. simpl in Ho.
  assert (votedFor rf' = -1 \/ votedFor rf' = votedFor (nodes w i) /\ currentTerm rf' = currentTerm (nodes w i)) as Hq.
  { unfold requestVote_reply, becomeLeader in Hs. repeat case_match; simplify_eq; auto. }
  pose proof (votes_same (voted A) _ _ i rf' Hb Hv Hstep ltac:(done) Hq) as Hv'.
  destruct (requestVote_reply_sim A i T (votes w i T) reply (nodes w i) rf' v eff) as (A' & Hsim); [done|auto| | | |done|].
  - rewrite <- (no_cur _ _ _ (Hn i Ho)). apply Hi.
  - intros Hl. pose proof (ei_leader _ _ _ Hv' i Ho) as He. simpl in He. rewrite upd_eq in He. auto.
  - apply candidate_term with (A := A) (i := i); auto.
  - exists A'. split; [apply Hsim|]. eapply rel_sim; try done; [|by auto|by auto].
    intros Hg. simpl. rewrite app_assoc. apply Forall_app. split.
    + rewrite Et in Ht. by apply (threads_replace A A' ts1 _ ts2 [] Ht Hg).
    + destruct (requestVote_reply_cases _ _ _ _ _ _ _ Hs)
        as [(_ & _ & ->)|(_ & _ & _ & _ & [[_ ->]|[_ ->]])]; [done|done|apply broadcast_fact].
Qed.

Lemma step_append_exec A w ts1 ts2 env i inc T server args rf' reply :
  rel A w -> threads w = ts1 ++ TAppReq i inc T server args :: ts2 ->
  AppendEntries env args (nodes w server) = Some (rf', reply) ->
  exists A', rtc (astep n server) A A' /\
    rel A' (w |> setNode server rf' |> setThreads (ts1 ++ TAppRep i inc T server args reply :: ts2)).
Proof.
  intros Hr Et Hs. pose proof (lstep_cstep _ _ _ _ (cs_append_exec n w ts1 ts2 env i inc T server args rf' reply Et Hs)) as Hstep.
  pose proof Hr as [Hi Hb Hv Hn Ht _ _].
  assert (TAppReq i inc T server args ∈ threads w) as Hin by (rewrite Et; apply elem_of_app; right; left).
  destruct (proj1 (Forall_forall _ _) (bi_threads _ _ Hb) _ Hin) as [_ Htg]. simpl in Htg.
  rewrite Et in Ht. destruct (threads_member _ _ _ _ Ht) as (<- & ld & Ha).
  destruct (AppendEntries_sim A server env args ld (nodes w server) rf' reply) as (A' & Hsim & Hok & Hno); [done|by apply (bi_wf _ _ Hb)|auto|done|done|].
  exists A'. split; [apply Hsim|]. eapply (rel_message _ _ _ ts1 _ ts2 [_]); try done.
  intros Hg. apply Forall_singleton. destruct (gr_lead _ _ Hg _ _ (ao_lead _ _ _ Ha)) as (ld' & Hl' & _ & _ & Hpre%prefix_length).
  split; [done|]. exists ld'. split_and!; [done|apply Ha|done|]. intros Hf Ht'. specialize (Hno Hf Ht'). unfold zlen in *. lia.
Qed.

Lemma step_snap_exec A w ts1 ts2 env i inc T server args rf' reply eff :
  rel A w -> threads w = ts1 ++ TSnapReq i inc T server args :: ts2 ->
  InstallSnapshot env args (nodes w server) = Some (rf', reply, eff) ->
  forall t, (t = TSnapRep i inc T server args reply /\ eff = [] \/
    exists msg, t = TSnapDeliver i inc T server (incs w server) args msg reply /\ eff = [SendApplyCh msg]) ->
  let w' := w |> setNode server rf' |> setThreads (ts1 ++ t :: ts2) in
  cstep n w w' -> exists A', rtc (astep n server) A A' /\ rel A' w'.
Proof.
  intros Hr Et Hs t Heff w' Hstep. pose proof Hr as [Hi Hb Hv Hn Ht _ _].
  assert (TSnapReq i inc T server args ∈ threads w) as Hin by (rewrite Et; apply elem_of_app; right; left).
  destruct (proj1 (Forall_forall _ _) (bi_threads _ _ Hb) _ Hin) as [_ Htg]. simpl in Htg.
  rewrite Et in Ht. destruct (threads_member _ _ _ _ Ht) as (<- & ld & Ha).
  destruct (InstallSnapshot_sim A server env args ld (nodes w server) rf' reply eff) as (A' & Hsim & Hack);
    [done|by apply (bi_wf _ _ Hb)|auto|done|done|].
  exists A'. split; [apply Hsim|]. eapply (rel_message _ _ w' ts1 _ ts2 [t]); try done.
  intros Hg. apply Forall_singleton. pose proof Ha as [Hl H0 Hterm Hcom].
  destruct Heff as [[-> _]|(msg & -> & ->)]; simpl; [done|]. split_and!; try done.
  unfold InstallSnapshot in Hs. case_match; simplify_eq; case_match; simplify_eq.
  apply bind_Some in Hs as (newLog & _ & Hs). simplify_eq. simpl.
  exists (is_Term args), (upTo (is_LastIncludedIndex args) (ld_log ld)).
  split_and!; [by eapply committed_mono|done|]. unfold upTo. rewrite lterm_take by lia. done.
Qed.

Lemma step_restart A w env i : rel A w -> peer n i -> rel A (restart env i w).
Proof.
  intros Hr Hp. pose proof (lstep_cstep _ _ _ _ (cs_restart n w env i Hp)) as Hstep. pose proof Hr as [Hi Hb Hv Hn Ht Hd Ha].
  eapply rel_sim; try done.
  - apply restart_sim; [by apply (bi_wf _ _ Hb)|by apply (bi_durable _ _ Hb)|auto].
  - intros j m. simpl. upd_cases i j; [done|auto].
  - intros j m. simpl. upd_cases i j; [by intros ?%not_elem_of_nil|auto].
Qed.

(** Every step of the cluster is matched by abstract steps of one peer. *)
Lemma rel_step A w w' : rel A w -> cstep n w w' -> exists i A', rtc (astep n i) A A' /\ rel A' w'.
Proof.
  intros Hr Hs. pose proof Hs as Hstep. pose proof Hr as [Hi Hb Hv Hn Ht Hd Ha].
  assert (forall t, t ∈ threads w -> peer n (owner t) /\ peer n (target t)) as Hok
    by apply (proj1 (Forall_forall _ _) (bi_threads _ _ Hb)).
  assert (forall ts1 t ts2, threads w = ts1 ++ t :: ts2 -> peer n (owner t)) as Hown.
  { intros ts1 t ts2 E. apply Hok. rewrite E. apply elem_of_app. right. left. }
  destruct Hs as [lb Hs]. destruct Hs as [env i rf' eff Hp Hs|i Hp|i cmd rf' r eff Hp Hs|i index snap rf' Hp Hx Hs
    |i rf' Hp Hdel Hs|i rf' msg Hp Hdel Hs|i msg Hp Hdel
    |ts1 ts2 i inc server term m E Hinc Hs|ts1 ts2 env i inc term server args rf' reply E Hs
    |ts1 ts2 i inc term server reply rf' v eff E Hinc Hs
    |ts1 ts2 env i inc term server args rf' reply E Hs
    |ts1 ts2 i inc term server args reply rf' E Hinc Hs
    |ts1 ts2 env i inc term server args rf' reply E Hs
    |ts1 ts2 env i inc term server args rf' reply msg E Hs|ts1 ts2 i inc term server args msg reply E
    |ts1 ts2 i inc term server args reply rf' E Hinc Hs|ts1 ts2 t E Hrpc|env i Hp];
    try (pose proof (Hown _ _ _ E) as Ho; simpl in Ho).
  - exists i. by eapply step_ticker.
  - exists i, A. split; [done|]. eapply (rel_sim _ _ _ i _ (nodes w i)); try done; [apply upd_self| | |auto|auto].
    + apply simulates_refl; [auto|by right].
    + intros _. simpl. apply Forall_app. split; [done|]. unfold heartbeatLoop. case_match; [apply broadcast_fact|done].
  - destruct (Start_sim A i cmd (nodes w i) rf' r eff Hi (Hn i Hp) Hs) as (A' & Hsim).
    exists i, A'. split; [apply Hsim|]. eapply rel_sim; try done; [|auto|auto].
    intros Hg. simpl. apply Forall_app. split; [by eapply threads_mono|].
    unfold Start in Hs. case_match; simplify_eq; [done|apply broadcast_fact].
  - exists i, A. split; [done|]. eapply rel_sim; try done; [by eapply Snapshot_sim; [auto|]|auto|auto].
  - exists i, A. split; [done|]. eapply rel_sim; try done; [by eapply applier_sim; [auto|]|auto|auto].
  - destruct (applier_sim A i (nodes w i) rf' _ (Hn i Hp) Hs) as [Hsim Hmsg].
    exists i, A. split; [done|]. eapply rel_sim; try done; [|auto].
    intros j m. simpl. upd_cases i j; [|auto]. intros [= <-]. right. apply Hmsg. left.
  - exists i, A. split; [done|]. eapply (rel_sim _ _ _ i _ (nodes w i)); try done; [apply upd_self| | |].
    + apply simulates_refl; [auto|by right].
    + intros j m. simpl. upd_cases i j; [done|auto].
    + intros j m. simpl. upd_cases i j; [|auto]. rewrite elem_of_snoc. intros [?| ->]; [auto|right]. by eapply Hd.
  - exists i, A. split; [done|]. eapply (rel_message _ _ _ ts1 _ ts2 _ i _ (nodes w i)); try done; [apply upd_self| |].
    + apply simulates_refl; [auto|by right].
    + intros _. eapply send_fact; [by apply (bi_wf _ _ Hb)|auto|done].
  - exists server. by eapply step_vote_exec.
  - exists i. by eapply step_vote_reply.
  - exists server. by eapply step_append_exec.
  - destruct (append_reply_sim A i inc server term args reply (nodes w i) rf') as (A' & Hsim); try done; [| | |auto| |].
    + by apply (bi_wf _ _ Hb).
    + by apply (bi_npeers _ _ Hb).
    + by apply (bi_me _ _ Hb).
    + rewrite E in Ht. by eapply threads_member.
    + exists i, A'. split; [apply Hsim|]. by eapply (rel_message _ _ _ ts1 _ ts2 []).
  - exists server. eapply step_snap_exec; try done. by left.
  - exists server. eapply step_snap_exec; try done. right. eauto.
  - rewrite E in Ht. destruct (threads_member _ _ _ _ Ht) as (ET & Hm & H0 & Hack).
    exists i, A. split; [done|]. eapply (rel_sim _ _ _ i _ (nodes w i)); try done; [apply upd_self| | |auto|].
    + apply simulates_refl; [auto|by right].
    + intros Hg. eapply (threads_replace _ _ _ _ _ [_]); [done|done|]. by apply Forall_singleton.
    + intros j m. simpl. upd_cases server j; [|auto]. rewrite elem_of_snoc. intros [?| ->]; auto.
  - destruct (snapshot_reply_sim A i inc server term args reply (nodes w i) rf') as (A' & Hsim); try done; [|auto| |].
    + by apply (bi_wf _ _ Hb).
    + rewrite E in Ht. by eapply threads_member.
    + exists i, A'. split; [apply Hsim|]. by eapply (rel_message _ _ _ ts1 _ ts2 []).
  - exists (owner t), A. split; [done|].
    eapply (rel_message _ _ _ ts1 _ ts2 [] (owner t) _ (nodes w (owner t))); try done; [apply upd_self| ].
    apply simulates_refl; [auto|by right].
  - exists i, A. split; [done|]. by apply step_restart.
Qed.

Lemma rel_init envs : rel ainit (cinit n envs).
Proof.
  split; simpl; try done.
  - apply ainv_init.
  - apply base_inv_init.
  - apply election_inv_init.
  - intros i Hp. split; simpl; try done.
    + split; [done|]. by exists (mkEntry 0 None).
    + exists 0, 0%nat, (mkLead (-1) [] (dummyLog Cmd)). split_and!; [done| |apply lookup_singleton_eq|done].
      exists (mkLead (-1) [] (dummyLog Cmd)), (seqZ 0 (Z.of_nat n)).
      split; [apply lookup_singleton_eq|]. split; [done|]. split; [|intros s _; simpl; lia].
      split_and!; [apply NoDup_seqZ|by intros s Hs%elem_of_seqZ; unfold peer; lia|].
      unfold zlen. rewrite length_seqZ. unfold peer in Hp. lia_div.
  - by intros i m ?%not_elem_of_nil.
Qed.

End refinement.
