(* ===== verification/RaftSafety.v ===== *)
(** * Safety of the Raft cluster

    What the refinement of [RaftRefinement] gives for the running peers: log
    matching, leader completeness, state machine safety, and that no critical section
    of a peer ever indexes out of range. *)

From S2P Require Import Prelude Persister Raft RaftCodec RaftLocal RaftReplication RaftCluster RaftRun RaftElection RaftAbstract RaftRefinement.

Section safety.
Context {Cmd : Type} `{StateCodec Cmd} `{!StateCodecOk Cmd} (n : nat).
Implicit Types (rf : Raft Cmd) (w : Cluster (Cmd := Cmd)) (A : @Spec Cmd).

(** A step of some peer of the abstract protocol. *)
Definition asome A A' : Prop := exists i, astep n i A A'.

Lemma asome_steps i A A' : rtc (astep n i) A A' -> rtc asome A A'.
Proof. intros Hs. eapply rtc_subrel; [|done]. intros A1 A2 Hs'. by exists i. Qed.

Lemma asome_grows A A' : ainv n A -> rtc asome A A' -> grows A A'.
Proof.
  intros Hi Hs. induction Hs as [|A1 A2 A3 [i H12] H23 IH]; [apply grows_refl|].
  eapply grows_trans; [by eapply grows_step|]. apply IH. by eapply ainv_step.
Qed.

Lemma rel_steps A w w' :
  rel n A w -> rtc (cstep n) w w' -> exists A', rtc asome A A' /\ rel n A' w'.
Proof.
  intros Hr Hs. revert A Hr. induction Hs as [|w1 w2 w3 H12 H23 IH]; intros A Hr; [by exists A|].
  destruct (rel_step n A w1 w2 Hr H12) as (i & A2 & Hs2 & Hr2).
  destruct (IH A2 Hr2) as (A3 & Hs3 & Hr3). exists A3. split; [|done].
  etrans; [by eapply asome_steps|done].
Qed.

Lemma rel_reachable w : creachable n w -> exists A, rtc asome ainit A /\ rel n A w.
Proof. intros [envs Hs]. eapply rel_steps; [apply rel_init|done]. Qed.

(** Two moments of a run. *)
Lemma rel_run w1 w2 :
  creachable n w1 -> rtc (cstep n) w1 w2 ->
  exists A1 A2, rel n A1 w1 /\ rel n A2 w2 /\ grows A1 A2.
Proof.
  intros (A1 & _ & Hr1)%rel_reachable Hs. destruct (rel_steps A1 w1 w2 Hr1 Hs) as (A2 & Hs2 & Hr2).
  exists A1, A2. split_and!; [done..|]. eapply asome_grows; [|done]. apply Hr1.
Qed.

(** ** Theorems *)

(** C3. The cluster refines the abstract protocol: in every state it can reach, through
    losses, delays, crashes and snapshots, there is a state of the protocol, reached by
    its own steps, with the same terms and votes; the log of each peer is the end of its
    whole log there; what it takes for committed is committed there; and a leader's log
    is the protocol's log of that leader. *)
Theorem raft_refines w :
  creachable n w ->
  exists A, rtc asome ainit A /\ forall i, peer n i -> let rf := nodes w i in
    cur A i = currentTerm rf /\ view rf (full A i) /\
    (votedFor rf <> -1 -> voted A !! (i, currentTerm rf) = Some (votedFor rf)) /\
    committed n A (currentTerm rf) (upTo (commitIndex rf) (full A i)) /\
    (role rf = Leader -> exists ld, lead A !! currentTerm rf = Some ld /\ ld_owner ld = i /\
       ld_log ld = full A i).
Proof.
  intros (A & Hs & [_ _ Hv Hn _ _ _])%rel_reachable. exists A. split; [done|]. intros i Hi rf.
  destruct (Hn i Hi) as [Ncur Nview _ Ncd _ _ Nlead]. split_and!; [done|done| |done|].
  - by apply (ei_now _ _ _ Hv).
  - intros Hr. destruct (Nlead Hr) as (ld & [Kl Ko Klog _ _ _]). eauto.
Qed.

(** Two commands given for the same index are the same. *)
Lemma msg_ok_agree A c c' idx :
  ainv n A -> msg_ok n A (CommandMsg c idx) -> msg_ok n A (CommandMsg c' idx) -> c = c'.
Proof.
  intros Hi (t & l & e & Hc & _ & He & <-) (t' & l' & e' & Hc' & _ & He' & <-). f_equal.
  destruct (committed_agree n _ _ _ _ _ Hi Hc Hc') as [Hp|Hp].
  - pose proof (prefix_lookup_Some _ _ _ _ He Hp). congruence.
  - pose proof (prefix_lookup_Some _ _ _ _ He' Hp). congruence.
Qed.

(** C1. State machine safety: no two peers, or one peer before and after a crash, ever
    give the service different commands for the same index. *)
Theorem state_machine_safety w1 w2 i j c c' idx :
  creachable n w1 -> rtc (cstep n) w1 w2 ->
  CommandMsg c idx ∈ applied w1 i -> CommandMsg c' idx ∈ applied w2 j -> c = c'.
Proof.
  intros Hr Hs Hm Hm'. destruct (rel_run w1 w2 Hr Hs) as (A1 & A2 & Hr1 & Hr2 & Hg).
  eapply (msg_ok_agree A2 c c' idx); [apply Hr2|eapply msg_ok_mono; [done|]; by eapply (rl_received _ _ _ Hr1)|].
  by eapply (rl_received _ _ _ Hr2).
Qed.

(** C16. Log matching: if the logs of two peers have the same term at an index, they hold
    the same entries at every index up to it that both still have. *)
Theorem log_matching w i j idx t :
  creachable n w -> peer n i -> peer n j ->
  termAt (nodes w i) idx = Some t -> termAt (nodes w j) idx = Some t ->
  forall k, lastIncludedIndex (nodes w i) < k <= idx -> lastIncludedIndex (nodes w j) < k ->
  entryAt (nodes w i) k = entryAt (nodes w j) k.
Proof.
  intros (A & _ & [Hi _ _ Hn _ _ _])%rel_reachable Hpi Hpj Ht Ht' k Hk Hk'.
  pose proof (no_view _ _ _ _ (Hn i Hpi)) as Hv. pose proof (no_view _ _ _ _ (Hn j Hpj)) as Hv'.
  pose proof (view_base _ _ Hv).
  rewrite (view_term _ (full A i)) in Ht by (done || lia). rewrite (view_term _ (full A j)) in Ht' by (done || lia).
  rewrite (view_entry _ (full A i)), (view_entry _ (full A j)) by (done || lia).
  destruct (ai_full _ _ Hi i) as [Hp _], (ai_full _ _ Hi j) as [Hp' _].
  pose proof (prov_agree _ _ _ _ _ Hp Hp' Ht Ht') as E.
  rewrite <- (lookup_take_lt _ (S (Z.to_nat idx))), E, lookup_take_lt by lia. done.
Qed.

(** C14. Leader completeness: an entry a peer knows to be committed is in the log of every
    leader of its term or a later one, from then on. *)
Theorem leader_completeness w1 w2 i j idx :
  creachable n w1 -> rtc (cstep n) w1 w2 -> peer n i -> peer n j ->
  lastIncludedIndex (nodes w1 i) < idx <= commitIndex (nodes w1 i) ->
  role (nodes w2 j) = Leader -> currentTerm (nodes w1 i) <= currentTerm (nodes w2 j) ->
  lastIncludedIndex (nodes w2 j) < idx ->
  exists e, entryAt (nodes w1 i) idx = Some e /\ entryAt (nodes w2 j) idx = Some e.
Proof.
  intros Hr Hs Hpi Hpj Hidx Hl HT Hlj. destruct (rel_run w1 w2 Hr Hs) as (A1 & A2 & Hr1 & Hr2 & Hg).
  pose proof (rl_nodes _ _ _ Hr1 i Hpi) as Hni. pose proof (rl_nodes _ _ _ Hr2 j Hpj) as Hnj.
  destruct (no_leader _ _ _ _ Hnj Hl) as (ld & [Kl Ko Klog _ _ _]).
  pose proof (no_view _ _ _ _ Hni) as Hv. pose proof (no_view _ _ _ _ Hnj) as Hv'.
  pose proof (view_base _ _ Hv). pose proof (no_commit _ _ _ _ Hni) as Hc. unfold zlen in Hc.
  pose proof (no_committed _ _ _ _ Hni) as Hcom. apply (committed_mono n _ _ _ _ Hg) in Hcom.
  pose proof (committed_lead n _ _ _ _ _ (rl_inv _ _ _ Hr2) Hcom HT Kl) as Hp. rewrite Klog in Hp.
  destruct (lookup_lt_is_Some_2 (full A1 i) (Z.to_nat idx)) as [e He]; [lia|]. exists e.
  rewrite (view_entry _ (full A1 i)), (view_entry _ (full A2 j)) by (done || lia). split; [done|].
  eapply prefix_lookup_Some; [|done]. unfold upTo. by rewrite lookup_take_lt by lia.
Qed.

Lemma send_total A i server term rf :
  wf rf -> npeers rf = n -> node_ok n A i rf -> peer n server ->
  is_Some (replicateTo_send server term rf).
Proof.
  intros Hwf En Hn Hs. unfold replicateTo_send. destruct (negb _ || negb _) eqn:Hr; [eauto|]. b2p.
  destruct (wf_arrays _ Hwf) as [Hlen _]; [done|].
  destruct (no_leader _ _ _ _ Hn) as (ld & [_ _ _ _ _ Kn]); [done|].
  destruct (go_index_in_range (nextIndex rf) server) as [x Hx]; [unfold zlen, peer in *; lia|].
  rewrite Hx. simpl. specialize (Kn server x Hx). destruct (Z.leb_spec x (lastIncludedIndex rf)); [eauto|].
  pose proof (view_last _ _ (no_view _ _ _ _ Hn)) as Hlast.
  destruct (termAt_in_range rf (x - 1)) as [t ->]; [lia|]. simpl.
  rewrite go_slice_from_Some by (unfold lastLogIndex in *; lia). simpl. eauto.
Qed.

(** C33. A peer of a cluster never crashes: the applier, the service's snapshots and what a
    leader reads to replicate its log find every index they use in the log. *)
Theorem cluster_total w i :
  creachable n w -> peer n i ->
  is_Some (applier (nodes w i)) /\
  (forall index snap, is_Some (Snapshot index snap (nodes w i))) /\
  (forall server term, peer n server -> is_Some (replicateTo_send server term (nodes w i))).
Proof.
  intros (A & _ & [Hi Hb _ Hn _ _ _])%rel_reachable Hp. specialize (Hn i Hp).
  pose proof (bi_wf _ _ Hb i Hp) as Hwf. pose proof (no_commit _ _ _ _ Hn) as Hc.
  pose proof (view_last _ _ (no_view _ _ _ _ Hn)) as Hlast. split_and!.
  - unfold applier. destruct (_ && _) eqn:Hg; [|eauto]. b2p. simpl. case_match; [eauto|]. b2p.
    destruct (termAt_in_range (nodes w i) (lastApplied (nodes w i) + 1)) as [t Ht]; [lia|].
    apply termAt_entryAt in Ht as (e & He & _).
    change (entryAt (set_lastApplied _ (nodes w i)) _) with (entryAt (nodes w i) (lastApplied (nodes w i) + 1)).
    rewrite He. simpl. eauto.
  - intros index snap. unfold Snapshot. destruct (_ || _) eqn:Hg; [eauto|]. b2p.
    destruct (termAt_in_range (nodes w i) index) as [t ->]; [lia|]. simpl.
    rewrite go_slice_from_Some by (unfold lastLogIndex in *; lia). simpl. eauto.
  - intros server term Hs. eapply send_total; [done|by apply (bi_npeers _ _ Hb)|done|done].
Qed.

(** C15. The indices of a peer in a cluster are in order: the snapshot does not pass what is
    applied, nor that what is committed, nor that the log; the log starts with the entry
    of the snapshot; a leader's [nextIndex] points into or just past its log, and its
    [matchIndex] does not pass the end. *)
Theorem cluster_wf w i :
  creachable n w -> peer n i -> let rf := nodes w i in
  0 <= lastIncludedIndex rf <= lastApplied rf /\ lastApplied rf <= commitIndex rf <= lastLogIndex rf /\
  termAt rf (lastIncludedIndex rf) = Some (lastIncludedTerm rf) /\ 0 <= currentTerm rf /\
  (role rf = Leader ->
    length (nextIndex rf) = n /\ length (matchIndex rf) = n /\
    (forall s x, nextIndex rf @! s = Some x -> 1 <= x <= lastLogIndex rf + 1) /\
    (forall s m, matchIndex rf @! s = Some m -> 0 <= m <= lastLogIndex rf)).
Proof.
  intros (A & _ & [Hi Hb _ Hn _ _ _])%rel_reachable Hp rf. specialize (Hn i Hp).
  pose proof (bi_wf _ _ Hb i Hp) as Hwf. pose proof (no_commit _ _ _ _ Hn) as Hc.
  pose proof (no_view _ _ _ _ Hn) as Hv. pose proof (view_last _ _ Hv) as Hlast. fold rf in Hwf, Hc, Hv, Hlast.
  pose proof (no_applied _ _ _ _ Hn) as Ha. pose proof (wf_lii _ Hwf). pose proof (wf_applied _ Hwf). fold rf in Ha.
  split; [lia|]. split; [lia|]. split; [rewrite (view_term rf (full A i)); [by apply view_dummy|done|lia]|].
  split; [unfold rf; rewrite <- (no_cur _ _ _ _ Hn); apply Hi|].
  intros Hr. destruct (wf_arrays _ Hwf Hr) as [-> ->]. unfold rf at 1 2. rewrite (bi_npeers _ _ Hb) by done.
  split; [done|]. split; [done|]. destruct (no_leader _ _ _ _ Hn Hr) as (ld & Hk).
  pose proof Hk as [_ _ _ _ Km Kn]. split.
  - intros s x Hx. specialize (Kn s x Hx). lia.
  - intros s m Hm. destruct (Km s m Hm) as [->|Hpos]; [lia|].
    assert (acked A s (currentTerm rf) m) as Hack by (unfold acked, rf; lia).
    pose proof (acked_length n A i rf ld s m Hi Hk ltac:(lia) Hack). lia.
Qed.

End safety.

(** ** Example *)

(** After peer 0 committed a command, peer 1 learns of it, applies it and is elected
    leader of term 2 by the vote of peer 2. *)
Definition laterEnv : Env := mkEnv 11000000000 5.
Definition demoSuccession : list (Event (Cmd := Z)) :=
  [EvThread lateEnv 2; EvThread lateEnv 2; EvApplier 1; EvDeliver 1; EvTick laterEnv 1;
   EvThread laterEnv 5; EvThread laterEnv 5].
Definition demoSucceeded : Cluster (Cmd := Z) :=
  default demoCommitted (run 3 demoSuccession demoCommitted).

Lemma demoCommitted_reachable : creachable 3 demoCommitted.
Proof.
  exists (fun _ => demoEnv). apply (run_sound 3 (demoElection ++ demoCommit)). vm_compute. reflexivity.
Qed.

Lemma demoSuccession_steps : rtc (cstep 3) demoCommitted demoSucceeded.
Proof. apply (run_sound 3 demoSuccession). vm_compute. reflexivity. Qed.

Lemma demoSucceeded_reachable : creachable 3 demoSucceeded.
Proof.
  destruct demoCommitted_reachable as [envs Hs]. exists envs. etrans; [exact Hs|exact demoSuccession_steps].
Qed.

Lemma raft_refines_witness :
  creachable 3 demoSucceeded /\
  exists A, rtc (asome 3) ainit A /\ cur A 1 = 2 /\ view (nodes demoSucceeded 1) (full A 1).
Proof.
  split; [exact demoSucceeded_reachable|].
  destruct (raft_refines 3 demoSucceeded demoSucceeded_reachable) as (A & Hs & Hn).
  exists A. split; [exact Hs|]. destruct (Hn 1 ltac:(split; lia)) as (Hc & Hv & _).
  split; [rewrite Hc; vm_compute; reflexivity|exact Hv].
Defined.

Lemma state_machine_safety_witness :
  applied demoCommitted 0 = [CommandMsg (Some 42) 1] /\ applied demoSucceeded 1 = [CommandMsg (Some 42) 1] /\
  forall c, CommandMsg c 1 ∈ applied demoSucceeded 1 -> Some 42 = c.
Proof.
  split; [vm_compute; reflexivity|]. split; [vm_compute; reflexivity|]. intros c Hc.
  apply (state_machine_safety 3 demoCommitted demoSucceeded 0 1 (Some 42) c 1);
    [exact demoCommitted_reachable|exact demoSuccession_steps| |exact Hc].
  replace (applied demoCommitted 0) with [CommandMsg (Some 42) 1] by (vm_compute; reflexivity). left.
Defined.

Lemma log_matching_witness :
  termAt (nodes demoSucceeded 0) 1 = Some 1 /\
  entryAt (nodes demoSucceeded 0) 1 = entryAt (nodes demoSucceeded 1) 1.
Proof.
  split; [vm_compute; reflexivity|].
  apply (log_matching 3 demoSucceeded 0 1 1 1); [exact demoSucceeded_reachable|split; lia|split; lia|..];
    vm_compute; try reflexivity. split; [reflexivity|discriminate].
Defined.

Lemma leader_completeness_witness :
  role (nodes demoSucceeded 1) = Leader /\ commitIndex (nodes demoCommitted 0) = 1 /\
  exists e, entryAt (nodes demoCommitted 0) 1 = Some e /\ entryAt (nodes demoSucceeded 1) 1 = Some e.
Proof.
  split; [vm_compute; reflexivity|]. split; [vm_compute; reflexivity|].
  apply (leader_completeness 3 demoCommitted demoSucceeded 0 1 1);
    [exact demoCommitted_reachable|exact demoSuccession_steps|split; lia|split; lia|..];
    vm_compute; try reflexivity; [split; [reflexivity|discriminate]|discriminate].
Defined.

Lemma cluster_total_witness :
  creachable 3 demoSucceeded /\ is_Some (replicateTo_send 0 2 (nodes demoSucceeded 1)).
Proof.
  split; [exact demoSucceeded_reachable|].
  exact (proj2 (proj2 (cluster_total 3 demoSucceeded 1 demoSucceeded_reachable ltac:(split; lia))) 0 2 ltac:(split; lia)).
Defined.

Lemma cluster_wf_witness :
  role (nodes demoSucceeded 1) = Leader /\ matchIndex (nodes demoSucceeded 1) = [0; 0; 0] /\
  forall s x, nextIndex (nodes demoSucceeded 1) @! s = Some x -> 1 <= x <= 2.
Proof.
  split; [vm_compute; reflexivity|]. split; [vm_compute; reflexivity|].
  exact (proj1 (proj2 (proj2 (proj2 (proj2 (proj2 (proj2
    (cluster_wf 3 demoSucceeded 1 demoSucceeded_reachable ltac:(split; lia))))) ltac:(vm_compute; reflexivity))))).
Defined.
