(* ===== verification/RaftDelivery.v ===== *)
(** * What Raft delivers to the service above it

    The contract between [raft.go] and the three services built on it.  A service is told
    of commands and snapshots through [applyCh]; it submits commands with [Start] and hands
    over snapshots with [Snapshot].  Provided its snapshots are snapshots of the commands
    it was told of, every peer is told of one and the same sequence of commands, in order
    and without gaps, each of which was submitted; and a snapshot that arrives stands for a
    prefix of that sequence.  One order of events has to be excluded: [InstallSnapshot]
    gives up its lock before it sends the snapshot, and must not be overtaken by the
    applier ([KvRaftDelivery] runs a cluster into that order). *)

From S2P Require Import Prelude Persister Raft RaftCodec RaftLocal RaftReplication RaftCluster RaftRun RaftElection RaftAbstract RaftRefinement RaftSafety.

(** ** What a critical section leaves alone *)

Section keeps.
Context {Cmd : Type} `{StateCodec Cmd}.
Implicit Types (rf : Raft Cmd) (E : list (LogEntry Cmd)).

(** The entries a log really holds: the first one stands for the snapshot. *)
Definition entriesOf rf : list (LogEntry Cmd) := tail (log rf).

Lemma elem_of_drop_tail {X} (l : list X) k e : (0 < k)%nat -> e ∈ drop k l -> e ∈ tail l.
Proof. destruct k; [lia|]. intros _. destruct l; simpl; [done|]. by apply subseteq_drop. Qed.

(** [rf'] has the snapshot and the applied index of [rf], and no entries but those of
    [rf] and [E]. *)
Record keeps E rf rf' : Prop := {
  kp_lii : lastIncludedIndex rf' = lastIncludedIndex rf;
  kp_snap : ReadSnapshot (persister rf') = ReadSnapshot (persister rf);
  kp_applied : lastApplied rf' = lastApplied rf;
  kp_log : forall e, e ∈ entriesOf rf' -> e ∈ entriesOf rf \/ e ∈ E;
}.

Lemma keeps_same rf rf' :
  lastIncludedIndex rf' = lastIncludedIndex rf ->
  ReadSnapshot (persister rf') = ReadSnapshot (persister rf) ->
  lastApplied rf' = lastApplied rf -> log rf' = log rf -> keeps [] rf rf'.
Proof. intros ? ? ? El. split; try done. unfold entriesOf. rewrite El. auto. Qed.

Lemma keeps_refl rf : keeps [] rf rf.
Proof. by apply keeps_same. Qed.

Lemma keeps_trans E rf1 rf2 rf3 : keeps [] rf1 rf2 -> keeps E rf2 rf3 -> keeps E rf1 rf3.
Proof.
  intros [? ? ? Hl] [? ? ? Hl']. split; try congruence. intros e [He|He]%Hl'; [|by right].
  apply Hl in He as [He|He%not_elem_of_nil]; [by left|done].
Qed.

Lemma observeTerm_keeps t rf : keeps [] rf (observeTerm t rf).
Proof. unfold observeTerm. by case_match; apply keeps_same. Qed.

Lemma heard_keeps env t rf : keeps [] rf (heard env t rf).
Proof. eapply keeps_trans; [apply observeTerm_keeps|]. by apply keeps_same. Qed.

Lemma RequestVote_keeps env args rf rf' reply :
  RequestVote env args rf = Some (rf', reply) -> keeps [] rf rf'.
Proof.
  unfold RequestVote. intros Hs. case_match; simplify_eq; [apply keeps_refl|].
  bind_all. case_match; simplify_eq; (eapply keeps_trans; [apply observeTerm_keeps|]); by apply keeps_same.
Qed.

Lemma ticker_keeps env rf rf' eff : ticker env rf = Some (rf', eff) -> keeps [] rf rf'.
Proof.
  unfold ticker, startElection. intros Hs. case_match; [|simplify_eq; apply keeps_refl].
  bind_all. by apply keeps_same.
Qed.

Lemma requestVote_reply_keeps T v reply rf rf' v' eff :
  requestVote_reply T v reply rf = (rf', v', eff) -> keeps [] rf rf'.
Proof.
  unfold requestVote_reply, becomeLeader. intros Hs.
  repeat case_match; simplify_eq; by apply keeps_same.
Qed.

Lemma Start_keeps cmd rf rf' r eff :
  wf rf -> Start cmd rf = (rf', r, eff) ->
  r.2 = false /\ rf' = rf \/ r.2 = true /\ keeps [mkEntry (currentTerm rf) cmd] rf rf'.
Proof.
  unfold Start. intros Hwf%wf_log Hs. case_match; simplify_eq; [by left|right]. split; [done|].
  split; try done. intros e. unfold entriesOf. simpl. destruct (log rf) as [|d l]; [done|].
  simpl. intros [?|?]%elem_of_app; auto.
Qed.

Lemma advanceLoop_keeps rf d rf' : advanceLoop rf d = Some rf' -> keeps [] rf rf'.
Proof.
  induction d as [|d IH]; cbn [advanceLoop]; intros Hs; [simplify_eq; apply keeps_refl|].
  apply bind_Some in Hs as (t & _ & Hs). case_match; [auto|].
  apply bind_Some in Hs as (c & _ & Hs). case_match; [|auto]. simplify_eq. by apply keeps_same.
Qed.

Lemma append_reply_keeps server T args reply rf rf' :
  replicateTo_append_reply server T args reply rf = Some rf' -> keeps [] rf rf'.
Proof.
  unfold replicateTo_append_reply. intros Hs.
  case_match; [simplify_eq; apply keeps_refl|]. case_match; [simplify_eq; by apply keeps_same|].
  case_match.
  - apply bind_Some in Hs as (m & _ & Hs). apply bind_Some in Hs as (rf1 & Hrf1 & Hs).
    apply advanceLoop_keeps in Hs. eapply keeps_trans; [|done].
    case_match; [|simplify_eq; apply keeps_refl]. bind_all. by apply keeps_same.
  - bind_all. by apply keeps_same.
Qed.

Lemma snapshot_reply_keeps server T args reply rf rf' :
  replicateTo_snapshot_reply server T args reply rf = Some rf' -> keeps [] rf rf'.
Proof.
  unfold replicateTo_snapshot_reply. intros Hs.
  case_match; [simplify_eq; apply keeps_refl|]. case_match; [simplify_eq; by apply keeps_same|].
  bind_all. by apply keeps_same.
Qed.

Lemma appendLoop_entries rf idx es l e :
  wf rf -> lastIncludedIndex rf < idx <= lastLogIndex rf + 1 ->
  appendLoop rf idx es = Some l -> e ∈ tail l -> e ∈ tail (log rf) \/ e ∈ es.
Proof.
  intros Hwf Hidx Hl He. destruct (appendLoop_spec rf idx es Hidx) as (l' & Hl' & Hs).
  rewrite Hl in Hl'. simplify_eq. destruct Hs as [->|(k & j & Hk & ->)]; [by left|].
  apply wf_log in Hwf. destruct (log rf) as [|d lg]; [done|]. destruct k as [|k]; [lia|].
  simpl in He. apply elem_of_app in He as [He|He]; [left|right].
  - simpl. by apply (subseteq_take k).
  - by apply (subseteq_drop j).
Qed.

Lemma AppendEntries_check_keeps args ci rf rf' reply :
  wf rf -> lastIncludedIndex rf <= ae_PrevLogIndex args ->
  AppendEntries_check args ci rf = Some (rf', reply) -> keeps (ae_Entries args) rf rf'.
Proof.
  unfold AppendEntries_check. intros Hwf Hp Hs.
  assert (keeps (ae_Entries args) rf rf) as Hrefl by (split; auto).
  case_match eqn:Hg; [by simplify_eq|]. b2p. apply bind_Some in Hs as (t & _ & Hs).
  case_match; [bind_all; by simplify_eq|]. apply bind_Some in Hs as (l & Hl & Hs). simplify_eq.
  split; try done. unfold entriesOf. simpl. intros e. eapply appendLoop_entries; [done| |done]. lia.
Qed.

Lemma AppendEntries_keeps env args rf rf' reply :
  wf rf -> AppendEntries env args rf = Some (rf', reply) -> keeps (ae_Entries args) rf rf'.
Proof.
  unfold AppendEntries. intros Hwf Hs.
  assert (forall E, keeps E rf rf) as Hrefl by (split; auto).
  case_match; [by simplify_eq|].
  pose proof (wf_followerTimer env _ (wf_observeTerm (ae_Term args) rf Hwf)) as Hwf1.
  pose proof (heard_keeps env (ae_Term args) rf) as Hk. unfold heard in Hk.
  set (rf1 := resetElectionTimer env _) in *. eapply keeps_trans; [exact Hk|].
  case_match eqn:Hg; b2p; [|eapply AppendEntries_check_keeps; [done|lia|done]].
  case_match; [simplify_eq; by split; auto|].
  apply bind_Some in Hs as (es & Hes & Hs). apply AppendEntries_check_keeps in Hs as [? ? ? Hl]; [|done|simpl; lia].
  split; try done. intros e [He|He]%Hl; [by left|right]. simpl in He.
  case_match; [|simplify_eq; by apply not_elem_of_nil in He].
  unfold go_slice_from in Hes. case_match; simplify_eq. by eapply subseteq_drop.
Qed.

(** [InstallSnapshot] changes nothing that matters here, or takes over the snapshot. *)
Lemma InstallSnapshot_cases env args rf rf' reply eff :
  InstallSnapshot env args rf = Some (rf', reply, eff) ->
  eff = [] /\ keeps [] rf rf' \/
  eff = [SendApplyCh (SnapshotMsg (is_Data args) (is_LastIncludedTerm args) (is_LastIncludedIndex args))] /\
  lastIncludedIndex rf < is_LastIncludedIndex args /\
  lastIncludedIndex rf' = is_LastIncludedIndex args /\
  ReadSnapshot (persister rf') = is_Data args /\
  lastApplied rf' = Z.max (lastApplied rf) (is_LastIncludedIndex args) /\
  forall e, e ∈ entriesOf rf' -> e ∈ entriesOf rf.
Proof.
  unfold InstallSnapshot. intros Hs. case_match; [simplify_eq; left; split; [done|apply keeps_refl]|].
  pose proof (heard_keeps env (is_Term args) rf) as Hk. unfold heard in Hk.
  set (rf1 := resetElectionTimer env _) in *. clearbody rf1.
  case_match eqn:Hle; [simplify_eq; by left|]. b2p.
  apply bind_Some in Hs as (lg & Hlg & Hs). simplify_eq. right. split; [done|]. simpl.
  destruct Hk as [E1 _ E3 Hl]. rewrite E1 in Hle. split; [done|]. split; [done|]. split; [done|].
  split; [rewrite E3; case_match; b2p; lia|]. unfold entriesOf. simpl. intros e He.
  destruct (Hl e) as [?|?%not_elem_of_nil]; [|done|done].
  unfold snapshotLog in Hlg. apply bind_Some in Hlg as (c & _ & Hlg). case_match; simplify_eq; simpl in He.
  - apply bind_Some in Hlg as (tl & Htl & Hlg). simplify_eq. simpl in He.
    unfold go_slice_from in Htl. case_match eqn:Hb; simplify_eq. b2p.
    eapply elem_of_drop_tail; [|done]. lia.
  - by apply not_elem_of_nil in He.
Qed.

Lemma Snapshot_cases index snap rf rf' :
  Snapshot index snap rf = Some rf' ->
  rf' = rf \/
  lastIncludedIndex rf < index /\ lastIncludedIndex rf' = index /\
  ReadSnapshot (persister rf') = snap /\ lastApplied rf' = lastApplied rf /\
  forall e, e ∈ entriesOf rf' -> e ∈ entriesOf rf.
Proof.
  unfold Snapshot. intros Hs. case_match eqn:Hg; [simplify_eq; by left|]. b2p. right.
  apply bind_Some in Hs as (t & _ & Hs). apply bind_Some in Hs as (tl & Htl & Hs). simplify_eq.
  split_and!; try done. unfold entriesOf. simpl. intros e He.
  unfold go_slice_from in Htl. case_match eqn:Hb; simplify_eq.
  eapply elem_of_drop_tail; [|done]. lia.
Qed.

(** The applier waits, or sends the entry after the last one applied. *)
Lemma applier_cases rf rf' eff :
  applier rf = Some (rf', eff) ->
  eff = [] /\ keeps [] rf rf' \/
  exists e, eff = [SendApplyCh (CommandMsg (Command e) (lastApplied rf + 1))] /\
    rf' = set_lastApplied (lastApplied rf + 1) rf /\ lastIncludedIndex rf <= lastApplied rf /\
    entryAt rf (lastApplied rf + 1) = Some e.
Proof.
  unfold applier. intros Hs. case_match eqn:Hg; [|simplify_eq; left; split; [done|apply keeps_refl]].
  b2p. simpl in Hs. case_match; b2p; [lia|]. apply bind_Some in Hs as (e & He & Hs). simplify_eq.
  right. exists e. split_and!; try done.
Qed.

Lemma entryAt_entries rf idx e :
  entryAt rf idx = Some e -> lastIncludedIndex rf < idx -> e ∈ entriesOf rf.
Proof.
  unfold entryAt, go_index, entriesOf. intros He Hlt. case_match; [|done].
  destruct (log rf) as [|d l]; [done|]. replace (Z.to_nat (idx - lastIncludedIndex rf))
    with (S (Z.to_nat (idx - lastIncludedIndex rf - 1))) in He by lia.
  simpl in He |- *. by eapply list_elem_of_lookup_2.
Qed.

(** What a leader sends: entries of its log, or its snapshot. *)
Lemma send_entries server T rf m :
  wf rf -> replicateTo_send server T rf = Some m ->
  match m with
  | ReplicateNothing => True
  | ReplicateSnapshot args =>
      is_LastIncludedIndex args = lastIncludedIndex rf /\ is_Data args = ReadSnapshot (persister rf) /\
      exists next, nextIndex rf @! server = Some next /\ next <= lastIncludedIndex rf /\ role rf = Leader
  | ReplicateEntries args => forall e, e ∈ ae_Entries args -> e ∈ entriesOf rf
  end.
Proof.
  unfold replicateTo_send. intros Hwf Hs. case_match eqn:Hg; simplify_eq; [done|]. b2p.
  apply bind_Some in Hs as (next & Hn & Hs). case_match eqn:Hle; b2p; simplify_eq; [simpl; eauto 10|].
  apply bind_Some in Hs as (t & Ht & Hs). apply bind_Some in Hs as (es & Hes & Hs). simplify_eq. simpl.
  apply termAt_Some_bound in Ht. intros e He. unfold go_slice_from in Hes. case_match; simplify_eq.
  eapply elem_of_drop_tail; [|done]. lia.
Qed.

End keeps.

(** ** The contract *)

Section contract.
Context {Cmd : Type}.

Definition msgIndex (m : ApplyMsg Cmd) : Z :=
  match m with CommandMsg _ k => k | SnapshotMsg _ _ k => k end.

(** The service's snapshot of the commands of a log prefix. *)
Context (snapOf : list (option Cmd) -> bytes).
Implicit Types (log : list (option Cmd)) (ms : list (ApplyMsg Cmd)).

(** [d] is the snapshot of the first [k] commands. *)
Definition snapGood log (k : Z) (d : bytes) : Prop :=
  0 < k <= zlen log /\ d = snapOf (take (Z.to_nat k) log).

(** What the next message can be for a service that is at position [p] of the log and
    has seen indices up to [s], and where it is afterwards. *)
Inductive tells log (p s : Z) : ApplyMsg Cmd -> Z -> Z -> Prop :=
| tells_stale m : msgIndex m <= s -> tells log p s m p s
| tells_command c : log @! p = Some c -> tells log p s (CommandMsg c (p + 1)) (p + 1) (p + 1)
| tells_snapshot d t k :
    s < k -> p <= k -> snapGood log k d -> tells log p s (SnapshotMsg d t k) k k.

(** A service that starts with the first [b] commands and receives [ms] gets to [p]
    and [s]. *)
Inductive told log (b : Z) : list (ApplyMsg Cmd) -> Z -> Z -> Prop :=
| told_nil : told log b [] b 0
| told_snoc ms p s m p' s' :
    told log b ms p s -> tells log p s m p' s' -> told log b (ms ++ [m]) p' s'.

(** What a service makes of its messages: it skips those it has seen. *)
Definition consume (ps : Z * Z) (m : ApplyMsg Cmd) : Z * Z :=
  if msgIndex m <=? ps.2 then ps else (msgIndex m, msgIndex m).
Definition consumed (b : Z) ms : Z * Z := foldl consume (b, 0) ms.

Lemma consumed_snoc b ms m : consumed b (ms ++ [m]) = consume (consumed b ms) m.
Proof. unfold consumed. by rewrite foldl_app. Qed.

Lemma snapGood_app log log' k d : snapGood log k d -> snapGood (log ++ log') k d.
Proof.
  intros [Hk ->]. unfold snapGood, zlen in *. rewrite length_app. split; [lia|].
  rewrite take_app_le by lia. done.
Qed.

Lemma tells_app log log' p s m p' s' : tells log p s m p' s' -> tells (log ++ log') p s m p' s'.
Proof.
  intros [|c Hc|]; constructor; try done; [|by apply snapGood_app].
  pose proof (go_index_Some_bound _ _ _ Hc). rewrite go_index_app_l; [done|lia].
Qed.

Lemma told_app log log' b ms p s : told log b ms p s -> told (log ++ log') b ms p s.
Proof. induction 1; econstructor; eauto using tells_app. Qed.

Lemma tells_bounds log p s m p' s' :
  0 <= s <= p -> p <= zlen log -> tells log p s m p' s' -> 0 <= s' <= p' /\ p <= p' <= zlen log.
Proof. intros ? ? [|c Hc%go_index_Some_bound|d t k ? ? [? _]]; lia. Qed.

Lemma told_bounds log b ms p s :
  0 <= b <= zlen log -> told log b ms p s -> 0 <= s <= p /\ b <= p <= zlen log.
Proof.
  intros Hb. induction 1 as [|ms p s m p' s' _ IH Ht]; [lia|].
  apply tells_bounds in Ht; lia.
Qed.

Lemma tells_consume log p s m p' s' :
  0 <= s <= p -> tells log p s m p' s' -> consume (p, s) m = (p', s').
Proof.
  intros Hs [m0 Hm|c Hc|d t k Hk Hp Hg]; unfold consume; cbn [fst snd msgIndex].
  - by rewrite (proj2 (Z.leb_le _ _)) by done.
  - by rewrite (proj2 (Z.leb_gt _ _)) by lia.
  - by rewrite (proj2 (Z.leb_gt _ _)) by lia.
Qed.

Lemma told_consumed log b ms p s :
  0 <= b <= zlen log -> told log b ms p s -> consumed b ms = (p, s).
Proof.
  intros Hb Ht. induction Ht as [|ms p s m p' s' Ht IH Hm]; [done|].
  rewrite consumed_snoc, IH. eapply tells_consume; [|done]. by apply (told_bounds log b ms).
Qed.

(** The last message received, from where the service was before it. *)
Lemma told_last log b ms m p s p0 s0 :
  0 <= b <= zlen log -> told log b (ms ++ [m]) p s -> told log b ms p0 s0 -> tells log p0 s0 m p s.
Proof.
  intros Hb Ht H0. remember (ms ++ [m]) as ms' eqn:E. destruct Ht as [|ms1 p1 s1 m1 p s H1 Hm]; [by destruct ms|].
  apply app_inj_tail in E as [-> ->].
  pose proof (told_consumed _ _ _ _ _ Hb H0) as E0. pose proof (told_consumed _ _ _ _ _ Hb H1) as E1.
  rewrite E0 in E1. by injection E1 as -> ->.
Qed.

(** ** Where a peer and its service stand *)

(** [lii] and [la] are the snapshot and the applied index of a peer, [d] what the applier
    is sending, [P] the snapshots about to be sent; [p] and [s] as in [told]. *)
Record place (lii la : Z) (d : option (ApplyMsg Cmd)) (P : Z -> Prop) (p s : Z) : Prop := {
  pl_bounds : 0 <= s <= p /\ p <= la;
  pl_fresh : s = p \/ p <= lii;
  pl_reach : la <= p \/ P la \/ exists c, d = Some (CommandMsg c la);
  pl_pending : forall k, P k -> k <= la /\ (k <= s \/ p < k);
  pl_sending : forall m, d = Some m -> exists c k, m = CommandMsg c k /\
    k <= la /\ (k <= s \/ p < k) /\ (k <= p + 1 \/ P (k - 1));
}.

Lemma place_ext lii la d P P' p s :
  (forall k, P k <-> P' k) -> place lii la d P p s -> place lii la d P' p s.
Proof.
  intros HP [? ? Hr Hp Hs]. split; [done|done|by rewrite <- HP|by intros k ?%HP; apply Hp|].
  intros m Hm. destruct (Hs m Hm) as (c & k & ? & ? & ? & Hk). exists c, k. by rewrite <- HP.
Qed.

(** The applier takes the next entry. *)
Lemma place_apply lii la P p s c :
  place lii la None P p s -> place lii (la + 1) (Some (CommandMsg c (la + 1))) P p s.
Proof.
  intros [? ? Hr Hp _]. split; [lia|done|eauto|..].
  - intros k Hk. destruct (Hp k Hk). lia.
  - intros m [= <-]. exists c, (la + 1). split_and!; [done|lia|lia|].
    replace (la + 1 - 1) with la by lia. destruct Hr as [?|[?|[? [=]]]]; [left; lia|by right].
Qed.

(** A snapshot was installed and is about to be sent. *)
Lemma place_install lii la d P P' p s k :
  lii < k -> (forall j, P' j <-> P j \/ j = k) ->
  place lii la d P p s -> place k (Z.max la k) d P' p s.
Proof.
  intros Hk HP [? Hf Hr Hp Hs]. split; [lia|lia|..].
  - rewrite HP. destruct (Z.max_spec la k) as [[? ->]|[? ->]]; [auto|]. destruct Hr as [?|[?|?]]; auto.
  - intros j [Hj| ->]%HP; [destruct (Hp j Hj); lia|]. lia.
  - intros m Hm. destruct (Hs m Hm) as (c & j & -> & ? & ? & Hj). exists c, j.
    split_and!; [done|lia|done|]. rewrite HP. tauto.
Qed.

(** The service compacts the log itself. *)
Lemma place_compact lii lii' la d P p s : lii <= lii' -> place lii la d P p s -> place lii' la d P p s.
Proof. intros ? [? ? ? ? ?]. split; try done. lia. Qed.

(** A message is received: the one the applier sends, or a snapshot. *)
Lemma place_receive lii la d d' P P' p s m :
  place lii la d P p s ->
  d' = d \/ d' = None /\ d = Some m ->
  (forall k, P' k -> P k) -> (forall k, P k -> P' k \/ k = msgIndex m) ->
  d = Some m \/ P (msgIndex m) ->
  place lii la d' P' (consume (p, s) m).1 (consume (p, s) m).2.
Proof.
  intros [Hb Hf Hr Hp Hs] Hd HP HP' Hm.
  assert (msgIndex m <= la /\ (msgIndex m <= s \/ p < msgIndex m)) as Hi.
  { destruct Hm as [Hm|Hm]; [|by apply Hp]. destruct (Hs m Hm) as (c & k & -> & ? & ? & _). done. }
  assert (forall p', p <= p' -> msgIndex m <= p' -> la <= p' \/ P' la \/ exists c, d' = Some (CommandMsg c la)) as Hreach.
  { intros p' ? ?. destruct Hr as [?|[HPl|[c Hc]]]; [left; lia| |].
    - destruct (HP' _ HPl) as [?|E]; [auto|left; lia].
    - destruct Hd as [->|[-> Hdm]]; [eauto|]. left. rewrite Hc in Hdm. injection Hdm as <-. done. }
  assert (forall p', p <= p' -> msgIndex m <= p' -> forall m', d' = Some m' -> exists c k, m' = CommandMsg c k /\
     k <= la /\ (k <= s \/ p < k) /\ (k <= p' + 1 \/ P' (k - 1))) as Hsend.
  { intros p' Hpp Hmp m' Hm'. assert (d = Some m') as E by (destruct Hd as [->|[-> _]]; congruence).
    destruct (Hs m' E) as (c & k & -> & ? & ? & Hk). exists c, k. split_and!; [done..|].
    destruct Hk as [?|Hk]; [left; lia|]. destruct (HP' _ Hk) as [?|?]; [by right|left; lia]. }
  unfold consume. cbn [fst snd]. destruct (Z.leb_spec (msgIndex m) s); cbn [fst snd].
  - split; [done|done|by apply (Hreach p); lia|by intros k ?%HP; apply Hp|apply Hsend; lia].
  - split; [lia|by left|by apply Hreach; lia| |].
    + intros k Hk%HP. destruct (Hp k Hk). lia.
    + intros m' Hm'. destruct (Hsend (msgIndex m)) with (m' := m') as (c & k & ? & ? & ? & ?); [lia|lia|done|].
      exists c, k. split_and!; [done|done|lia|done].
Qed.

Lemma place_start lii : 0 <= lii -> place lii lii None (fun _ => False) lii 0.
Proof. intros. split; [lia|right; lia|left; lia|done|done]. Qed.

End contract.

(** ** The observed cluster *)

Section observed.
Context {Cmd : Type} `{StateCodec Cmd} (n : nat) (snapOf : list (option Cmd) -> bytes).
Implicit Types (rf : Raft Cmd) (w : Cluster (Cmd := Cmd)) (A : @Spec Cmd) (lb : Label (Cmd := Cmd)).

(** The handler [t] is about to send peer [i] a snapshot that ends before index [k]. *)
Definition overtakes (i k : Z) w (t : Thread (Cmd := Cmd)) : bool :=
  match t with
  | TSnapDeliver _ _ _ server sinc _ msg _ =>
      (server =? i) && (sinc =? incs w i)%nat && (msgIndex msg <? k)
  | _ => false
  end.

(** The service receives a command only after the snapshots installed before it. *)
Definition inOrder lb w : bool :=
  match lb with
  | LDeliver i (CommandMsg _ k) => negb (existsb (overtakes i k w) (threads w))
  | _ => true
  end.

(** A cluster, with what its services were told so far: the commands in the order of
    their indices, the commands accepted by [Start], and the index each peer's service
    started from. *)
Record Observed := mkObserved {
  world : Cluster (Cmd := Cmd);
  clog : list (option Cmd);
  submitted : list (option Cmd);
  base : Z -> Z;
}.
Implicit Types (o : Observed).

Definition observe lb o w' : Observed :=
  mkObserved w'
    match lb with
    | LDeliver _ (CommandMsg c k) => if k =? zlen (clog o) + 1 then clog o ++ [c] else clog o
    | _ => clog o
    end
    match lb with LStart _ cmd (_, _, true) => submitted o ++ [cmd] | _ => submitted o end
    match lb with
    | LRestart i => upd (base o) i (lastIncludedIndex (nodes (world o) i))
    | _ => base o
    end.

(** What the service owes: the snapshots it hands over are of commands it was told. *)
Definition honest lb o : Prop :=
  match lb with LSnapshot _ k d => k <= 0 \/ snapGood snapOf (clog o) k d | _ => True end.

Definition dstep o lb o' : Prop :=
  exists w', lstep n (world o) lb w' /\ inOrder lb (world o) = true /\ honest lb o /\
    o' = observe lb o w'.

Definition dinit (envs : Z -> Env) : Observed := mkObserved (cinit n envs) [] [] (fun _ => 0).

(** ** The invariant *)

Definition isSnapDeliver (t : Thread (Cmd := Cmd)) : bool :=
  match t with TSnapDeliver _ _ _ _ _ _ _ _ => true | _ => false end.

(** A snapshot of index [k] is about to be sent to the service of peer [i]. *)
Definition pendingSnap w (i k : Z) : Prop :=
  exists own inc T args m r, TSnapDeliver own inc T i (incs w i) args m r ∈ threads w /\ msgIndex m = k.

Definition delivery_fact (log sub : list (option Cmd)) (t : Thread (Cmd := Cmd)) : Prop :=
  match t with
  | TAppReq _ _ _ _ args => forall e, e ∈ ae_Entries args -> Command e ∈ sub
  | TSnapReq _ _ _ _ args => snapGood snapOf log (is_LastIncludedIndex args) (is_Data args)
  | TSnapDeliver _ _ _ _ _ _ m _ => exists d t k, m = SnapshotMsg d t k /\ snapGood snapOf log k d
  | _ => True
  end.

Record peer_fact (log sub : list (option Cmd)) rf : Prop := {
  pf_snap : lastIncludedIndex rf = 0 /\ ReadSnapshot (persister rf) = [] \/
    snapGood snapOf log (lastIncludedIndex rf) (ReadSnapshot (persister rf));
  pf_entries : forall e, e ∈ entriesOf rf -> Command e ∈ sub;
}.

Record service_fact o i : Prop := {
  sf_base : 0 <= base o i <= zlen (clog o);
  sf_told : exists p s, told snapOf (clog o) (base o i) (applied (world o) i) p s /\
    place (lastIncludedIndex (nodes (world o) i)) (lastApplied (nodes (world o) i))
      (delivering (world o) i) (pendingSnap (world o) i) p s;
  sf_sending : forall c k, delivering (world o) i = Some (CommandMsg c k) -> c ∈ submitted o;
}.

(** The commands told are a committed prefix of the abstract log. *)
Definition log_fact A (log : list (option Cmd)) : Prop :=
  exists t l, committed n A t l /\ length l = S (length log) /\ Command <$> tail l = log.

(** A handler about to send belongs to this or an earlier incarnation of its peer. *)
Definition incs_fact w : Prop :=
  forall own inc T i sinc args m r, TSnapDeliver own inc T i sinc args m r ∈ threads w ->
  (sinc <= incs w i)%nat.

Record dinv A o : Prop := {
  di_rel : rel n A (world o);
  di_log : log_fact A (clog o);
  di_valid : forall c, c ∈ clog o -> c ∈ submitted o;
  di_peers : forall i, peer n i -> peer_fact (clog o) (submitted o) (nodes (world o) i);
  di_threads : forall t, t ∈ threads (world o) -> delivery_fact (clog o) (submitted o) t;
  di_incs : incs_fact (world o);
  di_service : forall i, peer n i -> service_fact o i;
}.

Lemma delivery_fact_mono log log' sub sub' t :
  sub ⊆ sub' -> delivery_fact log sub t -> delivery_fact (log ++ log') sub' t.
Proof.
  intros Hs. destruct t; simpl; try done.
  - set_solver.
  - apply snapGood_app.
  - intros (d & t & k & ? & ?). exists d, t, k. split; [done|]. by apply snapGood_app.
Qed.

Lemma peer_fact_mono log log' sub sub' rf :
  sub ⊆ sub' -> peer_fact log sub rf -> peer_fact (log ++ log') sub' rf.
Proof.
  intros Hs [Hsn He]. split; [destruct Hsn; [by left|right; by apply snapGood_app]|set_solver].
Qed.

Lemma peer_fact_keeps log sub E rf rf' :
  keeps E rf rf' -> (forall e, e ∈ E -> Command e ∈ sub) -> peer_fact log sub rf -> peer_fact log sub rf'.
Proof.
  intros [E1 E2 _ Hl] HE [Hsn He]. split; [by rewrite E1, E2|]. intros e [?|?]%Hl; auto.
Qed.

Lemma log_fact_mono A A' log : grows A A' -> log_fact A log -> log_fact A' log.
Proof. intros Hg (t & l & Hc & ?). exists t, l. split; [by eapply committed_mono|done]. Qed.

Context `{!StateCodecOk Cmd}.

(** The abstract side of a step. *)
Lemma dinv_rel A o lb w' :
  dinv A o -> lstep n (world o) lb w' ->
  exists A', rel n A' w' /\ log_fact A' (clog o) /\ grows A A'.
Proof.
  intros Hd Hs. destruct (rel_step n A _ w' (di_rel _ _ Hd)) as (i & A' & Hst & Hr); [by exists lb|].
  assert (grows A A') as Hg by (eapply asome_grows; [apply Hd|by eapply asome_steps]).
  exists A'. split_and!; [done|by eapply log_fact_mono, Hd|done].
Qed.

Lemma pendingSnap_same w w' i k :
  incs w' i = incs w i ->
  (forall t, isSnapDeliver t = true -> t ∈ threads w' <-> t ∈ threads w) ->
  pendingSnap w i k <-> pendingSnap w' i k.
Proof.
  intros Hinc Ht. unfold pendingSnap. rewrite Hinc.
  split; intros (own & inc & T & args & m & r & Hin & <-); exists own, inc, T, args, m, r;
    (split; [|done]); by apply Ht.
Qed.

(** A step of peer [i] that neither moves its snapshot nor talks to its service. *)
Lemma dinv_quiet A o lb w' i rf' E sub' :
  dinv A o -> lstep n (world o) lb w' ->
  observe lb o w' = mkObserved w' (clog o) sub' (base o) -> submitted o ⊆ sub' ->
  peer n i -> (forall j, nodes w' j = upd (nodes (world o)) i rf' j) ->
  keeps E (nodes (world o) i) rf' -> (forall e, e ∈ E -> Command e ∈ sub') ->
  incs w' = incs (world o) -> delivering w' = delivering (world o) -> applied w' = applied (world o) ->
  (forall t, isSnapDeliver t = true -> t ∈ threads w' <-> t ∈ threads (world o)) ->
  (forall t, t ∈ threads w' -> t ∈ threads (world o) \/ delivery_fact (clog o) sub' t) ->
  exists A', dinv A' (observe lb o w') /\ grows A A'.
Proof.
  intros Hd Hs Eo Hsub Hi En Hk HE Ei Edel Eap Hsn Hth.
  destruct (dinv_rel A o lb w' Hd Hs) as (A' & Hr & Hl & Hg). exists A'. split; [|done].
  rewrite Eo. split; cbn [world clog submitted base]; [done|done| | | | |].
  - intros c Hc. by apply Hsub, Hd.
  - intros j Hj. rewrite <- (app_nil_r (clog o)). rewrite En. upd_cases i j.
    + eapply peer_fact_keeps; [done|done|]. eapply peer_fact_mono; [done|]. by apply Hd.
    + eapply peer_fact_mono; [done|]. by apply Hd.
  - intros t Ht. destruct (Hth t Ht) as [Ho|?]; [|done]. rewrite <- (app_nil_r (clog o)).
    apply (delivery_fact_mono _ _ (submitted o)); [done|]. by apply Hd.
  - intros own inc T j sinc args m r Hin%Hsn; [|done]. rewrite Ei. by eapply (di_incs _ _ Hd).
  - intros j Hj. destruct (di_service _ _ Hd j Hj) as [Hb (p & s & Ht & Hp) Hsd].
    split; cbn [world clog submitted base]; [done| |].
    + exists p, s. rewrite Eap, Edel. split; [done|].
      assert (lastIncludedIndex (nodes w' j) = lastIncludedIndex (nodes (world o) j) /\
              lastApplied (nodes w' j) = lastApplied (nodes (world o) j)) as [-> ->].
      { rewrite En. upd_cases i j; [split; apply Hk|done]. }
      eapply place_ext; [|exact Hp]. intros k. apply pendingSnap_same; [by rewrite Ei|done].
    + rewrite Edel. intros c k Hc. apply Hsub. by eapply Hsd.
Qed.

(** ** Steps *)

(** A goroutine that says nothing about snapshots or entries. *)
Definition plain (t : Thread (Cmd := Cmd)) : Prop :=
  isSnapDeliver t = false /\ forall log sub, delivery_fact log sub t.

Lemma spawns_plain i w eff t : t ∈ spawns i w eff -> plain t.
Proof. intros (e & _ & He)%list_elem_of_omap. destruct e; simplify_eq/=; done. Qed.

(** The goroutines of a quiet step: [t] ends, [us] are new. *)
Lemma threads_plain (ts1 ts2 us : list (Thread (Cmd := Cmd))) t (ts ts' : list (Thread (Cmd := Cmd))) (F : Thread -> Prop) :
  ts = ts1 ++ t :: ts2 -> isSnapDeliver t = false ->
  (forall u, u ∈ ts' <-> u ∈ ts1 \/ u ∈ us \/ u ∈ ts2) ->
  (forall u, u ∈ us -> isSnapDeliver u = false /\ F u) ->
  (forall u, isSnapDeliver u = true -> u ∈ ts' <-> u ∈ ts) /\
  (forall u, u ∈ ts' -> u ∈ ts \/ F u).
Proof.
  intros -> Ht Hts' Hus. split; intros u Hu; setoid_rewrite elem_of_app; setoid_rewrite elem_of_cons.
  - rewrite Hts'. split; [|intros [?|[->|?]]; [tauto|congruence|tauto]].
    intros [?|[[Hu' _]%Hus|?]]; [tauto|congruence|tauto].
  - apply Hts' in Hu as [?|[[_ ?]%Hus|?]]; tauto.
Qed.

Lemma threads_spawn (ts us ts' : list (Thread (Cmd := Cmd))) (F : Thread -> Prop) :
  ts' = ts ++ us -> (forall u, u ∈ us -> isSnapDeliver u = false /\ F u) ->
  (forall u, isSnapDeliver u = true -> u ∈ ts' <-> u ∈ ts) /\
  (forall u, u ∈ ts' -> u ∈ ts \/ F u).
Proof.
  intros -> Hus. split; intros u Hu; rewrite elem_of_app in *.
  - split; [intros [?|[Hu' _]%Hus]; [done|congruence]|tauto].
  - destruct Hu as [?|[_ ?]%Hus]; tauto.
Qed.

Lemma observe_same lb o w' :
  (forall i m, lb <> LDeliver i m) -> (forall i, lb <> LRestart i) -> (forall i cmd r, lb <> LStart i cmd r) ->
  observe lb o w' = mkObserved w' (clog o) (submitted o) (base o).
Proof. destruct lb; naive_solver. Qed.

(** The quiet steps, by the peer that takes them and the goroutines they change. *)
Lemma dinv_quiet_message A o lb w' i rf' E t (ts1 ts2 us : list (Thread (Cmd := Cmd))) :
  dinv A o -> lstep n (world o) lb w' -> lb = LTau -> peer n i ->
  threads (world o) = ts1 ++ t :: ts2 -> isSnapDeliver t = false ->
  (forall u, u ∈ threads w' <-> u ∈ ts1 \/ u ∈ us \/ u ∈ ts2) ->
  (forall u, u ∈ us -> isSnapDeliver u = false /\ delivery_fact (clog o) (submitted o) u) ->
  (forall j, nodes w' j = upd (nodes (world o)) i rf' j) ->
  keeps E (nodes (world o) i) rf' -> (forall e, e ∈ E -> Command e ∈ submitted o) ->
  incs w' = incs (world o) -> delivering w' = delivering (world o) -> applied w' = applied (world o) ->
  exists A', dinv A' (observe lb o w') /\ grows A A'.
Proof.
  intros Hd Hs -> Hi Et Ht Hth Hus En Hk HE ? ? ?.
  destruct (threads_plain ts1 ts2 us t _ _ _ Et Ht Hth Hus) as [Hs1 Hs2].
  by eapply dinv_quiet.
Qed.


(** Facts about the other peers and goroutines, when the log told may have grown. *)
Lemma dinv_frame A o lb w' log' :
  dinv A o -> lstep n (world o) lb w' ->
  observe lb o w' = mkObserved w' (clog o ++ log') (submitted o) (base (observe lb o w')) ->
  (forall A', rel n A' w' -> grows A A' -> log_fact A' (clog o) -> log_fact A' (clog o ++ log')) ->
  (forall c, c ∈ log' -> c ∈ submitted o) ->
  (forall i, peer n i -> peer_fact (clog o) (submitted o) (nodes (world o) i) ->
     peer_fact (clog o ++ log') (submitted o) (nodes w' i)) ->
  (forall t, t ∈ threads w' -> t ∈ threads (world o) \/ delivery_fact (clog o ++ log') (submitted o) t) ->
  (incs_fact (world o) -> incs_fact w') ->
  (forall i, peer n i -> service_fact o i -> service_fact (observe lb o w') i) ->
  exists A', dinv A' (observe lb o w') /\ grows A A'.
Proof.
  intros Hd Hs Eo Hlog Hv Hp Ht Hin Hsv. destruct (dinv_rel A o lb w' Hd Hs) as (A' & Hr & Hl & Hg).
  exists A'. split; [|done].
  assert (clog (observe lb o w') = clog o ++ log' /\ submitted (observe lb o w') = submitted o /\
    world (observe lb o w') = w') as (E1 & E2 & E3) by (by rewrite Eo).
  split; rewrite ?E1, ?E2, ?E3.
  - done.
  - by apply Hlog.
  - intros c [?|?]%elem_of_app; [by apply Hd|auto].
  - intros i Hi. apply Hp; [done|]. by apply Hd.
  - intros t Htin. destruct (Ht t Htin) as [Ho|?]; [|done].
    apply (delivery_fact_mono _ _ (submitted o)); [done|]. by apply Hd.
  - apply Hin, Hd.
  - intros i Hi. apply Hsv; [done|]. by apply Hd.
Qed.

Lemma service_fact_other o o' i :
  base o' i = base o i -> (exists l, clog o' = clog o ++ l) -> submitted o' = submitted o ->
  applied (world o') i = applied (world o) i -> delivering (world o') i = delivering (world o) i ->
  lastIncludedIndex (nodes (world o') i) = lastIncludedIndex (nodes (world o) i) ->
  lastApplied (nodes (world o') i) = lastApplied (nodes (world o) i) ->
  (forall k, pendingSnap (world o) i k <-> pendingSnap (world o') i k) ->
  service_fact o i -> service_fact o' i.
Proof.
  intros Eb [l El] Es Ea Ed E1 E2 HP [Hb (p & s & Ht & Hp) Hsd].
  split; rewrite ?Eb, ?El, ?Es, ?Ea, ?Ed; [unfold zlen in *; rewrite length_app; lia| |done].
  exists p, s. split; [by apply told_app|]. rewrite E1, E2. by eapply place_ext.
Qed.

(** [Snapshot] by the service. *)
Lemma dinv_snapshot A o i index snap rf' :
  dinv A o -> peer n i -> index <= lastApplied (nodes (world o) i) ->
  Snapshot index snap (nodes (world o) i) = Some rf' -> honest (LSnapshot i index snap) o ->
  exists A', dinv A' (observe (LSnapshot i index snap) o (setNode i rf' (world o))) /\ grows A A'.
Proof.
  intros Hd Hi Hx Hs Hh. pose proof (cs_Snapshot n _ i index snap rf' Hi Hx Hs) as Hst.
  assert (0 <= lastIncludedIndex (nodes (world o) i)) as Hlii.
  { pose proof (bi_wf _ _ (rl_base _ _ _ (di_rel _ _ Hd)) i Hi) as Hwf. apply Hwf. }
  destruct (Snapshot_cases _ _ _ _ Hs) as [->|(Hlt & E1 & E2 & E3 & Hent)].
  - eapply (dinv_quiet A o _ _ i (nodes (world o) i) [] (submitted o)); try done; simpl; auto using keeps_refl.
    by intros e ?%not_elem_of_nil.
  - destruct Hh as [?|Hg]; [lia|].
    eapply (dinv_frame A o _ _ []); [done|done|by rewrite app_nil_r| | | |by intros t; left|done|].
    + intros A' _ _. by rewrite app_nil_r.
    + by intros c ?%not_elem_of_nil.
    + rewrite app_nil_r. intros j Hj. simpl. upd_cases i j; [|done]. intros [_ He]. split; [|auto].
      right. by rewrite E1, E2.
    + intros j Hj. simpl. destruct (decide (j = i)) as [->|Hne].
      * intros [Hb (p & s & Ht & Hp) Hsd]. split; simpl; [done| |done]. exists p, s. rewrite upd_eq, E1, E3.
        split; [done|]. eapply place_compact; [|done]. lia.
      * apply service_fact_other; simpl; rewrite ?upd_ne by done; try done. exists []. by rewrite app_nil_r.
Qed.

(** The applier takes a command to send. *)
Lemma dinv_applier_send A o i rf' msg :
  dinv A o -> peer n i -> delivering (world o) i = None ->
  applier (nodes (world o) i) = Some (rf', [SendApplyCh msg]) ->
  exists A', dinv A' (observe LTau o (world o |> setNode i rf' |> setDelivering i (Some msg))) /\ grows A A'.
Proof.
  intros Hd Hi Hdel Hs. pose proof (cs_applier_send n _ i rf' msg Hi Hdel Hs) as Hst.
  destruct (applier_cases _ _ _ Hs) as [[[=] _]|(e & [= ->] & -> & Hle & He)].
  eapply (dinv_frame A o _ _ []); [done|done|by rewrite app_nil_r| | | |by intros t; left|done|].
  - intros A' _ _. by rewrite app_nil_r.
  - by intros c ?%not_elem_of_nil.
  - rewrite app_nil_r. intros j Hj. simpl. upd_cases i j; [|done]. intros []. by split.
  - intros j Hj. simpl. destruct (decide (j = i)) as [->|Hne].
    + intros [Hb (p & s & Ht & Hp) Hsd]. rewrite Hdel in Hp. split; simpl; [done| |].
      * exists p, s. rewrite !upd_eq. split; [done|]. by apply place_apply.
      * rewrite upd_eq. intros c k [= <- <-]. eapply (pf_entries _ _ _ (di_peers _ _ Hd i Hi)).
        eapply entryAt_entries; [done|lia].
    + apply service_fact_other; simpl; rewrite ?upd_ne by done; try done. exists []. by rewrite app_nil_r.
Qed.

(** A committed entry against the log told so far. *)
Lemma log_fact_entry A log t l k e :
  ainv n A -> log_fact A log -> committed n A t l -> 0 < k -> l !! Z.to_nat k = Some e ->
  (k <= zlen log -> log @! (k - 1) = Some (Command e)) /\
  (k = zlen log + 1 -> log_fact A (log ++ [Command e])).
Proof.
  intros Hi (t0 & l0 & Hc0 & Hlen & <-) Hc Hk He.
  destruct l0 as [|d l0]; [done|]. cbn [tail] in *. unfold zlen. rewrite length_fmap.
  destruct (committed_agree n A t0 _ t _ Hi Hc0 Hc) as [Hp|Hp]; split; intros Hle.
  - assert ((d :: l0) !! Z.to_nat k = Some e) as He0.
    { destruct (lookup_lt_is_Some_2 (d :: l0) (Z.to_nat k)) as [e' He']; [simpl; lia|].
      pose proof (prefix_lookup_Some _ _ _ _ He' Hp). congruence. }
    replace (Z.to_nat k) with (S (Z.to_nat (k - 1))) in He0 by lia. simpl in He0.
    unfold go_index. rewrite (proj2 (Z.leb_le 0 (k - 1))) by lia. by rewrite list_lookup_fmap, He0.
  - exists t, (d :: l0 ++ [e]). cbn [tail]. rewrite fmap_app.
    split; [|split; [simpl; rewrite !length_app, length_fmap; simpl; lia|done]].
    eapply committed_prefix; [|exact Hc]. destruct Hp as [r ->].
    destruct r as [|e' r]; [apply lookup_lt_Some in He; rewrite app_nil_r in He; simpl in He; lia|].
    rewrite lookup_app_r in He by (simpl; lia).
    replace (Z.to_nat k - length (d :: l0))%nat with 0%nat in He by (simpl; lia).
    injection He as ->. exists r. by rewrite app_comm_cons, <- app_assoc.
  - pose proof (prefix_lookup_Some _ _ _ _ He Hp) as He0.
    replace (Z.to_nat k) with (S (Z.to_nat (k - 1))) in He0 by lia. simpl in He0.
    unfold go_index. rewrite (proj2 (Z.leb_le 0 (k - 1))) by lia. by rewrite list_lookup_fmap, He0.
  - pose proof (prefix_lookup_Some _ _ _ _ He Hp) as He0%lookup_lt_Some. simpl in He0. lia.
Qed.

Lemma not_overtaken i c k w j :
  inOrder (LDeliver i (CommandMsg c k)) w = true -> pendingSnap w i j -> k <= j.
Proof.
  simpl. intros Ho (own & inc & T & args & m & r & Hin & <-). apply negb_true_iff in Ho.
  destruct (Z.le_gt_cases k (msgIndex m)) as [|Hlt]; [done|]. exfalso.
  assert (existsb (overtakes i k w) (threads w) = true) as E; [|congruence].
  apply existsb_exists. exists (TSnapDeliver own inc T i (incs w i) args m r).
  split; [by apply list_elem_of_In|]. simpl. rewrite Z.eqb_refl, Nat.eqb_refl. simpl. by apply Z.ltb_lt.
Qed.

(** The service of peer [i] receives a command. *)
Lemma dinv_applier_sent A o i msg :
  dinv A o -> peer n i -> delivering (world o) i = Some msg ->
  inOrder (LDeliver i msg) (world o) = true ->
  exists A', dinv A' (observe (LDeliver i msg) o (world o |> setDelivering i None |> deliver i msg)) /\ grows A A'.
Proof.
  intros Hd Hi Hdel Ho. pose proof (cs_applier_sent n _ i msg Hi Hdel) as Hst.
  destruct (di_service _ _ Hd i Hi) as [Hb (p & s & Ht & Hp) Hsd].
  destruct (pl_sending _ _ _ _ _ _ Hp _ Hdel) as (c & k & -> & Hkla & Hks & Hkp).
  pose proof (told_bounds _ _ _ _ _ _ Hb Ht) as Hps.
  assert (k <= s \/ k = p + 1) as Hk.
  { destruct Hks as [?|?]; [by left|right]. destruct Hkp as [?|Hpend]; [lia|].
    pose proof (not_overtaken _ _ _ _ _ Ho Hpend). lia. }
  destruct (rl_delivering _ _ _ (di_rel _ _ Hd) i _ Hdel) as (t & l & e & Hc & Hk0 & He & Hec).
  set (log' := if k =? zlen (clog o) + 1 then [c] else [] : list (option Cmd)).
  assert (clog o ++ log' = if k =? zlen (clog o) + 1 then clog o ++ [c] else clog o) as Elog.
  { unfold log'. case_match; [done|apply app_nil_r]. }
  assert (forall A', ainv n A' -> grows A A' -> log_fact A' (clog o) ->
    log_fact A' (clog o ++ log') /\ (k = p + 1 -> (clog o ++ log') @! p = Some c)) as Hlog.
  { intros A' Hi' Hg Hl. apply (committed_mono n _ _ _ _ Hg) in Hc. rewrite Elog.
    destruct (Z.eqb_spec k (zlen (clog o) + 1)) as [E|Hne].
    - destruct (log_fact_entry A' _ t l k e Hi' Hl Hc) as [_ Hnew]; [unfold zlen in *; lia|done|].
      rewrite <- Hec. split; [auto|]. intros ->. assert (p = zlen (clog o)) as -> by lia.
      rewrite go_index_app_r, Z.sub_diag by lia. done.
    - split; [done|]. intros ->. destruct (log_fact_entry A' _ t l (p + 1) e Hi' Hl Hc) as [Hold _]; [lia|done|].
      rewrite <- Hec. replace p with (p + 1 - 1) at 1 by lia. apply Hold. lia. }
  destruct (dinv_rel A o _ _ Hd Hst) as (A1 & Hr1 & Hl1 & Hg1).
  destruct (Hlog A1 (rl_inv _ _ _ Hr1) Hg1 Hl1) as [_ Hcmd].
  eapply (dinv_frame A o _ _ log'); [done|done| | | | | |done|].
  - unfold observe. by rewrite Elog.
  - intros A' Hr' Hg' Hl'. by apply Hlog; [apply Hr'|..].
  - unfold log'. case_match; [|by intros ? ?%not_elem_of_nil].
    intros c' ->%list_elem_of_singleton. by eapply Hsd.
  - intros j Hj. simpl. by apply peer_fact_mono.
  - intros u. by left.
  - intros j Hj Hsf. destruct (decide (j = i)) as [->|Hne].
    + split; simpl; rewrite <- ?Elog.
      * unfold zlen in *. rewrite length_app. lia.
      * exists (consume (p, s) (CommandMsg c k)).1, (consume (p, s) (CommandMsg c k)).2. rewrite !upd_eq. split.
        -- unfold consume. cbn [fst snd msgIndex]. destruct (Z.leb_spec k s); simpl.
           ++ eapply told_snoc; [by apply told_app|by constructor].
           ++ destruct Hk as [?| ->]; [lia|]. eapply told_snoc; [by apply told_app|constructor; auto].
        -- eapply place_receive; [exact Hp|by right|by auto|by auto|by left].
      * rewrite upd_eq. done.
    + apply service_fact_other with (o := o); simpl; rewrite ?upd_ne by done; try done.
      exists log'. by rewrite Elog.
Qed.

Lemma dinv_peers A o (ts1 ts2 : list (Thread (Cmd := Cmd))) t :
  dinv A o -> threads (world o) = ts1 ++ t :: ts2 ->
  peer n (owner t) /\ peer n (target t) /\ delivery_fact (clog o) (submitted o) t.
Proof.
  intros Hd E. assert (t ∈ threads (world o)) as Hin by (rewrite E; apply elem_of_app; right; left).
  destruct (proj1 (Forall_forall _ _) (bi_threads _ _ (rl_base _ _ _ (di_rel _ _ Hd))) _ Hin).
  split_and!; [done|done|by apply Hd].
Qed.

(** The service of a peer receives a snapshot. *)
Lemma dinv_snap_deliver A o ts1 ts2 i inc T server args msg reply :
  dinv A o ->
  threads (world o) = ts1 ++ TSnapDeliver i inc T server (incs (world o) server) args msg reply :: ts2 ->
  exists A', dinv A' (observe (LDeliver server msg) o
    (world o |> deliver server msg |> setThreads (ts1 ++ TSnapRep i inc T server args reply :: ts2))) /\ grows A A'.
Proof.
  intros Hd E. pose proof (cs_snap_deliver n _ _ _ _ _ _ _ _ _ _ E) as Hst.
  destruct (dinv_peers _ _ _ _ _ Hd E) as (_ & Hs & d & tm & k & -> & Hg). simpl in Hs.
  assert (forall t, isSnapDeliver t = true -> t ∈ ts1 ++ TSnapRep i inc T server args reply :: ts2 ->
    t ∈ threads (world o)) as Hold.
  { intros t Ht. rewrite E, !elem_of_app, !elem_of_cons. naive_solver. }
  assert (forall j k', pendingSnap (world o) j k' -> j <> server \/ k' <> k ->
    pendingSnap (setThreads (ts1 ++ TSnapRep i inc T server args reply :: ts2) (world o)) j k') as Hpend.
  { intros j k' (own & inc' & T' & args' & m & r & Hin & <-) Hne. exists own, inc', T', args', m, r. split; [|done].
    simpl. rewrite E, elem_of_app, elem_of_cons in Hin. rewrite elem_of_app, elem_of_cons.
    destruct Hin as [?|[Eq|?]]; [by left| |by right; right]. exfalso. injection Eq as _ _ _ -> _ _ -> _.
    by destruct Hne. }
  eapply (dinv_frame A o _ _ []); [done|done|by rewrite app_nil_r| | | | | |].
  - intros A' _ _. by rewrite app_nil_r.
  - by intros c ?%not_elem_of_nil.
  - intros j Hj. by apply peer_fact_mono.
  - intros t. simpl. rewrite E, !elem_of_app, !elem_of_cons. naive_solver.
  - intros Hin own inc' T' j sinc args' m r Ht%Hold; [|done]. by eapply Hin.
  - intros j Hj. destruct (decide (j = server)) as [->|Hne].
    + intros [Hb (p & s & Ht & Hp) Hsd]. split; simpl; [done| |done].
      exists (consume (Cmd := Cmd) (p, s) (SnapshotMsg d tm k)).1, (consume (Cmd := Cmd) (p, s) (SnapshotMsg d tm k)).2. rewrite !upd_eq.
      assert (pendingSnap (world o) server k) as Hpk.
      { exists i, inc, T, args, (SnapshotMsg d tm k), reply. split; [|done]. rewrite E. apply elem_of_app. right. left. }
      split.
      * destruct (pl_pending _ _ _ _ _ _ Hp k Hpk) as [_ Hks]. unfold consume. cbn [fst snd msgIndex].
        eapply told_snoc; [done|].
        destruct (Z.leb_spec k s); cbn [fst snd]; constructor; (done || lia).
      * eapply place_receive; [exact Hp|by left| | |by right].
        -- intros k' (own & inc' & T' & args' & m & r & Ht' & <-). exists own, inc', T', args', m, r.
           split; [|done]. by apply Hold.
        -- intros k' Hk'. destruct (decide (k' = k)) as [->|?]; [by right|left]. by apply Hpend; [|right].
    + apply service_fact_other; simpl; rewrite ?upd_ne by done; try done; [exists []; by rewrite app_nil_r|].
      intros k'. split; [intros Hk'; by apply Hpend; [|left]|].
      intros (own & inc' & T' & args' & m & r & Ht' & <-). exists own, inc', T', args', m, r.
      split; [|done]. by apply Hold.
Qed.

(** A snapshot is installed. *)
Lemma dinv_snap_install A o ts1 ts2 env i inc T server args rf' reply msg :
  dinv A o -> threads (world o) = ts1 ++ TSnapReq i inc T server args :: ts2 ->
  InstallSnapshot env args (nodes (world o) server) = Some (rf', reply, [SendApplyCh msg]) ->
  exists A', dinv A' (observe LTau o (world o |> setNode server rf' |> setThreads (ts1 ++
    TSnapDeliver i inc T server (incs (world o) server) args msg reply :: ts2))) /\ grows A A'.
Proof.
  intros Hd E Hs. pose proof (cs_snap_install n _ _ _ _ _ _ _ _ _ _ _ _ E Hs) as Hst.
  destruct (dinv_peers _ _ _ _ _ Hd E) as (_ & Hsv & Hg). simpl in Hsv, Hg.
  destruct (InstallSnapshot_cases _ _ _ _ _ _ Hs) as [[[=] _]|([= ->] & Hlt & E1 & E2 & E3 & Hent)].
  set (k := is_LastIncludedIndex args) in *.
  set (new := TSnapDeliver i inc T server (incs (world o) server) args _ reply) in *.
  assert (forall t, t ∈ ts1 ++ new :: ts2 -> t = new \/ t ∈ threads (world o)) as Hold.
  { intros t. rewrite E, !elem_of_app, !elem_of_cons. naive_solver. }
  assert (forall t, isSnapDeliver t = true -> t ∈ threads (world o) -> t ∈ ts1 ++ new :: ts2) as Hkept.
  { intros t Ht. rewrite E, !elem_of_app, !elem_of_cons. naive_solver. }
  assert (forall j k', pendingSnap (setThreads (ts1 ++ new :: ts2) (world o)) j k' <->
     pendingSnap (world o) j k' \/ j = server /\ k' = k) as Hpend.
  { intros j k'. unfold pendingSnap. simpl. split.
    - intros (own & inc' & T' & args' & m & r & [Hn|Hin]%Hold & <-); [|left; eauto 10].
      right. injection Hn as -> -> -> -> _ -> -> ->. done.
    - intros [(own & inc' & T' & args' & m & r & Hin & <-)|[-> ->]].
      + exists own, inc', T', args', m, r. split; [by apply Hkept|done].
      + eexists _, _, _, _, _, _. split; [apply elem_of_app; right; left|done]. }
  eapply (dinv_frame A o _ _ []); [done|done|by rewrite app_nil_r| | | | | |].
  - intros A' _ _. by rewrite app_nil_r.
  - by intros c ?%not_elem_of_nil.
  - rewrite app_nil_r. intros j Hj. simpl. upd_cases server j; [|done]. intros [_ He]. split; [|auto].
    right. by rewrite E1, E2.
  - rewrite app_nil_r. intros t [->|?]%Hold; [right|by left]. simpl. eauto.
  - intros Hin own inc' T' j sinc args' m r [Hn|Ht]%Hold; [|by eapply Hin].
    injection Hn as -> -> -> -> -> -> -> ->. done.
  - intros j Hj. destruct (decide (j = server)) as [->|Hne].
    + intros [Hb (p & s & Ht & Hp) Hsd]. split; simpl; [done| |done].
      exists p, s. rewrite !upd_eq, E1, E3. split; [done|]. eapply place_install; [done| |exact Hp].
      intros k'. rewrite (Hpend server k'). tauto.
    + apply service_fact_other; simpl; rewrite ?upd_ne by done; try done; [exists []; by rewrite app_nil_r|].
      intros k'. rewrite (Hpend j k'). tauto.
Qed.

(** A peer and its service start again. *)
Lemma dinv_restart A o env i :
  dinv A o -> peer n i ->
  exists A', dinv A' (observe (LRestart i) o (restart env i (world o))) /\ grows A A'.
Proof.
  intros Hd Hi. pose proof (cs_restart n (world o) env i Hi) as Hst.
  pose proof (rl_base _ _ _ (di_rel _ _ Hd)) as Hb.
  pose proof (Make_persistentState env (npeers (nodes (world o) i)) (me (nodes (world o) i)) _
    (bi_durable _ _ Hb i Hi)) as [= _ _ El Ei _].
  pose proof (Make_state env (npeers (nodes (world o) i)) (me (nodes (world o) i)) (Copy (persister (nodes (world o) i))))
    as (_ & _ & Ep & _).
  pose proof (Make_commit env (npeers (nodes (world o) i)) (me (nodes (world o) i)) (Copy (persister (nodes (world o) i))))
    as (_ & Ea).
  pose proof (wf_lii _ (bi_wf _ _ Hb i Hi)) as Hlii.
  pose proof (di_peers _ _ Hd i Hi) as Hpf.
  assert (lastIncludedIndex (nodes (world o) i) <= zlen (clog o)) as Hlen.
  { pose proof (zlen_nonneg (clog o)). destruct (pf_snap _ _ _ Hpf) as [[-> _]|[? _]]; lia. }
  eapply (dinv_frame A o _ _ []); [done|done|by rewrite app_nil_r| | | |by intros t; left| |].
  - intros A' _ _. by rewrite app_nil_r.
  - by intros c ?%not_elem_of_nil.
  - rewrite app_nil_r. intros j Hj. simpl. upd_cases i j; [|done]. intros [Hsn He].
    split; [by rewrite Ei, Ep|]. unfold entriesOf. rewrite El. apply He.
  - intros Hin own inc T j sinc args m r Ht%Hin. simpl. upd_cases i j; lia.
  - intros j Hj. destruct (decide (j = i)) as [->|Hne].
    + intros _. split; simpl; rewrite ?upd_eq; [lia| |done].
      exists (lastIncludedIndex (nodes (world o) i)), 0. split; [constructor|]. rewrite Ea, Ei.
      eapply place_ext; [|apply place_start; lia]. intros k. split; [done|].
      intros (own & inc & T & args & m & r & Ht & _). simpl in Ht. rewrite upd_eq in Ht.
      pose proof (di_incs _ _ Hd _ _ _ _ _ _ _ _ Ht). lia.
    + apply service_fact_other; simpl; rewrite ?upd_ne by done; try done; [exists []; by rewrite app_nil_r|].
      intros k. unfold pendingSnap. simpl. by rewrite upd_ne.
Qed.

(** What a leader sends is of its own log or snapshot. *)
Lemma replicate_fact A o i inc T server m u :
  dinv A o -> peer n i -> replicateTo_send server T (nodes (world o) i) = Some m ->
  u ∈ replicateThread i inc T server m ->
  isSnapDeliver u = false /\ delivery_fact (clog o) (submitted o) u.
Proof.
  intros Hd Hi Hs Hu. pose proof (di_rel _ _ Hd) as Hr. pose proof (di_peers _ _ Hd i Hi) as [Hsn He].
  pose proof (send_entries _ _ _ _ (bi_wf _ _ (rl_base _ _ _ Hr) i Hi) Hs) as Hm.
  destruct m as [|args|args]; simpl in Hu; [by apply not_elem_of_nil in Hu|..];
    apply list_elem_of_singleton in Hu as ->; (split; [done|]); simpl.
  - destruct Hm as (-> & -> & next & Hn & Hle & Hl).
    destruct (no_leader _ _ _ _ (rl_nodes _ _ _ Hr i Hi) Hl) as (ld & Hk).
    pose proof (lk_next _ _ _ _ Hk _ _ Hn). destruct Hsn as [[? _]|?]; [lia|done].
  - intros e Hin. by apply He, Hm.
Qed.

(** A quiet step that starts goroutines. *)
Lemma dinv_quiet_spawn A o lb w' i rf' E sub' eff :
  dinv A o -> lstep n (world o) lb w' ->
  observe lb o w' = mkObserved w' (clog o) sub' (base o) -> submitted o ⊆ sub' ->
  peer n i -> (forall j, nodes w' j = upd (nodes (world o)) i rf' j) ->
  keeps E (nodes (world o) i) rf' -> (forall e, e ∈ E -> Command e ∈ sub') ->
  incs w' = incs (world o) -> delivering w' = delivering (world o) -> applied w' = applied (world o) ->
  threads w' = threads (world o) ++ spawns i (world o) eff ->
  exists A', dinv A' (observe lb o w') /\ grows A A'.
Proof.
  intros. destruct (threads_spawn (threads (world o)) (spawns i (world o) eff) (threads w')
    (delivery_fact (clog o) sub')); [done| |by eapply dinv_quiet].
  intros u [? Hf]%spawns_plain. by split.
Qed.

Lemma dinv_start A o i cmd rf' r eff :
  dinv A o -> peer n i -> Start cmd (nodes (world o) i) = (rf', r, eff) ->
  exists A', dinv A' (observe (LStart i cmd r) o
    (world o |> setNode i rf' |> setThreads (threads (world o) ++ spawns i (world o) eff))) /\ grows A A'.
Proof.
  intros Hd Hp Hs. pose proof (cs_Start n _ i cmd rf' r eff Hp Hs) as Hst.
  pose proof (bi_wf _ _ (rl_base _ _ _ (di_rel _ _ Hd)) i Hp) as Hwf.
  destruct r as [[idx tm] b]. destruct (Start_keeps _ _ _ _ _ Hwf Hs) as [[Hr ->]|[Hr Hk]]; simpl in Hr; subst b.
  - eapply (dinv_quiet_spawn A o _ _ i (nodes (world o) i) []); try done; [apply keeps_refl|].
    by intros ? ?%not_elem_of_nil.
  - eapply (dinv_quiet_spawn A o _ _ i rf' [mkEntry (currentTerm (nodes (world o) i)) cmd]); try done; [set_solver|].
    intros e ->%list_elem_of_singleton. apply elem_of_app. right. left.
Qed.

(** Closes the goals about the goroutines of a quiet step. *)
Ltac quiet_tac := simpl; try done; try apply keeps_refl; try (intros j; apply upd_self); try (by intros ? ?%not_elem_of_nil);
  try (intros u; rewrite ?elem_of_app, ?elem_of_cons; set_solver).

Lemma dinv_step A o lb o' : dinv A o -> dstep o lb o' -> exists A', dinv A' o' /\ grows A A'.
Proof.
  intros Hd (w' & Hs & Ho & Hh & ->). pose proof Hs as Hst. pose proof (rl_base _ _ _ (di_rel _ _ Hd)) as Hb.
  destruct Hs as [env i rf' eff Hp Hs|i Hp|i cmd rf' r eff Hp Hs|i index snap rf' Hp Hx Hs
    |i rf' Hp Hdel Hs|i rf' msg Hp Hdel Hs|i msg Hp Hdel
    |ts1 ts2 i inc server term m E Hinc Hs|ts1 ts2 env i inc term server args rf' reply E Hs
    |ts1 ts2 i inc term server reply rf' v eff E Hinc Hs
    |ts1 ts2 env i inc term server args rf' reply E Hs
    |ts1 ts2 i inc term server args reply rf' E Hinc Hs
    |ts1 ts2 env i inc term server args rf' reply E Hs
    |ts1 ts2 env i inc term server args rf' reply msg E Hs|ts1 ts2 i inc term server args msg reply E
    |ts1 ts2 i inc term server args reply rf' E Hinc Hs|ts1 ts2 t E Hrpc|env i Hp];
    try (destruct (dinv_peers _ _ _ _ _ Hd E) as (Hown & Htg & Hf); simpl in Hown, Htg, Hf).
  - eapply (dinv_quiet_spawn A o _ _ i rf' []); try done; try (by case_match).
    + by eapply ticker_keeps.
    + by intros ? ?%not_elem_of_nil.
  - eapply (dinv_quiet_spawn A o _ _ i (nodes (world o) i) []); try done; [apply upd_self|apply keeps_refl|by intros ? ?%not_elem_of_nil].
  - by eapply dinv_start.
  - by eapply dinv_snapshot.
  - destruct (applier_cases _ _ _ Hs) as [[_ Hk]|(e & [=] & _)].
    eapply (dinv_quiet A o _ _ i rf' []); try done; [by intros ? ?%not_elem_of_nil|by left].
  - by eapply dinv_applier_send.
  - by eapply dinv_applier_sent.
  - eapply (dinv_quiet_message A o _ _ i (nodes (world o) i) [] _ ts1 ts2 (replicateThread i inc term server m)); try done; quiet_tac.
    intros u Hu. exact (replicate_fact A o i inc term server m u Hd Hown Hs Hu).
  - eapply (dinv_quiet_message A o _ _ server rf' [] _ ts1 ts2 [TVoteRep i inc term server reply]); try done; quiet_tac.
    by eapply RequestVote_keeps.
  - eapply (dinv_quiet_message A o _ _ i rf' [] _ ts1 ts2 (spawns i (world o) eff)); try done; quiet_tac.
    + intros u [? Hpl]%spawns_plain. by split.
    + by eapply requestVote_reply_keeps.
  - eapply (dinv_quiet_message A o _ _ server rf' (ae_Entries args) _ ts1 ts2 [TAppRep i inc term server args reply]); try done; quiet_tac.
    eapply AppendEntries_keeps; [|done]. by apply (bi_wf _ _ Hb).
  - eapply (dinv_quiet_message A o _ _ i rf' [] _ ts1 ts2 []); try done; quiet_tac.
    by eapply append_reply_keeps.
  - destruct (InstallSnapshot_cases _ _ _ _ _ _ Hs) as [[_ Hk]|([=] & _)].
    eapply (dinv_quiet_message A o _ _ server rf' [] _ ts1 ts2 [TSnapRep i inc term server args reply]); try done; quiet_tac.
  - by eapply dinv_snap_install.
  - by eapply dinv_snap_deliver.
  - eapply (dinv_quiet_message A o _ _ i rf' [] _ ts1 ts2 []); try done; quiet_tac.
    by eapply snapshot_reply_keeps.
  - eapply (dinv_quiet_message A o _ _ (owner t) (nodes (world o) (owner t)) [] t ts1 ts2 []); try done; quiet_tac.
    by destruct t.
  - by apply dinv_restart.
Qed.

Lemma dinv_init envs : (0 < n)%nat -> dinv ainit (dinit envs).
Proof.
  intros Hn.
  pose proof (rel_init n envs) as Hr. split; simpl.
  - done.
  - exists 0, (dummyLog Cmd). split; [|done].
    exact (no_committed _ _ _ _ (rl_nodes _ _ _ Hr 0 ltac:(unfold peer; lia))).
  - by intros c ?%not_elem_of_nil.
  - intros i Hi. split; [by left|]. by intros e ?%not_elem_of_nil.
  - by intros t ?%not_elem_of_nil.
  - by intros own inc T i sinc args m r ?%not_elem_of_nil.
  - intros i Hi. split; simpl; [unfold zlen; simpl; lia| |done]. exists 0, 0. split; [constructor|].
    eapply place_ext; [|apply place_start; lia]. intros k. split; [done|].
    by intros (own & inc & T & args & m & r & ?%not_elem_of_nil & _).
Qed.

Definition dreachable o : Prop :=
  exists envs, rtc (fun o o' => exists lb, dstep o lb o') (dinit envs) o.

Lemma dreachable_dinv o : (0 < n)%nat -> dreachable o -> exists A, dinv A o.
Proof.
  intros Hn [envs Hs]. revert Hs. generalize (dinit envs), (dinv_init envs Hn). intros o0 H0 Hs.
  assert (exists A, dinv A o0) as HA by eauto. clear H0.
  induction Hs as [|o1 o2 o3 [lb H12] _ IH]; [done|]. destruct HA as [A Hd].
  destruct (dinv_step A o1 lb o2 Hd H12) as (A' & Hd' & _). eauto.
Qed.

(** ** The theorem *)

(** C7. The contract of Raft with services that keep theirs: a service receives a snapshot
    that was installed before the commands after it ([inOrder]; the code does not ensure
    it, as [KvRaftDelivery] shows), and the snapshots it hands over are of commands it was
    told ([honest]).  Then, whatever is lost, delayed or crashes, the commands the services are told of form one sequence, all of them submitted with
    [Start]; what the service of each peer has received since it started, at the index of
    the snapshot it found, is that sequence in order and without gaps, some commands
    repeated, some replaced by the snapshot of a prefix; and the snapshot a peer stores is
    the one of the prefix it has compacted. *)
Theorem raft_delivery o i :
  dreachable o -> peer n i ->
  (forall c, c ∈ clog o -> c ∈ submitted o) /\
  (exists p s, told snapOf (clog o) (base o i) (applied (world o) i) p s /\
    0 <= s <= p /\ base o i <= p <= zlen (clog o) /\ p <= lastApplied (nodes (world o) i)) /\
  (lastIncludedIndex (nodes (world o) i) = 0 /\ ReadSnapshot (persister (nodes (world o) i)) = [] \/
   snapGood snapOf (clog o) (lastIncludedIndex (nodes (world o) i))
     (ReadSnapshot (persister (nodes (world o) i)))).
Proof.
  intros Hr Hi. destruct (dreachable_dinv o) as [A Hd]; [unfold peer in Hi; lia|done|].
  split; [apply Hd|]. split; [|apply (di_peers _ _ Hd i Hi)].
  destruct (di_service _ _ Hd i Hi) as [Hb (p & s & Ht & Hp) _]. exists p, s.
  pose proof (told_bounds _ _ _ _ _ _ Hb Ht). split; [done|]. split; [lia|]. split; [lia|apply Hp].
Qed.

End observed.

(** ** Running an observed cluster *)

#[global] Instance byte_eq_dec : EqDecision Byte.byte := Byte.byte_eq_dec.

Section drun.
Context {Cmd : Type} `{EqDecision Cmd} `{StateCodec Cmd} (n : nat) (snapOf : list (option Cmd) -> bytes).
Implicit Types (o : Observed (Cmd := Cmd)).

Definition honestb (lb : Label (Cmd := Cmd)) o : bool :=
  match lb with
  | LSnapshot _ k d =>
      (k <=? 0) || (k <=? zlen (clog o)) && bool_decide (d = snapOf (take (Z.to_nat k) (clog o)))
  | _ => true
  end.

Definition dexec (ev : Event (Cmd := Cmd)) o : option Observed :=
  let lb := labelOf ev (world o) in
  if inOrder lb (world o) && honestb lb o
  then w' ← exec n ev (world o); Some (observe lb o w') else None.

Fixpoint drun (evs : list Event) o : option Observed :=
  match evs with
  | [] => Some o
  | ev :: evs => o' ← dexec ev o; drun evs o'
  end.

Lemma drun_sound evs o o' :
  drun evs o = Some o' -> rtc (fun o o' => exists lb, dstep n snapOf o lb o') o o'.
Proof.
  revert o. induction evs as [|ev evs IH]; intros o Hr; simpl in Hr; [by simplify_eq|].
  apply bind_Some in Hr as (o1 & He & Hr). eapply rtc_l; [|by apply IH].
  unfold dexec in He. destruct (_ && _) eqn:Hg; [|done]. apply andb_prop in Hg as [Ho Hh].
  apply bind_Some in He as (w' & He & [= <-]). eexists. exists w'. split_and!; [by apply exec_label|done| |done].
  destruct (labelOf ev (world o)); try done. simpl in Hh |- *.
  apply orb_prop in Hh as [?|[? ?]%andb_prop]; b2p; [by left|].
  destruct (Z.le_gt_cases index 0); [by left|right]. split; [lia|done].
Qed.
End drun.

(** ** Example *)

Definition demoSnapOf (l : list (option Z)) : bytes := bitsOfPos (encode l).

Abbreviation turnOf k := (EvThread (Cmd := Z) lateEnv k).

(** Peer 0 commits 42 with peer 1, compacts its log and sends peer 2 the snapshot, which
    is delivered; then 43 is committed, and peer 2 delivers it. *)
Definition demoCompaction : list (Event (Cmd := Z)) :=
  [EvTick lateEnv 0; turnOf 0; turnOf 0; EvLose 0; turnOf 0; turnOf 0; turnOf 0; turnOf 0; EvLose 0;
   EvStart 0 (Some 42); turnOf 0; turnOf 0; turnOf 0; turnOf 0; EvLose 0; EvApplier 0; EvDeliver 0;
   EvSnapshot 0 1 (demoSnapOf [Some 42]); EvHeartbeat 0; EvHeartbeat 0;
   turnOf 0; EvLose 0; turnOf 0; turnOf 1; EvLose 1; turnOf 1; turnOf 0; turnOf 1; turnOf 1; turnOf 0;
   EvStart 0 (Some 43); turnOf 1; turnOf 1; turnOf 1; turnOf 1; turnOf 1; turnOf 1; EvHeartbeat 0;
   turnOf 1; EvLose 1; turnOf 1; turnOf 1; EvApplier 2; EvDeliver 2].

Definition demoDelivered : Observed (Cmd := Z) :=
  default (dinit 3 (fun _ => demoEnv)) (drun 3 demoSnapOf demoCompaction (dinit 3 (fun _ => demoEnv))).

Lemma raft_delivery_witness :
  applied (world demoDelivered) 2 = [SnapshotMsg (demoSnapOf [Some 42]) 1 1; CommandMsg (Some 43) 2] /\
  clog demoDelivered = [Some 42; Some 43] /\
  exists p s, told demoSnapOf (clog demoDelivered) (base demoDelivered 2) (applied (world demoDelivered) 2) p s.
Proof.
  split; [vm_compute; reflexivity|]. split; [vm_compute; reflexivity|].
  destruct (raft_delivery 3 demoSnapOf demoDelivered 2) as (_ & (p & s & Ht & _) & _).
  - exists (fun _ => demoEnv). apply (drun_sound 3 demoSnapOf demoCompaction). vm_compute. reflexivity.
  - split; lia.
  - exists p, s. exact Ht.
Defined.
