(* ===== verification/Replicated.v ===== *)
(** * Services replicated with Raft

    [kvraft], [shardctrler] and [shardkv] are built in the same way on [raft.go]: an RPC
    handler submits a command with [Start] and waits; [applyLoop] takes messages from
    [applyCh], one at a time, changes the service's state, wakes the handler that waits,
    and may hand over a snapshot.  This file states what Raft asks of such a service, as a
    type class, and proves once what each of them gets: at any time the servers of a cluster
    are at positions of one sequence of submitted commands, and each is in the state the
    commands up to its position determine. *)

From S2P Require Import Prelude Persister Raft RaftCodec RaftLocal RaftReplication RaftCluster RaftRun RaftElection RaftAbstract RaftRefinement RaftSafety RaftDelivery.

(** ** The interface *)

(** [Srv] is a server with the RPC handlers that wait in it.  [applies r m v v' s]: with
    a Raft state of size [r], [applyLoop] processes message [m], and then calls
    [rf.Snapshot] with [s] if it is not [None].  [started op r v]: [Start] answered a
    handler that submitted [op] with [r].  [serves]: a handler's critical section.
    [boot ps v]: the server that is started on persister [ps] after [v] has crashed.
    [takesSnapshots] is false for a service that neither makes nor reads snapshots. *)
Class RaftService (Op : Type) := {
  Srv : Type;
  applies : Z -> ApplyMsg Op -> Srv -> Srv -> option (Z * bytes) -> Prop;
  started : Op -> Z * Z * bool -> Srv -> Srv;
  serves : Srv -> Srv -> Prop;
  boot : Persister -> Srv -> Srv;
  takesSnapshots : bool;
  snapshotOf : list Op -> bytes;
}.

Definition isCommand {Cmd} (m : ApplyMsg Cmd) : Prop :=
  match m with CommandMsg _ _ => True | SnapshotMsg _ _ _ => False end.

Section ops.
Context {Op : Type} `{RaftService Op}.

Definition snapOps (l : list (option Op)) : bytes := snapshotOf (omap id l).

(** [tells] for a log of proper commands. *)
Definition tellsOps (ops : list Op) : Z -> Z -> ApplyMsg Op -> Z -> Z -> Prop :=
  tells snapOps (Some <$> ops).

Definition snapGoodOps (ops : list Op) : Z -> bytes -> Prop := snapGood snapOps (Some <$> ops).

Lemma omap_Some_fmap (ops : list Op) : omap id (Some <$> ops) = ops.
Proof. induction ops as [|op ops IH]; [done|]. simpl. by f_equal. Qed.

Lemma all_Some (l : list (option Op)) : Forall is_Some l -> l = Some <$> omap id l.
Proof. induction 1 as [|x l [op ->] _ IH]; [done|]. simpl. by f_equal. Qed.

Lemma snapGoodOps_eq ops k d :
  snapGoodOps ops k d <-> 0 < k <= zlen ops /\ d = snapshotOf (take (Z.to_nat k) ops).
Proof.
  unfold snapGoodOps, snapGood, snapOps, zlen. by rewrite length_fmap, <- fmap_take, omap_Some_fmap.
Qed.
Lemma tellsOps_cases ops p s m p' s' :
  tellsOps ops p s m p' s' ->
  msgIndex m <= s /\ p' = p /\ s' = s \/
  (exists op, ops @! p = Some op /\ m = CommandMsg (Some op) (p + 1) /\ p' = p + 1 /\ s' = p + 1) \/
  (exists d t k, m = SnapshotMsg d t k /\ s < k /\ p <= k /\ snapGoodOps ops k d /\ p' = k /\ s' = k).
Proof.
  intros [m' Hm|c Hc|d t k Hk Hp Hg]; [by left|right; left|right; right; by exists d, t, k].
  unfold go_index in *. destruct (0 <=? p); [|done]. rewrite list_lookup_fmap in Hc.
  destruct (ops !! _) as [op|]; [|done]. exists op. by injection Hc as <-.
Qed.
End ops.

(** What makes a service correct: [holdsAt ops p s v] says that server [v] is in the
    state of the first [p] commands of [ops] and has seen indices up to [s].  A service
    may be unable to apply some commands; [applicable] are the sequences it can apply. *)
Class RaftServiceOk {Op : Type} (RS : RaftService Op) := {
  holdsAt : list Op -> Z -> Z -> Srv -> Prop;
  applicable : list Op -> Prop;
  rs_more ops ops' p s v : p <= zlen ops -> holdsAt ops p s v -> holdsAt (ops ++ ops') p s v;
  rs_started ops p s op r v : holdsAt ops p s v -> holdsAt ops p s (started op r v);
  rs_serves ops p s v v' : holdsAt ops p s v -> serves v v' -> holdsAt ops p s v';
  rs_boot ops p s b ps v :
    0 <= b <= zlen ops -> b = 0 /\ ReadSnapshot ps = [] \/ snapGoodOps ops b (ReadSnapshot ps) ->
    takesSnapshots = true \/ b = 0 -> holdsAt ops p s v -> holdsAt ops b 0 (boot ps v);
  rs_total ops p s m p' s' r v :
    0 <= s <= p -> p <= zlen ops -> tellsOps ops p s m p' s' -> takesSnapshots = true \/ isCommand m ->
    applicable ops -> holdsAt ops p s v ->
    exists v' snap, applies r m v v' snap;
  rs_applies ops p s m p' s' r v v' snap :
    0 <= s <= p -> p <= zlen ops -> tellsOps ops p s m p' s' -> takesSnapshots = true \/ isCommand m ->
    holdsAt ops p s v -> applies r m v v' snap ->
    holdsAt ops p' s' v' /\ forall k d, snap = Some (k, d) -> snapGoodOps ops k d;
}.

(** ** The composite *)

(** A cluster with a server, a [V], on each peer.  [inbox] is the message [applyLoop] has
    taken and not yet applied, [compacting] the snapshot it is about to pass to Raft. *)
Record Replicas {Op V : Type} := mkReplicas {
  obs : Observed (Cmd := Op);
  servers : Z -> V;
  inbox : Z -> option (ApplyMsg Op);
  compacting : Z -> option (Z * bytes);
}.
Arguments Replicas : clear implicits.
Arguments mkReplicas {Op V} _ _ _ _.

(** The commands told of so far. *)
Definition opsOf {Op V} (s : Replicas Op V) : list Op := omap id (clog (obs s)).

Section replicated.
Context {Op : Type} `{StateCodec Op} {RS : RaftService Op} (n : nat) (ordered : bool).
Implicit Types (s : Replicas Op Srv).

Definition allowed (lb : Label (Cmd := Op)) s : bool := negb ordered || inOrder lb (world (obs s)).

(** What a step shows to the clients: the command submitted, or the server that acts. *)
Inductive Action :=
| AInternal
| AStart (i : Z) (op : Op) (r : Z * Z * bool)
| AServe (i : Z) (v' : Srv).

Inductive rpstep s : Action -> Replicas Op Srv -> Prop :=
| rp_raft w' :
    lstep n (world (obs s)) LTau w' ->
    rpstep s AInternal (mkReplicas (observe LTau (obs s) w') (servers s) (inbox s) (compacting s))
| rp_start i op r w' :
    lstep n (world (obs s)) (LStart i (Some op) r) w' ->
    rpstep s (AStart i op r)
      (mkReplicas (observe (LStart i (Some op) r) (obs s) w')
         (upd (servers s) i (started op r (servers s i))) (inbox s) (compacting s))
| rp_receive i msg w' :
    inbox s i = None -> compacting s i = None ->
    lstep n (world (obs s)) (LDeliver i msg) w' -> allowed (LDeliver i msg) s = true ->
    rpstep s AInternal
      (mkReplicas (observe (LDeliver i msg) (obs s) w') (servers s)
         (upd (inbox s) i (Some msg)) (compacting s))
| rp_apply i msg v' snap :
    peer n i -> inbox s i = Some msg ->
    applies (RaftStateSize (persister (nodes (world (obs s)) i))) msg (servers s i) v' snap ->
    rpstep s AInternal
      (mkReplicas (obs s) (upd (servers s) i v') (upd (inbox s) i None) (upd (compacting s) i snap))
| rp_snapshot i k d w' :
    compacting s i = Some (k, d) -> lstep n (world (obs s)) (LSnapshot i k d) w' ->
    rpstep s AInternal
      (mkReplicas (observe (LSnapshot i k d) (obs s) w') (servers s) (inbox s)
         (upd (compacting s) i None))
| rp_serve i v' :
    peer n i -> serves (servers s i) v' ->
    rpstep s (AServe i v') (mkReplicas (obs s) (upd (servers s) i v') (inbox s) (compacting s))
| rp_restart i w' :
    lstep n (world (obs s)) (LRestart i) w' ->
    rpstep s AInternal
      (mkReplicas (observe (LRestart i) (obs s) w')
         (upd (servers s) i (boot (persister (nodes (world (obs s)) i)) (servers s i)))
         (upd (inbox s) i None) (upd (compacting s) i None)).

(** The cluster starts on empty persisters with the servers [v0]. *)
Definition rpinit (envs : Z -> Env) (v0 : Z -> Srv) : Replicas Op Srv :=
  mkReplicas (dinit n envs) v0 (fun _ => None) (fun _ => None).

(** ** What a step does to a service's messages *)

Lemma lstep_applied w lb w' i :
  lstep n w lb w' ->
  applied w' i = match lb with
                 | LDeliver j m => if decide (i = j) then applied w i ++ [m] else applied w i
                 | LRestart j => if decide (i = j) then [] else applied w i
                 | _ => applied w i
                 end.
Proof.
  intros Hs. destruct Hs; simpl; try done; try (by case_match); unfold upd; by case_decide; subst.
Qed.

Lemma lstep_peer w lb w' :
  base_inv n w -> lstep n w lb w' ->
  match lb with LDeliver i _ | LRestart i | LStart i _ _ | LSnapshot i _ _ => peer n i | LTau => True end.
Proof.
  intros Hb Hs. destruct Hs as [| | | | | | | | | | | | | |ts1 ts2 i inc T server args msg reply E| | |]; try done.
  destruct (proj1 (Forall_forall _ _) (bi_threads _ _ Hb) (TSnapDeliver i inc T server (incs w server) args msg reply)) as [_ ?];
    [|done]. rewrite E. apply elem_of_app. right. left.
Qed.

(** The log, the bases and what was submitted, after a step. *)
Lemma observe_clog (lb : Label (Cmd := Op)) o w' : exists l, clog (observe lb o w') = clog o ++ l.
Proof.
  destruct lb as [| | |i [c k|d t k]|]; simpl; try (exists []; by rewrite app_nil_r).
  case_match; [by exists [c]|exists []; by rewrite app_nil_r].
Qed.

Lemma observe_submitted (lb : Label (Cmd := Op)) o w' c :
  c ∈ submitted (observe lb o w') ->
  c ∈ submitted o \/ exists i r, lb = LStart i c r.
Proof.
  destruct lb as [|i cmd [[idx tm] [|]]| | |]; simpl; auto.
  intros [?| ->%list_elem_of_singleton]%elem_of_app; eauto.
Qed.

(** The log of commands only grows; what is new among those submitted was submitted. *)
Lemma rpstep_grows s a s' :
  rpstep s a s' ->
  (exists l, opsOf s' = opsOf s ++ l) /\
  forall c, c ∈ submitted (obs s') -> c ∈ submitted (obs s) \/ exists i op r, a = AStart i op r /\ c = Some op.
Proof.
  assert (forall lb w', exists l, omap id (clog (observe lb (obs s) w')) = opsOf s ++ l) as Hl.
  { intros lb w'. destruct (observe_clog lb (obs s) w') as [l ->]. exists (omap id l). by rewrite omap_app. }
  intros Hs. destruct Hs as [w' Hs|i op r w' Hs|i msg w' Hib Hc Hs Hal|i msg v' snap Hi Hib Hap|i k d w' Hc Hs|i v' Hi Hv|i w' Hs];
    (split; [try apply Hl; exists []; by rewrite app_nil_r|]); cbn [obs]; intros c; try (intros ?; by left);
    intros [?|(j & r' & E)]%observe_submitted; auto; try done.
  right. injection E as -> <- ->. eauto.
Qed.

(** ** The invariant *)

Context `{!StateCodecOk Op} {RSO : RaftServiceOk RS}.
Implicit Types (A : @Spec Op).

(** Server [i] holds the state of the messages it has applied: all it received, except
    the one in its [inbox]. *)
Definition server_fact s i : Prop :=
  exists ms p q, told snapOps (clog (obs s)) (base (obs s) i) ms p q /\ holdsAt (opsOf s) p q (servers s i) /\
    applied (world (obs s)) i = ms ++ option_list (inbox s i).

Record rinv A s : Prop := {
  ri_obs : dinv n snapOps A (obs s);
  ri_some : Forall is_Some (submitted (obs s));
  ri_server i : peer n i -> server_fact s i;
  ri_compact i k d : peer n i -> compacting s i = Some (k, d) -> snapGood snapOps (clog (obs s)) k d;
}.

Lemma rinv_ops A s : rinv A s -> clog (obs s) = Some <$> opsOf s.
Proof.
  intros Hr. apply all_Some, Forall_forall. intros c Hc.
  apply (proj1 (Forall_forall _ _) (ri_some _ _ Hr)). by apply (di_valid _ _ _ _ (ri_obs _ _ Hr)).
Qed.

(** The rest of the cluster when Raft takes a step with label [lb] that the contract
    allows. *)
Lemma rinv_observe A s lb w' :
  rinv A s -> lstep n (world (obs s)) lb w' -> inOrder lb (world (obs s)) = true ->
  honest snapOps lb (obs s) -> (forall i cmd r, lb = LStart i cmd r -> is_Some cmd) ->
  exists A', dinv n snapOps A' (observe lb (obs s) w') /\ grows A A' /\
    Forall is_Some (submitted (observe lb (obs s) w')) /\
    exists l, clog (observe lb (obs s) w') = clog (obs s) ++ l /\
      omap id (clog (observe lb (obs s) w')) = opsOf s ++ omap id l.
Proof.
  intros Hr Hs Ho Hh Hcmd.
  destruct (dinv_step n snapOps A (obs s) lb (observe lb (obs s) w') (ri_obs _ _ Hr)) as (A' & Hd & Hg);
    [by exists w'|].
  exists A'. split; [done|]. split; [done|]. split.
  - destruct lb as [|i cmd [[idx tm] [|]]| | |]; simpl; try apply Hr. apply Forall_app. split; [apply Hr|].
    apply Forall_singleton. by eapply Hcmd.
  - destruct (observe_clog lb (obs s) w') as [l El]. exists l. split; [done|].
    unfold opsOf. by rewrite El, omap_app.
Qed.

Lemma server_fact_more s s' i l :
  zlen (clog (obs s)) = zlen (opsOf s) -> 0 <= base (obs s) i <= zlen (clog (obs s)) ->
  clog (obs s') = clog (obs s) ++ l -> opsOf s' = opsOf s ++ omap id l ->
  base (obs s') i = base (obs s) i -> servers s' i = servers s i ->
  applied (world (obs s)) i ++ option_list (inbox s' i) =
    applied (world (obs s')) i ++ option_list (inbox s i) ->
  (inbox s' i = inbox s i \/ inbox s i = None) ->
  server_fact s i -> server_fact s' i.
Proof.
  intros Hlen Hb El Eo Eb Es Ea Ei (ms & p & q & Ht & Hh & Hap). exists ms, p, q.
  pose proof (told_bounds _ _ _ _ _ _ Hb Ht) as Hp. rewrite Hlen in Hp.
  rewrite El, Eb, Eo, Es. split; [by apply told_app|]. split; [apply rs_more; [lia|done]|].
  destruct Ei as [Ei|Ei].
  - rewrite Ei in *. apply app_inv_tail in Ea. by rewrite <- Ea.
  - rewrite Ei in Ea, Hap. simpl in Ea, Hap. rewrite app_nil_r in Ea, Hap. by rewrite <- Ea, Hap.
Qed.

(** ** Steps *)

Lemma rinv_bounds A s i : rinv A s -> peer n i ->
  zlen (clog (obs s)) = zlen (opsOf s) /\ 0 <= base (obs s) i <= zlen (clog (obs s)).
Proof.
  intros Hr Hi. split; [|by apply (di_service _ _ _ _ (ri_obs _ _ Hr) i Hi)].
  rewrite (rinv_ops A s Hr) at 1. unfold zlen. by rewrite length_fmap.
Qed.

(** A step of Raft that the services do not notice. *)
Lemma rinv_unnoticed A s lb w' cs :
  rinv A s -> lstep n (world (obs s)) lb w' -> inOrder lb (world (obs s)) = true ->
  honest snapOps lb (obs s) -> lb = LTau \/ (exists i k d, lb = LSnapshot i k d) ->
  (forall i k d, cs i = Some (k, d) -> compacting s i = Some (k, d)) ->
  exists A', rinv A' (mkReplicas (observe lb (obs s) w') (servers s) (inbox s) cs) /\ grows A A'.
Proof.
  intros Hr Hs Ho Hh Hlb Hcs.
  destruct (rinv_observe A s lb w' Hr Hs Ho Hh) as (A' & Hd & Hg & Hsub & l & El & Eo).
  { intros i cmd r ->. naive_solver. }
  exists A'. split; [|done]. split; cbn [obs servers inbox compacting]; [done|done| |].
  - intros i Hi. destruct (rinv_bounds A s i Hr Hi) as [Hlen Hb].
    eapply (server_fact_more s _ i l); cbn [obs servers inbox opsOf]; try done; [|..|by left|by apply Hr].
    + destruct Hlb as [->|(? & ? & ? & ->)]; done.
    + f_equal. cbn [world observe]. rewrite (lstep_applied _ _ _ i Hs).
      by destruct Hlb as [->|(? & ? & ? & ->)].
  - intros i k d Hi Hc. rewrite El. apply snapGood_app. by eapply (ri_compact _ _ Hr); eauto.
Qed.

Lemma rinv_start A s i op r w' :
  rinv A s -> lstep n (world (obs s)) (LStart i (Some op) r) w' ->
  exists A', rinv A' (mkReplicas (observe (LStart i (Some op) r) (obs s) w')
    (upd (servers s) i (started op r (servers s i))) (inbox s) (compacting s)) /\ grows A A'.
Proof.
  intros Hr Hs. destruct (rinv_observe A s _ w' Hr Hs) as (A' & Hd & Hg & Hsub & l & El & Eo); [done|done| |].
  { intros ? ? ? [= _ <- _]. eauto. }
  exists A'. split; [|done]. split; cbn [obs servers inbox compacting]; [done|done| |].
  - intros j Hj. destruct (rinv_bounds A s j Hr Hj) as [Hlen Hb].
    pose proof (lstep_applied _ _ _ j Hs) as Hap. simpl in Hap.
    assert (server_fact (mkReplicas (observe (LStart i (Some op) r) (obs s) w') (servers s) (inbox s) (compacting s)) j) as Hsf.
    { eapply (server_fact_more s _ j l); cbn [obs servers inbox opsOf]; try done; [|by left|by apply Hr].
      f_equal. by rewrite <- Hap. }
    destruct Hsf as (ms & p & q & Ht & Hh & Ha). exists ms, p, q. cbn [obs servers inbox opsOf] in *.
    split; [done|]. split; [|done]. upd_cases i j; [by apply rs_started|done].
  - intros j k d Hj Hc. rewrite El. apply snapGood_app. by eapply (ri_compact _ _ Hr).
Qed.

Lemma rinv_receive A s i msg w' :
  rinv A s -> inbox s i = None -> lstep n (world (obs s)) (LDeliver i msg) w' ->
  inOrder (LDeliver i msg) (world (obs s)) = true ->
  exists A', rinv A' (mkReplicas (observe (LDeliver i msg) (obs s) w') (servers s)
    (upd (inbox s) i (Some msg)) (compacting s)) /\ grows A A'.
Proof.
  intros Hr Hib Hs Ho. destruct (rinv_observe A s _ w' Hr Hs Ho) as (A' & Hd & Hg & Hsub & l & El & Eo); [done..|].
  exists A'. split; [|done]. split; cbn [obs servers inbox compacting]; [done|done| |].
  - intros j Hj. destruct (rinv_bounds A s j Hr Hj) as [Hlen Hb].
    pose proof (lstep_applied _ _ _ j Hs) as Hap. simpl in Hap.
    eapply (server_fact_more s _ j l); cbn [obs servers inbox opsOf]; try done; [| |by apply Hr].
    + cbn [world observe]. rewrite Hap. destruct (decide (j = i)) as [->|Hne].
      * rewrite upd_eq, Hib. simpl. by rewrite app_nil_r.
      * by rewrite upd_ne.
    + upd_cases i j; auto.
  - intros j k d Hj Hc. rewrite El. apply snapGood_app. by eapply (ri_compact _ _ Hr).
Qed.

(** The next message for a server that has one in its [inbox]. *)
Lemma rinv_next A s i msg :
  rinv A s -> peer n i -> inbox s i = Some msg ->
  exists ms p q p' q', 0 <= q <= p /\ p <= zlen (opsOf s) /\ tellsOps (opsOf s) p q msg p' q' /\
    holdsAt (opsOf s) p q (servers s i) /\ applied (world (obs s)) i = ms ++ [msg] /\
    told snapOps (clog (obs s)) (base (obs s) i) (applied (world (obs s)) i) p' q'.
Proof.
  intros Hr Hi Hib. destruct (ri_server _ _ Hr i Hi) as (ms & p & q & Ht & Hh & Ha). rewrite Hib in Ha.
  destruct (rinv_bounds A s i Hr Hi) as [Hlen Hb].
  destruct (sf_told _ _ _ (di_service _ _ _ _ (ri_obs _ _ Hr) i Hi)) as (p' & q' & Ht' & _).
  pose proof (told_bounds _ _ _ _ _ _ Hb Ht) as Hp. exists ms, p, q, p', q'. split; [lia|]. split; [lia|].
  split; [|by split_and!]. unfold tellsOps. rewrite <- (rinv_ops A s Hr). simpl in Ha. rewrite Ha in Ht'.
  by eapply told_last.
Qed.

Lemma rinv_apply A s i msg r v' snap :
  rinv A s -> peer n i -> inbox s i = Some msg -> takesSnapshots = true \/ isCommand msg ->
  applies r msg (servers s i) v' snap ->
  rinv A (mkReplicas (obs s) (upd (servers s) i v') (upd (inbox s) i None) (upd (compacting s) i snap)).
Proof.
  intros Hr Hi Hib Hfit Hap. destruct (rinv_next A s i msg Hr Hi Hib) as (ms & p & q & p' & q' & Hq & Hp & Hm & Hh & Ha & Ht).
  destruct (rs_applies _ _ _ _ _ _ _ _ _ _ Hq Hp Hm Hfit Hh Hap) as [Hh' Hsnap].
  split; cbn [obs servers inbox compacting]; [apply Hr|apply Hr| |].
  - intros j Hj. destruct (decide (j = i)) as [->|Hne].
    + exists (applied (world (obs s)) i), p', q'. cbn [obs servers inbox opsOf]. rewrite !upd_eq. simpl.
      split; [done|]. split; [done|]. by rewrite app_nil_r.
    + destruct (ri_server _ _ Hr j Hj) as (ms' & pj & qj & Htj & Hhj & Haj). exists ms', pj, qj.
      cbn [obs servers inbox opsOf]. rewrite !upd_ne by done. done.
  - intros j k d Hj. upd_cases i j; [|by apply (ri_compact _ _ Hr)]. intros E.
    rewrite (rinv_ops A s Hr). by apply Hsnap.
Qed.

Lemma rinv_serve A s i v' :
  rinv A s -> serves (servers s i) v' ->
  rinv A (mkReplicas (obs s) (upd (servers s) i v') (inbox s) (compacting s)).
Proof.
  intros Hr Hv. split; cbn [obs servers inbox compacting]; try apply Hr.
  intros j Hj. destruct (ri_server _ _ Hr j Hj) as (ms & p & q & Ht & Hh & Ha). exists ms, p, q.
  cbn [obs servers inbox opsOf]. split; [done|]. split; [|done]. upd_cases i j; [by eapply rs_serves|done].
Qed.

Lemma rinv_restart A s i w' :
  rinv A s -> takesSnapshots = true \/ lastIncludedIndex (nodes (world (obs s)) i) = 0 -> lstep n (world (obs s)) (LRestart i) w' ->
  exists A', rinv A' (mkReplicas (observe (LRestart i) (obs s) w')
    (upd (servers s) i (boot (persister (nodes (world (obs s)) i)) (servers s i)))
    (upd (inbox s) i None) (upd (compacting s) i None)) /\ grows A A'.
Proof.
  intros Hr Hlii Hs. pose proof (lstep_peer _ _ _ (rl_base _ _ _ (di_rel _ _ _ _ (ri_obs _ _ Hr))) Hs) as Hi. simpl in Hi.
  destruct (rinv_observe A s _ w' Hr Hs) as (A' & Hd & Hg & Hsub & l & El & Eo); [done..|].
  assert (l = []) as -> by (simpl in El; rewrite <- (app_nil_r (clog (obs s))) in El at 1; by apply app_inv_head in El).
  exists A'. split; [|done]. split; cbn [obs servers inbox compacting]; [done|done| |].
  - intros j Hj. destruct (rinv_bounds A s j Hr Hj) as [Hlen Hb].
    pose proof (lstep_applied _ _ _ j Hs) as Hap. simpl in Hap.
    destruct (decide (j = i)) as [->|Hne].
    + destruct (ri_server _ _ Hr i Hi) as (ms & p & q & Ht & Hh & _).
      set (b := lastIncludedIndex (nodes (world (obs s)) i)).
      exists [], b, 0. cbn [obs servers inbox opsOf observe clog base world]. rewrite !upd_eq.
      split; [constructor|]. split; [|done].
      pose proof (pf_snap _ _ _ _ (di_peers _ _ _ _ (ri_obs _ _ Hr) i Hi)) as Hsn. fold b in Hsn.
      change (opsOf (mkReplicas _ _ _ _)) with (opsOf s). eapply rs_boot; [| |exact Hlii|exact Hh].
      * pose proof (zlen_nonneg (clog (obs s))). destruct Hsn as [[E _]|[? _]]; lia.
      * unfold snapGoodOps. by rewrite <- (rinv_ops A s Hr).
    + eapply (server_fact_more s _ j []); cbn [obs servers inbox opsOf]; rewrite ?upd_ne by done; try done; [| |by left|by apply Hr].
      * simpl. by rewrite upd_ne.
      * f_equal. by rewrite <- Hap.
  - intros j k d Hj. upd_cases i j; [done|]. simpl. by apply (ri_compact _ _ Hr).
Qed.

Lemma rinv_init envs v0 :
  (0 < n)%nat -> (forall i, holdsAt [] 0 0 (v0 i)) -> rinv ainit (rpinit envs v0).
Proof.
  intros Hn Hv. split; simpl; [by apply dinv_init|done| |done].
  intros i Hi. exists [], 0, 0. split; [constructor|]. by split.
Qed.

(** ** Clusters without snapshots *)

Definition snapFree (t : Thread (Cmd := Op)) : Prop :=
  match t with TSnapReq _ _ _ _ _ | TSnapDeliver _ _ _ _ _ _ _ _ => False | _ => True end.

(** No peer has compacted its log, and no snapshot is under way. *)
Record nosnap (w : Cluster (Cmd := Op)) : Prop := {
  ns_lii : forall i, peer n i -> lastIncludedIndex (nodes w i) = 0;
  ns_threads : forall t, t ∈ threads w -> snapFree t;
}.

Lemma nosnap_inOrder w lb : nosnap w -> inOrder lb w = true.
Proof.
  intros [_ Ht]. destruct lb as [| | |i [c k|]|]; try done. simpl. apply negb_true_iff, not_true_iff_false.
  intros (t & Hin & Hov)%existsb_exists. apply list_elem_of_In, Ht in Hin. by destruct t.
Qed.

Lemma nosnap_deliver snapOf A (o : Observed (Cmd := Op)) i m w' :
  dinv n snapOf A o -> nosnap (world o) -> lstep n (world o) (LDeliver i m) w' -> isCommand m.
Proof.
  intros Hd [_ Ht] Hs. inversion Hs as [| | | | | |i' msg Hi Hdel| | | | | | | |ts1 ts2 i' inc T server args msg reply E| | |]; subst.
  - destruct (di_service _ _ _ _ Hd i Hi) as [_ (p & q & _ & Hp) _].
    by destruct (pl_sending _ _ _ _ _ _ Hp _ Hdel) as (c & k & -> & _).
  - destruct (Ht (TSnapDeliver i' inc T i (incs (world o) i) args m reply)).
    rewrite E. apply elem_of_app. right. left.
Qed.

Lemma spawns_nosnap i w eff t : t ∈ spawns i w eff -> snapFree t.
Proof. intros (e & _ & He)%list_elem_of_omap. by destruct e; simplify_eq/=. Qed.

Lemma nosnap_message w w' t (ts1 ts2 us : list (Thread (Cmd := Op))) i rf' E :
  nosnap w -> peer n i -> threads w = ts1 ++ t :: ts2 ->
  (forall u, u ∈ threads w' -> u ∈ ts1 \/ u ∈ us \/ u ∈ ts2) ->
  (forall u, u ∈ us -> snapFree u) ->
  (forall j, nodes w' j = upd (nodes w) i rf' j) -> keeps E (nodes w i) rf' -> nosnap w'.
Proof.
  intros [Hl Ht] Hi Et Hth Hus En Hk. split.
  - intros j Hj. rewrite En. upd_cases i j; [|by apply Hl]. rewrite (kp_lii _ _ _ Hk). by apply Hl.
  - intros u [Hu|[Hu|Hu]]%Hth; [|by apply Hus|]; apply Ht; rewrite Et; apply elem_of_app; [by left|by right; right].
Qed.

Lemma nosnap_node w w' i rf' E eff :
  nosnap w -> peer n i -> threads w' = threads w ++ spawns i w eff ->
  (forall j, nodes w' j = upd (nodes w) i rf' j) -> keeps E (nodes w i) rf' -> nosnap w'.
Proof.
  intros [Hl Ht] Hi Et En Hk. split.
  - intros j Hj. rewrite En. upd_cases i j; [|by apply Hl]. rewrite (kp_lii _ _ _ Hk). by apply Hl.
  - intros u. rewrite Et. intros [Hu|Hu]%elem_of_app; [by apply Ht|by eapply spawns_nosnap].
Qed.

Ltac in_tac := simpl; rewrite ?elem_of_app, ?elem_of_cons; tauto.

Lemma nosnap_step A w lb w' :
  rel n A w -> nosnap w -> lstep n w lb w' -> (forall i k d, lb <> LSnapshot i k d) -> nosnap w'.
Proof.
  intros Hr Hns Hs Hlb. pose proof (rl_base _ _ _ Hr) as Hb. pose proof Hns as [Hl Hth].
  assert (forall ts1 t ts2, threads w = ts1 ++ t :: ts2 -> peer n (owner t) /\ peer n (target t)) as Hok.
  { intros ts1 t ts2 E. pose proof (bi_threads _ _ Hb) as Hts. rewrite E in Hts.
    by apply Forall_app in Hts as [_ [? _]%Forall_cons]. }
  assert (forall ts1 t ts2, threads w = ts1 ++ t :: ts2 -> snapFree t) as Hsf.
  { intros ts1 t ts2 E. apply Hth. rewrite E. apply elem_of_app. right. left. }
  destruct Hs as [env i rf' eff Hp Hs|i Hp|i cmd rf' r eff Hp Hs|i index snap rf' Hp Hx Hs
    |i rf' Hp Hdel Hs|i rf' msg Hp Hdel Hs|i msg Hp Hdel
    |ts1 ts2 i inc server term m E Hinc Hs|ts1 ts2 env i inc term server args rf' reply E Hs
    |ts1 ts2 i inc term server reply rf' v eff E Hinc Hs
    |ts1 ts2 env i inc term server args rf' reply E Hs
    |ts1 ts2 i inc term server args reply rf' E Hinc Hs
    |ts1 ts2 env i inc term server args rf' reply E Hs
    |ts1 ts2 env i inc term server args rf' reply msg E Hs|ts1 ts2 i inc term server args msg reply E
    |ts1 ts2 i inc term server args reply rf' E Hinc Hs|ts1 ts2 t E Hrpc|env i Hp];
    try (destruct (Hok _ _ _ E) as [Ho Ht]; simpl in Ho, Ht;
         assert (forall t, t ∈ ts1 ++ ts2 -> t ∈ threads w) as Hsub by (intros t'; rewrite E; in_tac));
    try (exfalso; exact (Hsf _ _ _ E)).
  - eapply (nosnap_node w _ i rf' _ eff); try done; try (by case_match). by eapply ticker_keeps.
  - eapply (nosnap_node w _ i (nodes w i)); try done; [apply upd_self|apply keeps_refl].
  - destruct (Start_keeps _ _ _ _ _ (bi_wf _ _ Hb i Hp) Hs) as [[_ ->]|[_ Hk]];
      [|by eapply (nosnap_node w _ i rf')]. eapply (nosnap_node w _ i (nodes w i)); try done. apply keeps_refl.
  - by destruct (Hlb i index snap).
  - destruct (applier_cases _ _ _ Hs) as [[_ Hk]|(e & [=] & _)]. 
    split; [|done]. intros j Hj. simpl. upd_cases i j; [rewrite (kp_lii _ _ _ Hk)|]; by apply Hl.
  - destruct (applier_cases _ _ _ Hs) as [[[=] _]|(e & _ & -> & _)].
    split; [|done]. intros j Hj. simpl. upd_cases i j; by apply Hl.
  - by split.
  - eapply (nosnap_message w _ _ ts1 ts2 (replicateThread i inc term server m) i (nodes w i)); try done;
      [intros u; in_tac| |apply upd_self|apply keeps_refl].
    intros u Hu. pose proof (send_entries _ _ _ _ (bi_wf _ _ Hb i Ho) Hs) as Hm.
    destruct m as [|args|args]; simpl in Hu; [by apply not_elem_of_nil in Hu| |by apply list_elem_of_singleton in Hu as ->].
    destruct Hm as (_ & _ & next & Hn & Hle & Hld). rewrite (Hl i Ho) in Hle.
    destruct (no_leader _ _ _ _ (rl_nodes _ _ _ Hr i Ho) Hld) as (ld & Hk). pose proof (lk_next _ _ _ _ Hk _ _ Hn). lia.
  - eapply (nosnap_message w _ _ ts1 ts2 [TVoteRep i inc term server reply] server rf'); try done;
      [intros u; in_tac|by intros u ->%list_elem_of_singleton|by eapply RequestVote_keeps].
  - eapply (nosnap_message w _ _ ts1 ts2 (spawns i w eff) i rf'); try done;
      [intros u; in_tac|by intros u; apply spawns_nosnap|by eapply requestVote_reply_keeps].
  - eapply (nosnap_message w _ _ ts1 ts2 [TAppRep i inc term server args reply] server rf'); try done;
      [intros u; in_tac|by intros u ->%list_elem_of_singleton|]. eapply AppendEntries_keeps; [|done]. by apply (bi_wf _ _ Hb).
  - eapply (nosnap_message w _ _ ts1 ts2 [] i rf'); try done; [intros u; in_tac|by intros u ?%not_elem_of_nil|by eapply append_reply_keeps].
  - eapply (nosnap_message w _ _ ts1 ts2 [] i rf'); try done; [intros u; in_tac|by intros u ?%not_elem_of_nil|by eapply snapshot_reply_keeps].
  - split; [done|]. intros u Hu. apply Hth, Hsub, Hu.
  - split; [|done]. intros j Hj. simpl. upd_cases i j; [|by apply Hl].
    pose proof (Make_persistentState env (npeers (nodes w i)) (me (nodes w i)) _ (bi_durable _ _ Hb i Hp)) as [= _ _ _ -> _].
    by apply Hl.
Qed.

(** Servers of which [Q] holds never hand over a snapshot. *)
Record neverCompacts (Q : Srv -> Prop) : Prop := {
  nc_applies : forall r m v v' snap, Q v -> applies r m v v' snap -> Q v' /\ snap = None;
  nc_started : forall op r v, Q v -> Q (started op r v);
  nc_serves : forall v v', Q v -> serves v v' -> Q v';
  nc_boot : forall ps v, Q v -> Q (boot ps v);
}.

(** Either the service takes snapshots and messages are received in order, or there are
    no snapshots. *)
Definition tame (Q : Srv -> Prop) s : Prop :=
  ordered = true /\ takesSnapshots = true \/
  neverCompacts Q /\ nosnap (world (obs s)) /\
  forall i, Q (servers s i) /\ compacting s i = None /\ forall m, inbox s i = Some m -> isCommand m.

Lemma tame_facts Q A s :
  rinv A s -> tame Q s ->
  (ordered = true \/ forall lb, inOrder lb (world (obs s)) = true) /\
  (forall i m, inbox s i = Some m -> takesSnapshots = true \/ isCommand m) /\
  (forall i, peer n i -> takesSnapshots = true \/ lastIncludedIndex (nodes (world (obs s)) i) = 0).
Proof.
  intros Hr [[? ?]|(_ & Hns & HQ)]; [by auto|]. split_and!.
  - right. intros lb. by apply nosnap_inOrder.
  - intros i m Hm. right. by eapply HQ.
  - intros i Hi. right. by apply Hns.
Qed.

Lemma replicas_inv_step Q A s a s' :
  tame Q s -> rinv A s -> rpstep s a s' -> exists A', rinv A' s' /\ grows A A'.
Proof.
  intros Htame Hr Hs. destruct (tame_facts Q A s Hr Htame) as (Hord & Hfit & Hlii). destruct Hs as [w' Hs|i op r w' Hs|i msg w' Hib Hc Hs Hal|i msg v' snap Hi Hib Hap|i k d w' Hc Hs|i v' Hi Hv|i w' Hs].
  - eapply (rinv_unnoticed A s LTau); try done. by left.
  - by apply rinv_start.
  - apply rinv_receive; [done..|]. destruct Hord as [E|Ho]; [|apply Ho].
    unfold allowed in Hal. by rewrite E in Hal.
  - exists A. split; [eapply rinv_apply; eauto|apply grows_refl].
  - pose proof (lstep_peer _ _ _ (rl_base _ _ _ (di_rel _ _ _ _ (ri_obs _ _ Hr))) Hs) as Hi. simpl in Hi.
    eapply (rinv_unnoticed A s (LSnapshot i k d)); try done.
    + right. by eapply (ri_compact _ _ Hr).
    + right. eauto.
    + intros j k' d'. by upd_cases i j.
  - exists A. split; [by apply rinv_serve|apply grows_refl].
  - apply rinv_restart; [done| |done].
    pose proof (lstep_peer _ _ _ (rl_base _ _ _ (di_rel _ _ _ _ (ri_obs _ _ Hr))) Hs) as Hi. simpl in Hi. auto.
Qed.

Lemma tame_step Q A s a s' : rinv A s -> tame Q s -> rpstep s a s' -> tame Q s'.
Proof.
  intros Hr [?|(Hnc & Hns & HQ)] Hs; [by left|right]. split; [done|].
  pose proof (di_rel _ _ _ _ (ri_obs _ _ Hr)) as Hrel.
  destruct Hs as [w' Hs|i op r w' Hs|i msg w' Hib Hc Hs Hal|i msg v' snap Hi Hib Hap|i k d w' Hc Hs|i v' Hi Hv|i w' Hs];
    cbn [obs servers inbox compacting world observe].
  - split; [by eapply nosnap_step|done].
  - split; [by eapply nosnap_step|]. intros j. split; [|apply HQ]. upd_cases i j; [|apply HQ].
    apply (nc_started _ Hnc), HQ.
  - split; [by eapply nosnap_step|]. intros j. destruct (HQ j) as (? & ? & Hj). split_and!; [done|done|].
    intros m. upd_cases i j; [|apply Hj]. intros [= <-]. by apply (nosnap_deliver snapOps A (obs s) i msg w' (ri_obs _ _ Hr)).
  - split; [done|]. intros j. upd_cases i j; [|apply HQ].
    destruct (nc_applies _ Hnc _ _ _ _ _ (proj1 (HQ i)) Hap) as [? ->]. by split_and!.
  - destruct (HQ i) as (_ & E & _). congruence.
  - split; [done|]. intros j. split; [|apply HQ]. upd_cases i j; [|apply HQ].
    eapply (nc_serves _ Hnc); [apply HQ|done].
  - split; [by eapply nosnap_step|]. intros j. upd_cases i j; [|apply HQ]. split; [|done].
    apply (nc_boot _ Hnc), HQ.
Qed.

Lemma tame_init Q envs v0 :
  ordered = true /\ takesSnapshots = true \/ neverCompacts Q /\ (forall i, Q (v0 i)) ->
  tame Q (rpinit envs v0).
Proof.
  intros [?|[Hnc HQ]]; [by left|right]. split; [done|]. split; [|intros i; by split_and!].
  split; simpl; [done|]. by intros t ?%not_elem_of_nil.
Qed.

Definition rpsome s s' : Prop := exists a, rpstep s a s'.

Lemma rpsteps_rinv Q A s s' :
  rinv A s -> tame Q s -> rtc rpsome s s' -> exists A', rinv A' s' /\ tame Q s' /\ grows A A'.
Proof.
  intros Hr Ht Hs. revert A Hr Ht. induction Hs as [|s1 s2 s3 [a H12] _ IH]; intros A Hr Ht.
  - exists A. split_and!; [done|done|apply grows_refl].
  - destruct (replicas_inv_step Q A s1 a s2 Ht Hr H12) as (A' & Hr' & Hg).
    destruct (IH A' Hr') as (A'' & ? & ? & ?); [exact (tame_step Q A s1 a s2 Hr Ht H12)|].
    exists A''. split_and!; [done|done|by eapply grows_trans].
Qed.

(** Server [i] of a reachable cluster is in the state of a prefix of the commands. *)
Lemma rinv_holds A s i :
  rinv A s -> peer n i ->
  exists p q, 0 <= q <= p /\ p <= zlen (opsOf s) /\ holdsAt (opsOf s) p q (servers s i).
Proof.
  intros Hr Hi. destruct (rinv_bounds A s i Hr Hi) as [Hlen Hb].
  destruct (ri_server _ _ Hr i Hi) as (ms & p & q & Ht & Hh & _). exists p, q.
  pose proof (told_bounds _ _ _ _ _ _ Hb Ht). split; [lia|]. split; [lia|done].
Qed.

(** [applyLoop] never gets stuck on a message. *)
Lemma rinv_progress Q A s i msg r :
  tame Q s -> rinv A s -> applicable (opsOf s) -> peer n i -> inbox s i = Some msg -> exists v' snap, applies r msg (servers s i) v' snap.
Proof.
  intros Ht Hr Hok Hi Hib. destruct (rinv_next A s i msg Hr Hi Hib) as (ms & p & q & p' & q' & Hq & Hp & Hm & Hh & _).
  destruct (tame_facts Q A s Hr Ht) as (_ & Hfit & _). exact (rs_total _ _ _ _ _ _ _ _ Hq Hp Hm (Hfit i msg Hib) Hok Hh).
Qed.

Lemma rinv_submitted A s op : rinv A s -> op ∈ opsOf s -> Some op ∈ submitted (obs s).
Proof.
  intros Hr Hop. apply (di_valid _ _ _ _ (ri_obs _ _ Hr)). rewrite (rinv_ops A s Hr).
  by apply list_elem_of_fmap_2.
Qed.
End replicated.

(** ** Running the composite *)

(** The critical sections of a server as functions. *)
Class ServiceExec {Op : Type} (RS : RaftService Op) := {
  SrvEvent : Type;
  serveEv : SrvEvent -> Srv -> option Srv;
  applyEv : Z -> ApplyMsg Op -> Srv -> option (Srv * option (Z * bytes));
  serveEv_sound e v v' : serveEv e v = Some v' -> serves v v';
  applyEv_sound r m v v' snap : applyEv r m v = Some (v', snap) -> applies r m v v' snap;
}.

Section rprun.
Context {Op : Type} `{EqDecision Op} `{StateCodec Op} {RS : RaftService Op} {SE : ServiceExec RS}.
Context (n : nat) (ordered : bool).
Implicit Types (r : Replicas Op Srv).

Inductive RpEvent :=
| RRaft (ev : Event (Cmd := Op))          (* an event of Raft its service does not see *)
| RStart (i : Z) (op : Op)
| RReceive (ev : Event (Cmd := Op))       (* [applyLoop] takes a message *)
| RApply (i : Z)
| RCompact (i : Z)
| RServe (i : Z) (e : SrvEvent)
| RRestart (env : Env) (i : Z).

(** Raft takes the event [ev]; the rest is given by [f]. *)
Definition raftEvent (ev : Event) r (f : Label -> Observed -> option (Action (RS := RS) * Replicas Op Srv))
  : option (Action * Replicas Op Srv) :=
  let w := world (obs r) in
  w' ← exec n ev w; f (labelOf ev w) (observe (labelOf ev w) (obs r) w').

Definition rpexec (ev : RpEvent) r : option (Action * Replicas Op Srv) :=
  match ev with
  | RRaft ev =>
      raftEvent ev r (fun lb o => match lb with
        | LTau => Some (AInternal, mkReplicas o (servers r) (inbox r) (compacting r)) | _ => None end)
  | RStart i op =>
      raftEvent (EvStart i (Some op)) r (fun lb o => match lb with
        | LStart j (Some op') x =>
            Some (AStart j op' x, mkReplicas o (upd (servers r) j (started op' x (servers r j))) (inbox r) (compacting r))
        | _ => None end)
  | RReceive ev =>
      raftEvent ev r (fun lb o => match lb with
        | LDeliver i msg =>
            match inbox r i, compacting r i with
            | None, None =>
                if allowed ordered lb r
                then Some (AInternal, mkReplicas o (servers r) (upd (inbox r) i (Some msg)) (compacting r))
                else None
            | _, _ => None
            end
        | _ => None end)
  | RApply i =>
      if isPeer n i then
        msg ← inbox r i;
        '(v, snap) ← applyEv (RaftStateSize (persister (nodes (world (obs r)) i))) msg (servers r i);
        Some (AInternal, mkReplicas (obs r) (upd (servers r) i v) (upd (inbox r) i None) (upd (compacting r) i snap))
      else None
  | RCompact i =>
      '(k, d) ← compacting r i;
      raftEvent (EvSnapshot i k d) r (fun lb o =>
        Some (AInternal, mkReplicas o (servers r) (inbox r) (upd (compacting r) i None)))
  | RServe i e =>
      if isPeer n i then
        v ← serveEv e (servers r i);
        Some (AServe i v, mkReplicas (obs r) (upd (servers r) i v) (inbox r) (compacting r))
      else None
  | RRestart env i =>
      raftEvent (EvRestart env i) r (fun lb o =>
        Some (AInternal, mkReplicas o (upd (servers r) i (boot (persister (nodes (world (obs r)) i)) (servers r i)))
          (upd (inbox r) i None) (upd (compacting r) i None)))
  end.

Lemma raftEvent_sound ev r f x :
  raftEvent ev r f = Some x ->
  exists w', lstep n (world (obs r)) (labelOf ev (world (obs r))) w' /\
    f (labelOf ev (world (obs r))) (observe (labelOf ev (world (obs r))) (obs r) w') = Some x.
Proof.
  unfold raftEvent. intros (w' & He & Hf)%bind_Some. exists w'. split; [by apply exec_label|done].
Qed.

Lemma rpexec_sound ev r a r' : rpexec ev r = Some (a, r') -> rpstep n ordered r a r'.
Proof.
  intros He. destruct ev as [ev|i op|ev|i|i|i e|env i]; cbn [rpexec] in He;
    try (match type of He with (if isPeer _ ?i then _ else _) = _ =>
           destruct (isPeer n i) eqn:Hi; [apply isPeer_peer in Hi|done] end).
  - apply raftEvent_sound in He as (w' & Hl & Hf). case_match eqn:E; simplify_eq. by apply rp_raft.
  - apply raftEvent_sound in He as (w' & Hl & Hf). simpl in Hl, Hf. simplify_eq. by apply rp_start.
  - apply raftEvent_sound in He as (w' & Hl & Hf). destruct (labelOf ev _) as [| | |i msg|]; simplify_eq.
    destruct (inbox r i) eqn:Hib; [done|]. destruct (compacting r i) eqn:Hc; [done|].
    destruct (allowed _ _ _) eqn:Ha; simplify_eq. by apply rp_receive.
  - apply bind_Some in He as (msg & Hm & He). apply bind_Some in He as ([v snap] & Ha & He). simplify_eq.
    eapply rp_apply; [done|done|]. by apply applyEv_sound.
  - apply bind_Some in He as ([k d] & Hc & He). apply raftEvent_sound in He as (w' & Hl & Hf). simplify_eq.
    by eapply rp_snapshot.
  - apply bind_Some in He as (v & Hv & He). simplify_eq. apply rp_serve; [done|]. by eapply serveEv_sound.
  - apply raftEvent_sound in He as (w' & Hl & Hf). simplify_eq. by apply rp_restart.
Qed.
End rprun.
