(* ===== verification/RaftCommands.v ===== *)
(** * What is in the commands, in any order of delivery

    The contract of [RaftDelivery] is about services that read a snapshot before the
    commands after it.  This file has what needs no such order: if every command that is
    submitted has a property, so has every command in a log, in a message, or handed to a
    service, whatever the snapshots are and however late they arrive. *)

From S2P Require Import Prelude Persister Raft RaftCodec RaftLocal RaftReplication RaftCluster RaftRun RaftElection RaftAbstract RaftRefinement RaftSafety RaftDelivery Replicated.

Section commands.
Context {Cmd : Type} `{StateCodec Cmd} `{!StateCodecOk Cmd} (n : nat) (P : option Cmd -> Prop).
Implicit Types (w : Cluster (Cmd := Cmd)) (t : Thread (Cmd := Cmd)).

Definition properThread t : Prop :=
  match t with
  | TAppReq _ _ _ _ args => forall e, e ∈ ae_Entries args -> P (Command e)
  | TSnapDeliver _ _ _ _ _ _ m _ => ~ isCommand m
  | _ => True
  end.

Definition properMsg (m : ApplyMsg Cmd) : Prop := forall c k, m = CommandMsg c k -> P c.

(** The entries of the peers, those on their way, and what the appliers are sending. *)
Record proper w : Prop := {
  pr_nodes i e : peer n i -> e ∈ entriesOf (nodes w i) -> P (Command e);
  pr_threads t : t ∈ threads w -> properThread t;
  pr_delivering i m : delivering w i = Some m -> properMsg m;
}.

Lemma proper_init envs : proper (cinit n envs).
Proof. split; simpl; [by intros i e _ ?%not_elem_of_nil|by intros t ?%not_elem_of_nil|done]. Qed.

Lemma spawns_proper i w eff t : t ∈ spawns i w eff -> properThread t.
Proof. intros (e & _ & He)%list_elem_of_omap. by destruct e; simplify_eq/=. Qed.

(** A step of peer [i] that adds the entries [E] at most and starts the goroutines [us]. *)
Lemma proper_node w w' i rf' (us : list Thread) :
  proper w -> (forall j, nodes w' j = upd (nodes w) i rf' j) -> delivering w' = delivering w ->
  (forall e, e ∈ entriesOf rf' -> e ∈ entriesOf (nodes w i) \/ P (Command e)) -> peer n i ->
  (forall u, u ∈ threads w' -> u ∈ threads w \/ u ∈ us) -> (forall u, u ∈ us -> properThread u) -> proper w'.
Proof.
  intros [H1 H2 H3] En Ed He Hi Ht Hus. split.
  - intros j e Hj. rewrite En. upd_cases i j; [|by apply H1]. intros [?|?]%He; [by eapply H1|done].
  - intros u [?|?]%Ht; auto.
  - by rewrite Ed.
Qed.

Ltac thread_tac := simpl; intros u; try match goal with E : threads _ = _ |- _ => rewrite E end; rewrite ?elem_of_app, ?elem_of_cons; tauto.

Lemma keeps_entries rf (rf' : Raft Cmd) E :
  keeps E rf rf' -> (forall e, e ∈ E -> P (Command e)) ->
  forall e, e ∈ entriesOf rf' -> e ∈ entriesOf rf \/ P (Command e).
Proof. intros Hk HE e [?|?]%(kp_log _ _ _ Hk); auto. Qed.

Lemma no_entries (e : LogEntry Cmd) : e ∈ [] -> P (Command e).
Proof. by intros ?%not_elem_of_nil. Qed.

Lemma proper_step w lb w' :
  base_inv n w -> proper w -> lstep n w lb w' -> (forall i cmd r, lb = LStart i cmd r -> P cmd) ->
  proper w' /\ forall i m, lb = LDeliver i m -> properMsg m.
Proof.
  intros Hb Hpr Hs Hcmd. pose proof Hpr as [H1 H2 H3].
  assert (forall ts1 t ts2, threads w = ts1 ++ t :: ts2 -> peer n (owner t) /\ peer n (target t) /\ properThread t) as Hok.
  { intros ts1 t ts2 E. pose proof (bi_threads _ _ Hb) as Hts. rewrite E in Hts.
    apply Forall_app in Hts as [_ [[? ?] _]%Forall_cons]. split_and!; [done|done|]. apply H2. rewrite E. apply elem_of_app. right. left. }
  destruct Hs as [env i rf' eff Hp Hs|i Hp|i cmd rf' r eff Hp Hs|i index snap rf' Hp Hx Hs
    |i rf' Hp Hdel Hs|i rf' msg Hp Hdel Hs|i msg Hp Hdel
    |ts1 ts2 i inc server term m E Hinc Hs|ts1 ts2 env i inc term server args rf' reply E Hs
    |ts1 ts2 i inc term server reply rf' v eff E Hinc Hs
    |ts1 ts2 env i inc term server args rf' reply E Hs
    |ts1 ts2 i inc term server args reply rf' E Hinc Hs
    |ts1 ts2 env i inc term server args rf' reply E Hs
    |ts1 ts2 env i inc term server args rf' reply msg E Hs|ts1 ts2 i inc term server args msg reply E
    |ts1 ts2 i inc term server args reply rf' E Hinc Hs|ts1 ts2 t E Hrpc|env i Hp];
    try (destruct (Hok _ _ _ E) as (Ho & Ht & Hth); simpl in Ho, Ht, Hth);
    (split; [|try done]).
  - eapply (proper_node w _ i rf' (spawns i w eff)); try done; try (by case_match); [|thread_tac|apply spawns_proper].
    eapply keeps_entries; [by eapply ticker_keeps|apply no_entries].
  - eapply (proper_node w _ i (nodes w i) (spawns i w (heartbeatLoop (nodes w i)))); try done; [apply upd_self|auto|thread_tac|apply spawns_proper].
  - eapply (proper_node w _ i rf' (spawns i w eff)); try done; [|thread_tac|apply spawns_proper].
    destruct (Start_keeps _ _ _ _ _ (bi_wf _ _ Hb i Hp) Hs) as [[_ ->]|[_ Hk]]; [auto|].
    eapply keeps_entries; [exact Hk|]. intros e ->%list_elem_of_singleton. by eapply Hcmd.
  - eapply (proper_node w _ i rf' []); try done; [|thread_tac|by intros u ?%not_elem_of_nil].
    destruct (Snapshot_cases _ _ _ _ Hs) as [->|(_ & _ & _ & _ & Hent)]; auto.
  - eapply (proper_node w _ i rf' []); try done; [|thread_tac|by intros u ?%not_elem_of_nil].
    destruct (applier_cases _ _ _ Hs) as [[_ Hk]|(e & [=] & _)]. eapply keeps_entries; [exact Hk|apply no_entries].
  - destruct (applier_cases _ _ _ Hs) as [[[=] _]|(e & [= ->] & -> & Hle & He)]. split; simpl; try done.
    + intros j e' Hj. upd_cases i j; by apply H1.
    + intros j m'. upd_cases i j; [|by apply H3]. intros [= <-] c k [= <- <-].
      apply (H1 i); [done|]. eapply entryAt_entries; [done|lia].
  - split; simpl; try done. intros j m'. upd_cases i j; [done|by apply H3].
  - intros j m' [= <- <-]. by eapply H3.
  - eapply (proper_node w _ i (nodes w i) (replicateThread i inc term server m)); try done; [apply upd_self|auto|thread_tac|].
    intros u Hu. pose proof (send_entries _ _ _ _ (bi_wf _ _ Hb i Ho) Hs) as Hm.
    destruct m as [|args|args]; simpl in Hu; [by apply not_elem_of_nil in Hu|..]; apply list_elem_of_singleton in Hu as ->; [done|].
    simpl. intros e He. apply (H1 i); [done|]. by apply Hm.
  - eapply (proper_node w _ server rf' [TVoteRep i inc term server reply]); try done;
      [|thread_tac|by intros u ->%list_elem_of_singleton].
    eapply keeps_entries; [by eapply RequestVote_keeps|apply no_entries].
  - eapply (proper_node w _ i rf' (spawns i w eff)); try done; [|thread_tac|apply spawns_proper].
    eapply keeps_entries; [by eapply requestVote_reply_keeps|apply no_entries].
  - eapply (proper_node w _ server rf' [TAppRep i inc term server args reply]); try done;
      [|thread_tac|by intros u ->%list_elem_of_singleton].
    eapply keeps_entries; [eapply AppendEntries_keeps; [by apply (bi_wf _ _ Hb)|done]|done].
  - eapply (proper_node w _ i rf' []); try done; [|thread_tac|by intros u ?%not_elem_of_nil].
    eapply keeps_entries; [by eapply append_reply_keeps|apply no_entries].
  - eapply (proper_node w _ server rf' [TSnapRep i inc term server args reply]); try done;
      [|thread_tac|by intros u ->%list_elem_of_singleton].
    destruct (InstallSnapshot_cases _ _ _ _ _ _ Hs) as [[_ Hk]|([=] & _)].
    eapply keeps_entries; [exact Hk|apply no_entries].
  - destruct (InstallSnapshot_cases _ _ _ _ _ _ Hs) as [[[=] _]|([= Em] & _ & _ & _ & _ & Hent)].
    eapply (proper_node w _ server rf' [TSnapDeliver i inc term server (incs w server) args msg reply]); try done;
      [auto|thread_tac|intros u ->%list_elem_of_singleton; simpl; destruct msg; [done|by intros []]].
  - split; simpl; try done. intros u. rewrite elem_of_app, elem_of_cons. intros [?|[->|?]]; [|done|];
      apply H2; rewrite E, elem_of_app, elem_of_cons; tauto.
  - intros j m' [= <- <-] c k ->. by destruct Hth.
  - eapply (proper_node w _ i rf' []); try done; [|thread_tac|by intros u ?%not_elem_of_nil].
    eapply keeps_entries; [by eapply snapshot_reply_keeps|apply no_entries].
  - split; simpl; try done. intros u Hu. apply H2. rewrite E, elem_of_app, elem_of_cons. apply elem_of_app in Hu. tauto.
  - split; simpl; try done.
    + intros j e Hj. upd_cases i j; [|by apply H1].
      pose proof (Make_persistentState env (npeers (nodes w i)) (me (nodes w i)) _ (bi_durable _ _ Hb i Hp)) as [= _ _ El _ _].
      unfold entriesOf. rewrite El. by apply H1.
    + intros j m. upd_cases i j; [done|by apply H3].
Qed.
End commands.

(** ** Replicated services *)

Section replicas.
Context {Op : Type} `{StateCodec Op} `{!StateCodecOk Op} {RS : RaftService Op} (n : nat) (ordered : bool).
Implicit Types (s : Replicas Op Srv).

(** Services submit proper commands only, so they are only told of such. *)
Record cmds_ok s : Prop := {
  cm_rel : exists A, rel n A (world (obs s));
  cm_proper : proper n is_Some (world (obs s));
  cm_inbox i m : inbox s i = Some m -> properMsg is_Some m;
}.

Lemma cmds_ok_init envs v0 : cmds_ok (rpinit n envs v0).
Proof. split; simpl; [exists ainit; apply rel_init|apply proper_init|done]. Qed.

Lemma cmds_ok_step s a s' : cmds_ok s -> rpstep n ordered s a s' -> cmds_ok s'.
Proof.
  intros [[A Hr] Hp Hi] Hs.
  assert (forall lb w', lstep n (world (obs s)) lb w' -> (forall i cmd r, lb = LStart i cmd r -> is_Some cmd) ->
    (exists A, rel n A w') /\ proper n is_Some w' /\ forall i m, lb = LDeliver i m -> properMsg is_Some m) as Hw.
  { intros lb w' Hl Hc. destruct (rel_step n A _ w' Hr) as (j & A' & _ & Hr'); [by exists lb|].
    destruct (proper_step n is_Some _ _ _ (rl_base _ _ _ Hr) Hp Hl Hc). split; [by exists A'|done]. }
  destruct Hs as [w' Hs|i op r w' Hs|i msg w' Hib Hc Hs Hal|i msg v' snap Hpi Hib Hap|i k d w' Hc Hs|i v' Hpi Hv|i w' Hs].
  - destruct (Hw _ _ Hs) as (? & ? & _); [done|]. by split.
  - destruct (Hw _ _ Hs) as (? & ? & _); [intros ? ? ? [= _ <- _]; eauto|]. by split.
  - destruct (Hw _ _ Hs) as (? & ? & Hm); [done|]. split; cbn [obs inbox world observe]; [done|done|].
    intros j m. upd_cases i j; [|by apply Hi]. intros [= <-]. by eapply Hm.
  - split; cbn [obs inbox]; [by exists A|done|]. intros j m. upd_cases i j; [done|by apply Hi].
  - destruct (Hw _ _ Hs) as (? & ? & _); [done|]. by split.
  - split; cbn [obs inbox]; [by exists A|done|done].
  - destruct (Hw _ _ Hs) as (? & ? & _); [done|]. split; cbn [obs inbox world observe]; [done|done|].
    intros j m. upd_cases i j; [done|by apply Hi].
Qed.
End replicas.
