(* ===== verification/KvSrv.v ===== *)
(** * The key/value server: [src/src/kvsrv/]

    [server.go] and [client.go]: a single server with duplicate suppression, and
    clerks that retry over a network that loses, delays and repeats messages.  The
    handlers run under [kv.mu]; a clerk's retry loop is driven by the outcome of each
    RPC. *)

From S2P Require Import Prelude.

(** ** Server *)

Record lastOp := mkLastOp { lo_seq : Z; lo_reply : string }.

Record KVServer := mkKVServer {
  data : gmap string string;
  dedup : gmap Z lastOp;
}.

Record PutAppendArgs := mkPutAppendArgs {
  pa_Key : string; pa_Value : string; pa_ClientId : Z; pa_Seq : Z }.

Record GetArgs := mkGetArgs { g_Key : string }.

(** The handlers return the new state and [reply.Value] (initially [""]). *)
Definition Get (args : GetArgs) (kv : KVServer) : KVServer * string :=
  (kv, go_map_get EmptyString (data kv) (g_Key args)).

(** [last, ok := kv.dedup[args.ClientId]; ok && last.seq >= args.Seq] *)
Definition duplicate (args : PutAppendArgs) (kv : KVServer) : option lastOp :=
  last ← dedup kv !! pa_ClientId args;
  if lo_seq last >=? pa_Seq args then Some last else None.

Definition Put (args : PutAppendArgs) (kv : KVServer) : KVServer * string :=
  match duplicate args kv with
  | Some _ => (kv, EmptyString)
  | None =>
      (mkKVServer (<[pa_Key args := pa_Value args]> (data kv))
         (<[pa_ClientId args := mkLastOp (pa_Seq args) EmptyString]> (dedup kv)), EmptyString)
  end.

Definition Append (args : PutAppendArgs) (kv : KVServer) : KVServer * string :=
  match duplicate args kv with
  | Some last => (kv, lo_reply last)
  | None =>
      let old := go_map_get EmptyString (data kv) (pa_Key args) in
      (mkKVServer (<[pa_Key args := String.append old (pa_Value args)]> (data kv))
         (<[pa_ClientId args := mkLastOp (pa_Seq args) old]> (dedup kv)), old)
  end.

Definition StartKVServer : KVServer := mkKVServer ∅ ∅.

(** ** Clerk *)

Record Clerk := mkClerk { clientId : Z; ck_seq : Z }.

Definition MakeClerk (nrand : Z) : Clerk := mkClerk nrand 0.

(** [atomic.AddInt64(&ck.seq, 1)]: the new value, at 64 bits. *)
Definition nextSeq (ck : Clerk) : Clerk * Z :=
  let s := wrap_signed 64 (ck_seq ck + 1) in (mkClerk (clientId ck) s, s).

Inductive OpName := OpPut | OpAppend.

(** A request as the network carries it. *)
Inductive Request :=
| RGet (args : GetArgs)
| RPutAppend (op : OpName) (args : PutAppendArgs).

(** The RPC dispatch ["KVServer."+op]. *)
Definition handle (r : Request) (kv : KVServer) : KVServer * string :=
  match r with
  | RGet args => Get args kv
  | RPutAppend OpPut args => Put args kv
  | RPutAppend OpAppend args => Append args kv
  end.

(** What a call does: the request is lost, the reply is lost, or both arrive. *)
Inductive Outcome := LostRequest | LostReply | Delivered.

(** The retry loop of [Get] and [PutAppend] against a server only this clerk
    uses; [None] when the outcomes run out before a reply arrives. *)
Fixpoint callLoop (r : Request) (outs : list Outcome) (kv : KVServer)
  : KVServer * option string :=
  match outs with
  | [] => (kv, None)
  | LostRequest :: outs => callLoop r outs kv
  | LostReply :: outs => callLoop r outs (handle r kv).1
  | Delivered :: _ => let '(kv', v) := handle r kv in (kv', Some v)
  end.

Definition Clerk_Get (key : string) (outs : list Outcome) (kv : KVServer)
  : KVServer * option string :=
  callLoop (RGet (mkGetArgs key)) outs kv.

(** The arguments [PutAppend] builds once, before its loop. *)
Definition putAppendArgs (key value : string) (ck : Clerk) : Clerk * PutAppendArgs :=
  let '(ck', s) := nextSeq ck in (ck', mkPutAppendArgs key value (clientId ck) s).

Definition Clerk_PutAppend (key value : string) (op : OpName) (outs : list Outcome)
    (ck : Clerk) (kv : KVServer) : Clerk * (KVServer * option string) :=
  let '(ck', args) := putAppendArgs key value ck in
  (ck', callLoop (RPutAppend op args) outs kv).

(** ** The system *)

(** What a clerk is doing: nothing, or call number [id] with request [r]; [start]
    is the number of mutations applied when it was invoked (a history variable). *)
Inductive Busy := Idle | Calling (id : nat) (r : Request) (start : nat).

(** A mutation that took effect: who, its sequence number, the operation. *)
Record Effect := mkEffect { ef_client : Z; ef_seq : Z; ef_op : OpName; ef_key : string; ef_value : string }.

(** A finished call: its clerk and request, the number of mutations applied at its
    invocation and at its return, and the value returned. *)
Record Call := mkCall { c_client : Z; c_req : Request; c_start : nat; c_end : nat; c_value : string }.

Record System := mkSystem {
  srv : KVServer;
  clerks : Z -> Clerk;
  busy : Z -> Busy;
  ncalls : Z -> nat;
  sent : list (Z * nat * Request);    (* requests in the network, any number of copies *)
  replies : list (Z * nat * string);  (* replies in the network *)
  trace : list Effect;                (* mutations applied, in order *)
  history : list Call;                (* finished calls *)
}.

(** The effect of executing [r], when it is a mutation and not a duplicate. *)
Definition effectOf (r : Request) (kv : KVServer) : list Effect :=
  match r with
  | RGet _ => []
  | RPutAppend op a =>
      match duplicate a kv with
      | Some _ => []
      | None => [mkEffect (pa_ClientId a) (pa_Seq a) op (pa_Key a) (pa_Value a)]
      end
  end.

Definition invoke (c : Z) (ck : Clerk) (r : Request) (s : System) : System :=
  mkSystem (srv s) (upd (clerks s) c ck) (upd (busy s) c (Calling (ncalls s c) r (length (trace s))))
    (upd (ncalls s) c (S (ncalls s c))) ((c, ncalls s c, r) :: sent s) (replies s)
    (trace s) (history s).

(** A clerk invokes [Get] or [PutAppend]; the server executes some request that
    was sent (again, or late); a clerk gets a reply to its present call and returns.
    A lost message is one that is never used; a retry sends what is in [sent]
    already.  A clerk makes fewer than 2^63 calls. *)
Inductive sstep (s : System) : System -> Prop :=
| ss_get c key :
    busy s c = Idle ->
    sstep s (invoke c (clerks s c) (RGet (mkGetArgs key)) s)
| ss_putappend c key value op ck args :
    busy s c = Idle -> ck_seq (clerks s c) < 2 ^ 63 - 1 ->
    putAppendArgs key value (clerks s c) = (ck, args) ->
    sstep s (invoke c ck (RPutAppend op args) s)
| ss_exec c id r kv v :
    (c, id, r) ∈ sent s -> handle r (srv s) = (kv, v) ->
    sstep s (mkSystem kv (clerks s) (busy s) (ncalls s) (sent s) ((c, id, v) :: replies s)
               (trace s ++ effectOf r (srv s)) (history s))
| ss_return c id r start v :
    busy s c = Calling id r start -> (c, id, v) ∈ replies s ->
    sstep s (mkSystem (srv s) (clerks s) (upd (busy s) c Idle) (ncalls s) (sent s) (replies s)
               (trace s) (history s ++ [mkCall c r start (length (trace s)) v])).

(** Clerks with distinct ids and a fresh server. *)
Definition sinit : System :=
  mkSystem StartKVServer MakeClerk (fun _ => Idle) (fun _ => 0%nat) [] [] [] [].

(** ** Specification *)

(** The map after the mutations of a trace, applied once each in order. *)
Definition applyEffect (m : gmap string string) (e : Effect) : gmap string string :=
  match ef_op e with
  | OpPut => <[ef_key e := ef_value e]> m
  | OpAppend =>
      <[ef_key e := String.append (go_map_get EmptyString m (ef_key e)) (ef_value e)]> m
  end.

Definition replay (tr : list Effect) : gmap string string := foldl applyEffect ∅ tr.

Definition valueAt (tr : list Effect) (p : nat) (key : string) : string :=
  go_map_get EmptyString (replay (take p tr)) key.

(** What a [PutAppend] returns when its effect is at position [p]. *)
Definition resultAt (tr : list Effect) (p : nat) (e : Effect) : string :=
  match ef_op e with OpPut => EmptyString | OpAppend => valueAt tr p (ef_key e) end.

(** A call is linearized at a position of the trace between its invocation and
    its return: a [Get] returns the value of its key there; a mutation is the trace's
    entry there, and returns the value it replaced. *)
Definition linearized (tr : list Effect) (h : Call) : Prop :=
  exists p, (c_start h <= p <= c_end h)%nat /\
  match c_req h with
  | RGet a => c_value h = valueAt tr p (g_Key a)
  | RPutAppend op a =>
      exists e, tr !! p = Some e /\ (p < c_end h)%nat /\
        e = mkEffect (c_client h) (pa_Seq a) op (pa_Key a) (pa_Value a) /\
        c_value h = resultAt tr p e
  end.

(** ** One clerk over an unreliable network *)

(** A request newer than all the server has seen of its client. *)
Definition newer (args : PutAppendArgs) (kv : KVServer) : Prop :=
  forall last, dedup kv !! pa_ClientId args = Some last -> lo_seq last < pa_Seq args.

Lemma duplicate_newer args kv : newer args kv <-> duplicate args kv = None.
Proof.
  unfold newer, duplicate. destruct (dedup kv !! _) as [last|]; simpl; [|by split; intros].
  destruct (Z.geb_spec (lo_seq last) (pa_Seq args)); split; try done.
  - intros H'. specialize (H' _ eq_refl). lia.
  - by intros _ ? [= <-].
Qed.

(** A second execution of a request changes nothing and answers the same. *)
Lemma handle_again op args kv :
  newer args kv ->
  let '(kv', v) := handle (RPutAppend op args) kv in
  handle (RPutAppend op args) kv' = (kv', v).
Proof.
  intros E%duplicate_newer.
  destruct op; simpl; unfold Put, Append; rewrite E; simpl; unfold duplicate; simpl;
    rewrite lookup_insert_eq; simpl;
    (destruct (Z.geb_spec (pa_Seq args) (pa_Seq args)); [done|lia]).
Qed.

Lemma callLoop_settled r outs kv v :
  handle r kv = (kv, v) -> Delivered ∈ outs -> callLoop r outs kv = (kv, Some v).
Proof.
  intros Hh. induction outs as [|[] outs IH]; intros Hd; simpl.
  - by apply not_elem_of_nil in Hd.
  - apply IH. set_solver.
  - rewrite Hh. apply IH. set_solver.
  - by rewrite Hh.
Qed.

Lemma callLoop_once op args outs kv :
  newer args kv ->
  Delivered ∈ outs ->
  let '(kv', v) := handle (RPutAppend op args) kv in
  callLoop (RPutAppend op args) outs kv = (kv', Some v).
Proof.
  intros Hnew Hd. pose proof (handle_again op args kv Hnew) as Ha.
  destruct (handle (RPutAppend op args) kv) as [kv' v] eqn:Hh.
  revert Hd. induction outs as [|[] outs IH]; intros Hd; cbn [callLoop].
  - by apply not_elem_of_nil in Hd.
  - apply IH. set_solver.
  - rewrite Hh. apply callLoop_settled; [done|set_solver].
  - by rewrite Hh.
Qed.

(** However many requests and replies the network loses, a [PutAppend] one of
    whose calls gets through leaves the server as one execution of the operation
    would, and returns what that execution answers. *)
Theorem PutAppend_exactly_once key value op outs ck kv :
  - 2 ^ 63 <= ck_seq ck < 2 ^ 63 - 1 ->
  (forall last, dedup kv !! clientId ck = Some last -> lo_seq last <= ck_seq ck) ->
  Delivered ∈ outs ->
  let s := ck_seq ck + 1 in
  let old := go_map_get EmptyString (data kv) key in
  Clerk_PutAppend key value op outs ck kv =
    (mkClerk (clientId ck) s,
     (mkKVServer
        (<[key := match op with OpPut => value | OpAppend => String.append old value end]> (data kv))
        (<[clientId ck := mkLastOp s (match op with OpPut => EmptyString | OpAppend => old end)]> (dedup kv)),
      Some (match op with OpPut => EmptyString | OpAppend => old end))).
Proof.
  intros Hs Hd Ho. cbv zeta. unfold Clerk_PutAppend, putAppendArgs, nextSeq.
  rewrite wrap_signed_small by lia.
  set (args := mkPutAppendArgs _ _ _ _).
  assert (newer args kv) as Hnew.
  { intros last Hl. simpl. specialize (Hd _ Hl). lia. }
  pose proof (callLoop_once op args outs kv Hnew Ho) as Hc.
  apply duplicate_newer in Hnew as E.
  destruct op; simpl in Hc; unfold Put, Append in Hc; rewrite E in Hc; by rewrite Hc.
Qed.

Lemma PutAppend_exactly_once_witness :
  (Clerk_PutAppend "k" "b" OpAppend [LostReply; LostRequest; LostReply; Delivered] (mkClerk 7 0)
     (mkKVServer {["k" := "a"]} ∅)).2.2 = Some "a"%string.
Proof.
  rewrite (PutAppend_exactly_once "k" "b" OpAppend _ (mkClerk 7 0) (mkKVServer {["k" := "a"]} ∅));
    [reflexivity|simpl; lia|by intros ? ?|set_solver].
Defined.

(** ** Linearizability *)

Lemma replay_app tr e : replay (tr ++ [e]) = applyEffect (replay tr) e.
Proof. unfold replay. by rewrite foldl_app. Qed.

Lemma valueAt_app tr l p key : (p <= length tr)%nat -> valueAt (tr ++ l) p key = valueAt tr p key.
Proof. intros ?. unfold valueAt. by rewrite take_app_le. Qed.

Lemma valueAt_end tr key : valueAt tr (length tr) key = go_map_get EmptyString (replay tr) key.
Proof. unfold valueAt. by rewrite take_ge. Qed.

Lemma resultAt_app tr l p e : (p <= length tr)%nat -> resultAt (tr ++ l) p e = resultAt tr p e.
Proof. intros ?. unfold resultAt. destruct (ef_op e); [done|]. by apply valueAt_app. Qed.

Lemma linearized_app tr l c r start en en' v :
  linearized tr (mkCall c r start en v) -> (en <= length tr)%nat -> (en <= en')%nat ->
  linearized (tr ++ l) (mkCall c r start en' v).
Proof.
  intros (p & Hp & H) ? ?. exists p. simpl in *. split; [lia|].
  destruct r as [a|op a].
  - rewrite valueAt_app; [done|lia].
  - destruct H as (e & He & Hlt & -> & ->). eexists. split_and!; [|lia|done|].
    + by apply lookup_app_l_Some.
    + rewrite resultAt_app; [done|lia].
Qed.

(** What a request that was sent says about its clerk. *)
Definition sent_ok (s : System) (c : Z) (id : nat) (r : Request) : Prop :=
  (id < ncalls s c)%nat /\
  (forall r' start, busy s c = Calling id r' start -> r = r') /\
  match r with
  | RGet _ => True
  | RPutAppend _ a =>
      pa_ClientId a = c /\ pa_Seq a <= ck_seq (clerks s c) /\
      (forall id' op' a' start, busy s c = Calling id' (RPutAppend op' a') start ->
         pa_Seq a = ck_seq (clerks s c) -> id = id')
  end.

(** A call in progress: its effect, if already in the trace, came after it began. *)
Definition busy_ok (s : System) (c : Z) (id : nat) (r : Request) (start : nat) : Prop :=
  S id = ncalls s c /\ (start <= length (trace s))%nat /\
  match r with
  | RGet _ => True
  | RPutAppend op a =>
      pa_Seq a = ck_seq (clerks s c) /\
      forall p e, trace s !! p = Some e -> ef_client e = c -> ef_seq e = pa_Seq a ->
        (start <= p)%nat /\ e = mkEffect c (pa_Seq a) op (pa_Key a) (pa_Value a)
  end.

Record sinv (s : System) : Prop := {
  si_data : data (srv s) = replay (trace s);
  si_clerk c : clientId (clerks s c) = c /\ 0 <= ck_seq (clerks s c) < 2 ^ 63;
  si_dedup c last : dedup (srv s) !! c = Some last ->
    exists p e, trace s !! p = Some e /\ ef_client e = c /\ ef_seq e = lo_seq last /\
      lo_reply last = resultAt (trace s) p e;
  si_trace p e : trace s !! p = Some e ->
    ef_seq e <= ck_seq (clerks s (ef_client e)) /\
    exists last, dedup (srv s) !! ef_client e = Some last /\ ef_seq e <= lo_seq last;
  si_nodup : NoDup ((fun e => (ef_client e, ef_seq e)) <$> trace s);
  si_sent c id r : (c, id, r) ∈ sent s -> sent_ok s c id r;
  si_busy c id r start : busy s c = Calling id r start -> busy_ok s c id r start;
  si_replies c id v : (c, id, v) ∈ replies s -> (id < ncalls s c)%nat /\
    forall r start, busy s c = Calling id r start ->
      linearized (trace s) (mkCall c r start (length (trace s)) v);
  si_history h : h ∈ history s -> linearized (trace s) h /\ (c_end h <= length (trace s))%nat;
}.

Lemma sinv_init : sinv sinit.
Proof.
  split; simpl; try done; try (intros; set_solver).
  apply NoDup_nil_2.
Qed.

Lemma sinv_get s c key :
  sinv s -> busy s c = Idle -> sinv (invoke c (clerks s c) (RGet (mkGetArgs key)) s).
Proof.
  intros [] Hb. split; simpl; try done.
  - intros c'. upd_cases c c'; eauto.
  - intros p e He. destruct (si_trace0 p e He) as [? ?]. split; [|done].
    unfold upd. case_decide as E; [by rewrite <- E|done].
  - intros c' id r [[= -> -> ->]|Hin]%elem_of_cons; unfold sent_ok; simpl.
    + rewrite !upd_eq. split_and!; [lia| |done]. by intros; simplify_eq.
    + pose proof (si_sent0 _ _ _ Hin) as (? & Hr & Hm). upd_cases c c'; [|done]. split_and!; [lia| |].
      * intros; simplify_eq; lia.
      * destruct r as [|op a]; [done|]. destruct Hm as (? & ? & ?). split_and!; try done; lia.
  - intros c' id r start Hbu. unfold busy_ok; simpl. upd_cases c c'.
    + by simplify_eq.
    + by apply si_busy0.
  - intros c' id v Hin. destruct (si_replies0 _ _ _ Hin) as [? Hl]. upd_cases c c'; [|done].
    split; [lia|]. intros; simplify_eq; lia.
Qed.

Lemma sinv_putappend s c key value op ck args :
  sinv s -> busy s c = Idle -> ck_seq (clerks s c) < 2 ^ 63 - 1 ->
  putAppendArgs key value (clerks s c) = (ck, args) ->
  sinv (invoke c ck (RPutAppend op args) s).
Proof.
  intros [] Hb Hseq Hargs. destruct (si_clerk0 c) as [Hc Hs].
  unfold putAppendArgs, nextSeq in Hargs. rewrite wrap_signed_small in Hargs by lia.
  injection Hargs as <- <-. rewrite !Hc. split; simpl; try done.
  - intros c'. upd_cases c c'; [simpl; lia|eauto].
  - intros p e He. destruct (si_trace0 p e He) as [? ?]. split; [|done].
    unfold upd. case_decide as E; [|done]. rewrite E in *. simpl. lia.
  - intros c' id r [[= -> -> ->]|Hin]%elem_of_cons; unfold sent_ok; simpl.
    + rewrite !upd_eq. simpl. split_and!; [lia| |done|lia|]; by intros; simplify_eq.
    + pose proof (si_sent0 _ _ _ Hin) as (? & Hr & Hm). upd_cases c c'; [|done]. split_and!; [lia| |].
      * intros; simplify_eq; lia.
      * destruct r as [|op' a]; [done|]. simpl. destruct Hm as (? & ? & ?). split_and!; try done; lia.
  - intros c' id r start Hbu. unfold busy_ok; simpl. upd_cases c c'.
    + simplify_eq. simpl. split_and!; try done. intros p e He <- Hq.
      destruct (si_trace0 p e He) as [? ?]. lia.
    + by apply si_busy0.
  - intros c' id v Hin. destruct (si_replies0 _ _ _ Hin) as [? Hl]. upd_cases c c'; [|done].
    split; [lia|]. intros; simplify_eq; lia.
Qed.

(** Adding a reply that is right for the call it answers. *)
Lemma sinv_reply s c id v :
  sinv s -> (id < ncalls s c)%nat ->
  (forall r start, busy s c = Calling id r start ->
     linearized (trace s) (mkCall c r start (length (trace s)) v)) ->
  sinv (mkSystem (srv s) (clerks s) (busy s) (ncalls s) (sent s) ((c, id, v) :: replies s)
          (trace s) (history s)).
Proof.
  intros [] Hid Hl. split; try done. simpl.
  intros c' id' v' [[= -> -> ->]|Hin]%elem_of_cons; [done|eauto].
Qed.

(** The answer to a duplicate of the present call is the one first computed. *)
Lemma duplicate_linearized s c id op a last start :
  sinv s -> (c, id, RPutAppend op a) ∈ sent s -> duplicate a (srv s) = Some last ->
  busy s c = Calling id (RPutAppend op a) start ->
  linearized (trace s) (mkCall c (RPutAppend op a) start (length (trace s))
    (handle (RPutAppend op a) (srv s)).2).
Proof.
  intros Hi Hin Hd Hb.
  destruct (si_sent _ Hi _ _ _ Hin) as (_ & _ & <- & _ & _).
  destruct (si_busy _ Hi _ _ _ _ Hb) as (_ & _ & Hs & Ht).
  assert (Hdup := Hd). apply bind_Some in Hd as (last' & Hl & Hd). case_in Hd. b2p.
  destruct (si_dedup _ Hi _ _ Hl) as (p & e & He & Hec & Hes & Hr).
  destruct (si_trace _ Hi _ _ He) as [Hle _].
  rewrite Hec in Hle. destruct (Ht p e He) as [? ->]; [done|lia|].
  assert (p < length (trace s))%nat by (eapply lookup_lt_Some; done).
  exists p. simpl. split; [lia|]. eexists. split_and!; [done|done|done|].
  destruct op; simpl; unfold Put, Append; by rewrite Hdup.
Qed.

(** The state after a mutation that is not a duplicate. *)
Definition applied (op : OpName) (a : PutAppendArgs) (kv : KVServer) : KVServer :=
  mkKVServer
    (applyEffect (data kv) (mkEffect (pa_ClientId a) (pa_Seq a) op (pa_Key a) (pa_Value a)))
    (<[pa_ClientId a := mkLastOp (pa_Seq a)
        match op with OpPut => EmptyString | OpAppend => go_map_get EmptyString (data kv) (pa_Key a) end]>
       (dedup kv)).

Lemma handle_applied op a kv :
  duplicate a kv = None ->
  handle (RPutAppend op a) kv =
    (applied op a kv,
     match op with OpPut => EmptyString | OpAppend => go_map_get EmptyString (data kv) (pa_Key a) end).
Proof. intros E. destruct op; simpl; unfold Put, Append; by rewrite E. Qed.

Lemma trace_snoc_lookup (tr : list Effect) e p e' :
  (tr ++ [e]) !! p = Some e' -> tr !! p = Some e' \/ p = length tr /\ e' = e.
Proof.
  intros [|[? H]]%lookup_app_Some; [by left|right].
  apply list_lookup_singleton_Some in H as [? ?]. split; [lia|done].
Qed.

Lemma sinv_mutate s c id op a :
  sinv s -> (c, id, RPutAppend op a) ∈ sent s -> duplicate a (srv s) = None ->
  sinv (mkSystem (applied op a (srv s)) (clerks s) (busy s) (ncalls s) (sent s) (replies s)
          (trace s ++ [mkEffect (pa_ClientId a) (pa_Seq a) op (pa_Key a) (pa_Value a)]) (history s)).
Proof.
  intros Hi Hin Hd. destruct (si_sent _ Hi _ _ _ Hin) as (Hid & Hcur & Hcl & Hle & Hsame).
  apply duplicate_newer in Hd as Hnew. unfold newer in Hnew. rewrite Hcl in *.
  assert (forall p e, trace s !! p = Some e -> ef_client e = c -> ef_seq e < pa_Seq a) as Hlt.
  { intros p e He <-. destruct (si_trace _ Hi _ _ He) as (_ & last & Hl & ?).
    specialize (Hnew _ Hl). lia. }
  set (e := mkEffect c (pa_Seq a) op (pa_Key a) (pa_Value a)).
  destruct Hi. split; simpl; rewrite ?Hcl; fold e; try done.
  - by rewrite si_data0, replay_app.
  - intros c' last. destruct (decide (c' = c)) as [->|?].
    + rewrite lookup_insert_eq. intros [= <-]. exists (length (trace s)), e.
      split_and!; try done; [by rewrite lookup_app_r, Nat.sub_diag|].
      unfold resultAt. destruct op; simpl; [done|].
      by rewrite valueAt_app, valueAt_end, si_data0.
    + rewrite lookup_insert_ne by done. intros (p & e' & He & ? & ? & Hr)%si_dedup0.
      pose proof (lookup_lt_Some _ _ _ He). exists p, e'.
      split_and!; try done; [by apply lookup_app_l_Some|].
      rewrite resultAt_app; [done|lia].
  - intros p e' [He|[-> ->]]%trace_snoc_lookup; simpl.
    + destruct (si_trace0 _ _ He) as (? & last & Hl & ?). split; [done|].
      destruct (decide (ef_client e' = c)) as [E|?].
      * rewrite E, lookup_insert_eq. eexists. split; [done|]. simpl. specialize (Hlt _ _ He E). lia.
      * rewrite lookup_insert_ne by done. eauto.
    + split; [done|]. rewrite lookup_insert_eq. eexists. split; [done|]. simpl. lia.
  - rewrite fmap_app. apply NoDup_app. split_and!; [done| |by apply NoDup_singleton].
    intros [x y] (e' & [= -> ->] & [p He]%list_elem_of_lookup)%list_elem_of_fmap.
    intros [= Hx Hy]%list_elem_of_singleton. specialize (Hlt _ _ He Hx). lia.
  - intros c' id' r start Hb. destruct (si_busy0 _ _ _ _ Hb) as (? & ? & Hm).
    unfold busy_ok. simpl. split_and!; [done|rewrite length_app; lia|].
    destruct r as [|op' a']; [done|]. destruct Hm as [Hs Ht]. split; [done|].
    intros p e' [He|[-> ->]]%trace_snoc_lookup Hc' Hs'; [by apply Ht|]. simpl in Hc', Hs'. subst c'.
    split; [done|]. assert (id = id') as -> by (eapply Hsame; [done|congruence]).
    specialize (Hcur _ _ Hb). by simplify_eq.
  - intros c' id' v Hr. destruct (si_replies0 _ _ _ Hr) as [? Hl]. split; [done|].
    intros r start Hb. eapply linearized_app; [by apply Hl|lia|rewrite length_app; lia].
  - intros [c' r st en v] Hh. destruct (si_history0 _ Hh) as [Hl ?]. simpl in *.
    split; [|rewrite length_app; lia]. by eapply linearized_app.
Qed.

Lemma sinv_exec s c id r kv v :
  sinv s -> (c, id, r) ∈ sent s -> handle r (srv s) = (kv, v) ->
  sinv (mkSystem kv (clerks s) (busy s) (ncalls s) (sent s) ((c, id, v) :: replies s)
          (trace s ++ effectOf r (srv s)) (history s)).
Proof.
  intros Hi Hin Hh. destruct (si_sent _ Hi _ _ _ Hin) as (Hid & Hcur & Hm).
  destruct r as [[key]|op a]; simpl effectOf.
  - simpl in Hh. unfold Get in Hh. injection Hh as <- <-. rewrite app_nil_r.
    apply sinv_reply; [done..|]. intros r start Hb. rewrite <- (Hcur _ _ Hb).
    destruct (si_busy _ Hi _ _ _ _ Hb) as (_ & ? & _). exists (length (trace s)). simpl.
    split; [lia|]. by rewrite valueAt_end, (si_data _ Hi).
  - destruct (duplicate a (srv s)) as [last|] eqn:Hd.
    + assert (kv = srv s) as ->.
      { destruct op; simpl in Hh; unfold Put, Append in Hh; rewrite Hd in Hh; congruence. }
      rewrite app_nil_r. apply sinv_reply; [done..|]. intros r start Hb.
      pose proof (Hcur _ _ Hb) as <-. replace v with (handle (RPutAppend op a) (srv s)).2 by by rewrite Hh.
      by eapply duplicate_linearized.
    + rewrite handle_applied in Hh by done. injection Hh as <- <-.
      apply (sinv_reply _ c id _ (sinv_mutate _ _ _ _ _ Hi Hin Hd)); [done|].
      cbn [trace busy].
      intros r start Hb. rewrite <- (Hcur _ _ Hb). destruct Hm as (-> & _).
      destruct (si_busy _ Hi _ _ _ _ Hb) as (_ & ? & _). exists (length (trace s)).
      rewrite length_app. cbn [c_start c_end c_req c_value c_client length]. split; [lia|]. eexists.
      split_and!; [by rewrite lookup_app_r, Nat.sub_diag|lia|done|].
      unfold resultAt. destruct op; simpl; [done|].
      by rewrite valueAt_app, valueAt_end, (si_data _ Hi).
Qed.

Lemma sinv_return s c id r start v :
  sinv s -> busy s c = Calling id r start -> (c, id, v) ∈ replies s ->
  sinv (mkSystem (srv s) (clerks s) (upd (busy s) c Idle) (ncalls s) (sent s) (replies s)
          (trace s) (history s ++ [mkCall c r start (length (trace s)) v])).
Proof.
  intros [] Hb Hr. split; simpl; try done.
  - intros c' id' r' (? & Hr' & Hm)%si_sent0. unfold sent_ok; simpl. upd_cases c c'; [|done].
    split_and!; try done. destruct r'; [done|]. by destruct Hm as (? & ? & _).
  - intros c' id' r' start' Hb'. upd_cases c c'; [done|]. by apply si_busy0.
  - intros c' id' v' (? & ?)%si_replies0. split; [done|]. upd_cases c c'; [done|eauto].
  - intros h [Hh| ->%list_elem_of_singleton]%elem_of_app; [eauto|]. simpl. split; [|done].
    destruct (si_replies0 _ _ _ Hr) as [_ Hl]. by apply Hl.
Qed.

Lemma sreachable_sinv s : rtc sstep sinit s -> sinv s.
Proof.
  intros H. pattern s. eapply rtc_ind_r; [apply sinv_init| |exact H].
  intros s1 s2 _ Hs Hi. destruct Hs;
    eauto using sinv_get, sinv_putappend, sinv_exec, sinv_return.
Qed.

(** C9. The key/value server is linearizable, whatever the network loses, delays
    or repeats: the mutations take effect in one order, each at most once; the
    server's map is the result of applying them in that order; and every call that
    returned took effect at one moment between its invocation and its return, a
    [Get] with the value its key had then, a [Put] or [Append] as the mutation at that
    position, with the value it replaced. *)
Theorem kvsrv_linearizable s :
  rtc sstep sinit s ->
  NoDup ((fun e => (ef_client e, ef_seq e)) <$> trace s) /\
  data (srv s) = replay (trace s) /\
  Forall (linearized (trace s)) (history s).
Proof.
  intros Hi%sreachable_sinv. split_and!; [apply si_nodup|apply si_data|]; try done.
  apply Forall_forall. intros h Hh. by apply (si_history _ Hi).
Qed.

(** ** An executable schedule *)

Inductive Event :=
| EvGet (c : Z) (key : string)
| EvPutAppend (c : Z) (key value : string) (op : OpName)
| EvExec (k : nat)             (* the [k]-th request of [sent] *)
| EvReturn (c : Z) (k : nat).  (* [c] takes the [k]-th reply *)

Definition exec (ev : Event) (s : System) : option System :=
  match ev with
  | EvGet c key =>
      match busy s c with
      | Idle => Some (invoke c (clerks s c) (RGet (mkGetArgs key)) s)
      | _ => None
      end
  | EvPutAppend c key value op =>
      match busy s c with
      | Idle =>
          if ck_seq (clerks s c) <? 2 ^ 63 - 1 then
            let '(ck, args) := putAppendArgs key value (clerks s c) in
            Some (invoke c ck (RPutAppend op args) s)
          else None
      | _ => None
      end
  | EvExec k =>
      '(c, id, r) ← sent s !! k;
      let '(kv, v) := handle r (srv s) in
      Some (mkSystem kv (clerks s) (busy s) (ncalls s) (sent s) ((c, id, v) :: replies s)
              (trace s ++ effectOf r (srv s)) (history s))
  | EvReturn c k =>
      '(c', id', v) ← replies s !! k;
      match busy s c with
      | Calling id r start =>
          if bool_decide (c' = c) && bool_decide (id' = id) then
            Some (mkSystem (srv s) (clerks s) (upd (busy s) c Idle) (ncalls s) (sent s) (replies s)
                    (trace s) (history s ++ [mkCall c r start (length (trace s)) v]))
          else None
      | Idle => None
      end
  end.

Definition run (evs : list Event) (s : System) : option System :=
  foldl (fun o ev => s ← o; exec ev s) (Some s) evs.

Lemma sexec_sound ev s s' : exec ev s = Some s' -> sstep s s'.
Proof.
  intros He. destruct ev; simpl in He.
  - case_match eqn:Hb; simplify_eq. by constructor.
  - case_match eqn:Hb; [|done]. case_match eqn:Hs; [|done].
    apply Z.ltb_lt in Hs. simplify_eq. by eapply ss_putappend.
  - apply bind_Some in He as ([[c id] r] & Hk & He). destruct (handle r (srv s)) as [kv v] eqn:Hh.
    simplify_eq. econstructor; [by eapply list_elem_of_lookup_2|done].
  - apply bind_Some in He as ([[c' id'] v] & Hk & He). case_match eqn:Hb; [done|].
    case_match eqn:Hc; [|done]. b2p. subst c' id'. simplify_eq.
    econstructor; [done|by eapply list_elem_of_lookup_2].
Qed.

Lemma srun_sound evs s s' : run evs s = Some s' -> rtc sstep s s'.
Proof.
  revert s'. induction evs as [|ev evs IH] using rev_ind; intros s' Hr; [injection Hr as <-; apply rtc_refl|].
  unfold run in *. rewrite foldl_app in Hr. simpl in Hr.
  apply bind_Some in Hr as (s1 & H1 & He). eapply rtc_r; eauto using sexec_sound.
Qed.

(** Two clerks; the first [Put] is executed twice, and again after it returned. *)
Definition demoRun : list Event :=
  [EvPutAppend 1 "k" "a" OpPut; EvExec 0; EvExec 0; EvReturn 1 0;
   EvPutAppend 2 "k" "b" OpAppend; EvExec 0; EvExec 1; EvReturn 2 1;
   EvGet 1 "k"; EvExec 0; EvReturn 1 0].

Lemma kvsrv_linearizable_witness :
  exists s, c_value <$> history s = [EmptyString; "a"%string; "ab"%string] /\
    Forall (linearized (trace s)) (history s).
Proof.
  assert ((fun s => c_value <$> history s) <$> run demoRun sinit = Some [EmptyString; "a"%string; "ab"%string])
    as Hr by (vm_compute; reflexivity).
  destruct (proj1 (fmap_Some _ _ _) Hr) as (s & Hs & Hh). exists s. split; [done|].
  exact (proj2 (proj2 (kvsrv_linearizable s (srun_sound _ _ _ Hs)))).
Defined.
