(* ===== verification/Waiters.v ===== *)
(** * Waiting for a log index

    The table [waiters map[int]chan R] that [kvraft], [shardctrler] and [shardkv]
    share the use of: an RPC handler makes a channel of capacity one for the index
    [Start] gave it and waits; the apply loop sends what it applied at that index.
    Each server has its own table; this file has its operations and the invariant the
    three servers' proofs rest on. *)

From S2P Require Import Prelude.

Record Waiters (R : Type) := mkWaiters {
  table : gmap Z nat;       (* log index -> channel *)
  chans : list (list R);    (* the channels made so far: the buffer of each *)
}.
Arguments mkWaiters {R} _ _.
Arguments table {R} _.
Arguments chans {R} _.

Section waiters.
Context {R : Type}.
Implicit Types (W : Waiters R).

Definition noWaiters : Waiters R := mkWaiters ∅ [].

(** [ch := make(chan R, 1); waiters[index] = ch] *)
Definition register (index : Z) W : Waiters R * nat :=
  let ch := length (chans W) in
  (mkWaiters (<[index := ch]> (table W)) (chans W ++ [[]]), ch).

(** [if ch, ok := waiters[index]; ok { ch <- r }]; [None]: the sender blocks. *)
Definition wake (index : Z) (r : R) W : option (Waiters R) :=
  match table W !! index with
  | None => Some W
  | Some ch =>
      buf ← chans W !! ch;
      match buf with
      | [] => Some (mkWaiters (table W) (<[ch := [r]]> (chans W)))
      | _ => None
      end
  end.

(** [case r := <-ch: delete(waiters, index)]; [None]: nothing to receive. *)
Definition receive (index : Z) (ch : nat) W : option (Waiters R * R) :=
  buf ← chans W !! ch;
  match buf with
  | [] => None
  | r :: rest => Some (mkWaiters (delete index (table W)) (<[ch := rest]> (chans W)), r)
  end.

(** [case <-time.After(applyTimeout): delete(waiters, index)] *)
Definition expire (index : Z) W : Waiters R :=
  mkWaiters (delete index (table W)) (chans W).

(** ** Invariant *)

(** [last] is the last index applied, [good i r] says that [r] is the outcome at
    index [i], [ws] are the handlers that wait.  A channel of an index not yet applied
    is empty, a full one holds the outcome at its index, and each channel has one index. *)
Record waiters_ok {O} (last : Z) (good : Z -> R -> Prop) (ws : list (O * Z * nat)) W : Prop := {
  wo_table i ch : table W !! i = Some ch ->
    (ch < length (chans W))%nat /\ (last < i -> chans W !! ch = Some []);
  wo_inj i j ch : table W !! i = Some ch -> table W !! j = Some ch -> i = j;
  wo_waits o i ch : (o, i, ch) ∈ ws ->
    (ch < length (chans W))%nat /\ forall j, table W !! j = Some ch -> j = i;
  wo_buf o i ch buf : (o, i, ch) ∈ ws -> chans W !! ch = Some buf ->
    buf = [] \/ exists r, buf = [r] /\ good i r;
}.

Context {O : Type} (good : Z -> R -> Prop).
Implicit Types (ws : list (O * Z * nat)).

Lemma waiters_ok_none last : waiters_ok last good ([] : list (O * Z * nat)) noWaiters.
Proof.
  split; simpl; [done|done|..]; intros; by match goal with Hin : _ ∈ [] |- _ => apply not_elem_of_nil in Hin end.
Qed.

Lemma waiters_ok_advance last last' ws W :
  waiters_ok last good ws W -> last <= last' -> waiters_ok last' good ws W.
Proof.
  intros [] Hle. split; try done. intros i ch Hi. destruct (wo_table0 _ _ Hi) as [? Hc].
  split; [done|]. intros. apply Hc. lia.
Qed.

Lemma waiters_ok_weaken (good' : Z -> R -> Prop) last ws W :
  (forall i r, good i r -> good' i r) -> waiters_ok last good ws W -> waiters_ok last good' ws W.
Proof.
  intros Hg []. split; try done. intros o i ch buf Hin Hb.
  destruct (wo_buf0 o i ch buf Hin Hb) as [?|(r & ? & ?)]; [by left|right]. eauto.
Qed.

Lemma waiters_ok_register last ws W o index W' ch :
  waiters_ok last good ws W -> register index W = (W', ch) ->
  waiters_ok last good ((o, index, ch) :: ws) W'.
Proof.
  intros [] [= <- <-]. split; simpl; try done.
  - intros i ch. rewrite length_app. simpl. destruct (decide (i = index)) as [->|?].
    + rewrite lookup_insert_eq. intros [= <-]. split; [lia|]. intros _.
      by rewrite lookup_app_r, Nat.sub_diag.
    + rewrite lookup_insert_ne by done. intros (? & Hc)%wo_table0. split; [lia|].
      intros. apply lookup_app_l_Some. auto.
  - intros i j ch. rewrite !lookup_insert_Some.
    intros [[-> <-]|[? Hi]] [[-> Hj]|[? Hj]]; try done; [..|eauto].
    + apply wo_table0 in Hj as [? _]. lia.
    + subst. apply wo_table0 in Hi as [? _]. lia.
  - intros op' i ch [[= -> -> ->]|Hin]%elem_of_cons; rewrite length_app; simpl.
    + split; [lia|]. intros j. rewrite lookup_insert_Some. intros [[? _]|[_ Hj]]; [done|].
      apply wo_table0 in Hj as [? _]. lia.
    + destruct (wo_waits0 _ _ _ Hin) as [? Hj]. split; [lia|]. intros j.
      rewrite lookup_insert_Some. intros [[<- <-]|[_ ?]]; [lia|auto].
  - intros op' i ch buf [[= -> -> ->]|Hin]%elem_of_cons.
    + rewrite lookup_app_r, Nat.sub_diag by done. intros [= <-]. by left.
    + destruct (wo_waits0 _ _ _ Hin) as [? _]. rewrite lookup_app_l by done. eauto.
Qed.

(** The outcome at an index not yet applied is sent without blocking. *)
Lemma waiters_ok_wake last ws W index r :
  waiters_ok last good ws W -> last < index -> good index r ->
  exists W', wake index r W = Some W' /\ waiters_ok index good ws W'.
Proof.
  intros Hok Hlt Hg. unfold wake. destruct (table W !! index) as [ch|] eqn:Hw.
  - destruct Hok. destruct (wo_table0 _ _ Hw) as [Hch Hc]. rewrite Hc by done. simpl.
    eexists. split; [done|]. split; simpl; rewrite ?length_insert; try done.
    + intros i ch' Hi. destruct (wo_table0 _ _ Hi) as [? Hc']. split; [done|]. intros ?.
      rewrite list_lookup_insert_ne; [apply Hc'; lia|]. intros ->.
      assert (i = index) by eauto. lia.
    + intros o i ch' buf Hin. rewrite list_lookup_insert_Some.
      intros [(<- & <- & _)|[_ ?]]; [right|eauto]. eexists; split; [done|].
      destruct (wo_waits0 _ _ _ Hin) as [_ Hj]. by rewrite <- (Hj _ Hw).
  - exists W. split; [done|]. eapply waiters_ok_advance; [done|lia].
Qed.

(** Forgetting a waiter, with its channel's buffer emptied or not. *)
Lemma waiters_ok_forget last W o index ch ws1 ws2 buf :
  waiters_ok last good (ws1 ++ (o, index, ch) :: ws2) W ->
  buf = [] \/ chans W !! ch = Some buf ->
  waiters_ok last good (ws1 ++ ws2) (mkWaiters (delete index (table W)) (<[ch := buf]> (chans W))).
Proof.
  intros [] Hbuf.
  assert (forall x, x ∈ ws1 ++ ws2 -> x ∈ ws1 ++ (o, index, ch) :: ws2) as Hsub by set_solver.
  assert (forall ch' b, <[ch := buf]> (chans W) !! ch' = Some b ->
    b = [] \/ chans W !! ch' = Some b) as Hch.
  { intros ch' b. rewrite list_lookup_insert_Some.
    intros [(<- & <- & _)|[_ ?]]; [destruct Hbuf|]; auto. }
  split; simpl; rewrite ?length_insert.
  - intros i ch' [Hne Hi]%lookup_delete_Some. destruct (wo_table0 _ _ Hi) as [? Hc]. split; [done|].
    intros Hlt. rewrite list_lookup_insert_ne; [auto|]. intros ->.
    destruct (wo_waits0 o index ch') as [_ Hj]; [set_solver|]. naive_solver.
  - intros i j ch' [_ ?]%lookup_delete_Some [_ ?]%lookup_delete_Some. eauto.
  - intros o' i ch' (? & Hj)%Hsub%wo_waits0. split; [done|].
    intros j [_ ?]%lookup_delete_Some. auto.
  - intros o' i ch' b Hin%Hsub [->|?]%Hch; [by left|eauto].
Qed.

(** What a handler receives is the outcome at its index. *)
Lemma waiters_ok_receive last W o index ch ws1 ws2 W' r :
  waiters_ok last good (ws1 ++ (o, index, ch) :: ws2) W -> receive index ch W = Some (W', r) ->
  waiters_ok last good (ws1 ++ ws2) W' /\ good index r.
Proof.
  intros Hok Hr. apply bind_Some in Hr as (buf & Hb & Hr). destruct buf as [|r0 rest]; [done|].
  injection Hr as <- <-.
  assert ((o, index, ch) ∈ ws1 ++ (o, index, ch) :: ws2) as Hin by set_solver.
  destruct (wo_buf _ _ _ _ Hok _ _ _ _ Hin Hb) as [?|(r1 & [= -> ->] & ?)]; [done|]. split; [|done]. eapply waiters_ok_forget; [done|by left].
Qed.

Lemma waiters_ok_expire last W o index ch ws1 ws2 :
  waiters_ok last good (ws1 ++ (o, index, ch) :: ws2) W ->
  waiters_ok last good (ws1 ++ ws2) (expire index W).
Proof.
  intros Hok. destruct (wo_waits _ _ _ _ Hok o index ch) as [Hlt _]; [set_solver|].
  apply lookup_lt_is_Some in Hlt as [buf Hb]. unfold expire.
  rewrite <- (list_insert_id (chans W) ch buf) by done.
  eapply waiters_ok_forget; [done|by right].
Qed.
End waiters.
Arguments noWaiters : clear implicits.
