(* ===== verification/Dedup.v ===== *)
(** * Duplicate detection in a replicated log

    [kvraft] and [shardctrler] give each client's requests increasing numbers, and skip a
    request in the log whose number is not above the last one executed for its client.
    This file shows, for any state machine that does so, that the requests take effect
    exactly once, at their first occurrence. *)

From S2P Require Import Prelude.

(** The requests of a log: those that change the state, and the client and number of
    each. *)
Class Requests (Op : Type) := {
  mutating : Op -> bool;
  opId : Op -> Z * Z;
}.

Section dedup.
Context {Op : Type} `{Requests Op}.
Implicit Types (op : Op) (log : list Op).

(** The specification: the first occurrence of each mutating request, in log order. *)
Definition firsts log : list Op :=
  foldl (fun acc op =>
    if mutating op && bool_decide (opId op ∉ opId <$> acc) then acc ++ [op] else acc) [] log.

(** A clerk finishes a request before it sends the next: a request that appears
    in the log after a later one of the same client is a retry. *)
Definition clientOrdered log : Prop :=
  forall i j a b, (i < j)%nat -> log !! i = Some a -> log !! j = Some b ->
    mutating a = true -> mutating b = true ->
    (opId a).1 = (opId b).1 -> (opId b).2 < (opId a).2 ->
    exists k c, (k < i)%nat /\ log !! k = Some c /\ mutating c = true /\ opId c = opId b.

Lemma clientOrdered_app l1 l2 : clientOrdered (l1 ++ l2) -> clientOrdered l1.
Proof.
  intros Ho i j a b Hij Ha Hb Hma Hmb Hc Hs.
  destruct (Ho i j a b) as (k & c & Hk & Hc' & Hm & Hi); try done; try by apply lookup_app_l_Some.
  exists k, c. split_and!; try done.
  pose proof (lookup_lt_Some _ _ _ Ha). rewrite lookup_app_l in Hc'; [done|lia].
Qed.

Lemma firsts_snoc log op :
  firsts (log ++ [op]) =
    if mutating op && bool_decide (opId op ∉ opId <$> firsts log) then firsts log ++ [op] else firsts log.
Proof. unfold firsts. by rewrite foldl_app. Qed.

Lemma firsts_ids log x :
  x ∈ opId <$> firsts log <-> exists op, op ∈ log /\ mutating op = true /\ opId op = x.
Proof.
  induction log as [|op log IH] using rev_ind; [set_solver|].
  assert ((exists o, o ∈ log ++ [op] /\ mutating o = true /\ opId o = x) <->
          x ∈ opId <$> firsts log \/ mutating op = true /\ x = opId op) as ->.
  { rewrite IH. split.
    - intros (o & [Ho| ->%list_elem_of_singleton]%elem_of_app & Hm & <-); eauto.
    - intros [(o & ? & ?)|[? ->]]; [exists o|exists op]; set_solver. }
  rewrite firsts_snoc. destruct (mutating op) eqn:Hm; cbn [andb]; [|naive_solver].
  case_bool_decide as Hin.
  { rewrite fmap_app, elem_of_app, list_elem_of_fmap, list_elem_of_fmap. setoid_rewrite list_elem_of_singleton. naive_solver. }
  split; [by left|]. intros [?|[_ ->]]; [done|]. by destruct (decide (opId op ∈ opId <$> firsts log)).
Qed.

Lemma firsts_NoDup log : NoDup (opId <$> firsts log).
Proof.
  induction log as [|op log IH] using rev_ind; [apply NoDup_nil_2|].
  rewrite firsts_snoc. destruct (mutating op); cbn [andb]; [|done].
  case_bool_decide as Hin; [|done]. rewrite fmap_app. apply NoDup_app.
  split_and!; [done| |apply NoDup_singleton]. intros x Hx ->%list_elem_of_singleton. done.
Qed.

(** ** State machines that detect duplicates *)

(** [step op s s']: applying [op]; [lastSeq s c]: the last number executed for client
    [c]; [effect op d d']: what executing [op] does to the part of the state clients see. *)
Context {S D : Type} (s0 : S) (step : Op -> S -> S -> Prop).
Context (lastSeq : S -> Z -> option Z) (dataOf : S -> D) (effect : Op -> D -> D -> Prop).

(** [step] either skips the request or executes it and records its number. *)
Definition detects : Prop :=
  (forall c, lastSeq s0 c = None) /\
  forall op s s', step op s s' ->
    mutating op = true /\ s' = s /\
      (exists last, lastSeq s (opId op).1 = Some last /\ (opId op).2 <= last) \/
    mutating op = false /\ s' = s \/
    mutating op = true /\ (forall last, lastSeq s (opId op).1 = Some last -> last < (opId op).2) /\
      effect op (dataOf s) (dataOf s') /\
      forall c, lastSeq s' c = if decide (c = (opId op).1) then Some (opId op).2 else lastSeq s c.

Inductive runs : list Op -> S -> Prop :=
| runs_nil : runs [] s0
| runs_snoc log op s s' : runs log s -> step op s s' -> runs (log ++ [op]) s'.

(** The first occurrences alone, executed one after the other. *)
Inductive replays : list Op -> D -> Prop :=
| replays_nil : replays [] (dataOf s0)
| replays_snoc ops op d d' : replays ops d -> effect op d d' -> replays (ops ++ [op]) d'.

Context (Hdet : detects).

(** The table holds the greatest number each client's requests have. *)
Definition dedup_max log s : Prop :=
  (forall op, op ∈ log -> mutating op = true ->
     exists last, lastSeq s (opId op).1 = Some last /\ (opId op).2 <= last) /\
  (forall c last, lastSeq s c = Some last ->
     exists op, op ∈ log /\ mutating op = true /\ opId op = (c, last)).

Lemma runs_dedup_max log s : runs log s -> dedup_max log s.
Proof.
  destruct Hdet as [H0 Hstep].
  induction 1 as [|log op s s' _ [IH1 IH2] Hs];
    [split; [intros ? []%not_elem_of_nil|intros c last E; by rewrite H0 in E]|].
  assert (forall c last, lastSeq s c = Some last ->
    exists o, o ∈ log ++ [op] /\ mutating o = true /\ opId o = (c, last)) as IH2'.
  { intros c last Hc. destruct (IH2 _ _ Hc) as (o & ? & ?). exists o. split; [apply elem_of_app; by left|done]. }
  destruct (Hstep _ _ _ Hs) as [(Hm & -> & Hl)|[[Hm ->]|(Hm & Hl & _ & Hd)]].
  - split; [|done]. by intros o [Ho| ->%list_elem_of_singleton]%elem_of_app ?; [apply IH1|].
  - split; [|done]. intros o [Ho| ->%list_elem_of_singleton]%elem_of_app ?; [by apply IH1|congruence].
  - split.
    + intros o [Ho| ->%list_elem_of_singleton]%elem_of_app Hmo; rewrite Hd; case_decide as E; try done.
      * destruct (IH1 _ Ho Hmo) as (last & Hlast & ?). rewrite E in Hlast. specialize (Hl _ Hlast).
        eexists; split; [done|lia].
      * by apply IH1.
      * eexists; split; [done|lia].
    + intros c last. rewrite Hd. case_decide as E; [|by apply IH2']. intros [= <-]. exists op.
      split; [apply elem_of_app; right; by apply list_elem_of_singleton|]. split; [done|]. subst. by destruct (opId op).
Qed.

(** A request the state machine takes for a duplicate is one. *)
Lemma duplicate_seen log op s last :
  runs log s -> clientOrdered (log ++ [op]) -> mutating op = true ->
  lastSeq s (opId op).1 = Some last -> (opId op).2 <= last -> opId op ∈ opId <$> firsts log.
Proof.
  intros Hr Ho Hm Hl Hle. apply firsts_ids. destruct (runs_dedup_max log s Hr) as [_ H2].
  destruct (H2 _ _ Hl) as (o & [i Hi]%list_elem_of_lookup & Hmo & Hid).
  destruct (decide ((opId op).2 = last)) as [E|?].
  - exists o. split_and!; [by eapply list_elem_of_lookup_2|done|]. rewrite Hid, <- E. by destruct (opId op).
  - pose proof (lookup_lt_Some _ _ _ Hi).
    destruct (Ho i (length log) o op) as (k & c & Hk & Hc & ? & ?); try done; try lia.
    + by apply lookup_app_l_Some.
    + by rewrite lookup_app_r, Nat.sub_diag.
    + by rewrite Hid.
    + rewrite Hid. simpl. lia.
    + exists c. split_and!; [|done..]. rewrite lookup_app_l in Hc by lia. by eapply list_elem_of_lookup_2.
Qed.

(** The clients see the state the first occurrences alone produce. *)
Lemma runs_exactly_once log s : runs log s -> clientOrdered log -> replays (firsts log) (dataOf s).
Proof.
  induction 1 as [|log op s s' Hr IH Hs]; intros Ho; [constructor|].
  specialize (IH (clientOrdered_app _ _ Ho)). rewrite firsts_snoc.
  destruct (proj2 Hdet _ _ _ Hs) as [(Hm & -> & last & Hl & Hle)|[[Hm ->]|(Hm & Hl & Hd & _)]];
    rewrite Hm; cbn [andb]; [|done|].
  - rewrite bool_decide_false; [done|]. pose proof (duplicate_seen log op s last Hr Ho Hm Hl Hle). tauto.
  - rewrite bool_decide_true; [by econstructor|].
    intros (o & Ho' & Hmo & Hid)%firsts_ids. destruct (runs_dedup_max log s Hr) as [H1 _].
    destruct (H1 _ Ho' Hmo) as (last & Hlast & ?). rewrite Hid in *. specialize (Hl _ Hlast). lia.
Qed.
End dedup.
