(* ===== verification/KvRaft.v ===== *)
(** * The replicated key/value service: [src/src/kvraft/]

    [server.go] and [client.go]: the state machine a server runs over the messages
    Raft delivers on [applyCh], the waiters that tie an RPC to a log index, snapshots,
    and the clerk.  A critical section under [kv.mu] is one definition; the calls a
    handler makes to Raft ([Start], [Snapshot]) are its arguments and results. *)

From S2P Require Import Prelude Persister Raft RaftCodec Waiters Dedup.

(** ** Data *)

Inductive Err := OK | ErrNoKey | ErrWrongLeader | ErrTimeout.

Inductive OpType := TGet | TPut | TAppend.

Record Op := mkOp {
  op_Type : OpType; op_Key : string; op_Value : string; op_ClientId : Z; op_Seq : Z }.

Record result := mkResult {
  r_err : Err; r_value : string; r_clientId : Z; r_seq : Z }.

Record lastReply := mkLastReply { lr_Seq : Z; lr_Value : string; lr_Err : Err }.

#[global] Instance Err_eq_dec : EqDecision Err.
Proof. solve_decision. Defined.
#[global] Instance OpType_eq_dec : EqDecision OpType.
Proof. solve_decision. Defined.
#[global] Instance Op_eq_dec : EqDecision Op.
Proof. solve_decision. Defined.

(** [data] and [dedup]: what the log determines and a snapshot holds. *)
Record Store := mkStore {
  data : gmap string string;
  dedup : gmap Z lastReply;
}.

Record KVServer := mkKVServer {
  kv_me : Z;
  maxraftstate : Z;
  kv_dead : bool;
  store : Store;
  waiters : Waiters result;
  kv_lastApplied : Z;
}.

(** [encoding/gob] on the two maps of a snapshot. *)
Class SnapCodec := {
  gobEncodeStore : Store -> bytes;
  gobDecodeStore : bytes -> option Store;
}.

Class SnapCodecOk `{SnapCodec} : Prop := {
  snap_roundtrip : forall s, gobDecodeStore (gobEncodeStore s) = Some s;
  snap_nonempty : forall s, gobEncodeStore s <> [];
}.

(** ** The state machine *)

(** The [switch] of [applyCommand]: the new [data] and the result's [err], [value]. *)
Definition runOp (op : Op) (m : gmap string string) : gmap string string * (Err * string) :=
  match op_Type op with
  | TGet =>
      match m !! op_Key op with
      | Some v => (m, (OK, v))
      | None => (m, (ErrNoKey, EmptyString))
      end
  | TPut => (<[op_Key op := op_Value op]> m, (OK, EmptyString))
  | TAppend =>
      (<[op_Key op := String.append (go_map_get EmptyString m (op_Key op)) (op_Value op)]> m,
       (OK, EmptyString))
  end.

(** Duplicate suppression around it. *)
Definition applyOp (op : Op) (s : Store) : Store * result :=
  let isGet := bool_decide (op_Type op = TGet) in
  let fresh :=
    let '(m, (e, v)) := runOp op (data s) in
    (mkStore m
       (if isGet then dedup s else <[op_ClientId op := mkLastReply (op_Seq op) v e]> (dedup s)),
     mkResult e v (op_ClientId op) (op_Seq op)) in
  match dedup s !! op_ClientId op with
  | Some last =>
      if (lr_Seq last >=? op_Seq op) && negb isGet
      then (s, mkResult (lr_Err last) (lr_Value last) (op_ClientId op) (op_Seq op))
      else fresh
  | None => fresh
  end.

Section server.
Context `{SnapCodec}.
Implicit Types (kv : KVServer).

Definition set_store (s : Store) kv : KVServer :=
  mkKVServer (kv_me kv) (maxraftstate kv) (kv_dead kv) s (waiters kv) (kv_lastApplied kv).
Definition set_lastApplied (i : Z) kv : KVServer :=
  mkKVServer (kv_me kv) (maxraftstate kv) (kv_dead kv) (store kv) (waiters kv) i.
Definition set_waiters (w : Waiters result) kv : KVServer :=
  mkKVServer (kv_me kv) (maxraftstate kv) (kv_dead kv) (store kv) w (kv_lastApplied kv).

(** The snapshot to hand to [rf.Snapshot], if the raft state has grown to [rsize]. *)
Definition maybeSnapshot (rsize index : Z) kv : option (Z * bytes) :=
  if maxraftstate kv <? 0 then None
  else if rsize <? maxraftstate kv then None
  else Some (index, gobEncodeStore (store kv)).

Definition readSnapshot (d : bytes) kv : KVServer :=
  match d with
  | [] => kv
  | _ => match gobDecodeStore d with None => kv | Some s => set_store s kv end
  end.

(** [None]: a panic ([msg.Command] is not an [Op]) or blocking on a waiter. *)
Definition applyCommand (rsize : Z) (cmd : option Op) (index : Z) kv
  : option (KVServer * option (Z * bytes)) :=
  if index <=? kv_lastApplied kv then Some (kv, None)
  else
    let kv := set_lastApplied index kv in
    op ← cmd;
    let '(s, res) := applyOp op (store kv) in
    let kv := set_store s kv in
    w ← wake index res (waiters kv);
    let kv := set_waiters w kv in
    Some (kv, maybeSnapshot rsize index kv).

Definition applySnapshot (snap : bytes) (index : Z) kv : KVServer :=
  if index <=? kv_lastApplied kv then kv
  else kv |> readSnapshot snap |> set_lastApplied index.

(** One message of [applyLoop], while the server is not killed. *)
Definition applyMsg (rsize : Z) (msg : ApplyMsg Op) kv : option (KVServer * option (Z * bytes)) :=
  if kv_dead kv then Some (kv, None)
  else match msg with
       | CommandMsg cmd index => applyCommand rsize cmd index kv
       | SnapshotMsg snap _ index => Some (applySnapshot snap index kv, None)
       end.

(** ** RPC handlers *)

(** [waitFor] after [Start] returned [index]: a fresh channel waits for it. *)
Definition waitFor_register (index : Z) kv : KVServer * nat :=
  let '(w, ch) := register index (waiters kv) in (set_waiters w kv, ch).

(** The channel delivers: forget the waiter, and check whose command it was. *)
Definition waitFor_receive (op : Op) (index : Z) (ch : nat) kv : option (KVServer * result) :=
  '(w, res) ← receive index ch (waiters kv);
  Some (set_waiters w kv,
        if negb (r_clientId res =? op_ClientId op) || negb (r_seq res =? op_Seq op)
        then mkResult ErrWrongLeader EmptyString 0 0 else res).

Definition waitFor_timeout (index : Z) kv : KVServer * result :=
  (set_waiters (expire index (waiters kv)) kv, mkResult ErrTimeout EmptyString 0 0).

Record GetArgs := mkGetArgs { g_Key : string; g_ClientId : Z; g_Seq : Z }.
Record PutAppendArgs := mkPutAppendArgs {
  pa_Key : string; pa_Value : string; pa_Op : OpType; pa_ClientId : Z; pa_Seq : Z }.

(** The operations the handlers submit, and their replies. *)
Definition Get_op (a : GetArgs) : Op := mkOp TGet (g_Key a) EmptyString (g_ClientId a) (g_Seq a).
Definition Get_reply (r : result) : Err * string := (r_err r, r_value r).
Definition Put_op (a : PutAppendArgs) : Op :=
  mkOp TPut (pa_Key a) (pa_Value a) (pa_ClientId a) (pa_Seq a).
Definition Append_op (a : PutAppendArgs) : Op :=
  mkOp TAppend (pa_Key a) (pa_Value a) (pa_ClientId a) (pa_Seq a).
Definition PutAppend_reply (r : result) : Err := r_err r.

Definition Kill kv : KVServer :=
  mkKVServer (kv_me kv) (maxraftstate kv) true (store kv) (waiters kv) (kv_lastApplied kv).

Definition StartKVServer (me maxraftstate : Z) (ps : Persister) : KVServer :=
  readSnapshot (ReadSnapshot ps)
    (mkKVServer me maxraftstate false (mkStore ∅ ∅) (noWaiters result) 0).
End server.

(** ** Clerk *)

Record Clerk := mkClerk { nservers : nat; clientId : Z; ck_seq : Z; leaderHint : Z }.

Definition MakeClerk (n : nat) (nrand : Z) : Clerk := mkClerk n nrand 0 0.

Definition nextSeq (ck : Clerk) : Clerk * Z :=
  let s := wrap_signed 64 (ck_seq ck + 1) in
  (mkClerk (nservers ck) (clientId ck) s (leaderHint ck), s).

(** The retry loop: [call i server] is the outcome of the [i]-th call, sent to
    [server] ([None]: no reply).  The loop stops at the first reply [good] accepts;
    [None]: index out of range, or the fuel ran out. *)
Fixpoint clerkLoop {R} (call : nat -> Z -> option R) (good : R -> bool) (n : nat)
    (fuel i : nat) (leader : Z) : option (Z * R) :=
  match fuel with
  | O => None
  | S fuel =>
      if (0 <=? leader) && (leader <? Z.of_nat n) then
        match call i leader with
        | Some r =>
            if good r then Some (leader, r)
            else clerkLoop call good n fuel (S i) (Z.rem (leader + 1) (Z.of_nat n))
        | None => clerkLoop call good n fuel (S i) (Z.rem (leader + 1) (Z.of_nat n))
        end
      else None
  end.

Definition set_hint (leader : Z) (ck : Clerk) : Clerk :=
  mkClerk (nservers ck) (clientId ck) (ck_seq ck) (wrap_signed 32 leader).

Definition Clerk_Get (call : GetArgs -> nat -> Z -> option (Err * string)) (fuel : nat)
    (key : string) (ck : Clerk) : option (Clerk * string) :=
  let '(ck, s) := nextSeq ck in
  '(leader, (_, v)) ← clerkLoop (call (mkGetArgs key (clientId ck) s))
    (fun '(e, _) => bool_decide (e = OK) || bool_decide (e = ErrNoKey))
    (nservers ck) fuel 0 (leaderHint ck);
  Some (set_hint leader ck, v).

(** [call] sends to the handler ["KVServer."+op]. *)
Definition Clerk_PutAppend (call : PutAppendArgs -> nat -> Z -> option Err) (fuel : nat)
    (key value : string) (op : OpType) (ck : Clerk) : option Clerk :=
  let '(ck, s) := nextSeq ck in
  '(leader, _) ← clerkLoop (call (mkPutAppendArgs key value op (clientId ck) s))
    (fun e => bool_decide (e = OK)) (nservers ck) fuel 0 (leaderHint ck);
  Some (set_hint leader ck).

(** ** Exactly-once semantics *)

#[global] Instance kvRequests : Requests Op := {|
  mutating op := negb (bool_decide (op_Type op = TGet));
  opId op := (op_ClientId op, op_Seq op);
|}.

(** The store after the commands of a log. *)
Definition smRun (log : list Op) : Store := foldl (fun s op => (applyOp op s).1) (mkStore ∅ ∅) log.

(** The specification: the requests performed one after the other without any duplicate
    detection. *)
Definition replayOps (ops : list Op) : gmap string string :=
  foldl (fun m op => (runOp op m).1) ∅ ops.

Lemma smRun_snoc log op : smRun (log ++ [op]) = (applyOp op (smRun log)).1.
Proof. unfold smRun. by rewrite foldl_app. Qed.

Lemma applyOp_detects :
  detects (mkStore ∅ ∅) (fun op s s' => s' = (applyOp op s).1)
    (fun s c => lr_Seq <$> dedup s !! c) data (fun op d d' => d' = (runOp op d).1).
Proof.
  split; [done|]. intros op s s' ->. unfold applyOp, runOp. destruct s as [m d]. cbn [mutating opId kvRequests fst snd].
  assert (forall c l, lr_Seq <$> <[op_ClientId op := mkLastReply (op_Seq op) (r_value l) (r_err l)]> d !! c =
    if decide (c = op_ClientId op) then Some (op_Seq op) else lr_Seq <$> d !! c) as Hins.
  { intros c l. rewrite lookup_insert. repeat case_decide; subst; done. }
  destruct (op_Type op) eqn:Ht; cbn -[decide];
    [right; left; destruct (d !! _) as [last|]; [rewrite andb_false_r|]; by destruct (m !! _)|..];
    (destruct (d !! _) as [last|] eqn:El; [destruct (Z.geb_spec (lr_Seq last) (op_Seq op)); [left; cbn; eauto|]|]);
    right; right; (split_and!; [done|naive_solver|done|]); intros c; apply (Hins c (mkResult OK EmptyString 0 0)).
Qed.

Lemma exactly_once_data log : clientOrdered log -> data (smRun log) = replayOps (firsts log).
Proof.
  intros Ho. assert (runs (mkStore ∅ ∅) (fun op s s' => s' = (applyOp op s).1) log (smRun log)) as Hr.
  { clear. induction log as [|op log IH] using rev_ind; [constructor|]. rewrite smRun_snoc. by econstructor. }
  eapply runs_exactly_once in Hr; [|apply applyOp_detects|done]. revert Hr. generalize (data (smRun log)).
  induction 1 as [|ops op d d' _ -> ->]; [done|]. unfold replayOps. by rewrite foldl_app.
Qed.

(** Every mutating request takes effect exactly once, at its first occurrence in
    the log, however often retries put it there: the key/value map is the one the
    first occurrences alone produce, and each request has exactly one of them. *)
Theorem kvraft_exactly_once log :
  clientOrdered log ->
  data (smRun log) = replayOps (firsts log) /\
  NoDup (opId <$> firsts log) /\
  forall op, op ∈ log -> mutating op = true -> opId op ∈ opId <$> firsts log.
Proof.
  intros Ho. split_and!; [by apply exactly_once_data|apply firsts_NoDup|intros; apply firsts_ids; eauto].
Qed.

(** A retried append, with another client between. *)
Definition demoLog : list Op :=
  [mkOp TPut "k" "a" 1 1; mkOp TAppend "k" "b" 2 1; mkOp TGet "k" EmptyString 1 2; mkOp TAppend "k" "b" 2 1].

Lemma kvraft_exactly_once_witness :
  data (smRun demoLog) !! "k"%string = Some "ab"%string /\
  data (smRun demoLog) = replayOps (firsts demoLog).
Proof.
  split; [reflexivity|]. apply (kvraft_exactly_once demoLog).
  intros i j a b Hij Ha Hb Hma Hmb Hc Hs.
  do 4 (destruct i as [|i]; [do 4 (destruct j as [|j]; [simplify_eq/=; try lia; done|]); simplify_eq/=|]);
    simplify_eq/=.
Defined.

(** ** One server over the committed log *)

Section replica.
Context `{SnapCodecOk}.

(** The committed log: entry [i] is at position [i - 1]. *)
Variable log : list Op.

Definition stateAt (i : Z) : Store := smRun (take (Z.to_nat i) log).

(** What the command at index [i] answers. *)
Definition resultAt (i : Z) : option result :=
  op ← log @! (i - 1); Some (applyOp op (stateAt (i - 1))).2.

(** A server, the position in the log its store is at (after a restart it is
    ahead of [lastApplied]), the RPCs waiting in [waitFor], and those answered. *)
Record Server := mkServer {
  srv : KVServer;
  pos : Z;
  waiting : list (Op * Z * nat);
  answered : list (Op * result);
}.

(** What Raft promises of the messages it delivers: commands of the log in order,
    and snapshots some server took of the log, never behind what was delivered. *)
Definition faithful (s : Server) (msg : ApplyMsg Op) : Prop :=
  match msg with
  | CommandMsg cmd i =>
      i <= kv_lastApplied (srv s) \/ i = pos s + 1 /\ cmd = log @! (i - 1) /\ is_Some cmd
  | SnapshotMsg snap _ i =>
      i <= kv_lastApplied (srv s) \/
      pos s <= i <= zlen log /\ snap = gobEncodeStore (stateAt i)
  end.

(** The position after a message. *)
Definition posAfter (s : Server) (msg : ApplyMsg Op) : Z :=
  if kv_dead (srv s) then pos s
  else match msg with
       | CommandMsg _ i | SnapshotMsg _ _ i => if i <=? kv_lastApplied (srv s) then pos s else i
       end.

Inductive kstep (s : Server) : Server -> Prop :=
| ks_wait op index kv ch : (* [Start] made this server's command [op] entry [index] *)
    waitFor_register index (srv s) = (kv, ch) ->
    kstep s (mkServer kv (pos s) ((op, index, ch) :: waiting s) (answered s))
| ks_receive op index ch kv res ws1 ws2 :
    waiting s = ws1 ++ (op, index, ch) :: ws2 ->
    waitFor_receive op index ch (srv s) = Some (kv, res) ->
    kstep s (mkServer kv (pos s) (ws1 ++ ws2) ((op, res) :: answered s))
| ks_timeout op index ch kv res ws1 ws2 :
    waiting s = ws1 ++ (op, index, ch) :: ws2 ->
    waitFor_timeout index (srv s) = (kv, res) ->
    kstep s (mkServer kv (pos s) (ws1 ++ ws2) ((op, res) :: answered s))
| ks_apply rsize msg kv snap :
    faithful s msg -> applyMsg rsize msg (srv s) = Some (kv, snap) ->
    kstep s (mkServer kv (posAfter s msg) (waiting s) (answered s))
| ks_kill :
    kstep s (mkServer (Kill (srv s)) (pos s) (waiting s) (answered s))
| ks_restart me max ps i : (* on what the persister holds: a snapshot of the log *)
    0 <= i <= zlen log ->
    ReadSnapshot ps = [] /\ i = 0 \/ ReadSnapshot ps = gobEncodeStore (stateAt i) ->
    kstep s (mkServer (StartKVServer me max ps) i [] (answered s)).

Definition kinit (me max : Z) : Server := mkServer (StartKVServer me max MakePersister) 0 [] [].

(** An RPC was refused, or answered with the result its own command has at its
    place in the log. *)
Definition answer_ok (op : Op) (res : result) : Prop :=
  r_err res = ErrWrongLeader \/ r_err res = ErrTimeout \/
  exists i op', log @! (i - 1) = Some op' /\ opId op' = opId op /\ resultAt i = Some res.

Record kinv (s : Server) : Prop := {
  ki_pos : 0 <= kv_lastApplied (srv s) <= pos s /\ pos s <= zlen log;
  ki_store : store (srv s) = stateAt (pos s);
  ki_waiters : waiters_ok (kv_lastApplied (srv s)) (fun i r => resultAt i = Some r)
    (waiting s) (waiters (srv s));
  ki_answered op res : (op, res) ∈ answered s -> answer_ok op res;
}.

Lemma resultAt_id i res :
  resultAt i = Some res ->
  exists op, log @! (i - 1) = Some op /\ opId op = (r_clientId res, r_seq res).
Proof.
  unfold resultAt. intros (op & Hop & [= <-])%bind_Some. exists op. split; [done|].
  unfold applyOp. destruct (runOp op _) as [m [e v]].
  destruct (dedup _ !! _) as [last|]; [destruct (_ && _)|]; done.
Qed.

Lemma stateAt_next i op :
  0 <= i -> log @! i = Some op -> stateAt (i + 1) = (applyOp op (stateAt i)).1.
Proof.
  intros Hi Hl. unfold stateAt. rewrite Z2Nat.inj_add by lia.
  replace (Z.to_nat i + Z.to_nat 1)%nat with (S (Z.to_nat i)) by lia.
  rewrite (take_S_r _ _ op); [apply smRun_snoc|].
  unfold go_index in Hl. by destruct (Z.leb_spec 0 i); [|lia].
Qed.

Lemma readSnapshot_encode st kv :
  readSnapshot (gobEncodeStore st) kv = set_store st kv.
Proof.
  unfold readSnapshot. pose proof (snap_nonempty st).
  destruct (gobEncodeStore st) eqn:E; [done|]. by rewrite <- E, snap_roundtrip.
Qed.

Lemma answered_cons s op res :
  kinv s -> answer_ok op res -> forall op' res', (op', res') ∈ (op, res) :: answered s -> answer_ok op' res'.
Proof. intros Hi ? op' res' [[= -> ->]|?]%elem_of_cons; [done|by eapply ki_answered]. Qed.

Lemma kinv_wait s op index kv ch :
  kinv s -> waitFor_register index (srv s) = (kv, ch) ->
  kinv (mkServer kv (pos s) ((op, index, ch) :: waiting s) (answered s)).
Proof.
  intros [] Hr. unfold waitFor_register in Hr. destruct (register _ _) as [w ch'] eqn:Hg.
  simplify_eq. split; simpl; try done. by eapply waiters_ok_register.
Qed.

Lemma kinv_receive s op index ch kv res ws1 ws2 :
  kinv s -> waiting s = ws1 ++ (op, index, ch) :: ws2 ->
  waitFor_receive op index ch (srv s) = Some (kv, res) ->
  kinv (mkServer kv (pos s) (ws1 ++ ws2) ((op, res) :: answered s)).
Proof.
  intros Hi Hw Hr. apply bind_Some in Hr as ([w r] & Hr & [= <- <-]).
  pose proof (ki_waiters _ Hi) as Hok. rewrite Hw in Hok.
  destruct (waiters_ok_receive _ _ _ _ _ _ _ _ _ _ Hok Hr) as [Hok' Hres].
  split; simpl; try apply Hi; [done|]. apply answered_cons; [done|].
  destruct (Z.eqb_spec (r_clientId r) (op_ClientId op)) as [E1|]; [|by left].
  destruct (Z.eqb_spec (r_seq r) (op_Seq op)) as [E2|]; [|by left]. simpl. right; right.
  destruct (resultAt_id _ _ Hres) as (op' & Hop & Hid). exists index, op'.
  split_and!; [done| |done]. rewrite Hid. simpl. congruence.
Qed.

Lemma kinv_timeout s op index ch kv res ws1 ws2 :
  kinv s -> waiting s = ws1 ++ (op, index, ch) :: ws2 ->
  waitFor_timeout index (srv s) = (kv, res) ->
  kinv (mkServer kv (pos s) (ws1 ++ ws2) ((op, res) :: answered s)).
Proof.
  intros Hi Hw [= <- <-]. pose proof (ki_waiters _ Hi) as Hok. rewrite Hw in Hok.
  split; simpl; try apply Hi; [by eapply waiters_ok_expire|]. apply answered_cons; [done|].
  right; by left.
Qed.

(** The next command of the log is applied without blocking. *)
Lemma kinv_command s rsize op :
  kinv s -> log @! pos s = Some op ->
  exists kv snap, applyCommand rsize (Some op) (pos s + 1) (srv s) = Some (kv, snap) /\
    kinv (mkServer kv (pos s + 1) (waiting s) (answered s)).
Proof.
  intros Hi Hop. destruct (ki_pos _ Hi) as [[Hla0 Hla] Hlen].
  pose proof (go_index_Some_bound _ _ _ Hop) as Hb.
  assert (resultAt (pos s + 1) = Some (applyOp op (store (srv s))).2) as Hres.
  { unfold resultAt. replace (pos s + 1 - 1) with (pos s) by lia. by rewrite Hop, (ki_store _ Hi). }
  assert (stateAt (pos s + 1) = (applyOp op (store (srv s))).1) as Hst.
  { rewrite (ki_store _ Hi). apply stateAt_next; [lia|done]. }
  unfold applyCommand. destruct (Z.leb_spec (pos s + 1) (kv_lastApplied (srv s))); [lia|].
  simpl. destruct (applyOp op (store (srv s))) as [st res] eqn:Ha. simpl in *.
  destruct (waiters_ok_wake _ _ _ _ (pos s + 1) res (ki_waiters _ Hi)) as (w & -> & Hok); [lia|done|].
  eexists _, _. split; [done|]. destruct Hi. split; simpl; try done. lia.
Qed.

Lemma kinv_snapshot s i :
  kinv s -> kv_lastApplied (srv s) < i -> pos s <= i <= zlen log ->
  kinv (mkServer (applySnapshot (gobEncodeStore (stateAt i)) i (srv s)) i (waiting s) (answered s)).
Proof.
  intros [] Hlt Hb. unfold applySnapshot.
  destruct (Z.leb_spec i (kv_lastApplied (srv s))); [lia|]. rewrite readSnapshot_encode.
  split; simpl; try done; [lia|]. eapply waiters_ok_advance; [done|lia].
Qed.

Lemma kinv_apply s rsize msg :
  kinv s -> faithful s msg ->
  exists kv snap, applyMsg rsize msg (srv s) = Some (kv, snap) /\
    kinv (mkServer kv (posAfter s msg) (waiting s) (answered s)).
Proof.
  intros Hi Hf. assert (kinv (mkServer (srv s) (pos s) (waiting s) (answered s))) as Hsame by by destruct s.
  destruct (ki_pos _ Hi) as [[_ Hle] _].
  unfold applyMsg, posAfter. destruct (kv_dead (srv s)); [eauto|]. destruct msg as [cmd i|snap t i]; simpl in Hf.
  - destruct (Z.leb_spec i (kv_lastApplied (srv s))).
    + unfold applyCommand. rewrite (proj2 (Z.leb_le _ _)) by done. eauto.
    + destruct Hf as [?|(-> & Hc & [op ->])]; [lia|]. apply kinv_command; [done|].
      by replace (pos s) with (pos s + 1 - 1) by lia.
  - eexists _, _. split; [done|]. destruct (Z.leb_spec i (kv_lastApplied (srv s))).
    + unfold applySnapshot. by rewrite (proj2 (Z.leb_le _ _)) by done.
    + destruct Hf as [?|(Hb & ->)]; [lia|]. by apply kinv_snapshot.
Qed.

Lemma kinv_start me max ps i ans :
  0 <= i <= zlen log ->
  ReadSnapshot ps = [] /\ i = 0 \/ ReadSnapshot ps = gobEncodeStore (stateAt i) ->
  (forall op res, (op, res) ∈ ans -> answer_ok op res) ->
  kinv (mkServer (StartKVServer me max ps) i [] ans).
Proof.
  intros Hi Hps Hans. unfold StartKVServer.
  destruct Hps as [[-> ->]| ->]; [|rewrite readSnapshot_encode]; split; simpl; try done;
    try lia; apply waiters_ok_none.
Qed.

Lemma kstep_kinv s s' : kinv s -> kstep s s' -> kinv s'.
Proof.
  intros Hi Hs. destruct Hs; eauto using kinv_wait, kinv_receive, kinv_timeout.
  - destruct (kinv_apply s rsize msg Hi) as (kv' & snap' & E & ?); [done|]. by simplify_eq.
  - destruct Hi. by split.
  - apply kinv_start; [done..|]. apply ki_answered, Hi.
Qed.

Definition kreachable (s : Server) : Prop := exists me max, rtc kstep (kinit me max) s.

Lemma kreachable_kinv s : kreachable s -> kinv s.
Proof.
  intros (me & max & Hr). pattern s. eapply rtc_ind_r; [|intros ? ? _ ? ?; eauto using kstep_kinv|exact Hr].
  apply kinv_start; [|by left|]; [unfold zlen; lia|]. intros ? ? []%not_elem_of_nil.
Qed.

(** A server that is fed the committed log, through commands, snapshots and
    restarts from its own snapshot, whatever RPCs wait and time out meanwhile, holds the
    store the log's prefix determines; and an RPC that is not refused is answered with
    the result its own command has at its place in the log. *)
Theorem kvraft_replica s :
  kreachable s ->
  store (srv s) = smRun (take (Z.to_nat (pos s)) log) /\
  forall op res, (op, res) ∈ answered s ->
    r_err res = ErrWrongLeader \/ r_err res = ErrTimeout \/
    exists i op', log @! (i - 1) = Some op' /\ opId op' = opId op /\ resultAt i = Some res.
Proof. intros Hi%kreachable_kinv. split; [apply ki_store|apply ki_answered]; done. Qed.

(** [applyLoop] never panics, and never blocks on a waiter's channel while it holds
    the lock: every message Raft may deliver is processed. *)
Theorem applyMsg_total s rsize msg :
  kreachable s -> faithful s msg -> is_Some (applyMsg rsize msg (srv s)).
Proof.
  intros Hi%kreachable_kinv Hf. destruct (kinv_apply s rsize msg Hi Hf) as (kv & snap & -> & _). eauto.
Qed.
End replica.

(** ** A concrete codec, for the examples *)

#[global] Instance Err_countable : Countable Err.
Proof.
  apply (inj_countable'
    (fun e => match e with OK => 0 | ErrNoKey => 1 | ErrWrongLeader => 2 | ErrTimeout => 3 end)
    (fun z => if z =? 0 then OK else if z =? 1 then ErrNoKey
              else if z =? 2 then ErrWrongLeader else ErrTimeout)).
  by intros [].
Defined.

#[global] Instance lastReply_eq_dec : EqDecision lastReply.
Proof. solve_decision. Defined.

#[global] Instance lastReply_countable : Countable lastReply.
Proof.
  apply (inj_countable' (fun l => (lr_Seq l, lr_Value l, lr_Err l))
    (fun '(s, v, e) => mkLastReply s v e)). by intros [].
Defined.

#[global] Instance bitSnapCodec : SnapCodec := {|
  gobEncodeStore s := bitsOfPos (encode (data s, dedup s));
  gobDecodeStore b := p ← posOfBits b; (fun x => mkStore x.1 x.2) <$> decode p;
|}.

#[global] Instance bitSnapCodecOk : SnapCodecOk.
Proof.
  split; intros s; simpl; [|apply bitsOfPos_nonempty].
  rewrite posOfBits_bitsOfPos. simpl. rewrite decode_encode. by destruct s.
Qed.

Definition demoGet : Op := mkOp TGet "k" EmptyString 1 2.

(** A server that gets a snapshot of the first two commands, then applies the
    [Get] a client waits for. *)
Lemma demo_replica :
  exists s, kreachable demoLog s /\ pos s = 3 /\
    answered s = [(demoGet, mkResult OK "ab" 1 2)] /\
    faithful demoLog s (CommandMsg (Some (mkOp TAppend "k" "b" 2 1)) 4).
Proof.
  eexists. split.
  - exists 0, (-1). eapply rtc_l; [eapply (ks_wait _ _ demoGet 3); reflexivity|].
    eapply rtc_l; [eapply (ks_apply _ _ 0 (SnapshotMsg (gobEncodeStore (stateAt demoLog 2)) 1 2));
                   [right; split; [vm_compute; by split|done]|vm_compute; reflexivity]|].
    eapply rtc_l; [eapply (ks_apply _ _ 0 (CommandMsg (Some demoGet) 3));
                   [right; split_and!; [reflexivity|reflexivity|eauto]|vm_compute; reflexivity]|].
    eapply rtc_l; [eapply (ks_receive _ _ demoGet 3 0 _ _ [] []); [reflexivity|vm_compute; reflexivity]|].
    apply rtc_refl.
  - split_and!; [reflexivity|reflexivity|]. right. split_and!; [reflexivity|reflexivity|eauto].
Qed.

Lemma kvraft_replica_witness :
  exists s, pos s = 3 /\ store (srv s) = smRun (take 3 demoLog).
Proof.
  destruct demo_replica as (s & Hr & Hp & _). exists s. split; [done|].
  rewrite (proj1 (kvraft_replica demoLog s Hr)), Hp. reflexivity.
Defined.

Lemma applyMsg_total_witness :
  exists s, is_Some (applyMsg 0 (CommandMsg (Some (mkOp TAppend "k" "b" 2 1)) 4) (srv s)).
Proof.
  destruct demo_replica as (s & Hr & _ & _ & Hf). exists s.
  exact (applyMsg_total demoLog s 0 _ Hr Hf).
Defined.

(** ** The clerk finds the leader *)

Section clerk.
Context {R : Type} (call : nat -> Z -> option R) (good : R -> bool) (n : nat).

Lemma next_server leader :
  0 <= leader < Z.of_nat n -> 0 <= Z.rem (leader + 1) (Z.of_nat n) < Z.of_nat n.
Proof. intros. apply Z.rem_bound_pos; lia. Qed.

(** [k] more calls reach server [target] when it is [k] places ahead. *)
Lemma clerkLoop_reaches target k fuel i leader :
  (forall j, exists r, call j target = Some r /\ good r = true) ->
  0 <= leader < Z.of_nat n -> 0 <= target < Z.of_nat n -> (k < fuel)%nat ->
  target = (leader + Z.of_nat k) mod Z.of_nat n ->
  exists l r j, clerkLoop call good n fuel i leader = Some (l, r) /\
    0 <= l < Z.of_nat n /\ call j l = Some r /\ good r = true.
Proof.
  intros Hgood. revert fuel i leader. induction k as [|k IH]; intros fuel i leader Hl Ht Hf E.
  all: destruct fuel as [|fuel]; [lia|]; simpl.
  all: rewrite (proj2 (Z.leb_le 0 leader)), (proj2 (Z.ltb_lt leader (Z.of_nat n))) by lia; simpl.
  - rewrite Z.add_0_r, Z.mod_small in E by lia. subst. destruct (Hgood i) as (r & Hr & Hg).
    rewrite Hr, Hg. by exists leader, r, i.
  - assert (target = (Z.rem (leader + 1) (Z.of_nat n) + Z.of_nat k) mod Z.of_nat n) as E'.
    { rewrite Z.rem_mod_nonneg, Z.add_mod_idemp_l by lia. rewrite E. f_equal. lia. }
    destruct (call i leader) as [r|] eqn:Hc; [destruct (good r) eqn:Hg; [by exists leader, r, i|]|];
      apply IH; auto using next_server; lia.
Qed.

Lemma clerkLoop_total target i leader :
  (forall j, exists r, call j target = Some r /\ good r = true) ->
  0 <= leader < Z.of_nat n -> 0 <= target < Z.of_nat n ->
  exists l r j, clerkLoop call good n n i leader = Some (l, r) /\
    0 <= l < Z.of_nat n /\ call j l = Some r /\ good r = true.
Proof.
  intros Hgood Hl Ht. eapply (clerkLoop_reaches target (Z.to_nat ((target - leader) mod Z.of_nat n))); try done.
  - pose proof (Z.mod_pos_bound (target - leader) (Z.of_nat n)). lia.
  - rewrite Z2Nat.id by (apply Z.mod_pos_bound; lia). rewrite Z.add_mod_idemp_r by lia.
    replace (leader + (target - leader)) with target by lia. rewrite Z.mod_small; lia.
Qed.
End clerk.

(** The cached leader is a server. *)
Definition clerk_wf (ck : Clerk) : Prop :=
  0 <= leaderHint ck < Z.of_nat (nservers ck) /\ Z.of_nat (nservers ck) < 2 ^ 31.

(** C30. If one server answers every call, [Get] returns after at most one call to
    each server, with the value of an answer to its own request; the server that gave
    it is the new hint, a valid index. *)
Theorem Clerk_Get_returns call key ck target :
  clerk_wf ck -> 0 <= target < Z.of_nat (nservers ck) ->
  (forall a i, exists v, call a i target = Some (OK, v) \/ call a i target = Some (ErrNoKey, v)) ->
  exists ck' v i e, Clerk_Get call (nservers ck) key ck = Some (ck', v) /\ clerk_wf ck' /\
    ck_seq ck' = wrap_signed 64 (ck_seq ck + 1) /\
    call (mkGetArgs key (clientId ck) (ck_seq ck')) i (leaderHint ck') = Some (e, v) /\
    (e = OK \/ e = ErrNoKey).
Proof.
  intros [Hh Hn] Ht Hans. unfold Clerk_Get, nextSeq. cbn [nservers clientId leaderHint].
  destruct (clerkLoop_total (call (mkGetArgs key (clientId ck) (wrap_signed 64 (ck_seq ck + 1))))
    (fun '(e, _) => bool_decide (e = OK) || bool_decide (e = ErrNoKey)) (nservers ck) target 0 (leaderHint ck)) as (l & [e v] & j & -> & Hl & Hc & Hg); try done.
  { intros i. destruct (Hans (mkGetArgs key (clientId ck) (wrap_signed 64 (ck_seq ck + 1))) i)
      as [v [E|E]]; rewrite E; eauto. }
  simpl. exists (set_hint l (mkClerk (nservers ck) (clientId ck) (wrap_signed 64 (ck_seq ck + 1)) (leaderHint ck))), v, j, e.
  unfold clerk_wf, set_hint. cbn [nservers leaderHint ck_seq]. rewrite (wrap_signed_small 32 l) by lia.
  split_and!; try done; try lia. apply orb_prop in Hg as [Hg|Hg]; b2p; auto.
Qed.

Lemma Clerk_Get_returns_witness :
  exists ck' v i e,
    Clerk_Get (fun _ _ s => if s =? 2 then Some (OK, "x"%string) else None) 3 "k" (MakeClerk 3 9) = Some (ck', v) /\
    clerk_wf ck' /\ ck_seq ck' = wrap_signed 64 1 /\
    (fun (_ : GetArgs) (_ : nat) s => if s =? 2 then Some (OK, "x"%string) else None)
      (mkGetArgs "k" 9 (ck_seq ck')) i (leaderHint ck') = Some (e, v) /\ (e = OK \/ e = ErrNoKey).
Proof.
  refine (Clerk_Get_returns _ "k" (MakeClerk 3 9) 2 _ _ _).
  - vm_compute. by split.
  - vm_compute. by split.
  - intros a i. exists "x"%string. by left.
Defined.
