(* ===== verification/KvRaftDelivery.v ===== *)
(** * What Raft delivers to a key/value server

    [KvRaft] proves a server correct for the messages [faithful] admits: commands
    in order, snapshots before the commands that follow them.  [InstallSnapshot] gives
    up [rf.mu] before it sends its snapshot on [applyCh], so the applier can send a
    later command first.  This file runs a cluster into that state. *)

From S2P Require Import Prelude Persister Raft RaftCodec RaftLocal RaftCluster RaftRun KvRaft.

#[global] Instance OpType_countable : Countable OpType.
Proof.
  apply (inj_countable' (fun t => match t with TGet => 0 | TPut => 1 | TAppend => 2 end)
    (fun z => if z =? 0 then TGet else if z =? 1 then TPut else TAppend)). by intros [].
Defined.

#[global] Instance Op_countable : Countable Op.
Proof.
  apply (inj_countable' (fun o => (op_Type o, op_Key o, op_Value o, op_ClientId o, op_Seq o))
    (fun '(t, k, v, c, s) => mkOp t k v c s)). by intros [].
Defined.

Definition put1 : Op := mkOp TPut "k" "a" 1 1.
Definition append2 : Op := mkOp TAppend "k" "b" 1 2.

Abbreviation go k := (EvThread (Cmd := Op) lateEnv k).

(** Peer 0 is elected and commits [put1] with peer 1, peer 2 hearing nothing. *)
Definition commitFirst : list (Event (Cmd := Op)) :=
  [EvTick lateEnv 0; go 0; go 0; EvLose 0; go 0; go 0; go 0; go 0; EvLose 0;
   EvStart 0 (Some put1); go 0; go 0; go 0; go 0; EvLose 0; EvApplier 0; EvDeliver 0].

(** It compacts its log, and sends the snapshot to peer 2 twice: the first call
    installs it and is about to deliver it, the second returns at once. *)
Definition sendSnapshots : list (Event (Cmd := Op)) :=
  [EvSnapshot 0 1 (gobEncodeStore (smRun [put1])); EvHeartbeat 0; EvHeartbeat 0;
   go 0; EvLose 0; go 0; go 1; EvLose 1; go 1; go 0; go 1; go 1].

(** [append2] is committed, and peer 2's applier delivers it; then the snapshot. *)
Definition overtake : list (Event (Cmd := Op)) :=
  [EvStart 0 (Some append2); go 1; go 1; go 1; go 1; go 1; go 1; EvHeartbeat 0;
   go 1; EvLose 1; go 1; go 1; EvApplier 2; EvDeliver 2; go 0].

(** What a server makes of the messages of its [applyCh]. *)
Definition feed (msgs : list (ApplyMsg Op)) (kv : KVServer) : option KVServer :=
  foldl (fun o msg => kv ← o; fst <$> applyMsg 0 msg kv) (Some kv) msgs.

Definition overtaken : list (ApplyMsg Op) :=
  [CommandMsg (Some append2) 2; SnapshotMsg (gobEncodeStore (smRun [put1])) 1 1].

Lemma overtaken_run :
  (fun w => applied w 2) <$>
    run 3 (commitFirst ++ sendSnapshots ++ overtake) (cinit 3 (fun _ => demoEnv)) = Some overtaken.
Proof. vm_compute. reflexivity. Qed.

Lemma overtaken_store :
  (fun kv => (kv_lastApplied kv, data (store kv) !! "k"%string)) <$>
    feed overtaken (StartKVServer 2 (-1) MakePersister) = Some (2, Some "b"%string).
Proof. vm_compute. reflexivity. Qed.

(** C36. A cluster can reach a state where a follower's [applyCh] carried command 2
    before the snapshot of command 1.  The key/value server on it applies the append to
    an empty store and then ignores the snapshot: at index 2 its key holds ["b"], where
    the log gives ["ab"], and it will never see the first command. *)
Theorem snapshot_overtaken :
  exists w kv, creachable (Cmd := Op) 3 w /\
    applied w 2 = overtaken /\
    feed (applied w 2) (StartKVServer 2 (-1) MakePersister) = Some kv /\
    kv_lastApplied kv = 2 /\
    data (store kv) !! "k"%string = Some "b"%string /\
    data (smRun [put1; append2]) !! "k"%string = Some "ab"%string.
Proof.
  destruct (proj1 (fmap_Some _ _ _) overtaken_run) as (w & Hr & Ha).
  destruct (proj1 (fmap_Some _ _ _) overtaken_store) as (kv & Hk & Hs).
  injection Hs as Hl Hd. exists w, kv. rewrite <- Ha.
  split_and!; [|done..|reflexivity]. exists (fun _ => demoEnv). by eapply run_sound.
Qed.
