(* ===== verification/Clerks.v ===== *)
(** * Clerks of a replicated service

    The clients of [kvraft] and [shardctrler] work alike: a clerk has one call at a time,
    numbers its calls, and sends each to one server after the other until an answer is
    accepted.  This file composes such clerks with a service replicated by Raft
    ([Replicated]) and proves once, for any service that keeps its side of the contract,
    that every call that returned took effect between its invocation and its return. *)

From S2P Require Import Prelude Persister Raft RaftCodec RaftLocal RaftCluster RaftRun RaftAbstract RaftDelivery Replicated Dedup KvRaft.

(** ** The interface *)

(** [request r cid seq]: the command of call [r], the [seq]-th of client [cid].  [answers v]: what the handlers of server [v] have answered.
    [accepts]: the answer ends the clerk's loop. *)
Class ClerkService {Op : Type} {RQ : Requests Op} (RS : RaftService Op) := {
  Req : Type;
  Ans : Type;
  request : Req -> Z -> Z -> Op;
  answers : Srv -> list (Op * Ans);
  accepts : Op -> Ans -> bool;
}.

(** [effectIn log op start en res]: the call of [op] that returned [res] took effect
    when between [start] and [en] commands of [log] had been told of. *)
Class ClerkServiceOk {Op : Type} {RQ : Requests Op} {RS : RaftService Op} (RSO : RaftServiceOk RS) (CS : ClerkService RS) := {
  effectIn : list Op -> Op -> nat -> nat -> Ans -> Prop;
  cs_request r c s : opId (request r c s) = (c, s);
  cs_recorded log op start en res : effectIn log op start en res -> op ∈ log;
  cs_later log l op start en res : effectIn log op start en res -> effectIn (log ++ l) op start en res;
  cs_answer log p q v op res start :
    holdsAt log p q v -> (op, res) ∈ answers v -> accepts op res = true ->
    (forall op', op' ∈ log -> opId op' = opId op -> op' = op) ->
    (forall j, log !! j = Some op -> (start <= j)%nat) -> effectIn log op start (length log) res;
}.

(** ** The composite *)

Section clerks.
Context {Op : Type} {RQ : Requests Op} `{StateCodec Op} {RS : RaftService Op} {CS : ClerkService RS} (n : nat) (ordered : bool).

Inductive Phase := Idle | Calling (op : Op) (start : nat).

(** A call that returned: its command, the number of commands the services had been
    told of when it began and when it ended, and its result. *)
Record Call := mkCall { c_op : Op; c_start : nat; c_end : nat; c_res : Ans }.

Record ClerkSystem := mkClerkSystem {
  reps : Replicas Op Srv;
  clerks : Z -> Clerk;
  busy : Z -> Phase;
  sent : list Op;           (* the commands of all calls made *)
  history : list Call;
}.
Implicit Types (s : ClerkSystem).

(** The commands told of so far. *)
Definition opLog s : list Op := opsOf (reps s).

(** The request of a call may arrive at any server, any number of times, also after the
    call has returned. *)
Inductive ckstep s : ClerkSystem -> Prop :=
| ck_internal r' :
    rpstep n ordered (reps s) AInternal r' ->
    ckstep s (mkClerkSystem r' (clerks s) (busy s) (sent s) (history s))
| ck_request i op r r' : (* a request arrives, perhaps again *)
    op ∈ sent s -> rpstep n ordered (reps s) (AStart i op r) r' ->
    ckstep s (mkClerkSystem r' (clerks s) (busy s) (sent s) (history s))
| ck_serve i v' r' :
    rpstep n ordered (reps s) (AServe i v') r' ->
    ckstep s (mkClerkSystem r' (clerks s) (busy s) (sent s) (history s))
| ck_call c r ck seq :
    busy s c = Idle -> ck_seq (clerks s c) < 2 ^ 63 - 1 -> nextSeq (clerks s c) = (ck, seq) ->
    let op := request r (clientId ck) seq in
    ckstep s (mkClerkSystem (reps s) (upd (clerks s) c ck)
      (upd (busy s) c (Calling op (length (opLog s)))) (op :: sent s) (history s))
| ck_return c op start i res :
    busy s c = Calling op start -> peer n i -> (op, res) ∈ answers (servers (reps s) i) ->
    accepts op res = true ->
    ckstep s (mkClerkSystem (reps s) (upd (clerks s) c (set_hint i (clerks s c)))
      (upd (busy s) c Idle) (sent s)
      (history s ++ [mkCall op start (length (opLog s)) res])).

(** Clerk [c] drew [c] as its identifier. *)
Definition ckinit (envs : Z -> Env) (v0 : Z -> Srv) : ClerkSystem :=
  mkClerkSystem (rpinit n envs v0) (fun c => MakeClerk n c) (fun _ => Idle) [] [].

Definition ckreachable (v0 : Z -> Srv) s : Prop := exists envs, rtc ckstep (ckinit envs v0) s.

Definition opClient (op : Op) : Z := (opId op).1.
Definition opSeq (op : Op) : Z := (opId op).2.

(** ** The invariant of the clerks *)

Context {RSO : RaftServiceOk RS} {CSO : ClerkServiceOk RSO CS}.

Definition callFine (log : list Op) (h : Call) : Prop :=
  effectIn log (c_op h) (c_start h) (c_end h) (c_res h).

Record clinv s : Prop := {
  cl_clerk c : clientId (clerks s c) = c /\ 0 <= ck_seq (clerks s c) < 2 ^ 63;
  cl_submitted op : Some op ∈ submitted (obs (reps s)) -> op ∈ sent s;
  cl_log op : op ∈ opLog s -> op ∈ sent s;
  cl_sent op : op ∈ sent s -> opSeq op <= ck_seq (clerks s (opClient op));
  cl_unique op op' : op ∈ sent s -> op' ∈ sent s -> opId op = opId op' -> op = op';
  cl_busy c op start : busy s c = Calling op start ->
    op ∈ sent s /\ opClient op = c /\ opSeq op = ck_seq (clerks s c) /\ (start <= length (opLog s))%nat /\
    forall j, opLog s !! j = Some op -> (start <= j)%nat;
  cl_done op : op ∈ sent s ->
    (exists start, busy s (opClient op) = Calling op start) \/ op ∈ opLog s;
  cl_order i a b : opLog s !! i = Some a -> b ∈ sent s -> opClient a = opClient b ->
    opSeq b < opSeq a -> exists k, (k < i)%nat /\ opLog s !! k = Some b;
  cl_history h : h ∈ history s -> callFine (opLog s) h;
}.

(** The replicas move and the log grows. *)
Lemma clinv_replicas s r' l :
  clinv s -> opsOf r' = opLog s ++ l ->
  (forall op, Some op ∈ submitted (obs r') -> op ∈ sent s) -> (forall op, op ∈ l -> op ∈ sent s) ->
  clinv (mkClerkSystem r' (clerks s) (busy s) (sent s) (history s)).
Proof.
  intros [Hck Hsub Hlog Hsent Hun Hb Hd Ho Hh] El Hsub' Hl.
  split; unfold opLog in *; cbn [reps clerks busy sent history]; rewrite ?El; try done.
  - intros op [?|?]%elem_of_app; auto.
  - intros c op start Hc. destruct (Hb c op start Hc) as (? & ? & ? & Hle & Hj). rewrite length_app.
    split_and!; [done..|lia|]. intros j Hop. destruct (decide (j < length (opsOf (reps s)))%nat) as [Hlt|]; [|lia].
    rewrite lookup_app_l in Hop by done. by apply Hj.
  - intros op Hop. destruct (Hd op Hop) as [?|?]; [by left|right; apply elem_of_app; by left].
  - intros i a b Ha Hbs Hc Hseq. destruct (decide (i < length (opsOf (reps s)))%nat) as [Hlt|Hge].
    + rewrite lookup_app_l in Ha by done. destruct (Ho i a b Ha Hbs Hc Hseq) as (k & ? & Hk).
      exists k. split; [done|]. by apply lookup_app_l_Some.
    + assert (opSeq a <= ck_seq (clerks s (opClient a))) as Hle.
      { apply Hsent. rewrite lookup_app_r in Ha by lia. by eapply Hl, list_elem_of_lookup_2. }
      destruct (Hd b Hbs) as [[start Hbusy]|[k Hk]%list_elem_of_lookup].
      * destruct (Hb _ _ _ Hbusy) as (_ & _ & Hs & _). rewrite Hc in Hle. lia.
      * exists k. pose proof (lookup_lt_Some _ _ _ Hk). split; [lia|]. by apply lookup_app_l_Some.
  - intros h Hin. by apply cs_later, Hh.
Qed.

Lemma clinv_call s c r ck seq :
  clinv s -> busy s c = Idle -> ck_seq (clerks s c) < 2 ^ 63 - 1 -> nextSeq (clerks s c) = (ck, seq) ->
  let op := request r (clientId ck) seq in
  clinv (mkClerkSystem (reps s) (upd (clerks s) c ck)
    (upd (busy s) c (Calling op (length (opLog s)))) (op :: sent s) (history s)).
Proof.
  intros [Hck Hsub Hlog Hsent Hun Hb Hd Ho Hh] Hidle Hlt Hnext op.
  destruct (Hck c) as [Hid Hrange]. unfold nextSeq in Hnext. rewrite wrap_signed_small in Hnext by lia.
  injection Hnext as <- <-. cbn [clientId] in op.
  assert (opClient op = c) as Ec by (unfold op, opClient; by rewrite cs_request, Hid).
  assert (opSeq op = ck_seq (clerks s c) + 1) as Es by (unfold op, opSeq; by rewrite cs_request).
  clearbody op.
  assert (forall op', op' ∈ sent s -> opId op' <> opId op) as Hnew.
  { intros op' Hin Hid'. apply Hsent in Hin. unfold opClient, opSeq in *. rewrite Hid', Ec in Hin. lia. }
  split; unfold opLog in *; cbn [reps clerks busy sent history]; try done.
  - intros c'. upd_cases c c'; [|apply Hck]. simpl. split; [done|lia].
  - intros op' Hin. right. by apply Hsub.
  - intros op' Hin. right. by apply Hlog.
  - intros op' [->|Hin]%elem_of_cons; [rewrite Ec, upd_eq, Es; done|].
    apply Hsent in Hin. destruct (decide (opClient op' = c)) as [E|?]; [|by rewrite upd_ne].
    rewrite E in *. rewrite upd_eq. simpl. lia.
  - intros op1 op2 [->|Hin1]%elem_of_cons [->|Hin2]%elem_of_cons Eid; [done|..|by apply Hun].
    + by destruct (Hnew op2 Hin2).
    + by destruct (Hnew op1 Hin1).
  - intros c' op' start. upd_cases c c'.
    + intros [= <- <-]. split_and!; [left|done|done|done|]. intros j Hj.
      destruct (Hnew op); [|done]. by eapply Hlog, list_elem_of_lookup_2.
    + intros Hc. destruct (Hb _ _ _ Hc) as (? & ? & ? & ? & ?). split_and!; [by right|done..].
  - intros op' [->|Hin]%elem_of_cons; [left; rewrite Ec, upd_eq; eauto|].
    destruct (Hd op' Hin) as [[start Hc]|?]; [|by right]. left.
    destruct (decide (opClient op' = c)) as [E|?]; [rewrite E in Hc; congruence|]. rewrite upd_ne by done. eauto.
  - intros i a b Ha [->|Hin]%elem_of_cons Hc Hseq; [|by eapply Ho].
    assert (a ∈ sent s) as Has by (by eapply Hlog, list_elem_of_lookup_2).
    apply Hsent in Has. rewrite Hc, Ec in Has. lia.
Qed.

Lemma clinv_return s c op start i res :
  clinv s -> busy s c = Calling op start -> callFine (opLog s) (mkCall op start (length (opLog s)) res) ->
  clinv (mkClerkSystem (reps s) (upd (clerks s) c (set_hint i (clerks s c)))
    (upd (busy s) c Idle) (sent s) (history s ++ [mkCall op start (length (opLog s)) res])).
Proof.
  intros [Hck Hsub Hlog Hsent Hun Hb Hd Ho Hh] Hbusy Hlin.
  assert (forall c', ck_seq (upd (clerks s) c (set_hint i (clerks s c)) c') = ck_seq (clerks s c')) as Eseq.
  { intros c'. by upd_cases c c'. }
  split; unfold opLog in *; cbn [reps clerks busy sent history]; try done.
  - intros c'. rewrite Eseq. split; [|apply Hck]. upd_cases c c'; [simpl|]; apply Hck.
  - intros op' Hin. rewrite Eseq. by apply Hsent.
  - intros c' op' start'. rewrite Eseq. upd_cases c c'; [done|]. apply Hb.
  - intros op' Hin. destruct (Hd op' Hin) as [[start' Hc]|?]; [|by right].
    destruct (decide (opClient op' = c)) as [E|?]; [|left; rewrite upd_ne by done; eauto]. right.
    rewrite E, Hbusy in Hc. injection Hc as -> _. by apply cs_recorded in Hlin.
  - intros h [Hin| ->%list_elem_of_singleton]%elem_of_app; [by apply Hh|done].
Qed.

Context `{!StateCodecOk Op}.

(** Each client's requests are in order in the log, retries apart. *)
Lemma clinv_ordered s : clinv s -> clientOrdered (opLog s).
Proof.
  intros Hcl i j a b Hij Ha Hb Hma Hmb Hc Hs.
  destruct (cl_order _ Hcl i a b Ha) as (k & Hk & Hkb); [by eapply (cl_log _ Hcl), list_elem_of_lookup_2|done|done|].
  by exists k, b.
Qed.

(** The replicas' steps keep the clerks' invariant. *)
Lemma clinv_rpstep A s a r' :
  clinv s -> rinv n A r' -> rpstep n ordered (reps s) a r' ->
  (forall i op r, a = AStart i op r -> op ∈ sent s) ->
  clinv (mkClerkSystem r' (clerks s) (busy s) (sent s) (history s)).
Proof.
  intros Hcl Hr Hs Ha. destruct (rpstep_grows n ordered _ _ _ Hs) as [[l El] Hsub].
  assert (forall op, Some op ∈ submitted (obs r') -> op ∈ sent s) as Hsub'.
  { intros op [?|(i & op' & r & -> & [= <-])]%Hsub; [by apply (cl_submitted _ Hcl)|by eapply Ha]. }
  eapply clinv_replicas; [done|exact El|done|]. intros op Hop. apply Hsub'.
  eapply rinv_submitted; [done|]. rewrite El. apply elem_of_app. by right.
Qed.

(** [Q] holds of servers that never compact, if [ordered] does not. *)
Record ckinv (Q : Srv -> Prop) s : Prop := {
  cki_rinv : exists A, rinv n A (reps s);
  cki_tame : tame n ordered Q (reps s);
  cki_clinv : clinv s;
}.

Lemma ckinv_step Q s s' : ckinv Q s -> ckstep s s' -> ckinv Q s'.
Proof.
  intros [[A Hr] Ht Hcl] Hs.
  assert (forall a r', rpstep n ordered (reps s) a r' -> (forall i op r, a = AStart i op r -> op ∈ sent s) ->
    ckinv Q (mkClerkSystem r' (clerks s) (busy s) (sent s) (history s))) as Hrp.
  { intros a r' Hs' Ha. destruct (replicas_inv_step n ordered Q A _ a r' Ht Hr Hs') as (A' & Hr' & _).
    split; cbn [reps]; [by exists A'|exact (tame_step n ordered _ A _ a r' Hr Ht Hs')|exact (clinv_rpstep A' s a r' Hcl Hr' Hs' Ha)]. }
  destruct Hs as [r' Hs|i op r r' Hin Hs|i v' r' Hs|c r ck seq Hidle Hlt Hn op|c op start i res Hb Hi Hans Hacc].
  - eapply Hrp; [done|]. by intros.
  - eapply Hrp; [done|]. by intros ? ? ? [= <- <- <-].
  - eapply Hrp; [done|]. by intros.
  - split; cbn [reps]; [by exists A|done|by apply clinv_call].
  - split; cbn [reps]; [by exists A|done|]. apply clinv_return; [done|done|].
    destruct (rinv_holds n A _ i Hr Hi) as (p & q & _ & _ & Hh).
    destruct (cl_busy _ Hcl _ _ _ Hb) as (Hin & _ & _ & _ & Hst).
    eapply cs_answer; [exact Hh|exact Hans|done| |exact Hst].
    intros op' Hop' E. apply (cl_unique _ Hcl); [by apply (cl_log _ Hcl)|done|done].
Qed.

Lemma ckinv_init Q envs v0 :
  (0 < n)%nat -> (forall i, holdsAt [] 0 0 (v0 i)) ->
  ordered = true /\ takesSnapshots = true \/ neverCompacts Q /\ (forall i, Q (v0 i)) ->
  ckinv Q (ckinit envs v0).
Proof.
  intros Hn Hv Ho. split.
  - exists ainit. by apply rinv_init.
  - by apply tame_init.
  - split; simpl; try done; intros; by match goal with Hin : _ ∈ [] |- _ => apply not_elem_of_nil in Hin end.
Qed.

Lemma ckreachable_inv Q v0 s :
  (0 < n)%nat -> (forall i, holdsAt [] 0 0 (v0 i)) ->
  ordered = true /\ takesSnapshots = true \/ neverCompacts Q /\ (forall i, Q (v0 i)) ->
  ckreachable v0 s -> ckinv Q s.
Proof.
  intros Hn Hv Ho (envs & Hs). pose proof (ckinv_init Q envs v0 Hn Hv Ho) as Hi. revert Hi.
  induction Hs; eauto using ckinv_step.
Qed.

(** What every client of a replicated service gets. *)
Lemma ckinv_facts Q s :
  ckinv Q s ->
  Forall (callFine (opLog s)) (history s) /\ (forall op : Op, op ∈ opLog s -> op ∈ sent s) /\
  forall i, peer n i ->
    (exists p q, 0 <= q <= p /\ p <= zlen (opLog s) /\ holdsAt (opLog s) p q (servers (reps s) i)) /\
    (applicable (opLog s) -> forall msg r, inbox (reps s) i = Some msg ->
       exists v' snap, applies r msg (servers (reps s) i) v' snap).
Proof.
  intros [[A Hr] Ht Hcl]. split; [apply Forall_forall; apply (cl_history _ Hcl)|].
  split; [apply (cl_log _ Hcl)|]. intros i Hi. split; [by eapply rinv_holds|].
  intros Hok msg r Hib. by eapply (rinv_progress n ordered Q A).
Qed.
End clerks.

(** ** Running the system *)

Section ckrun.
Context {Op : Type} {RQ : Requests Op} `{EqDecision Op} `{StateCodec Op} {RS : RaftService Op} {CS : ClerkService RS} {SE : ServiceExec RS}.
Context (n : nat) (ordered : bool).
Implicit Types (s : ClerkSystem (RS := RS)).

Inductive CkEvent :=
| KRep (ev : RpEvent)                     (* a step of the replicas *)
| KRequest (i : Z) (k : nat)              (* the [k]-th request sent arrives at server [i] *)
| KCall (c : Z) (r : Req)
| KReturn (c i : Z) (k : nat).            (* the [k]-th answer of server [i] *)

Definition withReps s (r : Replicas Op Srv) : ClerkSystem :=
  mkClerkSystem r (clerks s) (busy s) (sent s) (history s).

Definition ckexec (ev : CkEvent) s : option ClerkSystem :=
  match ev with
  | KRep ev =>
      '(a, r) ← rpexec n ordered ev (reps s);
      match a with AStart _ _ _ => None | _ => Some (withReps s r) end
  | KRequest i k =>
      op ← sent s !! k;
      '(a, r) ← rpexec n ordered (RStart i op) (reps s);
      match a with AStart _ op' _ => if bool_decide (op' = op) then Some (withReps s r) else None | _ => None end
  | KCall c q =>
      match busy s c with
      | Idle =>
          if ck_seq (clerks s c) <? 2 ^ 63 - 1 then
            let '(ck, seq) := nextSeq (clerks s c) in
            let op := request q (clientId ck) seq in
            Some (mkClerkSystem (reps s) (upd (clerks s) c ck)
              (upd (busy s) c (Calling op (length (opLog s)))) (op :: sent s) (history s))
          else None
      | Calling _ _ => None
      end
  | KReturn c i k =>
      if isPeer n i then
        '(op', res) ← answers (servers (reps s) i) !! k;
        match busy s c with
        | Calling op start =>
            if bool_decide (op' = op) && accepts op res then
              Some (mkClerkSystem (reps s) (upd (clerks s) c (set_hint i (clerks s c))) (upd (busy s) c Idle) (sent s)
                (history s ++ [mkCall op start (length (opLog s)) res]))
            else None
        | Idle => None
        end
      else None
  end.

Definition ckrun (evs : list CkEvent) s : option ClerkSystem :=
  foldl (fun o ev => s ← o; ckexec ev s) (Some s) evs.

Lemma ckexec_sound ev s s' : ckexec ev s = Some s' -> ckstep n ordered s s'.
Proof.
  intros He. destruct ev as [ev|i k|c q|c i k]; cbn [ckexec] in He.
  - apply bind_Some in He as ([a r] & Hr & He). apply rpexec_sound in Hr.
    destruct a; simplify_eq; [by apply ck_internal|by eapply ck_serve].
  - apply bind_Some in He as (op & Hop & He). apply bind_Some in He as ([a r] & Hr & He). apply rpexec_sound in Hr.
    destruct a; simplify_eq. case_bool_decide; simplify_eq. eapply ck_request; [by eapply list_elem_of_lookup_2|done].
  - case_match eqn:Hb; [|done]. case_match eqn:Hs; [|done]. b2p. destruct (nextSeq _) as [ck seq] eqn:Hn. simplify_eq.
    by apply ck_call.
  - destruct (isPeer n i) eqn:Hi; [apply isPeer_peer in Hi|done].
    apply bind_Some in He as ([op' res] & Hk & He). destruct (busy s c) as [|op start] eqn:Hb; [done|].
    destruct (_ && _) eqn:Hg; [|done]. apply andb_prop in Hg as [Eop Hacc]. b2p. subst op'. simplify_eq.
    eapply ck_return; [done|done|by eapply list_elem_of_lookup_2|done].
Qed.

Lemma ckrun_sound evs s s' : ckrun evs s = Some s' -> rtc (ckstep n ordered) s s'.
Proof.
  revert s'. induction evs as [|ev evs IH] using rev_ind; intros s' Hr; [injection Hr as <-; apply rtc_refl|].
  unfold ckrun in *. rewrite foldl_app in Hr. simpl in Hr.
  apply bind_Some in Hr as (s1 & Hs1 & He). eapply rtc_r; eauto using ckexec_sound.
Qed.
End ckrun.

Abbreviation KRaft ev := (KRep (RRaft ev)).
Abbreviation KReceive ev := (KRep (RReceive ev)).
Abbreviation KApply i := (KRep (RApply i)).
Abbreviation KCompact i := (KRep (RCompact i)).
Abbreviation KServe i e := (KRep (RServe i e)).
Abbreviation KRestart env i := (KRep (RRestart env i)).
