(* ===== verification/KvCluster.v ===== *)
(** * The replicated key/value service, end to end

    Clerks, servers, Raft peers and the network of [src/src/kvraft/] together: the
    servers of [KvRaft] are a service on Raft in the sense of [Replicated], and its clerks
    are clerks in the sense of [Clerks], who call the servers over a network that loses,
    delays and repeats requests and replies, while peers crash and restart.  The theorem is
    linearizability. *)

From S2P Require Import Prelude Persister Raft RaftCodec RaftLocal RaftCluster RaftRun RaftAbstract RaftDelivery Replicated RaftCommands Waiters Dedup KvRaft KvRaftDelivery Clerks.

(** ** The servers as a service on Raft *)

(** A server and its RPC handlers: those between [Start] and the registration of their
    channel, those that wait, and the replies given. *)
Record KvNode := mkKvNode {
  kn_srv : KVServer;
  kn_starting : list (Op * Z);
  kn_waiting : list (Op * Z * nat);
  kn_answered : list (Op * result);
}.

Section instance.
Context `{SnapCodec}.

(** [waitFor] after [Start] returned. *)
Definition kn_started (op : Op) (r : Z * Z * bool) (v : KvNode) : KvNode :=
  let '(index, _, isLeader) := r in
  if isLeader then mkKvNode (kn_srv v) ((op, index) :: kn_starting v) (kn_waiting v) (kn_answered v)
  else mkKvNode (kn_srv v) (kn_starting v) (kn_waiting v)
         ((op, mkResult ErrWrongLeader EmptyString 0 0) :: kn_answered v).

(** The critical sections of [waitFor], and [Kill]. *)
Inductive kn_serves (v : KvNode) : KvNode -> Prop :=
| kn_register op index kv ch ss1 ss2 :
    kn_starting v = ss1 ++ (op, index) :: ss2 -> waitFor_register index (kn_srv v) = (kv, ch) ->
    kn_serves v (mkKvNode kv (ss1 ++ ss2) ((op, index, ch) :: kn_waiting v) (kn_answered v))
| kn_receive op index ch kv res ws1 ws2 :
    kn_waiting v = ws1 ++ (op, index, ch) :: ws2 ->
    waitFor_receive op index ch (kn_srv v) = Some (kv, res) ->
    kn_serves v (mkKvNode kv (kn_starting v) (ws1 ++ ws2) ((op, res) :: kn_answered v))
| kn_timeout op index ch kv res ws1 ws2 :
    kn_waiting v = ws1 ++ (op, index, ch) :: ws2 ->
    waitFor_timeout index (kn_srv v) = (kv, res) ->
    kn_serves v (mkKvNode kv (kn_starting v) (ws1 ++ ws2) ((op, res) :: kn_answered v))
| kn_kill :
    kn_serves v (mkKvNode (Kill (kn_srv v)) (kn_starting v) (kn_waiting v) (kn_answered v)).

Definition kn_applies (r : Z) (m : ApplyMsg Op) (v v' : KvNode) (snap : option (Z * bytes)) : Prop :=
  exists kv, applyMsg r m (kn_srv v) = Some (kv, snap) /\
    v' = mkKvNode kv (kn_starting v) (kn_waiting v) (kn_answered v).

(** Handlers die with their server; replies already given are still under way. *)
Definition kn_boot (ps : Persister) (v : KvNode) : KvNode :=
  mkKvNode (StartKVServer (kv_me (kn_srv v)) (maxraftstate (kn_srv v)) ps) [] [] (kn_answered v).

#[global] Instance kvService : RaftService Op := {|
  Srv := KvNode;
  applies := kn_applies;
  started := kn_started;
  serves := kn_serves;
  boot := kn_boot;
  takesSnapshots := true;
  snapshotOf ops := gobEncodeStore (smRun ops);
|}.

(** *** It keeps the contract *)

Context `{!SnapCodecOk}.
Implicit Types (ops : list Op) (v : KvNode).

Definition nodeAt (p : Z) v : Server := mkServer (kn_srv v) p (kn_waiting v) (kn_answered v).

Lemma stateAt_app ops l i : i <= zlen ops -> stateAt (ops ++ l) i = stateAt ops i.
Proof. intros. unfold stateAt, zlen in *. rewrite take_app_le by lia. done. Qed.

Lemma resultAt_more ops l i r : resultAt ops i = Some r -> resultAt (ops ++ l) i = Some r.
Proof.
  unfold resultAt. intros (op & Hop & Hr)%bind_Some. pose proof (go_index_Some_bound _ _ _ Hop).
  rewrite go_index_app_l by lia. rewrite Hop. simpl. by rewrite stateAt_app by lia.
Qed.

Lemma kinv_more ops l s : kinv ops s -> kinv (ops ++ l) s.
Proof.
  intros [Hp Hs Hw Ha]. pose proof (zlen_app ops l). pose proof (zlen_nonneg l). split.
  - lia.
  - rewrite stateAt_app by lia. done.
  - eapply waiters_ok_weaken; [|done]. intros i r. apply resultAt_more.
  - intros op res Hin. destruct (Ha op res Hin) as [?|[?|(i & op' & Hop & Hid & Hr)]]; [by left|by right; left|].
    right; right. exists i, op'. pose proof (go_index_Some_bound _ _ _ Hop).
    split; [rewrite go_index_app_l by lia; done|]. split; [done|]. by apply resultAt_more.
Qed.

(** While it is not killed, the server is where Raft takes it to be. *)
Definition kn_holds ops (p q : Z) v : Prop :=
  exists p', kinv ops (nodeAt p' v) /\
    (kv_dead (kn_srv v) = false -> p' = p /\ kv_lastApplied (kn_srv v) = q).

Lemma kn_holds_started ops p q op r v : kn_holds ops p q v -> kn_holds ops p q (kn_started op r v).
Proof.
  destruct r as [[index tm] [|]]; intros (p' & Hk & Hd); exists p'; [done|]. split; [|done].
  destruct Hk as [H1 H2 H3 H4]. split; try done. simpl.
  intros op' res [[= -> ->]|?]%elem_of_cons; [by left|by apply H4].
Qed.

Lemma kn_holds_serves ops p q v v' : kn_holds ops p q v -> kn_serves v v' -> kn_holds ops p q v'.
Proof.
  intros (p' & Hk & Hd) Hs. exists p'. destruct Hs as [op index kv ch ss1 ss2 _ Hr|op index ch kv res ws1 ws2 Hw Hr|op index ch kv res ws1 ws2 Hw Hr|].
  - split; [by apply (kinv_wait ops (nodeAt p' v))|]. unfold waitFor_register in Hr.
    destruct (register _ _). by simplify_eq.
  - split; [by eapply (kinv_receive ops (nodeAt p' v))|]. unfold waitFor_receive in Hr.
    apply bind_Some in Hr as ([w r] & _ & Hr). by simplify_eq.
  - split; [by eapply (kinv_timeout ops (nodeAt p' v))|]. by injection Hr as <- <-.
  - split; [|done]. destruct Hk as [H1 H2 H3 H4]. by split.
Qed.

Lemma kn_holds_boot ops p q b ps v :
  0 <= b <= zlen ops -> b = 0 /\ ReadSnapshot ps = [] \/ snapGoodOps ops b (ReadSnapshot ps) ->
  kn_holds ops p q v -> kn_holds ops b 0 (kn_boot ps v).
Proof.
  intros Hb Hs (p' & Hk & _). exists b. split.
  - apply kinv_start; [done| |apply Hk]. destruct Hs as [[-> ->]|[_ E]%snapGoodOps_eq]; [by left|by right].
  - intros _. split; [done|]. unfold kn_boot, StartKVServer, readSnapshot. simpl. by repeat case_match.
Qed.

(** What [applyMsg] leaves in the server, whatever the message. *)
Lemma applyMsg_frame r m kv kv' snap :
  applyMsg r m kv = Some (kv', snap) ->
  kv_dead kv' = kv_dead kv /\ maxraftstate kv' = maxraftstate kv /\
  (kv_dead kv = false -> kv_lastApplied kv' = if msgIndex m <=? kv_lastApplied kv then kv_lastApplied kv else msgIndex m) /\
  (forall k d, snap = Some (k, d) -> kv_dead kv = false /\ 0 <= maxraftstate kv /\ k = msgIndex m /\
     kv_lastApplied kv < k /\ d = gobEncodeStore (store kv')).
Proof.
  unfold applyMsg, applyCommand, applySnapshot, readSnapshot. intros Hs.
  destruct (kv_dead kv) eqn:Hd; [by simplify_eq|]. destruct m as [cmd i|d t i]; simpl.
  - destruct (Z.leb_spec i (kv_lastApplied kv)); [by simplify_eq|].
    apply bind_Some in Hs as (op & -> & Hs). destruct (applyOp _ _) as [st res].
    apply bind_Some in Hs as (w & _ & Hs). simplify_eq. simpl. split_and!; [done..|].
    unfold maybeSnapshot. simpl. intros k d. destruct (Z.ltb_spec (maxraftstate kv) 0); [done|].
    case_match; [done|]. intros [= <- <-]. split_and!; (done || lia).
  - simplify_eq. destruct (Z.leb_spec i (kv_lastApplied kv)); [by split_and!|]. repeat case_match; by split_and!.
Qed.

Lemma kn_faithful ops p q m p' q' v :
  tellsOps ops p q m p' q' -> kv_lastApplied (kn_srv v) = q -> faithful ops (nodeAt p v) m.
Proof.
  intros Ht Hq. apply tellsOps_cases in Ht as [(Hm & -> & ->)|[(op & Hop & -> & _)|(d & t & k & -> & ? & ? & Hg & _)]].
  - rewrite <- Hq in Hm. destruct m; simpl in *; by left.
  - right. replace (p + 1 - 1) with p by lia. split; [done|]. rewrite Hop. eauto.
  - right. apply snapGoodOps_eq in Hg as [? ->]. simpl. split; [lia|done].
Qed.

Lemma kn_holds_total ops p q m p' q' r v :
  0 <= q <= p -> p <= zlen ops -> tellsOps ops p q m p' q' -> kn_holds ops p q v ->
  exists v' snap, kn_applies r m v v' snap.
Proof.
  intros _ _ Ht (p0 & Hk & Hd).
  assert (exists kv snap, applyMsg r m (kn_srv v) = Some (kv, snap)) as (kv & snap & E).
  { destruct (kv_dead (kn_srv v)) eqn:Hdead; [unfold applyMsg; rewrite Hdead; eauto|].
    destruct (Hd eq_refl) as [-> Hq].
    destruct (kinv_apply ops (nodeAt p v) r m Hk) as (kv & snap & E & _); [by eapply kn_faithful|eauto]. }
  eexists _, snap. by exists kv.
Qed.

Lemma kn_holds_applies ops p q m p' q' r v v' snap :
  0 <= q <= p -> p <= zlen ops -> tellsOps ops p q m p' q' -> kn_holds ops p q v ->
  kn_applies r m v v' snap ->
  kn_holds ops p' q' v' /\ forall k d, snap = Some (k, d) -> snapGoodOps ops k d.
Proof.
  intros Hqp Hlen Ht (p0 & Hk & Hd) (kv & Ha & ->).
  destruct (applyMsg_frame _ _ _ _ _ Ha) as (Edead & _ & Ela & Hsnap).
  destruct (kv_dead (kn_srv v)) eqn:Hdead.
  { assert (kv = kn_srv v) as -> by (unfold applyMsg in Ha; rewrite Hdead in Ha; congruence).
    split; [exists p0; split; [done|]; simpl; congruence|]. intros k d E. destruct (Hsnap k d E). congruence. }
  destruct (Hd eq_refl) as [-> Hq]. specialize (Ela eq_refl).
  destruct (kinv_apply ops (nodeAt p v) r m Hk) as (kv0 & snap0 & Ha' & Hk'); [by eapply kn_faithful|].
  simpl in Ha'. rewrite Ha in Ha'. injection Ha' as <- <-.
  pose proof (tells_consume _ _ _ _ _ _ _ Hqp Ht) as Hc. unfold consume in Hc. cbn [fst snd] in Hc.
  assert (posAfter (nodeAt p v) m = p' /\ kv_lastApplied kv = q') as [Hp' Hq'].
  { assert (posAfter (nodeAt p v) m = if msgIndex m <=? kv_lastApplied (kn_srv v) then p else msgIndex m) as ->.
    { unfold posAfter. simpl. rewrite Hdead. by destruct m. }
    rewrite Ela, Hq. destruct (msgIndex m <=? q); by injection Hc as <- <-. }
  rewrite Hp' in Hk'. split; [exists p'; by split|].
  intros k d E. destruct (Hsnap k d E) as (_ & _ & -> & Hlt & ->).
  assert (p' = msgIndex m) as Em.
  { rewrite Hq in Hlt. rewrite (proj2 (Z.leb_gt _ _)) in Hc by lia. by injection Hc. }
  apply snapGoodOps_eq. destruct (ki_pos _ _ Hk') as [? ?]. simpl in *. split; [lia|].
  pose proof (ki_store _ _ Hk') as Hst. simpl in Hst. rewrite Hst. unfold stateAt. by rewrite Em.
Qed.

#[global] Instance kvServiceOk : RaftServiceOk kvService.
Proof.
  refine {| holdsAt := kn_holds : list Op -> Z -> Z -> Srv -> Prop; applicable _ := True |}.
  - intros ops ops' p s v Hp (p' & Hk & Hd). exists p'. split; [by apply kinv_more|done].
  - apply kn_holds_started.
  - apply kn_holds_serves.
  - intros. by eapply kn_holds_boot.
  - intros. by eapply kn_holds_total.
  - intros. by eapply kn_holds_applies.
Defined.

(** With [maxraftstate] negative a server never compacts. *)
Lemma kv_never_compacts : neverCompacts (fun v : Srv => maxraftstate (kn_srv v) < 0).
Proof.
  split; simpl.
  - intros r m v v' snap HQ (kv & Ha & ->). destruct (applyMsg_frame _ _ _ _ _ Ha) as (_ & E & _ & Hsnap).
    simpl. rewrite E. split; [done|]. destruct snap as [[k d]|]; [|done]. destruct (Hsnap k d eq_refl) as (_ & ? & _). lia.
  - intros op [[index tm] [|]] v HQ; done.
  - intros v v' HQ Hs. destruct Hs as [op index kv ch ss1 ss2 _ Hr|op index ch kv res ws1 ws2 _ Hr|op index ch kv res ws1 ws2 _ Hr|]; simpl; [| | |done].
    + unfold waitFor_register in Hr. destruct (register _ _). by simplify_eq.
    + unfold waitFor_receive in Hr. apply bind_Some in Hr as ([w r] & _ & Hr). by simplify_eq.
    + by injection Hr as <- <-.
  - intros ps v HQ. unfold kn_boot, StartKVServer, readSnapshot. simpl. by repeat case_match.
Qed.


(** ** The clerks *)

(** A call: [Get] with its key, or [PutAppend]. *)
Definition callOp (call : OpType * string * string) (cid seq : Z) : Op :=
  let '(t, key, value) := call in
  match t with
  | TGet => Get_op (mkGetArgs key cid seq)
  | TPut => Put_op (mkPutAppendArgs key value TPut cid seq)
  | TAppend => Append_op (mkPutAppendArgs key value TAppend cid seq)
  end.

(** The replies that end the clerk's loop. *)
Definition accepted (op : Op) (res : result) : bool :=
  match op_Type op with
  | TGet => bool_decide (r_err res = OK) || bool_decide (r_err res = ErrNoKey)
  | _ => bool_decide (r_err res = OK)
  end.

#[global] Instance kvClerks : ClerkService kvService := {|
  Req := OpType * string * string;
  Ans := result;
  request := callOp;
  answers := kn_answered;
  accepts := accepted;
|}.

(** The call took effect at a command of the log that was told of while it ran: a [Get]
    returns what its key held there; a [Put] or [Append] is the first of its retries. *)
Definition linearized (log : list Op) (op : Op) (start en : nat) (res : result) : Prop :=
  exists p, (start <= p < en)%nat /\ log !! p = Some op /\
    (mutating op = false -> (r_err res, r_value res) = (runOp op (data (smRun (take p log)))).2) /\
    (mutating op = true -> r_err res = OK /\
       forall j op', (j < p)%nat -> log !! j = Some op' -> opId op' <> opId op).

Lemma clerk_linearized_app log l op start en res :
  linearized log op start en res -> linearized (log ++ l) op start en res.
Proof.
  intros (p & Hp & Hop & Hg & Hm). pose proof (lookup_lt_Some _ _ _ Hop) as Hlt. exists p.
  split; [done|]. split; [by apply lookup_app_l_Some|]. rewrite take_app_le by lia. split; [done|].
  intros E. destruct (Hm E) as [? Hfirst]. split; [done|]. intros j op' Hj. rewrite lookup_app_l by lia. by apply Hfirst.
Qed.

Lemma accepted_err op res : accepted op res = true -> r_err res = OK \/ r_err res = ErrNoKey.
Proof.
  unfold accepted. intros Ha. destruct (op_Type op); [apply orb_prop in Ha as [?|?]|..]; b2p; auto.
Qed.

(** The result of the command at a position is what it read there, if it is a [Get]. *)
Lemma resultAt_get log i op res :
  mutating op = false -> log @! (i - 1) = Some op -> resultAt log i = Some res ->
  (r_err res, r_value res) = (runOp op (data (smRun (take (Z.to_nat (i - 1)) log)))).2.
Proof.
  intros Hm Hop. unfold resultAt. rewrite Hop. cbn [mbind option_bind]. intros [= <-]. unfold stateAt, applyOp.
  assert (bool_decide (op_Type op = TGet) = true) as -> by (unfold mutating in Hm; by apply negb_false_iff).
  destruct (runOp op _) as [m [e v]]. destruct (dedup _ !! _); [rewrite andb_false_r|]; done.
Qed.

(** An answer that ends a call comes from the call's own command in the log. *)
Lemma answer_linearized log op start res :
  (forall op', op' ∈ log -> opId op' = opId op -> op' = op) ->
  (forall j, log !! j = Some op -> (start <= j)%nat) ->
  answer_ok log op res -> accepted op res = true -> linearized log op start (length log) res.
Proof.
  intros Hun Hstart Hans Hacc.
  destruct Hans as [E|[E|(i & op' & Hop & Hid & Hres)]]; [by destruct (accepted_err _ _ Hacc); congruence..|].
  pose proof (go_index_Some_bound _ _ _ Hop) as Hi.
  assert (log !! Z.to_nat (i - 1) = Some op') as Hk.
  { unfold go_index in Hop. by rewrite (proj2 (Z.leb_le 0 (i - 1))) in Hop by lia. }
  assert (op' = op) as -> by (apply Hun; [by eapply list_elem_of_lookup_2|done]).
  destruct (mutating op) eqn:Hm.
  - destruct (list_lookup_first (fun o => opId o = opId op) log _ op Hk eq_refl) as (p & o & Hp & Ho & Hido & Hfirst).
    assert (o = op) as -> by (apply Hun; [by eapply list_elem_of_lookup_2|done]).
    exists p. pose proof (lookup_lt_Some _ _ _ Ho). rewrite Hm.
    split; [specialize (Hstart p Ho); lia|]. split; [done|]. split; [done|]. intros _. split; [|done].
    unfold accepted in *. simpl in Hm. destruct (op_Type op); by b2p.
  - exists (Z.to_nat (i - 1)). pose proof (lookup_lt_Some _ _ _ Hk). rewrite Hm.
    split; [specialize (Hstart _ Hk); lia|]. split; [done|]. split; [|done]. intros _. by apply resultAt_get.
Qed.

#[global] Instance kvClerksOk : ClerkServiceOk kvServiceOk kvClerks.
Proof.
  refine {| effectIn := linearized : list Op -> Op -> nat -> nat -> Ans -> Prop |}.
  - intros [[[| |] key] value] c s; done.
  - intros log op start en res (p & _ & Hp & _). by eapply list_elem_of_lookup_2.
  - apply clerk_linearized_app.
  - intros log p q v op res start (p' & Hk & _) Hin Hacc Hun Hst. apply answer_linearized; [done|done| |done].
    by apply (ki_answered _ _ Hk).
Defined.
End instance.

(** ** Linearizability *)

Section system.
Context `{StateCodec Op} `{SnapCodec} (n : nat) (ordered : bool).
Implicit Types (s : ClerkSystem (RS := kvService)).

Definition kvnode0 (max i : Z) : KvNode := mkKvNode (StartKVServer i max MakePersister) [] [] [].

Definition kvreachable (max : Z) s : Prop := ckreachable n ordered (kvnode0 max) s.

Context `{!SnapCodecOk} `{!StateCodecOk Op}.

Lemma kvreachable_inv max s :
  (0 < n)%nat -> ordered = true \/ max < 0 -> kvreachable max s ->
  ckinv n ordered (fun v : Srv => maxraftstate (kn_srv v) < 0) s.
Proof.
  intros Hn Ho Hr. apply (ckreachable_inv (RS := kvService) n ordered _ (kvnode0 max)); [done| | |exact Hr].
  - intros i. exists 0. split; [|done]. apply kinv_start; [done|by left|]. by intros op res ?%not_elem_of_nil.
  - destruct Ho as [?|?]; [by left|right]. split; [apply kv_never_compacts|done].
Qed.

(** C4. The replicated key/value service is linearizable: with clerks that retry over a
    network that loses, delays and repeats messages, and servers that crash, restart and
    take snapshots, there is one sequence of commands, all of them sent by clerks, such that
    every call that returned took effect at a command of the sequence between its
    invocation and its return, a [Get] with the value its key had there, a [Put] or [Append]
    at its first occurrence; the mutations take effect once each, in that order; and the
    store of every server is that of a prefix of the sequence.  If servers do not compact
    their logs ([max] negative) nothing is assumed; if they do, this is about the runs in
    which no command is received before a snapshot that was installed before it
    ([ordered]).  [KvRaftDelivery] shows that the code has other runs, and that they lose
    commands. *)
Theorem kvraft_linearizable max s :
  (0 < n)%nat -> ordered = true \/ max < 0 -> kvreachable max s ->
  (forall h, h ∈ history s -> linearized (opLog s) (c_op h) (c_start h) (c_end h) (c_res h)) /\
  (data (smRun (opLog s)) = replayOps (firsts (opLog s)) /\ NoDup (opId <$> firsts (opLog s))) /\
  (forall op, op ∈ opLog s -> op ∈ sent s) /\
  forall i, peer n i -> exists p, 0 <= p <= zlen (opLog s) /\
    store (kn_srv (servers (reps s) i)) = smRun (take (Z.to_nat p) (opLog s)).
Proof.
  intros Hn Ho Hr. pose proof (kvreachable_inv max s Hn Ho Hr) as Hi.
  destruct (ckinv_facts n ordered _ s Hi) as (Hh & Hlog & Hsrv). pose proof (cki_clinv _ _ _ _ Hi) as Hcl.
  split; [by apply Forall_forall|].
  split; [split; [apply exactly_once_data, clinv_ordered, Hcl|apply firsts_NoDup]|]. split; [done|].
  intros i Hp. destruct (Hsrv i Hp) as [(p & q & _ & _ & p' & Hk & _) _].
  exists p'. pose proof (ki_pos _ _ Hk) as Hp'. cbn [nodeAt pos srv] in Hp'. split; [lia|]. apply (ki_store _ _ Hk).
Qed.

(** *** The apply loop goes on *)

(** Whatever the server was told, a channel whose index is still to come is empty. *)
Definition kn_fine (v : KvNode) : Prop :=
  waiters_ok (kv_lastApplied (kn_srv v)) (fun _ (_ : result) => True) (kn_waiting v) (waiters (kn_srv v)).

Lemma applyMsg_fine r m v :
  kn_fine v -> properMsg is_Some m ->
  exists kv snap, applyMsg r m (kn_srv v) = Some (kv, snap) /\
    kn_fine (mkKvNode kv (kn_starting v) (kn_waiting v) (kn_answered v)).
Proof.
  intros Hf Hm. unfold applyMsg. destruct (kv_dead (kn_srv v)); [eexists _, _; by split|].
  destruct m as [cmd index|d t index]; [unfold applyCommand|unfold applySnapshot];
    (destruct (Z.leb_spec index (kv_lastApplied (kn_srv v))); [eexists _, _; by split|]).
  - destruct (Hm cmd index eq_refl) as [op ->]. cbn [mbind option_bind].
    destruct (applyOp op _) as [st res].
    destruct (waiters_ok_wake (fun _ (_ : result) => True) _ _ _ index res Hf ltac:(lia) I) as (W & E & HW).
    change (waiters (set_store st (set_lastApplied index (kn_srv v)))) with (waiters (kn_srv v)).
    rewrite E. eexists _, _. by split.
  - eexists _, _. split; [done|]. unfold kn_fine. simpl.
    assert (waiters (readSnapshot d (kn_srv v)) = waiters (kn_srv v)) as -> by (unfold readSnapshot; by repeat case_match).
    eapply waiters_ok_advance; [exact Hf|lia].
Qed.

Lemma kn_serves_fine v v' : kn_fine v -> kn_serves v v' -> kn_fine v'.
Proof.
  unfold kn_fine. intros Hf Hs. destruct Hs as [op index kv ch ss1 ss2 _ Hr|op index ch kv res ws1 ws2 Hw Hr|op index ch kv res ws1 ws2 Hw Hr|]; simpl.
  - unfold waitFor_register in Hr. destruct (register _ _) as [W c] eqn:E. simplify_eq. simpl. by eapply waiters_ok_register.
  - unfold waitFor_receive in Hr. apply bind_Some in Hr as ([W r] & E & [= <- _]). simpl. rewrite Hw in Hf.
    by destruct (waiters_ok_receive _ _ _ _ _ _ _ _ _ _ Hf E).
  - injection Hr as <- _. simpl. rewrite Hw in Hf. by eapply waiters_ok_expire.
  - done.
Qed.

Lemma kn_fine_step (r r' : Replicas Op KvNode) a :
  cmds_ok (RS := kvService) n r -> (forall i, kn_fine (servers r i)) -> rpstep n ordered (RS := kvService) r a r' ->
  forall i, kn_fine (servers r' i).
Proof.
  intros Hc Hf Hs. destruct Hs as [w' Hs|j op res w' Hs|j msg w' Hib Hcp Hs Hal|j msg v' snap Hpi Hib Hap|j k d w' Hcp Hs|j v' Hpi Hv|j w' Hs];
    intros i; cbn [servers]; try apply Hf; upd_cases j i; try apply Hf.
  - destruct res as [[index tm] [|]]; apply (Hf j).
  - destruct Hap as (kv & Ha & ->). destruct (applyMsg_fine (RaftStateSize (persister (nodes (world (obs r)) j))) msg (servers r j) (Hf j))
      as (kv' & snap' & Ha' & Hf'); [by eapply (cm_inbox (RS := kvService) n r Hc)|].
    pose proof (eq_trans (eq_sym Ha) Ha') as E. injection E as <- _. exact Hf'.
  - eapply kn_serves_fine; [apply Hf|exact Hv].
  - simpl. unfold kn_fine, kn_boot, StartKVServer. simpl.
    assert (forall ps kv, waiters (readSnapshot ps kv) = waiters kv) as -> by (intros ps kv; unfold readSnapshot; by repeat case_match).
    apply waiters_ok_none.
Qed.

(** C29. The apply loop of a server goes on: whatever message it takes from Raft, it neither
    panics on it nor blocks on a handler's channel while it holds the lock.  This needs no
    order: it holds also if snapshots are overtaken by the commands after them. *)
Theorem kvraft_apply_total max s i msg size :
  kvreachable max s -> inbox (reps s) i = Some msg ->
  exists kv snap, applyMsg size msg (kn_srv (servers (reps s) i)) = Some (kv, snap).
Proof.
  intros [envs Hr] Hm.
  assert (cmds_ok (RS := kvService) n (reps s) /\ forall i, kn_fine (servers (reps s) i)) as [Hc Hf].
  { clear Hm. pattern s. eapply rtc_ind_r; [| |exact Hr].
    - split; [apply cmds_ok_init|]. intros j. apply waiters_ok_none.
    - intros s1 s2 _ Hs [Hc Hf]. destruct Hs; cbn [reps]; try done;
        (split; [by eapply cmds_ok_step|by eapply kn_fine_step]). }
  destruct (applyMsg_fine size msg (servers (reps s) i) (Hf i)) as (kv & snap & ? & _); [by eapply (cm_inbox (RS := kvService) n _ Hc)|eauto].
Qed.
End system.

(** ** Running the system *)

Inductive KvServe :=
| SvRegister (k : nat)     (* the [k]-th handler registers its channel *)
| SvTake (k : nat)         (* the [k]-th handler that waits receives *)
| SvTimeout (k : nat)      (* ... gives up *)
| SvKill.

Section run.
Context `{SnapCodec}.

Definition kvServe (e : KvServe) (v : KvNode) : option KvNode :=
  match e with
  | SvRegister k =>
      '(op, index) ← kn_starting v !! k;
      let '(kv, ch) := waitFor_register index (kn_srv v) in
      Some (mkKvNode kv (take k (kn_starting v) ++ drop (S k) (kn_starting v))
        ((op, index, ch) :: kn_waiting v) (kn_answered v))
  | SvTake k =>
      '(op, index, ch) ← kn_waiting v !! k;
      '(kv, res) ← waitFor_receive op index ch (kn_srv v);
      Some (mkKvNode kv (kn_starting v)
        (take k (kn_waiting v) ++ drop (S k) (kn_waiting v)) ((op, res) :: kn_answered v))
  | SvTimeout k =>
      '(op, index, ch) ← kn_waiting v !! k;
      let '(kv, res) := waitFor_timeout index (kn_srv v) in
      Some (mkKvNode kv (kn_starting v)
        (take k (kn_waiting v) ++ drop (S k) (kn_waiting v)) ((op, res) :: kn_answered v))
  | SvKill => Some (mkKvNode (Kill (kn_srv v)) (kn_starting v) (kn_waiting v) (kn_answered v))
  end.

Lemma kvServe_sound e v v' : kvServe e v = Some v' -> kn_serves v v'.
Proof.
  destruct e as [k|k|k|]; cbn [kvServe]; intros He.
  - apply bind_Some in He as ([op index] & Hk & He). destruct (waitFor_register index _) as [kv ch] eqn:Hr. simplify_eq.
    eapply kn_register; [|done]. symmetry. by apply take_drop_middle.
  - apply bind_Some in He as ([[op index] ch] & Hk & He). apply bind_Some in He as ([kv res] & Hr & He). simplify_eq.
    eapply kn_receive; [|done]. symmetry. by apply take_drop_middle.
  - apply bind_Some in He as ([[op index] ch] & Hk & He). destruct (waitFor_timeout index _) as [kv res] eqn:Hr. simplify_eq.
    eapply kn_timeout; [|done]. symmetry. by apply take_drop_middle.
  - simplify_eq. apply kn_kill.
Qed.

#[global] Instance kvExec : ServiceExec kvService.
Proof.
  refine {| SrvEvent := KvServe; serveEv := (kvServe : _ -> Srv -> option Srv);
    applyEv r m (v : Srv) := '(kv, snap) ← applyMsg r m (kn_srv v);
      Some (mkKvNode kv (kn_starting v) (kn_waiting v) (kn_answered v) : Srv, snap) |}.
  - apply kvServe_sound.
  - intros r m v v' snap ([kv sn] & Ha & [= <- <-])%bind_Some. by exists kv.
Defined.
End run.

(** ** Example *)

Abbreviation kgo k := (KRaft (EvThread lateEnv k)).

(** Server 0 is elected; clerk 1 puts, the server compacts its log after it, clerk 2
    reads; then the server crashes and restarts from its snapshot. *)
Definition demoClerks : list (CkEvent (RS := kvService)) :=
  [KRaft (EvTick lateEnv 0); kgo 0; kgo 0; KRaft (EvLose 0); kgo 0; kgo 0; kgo 0; kgo 0; KRaft (EvLose 0);
   KCall 1 (TPut, "k", "a")%string; KRequest 0 0; KServe 0 (SvRegister 0); kgo 0; kgo 0; kgo 0; kgo 0; KRaft (EvLose 0);
   KRaft (EvApplier 0); KReceive (EvDeliver 0); KApply 0; KCompact 0; KServe 0 (SvTake 0); KReturn 1 0 0;
   KCall 2 (TGet, "k", EmptyString)%string; KRequest 0 0; KServe 0 (SvRegister 0); kgo 0; kgo 0; kgo 0;
   KRaft (EvApplier 0); KReceive (EvDeliver 0); KApply 0; KServe 0 (SvTake 0); KReturn 2 0 0; KRestart lateEnv 0].

Definition kv0 : ClerkSystem := ckinit (RS := kvService) 3 (fun _ => demoEnv) (kvnode0 0).

(** The system after the first [k] of these events. *)
Definition demoKv (k : nat) : ClerkSystem := default kv0 (ckrun 3 true (take k demoClerks) kv0).

Lemma demoKv_reachable k : isSome (ckrun 3 true (take k demoClerks) kv0) = true -> kvreachable 3 true 0 (demoKv k).
Proof.
  unfold demoKv. intros Hs. exists (fun _ => demoEnv). apply (ckrun_sound 3 true (take k demoClerks)). fold kv0.
  destruct (ckrun 3 true (take k demoClerks) kv0); [reflexivity|discriminate Hs].
Qed.

Lemma kvraft_linearizable_witness :
  (fun h => (op_Type (c_op h), r_value (c_res h))) <$> history (demoKv 35) =
    [(TPut, EmptyString); (TGet, "a"%string)] /\
  forall h, h ∈ history (demoKv 35) ->
    linearized (opLog (demoKv 35)) (c_op h) (c_start h) (c_end h) (c_res h).
Proof.
  split; [vm_compute; reflexivity|].
  apply (kvraft_linearizable 3 true 0 (demoKv 35)); [lia|left; reflexivity|].
  apply demoKv_reachable. vm_compute. reflexivity.
Defined.

Lemma kvraft_apply_total_witness :
  exists msg, inbox (reps (demoKv 19)) 0 = Some msg /\
  exists kv snap, applyMsg 100 msg (kn_srv (servers (reps (demoKv 19)) 0)) = Some (kv, snap).
Proof.
  assert (isSome (inbox (reps (demoKv 19)) 0) = true) as E by (vm_compute; reflexivity).
  destruct (inbox (reps (demoKv 19)) 0) as [msg|] eqn:Em; [|discriminate E]. exists msg. split; [reflexivity|].
  apply (kvraft_apply_total 3 true 0 (demoKv 19)); [|exact Em].
  apply demoKv_reachable. vm_compute. reflexivity.
Defined.
