(* ===== verification/ShardCtrler.v ===== *)
(** * The shard controller: [src/src/shardctrler/]

    [server.go] and [client.go]: numbered configurations that assign the shards to
    replica groups, changed by Join, Leave and Move through the replicated log; the
    rebalancing of shards; the clerk. *)

From S2P Require Import Prelude Persister Raft Waiters KvRaft.

(** ** Data *)

Definition NShards : Z := 10.

Record Config := mkConfig {
  Num : Z;
  Shards : list Z;               (* [NShards]int *)
  Groups : gmap Z (list string);
}.

Inductive ScOpType := Join | Leave | Move | Query.

Record ScOp := mkScOp {
  so_Type : ScOpType;
  so_Servers : gmap Z (list string);
  so_GIDs : list Z;
  so_Shard : Z;
  so_GID : Z;
  so_Num : Z;
  so_ClientId : Z;
  so_Seq : Z;
}.

Record ShardCtrler := mkShardCtrler {
  sc_me : Z;
  sc_dead : bool;
  configs : list Config;
  sc_dedup : gmap Z Z;
  sc_waiters : Waiters ScOp;
  sc_lastApplied : Z;
}.

#[global] Instance ScOpType_eq_dec : EqDecision ScOpType.
Proof. solve_decision. Defined.

(** ** Rebalancing *)

(** [sort.Ints] *)
Definition sortInts (l : list Z) : list Z := merge_sort Z.le l.

Definition shardIndices : list Z := seqZ 0 NShards.

(** The state of the loops of [rebalance]: the shards, the shards that need a home,
    and the number each group has. *)
Record Balance := mkBalance {
  b_shards : list Z; b_unassigned : list Z; b_count : gmap Z Z }.

Definition targets (gids : list Z) : gmap Z Z :=
  let n := zlen gids in
  let base := NShards / n in
  let extra := NShards mod n in
  list_to_map (imap (fun i gid => (gid, if Z.of_nat i <? extra then base + 1 else base)) gids).

(** Count the present assignments; group 0 and unknown groups count as none. *)
Definition countStep (gids : list Z) (o : option Balance) (s : Z) : option Balance :=
  b ← o;
  g ← b_shards b @! s;
  Some (if negb (g =? 0) && bool_decide (g ∈ gids)
        then mkBalance (b_shards b) (b_unassigned b) (<[g := go_map_get 0 (b_count b) g + 1]> (b_count b))
        else mkBalance (b_shards b) (b_unassigned b ++ [s]) (b_count b)).

Definition countShards (gids shards : list Z) : option Balance :=
  foldl (countStep gids) (Some (mkBalance shards [] ∅)) shardIndices.

(** The inner loop of the release: from the highest shard down to the first one
    [gid] owns. *)
Fixpoint releaseScan (gid : Z) (ss : list Z) (b : Balance) : option Balance :=
  match ss with
  | [] => Some b
  | s :: ss =>
      g ← b_shards b @! s;
      if g =? gid then
        shards ← go_update (b_shards b) s 0;
        Some (mkBalance shards (b_unassigned b ++ [s])
                (<[gid := go_map_get 0 (b_count b) gid - 1]> (b_count b)))
      else releaseScan gid ss b
  end.

(** [for count[gid] > target[gid] { ... }]; [None] is a panic or no fuel left. *)
Fixpoint releaseLoop (fuel : nat) (target : gmap Z Z) (gid : Z) (b : Balance) : option Balance :=
  match fuel with
  | O => None
  | S fuel =>
      if go_map_get 0 (b_count b) gid >? go_map_get 0 target gid then
        b ← releaseScan gid (reverse shardIndices) b; releaseLoop fuel target gid b
      else Some b
  end.

Definition releaseFuel : nat := S (Z.to_nat NShards).

Definition releaseAll (target : gmap Z Z) (gids : list Z) (b : Balance) : option Balance :=
  foldl (fun o gid => b ← o; releaseLoop releaseFuel target gid b) (Some b) gids.

(** [for count[gid] < target[gid] && ui < len(unassigned) { ... }], where the list
    is [unassigned[ui:]]. *)
Fixpoint handLoop (target : gmap Z Z) (gid : Z) (rest : list Z) (shards : list Z) (count : gmap Z Z)
  : option Balance :=
  match rest with
  | [] => Some (mkBalance shards [] count)
  | s :: rest' =>
      if go_map_get 0 count gid <? go_map_get 0 target gid then
        shards ← go_update shards s gid;
        handLoop target gid rest' shards (<[gid := go_map_get 0 count gid + 1]> count)
      else Some (mkBalance shards rest count)
  end.

Definition handAll (target : gmap Z Z) (gids : list Z) (b : Balance) : option Balance :=
  foldl (fun o gid => b ← o; handLoop target gid (b_unassigned b) (b_shards b) (b_count b))
    (Some b) gids.

(** [order] is the order in which [range c.Groups] yields the keys. *)
Definition rebalance (order : list Z) (c : Config) : option Config :=
  let gids := sortInts order in
  if zlen gids =? 0 then Some (mkConfig (Num c) ((fun _ => 0) <$> Shards c) (Groups c))
  else
    let target := targets gids in
    b ← countShards gids (Shards c);
    b ← releaseAll target gids b;
    let b := mkBalance (b_shards b) (sortInts (b_unassigned b)) (b_count b) in
    b ← handAll target gids b;
    Some (mkConfig (Num c) (b_shards b) (Groups c)).

(** ** Applying operations *)

(** [order] gives the order in which a map's keys are visited. *)
Definition applyMutation (order : gmap Z (list string) -> list Z) (op : ScOp) (sc : ShardCtrler)
  : option ShardCtrler :=
  last ← configs sc @! (zlen (configs sc) - 1);
  let nc := mkConfig (Num last + 1) (Shards last) (Groups last) in
  nc ← match so_Type op with
       | Join =>
           let groups := so_Servers op ∪ Groups nc in
           rebalance (order groups) (mkConfig (Num nc) (Shards nc) groups)
       | Leave =>
           let groups := foldl (fun m gid => delete gid m) (Groups nc) (so_GIDs op) in
           let shards := (fun g => if bool_decide (g ∈ so_GIDs op) then 0 else g) <$> Shards nc in
           rebalance (order groups) (mkConfig (Num nc) shards groups)
       | Move =>
           shards ← go_update (Shards nc) (so_Shard op) (so_GID op);
           Some (mkConfig (Num nc) shards (Groups nc))
       | Query => Some nc
       end;
  Some (mkShardCtrler (sc_me sc) (sc_dead sc) (configs sc ++ [nc]) (sc_dedup sc)
          (sc_waiters sc) (sc_lastApplied sc)).

(** The mutation of a command, once per (client, seq). *)
Definition applyScOp (order : gmap Z (list string) -> list Z) (op : ScOp) (sc : ShardCtrler)
  : option ShardCtrler :=
  if bool_decide (so_Type op = Query) then Some sc
  else
    let fresh := match sc_dedup sc !! so_ClientId op with
                 | None => true | Some last => so_Seq op >? last end in
    if fresh then
      sc ← applyMutation order op sc;
      Some (mkShardCtrler (sc_me sc) (sc_dead sc) (configs sc)
              (<[so_ClientId op := so_Seq op]> (sc_dedup sc)) (sc_waiters sc) (sc_lastApplied sc))
    else Some sc.

Definition set_sc_lastApplied (i : Z) (sc : ShardCtrler) : ShardCtrler :=
  mkShardCtrler (sc_me sc) (sc_dead sc) (configs sc) (sc_dedup sc) (sc_waiters sc) i.
Definition set_sc_waiters (w : Waiters ScOp) (sc : ShardCtrler) : ShardCtrler :=
  mkShardCtrler (sc_me sc) (sc_dead sc) (configs sc) (sc_dedup sc) w (sc_lastApplied sc).

(** One message of [applyLoop]. *)
Definition applyScMsg (order : gmap Z (list string) -> list Z) (msg : ApplyMsg ScOp) (sc : ShardCtrler)
  : option ShardCtrler :=
  if sc_dead sc then Some sc
  else match msg with
       | SnapshotMsg _ _ _ => Some sc
       | CommandMsg cmd index =>
           if index <=? sc_lastApplied sc then Some sc
           else
             let sc := set_sc_lastApplied index sc in
             op ← cmd;
             sc ← applyScOp order op sc;
             w ← wake index op (sc_waiters sc);
             Some (set_sc_waiters w sc)
       end.

(** ** RPC handlers *)

(** [submit] after [Start] returned [index]; then what it returns when the channel
    delivers, and when it times out. *)
Definition submit_register (index : Z) (sc : ShardCtrler) : ShardCtrler * nat :=
  let '(w, ch) := register index (sc_waiters sc) in (set_sc_waiters w sc, ch).

Definition submit_receive (op : ScOp) (index : Z) (ch : nat) (sc : ShardCtrler)
  : option (ShardCtrler * bool) :=
  '(w, applied) ← receive index ch (sc_waiters sc);
  Some (set_sc_waiters w sc,
        (so_ClientId applied =? so_ClientId op) && (so_Seq applied =? so_Seq op)).

Definition submit_timeout (index : Z) (sc : ShardCtrler) : ShardCtrler * bool :=
  (set_sc_waiters (expire index (sc_waiters sc)) sc, false).

(** The operations the handlers submit.  The reply of Join, Leave and Move is
    [WrongLeader = !ok]; Query adds the configuration. *)
Definition Join_op (servers : gmap Z (list string)) (cid seq : Z) : ScOp :=
  mkScOp Join servers [] 0 0 0 cid seq.
Definition Leave_op (gids : list Z) (cid seq : Z) : ScOp := mkScOp Leave ∅ gids 0 0 0 cid seq.
Definition Move_op (shard gid cid seq : Z) : ScOp := mkScOp Move ∅ [] shard gid 0 cid seq.
Definition Query_op (num cid seq : Z) : ScOp := mkScOp Query ∅ [] 0 0 num cid seq.

Definition configAt (num : Z) (sc : ShardCtrler) : option Config :=
  if (num <? 0) || (num >=? zlen (configs sc)) then configs sc @! (zlen (configs sc) - 1)
  else configs sc @! num.

(** [reply.WrongLeader] and [reply.Config]; [None] is a panic. *)
Definition Query_reply (ok : bool) (num : Z) (sc : ShardCtrler) : option (bool * option Config) :=
  if ok then c ← configAt num sc; Some (false, Some c) else Some (true, None).

Definition ScKill (sc : ShardCtrler) : ShardCtrler :=
  mkShardCtrler (sc_me sc) true (configs sc) (sc_dedup sc) (sc_waiters sc) (sc_lastApplied sc).

Definition config0 : Config := mkConfig 0 (replicate (Z.to_nat NShards) 0) ∅.

Definition StartServer (me : Z) : ShardCtrler :=
  mkShardCtrler me false [config0] ∅ (noWaiters ScOp) 0.

(** ** Clerk *)

(** The loop the four operations share; a reply is [reply.WrongLeader] and, for
    Query, the configuration. *)
Definition scClerkCall {A} (call : Z -> Z -> nat -> Z -> option (bool * A)) (fuel : nat) (ck : Clerk)
  : option (Clerk * A) :=
  let '(ck, s) := nextSeq ck in
  '(leader, (_, x)) ← clerkLoop (call (clientId ck) s) (fun '(wrongLeader, _) => negb wrongLeader)
    (nservers ck) fuel 0 (leaderHint ck);
  Some (set_hint leader ck, x).
