(* ===== verification/Rebalance.v ===== *)
(** * Rebalancing is balanced, minimal and deterministic

    The correctness of [rebalance] of [src/src/shardctrler/server.go]: it returns
    (the release loop ends and no index is out of range), every shard gets an existing
    group, the loads of two groups differ by at most one, a group keeps as many of its
    shards as its new load allows, and the result does not depend on the order in which
    a map is iterated. *)

From S2P Require Import Prelude Persister Raft Waiters KvRaft ShardCtrler.

Lemma elem_of_shardIndices s : s ∈ shardIndices <-> 0 <= s < NShards.
Proof. unfold shardIndices. rewrite elem_of_seqZ. lia. Qed.

Lemma NoDup_shardIndices : NoDup shardIndices.
Proof. apply NoDup_seqZ. Qed.

Lemma zlen_shardIndices : zlen shardIndices = NShards.
Proof. reflexivity. Qed.

(** The shards outside [free] that group [g] owns. *)
Definition owned (free shards : list Z) (g : Z) : Z :=
  countP (fun s => s ∉ free /\ shards @! s = Some g) shardIndices.

Lemma owned_bound free shards g : 0 <= owned free shards g <= NShards.
Proof. unfold owned. rewrite <- zlen_shardIndices. apply countP_le. Qed.

(** Freeing a shard takes it from its owner; giving it out is the converse. *)
Lemma owned_free free shards shards' s gid g :
  0 <= s < NShards -> s ∉ free -> shards @! s = Some gid ->
  (forall s', s' <> s -> shards' @! s' = shards @! s') ->
  owned free shards g = owned (s :: free) shards' g + (if decide (g = gid) then 1 else 0).
Proof.
  intros Hs Hf Hg Hsame. unfold owned. rewrite (countP_one _ (fun s' => s' ∉ s :: free /\ shards' @! s' = Some g)
    shardIndices s); [|apply NoDup_shardIndices|by apply elem_of_shardIndices|set_solver|].
  - f_equal. repeat case_decide; naive_solver.
  - intros y _ Hy. rewrite Hsame by done. set_solver.
Qed.

Lemma owned_perm free free' shards g : free ≡ₚ free' -> owned free shards g = owned free' shards g.
Proof. intros Hp. apply countP_ext. intros x _. by rewrite Hp. Qed.

(** ** Targets *)

(** The load of the [i]-th of [n] groups. *)
Definition quota (n i : Z) : Z := if i <? NShards mod n then NShards / n + 1 else NShards / n.

Lemma targets_lookup gids i g :
  NoDup gids -> gids !! i = Some g -> go_map_get 0 (targets gids) g = quota (zlen gids) (Z.of_nat i).
Proof.
  intros Hnd Hi. unfold go_map_get, targets. set (f := fun i gid => _).
  assert ((list_to_map (imap f gids) : gmap Z Z) !! g = Some (quota (zlen gids) (Z.of_nat i))) as ->; [|done].
  apply elem_of_list_to_map_1.
  - rewrite fmap_imap. unfold compose, f. simpl.
    replace (imap _ gids) with gids; [done|]. clear. by induction gids as [|x gids IH]; simpl; f_equal.
  - apply elem_of_lookup_imap. by exists i, g.
Qed.

Lemma sum_targets_take gids k :
  NoDup gids -> (k <= length gids)%nat ->
  sumZ (go_map_get 0 (targets gids)) (take k gids) =
    Z.of_nat k * (NShards / zlen gids) + Z.min (Z.of_nat k) (NShards mod zlen gids).
Proof.
  intros Hnd. induction k as [|k IH]; intros Hk.
  { rewrite take_0. unfold sumZ. simpl.
    destruct (decide (zlen gids = 0)) as [->|]; [done|].
    assert (0 <= NShards mod zlen gids); [|lia]. apply Z.mod_pos_bound. pose proof (zlen_nonneg gids). lia. }
  destruct (lookup_lt_is_Some_2 gids k) as [g Hg]; [lia|].
  rewrite (take_S_r _ _ g), sumZ_app, IH by (done || lia). rewrite sumZ_cons.
  rewrite (targets_lookup gids k g) by done. unfold quota. unfold sumZ. simpl foldr.
  destruct (Z.ltb_spec (Z.of_nat k) (NShards mod zlen gids)); lia.
Qed.

Lemma sum_targets gids :
  NoDup gids -> gids <> [] -> sumZ (go_map_get 0 (targets gids)) gids = NShards.
Proof.
  intros Hnd Hne. rewrite <- (firstn_all gids) at 2. rewrite sum_targets_take by done.
  assert (0 < zlen gids) as Hpos by (destruct gids; [done|]; unfold zlen; simpl; lia).
  change (Z.of_nat (length gids)) with (zlen gids).
  pose proof (Z.mod_pos_bound NShards (zlen gids) Hpos).
  pose proof (Z.div_mod NShards (zlen gids)). lia.
Qed.

Section rebalance.
Context (gids : list Z) (shards0 : list Z).
Hypothesis Hlen0 : zlen shards0 = NShards.

(** ** The state between the loops *)

Definition valid (g : Z) : Prop := g <> 0 /\ g ∈ gids.

Record bal (b : Balance) : Prop := {
  bl_len : zlen (b_shards b) = NShards;
  bl_nodup : NoDup (b_unassigned b);
  bl_range s : s ∈ b_unassigned b -> 0 <= s < NShards;
  bl_owner s : 0 <= s < NShards -> s ∉ b_unassigned b ->
    exists g, g ∈ gids /\ b_shards b @! s = Some g;
  bl_count g : g ∈ gids -> go_map_get 0 (b_count b) g = owned (b_unassigned b) (b_shards b) g;
}.

(** While shards are released: the assigned ones are as they were, and the free
    ones belong to no group that counts. *)
Record releasing (b : Balance) : Prop := {
  rl_bal : bal b;
  rl_kept s : 0 <= s < NShards -> s ∉ b_unassigned b ->
    b_shards b @! s = shards0 @! s /\ forall g, b_shards b @! s = Some g -> valid g;
  rl_free s g : s ∈ b_unassigned b -> b_shards b @! s = Some g -> ~ valid g;
}.

(** ** Counting *)

#[local] Instance valid_dec g : Decision (valid g).
Proof. unfold valid. apply _. Defined.

Lemma countP_snoc (P : Z -> Prop) `{forall x, Decision (P x)} l x :
  countP P (l ++ [x]) = countP P l + (if decide (P x) then 1 else 0).
Proof.
  unfold countP. rewrite filter_app, zlen_app. f_equal. rewrite filter_cons, filter_nil.
  by destruct (decide (P x)).
Qed.

Lemma countStep_fold ss :
  NoDup ss -> (forall s, s ∈ ss -> 0 <= s < NShards) ->
  exists b, foldl (countStep gids) (Some (mkBalance shards0 [] ∅)) ss = Some b /\
    b_shards b = shards0 /\ NoDup (b_unassigned b) /\
    (forall s, s ∈ b_unassigned b <-> s ∈ ss /\ forall g, shards0 @! s = Some g -> ~ valid g) /\
    (forall g, go_map_get 0 (b_count b) g = countP (fun s => shards0 @! s = Some g /\ valid g) ss).
Proof.
  induction ss as [|s ss IH] using rev_ind; intros Hnd Hr.
  { exists (mkBalance shards0 [] ∅). split_and!; try done; try apply NoDup_nil_2.
    intros s. split; [intros []%not_elem_of_nil|intros [[]%not_elem_of_nil _]]. }
  apply NoDup_app in Hnd as (Hnd & Hs & _).
  destruct IH as (b & Hf & Hsh & Hun & Hmem & Hc); [done|intros; apply Hr; set_solver|].
  rewrite foldl_app, Hf. simpl. rewrite Hsh.
  destruct (go_index_in_range shards0 s) as [g Hg]; [rewrite Hlen0; apply Hr; set_solver|].
  rewrite Hg. simpl. destruct (decide (valid g)) as [Hv|Hv].
  - assert (negb (g =? 0) && bool_decide (g ∈ gids) = true) as ->.
    { destruct Hv as [Hv1%Z.eqb_neq Hv2]. rewrite Hv1, bool_decide_true; done. }
    eexists. split; [done|]. simpl. split_and!; try done.
    + intros s'. rewrite Hmem. set_solver.
    + intros g'. rewrite countP_snoc. unfold go_map_get in *.
      destruct (decide (g' = g)) as [->|?].
      * rewrite lookup_insert_eq. simpl. rewrite Hc, decide_True; [lia|done].
      * rewrite lookup_insert_ne, Hc by done. rewrite decide_False by naive_solver. lia.
  - assert (negb (g =? 0) && bool_decide (g ∈ gids) = false) as ->.
    { unfold valid in Hv. destruct (Z.eqb_spec g 0); [done|]. simpl. apply bool_decide_false. tauto. }
    eexists. split; [done|]. simpl. split_and!; try done.
    + apply NoDup_snoc. split; [done|]. intros [? _]%Hmem. by eapply Hs, list_elem_of_singleton.
    + intros s'. rewrite elem_of_app, list_elem_of_singleton, Hmem, elem_of_app, list_elem_of_singleton.
      split; [intros [[? ?]| ->]; [tauto|]|tauto]. split; [by right|]. intros g' ?. by simplify_eq.
    + intros g'. rewrite countP_snoc, Hc. rewrite decide_False by naive_solver. lia.
Qed.

Lemma countShards_spec :
  exists b, countShards gids shards0 = Some b /\ releasing b /\
    forall g, g ∈ gids -> g <> 0 ->
      go_map_get 0 (b_count b) g = countP (fun s => shards0 @! s = Some g) shardIndices.
Proof.
  destruct (countStep_fold shardIndices) as (b & Hf & Hsh & Hun & Hmem & Hc);
    [apply NoDup_shardIndices|by intros ? ?%elem_of_shardIndices|].
  setoid_rewrite elem_of_shardIndices in Hmem.
  assert (forall s g, 0 <= s < NShards -> s ∉ b_unassigned b -> shards0 @! s = Some g -> valid g) as Hval.
  { intros s g Hs Hn Hg. destruct (decide (valid g)); [done|].
    destruct Hn. apply Hmem. split; [done|]. intros g' ?. by simplify_eq. }
  exists b. split; [done|]. split.
  - split; [split|..]; rewrite ?Hsh; try done.
    + by intros s [? _]%Hmem.
    + intros s Hs Hn. destruct (go_index_in_range shards0 s) as [g Hg]; [lia|].
      exists g. split; [|done]. by destruct (Hval _ _ Hs Hn Hg).
    + intros g Hg. rewrite Hc. apply countP_ext. intros s Hs%elem_of_shardIndices.
      split; [|by intros [? ?]; split; [|eapply Hval]].
      intros [Hx Hv]. split; [|done]. intros [_ Hno]%Hmem. by eapply Hno.
    + intros s Hs Hn. split; [done|]. eauto.
    + intros s g [_ ?]%Hmem. eauto.
  - intros g Hg H0. rewrite Hc. apply countP_ext. unfold valid. tauto.
Qed.

(** ** Releasing *)

Lemma releaseScan_spec gid ss b :
  zlen (b_shards b) = NShards -> (forall s, s ∈ ss -> 0 <= s < NShards) ->
  (exists s, s ∈ ss /\ b_shards b @! s = Some gid) ->
  exists s, s ∈ ss /\ b_shards b @! s = Some gid /\
    releaseScan gid ss b =
      Some (mkBalance (<[Z.to_nat s := 0]> (b_shards b)) (b_unassigned b ++ [s])
              (<[gid := go_map_get 0 (b_count b) gid - 1]> (b_count b))).
Proof.
  intros Hl. induction ss as [|s ss IH]; intros Hr (s0 & Hs0 & Hg0); [by apply not_elem_of_nil in Hs0|].
  simpl. destruct (go_index_in_range (b_shards b) s) as [g Hg]; [rewrite Hl; apply Hr; set_solver|].
  rewrite Hg. simpl. destruct (Z.eqb_spec g gid) as [->|?].
  - exists s. split_and!; [set_solver|done|]. rewrite go_update_Some; [done|].
    rewrite Hl. apply Hr. set_solver.
  - destruct IH as (s1 & ? & ? & ?); [set_solver| |exists s1; set_solver].
    apply elem_of_cons in Hs0 as [->|?]; [congruence|eauto].
Qed.

(** Releasing one shard of an overloaded group. *)
Lemma release_step gid b :
  releasing b -> gid ∈ gids -> 0 < go_map_get 0 (b_count b) gid ->
  exists b', releaseScan gid (reverse shardIndices) b = Some b' /\ releasing b' /\
    forall g, go_map_get 0 (b_count b') g =
      go_map_get 0 (b_count b) g - (if decide (g = gid) then 1 else 0).
Proof.
  intros [[] Hkept Hfree] Hgid Hpos. pose proof Hpos as Hpos'. rewrite bl_count0 in Hpos' by done.
  apply countP_pos in Hpos' as (s0 & Hs0%elem_of_shardIndices & Hn0 & Hg0).
  assert (valid gid) as Hv by (destruct (Hkept s0); eauto).
  destruct (releaseScan_spec gid (reverse shardIndices) b) as (s & Hs & Hg & ->); [done|..].
  { intros s. by rewrite elem_of_reverse, elem_of_shardIndices. }
  { exists s0. by rewrite elem_of_reverse, elem_of_shardIndices. }
  rewrite elem_of_reverse, elem_of_shardIndices in Hs.
  assert (s ∉ b_unassigned b) as Hn by (intros Hin; by eapply Hfree).
  assert (go_update (b_shards b) s 0 = Some (<[Z.to_nat s := 0]> (b_shards b))) as Hu
    by (apply go_update_Some; lia).
  pose proof (fun j => go_update_index _ _ _ _ j Hu) as Hidx.
  assert (forall s', s' <> s -> <[Z.to_nat s := 0]> (b_shards b) @! s' = b_shards b @! s') as Hsame.
  { intros s' ?. rewrite Hidx. by rewrite (proj2 (Z.eqb_neq _ _)). }
  assert (<[Z.to_nat s := 0]> (b_shards b) @! s = Some 0) as Hs0'.
  { rewrite Hidx. by rewrite Z.eqb_refl. }
  assert (forall g, go_map_get 0 (<[gid := go_map_get 0 (b_count b) gid - 1]> (b_count b)) g =
      go_map_get 0 (b_count b) g - (if decide (g = gid) then 1 else 0)) as Hcnt.
  { intros g. unfold go_map_get. case_decide as E; [subst; by rewrite lookup_insert_eq|].
    rewrite lookup_insert_ne by done. lia. }
  eexists. split; [done|]. split; [|done]. split; [split|..]; simpl.
  - unfold zlen in *. by rewrite length_insert.
  - by apply NoDup_snoc.
  - intros s' [?| ->%list_elem_of_singleton]%elem_of_app; auto.
  - intros s' Hs' Hn'. rewrite Hsame by set_solver. apply bl_owner0; [done|set_solver].
  - intros g Hg'. rewrite Hcnt, bl_count0 by done.
    rewrite (owned_free _ _ (<[Z.to_nat s := 0]> (b_shards b)) s gid g) by done.
    rewrite (owned_perm (b_unassigned b ++ [s]) (s :: b_unassigned b)); [lia|].
    by rewrite Permutation_app_comm.
  - intros s' Hs' Hn'. rewrite Hsame by set_solver. apply Hkept; [done|set_solver].
  - intros s' g [Hin| ->%list_elem_of_singleton]%elem_of_app.
    + destruct (decide (s' = s)) as [->|]; [done|]. rewrite Hsame by done. by apply Hfree.
    + rewrite Hs0'. intros [= <-] [? _]. done.
Qed.

Lemma releaseLoop_spec target gid fuel b :
  releasing b -> gid ∈ gids -> 0 <= go_map_get 0 target gid ->
  go_map_get 0 (b_count b) gid < Z.of_nat fuel ->
  exists b', releaseLoop fuel target gid b = Some b' /\ releasing b' /\
    forall g, go_map_get 0 (b_count b') g =
      if decide (g = gid) then Z.min (go_map_get 0 (b_count b) g) (go_map_get 0 target g)
      else go_map_get 0 (b_count b) g.
Proof.
  intros Hb Hgid Ht. revert b Hb. induction fuel as [|fuel IH]; intros b Hb Hf.
  { destruct Hb as [[] ? ?]. rewrite bl_count0 in Hf by done.
    pose proof (owned_bound (b_unassigned b) (b_shards b) gid). lia. }
  cbn [releaseLoop]. rewrite Z.gtb_ltb. destruct (Z.ltb_spec (go_map_get 0 target gid) (go_map_get 0 (b_count b) gid)).
  - destruct (release_step gid b Hb Hgid) as (b1 & -> & Hb1 & Hc1); [lia|]. simpl.
    pose proof (Hc1 gid) as Hcg. rewrite decide_True in Hcg by done.
    destruct (IH b1 Hb1) as (b2 & -> & Hb2 & Hc2); [lia|].
    exists b2. split_and!; [done..|]. intros g. rewrite Hc2, Hc1. case_decide; [subst|]; lia.
  - exists b. split_and!; [done..|]. intros g. case_decide; [subst|]; lia.
Qed.

Lemma releaseAll_spec target l b :
  (forall g, g ∈ gids -> 0 <= go_map_get 0 target g) ->
  releasing b -> NoDup l -> (forall g, g ∈ l -> g ∈ gids) ->
  exists b', releaseAll target l b = Some b' /\ releasing b' /\
    forall g, go_map_get 0 (b_count b') g =
      if decide (g ∈ l) then Z.min (go_map_get 0 (b_count b) g) (go_map_get 0 target g)
      else go_map_get 0 (b_count b) g.
Proof.
  intros Ht Hb. induction l as [|gid l IH] using rev_ind; intros Hnd Hsub; [by exists b|].
  setoid_rewrite elem_of_snoc in Hsub. apply NoDup_snoc in Hnd as [Hnd Hgl].
  destruct IH as (b1 & Hf & Hb1 & Hc1); [done|auto|].
  unfold releaseAll in *. rewrite foldl_app, Hf. cbn [foldl mbind option_bind].
  assert (gid ∈ gids) as Hgid by auto.
  destruct (releaseLoop_spec target gid releaseFuel b1) as (b2 & -> & Hb2 & Hc2); [done|done|auto|..].
  { rewrite (bl_count _ (rl_bal _ Hb1)) by done. pose proof (owned_bound (b_unassigned b1) (b_shards b1) gid).
    change (Z.of_nat releaseFuel) with (NShards + 1). lia. }
  exists b2. split_and!; [done..|]. intros g. rewrite Hc2, Hc1.
  destruct (decide (g = gid)) as [->|].
  - rewrite decide_False, decide_True by (rewrite ?elem_of_snoc; auto). done.
  - destruct (decide (g ∈ l)), (decide (g ∈ l ++ [gid])) as [Hx|Hx]; rewrite elem_of_snoc in Hx; tauto.
Qed.

(** ** Handing out *)

(** While free shards are handed out: [kept0] is the assignment when it began,
    and no group has more than its target. *)
Record handing (target : gmap Z Z) (kept0 : Balance) (b : Balance) : Prop := {
  hd_bal : bal b;
  hd_le g : g ∈ gids -> go_map_get 0 (b_count b) g <= go_map_get 0 target g;
  hd_kept s : s ∉ b_unassigned kept0 -> b_shards b @! s = b_shards kept0 @! s;
  hd_sub s : s ∈ b_unassigned b -> s ∈ b_unassigned kept0;
}.

Lemma hand_step target kept0 gid s rest shards count :
  handing target kept0 (mkBalance shards (s :: rest) count) -> gid ∈ gids ->
  go_map_get 0 count gid < go_map_get 0 target gid ->
  exists shards', go_update shards s gid = Some shards' /\
    handing target kept0 (mkBalance shards' rest (<[gid := go_map_get 0 count gid + 1]> count)).
Proof.
  intros [[Hlen Hnd Hr Ho Hc] Hle Hk Hsub] Hgid Hlt; cbn [b_shards b_unassigned b_count] in *.
  apply NoDup_cons in Hnd as [Hs Hnd].
  assert (0 <= s < NShards) as Hb by (apply Hr; by left).
  rewrite go_update_Some by lia. eexists. split; [done|].
  assert (go_update shards s gid = Some (<[Z.to_nat s := gid]> shards)) as Hu by (apply go_update_Some; lia).
  pose proof (fun j => go_update_index _ _ _ _ j Hu) as Hidx.
  assert (forall s', s' <> s -> <[Z.to_nat s := gid]> shards @! s' = shards @! s') as Hsame.
  { intros s' ?. rewrite Hidx. by rewrite (proj2 (Z.eqb_neq _ _)). }
  assert (<[Z.to_nat s := gid]> shards @! s = Some gid) as Hnew by by rewrite Hidx, Z.eqb_refl.
  assert (forall g, go_map_get 0 (<[gid := go_map_get 0 count gid + 1]> count) g =
      go_map_get 0 count g + (if decide (g = gid) then 1 else 0)) as Hcnt.
  { intros g. unfold go_map_get. case_decide as E; [subst; by rewrite lookup_insert_eq|].
    rewrite lookup_insert_ne by done. lia. }
  split; [split|..]; cbn [b_shards b_unassigned b_count].
  - unfold zlen in *. by rewrite length_insert.
  - done.
  - intros s' ?. apply Hr. by right.
  - intros s' Hs' Hn'. destruct (decide (s' = s)) as [->|]; [by exists gid|]. rewrite Hsame by done.
    apply Ho; [done|]. by intros [?|?]%elem_of_cons.
  - intros g Hg. rewrite Hcnt, Hc by done. symmetry. apply owned_free; [done..|].
    intros s' ?. by rewrite Hsame.
  - intros g Hg. rewrite Hcnt. specialize (Hle g Hg). case_decide; [subst|]; lia.
  - intros s' Hs'. rewrite Hsame; [by apply Hk|]. intros ->. apply Hs', Hsub. by left.
  - intros s' ?. apply Hsub. by right.
Qed.

(** After a group's turn it is full, or there is nothing left. *)
Lemma handLoop_spec target kept0 gid rest shards count :
  handing target kept0 (mkBalance shards rest count) -> gid ∈ gids ->
  exists b, handLoop target gid rest shards count = Some b /\ handing target kept0 b /\
    (b_unassigned b = [] \/ go_map_get 0 (b_count b) gid = go_map_get 0 target gid /\
       forall g, g <> gid -> go_map_get 0 (b_count b) g = go_map_get 0 count g).
Proof.
  intros Hh Hgid. revert shards count Hh. induction rest as [|s rest IH]; intros shards count Hh; simpl.
  { eexists. split_and!; [done|done|by left]. }
  destruct (Z.ltb_spec (go_map_get 0 count gid) (go_map_get 0 target gid)) as [Hlt|Hge].
  - destruct (hand_step _ _ _ _ _ _ _ Hh Hgid Hlt) as (shards' & -> & Hh').
    destruct (IH _ _ Hh') as (b & Hb & ? & Hend). exists b. split_and!; [done|done|].
    destruct Hend as [?|[? Hoth]]; [by left|right]. split; [done|]. intros g ?.
    rewrite Hoth by done. unfold go_map_get. by rewrite lookup_insert_ne.
  - eexists. split_and!; [done|done|]. right. split; [|done]. simpl.
    pose proof (hd_le _ _ _ Hh gid Hgid). simpl in *. lia.
Qed.

Lemma handAll_spec target kept0 l b :
  handing target kept0 b -> NoDup l -> (forall g, g ∈ l -> g ∈ gids) ->
  exists b', handAll target l b = Some b' /\ handing target kept0 b' /\
    (b_unassigned b' = [] \/ forall g, g ∈ l -> go_map_get 0 (b_count b') g = go_map_get 0 target g).
Proof.
  intros Hh. induction l as [|gid l IH] using rev_ind; intros Hnd Hsub.
  { exists b. split_and!; [done|done|]. right. by intros g ?%not_elem_of_nil. }
  setoid_rewrite elem_of_snoc in Hsub. apply NoDup_snoc in Hnd as [Hnd Hgl].
  destruct IH as (b1 & Hf & Hb1 & Hc1); [done|auto|].
  unfold handAll in *. rewrite foldl_app, Hf. cbn [foldl mbind option_bind].
  destruct (handLoop_spec target kept0 gid (b_unassigned b1) (b_shards b1) (b_count b1))
    as (b2 & Hl & Hb2 & Hc2); [by destruct b1|auto|].
  exists b2. split_and!; [done|done|]. destruct Hc2 as [?|[Hg Hoth]]; [by left|].
  destruct Hc1 as [Hnil|Hc1].
  - left. rewrite Hnil in Hl. simpl in Hl. by simplify_eq.
  - right. intros g [Hg'| ->]%elem_of_snoc; [|done]. rewrite Hoth; [auto|]. intros ->. done.
Qed.

(** ** The result *)

Hypothesis Hgids : NoDup gids.

Lemma sum_owned free shards :
  (forall s, 0 <= s < NShards -> s ∉ free -> exists g, g ∈ gids /\ shards @! s = Some g) ->
  sumZ (owned free shards) gids = zlen (filter (fun s => s ∉ free) shardIndices).
Proof.
  intros Ho. rewrite <- (countP_partition (fun s => shards @! s) gids) by
    (done || (intros s [? ?%elem_of_shardIndices]%list_elem_of_filter; auto)).
  apply sumZ_ext. intros g _. unfold owned. apply countP_filter.
Qed.

(** When the hand-out is over nothing is free and every group has its target. *)
Lemma handing_done target kept0 b :
  sumZ (go_map_get 0 target) gids = NShards -> handing target kept0 b ->
  b_unassigned b = [] \/ (forall g, g ∈ gids -> go_map_get 0 (b_count b) g = go_map_get 0 target g) ->
  b_unassigned b = [] /\ forall g, g ∈ gids -> owned [] (b_shards b) g = go_map_get 0 target g.
Proof.
  intros Hsum [[Hlen Hnd Hr Ho Hc] Hle _ _] Hend.
  pose proof (sum_owned _ _ Ho) as Hs.
  destruct Hend as [Hnil|Heq].
  - split; [done|]. rewrite Hnil in *. intros g Hg.
    apply (sumZ_eq (owned [] (b_shards b)) (go_map_get 0 target) gids); [|rewrite Hs, Hsum|done].
    + intros x Hx. rewrite <- Hc by done. auto.
    + reflexivity.
  - rewrite (sumZ_ext _ (go_map_get 0 target)) in Hs
      by (intros g Hg; rewrite <- Hc by done; auto).
    destruct (b_unassigned b) as [|s un] eqn:E; [split; [done|]|].
    + intros g Hg. rewrite <- Hc by done. auto.
    + assert (length (filter (fun s' => s' ∉ s :: un) shardIndices) < length shardIndices)%nat as Hlt.
      { apply (length_filter_lt _ _ s); [apply elem_of_shardIndices, Hr; by left|].
        intros Hn. apply Hn. by left. }
      rewrite Hsum in Hs. unfold zlen in Hs. change (length shardIndices) with 10%nat in Hlt.
      change NShards with 10 in Hs. lia.
Qed.
End rebalance.

(** ** Specification *)

(** The number of shards group [g] has, and the number it has in both. *)
Definition load (c : Config) (g : Z) : Z := countP (fun s => Shards c @! s = Some g) shardIndices.
Definition kept (c c' : Config) (g : Z) : Z :=
  countP (fun s => Shards c @! s = Some g /\ Shards c' @! s = Some g) shardIndices.

(** Every shard belongs to a group of [gids], and loads differ by at most one. *)
Record balanced (gids : list Z) (c : Config) : Prop := {
  ba_len : zlen (Shards c) = NShards;
  ba_owner s : 0 <= s < NShards -> exists g, g ∈ gids /\ Shards c @! s = Some g;
  ba_diff g g' : g ∈ gids -> g' ∈ gids -> load c g <= load c g' + 1;
}.

Lemma sortInts_perm l : sortInts l ≡ₚ l.
Proof. apply merge_sort_Permutation. Qed.

Lemma sortInts_eq l l' : l ≡ₚ l' -> sortInts l = sortInts l'.
Proof.
  intros Hp. apply (StronglySorted_unique Z.le);
    [apply (StronglySorted_merge_sort Z.le)..|by rewrite !sortInts_perm].
Qed.

Lemma sorted_bal gids b :
  bal gids b -> bal gids (mkBalance (b_shards b) (sortInts (b_unassigned b)) (b_count b)).
Proof.
  intros []. split; simpl; try done.
  - by rewrite sortInts_perm.
  - intros s. rewrite sortInts_perm. auto.
  - intros s ?. rewrite sortInts_perm. auto.
  - intros g ?. rewrite bl_count0 by done. apply owned_perm. by rewrite sortInts_perm.
Qed.

Lemma quota_diff n i j : quota n i <= quota n j + 1.
Proof. unfold quota. repeat case_match; lia. Qed.

Lemma rebalance_facts order c :
  zlen (Shards c) = NShards -> NoDup order -> order <> [] ->
  exists c', rebalance order c = Some c' /\ Num c' = Num c /\ Groups c' = Groups c /\
    balanced order c' /\
    forall g, g ∈ order -> g <> 0 -> kept c c' g = Z.min (load c g) (load c' g).
Proof.
  intros Hlen Hnd Hne. unfold rebalance. set (gids := sortInts order).
  assert (gids ≡ₚ order) as Hp by apply sortInts_perm.
  assert (NoDup gids) as Hnd' by by rewrite Hp.
  assert (gids <> []) as Hne' by (intros E; rewrite E in Hp; by apply Permutation_nil_l in Hp).
  assert (zlen gids =? 0 = false) as -> by (destruct gids; [done|]; apply Z.eqb_neq; unfold zlen; simpl; lia).
  assert (forall g, g ∈ gids -> exists i, go_map_get 0 (targets gids) g = quota (zlen gids) i) as Hq.
  { intros g [i Hi]%list_elem_of_lookup. eexists. by apply targets_lookup. }
  destruct (countShards_spec gids (Shards c) Hlen) as (b1 & -> & Hb1 & Hc1). cbn [mbind option_bind].
  destruct (releaseAll_spec gids (Shards c) Hlen (targets gids) gids b1) as (b2 & -> & Hb2 & Hc2); try done.
  { intros g [i ->]%Hq. unfold quota. pose proof (Z.div_pos NShards (zlen gids)).
    assert (0 < zlen gids) by (destruct gids; [done|]; unfold zlen; simpl; lia).
    assert (0 <= NShards / zlen gids) by (apply Z.div_pos; [done|lia]). case_match; lia. }
  cbn [mbind option_bind].
  set (b2' := mkBalance (b_shards b2) (sortInts (b_unassigned b2)) (b_count b2)).
  assert (handing gids (targets gids) b2' b2') as Hh.
  { split; [apply sorted_bal, Hb2| |done..]. intros g Hg. simpl. rewrite Hc2, decide_True by done. lia. }
  destruct (handAll_spec gids (targets gids) b2' gids b2' Hh) as (b3 & -> & Hb3 & Hend); [done..|].
  destruct (handing_done gids Hnd' _ _ _ (sum_targets gids Hnd' Hne') Hb3 Hend) as [Hnil Hown].
  cbn [mbind option_bind]. eexists. split; [done|]. simpl.
  assert (forall g, load (mkConfig (Num c) (b_shards b3) (Groups c)) g = owned [] (b_shards b3) g) as Hload.
  { intros g. apply countP_ext. intros s _. simpl. rewrite elem_of_nil. tauto. }
  split_and!; [done..| |].
  - split; simpl.
    + apply Hb3.
    + intros s Hs. destruct (bl_owner _ _ (hd_bal _ _ _ _ Hb3) s Hs) as (g & Hg & ?).
      { rewrite Hnil. apply not_elem_of_nil. }
      exists g. by rewrite <- Hp.
    + intros g g'. rewrite <- Hp. intros Hg Hg'. rewrite !Hload, !Hown by done.
      destruct (Hq g Hg) as [i ->], (Hq g' Hg') as [j ->]. apply quota_diff.
  - intros g Hg H0. rewrite <- Hp in Hg. apply Z.le_antisymm.
    { apply Z.min_glb; apply countP_mono; tauto. }
    rewrite Hload, Hown by done. unfold load. rewrite <- Hc1 by done.
    pose proof (Hc2 g) as Hc. rewrite decide_True in Hc by done. rewrite <- Hc.
    rewrite (bl_count _ _ (rl_bal _ _ _ Hb2)) by done. apply countP_mono.
    intros s Hs%elem_of_shardIndices [Hn Hg']. simpl.
    destruct (rl_kept _ _ _ Hb2 s Hs Hn) as [<- _]. split; [done|].
    rewrite (hd_kept _ _ _ _ Hb3); [done|]. simpl. by rewrite sortInts_perm.
Qed.

(** ** Theorems *)

(** The keys of a map, in whatever order they are visited. *)
Definition visits (order : list Z) (groups : gmap Z (list string)) : Prop :=
  order ≡ₚ (map_to_list groups).*1.

Lemma visits_elem order groups g : visits order groups -> g ∈ order <-> is_Some (groups !! g).
Proof.
  intros Hv. unfold visits in Hv. rewrite Hv, list_elem_of_fmap. split.
  - intros ([g' v] & -> & Hin%elem_of_map_to_list). simpl. eauto.
  - intros [v Hv']. exists (g, v). split; [done|]. by apply elem_of_map_to_list.
Qed.

Lemma visits_NoDup order groups : visits order groups -> NoDup order.
Proof. intros Hv. unfold visits in Hv. rewrite Hv. apply NoDup_fst_map_to_list. Qed.

(** C12. With at least one group, [rebalance] returns a configuration in which every
    shard has an existing group, no group has two shards more than another, and each
    group keeps as many of its shards as its new load allows. *)
Theorem rebalance_spec order c :
  zlen (Shards c) = NShards -> visits order (Groups c) -> Groups c <> ∅ ->
  exists c', rebalance order c = Some c' /\ Num c' = Num c /\ Groups c' = Groups c /\
    (forall s, 0 <= s < NShards -> exists g, is_Some (Groups c !! g) /\ Shards c' @! s = Some g) /\
    (forall g g', is_Some (Groups c !! g) -> is_Some (Groups c !! g') -> load c' g <= load c' g' + 1) /\
    (forall g, is_Some (Groups c !! g) -> g <> 0 -> kept c c' g = Z.min (load c g) (load c' g)).
Proof.
  intros Hlen Hv Hne. destruct (rebalance_facts order c) as (c' & -> & ? & ? & [_ Ho Hd] & Hk);
    [done|by eapply visits_NoDup| |].
  { intros ->. apply Hne. apply map_to_list_empty_iff.
    unfold visits in Hv. apply Permutation_nil_l in Hv. symmetry in Hv. by apply fmap_nil_inv in Hv. }
  exists c'. split_and!; [done..| | |].
  - intros s Hs. destruct (Ho s Hs) as (g & Hg & ?). exists g. split; [|done]. by apply (visits_elem order).
  - intros g g'. rewrite <- !(visits_elem order) by done. apply Hd.
  - intros g. rewrite <- (visits_elem order) by done. apply Hk.
Qed.

Definition demoConfig : Config :=
  mkConfig 3 [2; 2; 2; 2; 3; 3; 3; 4; 4; 4] {[ 2 := []; 3 := []; 4 := [] ]}.
Definition demoJoin : Config := mkConfig 4 (Shards demoConfig) (<[1 := []]> (Groups demoConfig)).

Lemma rebalance_spec_witness :
  exists c', rebalance [4; 1; 3; 2] demoJoin = Some c' /\
    kept demoJoin c' 2 = Z.min (load demoJoin 2) (load c' 2).
Proof.
  destruct (rebalance_spec [4; 1; 3; 2] demoJoin) as (c' & Hr & _ & _ & _ & _ & Hk).
  - reflexivity.
  - unfold visits. assert (sortInts [4; 1; 3; 2] = sortInts (map_to_list (Groups demoJoin)).*1) as E
      by (vm_compute; reflexivity).
    by rewrite <- (sortInts_perm [4; 1; 3; 2]), E, sortInts_perm.
  - intros E. by apply (f_equal (lookup 1)) in E.
  - exists c'. split; [exact Hr|]. apply Hk; [by exists []|lia].
Defined.

Lemma rebalance_order order1 order2 c :
  order1 ≡ₚ order2 -> rebalance order1 c = rebalance order2 c.
Proof. intros Hp. unfold rebalance. by rewrite (sortInts_eq order1 order2). Qed.

(** Every replica computes the same configuration, whatever order Go's maps are
    iterated in. *)
Theorem rebalance_deterministic order1 order2 c :
  visits order1 (Groups c) -> visits order2 (Groups c) -> rebalance order1 c = rebalance order2 c.
Proof.
  intros H1 H2. apply rebalance_order. unfold visits in *. by rewrite H1, H2.
Qed.

Lemma rebalance_deterministic_witness :
  rebalance [4; 1; 3; 2] demoJoin = rebalance [1; 2; 3; 4] demoJoin.
Proof.
  assert (forall l, sortInts l = sortInts (map_to_list (Groups demoJoin)).*1 -> visits l (Groups demoJoin)) as Hv.
  { intros l E. unfold visits. by rewrite <- (sortInts_perm l), E, sortInts_perm. }
  apply rebalance_deterministic; apply Hv; vm_compute; reflexivity.
Defined.

(** The comment on [rebalance] says it moves as few shards as possible.  It does
    not: the groups with the lower gids get the larger loads, so a new group with a low
    gid can take three shards where two would balance as well. *)
Theorem rebalance_not_minimal :
  exists c' better, rebalance [1; 2; 3; 4] demoJoin = Some c' /\
    balanced [1; 2; 3; 4] better /\
    countP (fun s => Shards demoJoin @! s <> Shards c' @! s) shardIndices = 3 /\
    countP (fun s => Shards demoJoin @! s <> Shards better @! s) shardIndices = 2.
Proof.
  eexists _, (mkConfig 4 [2; 2; 2; 1; 3; 3; 3; 4; 4; 1] (Groups demoJoin)).
  split; [vm_compute; reflexivity|]. split; [|by vm_compute].
  split; [done| |].
  - intros s Hs. assert (s ∈ shardIndices) as Hin by by apply elem_of_shardIndices.
    change shardIndices with [0; 1; 2; 3; 4; 5; 6; 7; 8; 9] in Hin.
    repeat (apply elem_of_cons in Hin as [->|Hin];
      [eexists; split; [|vm_compute; reflexivity]; by repeat (apply elem_of_cons; (by left) || right)|]).
    by apply not_elem_of_nil in Hin.
  - intros g g' Hg Hg'.
    repeat (apply elem_of_cons in Hg as [->|Hg]);
      [..|by apply not_elem_of_nil in Hg];
      repeat (apply elem_of_cons in Hg' as [->|Hg']); try (by apply not_elem_of_nil in Hg');
      vm_compute; done.
Qed.

(** ** The controller's configurations *)

(** The operations of the committed log, applied in order. *)
Definition scRun (order : gmap Z (list string) -> list Z) (ops : list ScOp) (sc : ShardCtrler)
  : option ShardCtrler :=
  foldl (fun o op => sc ← o; applyScOp order op sc) (Some sc) ops.

Definition moveInRange (op : ScOp) : Prop :=
  so_Type op = Move -> 0 <= so_Shard op < NShards.

(** Configuration [i] is number [i], and none is ever lost. *)
Definition numbered (sc : ShardCtrler) : Prop :=
  configs sc <> [] /\
  forall i c, configs sc !! i = Some c -> Num c = Z.of_nat i /\ zlen (Shards c) = NShards.

Lemma last_config sc :
  configs sc <> [] -> exists c, configs sc @! (zlen (configs sc) - 1) = Some c.
Proof. intros. apply go_index_in_range. destruct (configs sc); [done|]. unfold zlen. simpl. lia. Qed.

(** The shards' array keeps its length. *)
Lemma rebalance_total order c :
  zlen (Shards c) = NShards -> visits order (Groups c) ->
  exists c', rebalance order c = Some c' /\ Num c' = Num c /\ Groups c' = Groups c /\ zlen (Shards c') = NShards.
Proof.
  intros Hlen Hv. destruct order as [|g order].
  - unfold rebalance. simpl. eexists. split_and!; [done..|]. simpl. unfold zlen in *. by rewrite length_fmap.
  - destruct (rebalance_facts (g :: order) c) as (c' & -> & ? & ? & Hb & _); [done|by eapply visits_NoDup|done|].
    exists c'. split_and!; try done. apply Hb.
Qed.

Lemma applyMutation_spec order op sc :
  (forall m, visits (order m) m) -> moveInRange op -> numbered sc ->
  exists sc' nc, applyMutation order op sc = Some sc' /\ numbered sc' /\
    configs sc' = configs sc ++ [nc].
Proof.
  intros Hord Hmove [Hne Hnum]. destruct (last_config sc Hne) as [lc Hlc].
  unfold applyMutation. rewrite Hlc. cbn [mbind option_bind Num Shards Groups].
  assert (Num lc = zlen (configs sc) - 1 /\ zlen (Shards lc) = NShards) as [Hn Hl].
  { pose proof (go_index_Some_bound _ _ _ Hlc). unfold go_index in Hlc.
    destruct (Z.leb_spec 0 (zlen (configs sc) - 1)); [|lia]. destruct (Hnum _ _ Hlc). split; [lia|done]. }
  set (o := match so_Type op with Join => _ | _ => _ end).
  assert (exists nc, o = Some nc /\ Num nc = Num lc + 1 /\ zlen (Shards nc) = NShards) as (nc & -> & Hnc & Hs).
  { unfold o. destruct (so_Type op) eqn:Ht.
    - destruct (rebalance_total (order (so_Servers op ∪ Groups lc))
        (mkConfig (Num lc + 1) (Shards lc) (so_Servers op ∪ Groups lc))) as (c' & -> & ? & ? & ?); eauto.
    - set (gs := foldl _ _ _). set (ss := _ <$> Shards lc).
      destruct (rebalance_total (order gs) (mkConfig (Num lc + 1) ss gs)) as (c' & -> & ? & ? & ?); eauto.
      simpl. unfold ss, zlen in *. by rewrite length_fmap.
    - rewrite go_update_Some by (rewrite Hl; by apply Hmove). eexists. split_and!; [done..|]. simpl.
      unfold zlen in *. by rewrite length_insert.
    - eauto. }
  cbn [mbind option_bind]. eexists _, nc. split_and!; [done| |done].
  split; simpl; [by destruct (configs sc)|]. intros i c [[_ Hi]|[-> <-]]%lookup_snoc_Some; [auto|].
  split; [|done]. unfold zlen in *. lia.
Qed.

(** What Join and Leave promise of the new configuration. *)
Definition assigned (c : Config) : Prop :=
  if decide (Groups c = ∅) then Shards c = replicate (Z.to_nat NShards) 0
  else (forall s, 0 <= s < NShards -> exists g, is_Some (Groups c !! g) /\ Shards c @! s = Some g) /\
       (forall g g', is_Some (Groups c !! g) -> is_Some (Groups c !! g') -> load c g <= load c g' + 1).

Lemma no_groups (l : list Z) : zlen l = NShards -> (fun _ => 0) <$> l = replicate (Z.to_nat NShards) 0.
Proof.
  intros Hl. replace (Z.to_nat NShards) with (length l) by (unfold zlen in Hl; lia).
  clear. by induction l as [|x l IH]; simpl; f_equal.
Qed.

Lemma rebalance_assigned order c c' :
  zlen (Shards c) = NShards -> visits order (Groups c) -> rebalance order c = Some c' ->
  Groups c' = Groups c /\ assigned c'.
Proof.
  intros Hlen Hv Hr. destruct (decide (Groups c = ∅)) as [E|Hne].
  - assert (order = []) as ->.
    { unfold visits in Hv. rewrite E, map_to_list_empty in Hv. by apply Permutation_nil_r in Hv. }
    unfold rebalance in Hr. simpl in Hr. simplify_eq. split; [done|]. unfold assigned. cbn [Groups Shards].
    rewrite decide_True by done. by apply no_groups.
  - destruct (rebalance_facts order c) as (c1 & Hr1 & _ & Hg & [_ Ho Hd] & _);
      [done|by eapply visits_NoDup| |].
    { intros ->. apply Hne, map_to_list_empty_iff. unfold visits in Hv.
      apply Permutation_nil_l in Hv. symmetry in Hv. by apply fmap_nil_inv in Hv. }
    rewrite Hr in Hr1. simplify_eq. split; [done|]. unfold assigned. rewrite Hg, decide_False by done. split.
    + intros s Hs. destruct (Ho s Hs) as (g & Hg' & ?). exists g. split; [|done]. by apply (visits_elem order).
    + intros g g'. rewrite <- !(visits_elem order) by done. apply Hd.
Qed.

Lemma foldl_delete_lookup (gids : list Z) (m : gmap Z (list string)) g :
  foldl (fun m gid => delete gid m) m gids !! g = if decide (g ∈ gids) then None else m !! g.
Proof.
  revert m. induction gids as [|x gids IH]; intros m; [done|]. cbn [foldl]. rewrite IH.
  destruct (decide (g ∈ gids)), (decide (g ∈ x :: gids)) as [Hx|Hx]; try done.
  - destruct Hx. by right.
  - apply elem_of_cons in Hx as [->|?]; [apply lookup_delete_eq|done].
  - apply lookup_delete_ne. intros ->. apply Hx. by left.
Qed.

(** Configuration [nc] is what [op] makes of [lc]: Join adds its groups and Leave removes
    its, and the shards are reassigned evenly over the groups there are, or to group 0 when
    there are none; Move changes one shard. *)
Definition madeBy (op : ScOp) (lc nc : Config) : Prop :=
  match so_Type op with
  | Join => Groups nc = so_Servers op ∪ Groups lc /\ assigned nc
  | Leave =>
      (forall g, Groups nc !! g = if decide (g ∈ so_GIDs op) then None else Groups lc !! g) /\
      assigned nc
  | Move => Groups nc = Groups lc /\
      forall s, Shards nc @! s = if s =? so_Shard op then Some (so_GID op) else Shards lc @! s
  | Query => Groups nc = Groups lc /\ Shards nc = Shards lc
  end.

(** A change appends one configuration, numbered one up. *)
Theorem applyMutation_config order op sc lc :
  (forall m, visits (order m) m) -> moveInRange op -> numbered sc ->
  configs sc @! (zlen (configs sc) - 1) = Some lc ->
  exists sc' nc, applyMutation order op sc = Some sc' /\
    configs sc' = configs sc ++ [nc] /\ Num nc = Num lc + 1 /\ madeBy op lc nc.
Proof.
  intros Hord Hmove [_ Hnum] Hlc. unfold applyMutation, madeBy. rewrite Hlc. cbn [mbind option_bind Num Shards Groups].
  assert (zlen (Shards lc) = NShards) as Hl.
  { unfold go_index in Hlc. destruct (Z.leb_spec 0 (zlen (configs sc) - 1)); [|done]. by destruct (Hnum _ _ Hlc). }
  destruct (so_Type op) eqn:Ht.
  - set (c := mkConfig _ _ _). destruct (rebalance_total (order (so_Servers op ∪ Groups lc)) c)
      as (c' & Hr & Hn & Hg & _); [done|apply Hord|].
    rewrite Hr. eexists _, c'. split_and!; [done..| |]; [by rewrite Hg|].
    eapply rebalance_assigned in Hr; [by destruct Hr|done|apply Hord].
  - set (gs := foldl _ _ _). set (c := mkConfig (Num lc + 1) _ gs).
    assert (zlen (Shards c) = NShards) as Hl' by (simpl; unfold zlen in *; by rewrite length_fmap).
    destruct (rebalance_total (order gs) c) as (c' & Hr & Hn & Hg & _); [done|apply Hord|].
    rewrite Hr. eexists _, c'. split_and!; [done..| |].
    + intros g. rewrite Hg. apply foldl_delete_lookup.
    + eapply rebalance_assigned in Hr; [by destruct Hr|done|apply Hord].
  - destruct (go_update (Shards lc) (so_Shard op) (so_GID op)) as [shards|] eqn:Hu.
    + eexists _, _. split_and!; try done. simpl. intros s. by eapply go_update_index.
    + rewrite go_update_Some in Hu; [done|]. rewrite Hl. auto.
  - eexists _, _. split_and!; done.
Qed.

(** Visiting keys in ascending order. *)
Definition ascending (m : gmap Z (list string)) : list Z := sortInts (map_to_list m).*1.

Lemma ascending_visits m : visits (ascending m) m.
Proof. apply sortInts_perm. Qed.

Lemma numbered_start me : numbered (StartServer me).
Proof.
  split; [done|]. intros i c. simpl. destruct i; simpl; [by intros [= <-]|].
  by rewrite lookup_nil.
Qed.

Lemma applyMutation_config_witness :
  exists sc' nc, applyMutation ascending (Leave_op [5] 1 1) (StartServer 0) = Some sc' /\
    configs sc' = [config0; nc] /\ assigned nc.
Proof.
  destruct (applyMutation_config ascending (Leave_op [5] 1 1) (StartServer 0) config0) as (sc' & nc & Ha & Hc & _ & _ & Hok).
  - apply ascending_visits.
  - done.
  - apply numbered_start.
  - reflexivity.
  - exists sc', nc. auto.
Defined.

Lemma applyScOp_spec order op sc :
  (forall m, visits (order m) m) -> moveInRange op -> numbered sc ->
  exists sc', applyScOp order op sc = Some sc' /\ numbered sc' /\ configs sc `prefix_of` configs sc'.
Proof.
  intros Hord Hmove Hn. unfold applyScOp. case_bool_decide; [exists sc; by split_and!|]. simpl.
  destruct (match sc_dedup sc !! _ with None => true | Some _ => _ end); [|exists sc; by split_and!].
  destruct (applyMutation_spec order op sc) as (sc' & nc & -> & Hn' & Hc); [done..|]. simpl.
  eexists. split_and!; [done|done|]. simpl. rewrite Hc. by apply prefix_app_r.
Qed.

Lemma scRun_spec order ops sc :
  (forall m, visits (order m) m) -> Forall moveInRange ops -> numbered sc ->
  exists sc', scRun order ops sc = Some sc' /\ numbered sc' /\ configs sc `prefix_of` configs sc'.
Proof.
  intros Hord. induction ops as [|op ops IH] using rev_ind; intros Hm Hn; [exists sc; by split_and!|].
  apply Forall_app in Hm as [Hm Hop]. apply (proj1 (Forall_singleton _ _)) in Hop. destruct (IH Hm Hn) as (sc1 & Hr & Hn1 & Hp).
  unfold scRun in *. rewrite foldl_app, Hr. simpl.
  destruct (applyScOp_spec order op sc1) as (sc2 & -> & ? & ?); [done..|].
  exists sc2. split_and!; [done..|]. by etrans.
Qed.

(** Every configuration but the first was made by a change in the log from the one before. *)
Definition explained (ops : list ScOp) (sc : ShardCtrler) : Prop :=
  forall i lc nc, configs sc !! i = Some lc -> configs sc !! S i = Some nc ->
    exists op, op ∈ ops /\ so_Type op <> Query /\ madeBy op lc nc.

Lemma applyScOp_explained order op ops sc sc' :
  (forall m, visits (order m) m) -> moveInRange op -> numbered sc -> explained ops sc ->
  applyScOp order op sc = Some sc' -> explained (ops ++ [op]) sc'.
Proof.
  intros Hord Hmove Hn He Ha. assert (explained (ops ++ [op]) sc) as He'.
  { intros i lc nc H1 H2. destruct (He i lc nc H1 H2) as (o & ? & ?). exists o. split; [apply elem_of_app; by left|done]. }
  unfold applyScOp in Ha. case_bool_decide as Hq; [by simplify_eq|]. simpl in Ha.
  destruct (match sc_dedup sc !! _ with None => true | Some _ => _ end); [|by simplify_eq].
  destruct (last_config sc (proj1 Hn)) as [last Hlast].
  destruct (applyMutation_config order op sc last) as (sc1 & new & E & Hc & _ & Hm); [done..|].
  rewrite E in Ha. simpl in Ha. simplify_eq. intros i lc nc. simpl. rewrite Hc. intros H1 H2.
  apply lookup_snoc_Some in H2 as [[Hi H2]|[Hi <-]]; rewrite lookup_app_l in H1 by lia; [by eapply He'|].
  exists op. split; [apply elem_of_app; right; left|]. split; [done|].
  unfold go_index in Hlast. destruct (Z.leb_spec 0 (zlen (configs sc) - 1)); [|done].
  replace (Z.to_nat (zlen (configs sc) - 1)) with i in Hlast by (unfold zlen; lia). congruence.
Qed.

Lemma scRun_explained order ops me sc :
  (forall m, visits (order m) m) -> Forall moveInRange ops -> scRun order ops (StartServer me) = Some sc ->
  explained ops sc.
Proof.
  intros Hord. revert sc. induction ops as [|op ops IH] using rev_ind; intros sc Hm Hr.
  { unfold scRun in Hr. simpl in Hr. simplify_eq. intros [|i] lc nc _ H2; simpl in H2; by rewrite ?lookup_nil in H2. }
  apply Forall_app in Hm as [Hm Hop]. apply (proj1 (Forall_singleton _ _)) in Hop.
  destruct (scRun_spec order ops (StartServer me)) as (sc1 & Hr1 & Hn1 & _); [done..|apply numbered_start|].
  unfold scRun in *. rewrite foldl_app, Hr1 in Hr. simpl in Hr. by eapply applyScOp_explained; eauto.
Qed.

(** C27. For any committed log whose Moves name existing shards, every entry is applied
    (no panic, and rebalancing ends); the configurations are numbered 0, 1, 2, ...; each
    but the first is what a Join, Leave or Move of the log makes of the one before it, in
    particular a Join or Leave assigns every shard, evenly, to groups of the configuration;
    and what a Query of an existing number is told never changes as the log grows. *)
Theorem controller_configs order ops more me :
  (forall m, visits (order m) m) -> Forall moveInRange (ops ++ more) ->
  exists sc sc', scRun order ops (StartServer me) = Some sc /\
    scRun order (ops ++ more) (StartServer me) = Some sc' /\
    (forall i c, configs sc' !! i = Some c -> Num c = Z.of_nat i /\ zlen (Shards c) = NShards) /\
    (forall i lc nc, configs sc' !! i = Some lc -> configs sc' !! S i = Some nc ->
       exists op, op ∈ ops ++ more /\ so_Type op <> Query /\ madeBy op lc nc) /\
    forall num, 0 <= num < zlen (configs sc) ->
      exists c, configAt num sc = Some c /\ configAt num sc' = Some c /\ Num c = num.
Proof.
  intros Hord Hm. pose proof Hm as Hall. apply Forall_app in Hm as [Hm1 Hm2].
  destruct (scRun_spec order ops (StartServer me)) as (sc & Hr & Hn & _); [done..|apply numbered_start|].
  destruct (scRun_spec order more sc) as (sc' & Hr' & [Hne Hn'] & [k Hk]); [done..|].
  assert (scRun order (ops ++ more) (StartServer me) = Some sc') as Hrun
    by (unfold scRun in *; by rewrite foldl_app, Hr).
  exists sc, sc'. split_and!; [done|done|done|by eapply scRun_explained|].
  intros num Hnum. destruct (go_index_in_range (configs sc) num) as [c Hc]; [lia|].
  assert (configs sc' @! num = Some c) as Hc' by (rewrite Hk, go_index_app_l by lia; done).
  exists c. unfold configAt. pose proof (go_index_Some_bound _ _ _ Hc').
  destruct (Z.ltb_spec num 0); [lia|]. rewrite !Z.geb_leb.
  destruct (Z.leb_spec (zlen (configs sc)) num); [lia|].
  destruct (Z.leb_spec (zlen (configs sc')) num); [lia|]. simpl. split_and!; [done..|].
  unfold go_index in Hc'. destruct (Z.leb_spec 0 num); [|lia]. destruct (Hn' _ _ Hc'). lia.
Qed.

Definition demoOps : list ScOp :=
  [Join_op {[ 1 := []; 2 := [] ]} 7 1; Move_op 3 2 7 2; Join_op {[ 3 := [] ]} 7 3; Join_op {[ 3 := [] ]} 7 3].

Lemma controller_configs_witness :
  exists sc sc', scRun ascending (take 2 demoOps) (StartServer 0) = Some sc /\
    scRun ascending (take 2 demoOps ++ drop 2 demoOps) (StartServer 0) = Some sc' /\
    (forall i c, configs sc' !! i = Some c -> Num c = Z.of_nat i /\ zlen (Shards c) = NShards) /\
    (forall i lc nc, configs sc' !! i = Some lc -> configs sc' !! S i = Some nc ->
       exists op, op ∈ take 2 demoOps ++ drop 2 demoOps /\ so_Type op <> Query /\ madeBy op lc nc) /\
    forall num, 0 <= num < zlen (configs sc) ->
      exists c, configAt num sc = Some c /\ configAt num sc' = Some c /\ Num c = num.
Proof.
  apply (controller_configs ascending (take 2 demoOps) (drop 2 demoOps) 0).
  - apply ascending_visits.
  - repeat constructor; done.
Defined.

Lemma applyMutation_order order1 order2 op sc :
  (forall m, visits (order1 m) m) -> (forall m, visits (order2 m) m) ->
  applyMutation order1 op sc = applyMutation order2 op sc.
Proof.
  intros H1 H2. assert (forall m, order1 m ≡ₚ order2 m) as Hp.
  { intros m. specialize (H1 m). specialize (H2 m). unfold visits in *. by rewrite H1, H2. }
  unfold applyMutation. destruct (configs sc @! _) as [lc|]; [|done]. simpl.
  destruct (so_Type op); [| |done..]; by rewrite (rebalance_order _ _ _ (Hp _)).
Qed.

(** Replicas that iterate their maps in different orders stay equal. *)
Theorem controllers_agree order1 order2 ops sc :
  (forall m, visits (order1 m) m) -> (forall m, visits (order2 m) m) ->
  scRun order1 ops sc = scRun order2 ops sc.
Proof.
  intros H1 H2. induction ops as [|op ops IH] using rev_ind; [done|].
  unfold scRun in *. rewrite !foldl_app, IH. clear IH. cbn [foldl].
  destruct (foldl _ _ ops) as [sc1|]; [|reflexivity]. cbn [mbind option_bind]. unfold applyScOp.
  by rewrite (applyMutation_order order1 order2).
Qed.

Lemma controllers_agree_witness :
  scRun (fun m => reverse (ascending m)) demoOps (StartServer 0) = scRun ascending demoOps (StartServer 0).
Proof.
  apply controllers_agree; [|apply ascending_visits].
  intros m. unfold visits. rewrite reverse_Permutation. apply ascending_visits.
Defined.

(** C39. A Move whose shard does not exist panics, if its number is new to the table of duplicates: the assignment [nc.Shards[op.Shard]]
    has no check before it, so once the command is committed every replica stops at it,
    and again whenever it replays the log. *)
Theorem Move_out_of_range order shard gid cid seq sc :
  numbered sc -> (forall last, sc_dedup sc !! cid = Some last -> last < seq) -> ~ 0 <= shard < NShards ->
  applyScOp order (Move_op shard gid cid seq) sc = None.
Proof.
  intros [Hne Hnum] Hd Hs. unfold applyScOp. simpl.
  set (fresh := match sc_dedup sc !! cid with None => true | Some _ => _ end).
  assert (fresh = true) as ->.
  { unfold fresh. destruct (sc_dedup sc !! cid) as [last|]; [|done]. specialize (Hd last eq_refl).
    rewrite ?Z.gtb_ltb. by apply Z.ltb_lt. }
  destruct (last_config sc Hne) as [lc Hlc]. unfold applyMutation. rewrite Hlc. simpl.
  assert (zlen (Shards lc) = NShards) as Hl.
  { unfold go_index in Hlc. destruct (Z.leb_spec 0 (zlen (configs sc) - 1)); [|done]. by destruct (Hnum _ _ Hlc). }
  unfold go_update. rewrite Hl.
  destruct (Z.leb_spec 0 shard), (Z.ltb_spec shard NShards); try reflexivity. exfalso. lia.
Qed.

Lemma Move_out_of_range_witness :
  applyScOp ascending (Move_op 10 1 7 1) (StartServer 0) = None.
Proof.
  apply Move_out_of_range; [apply numbered_start|done|]. unfold NShards. lia.
Defined.
