(* ===== verification/ScCluster.v ===== *)
(** * The shard controller, end to end

    Clerks, servers, Raft peers and the network of [src/src/shardctrler/] together, as
    [KvCluster] does for the key/value service.  The controller takes no snapshots, so
    nothing is assumed about the order in which Raft's messages arrive; a server that
    applies a [Move] out of range panics and takes no further step until it is restarted. *)

From S2P Require Import Prelude Persister Raft RaftCodec RaftLocal RaftCluster RaftRun RaftAbstract RaftDelivery Replicated Waiters Dedup KvRaft Clerks ShardCtrler Rebalance.

#[global] Instance scRequests : Requests ScOp := {|
  mutating op := negb (bool_decide (so_Type op = Query));
  opId op := (so_ClientId op, so_Seq op);
|}.

(** ** The state machine *)

(** The controller after the first [k] commands. *)
Definition scAt (log : list ScOp) (k : Z) : option ShardCtrler :=
  scRun ascending (take (Z.to_nat k) log) (StartServer 0).

(** The specification: the changes made one after the other without any duplicate
    detection. *)
Definition scReplay (ops : list ScOp) : option ShardCtrler :=
  foldl (fun o op => sc ← o; applyMutation ascending op sc) (Some (StartServer 0)) ops.

Lemma scRun_snoc order ops op sc :
  scRun order (ops ++ [op]) sc = sc' ← scRun order ops sc; applyScOp order op sc'.
Proof. unfold scRun. by rewrite foldl_app. Qed.

(** What a change of the configurations depends on, and what it leaves alone. *)
Lemma applyMutation_core order op sc :
  applyMutation order op sc =
    (fun sc' => mkShardCtrler (sc_me sc) (sc_dead sc) (configs sc') (sc_dedup sc) (sc_waiters sc) (sc_lastApplied sc)) <$>
    applyMutation order op (mkShardCtrler 0 false (configs sc) ∅ (noWaiters ScOp) 0).
Proof.
  unfold applyMutation. cbn [configs sc_dedup sc_me sc_dead sc_waiters sc_lastApplied].
  destruct (configs sc @! _) as [lc|]; [|done]. cbn [mbind option_bind].
  destruct (match so_Type op with Join => _ | Leave => _ | Move => _ | Query => _ end); done.
Qed.

Lemma applyScOp_core order op sc st sc' :
  (forall m, visits (order m) m) -> configs sc = configs st -> sc_dedup sc = sc_dedup st ->
  applyScOp order op sc = Some sc' ->
  sc_dead sc' = sc_dead sc /\ sc_waiters sc' = sc_waiters sc /\ sc_lastApplied sc' = sc_lastApplied sc /\
  exists st', applyScOp ascending op st = Some st' /\ configs sc' = configs st' /\ sc_dedup sc' = sc_dedup st'.
Proof.
  intros Hord Hc Hd. unfold applyScOp. rewrite Hd. case_bool_decide; [intros [= <-]; eauto 10|]. cbv zeta.
  destruct (match sc_dedup st !! _ with None => true | Some _ => _ end); [|intros [= <-]; eauto 10].
  rewrite (applyMutation_order order ascending op sc Hord ascending_visits).
  rewrite (applyMutation_core ascending op sc), (applyMutation_core ascending op st), Hc.
  destruct (applyMutation ascending op _) as [sc1|]; [|done]. simpl. intros [= <-]. simpl. rewrite Hd. eauto 10.
Qed.

Lemma applyScOp_detects :
  detects (StartServer 0) (fun op sc sc' => applyScOp ascending op sc = Some sc')
    (fun sc c => sc_dedup sc !! c) configs
    (fun op cs cs' => configs <$> applyMutation ascending op (mkShardCtrler 0 false cs ∅ (noWaiters ScOp) 0) = Some cs').
Proof.
  split; [done|]. intros op sc sc'. unfold applyScOp. cbn [mutating opId scRequests fst snd].
  case_bool_decide; [intros [= <-]; by right; left|]. cbv zeta. rewrite applyMutation_core.
  assert (match sc_dedup sc !! so_ClientId op with Some last => so_Seq op >? last | None => true end = true ->
    (forall last, sc_dedup sc !! so_ClientId op = Some last -> last < so_Seq op)) as Hlt.
  { intros E last El. rewrite El in E. b2p. lia. }
  destruct (match sc_dedup sc !! _ with None => true | Some _ => _ end) eqn:Hf.
  - destruct (applyMutation ascending op _) as [sc1|] eqn:Hm; [|done]. cbn. intros [= <-]. right; right.
    split_and!; [done|by apply Hlt|done|]. intros c. cbn. rewrite lookup_insert. repeat case_decide; subst; done.
  - intros [= <-]. left. split_and!; [done|done|]. destruct (sc_dedup sc !! _) as [last|]; [|done].
    exists last. b2p. split; [done|lia].
Qed.

(** The configurations are those the first occurrences of the changes alone produce. *)
Lemma scAt_exactly_once log k sc :
  clientOrdered log -> scAt log k = Some sc ->
  configs <$> scReplay (firsts (take (Z.to_nat k) log)) = Some (configs sc).
Proof.
  intros Ho Hk. assert (clientOrdered (take (Z.to_nat k) log)) as Ho'.
  { eapply (clientOrdered_app _ (drop (Z.to_nat k) log)). by rewrite take_drop. }
  unfold scAt in Hk. revert Hk Ho'. generalize (take (Z.to_nat k) log). clear. intros log Hs Ho.
  assert (runs (StartServer 0) (fun op sc sc' => applyScOp ascending op sc = Some sc') log sc) as Hr.
  { revert sc Hs. clear. induction log as [|op log IH] using rev_ind; intros sc Hs; [injection Hs as <-; constructor|].
    rewrite scRun_snoc in Hs. apply bind_Some in Hs as (sc1 & Hs & Ha). econstructor; eauto. }
  eapply runs_exactly_once in Hr; [|apply applyScOp_detects|done]. revert Hr. generalize (configs sc). clear.
  induction 1 as [|ops op cs cs' _ IH He]; [done|]. unfold scReplay in *. rewrite foldl_app. cbn [foldl].
  destruct (foldl _ _ ops) as [sc1|]; [|done]. injection IH as <-. cbn [mbind option_bind].
  rewrite applyMutation_core. rewrite <- He. by destruct (applyMutation _ _ _).
Qed.

(** ** The servers as a service on Raft *)

(** A server and its RPC handlers: those between [Start] and the registration of their
    channel, those that wait, the [Query] handlers whose [submit] returned true, and the
    replies given, as [WrongLeader] and, for a [Query], [Config]. *)
Record ScNode := mkScNode {
  cn_srv : ShardCtrler;
  cn_starting : list (ScOp * Z);
  cn_waiting : list (ScOp * Z * nat);
  cn_querying : list ScOp;
  cn_answered : list (ScOp * (bool * option Config));
}.
Implicit Types (v : ScNode) (ops : list ScOp).

(** [submit] has returned [ok]; the server is [sc] and [ws] are the handlers that still
    wait. *)
Definition cn_submitted (op : ScOp) (ok : bool) (sc : ShardCtrler) (ws : list (ScOp * Z * nat)) v : ScNode :=
  if ok && bool_decide (so_Type op = Query)
  then mkScNode sc (cn_starting v) ws (op :: cn_querying v) (cn_answered v)
  else mkScNode sc (cn_starting v) ws (cn_querying v) ((op, (negb ok, None)) :: cn_answered v).

(** [submit] after [Start] returned. *)
Definition cn_started (op : ScOp) (r : Z * Z * bool) v : ScNode :=
  let '(index, _, isLeader) := r in
  if isLeader then
    mkScNode (cn_srv v) ((op, index) :: cn_starting v) (cn_waiting v) (cn_querying v) (cn_answered v)
  else cn_submitted op false (cn_srv v) (cn_waiting v) v.

Inductive cn_serves v : ScNode -> Prop :=
| cn_register op index sc ch ss1 ss2 :
    cn_starting v = ss1 ++ (op, index) :: ss2 -> submit_register index (cn_srv v) = (sc, ch) ->
    cn_serves v (mkScNode sc (ss1 ++ ss2) ((op, index, ch) :: cn_waiting v) (cn_querying v) (cn_answered v))
| cn_receive op index ch sc ok ws1 ws2 :
    cn_waiting v = ws1 ++ (op, index, ch) :: ws2 ->
    submit_receive op index ch (cn_srv v) = Some (sc, ok) ->
    cn_serves v (cn_submitted op ok sc (ws1 ++ ws2) v)
| cn_timeout op index ch sc ok ws1 ws2 :
    cn_waiting v = ws1 ++ (op, index, ch) :: ws2 ->
    submit_timeout index (cn_srv v) = (sc, ok) ->
    cn_serves v (cn_submitted op ok sc (ws1 ++ ws2) v)
| cn_query op reply qs1 qs2 :
    cn_querying v = qs1 ++ op :: qs2 -> Query_reply true (so_Num op) (cn_srv v) = Some reply ->
    cn_serves v (mkScNode (cn_srv v) (cn_starting v) (cn_waiting v) (qs1 ++ qs2) ((op, reply) :: cn_answered v))
| cn_kill :
    cn_serves v (mkScNode (ScKill (cn_srv v)) (cn_starting v) (cn_waiting v) (cn_querying v) (cn_answered v)).

Definition cn_set (sc : ShardCtrler) v : ScNode :=
  mkScNode sc (cn_starting v) (cn_waiting v) (cn_querying v) (cn_answered v).

(** Each map is iterated in some order. *)
Definition cn_applies (r : Z) (m : ApplyMsg ScOp) v v' (snap : option (Z * bytes)) : Prop :=
  exists order sc, (forall g, visits (order g) g) /\ applyScMsg order m (cn_srv v) = Some sc /\
    v' = cn_set sc v /\ snap = None.

Definition cn_boot (ps : Persister) v : ScNode :=
  mkScNode (StartServer (sc_me (cn_srv v))) [] [] [] (cn_answered v).

#[global] Instance scService : RaftService ScOp := {|
  Srv := ScNode;
  applies := cn_applies;
  started := cn_started;
  serves := cn_serves;
  boot := cn_boot;
  takesSnapshots := false;
  snapshotOf _ := [];
|}.

(** *** It keeps the contract *)

(** The command of the call is among the first [p] commands. *)
Definition recorded ops (p : Z) (op : ScOp) : Prop :=
  exists i op', Z.of_nat i < p /\ ops !! i = Some op' /\ opId op' = opId op.

(** An answer that is not [WrongLeader] was given with the command in the log; that of a
    [Query] is the configuration at a moment after it. *)
Definition sc_answer_ok ops (op : ScOp) (reply : bool * option Config) : Prop :=
  reply.1 = true \/
  exists k st, 0 <= k <= zlen ops /\ recorded ops k op /\ scAt ops k = Some st /\
    (so_Type op = Query -> exists c, configAt (so_Num op) st = Some c /\ reply.2 = Some c).

Record scinv ops (p : Z) v : Prop := {
  si_pos : 0 <= sc_lastApplied (cn_srv v) <= p /\ p <= zlen ops;
  si_state : exists st, scAt ops p = Some st /\
    configs (cn_srv v) = configs st /\ sc_dedup (cn_srv v) = sc_dedup st;
  si_waiters : waiters_ok (sc_lastApplied (cn_srv v)) (fun i op => i <= p /\ ops @! (i - 1) = Some op)
    (cn_waiting v) (sc_waiters (cn_srv v));
  si_querying op : op ∈ cn_querying v -> recorded ops p op;
  si_answered op reply : (op, reply) ∈ cn_answered v -> sc_answer_ok ops op reply;
}.

Lemma scAt_app ops l k : k <= zlen ops -> scAt (ops ++ l) k = scAt ops k.
Proof. intros. unfold scAt, zlen in *. rewrite take_app_le by lia. done. Qed.

Lemma recorded_more ops l p p' op : p <= p' -> recorded ops p op -> recorded (ops ++ l) p' op.
Proof. intros ? (i & op' & ? & Hi & ?). exists i, op'. split_and!; [lia|by apply lookup_app_l_Some|done]. Qed.

Lemma recorded_later ops p p' op : p <= p' -> recorded ops p op -> recorded ops p' op.
Proof. intros. rewrite <- (app_nil_r ops). by eapply recorded_more. Qed.

Lemma scinv_more ops l p v : scinv ops p v -> scinv (ops ++ l) p v.
Proof.
  intros [Hp Hs Hw Hq Ha]. pose proof (zlen_app ops l). pose proof (zlen_nonneg l). split.
  - lia.
  - rewrite scAt_app by lia. done.
  - eapply waiters_ok_weaken; [|done]. intros i r [? Hi]. split; [done|].
    pose proof (go_index_Some_bound _ _ _ Hi). by rewrite go_index_app_l by lia.
  - intros op Hop. eapply recorded_more; [|by apply Hq]. lia.
  - intros op reply [?|(k & st & Hk & Hr & Hst & Hc)]%Ha; [by left|right]. exists k, st.
    split; [lia|]. split; [by eapply recorded_more|]. split; [by rewrite scAt_app by lia|done].
Qed.

Lemma scinv_answer ops p v op reply :
  sc_answer_ok ops op reply -> scinv ops p v ->
  scinv ops p (mkScNode (cn_srv v) (cn_starting v) (cn_waiting v) (cn_querying v) ((op, reply) :: cn_answered v)).
Proof.
  intros Hr [Hp Hs Hw Hq Ha]. split; try done.
  by intros op' reply' [[= -> ->]|?]%elem_of_cons; [|apply Ha].
Qed.

(** Handlers go on: [submit] returns. *)
Lemma scinv_submitted ops p v op ok sc ws :
  scinv ops p (mkScNode sc (cn_starting v) ws (cn_querying v) (cn_answered v)) ->
  (ok = true -> recorded ops p op) -> scinv ops p (cn_submitted op ok sc ws v).
Proof.
  intros Hi Hok. unfold cn_submitted. destruct ok; cbn [andb negb]; [case_bool_decide as Ht|].
  - destruct Hi as [Hp Hs Hw Hq Ha]. split; try done. by intros op' [->|?]%elem_of_cons; [apply Hok|apply Hq].
  - apply (scinv_answer ops p (mkScNode sc _ ws _ _)); [|exact Hi]. destruct (si_state _ _ _ Hi) as (st & Hst & _).
    right. exists p, st. pose proof (si_pos _ _ _ Hi). split; [lia|]. split; [by apply Hok|]. by split.
  - apply (scinv_answer ops p (mkScNode sc _ ws _ _)); [by left|exact Hi].
Qed.

(** Only the channels change. *)
Lemma scinv_waiters ops p v w ss ws :
  waiters_ok (sc_lastApplied (cn_srv v)) (fun i op => i <= p /\ ops @! (i - 1) = Some op) ws w ->
  scinv ops p v -> scinv ops p (mkScNode (set_sc_waiters w (cn_srv v)) ss ws (cn_querying v) (cn_answered v)).
Proof. intros Hw [Hp Hs _ Hq Ha]. by split. Qed.

Lemma scinv_receive ops p v op index ch sc ok ws1 ws2 :
  scinv ops p v -> cn_waiting v = ws1 ++ (op, index, ch) :: ws2 ->
  submit_receive op index ch (cn_srv v) = Some (sc, ok) -> scinv ops p (cn_submitted op ok sc (ws1 ++ ws2) v).
Proof.
  intros Hi Hw Hr. apply bind_Some in Hr as ([w op'] & Hr & [= <- <-]).
  pose proof (si_waiters _ _ _ Hi) as Hok. rewrite Hw in Hok.
  destruct (waiters_ok_receive _ _ _ _ _ _ _ _ _ _ Hok Hr) as [Hok' [Hidx Hop]].
  apply scinv_submitted; [by apply scinv_waiters|]. intros E. apply andb_prop in E as [? ?]. b2p.
  pose proof (go_index_Some_bound _ _ _ Hop) as Hb. exists (Z.to_nat (index - 1)), op'.
  split; [lia|]. split; [|simpl; congruence]. unfold go_index in Hop. by rewrite (proj2 (Z.leb_le 0 (index - 1))) in Hop by lia.
Qed.

(** The handler of a [Query] reads the configuration. *)
Lemma scinv_query ops p v op reply qs1 qs2 :
  scinv ops p v -> cn_querying v = qs1 ++ op :: qs2 ->
  Query_reply true (so_Num op) (cn_srv v) = Some reply ->
  scinv ops p (mkScNode (cn_srv v) (cn_starting v) (cn_waiting v) (qs1 ++ qs2) ((op, reply) :: cn_answered v)).
Proof.
  intros Hi Hq Hr. destruct (si_state _ _ _ Hi) as (st & Hst & Hc & _).
  apply (scinv_answer ops p v op reply) in Hi.
  - destruct Hi as [Hp Hs Hw Hq' Ha]. split; try done. intros op' Hin. apply Hq'. cbn [cn_querying]. rewrite Hq.
    apply elem_of_app in Hin as [?|?]; apply elem_of_app; [by left|by right; right].
  - right. exists p, st. pose proof (si_pos _ _ _ Hi). split; [lia|].
    split; [apply (si_querying _ _ _ Hi); rewrite Hq; apply elem_of_app; right; left|]. split; [done|]. intros _.
    unfold Query_reply in Hr. apply bind_Some in Hr as (c & Hcfg & [= <-]). exists c. split; [|done].
    unfold configAt in *. by rewrite <- Hc.
Qed.

(** While it is not killed, the server is where Raft takes it to be. *)
Definition cn_holds ops (p q : Z) v : Prop :=
  exists p', scinv ops p' v /\ (sc_dead (cn_srv v) = false -> p' = p /\ sc_lastApplied (cn_srv v) = q).

Lemma scinv_boot ops p v me : scinv ops p v -> scinv ops 0 (mkScNode (StartServer me) [] [] [] (cn_answered v)).
Proof.
  intros Hi. split; simpl; [pose proof (zlen_nonneg ops); lia| | | |apply (si_answered _ _ _ Hi)].
  - by exists (StartServer 0).
  - apply waiters_ok_none.
  - by intros op ?%not_elem_of_nil.
Qed.

Lemma cn_submitted_srv op ok sc ws v : cn_srv (cn_submitted op ok sc ws v) = sc.
Proof. unfold cn_submitted. by case_match. Qed.

Lemma cn_holds_started ops p q op r v : cn_holds ops p q v -> cn_holds ops p q (cn_started op r v).
Proof.
  destruct r as [[index tm] [|]]; intros (p' & Hi & Hd); exists p'; cbn [cn_started]; [split; [by destruct Hi|done]|].
  rewrite cn_submitted_srv. split; [|done]. apply scinv_submitted; [by destruct Hi|done].
Qed.

Lemma cn_holds_serves ops p q v v' : cn_holds ops p q v -> cn_serves v v' -> cn_holds ops p q v'.
Proof.
  intros (p' & Hi & Hd) Hs. exists p'.
  destruct Hs as [op index sc ch ss1 ss2 _ Hr|op index ch sc ok ws1 ws2 Hw Hr|op index ch sc ok ws1 ws2 Hw Hr|op reply qs1 qs2 Hq Hr|].
  - unfold submit_register in Hr. destruct (register _ _) as [w ch'] eqn:Hg. simplify_eq. split; [|done].
    apply scinv_waiters; [|done]. by eapply waiters_ok_register; [apply Hi|].
  - rewrite cn_submitted_srv. split; [by eapply scinv_receive|].
    apply bind_Some in Hr as ([w op'] & _ & [= <- _]). done.
  - rewrite cn_submitted_srv. injection Hr as <- <-. split; [|done]. apply scinv_submitted; [|done].
    apply scinv_waiters; [|done]. pose proof (si_waiters _ _ _ Hi) as Hok. rewrite Hw in Hok. by eapply waiters_ok_expire.
  - split; [by eapply scinv_query|done].
  - split; [|done]. by destruct Hi.
Qed.

Lemma scAt_next ops p op :
  0 <= p -> ops @! p = Some op -> scAt ops (p + 1) = st ← scAt ops p; applyScOp ascending op st.
Proof.
  intros Hp Hop. unfold scAt. rewrite Z2Nat.inj_add by lia. change (Z.to_nat 1) with 1%nat. rewrite Nat.add_1_r.
  unfold go_index in Hop. rewrite (proj2 (Z.leb_le 0 p)) in Hop by lia.
  rewrite (take_S_r _ _ op) by done. apply scRun_snoc.
Qed.

(** Applying the next command. *)
Lemma scinv_command ops p order op v sc' :
  (forall g, visits (order g) g) -> ops @! p = Some op -> sc_dead (cn_srv v) = false -> scinv ops p v ->
  applyScMsg order (CommandMsg (Some op) (p + 1)) (cn_srv v) = Some sc' ->
  sc_dead sc' = false /\ sc_lastApplied sc' = p + 1 /\ scinv ops (p + 1) (cn_set sc' v).
Proof.
  intros Hord Hop Hd Hi Ha. destruct (si_pos _ _ _ Hi) as [Hla _]. pose proof (go_index_Some_bound _ _ _ Hop) as Hb.
  unfold applyScMsg in Ha. rewrite Hd, (proj2 (Z.leb_gt _ _)) in Ha by lia. cbn [mbind option_bind] in Ha.
  apply bind_Some in Ha as (sc1 & Ha & Hw). apply bind_Some in Hw as (w & Hw & [= <-]).
  destruct (si_state _ _ _ Hi) as (st & Hst & Hc & Hdd).
  destruct (applyScOp_core order op (set_sc_lastApplied (p + 1) (cn_srv v)) st sc1 Hord Hc Hdd Ha) as (Ed & Ew & El & st' & Hst' & Hc' & Hdd').
  simpl in Ed, Ew, El. split; [simpl; congruence|]. split; [done|]. 
  assert (scAt ops (p + 1) = Some st') as Hat by (rewrite (scAt_next ops p op), Hst by (lia || done); done).
  split; simpl.
  - rewrite El. lia.
  - by exists st'.
  - rewrite El. rewrite Ew in Hw.
    destruct (waiters_ok_wake (fun i o => i <= p + 1 /\ ops @! (i - 1) = Some o) (sc_lastApplied (cn_srv v))
      (cn_waiting v) (sc_waiters (cn_srv v)) (p + 1) op) as (w' & Hw' & Hok); [|lia| |].
    + eapply waiters_ok_weaken; [|apply Hi]. simpl. intros i r [? ?]. split; [lia|done].
    + split; [lia|]. by replace (p + 1 - 1) with p by lia.
    + by rewrite Hw in Hw'; injection Hw' as ->.
  - intros op' Hq. eapply recorded_later; [|by apply (si_querying _ _ _ Hi)]. lia.
  - apply (si_answered _ _ _ Hi).
Qed.

(** What the controller does with a message. *)
Lemma applyScMsg_dead order m sc : sc_dead sc = true -> applyScMsg order m sc = Some sc.
Proof. unfold applyScMsg. by intros ->. Qed.

Lemma applyScMsg_stale order m sc : msgIndex m <= sc_lastApplied sc -> applyScMsg order m sc = Some sc.
Proof.
  intros Hm. unfold applyScMsg. destruct (sc_dead sc); [done|]. destruct m; [|done]. simpl in Hm.
  by rewrite (proj2 (Z.leb_le _ _)) by lia.
Qed.

Lemma applyScMsg_order order1 order2 m sc :
  (forall g, visits (order1 g) g) -> (forall g, visits (order2 g) g) ->
  applyScMsg order1 m sc = applyScMsg order2 m sc.
Proof.
  intros H1 H2. unfold applyScMsg, applyScOp. destruct (sc_dead sc); [done|]. destruct m as [[op|] i|]; [|done|done].
  cbn [mbind option_bind]. by rewrite (applyMutation_order order1 order2).
Qed.

Lemma cn_holds_applies ops p q m p' q' r v v' snap :
  tellsOps ops p q m p' q' -> isCommand m -> cn_holds ops p q v -> cn_applies r m v v' snap ->
  cn_holds ops p' q' v' /\ snap = None.
Proof.
  intros Ht Hm (p0 & Hi & Hd) (order & sc & Hord & Ha & -> & ->). split; [|done].
  destruct (sc_dead (cn_srv v)) eqn:Hdead.
  { rewrite applyScMsg_dead in Ha by done. injection Ha as <-. exists p0. split; [by destruct Hi|]. simpl. congruence. }
  destruct (Hd eq_refl) as [-> Hq].
  apply tellsOps_cases in Ht as [(Hle & -> & ->)|[(op & Hop & -> & -> & ->)|(d & t & k & -> & _)]]; [| |done].
  - rewrite applyScMsg_stale in Ha by (rewrite Hq; done). injection Ha as <-. exists p. split; [by destruct Hi|done].
  - destruct (scinv_command ops p order op v sc Hord Hop Hdead Hi Ha) as (_ & ? & ?). by exists (p + 1).
Qed.

Lemma cn_holds_total ops p q m p' q' r v :
  tellsOps ops p q m p' q' -> isCommand m -> Forall moveInRange ops -> cn_holds ops p q v ->
  exists v' snap, cn_applies r m v v' snap.
Proof.
  intros Ht Hm Hmv (p0 & Hi & Hd).
  assert (exists sc, applyScMsg ascending m (cn_srv v) = Some sc) as [sc Hsc];
    [|exists (cn_set sc v), None, ascending, sc; split_and!; [apply ascending_visits|done..]].
  destruct (sc_dead (cn_srv v)) eqn:Hdead; [rewrite applyScMsg_dead by done; eauto|].
  destruct (Hd eq_refl) as [-> Hq].
  apply tellsOps_cases in Ht as [(Hle & _)|[(op & Hop & -> & _)|(d & t & k & -> & _)]]; [| |done].
  { rewrite applyScMsg_stale by (rewrite Hq; done). eauto. }
  destruct (si_pos _ _ _ Hi) as [Hla Hp]. unfold applyScMsg. rewrite Hdead, (proj2 (Z.leb_gt _ _)) by lia.
  cbn [mbind option_bind]. destruct (si_state _ _ _ Hi) as (st & Hst & Hc & _).
  assert (numbered (set_sc_lastApplied (p + 1) (cn_srv v))) as Hn.
  { destruct (scRun_spec ascending (take (Z.to_nat p) ops) (StartServer 0)) as (st' & Hr & [Hne Hnum] & _);
      [apply ascending_visits|by apply Forall_take|apply numbered_start|].
    unfold scAt in Hst. rewrite Hst in Hr. injection Hr as <-. split; simpl; by rewrite Hc. }
  assert (moveInRange op) as Hop'.
  { eapply (proj1 (Forall_forall _ _) Hmv). unfold go_index in Hop. case_match; [|done]. by eapply list_elem_of_lookup_2. }
  destruct (applyScOp_spec ascending op _ ascending_visits Hop' Hn) as (sc1 & Ha & _). rewrite Ha.
  destruct (applyScOp_core ascending op _ (set_sc_lastApplied (p + 1) (cn_srv v)) sc1 ascending_visits eq_refl eq_refl Ha)
    as (_ & Ew & _). cbn [mbind option_bind]. rewrite Ew. simpl.
  destruct (waiters_ok_wake (fun _ _ => True) (sc_lastApplied (cn_srv v)) (cn_waiting v) (sc_waiters (cn_srv v)) (p + 1) op)
    as (w' & Hw' & _); [|lia|done|rewrite Hw'; simpl; eauto].
  eapply waiters_ok_weaken; [|apply Hi]. done.
Qed.

#[global] Instance scServiceOk : RaftServiceOk scService.
Proof.
  refine {| holdsAt := cn_holds : list ScOp -> Z -> Z -> Srv -> Prop; applicable := Forall moveInRange |}.
  - intros ops ops' p s v Hp (p' & Hi & Hd). exists p'. split; [by apply scinv_more|done].
  - apply cn_holds_started.
  - apply cn_holds_serves.
  - intros ops p s b ps v _ _ [?| ->] (p' & Hi & _); [done|]. exists 0. split; [by eapply scinv_boot|done].
  - intros ops p s m p' s' r v _ _ Ht [?|Hm]; [done|]. by eapply cn_holds_total.
  - intros ops p s m p' s' r v v' snap _ _ Ht [?|Hm] Hh Ha; [done|].
    destruct (cn_holds_applies ops p s m p' s' r v v' snap Ht Hm Hh Ha) as [? ->]. by split.
Defined.

Lemma sc_never_compacts : neverCompacts (fun v : Srv => True).
Proof. split; try done. intros r m v v' snap _ (order & sc & _ & _ & _ & ->). done. Qed.

(** ** The clerks *)

Inductive ScCall :=
| CJoin (servers : gmap Z (list string))
| CLeave (gids : list Z)
| CMove (shard gid : Z)
| CQuery (num : Z).

Definition scCallOp (call : ScCall) (cid seq : Z) : ScOp :=
  match call with
  | CJoin servers => Join_op servers cid seq
  | CLeave gids => Leave_op gids cid seq
  | CMove shard gid => Move_op shard gid cid seq
  | CQuery num => Query_op num cid seq
  end.

#[global] Instance scClerks : ClerkService scService := {|
  Req := ScCall;
  Ans := bool * option Config;
  request := scCallOp;
  answers := cn_answered;
  accepts _ reply := negb reply.1;
|}.

(** The call took effect while it ran: a change at the first of its retries in the log;
    a [Query] returns the configuration of a moment after its command. *)
Definition scLinearized (log : list ScOp) (op : ScOp) (start en : nat) (reply : bool * option Config) : Prop :=
  exists p, (start <= p < en)%nat /\ log !! p = Some op /\
    (mutating op = true -> forall j op', (j < p)%nat -> log !! j = Some op' -> opId op' <> opId op) /\
    (mutating op = false -> exists k st c, (p < k <= en)%nat /\ scAt log (Z.of_nat k) = Some st /\
       configAt (so_Num op) st = Some c /\ reply.2 = Some c).

Lemma sc_linearized_app log l op start en reply :
  (en <= length log)%nat -> scLinearized log op start en reply -> scLinearized (log ++ l) op start en reply.
Proof.
  intros Hen (p & Hp & Hop & Hm & Hq). pose proof (lookup_lt_Some _ _ _ Hop) as Hlt. exists p.
  split; [done|]. split; [by apply lookup_app_l_Some|]. split.
  - intros E j op' Hj. rewrite lookup_app_l by lia. by apply Hm.
  - intros E. destruct (Hq E) as (k & st & c & Hk & Hst & ?). exists k, st, c. split; [done|].
    split; [|done]. rewrite scAt_app by (unfold zlen; lia). done.
Qed.

Lemma sc_answer_linearized log op start reply :
  (forall op', op' ∈ log -> opId op' = opId op -> op' = op) ->
  (forall j, log !! j = Some op -> (start <= j)%nat) ->
  sc_answer_ok log op reply -> reply.1 = false -> scLinearized log op start (length log) reply.
Proof.
  intros Hun Hstart [?|(k & st & Hk & (i & op' & Hi & Hop & Hid) & Hst & Hc)] Hr; [congruence|].
  assert (op' = op) as -> by (apply Hun; [by eapply list_elem_of_lookup_2|done]).
  destruct (list_lookup_first (fun o => opId o = opId op) log i op Hop eq_refl) as (p & o & Hp & Ho & Hido & Hfirst).
  assert (o = op) as -> by (apply Hun; [by eapply list_elem_of_lookup_2|done]).
  exists p. pose proof (lookup_lt_Some _ _ _ Ho). split; [specialize (Hstart p Ho); lia|].
  split; [done|]. split; [done|]. intros Hm. destruct Hc as (c & Hc & E).
  { simpl in Hm. apply negb_false_iff in Hm. by b2p. }
  exists (Z.to_nat k), st, c. unfold zlen in Hk. split; [lia|]. by rewrite Z2Nat.id by lia.
Qed.

(** A call that returned did so within the log. *)
Definition scEffect (log : list ScOp) (op : ScOp) (start en : nat) (reply : bool * option Config) : Prop :=
  (en <= length log)%nat /\ scLinearized log op start en reply.

#[global] Instance scClerksOk : ClerkServiceOk scServiceOk scClerks.
Proof.
  refine {| effectIn := scEffect : list ScOp -> ScOp -> nat -> nat -> Ans -> Prop |}.
  - by intros [].
  - intros log op start en res (_ & p & _ & Hp & _). by eapply list_elem_of_lookup_2.
  - intros log l op start en res [Hen Hl]. split; [rewrite length_app; lia|by apply sc_linearized_app].
  - intros log p q v op res start (p' & Hi & _) Hin Hacc Hun Hst. split; [done|].
    apply sc_answer_linearized; [done|done|by apply (si_answered _ _ _ Hi)|by apply negb_true_iff].
Defined.

(** ** Linearizability *)

Section system.
Context `{StateCodec ScOp} (n : nat) (ordered : bool).
Implicit Types (s : ClerkSystem (RS := scService)).

Definition scnode0 (i : Z) : ScNode := mkScNode (StartServer i) [] [] [] [].

Definition screachable s : Prop := ckreachable n ordered scnode0 s.

Context `{!StateCodecOk ScOp}.

Lemma screachable_inv s : (0 < n)%nat -> screachable s -> ckinv n ordered (fun _ : Srv => True) s.
Proof.
  intros Hn Hr. apply (ckreachable_inv (RS := scService) n ordered _ scnode0); [done| | |exact Hr].
  - intros i. exists 0. split; [|done]. apply (scinv_boot [] 0 (mkScNode (StartServer 0) [] [] [] [])).
    split; simpl; [done|by exists (StartServer 0)|apply waiters_ok_none|..];
      intros; by match goal with Hin : _ ∈ [] |- _ => apply not_elem_of_nil in Hin end.
  - right. split; [apply sc_never_compacts|done].
Qed.

(** C6. The shard controller is linearizable: with clerks that retry over a network that
    loses, delays and repeats messages, and servers that crash and restart, there is one
    sequence of commands, all of them sent by clerks, such that every call that returned
    took effect between its invocation and its return, [Join], [Leave] and [Move] at their
    first occurrence and [Query] with the configuration it names at that moment; the changes
    take effect once each, in that order; and the configurations of every server are
    those of a prefix of the sequence, in whatever order it iterates its maps. *)
Theorem shardctrler_linearizable s :
  (0 < n)%nat -> screachable s ->
  (forall h, h ∈ history s -> scLinearized (opLog s) (c_op h) (c_start h) (c_end h) (c_res h)) /\
  (forall k sc, scAt (opLog s) k = Some sc ->
     configs <$> scReplay (firsts (take (Z.to_nat k) (opLog s))) = Some (configs sc)) /\
  NoDup (opId <$> firsts (opLog s)) /\
  (forall op, op ∈ opLog s -> op ∈ sent s) /\
  forall i, peer n i -> exists p sc, 0 <= p <= zlen (opLog s) /\ scAt (opLog s) p = Some sc /\
    configs (cn_srv (servers (reps s) i)) = configs sc.
Proof.
  intros Hn Hr. pose proof (screachable_inv s Hn Hr) as Hi.
  destruct (ckinv_facts n ordered _ s Hi) as (Hh & Hlog & Hsrv). pose proof (cki_clinv _ _ _ _ Hi) as Hcl.
  split; [intros h Hin; apply (proj1 (Forall_forall _ _) Hh h Hin)|].
  split; [intros k sc; apply scAt_exactly_once, clinv_ordered, Hcl|]. split; [apply firsts_NoDup|]. split; [done|].
  intros i Hp. destruct (Hsrv i Hp) as [(p & q & _ & _ & p' & Hsi & _) _].
  destruct (si_state _ _ _ Hsi) as (st & Hst & Hc & _). exists p', st.
  pose proof (si_pos _ _ _ Hsi). split; [lia|done].
Qed.

(** As long as every [Move] that clerks sent names an existing shard, the apply loop of a
    server goes on: it neither panics on the message it has taken nor blocks on a
    handler's channel while it holds the lock. *)
Theorem shardctrler_apply_total s i msg order :
  (0 < n)%nat -> screachable s -> Forall moveInRange (sent s) -> peer n i -> inbox (reps s) i = Some msg ->
  (forall g, visits (order g) g) -> is_Some (applyScMsg order msg (cn_srv (servers (reps s) i))).
Proof.
  intros Hn Hr Hm Hi Hib Hord. destruct (ckinv_facts n ordered _ s (screachable_inv s Hn Hr)) as (_ & Hlog & Hsrv).
  destruct (Hsrv i Hi) as [_ Ht]. destruct (Ht) with (msg := msg) (r := 0) as (v' & snap & order' & sc & Hord' & E & _);
    [|done|rewrite (applyScMsg_order order order') by done; by eexists].
  apply Forall_forall. intros op Hop. by apply (proj1 (Forall_forall _ _) Hm), Hlog.
Qed.
End system.

(** ** Running the system *)

Inductive ScServe :=
| CnRegister (k : nat)     (* the [k]-th handler registers its channel *)
| CnTake (k : nat)         (* the [k]-th handler that waits receives *)
| CnTimeout (k : nat)      (* ... gives up *)
| CnQuery (k : nat)        (* the [k]-th query reads the configuration *)
| CnKill.

Definition scServe (e : ScServe) (v : ScNode) : option ScNode :=
  match e with
  | CnRegister k =>
      '(op, index) ← cn_starting v !! k;
      let '(sc, ch) := submit_register index (cn_srv v) in
      Some (mkScNode sc (take k (cn_starting v) ++ drop (S k) (cn_starting v))
        ((op, index, ch) :: cn_waiting v) (cn_querying v) (cn_answered v))
  | CnTake k =>
      '(op, index, ch) ← cn_waiting v !! k;
      '(sc, ok) ← submit_receive op index ch (cn_srv v);
      Some (cn_submitted op ok sc (take k (cn_waiting v) ++ drop (S k) (cn_waiting v)) v)
  | CnTimeout k =>
      '(op, index, ch) ← cn_waiting v !! k;
      let '(sc, ok) := submit_timeout index (cn_srv v) in
      Some (cn_submitted op ok sc (take k (cn_waiting v) ++ drop (S k) (cn_waiting v)) v)
  | CnQuery k =>
      op ← cn_querying v !! k;
      reply ← Query_reply true (so_Num op) (cn_srv v);
      Some (mkScNode (cn_srv v) (cn_starting v) (cn_waiting v)
        (take k (cn_querying v) ++ drop (S k) (cn_querying v)) ((op, reply) :: cn_answered v))
  | CnKill => Some (cn_set (ScKill (cn_srv v)) v)
  end.

Lemma scServe_sound e v v' : scServe e v = Some v' -> cn_serves v v'.
Proof.
  destruct e as [k|k|k|k|]; cbn [scServe]; intros He.
  - apply bind_Some in He as ([op index] & Hk & He). destruct (submit_register index _) as [sc ch] eqn:Hr. simplify_eq.
    eapply cn_register; [|done]. symmetry. by apply take_drop_middle.
  - apply bind_Some in He as ([[op index] ch] & Hk & He). apply bind_Some in He as ([sc ok] & Hr & He). simplify_eq.
    eapply cn_receive; [|done]. symmetry. by apply take_drop_middle.
  - apply bind_Some in He as ([[op index] ch] & Hk & He). destruct (submit_timeout index _) as [sc ok] eqn:Hr. simplify_eq.
    eapply cn_timeout; [|done]. symmetry. by apply take_drop_middle.
  - apply bind_Some in He as (op & Hk & He). apply bind_Some in He as (reply & Hr & He). simplify_eq.
    eapply cn_query; [|done]. symmetry. by apply take_drop_middle.
  - simplify_eq. apply cn_kill.
Qed.

#[global] Instance scExec : ServiceExec scService.
Proof.
  refine {| SrvEvent := ScServe; serveEv := (scServe : _ -> Srv -> option Srv);
    applyEv r m (v : Srv) := sc ← applyScMsg ascending m (cn_srv v); Some (cn_set sc v : Srv, None) |}.
  - apply scServe_sound.
  - intros r m v v' snap (sc & Ha & [= <- <-])%bind_Some. exists ascending, sc.
    split_and!; [apply ascending_visits|done..].
Defined.

(** ** Example *)

#[global] Instance ScOp_eq_dec : EqDecision ScOp.
Proof. solve_decision. Defined.

#[global] Instance ScOpType_countable : Countable ScOpType.
Proof.
  refine (inj_countable' (fun t => match t with Join => 0 | Leave => 1 | Move => 2 | Query => 3 end)%nat
    (fun k => match k with 0 => Join | 1 => Leave | 2 => Move | _ => Query end)%nat _).
  by intros [].
Defined.

#[global] Instance ScOp_countable : Countable ScOp.
Proof.
  refine (inj_countable' (fun o => (so_Type o, so_Servers o, so_GIDs o, so_Shard o, so_GID o, so_Num o, so_ClientId o, so_Seq o))
    (fun '(t, m, l, a, b, c, d, e) => mkScOp t m l a b c d e) _).
  by intros [].
Defined.

Abbreviation sgo k := (KRaft (EvThread lateEnv k)).

(** Server 0 is elected; clerk 1 makes two groups join, clerk 2 asks for the latest
    configuration; then the server crashes and restarts. *)
Definition demoQueries : list (CkEvent (RS := scService)) :=
  [KRaft (EvTick lateEnv 0); sgo 0; sgo 0; KRaft (EvLose 0); sgo 0; sgo 0; sgo 0; sgo 0; KRaft (EvLose 0);
   KCall 1 (CJoin {[ 1 := []; 2 := [] ]}); KRequest 0 0; KServe 0 (CnRegister 0); sgo 0; sgo 0; sgo 0; sgo 0; KRaft (EvLose 0);
   KRaft (EvApplier 0); KReceive (EvDeliver 0); KApply 0; KServe 0 (CnTake 0); KReturn 1 0 0;
   KCall 2 (CQuery (-1)); KRequest 0 0; KServe 0 (CnRegister 0); sgo 0; sgo 0; sgo 0;
   KRaft (EvApplier 0); KReceive (EvDeliver 0); KApply 0; KServe 0 (CnTake 0); KServe 0 (CnQuery 0); KReturn 2 0 0;
   KRestart lateEnv 0].

Definition sc0 : ClerkSystem := ckinit (RS := scService) 3 (fun _ => demoEnv) scnode0.

(** The system after the first [k] of these events. *)
Definition demoSc (k : nat) : ClerkSystem := default sc0 (ckrun 3 false (take k demoQueries) sc0).

Lemma demoSc_reachable k : isSome (ckrun 3 false (take k demoQueries) sc0) = true -> screachable 3 false (demoSc k).
Proof.
  unfold demoSc. intros Hs. exists (fun _ => demoEnv). apply (ckrun_sound 3 false (take k demoQueries)). fold sc0.
  destruct (ckrun 3 false (take k demoQueries) sc0); [reflexivity|discriminate Hs].
Qed.

Lemma shardctrler_linearizable_witness :
  (fun h => (so_Type (c_op h), Num <$> (c_res h).2)) <$> history (demoSc 35) = [(Join, None); (Query, Some 1)] /\
  forall h, h ∈ history (demoSc 35) ->
    scLinearized (opLog (demoSc 35)) (c_op h) (c_start h) (c_end h) (c_res h).
Proof.
  split; [vm_compute; reflexivity|].
  apply (shardctrler_linearizable 3 false (demoSc 35)); [lia|].
  apply demoSc_reachable. vm_compute. reflexivity.
Defined.

Lemma shardctrler_apply_total_witness :
  exists msg, inbox (reps (demoSc 19)) 0 = Some msg /\
    is_Some (applyScMsg ascending msg (cn_srv (servers (reps (demoSc 19)) 0))).
Proof.
  assert (isSome (inbox (reps (demoSc 19)) 0) = true) as E by (vm_compute; reflexivity).
  destruct (inbox (reps (demoSc 19)) 0) as [msg|] eqn:Em; [|discriminate E]. exists msg. split; [reflexivity|].
  apply (shardctrler_apply_total 3 false (demoSc 19)); [lia| | |split; lia|exact Em|exact ascending_visits].
  - apply demoSc_reachable. vm_compute. reflexivity.
  - assert (so_Type <$> sent (demoSc 19) = [Join]) as Et by (vm_compute; reflexivity).
    destruct (sent (demoSc 19)) as [|op [|]]; [discriminate Et| |discriminate Et]. injection Et as Et.
    constructor; [|constructor]. intros Hm. congruence.
Defined.
