(* ===== verification/ShardKV.v ===== *)
(** * The sharded key/value server: [src/src/shardkv/]

    [server.go] and [client.go]: the state machine one replica group runs (client
    operations, configuration changes, and the hand-over of shards between groups), its
    background loops, RPC handlers and snapshots, and the clerk.  As in [KvRaft], a
    critical section under [kv.mu] is one definition, and the calls to Raft and to other
    groups are arguments and results. *)

From S2P Require Import Prelude Persister Raft Waiters KvRaft ShardCtrler.

(** ** Data *)

Inductive ShardState := Serving | Pulling | BePulling | GCing.

#[global] Instance ShardState_eq_dec : EqDecision ShardState.
Proof. solve_decision. Defined.

Record Shard := mkShard { Data : gmap string string; State : ShardState }.

Definition newShard : Shard := mkShard ∅ Serving.

Definition set_State (st : ShardState) (s : Shard) : Shard := mkShard (Data s) st.

(** The error strings; [ErrNone] is the empty one. *)
Inductive SErr := SOK | SErrNoKey | SErrWrongGroup | SErrWrongLeader | SErrTimeout | SErrNotReady | ErrNone.

#[global] Instance SErr_eq_dec : EqDecision SErr.
Proof. solve_decision. Defined.

(** The replicated commands; a Go [Op] carries the fields of all of them. *)
Inductive SOp :=
| ClientOp (t : OpType) (Key Value : string) (ClientId Seq : Z)
| ConfigOp (c : Config)
| InstallShardOp (ConfigNum : Z) (Shards : list Z) (ShardData : gmap Z (gmap string string))
    (Dedup : gmap Z Z)
| DeleteShardOp (ConfigNum : Z) (Shards : list Z)
| EmptyOp.

Record sresult := mkSResult { sr_err : SErr; sr_value : string; sr_clientId : Z; sr_seq : Z }.

(** What the log determines, and a snapshot holds. *)
Record Core := mkCore {
  shards : gmap Z Shard;
  dedup : gmap Z Z;
  prevConfig : Config;
  config : Config;
}.

Record ShardKV := mkShardKV {
  skv_me : Z;
  gid : Z;
  skv_maxraftstate : Z;
  skv_dead : bool;
  core : Core;
  skv_waiters : Waiters sresult;
  skv_lastApplied : Z;
}.

(** [c.Shards[s]]: [Shards] is an array of [NShards], and the code indexes it with
    shard numbers only. *)
Definition shardOwner (c : Config) (s : Z) : Z := default 0 (Shards c @! s).

(** [int(key[0]) % NShards], 0 for the empty key. *)
Definition key2shard (key : string) : Z :=
  match key with
  | EmptyString => 0
  | String b _ => Z.rem (Z.of_N (Ascii.N_of_ascii b)) NShards
  end.

Definition maxSeq (a b : Z) : Z := if a >? b then a else b.

(** ** The state machine of group [g] *)

Section core.
Variable g : Z.
Implicit Types (k : Core).

Definition set_shards (m : gmap Z Shard) k : Core := mkCore m (dedup k) (prevConfig k) (config k).
Definition set_dedup (d : gmap Z Z) k : Core := mkCore (shards k) d (prevConfig k) (config k).

Definition canServe (s : Z) k : bool :=
  if negb (shardOwner (config k) s =? g) then false
  else match shards k !! s with
       | Some sh => bool_decide (State sh = Serving)
       | None => false
       end.

Definition applyClientOp (t : OpType) (key value : string) (cid seq : Z) k : Core * sresult :=
  let s := key2shard key in
  let wrong := (k, mkSResult SErrWrongGroup EmptyString cid seq) in
  if negb (shardOwner (config k) s =? g) then wrong
  else match shards k !! s with
       | None => wrong
       | Some sh =>
           if negb (bool_decide (State sh = Serving)) then wrong
           else match t with
                | TGet =>
                    match Data sh !! key with
                    | Some v => (k, mkSResult SOK v cid seq)
                    | None => (k, mkSResult SErrNoKey EmptyString cid seq)
                    end
                | _ =>
                    let res := mkSResult SOK EmptyString cid seq in
                    let seen := match dedup k !! cid with Some last => seq <=? last | None => false end in
                    if seen then (k, res)
                    else
                      let v := match t with
                               | TPut => value
                               | _ => String.append (go_map_get EmptyString (Data sh) key) value end in
                      (k |> set_shards (<[s := mkShard (<[key := v]> (Data sh)) (State sh)]> (shards k))
                         |> set_dedup (<[cid := seq]> (dedup k)), res)
                end
       end.

Definition settled k : bool := bool_decide (map_Forall (fun _ sh => State sh = Serving) (shards k)).

(** The loop body of [applyConfig] for one shard. *)
Definition migrateShard (old new : Config) (m : gmap Z Shard) (s : Z) : gmap Z Shard :=
  let oldGid := shardOwner old s in
  let newGid := shardOwner new s in
  if negb (newGid =? g) then
    if oldGid =? g then
      match m !! s with Some sh => <[s := set_State BePulling sh]> m | None => m end
    else m
  else if (oldGid =? g) || (oldGid =? 0) then
    <[s := set_State Serving (default newShard (m !! s))]> m
  else <[s := mkShard ∅ Pulling]> m.

Definition applyConfig (new : Config) k : Core :=
  if negb (Num new =? Num (config k) + 1) then k
  else if negb (settled k) then k
  else mkCore (foldl (migrateShard (config k) new) (shards k) shardIndices) (dedup k) (config k) new.

(** The shards of an InstallShard that are being pulled. *)
Definition installOne (data : gmap Z (gmap string string)) (m : gmap Z Shard) (s : Z) : gmap Z Shard :=
  match m !! s with
  | Some sh =>
      if bool_decide (State sh = Pulling) then <[s := mkShard (go_map_get ∅ data s) GCing]> m else m
  | None => m
  end.

(** [if cur, ok := kv.dedup[cid]; !ok || seq > cur { kv.dedup[cid] = seq }] for each
    entry of [new]. *)
Definition mergeDedup (new old : gmap Z Z) : gmap Z Z :=
  merge (fun a b => match a, b with
                    | Some seq, Some cur => Some (if seq >? cur then seq else cur)
                    | Some seq, None => Some seq
                    | None, b => b
                    end) new old.

Definition applyInstallShard (num : Z) (ss : list Z) (data : gmap Z (gmap string string))
    (d : gmap Z Z) k : Core :=
  if negb (num =? Num (config k)) then k
  else k |> set_shards (foldl (installOne data) (shards k) ss)
         |> set_dedup (mergeDedup d (dedup k)).

Definition deleteOne (m : gmap Z Shard) (s : Z) : gmap Z Shard :=
  match m !! s with
  | None => m
  | Some sh =>
      match State sh with
      | GCing => <[s := set_State Serving sh]> m
      | BePulling => delete s m
      | _ => m
      end
  end.

Definition applyDeleteShard (num : Z) (ss : list Z) k : Core :=
  if negb (num =? Num (config k)) then k
  else set_shards (foldl deleteOne (shards k) ss) k.

(** The [switch] of [applyCommand]. *)
Definition applySOp (op : SOp) k : Core * sresult :=
  match op with
  | ClientOp t key value cid seq => applyClientOp t key value cid seq k
  | ConfigOp c => (applyConfig c k, mkSResult ErrNone EmptyString 0 0)
  | InstallShardOp num ss data d => (applyInstallShard num ss data d k, mkSResult ErrNone EmptyString 0 0)
  | DeleteShardOp num ss => (applyDeleteShard num ss k, mkSResult ErrNone EmptyString 0 0)
  | EmptyOp => (k, mkSResult ErrNone EmptyString 0 0)
  end.
End core.

(** ** Servers *)

(** [encoding/gob] on the four values of a snapshot. *)
Class CoreCodec := {
  gobEncodeCore : Core -> bytes;
  gobDecodeCore : bytes -> option Core;
}.

Class CoreCodecOk `{CoreCodec} : Prop := {
  core_roundtrip : forall k, gobDecodeCore (gobEncodeCore k) = Some k;
  core_nonempty : forall k, gobEncodeCore k <> [];
}.

Section server.
Context `{CoreCodec}.
Implicit Types (kv : ShardKV).

Definition set_core (k : Core) kv : ShardKV :=
  mkShardKV (skv_me kv) (gid kv) (skv_maxraftstate kv) (skv_dead kv) k (skv_waiters kv) (skv_lastApplied kv).
Definition set_skv_lastApplied (i : Z) kv : ShardKV :=
  mkShardKV (skv_me kv) (gid kv) (skv_maxraftstate kv) (skv_dead kv) (core kv) (skv_waiters kv) i.
Definition set_skv_waiters (w : Waiters sresult) kv : ShardKV :=
  mkShardKV (skv_me kv) (gid kv) (skv_maxraftstate kv) (skv_dead kv) (core kv) w (skv_lastApplied kv).

Definition skv_maybeSnapshot (rsize index : Z) kv : option (Z * bytes) :=
  if (skv_maxraftstate kv <? 0) || (rsize <? skv_maxraftstate kv) then None
  else Some (index, gobEncodeCore (core kv)).

Definition skv_readSnapshot (d : bytes) kv : ShardKV :=
  match d with
  | [] => kv
  | _ => match gobDecodeCore d with None => kv | Some k => set_core k kv end
  end.

Definition skv_applyCommand (rsize : Z) (cmd : option SOp) (index : Z) kv
  : option (ShardKV * option (Z * bytes)) :=
  if index <=? skv_lastApplied kv then Some (kv, None)
  else
    let kv := set_skv_lastApplied index kv in
    op ← cmd;
    let '(k, res) := applySOp (gid kv) op (core kv) in
    let kv := set_core k kv in
    w ← wake index res (skv_waiters kv);
    let kv := set_skv_waiters w kv in
    Some (kv, skv_maybeSnapshot rsize index kv).

Definition skv_applySnapshot (snap : bytes) (index : Z) kv : ShardKV :=
  if index <=? skv_lastApplied kv then kv
  else kv |> skv_readSnapshot snap |> set_skv_lastApplied index.

Definition skv_applyMsg (rsize : Z) (msg : ApplyMsg SOp) kv : option (ShardKV * option (Z * bytes)) :=
  if skv_dead kv then Some (kv, None)
  else match msg with
       | CommandMsg cmd index => skv_applyCommand rsize cmd index kv
       | SnapshotMsg snap _ index => Some (skv_applySnapshot snap index kv, None)
       end.

(** [submit] after [Start] returned [index]; when the channel delivers, only client
    operations check whose command it was. *)
Definition skv_submit_register (index : Z) kv : ShardKV * nat :=
  let '(w, ch) := register index (skv_waiters kv) in (set_skv_waiters w kv, ch).

Definition submitCheck (op : SOp) (res : sresult) : sresult :=
  match op with
  | ClientOp _ _ _ cid seq =>
      if negb (sr_clientId res =? cid) || negb (sr_seq res =? seq)
      then mkSResult SErrWrongLeader EmptyString 0 0 else res
  | _ => res
  end.

Definition skv_submit_receive (op : SOp) (index : Z) (ch : nat) kv : option (ShardKV * sresult) :=
  '(w, res) ← receive index ch (skv_waiters kv);
  Some (set_skv_waiters w kv, submitCheck op res).

Definition skv_submit_timeout (index : Z) kv : ShardKV * sresult :=
  (set_skv_waiters (expire index (skv_waiters kv)) kv, mkSResult SErrTimeout EmptyString 0 0).

(** [Get] and [PutAppend] before [submit]: the error, or the command to submit. *)
Definition skv_Get (key : string) (cid seq : Z) kv : SErr + SOp :=
  if canServe (gid kv) (key2shard key) (core kv)
  then inr (ClientOp TGet key EmptyString cid seq) else inl SErrWrongGroup.

Definition skv_PutAppend (t : OpType) (key value : string) (cid seq : Z) kv : SErr + SOp :=
  if canServe (gid kv) (key2shard key) (core kv)
  then inr (ClientOp t key value cid seq) else inl SErrWrongGroup.

(** ** Background loops: what one round of the leader reads and sends *)

(** [configPoller]: the number to query, if the shards are settled; then the
    command, if the controller has that configuration. *)
Definition configPoller_next (k : Core) : option Z :=
  if settled k then Some (Num (config k) + 1) else None.

Definition configPoller_propose (nextNum : Z) (next : Config) : option SOp :=
  if Num next =? nextNum then Some (ConfigOp next) else None.

(** [gidShards] of [shardPuller] and [shardGC]: the shards in state [st], by the
    group that owned them before; [order] is the order [range kv.shards] yields. *)
Definition gidShards (st : ShardState) (order : list Z) (k : Core) : gmap Z (list Z) :=
  foldl (fun m s =>
    match shards k !! s with
    | Some sh =>
        if bool_decide (State sh = st) then
          let p := shardOwner (prevConfig k) s in <[p := go_map_get [] m p ++ [s]]> m
        else m
    | None => m
    end) ∅ order.

(** The requests of a round: destination servers, configuration number, shards. *)
Definition migrationRequests (st : ShardState) (order : list Z) (k : Core)
  : list (Z * list string * Z * list Z) :=
  (fun '(p, ss) => (p, go_map_get [] (Groups (prevConfig k)) p, Num (config k), ss))
    <$> map_to_list (gidShards st order k).

Definition pullRequests (order : list Z) (k : Core) := migrationRequests Pulling order k.
Definition gcRequests (order : list Z) (k : Core) := migrationRequests GCing order k.

(** What follows an [OK] reply to each request. *)
Definition shardPuller_propose (num : Z) (ss : list Z) (data : gmap Z (gmap string string)) (d : gmap Z Z) : SOp :=
  InstallShardOp num ss data d.
Definition shardGC_propose (num : Z) (ss : list Z) : SOp := DeleteShardOp num ss.

(** The goroutine of one request: its servers are asked in turn until one says [OK];
    [None]: no answer. *)
Fixpoint firstOK {A} (call : string -> option (SErr * A)) (servers : list string) : option A :=
  match servers with
  | [] => None
  | name :: servers =>
      match call name with
      | Some (SOK, x) => Some x
      | _ => firstOK call servers
      end
  end.

(** The rounds of the three loops on a state [k]: the commands passed to [Start]. *)
Definition configPoller (isLeader : bool) (query : Z -> Config) (k : Core) : option SOp :=
  if isLeader then nextNum ← configPoller_next k; configPoller_propose nextNum (query nextNum) else None.

Definition shardPuller (isLeader : bool) (order : list Z)
    (call : Z -> list Z -> string -> option (SErr * (gmap Z (gmap string string) * gmap Z Z)))
    (k : Core) : list SOp :=
  if isLeader then
    omap (fun '(_, servers, num, ss) =>
      '(data, d) ← firstOK (call num ss) servers; Some (shardPuller_propose num ss data d))
      (pullRequests order k)
  else [].

Definition shardGC (isLeader : bool) (order : list Z) (call : Z -> list Z -> string -> option (SErr * unit))
    (k : Core) : list SOp :=
  if isLeader then
    omap (fun '(_, servers, num, ss) => _ ← firstOK (call num ss) servers; Some (shardGC_propose num ss))
      (gcRequests order k)
  else [].

Definition emptyLogChecker (isLeader hasCurrentTermLog : bool) : option SOp :=
  if isLeader && negb hasCurrentTermLog then Some EmptyOp else None.

(** ** Migration handlers *)

(** [PullShard] on the leader: the error, or the data and the duplicate table. *)
Definition PullShard (isLeader : bool) (num : Z) (ss : list Z) (k : Core)
  : SErr * gmap Z (gmap string string) * gmap Z Z :=
  if negb isLeader then (SErrWrongLeader, ∅, ∅)
  else if num >? Num (config k) then (SErrNotReady, ∅, ∅)
  else (SOK,
        foldl (fun m s => <[s := match shards k !! s with Some sh => Data sh | None => ∅ end]> m) ∅ ss,
        dedup k).

(** [DeleteShard] before [submit]: the reply, or the command to submit; then the
    reply from what [submit] returned. *)
Definition DeleteShard (isLeader : bool) (num : Z) (ss : list Z) (k : Core) : SErr + SOp :=
  if negb isLeader then inl SErrWrongLeader
  else if num <? Num (config k) then inl SOK
  else if num >? Num (config k) then inl SErrNotReady
  else inr (DeleteShardOp num ss).

Definition DeleteShard_reply (res : sresult) : SErr :=
  if bool_decide (sr_err res = SErrWrongLeader) || bool_decide (sr_err res = SErrTimeout)
  then sr_err res else SOK.

Definition skv_Kill kv : ShardKV :=
  mkShardKV (skv_me kv) (gid kv) (skv_maxraftstate kv) true (core kv) (skv_waiters kv) (skv_lastApplied kv).

Definition core0 : Core := mkCore ∅ ∅ config0 config0.

Definition skv_StartServer (me max gid : Z) (ps : Persister) : ShardKV :=
  skv_readSnapshot (ReadSnapshot ps) (mkShardKV me gid max false core0 (noWaiters sresult) 0).
End server.

(** ** Clerk *)

Record SClerk := mkSClerk { sck_config : Config; sck_clientId : Z; sck_seq : Z }.

(** [nrand] returned [rnd]; the configuration is the zero value, with no groups. *)
Definition MakeSClerk (rnd : Z) : SClerk := mkSClerk config0 rnd 0.

Definition sck_nextSeq (ck : SClerk) : SClerk * Z :=
  let s := wrap_signed 64 (sck_seq ck + 1) in (mkSClerk (sck_config ck) (sck_clientId ck) s, s).

(** The servers of a group in turn: a good reply ends the call, [ErrWrongGroup] the
    group; anything else, or no reply, moves on. *)
Fixpoint tryServers {A} (call : string -> option (SErr * A)) (good : SErr -> bool) (servers : list string)
  : option A :=
  match servers with
  | [] => None
  | name :: servers =>
      match call name with
      | Some (e, x) =>
          if good e then Some x
          else if bool_decide (e = SErrWrongGroup) then None
          else tryServers call good servers
      | None => tryServers call good servers
      end
  end.

(** The outer loop of [Get] and [PutAppend]: try the group of the key's shard, then
    ask the controller for the latest configuration.  [call i] and [query i] are what
    happens in round [i]. *)
Fixpoint sclerkLoop {A} (call : nat -> string -> option (SErr * A)) (good : SErr -> bool)
    (query : nat -> Config) (key : string) (fuel i : nat) (c : Config) : option (Config * A) :=
  match fuel with
  | O => None
  | S fuel =>
      match (servers ← Groups c !! shardOwner c (key2shard key); tryServers (call i) good servers) with
      | Some x => Some (c, x)
      | None => sclerkLoop call good query key fuel (S i) (query i)
      end
  end.

Definition goodGet (e : SErr) : bool := bool_decide (e = SOK) || bool_decide (e = SErrNoKey).
Definition goodPut (e : SErr) : bool := bool_decide (e = SOK).

Definition SClerk_Get (call : Z -> Z -> nat -> string -> option (SErr * string)) (query : nat -> Config)
    (fuel : nat) (key : string) (ck : SClerk) : option (SClerk * string) :=
  let '(ck, s) := sck_nextSeq ck in
  '(c, v) ← sclerkLoop (call (sck_clientId ck) s) goodGet query key fuel 0 (sck_config ck);
  Some (mkSClerk c (sck_clientId ck) (sck_seq ck), v).

Definition SClerk_PutAppend (call : Z -> Z -> nat -> string -> option (SErr * unit)) (query : nat -> Config)
    (fuel : nat) (key : string) (ck : SClerk) : option SClerk :=
  let '(ck, s) := sck_nextSeq ck in
  '(c, _) ← sclerkLoop (call (sck_clientId ck) s) goodPut query key fuel 0 (sck_config ck);
  Some (mkSClerk c (sck_clientId ck) (sck_seq ck)).
