(* ===== verification/ShardMigration.v ===== *)
(** * Moving shards between groups

    The replica groups of [ShardKV] with the messages of a migration, as one
    transition system: groups advance through the controller's configurations, pull the
    shards they gain from the previous owner and have it delete its copy.  The theorems:
    as long as a shard that was assigned stays assigned, no two groups ever hold the same
    shard, and whichever group holds it has exactly the writes made to the shard so far, by
    itself and by every group before it; and what becomes of a shard that is assigned to
    nobody.

    A group is its replicated state machine.  The loops and handlers of a leader read
    a replica, which may lag: they act on any state the group has been in.  Commands are
    applied in any order after they were proposed, any number of times. *)

From S2P Require Import Prelude Persister Raft RaftCodec Waiters KvRaft ShardCtrler ShardKV.

(** ** What each command does to one shard *)

Section pointwise.
Context {A : Type} (f : gmap Z A -> Z -> gmap Z A) (h : Z -> option A -> option A).
Hypothesis Hat : forall m s, f m s !! s = h s (m !! s).
Hypothesis Hother : forall m s s', s' <> s -> f m s !! s' = m !! s'.
Hypothesis Hidem : forall s o, h s (h s o) = h s o.

Lemma foldl_pointwise l m s :
  foldl f m l !! s = if decide (s ∈ l) then h s (m !! s) else m !! s.
Proof.
  revert m. induction l as [|s0 l IH]; intros m; [done|]. cbn [foldl]. rewrite IH.
  destruct (decide (s = s0)) as [->|Hne].
  - rewrite Hat, (decide_True (P := s0 ∈ s0 :: l)) by (by left). by case_decide.
  - rewrite Hother by done. destruct (decide (s ∈ l)), (decide (s ∈ s0 :: l)) as [Hx|Hx]; try done.
    + destruct Hx. by right.
    + apply elem_of_cons in Hx as [?|?]; done.
Qed.
End pointwise.

Definition migrated (g : Z) (old new : Config) (s : Z) (o : option Shard) : option Shard :=
  if negb (shardOwner new s =? g) then
    if shardOwner old s =? g then set_State BePulling <$> o else o
  else if (shardOwner old s =? g) || (shardOwner old s =? 0)
  then Some (set_State Serving (default newShard o)) else Some (mkShard ∅ Pulling).

Definition installed (data : gmap Z (gmap string string)) (s : Z) (o : option Shard) : option Shard :=
  match o with
  | Some sh => if bool_decide (State sh = Pulling) then Some (mkShard (go_map_get ∅ data s) GCing) else o
  | None => o
  end.

Definition deleted (s : Z) (o : option Shard) : option Shard :=
  match o with
  | Some sh => match State sh with GCing => Some (set_State Serving sh) | BePulling => None | _ => o end
  | None => o
  end.

Lemma migrate_lookup g old new m s :
  foldl (migrateShard g old new) m shardIndices !! s =
    if decide (0 <= s < NShards) then migrated g old new s (m !! s) else m !! s.
Proof.
  rewrite (foldl_pointwise _ (migrated g old new)).
  - assert (s ∈ shardIndices <-> 0 <= s < NShards) as Hs by (unfold shardIndices; rewrite elem_of_seqZ; lia).
    destruct (decide (s ∈ shardIndices)), (decide (0 <= s < NShards)); done || tauto.
  - intros m' s'. unfold migrateShard, migrated. repeat case_match; simpl; rewrite ?lookup_insert_eq; done.
  - intros m' s1 s2 Hne. unfold migrateShard. repeat case_match; rewrite ?lookup_insert_ne; done.
  - intros s' o. unfold migrated. repeat case_match; try done; by destruct o.
Qed.

Lemma install_lookup data ss m s :
  foldl (installOne data) m ss !! s = if decide (s ∈ ss) then installed data s (m !! s) else m !! s.
Proof.
  apply foldl_pointwise.
  - intros m' s'. unfold installOne, installed. repeat case_match; rewrite ?lookup_insert_eq; congruence.
  - intros m' s1 s2 Hne. unfold installOne. repeat case_match; rewrite ?lookup_insert_ne; done.
  - intros s' [[d []]|]; done.
Qed.

Lemma delete_lookup ss m s :
  foldl deleteOne m ss !! s = if decide (s ∈ ss) then deleted s (m !! s) else m !! s.
Proof.
  apply foldl_pointwise.
  - intros m' s'. unfold deleteOne, deleted.
    repeat case_match; rewrite ?lookup_insert_eq, ?lookup_delete_eq; congruence.
  - intros m' s1 s2 Hne. unfold deleteOne.
    repeat case_match; rewrite ?lookup_insert_ne, ?lookup_delete_ne; done.
  - intros s' [[d []]|]; done.
Qed.

(** ** What the loops and handlers send *)

Lemma gidShards_spec st order k p ss s :
  gidShards st order k !! p = Some ss -> s ∈ ss ->
  exists sh, shards k !! s = Some sh /\ State sh = st /\ shardOwner (prevConfig k) s = p.
Proof.
  revert p ss. induction order as [|s0 order IH] using rev_ind; intros p ss; [done|].
  unfold gidShards in *. rewrite foldl_app. cbn [foldl].
  destruct (shards k !! s0) as [sh0|] eqn:Hs0; [|apply IH]. case_bool_decide as Hst; [|apply IH].
  set (p0 := shardOwner (prevConfig k) s0). set (m := foldl _ ∅ order) in *.
  destruct (decide (p = p0)) as [->|]; [|rewrite lookup_insert_ne by done; apply IH].
  rewrite lookup_insert_eq. intros [= <-] [Hin| ->]%elem_of_snoc; [|by exists sh0].
  unfold go_map_get in Hin. destruct (m !! p0) as [ss0|] eqn:Hm; [by eapply IH|by apply not_elem_of_nil in Hin].
Qed.

Lemma migrationRequests_spec st order k p servers n ss :
  (p, servers, n, ss) ∈ migrationRequests st order k ->
  n = Num (config k) /\ forall s, s ∈ ss ->
    exists sh, shards k !! s = Some sh /\ State sh = st /\ shardOwner (prevConfig k) s = p.
Proof.
  intros ([p' ss'] & [= -> -> -> ->] & Hin%elem_of_map_to_list)%list_elem_of_fmap.
  split; [done|]. intros s Hs. by eapply gidShards_spec.
Qed.

Lemma PullShard_spec n ss k data d :
  PullShard true n ss k = (SOK, data, d) ->
  n <= Num (config k) /\ d = dedup k /\ forall s, s ∈ ss ->
    go_map_get ∅ data s = match shards k !! s with Some sh => Data sh | None => ∅ end.
Proof.
  unfold PullShard. simpl. rewrite Z.gtb_ltb. destruct (Z.ltb_spec (Num (config k)) n); [done|].
  intros [= <- <-]. split; [done|]. split; [done|]. induction ss as [|s0 ss IH] using rev_ind; intros s Hs.
  { by apply not_elem_of_nil in Hs. }
  rewrite foldl_app. cbn [foldl]. unfold go_map_get in *. destruct (decide (s = s0)) as [->|].
  - by rewrite lookup_insert_eq.
  - rewrite lookup_insert_ne by done. apply IH. apply elem_of_snoc in Hs as [?|?]; done.
Qed.

Lemma canServe_serving g s k : canServe g s k = true -> exists sh, shards k !! s = Some sh /\ State sh = Serving.
Proof.
  unfold canServe. case_match; [done|]. destruct (shards k !! s) as [sh|]; [|done].
  intros ?%bool_decide_eq_true. eauto.
Qed.

(** ** The system *)

(** A write that took effect on a shard. *)
Record Write := mkWrite { w_type : OpType; w_key : string; w_value : string; w_cid : Z; w_seq : Z }.

Definition applyWrite (m : gmap string string) (w : Write) : gmap string string :=
  <[w_key w := match w_type w with
               | TPut => w_value w
               | _ => String.append (go_map_get EmptyString m (w_key w)) (w_value w) end]> m.

Definition replayWrites (ws : list Write) : gmap string string := foldl applyWrite ∅ ws.

(** The duplicate table [dd] knows the writes [ws]; it knows all that [dd'] knows. *)
Definition covers (dd : gmap Z Z) (ws : list Write) : Prop :=
  forall x, x ∈ ws -> exists last, dd !! w_cid x = Some last /\ w_seq x <= last.

Definition dedup_le (dd dd' : gmap Z Z) : Prop :=
  forall c last, dd !! c = Some last -> exists last', dd' !! c = Some last' /\ last <= last'.

(** A copy of a shard with its duplicate table is up to date. *)
Definition contents (d : gmap string string) (dd : gmap Z Z) (ws : list Write) : Prop :=
  d = replayWrites ws /\ covers dd ws.

(** Each client's writes are in the order of their numbers, none of them twice. *)
Definition increasing (ws : list Write) : Prop :=
  forall i j x y, (i < j)%nat -> ws !! i = Some x -> ws !! j = Some y -> w_cid x = w_cid y -> w_seq x < w_seq y.

Lemma covers_le dd dd' ws : dedup_le dd dd' -> covers dd ws -> covers dd' ws.
Proof. intros Hle Hc x Hx. destruct (Hc x Hx) as (l & Hl & ?). destruct (Hle _ _ Hl) as (l' & ? & ?). exists l'. split; [done|lia]. Qed.

Lemma contents_le d dd dd' ws : dedup_le dd dd' -> contents d dd ws -> contents d dd' ws.
Proof. intros Hle [? ?]. split; [done|by eapply covers_le]. Qed.

Lemma dedup_le_refl dd : dedup_le dd dd.
Proof. intros c l ?. exists l. split; [done|lia]. Qed.

Lemma dedup_le_insert dd c seq :
  (forall last, dd !! c = Some last -> last < seq) -> dedup_le dd (<[c := seq]> dd).
Proof.
  intros Hlt c' l Hl. destruct (decide (c' = c)) as [->|].
  - exists seq. rewrite lookup_insert_eq. split; [done|]. specialize (Hlt _ Hl). lia.
  - exists l. rewrite lookup_insert_ne by done. split; [done|lia].
Qed.

Lemma mergeDedup_le new old : dedup_le new (mergeDedup new old) /\ dedup_le old (mergeDedup new old).
Proof.
  split; intros c l Hl; unfold mergeDedup; rewrite lookup_merge, Hl; unfold diag_None.
  - destruct (old !! c) as [cur|]; [|exists l; split; [done|lia]].
    eexists; split; [done|]. rewrite Z.gtb_ltb. destruct (Z.ltb_spec cur l); lia.
  - destruct (new !! c) as [seq|]; [|exists l; split; [done|lia]].
    eexists; split; [done|]. rewrite Z.gtb_ltb. destruct (Z.ltb_spec l seq); lia.
Qed.

(** A new write with a number the table does not know yet. *)
Lemma contents_write d dd ws x :
  contents d dd ws -> (forall last, dd !! w_cid x = Some last -> last < w_seq x) ->
  contents (applyWrite d x) (<[w_cid x := w_seq x]> dd) (ws ++ [x]).
Proof.
  intros [-> Hc] Hlt. split; [unfold replayWrites; by rewrite foldl_app|].
  intros y [Hy| ->%list_elem_of_singleton]%elem_of_app.
  - eapply covers_le; [by apply dedup_le_insert|done|done].
  - exists (w_seq x). rewrite lookup_insert_eq. split; [done|lia].
Qed.

Lemma increasing_write dd ws x :
  covers dd ws -> (forall last, dd !! w_cid x = Some last -> last < w_seq x) -> increasing ws -> increasing (ws ++ [x]).
Proof.
  intros Hc Hlt Hi i j y z Hij Hy [[? Hz]|[-> <-]]%lookup_snoc_Some Ecid.
  - rewrite lookup_app_l in Hy by lia. by eapply (Hi i j).
  - rewrite lookup_app_l in Hy by lia. destruct (Hc y) as (l & Hl & ?); [by eapply list_elem_of_lookup_2|].
    rewrite Ecid in Hl. specialize (Hlt _ Hl). lia.
Qed.

(** The write a client operation makes, if it is not refused, a Get or a retry. *)
Definition writeOf (g : Z) (t : OpType) (key value : string) (cid seq : Z) (k : Core) : list Write :=
  if canServe g (key2shard key) k then
    match t with
    | TGet => []
    | _ => match dedup k !! cid with
           | Some last => if seq <=? last then [] else [mkWrite t key value cid seq]
           | None => [mkWrite t key value cid seq]
           end
    end
  else [].

Record System := mkSystem {
  cur : Z -> Core;                           (* each group's state *)
  seen : Z -> list Core;                     (* and the ones it has been in *)
  pulls : list (Z * Z * Z * list Z);         (* PullShard: from, to, ConfigNum, Shards *)
  deletes : list (Z * Z * Z * list Z);       (* DeleteShard, likewise *)
  proposed : list (Z * SOp);                 (* InstallShard and DeleteShard commands, by group *)
  hist : Z -> list Write;                    (* the writes made to each shard *)
}.

Definition setCore (g : Z) (k : Core) (w : System) : System :=
  mkSystem (upd (cur w) g k) (upd (seen w) g (k :: seen w g)) (pulls w) (deletes w) (proposed w) (hist w).
Definition addPull (m : Z * Z * Z * list Z) (w : System) : System :=
  mkSystem (cur w) (seen w) (m :: pulls w) (deletes w) (proposed w) (hist w).
Definition addDelete (m : Z * Z * Z * list Z) (w : System) : System :=
  mkSystem (cur w) (seen w) (pulls w) (m :: deletes w) (proposed w) (hist w).
Definition propose (g : Z) (op : SOp) (w : System) : System :=
  mkSystem (cur w) (seen w) (pulls w) (deletes w) ((g, op) :: proposed w) (hist w).
Definition addWrites (s : Z) (ws : list Write) (w : System) : System :=
  mkSystem (cur w) (seen w) (pulls w) (deletes w) (proposed w) (upd (hist w) s (hist w s ++ ws)).

Section migration.
Variable cfg : Z -> Config. (* the controller's configurations *)

Inductive mstep (w : System) : System -> Prop :=
| ms_client g t key value cid seq k res :
    g <> 0 -> applySOp g (ClientOp t key value cid seq) (cur w g) = (k, res) ->
    mstep w (w |> setCore g k
               |> addWrites (key2shard key) (writeOf g t key value cid seq (cur w g)))
| ms_config g n k res : (* [configPoller] proposed the configuration it was told *)
    g <> 0 -> 0 <= n -> applySOp g (ConfigOp (cfg n)) (cur w g) = (k, res) ->
    mstep w (setCore g k w)
| ms_pull g k order p servers n ss :
    g <> 0 -> k ∈ seen w g -> (p, servers, n, ss) ∈ pullRequests order k ->
    mstep w (addPull (g, p, n, ss) w)
| ms_pull_reply g p n ss k data d :
    (g, p, n, ss) ∈ pulls w -> k ∈ seen w p -> PullShard true n ss k = (SOK, data, d) ->
    mstep w (propose g (shardPuller_propose n ss data d) w)
| ms_gc g k order p servers n ss :
    g <> 0 -> k ∈ seen w g -> (p, servers, n, ss) ∈ gcRequests order k ->
    mstep w (addDelete (g, p, n, ss) w)
| ms_delete g p n ss k op :
    (g, p, n, ss) ∈ deletes w -> k ∈ seen w p -> DeleteShard true n ss k = inr op ->
    mstep w (propose p op w)
| ms_delete_reply g p n ss k : (* answered [OK], at once or after some command was applied *)
    (g, p, n, ss) ∈ deletes w -> k ∈ seen w p -> DeleteShard true n ss k <> inl SErrNotReady ->
    mstep w (propose g (shardGC_propose n ss) w)
| ms_apply g op k res :
    g <> 0 -> (g, op) ∈ proposed w -> applySOp g op (cur w g) = (k, res) ->
    mstep w (setCore g k w).

Definition minit : System := mkSystem (fun _ => core0) (fun _ => [core0]) [] [] [] (fun _ => []).

(** What is relied on of the controller: configuration [n] is number [n], the first
    is the empty one, and a shard that has been assigned is not unassigned later. *)
Record controller_ok : Prop := {
  co_zero : cfg 0 = config0;
  co_num n : 0 <= n -> Num (cfg n) = n;
  co_len n : 0 <= n -> zlen (Shards (cfg n)) = NShards;
  co_assigned n m s : 0 <= m <= n -> shardOwner (cfg n) s = 0 -> shardOwner (cfg m) s = 0;
}.

Definition num (k : Core) : Z := Num (config k).
Definition owner (n s : Z) : Z := shardOwner (cfg n) s.

(** The group has taken over the shard for configuration [n], or is past it. *)
Definition gotIt (k : Core) (n s : Z) : Prop :=
  n < num k \/ num k = n /\ exists sh, shards k !! s = Some sh /\ (State sh = Serving \/ State sh = GCing).

(** Every owner of the shard before configuration [n] has given it up. *)
Definition closed (w : System) (n s : Z) : Prop :=
  forall m, 0 <= m < n -> owner m s <> 0 -> m < num (cur w (owner m s)).

(** A shard's state fits the configurations around it. *)
Definition shard_ok (g n s : Z) (o : option Shard) : Prop :=
  match o with
  | None => owner n s <> g
  | Some sh =>
      match State sh with
      | Serving => owner n s = g
      | Pulling | GCing => owner n s = g /\ 0 < n /\ owner (n - 1) s <> g /\ owner (n - 1) s <> 0
      | BePulling => owner n s <> g /\ 0 < n /\ owner (n - 1) s = g
      end
  end.

Record core_ok (g : Z) (k : Core) : Prop := {
  ck_num : 0 <= num k;
  ck_config : config k = cfg (num k);
  ck_prev : 0 < num k -> prevConfig k = cfg (num k - 1);
  ck_shard s : 0 <= s < NShards -> shard_ok g (num k) s (shards k !! s);
  ck_range s : ~ 0 <= s < NShards -> shards k !! s = None;
}.

Definition holds (sh : Shard) : Prop := State sh = Serving \/ State sh = GCing.

Record minv (w : System) : Prop := {
  mi_cur g : cur w g ∈ seen w g;
  mi_ok g k : g <> 0 -> k ∈ seen w g -> core_ok g k;
  mi_mono g k : k ∈ seen w g -> num k <= num (cur w g) /\ forall n s, gotIt k n s -> gotIt (cur w g) n s;
  mi_closed g n s : g <> 0 -> owner n s = g -> gotIt (cur w g) n s -> closed w n s;
  (* an owner that dropped a shard did so after the next one had it *)
  mi_left p k n s : p <> 0 -> k ∈ seen w p -> 0 < n -> owner (n - 1) s = p -> owner n s <> p ->
    0 <= s < NShards ->
    (n < num k \/ num k = n /\ forall sh, shards k !! s = Some sh -> State sh <> BePulling) ->
    gotIt (cur w (owner n s)) n s;
  (* until then, what it holds is the shard's contents *)
  mi_frozen p k s sh : p <> 0 -> k ∈ seen w p -> shards k !! s = Some sh -> State sh = BePulling ->
    ~ gotIt (cur w (owner (num k) s)) (num k) s -> contents (Data sh) (dedup k) (hist w s);
  mi_data g s sh : g <> 0 -> shards (cur w g) !! s = Some sh -> holds sh ->
    contents (Data sh) (dedup (cur w g)) (hist w s);
  mi_once s : increasing (hist w s);
  mi_hist s : hist w s <> [] ->
    0 <= s < NShards /\ exists n, 0 <= n /\ owner n s <> 0 /\ gotIt (cur w (owner n s)) n s;
  mi_pulls g p n ss s : (g, p, n, ss) ∈ pulls w -> s ∈ ss ->
    0 <= s < NShards /\ 0 < n /\ owner n s = g /\ g <> 0 /\ owner (n - 1) s = p /\ p <> g /\ p <> 0;
  mi_deletes g p n ss s : (g, p, n, ss) ∈ deletes w -> s ∈ ss ->
    owner n s = g /\ gotIt (cur w g) n s;
  mi_proposed g op : (g, op) ∈ proposed w ->
    match op with
    | InstallShardOp n ss data d => forall s, s ∈ ss ->
        0 <= n /\ g <> 0 /\ owner n s = g /\ closed w n s /\
        (~ gotIt (cur w g) n s -> contents (go_map_get ∅ data s) d (hist w s))
    | DeleteShardOp n ss => forall s, s ∈ ss -> gotIt (cur w (owner n s)) n s
    | _ => False
    end;
}.

Hypothesis Hcfg : controller_ok.

Lemma owner_assigned n s : 0 < n -> owner (n - 1) s <> 0 -> owner n s <> 0.
Proof. intros Hn Hp H0. apply Hp. apply (co_assigned Hcfg n); [lia|done]. Qed.

Lemma shard_in_range g k s sh : core_ok g k -> shards k !! s = Some sh -> 0 <= s < NShards.
Proof.
  intros Hk Hs. destruct (decide (0 <= s < NShards)); [done|].
  rewrite (ck_range _ _ Hk) in Hs; done.
Qed.

Lemma holds_owner g k s sh :
  core_ok g k -> shards k !! s = Some sh -> holds sh -> owner (num k) s = g /\ gotIt k (num k) s.
Proof.
  intros Hk Hs Hh. split; [|right; split; [done|]; eauto].
  pose proof (ck_shard _ _ Hk s (shard_in_range _ _ _ _ Hk Hs)) as Hok. rewrite Hs in Hok.
  unfold shard_ok in Hok. destruct Hh as [E|E]; rewrite E in Hok; tauto.
Qed.

Lemma bepulling_owner p k s sh :
  core_ok p k -> shards k !! s = Some sh -> State sh = BePulling ->
  0 <= s < NShards /\ 0 < num k /\ owner (num k - 1) s = p /\ owner (num k) s <> p.
Proof.
  intros Hk Hs Hst. pose proof (shard_in_range _ _ _ _ Hk Hs) as Hr. split; [done|].
  pose proof (ck_shard _ _ Hk s Hr) as Hok. rewrite Hs in Hok. unfold shard_ok in Hok. rewrite Hst in Hok. tauto.
Qed.

Section excl.
Context (w : System) (Hw : minv w).

Lemma cur_ok g : g <> 0 -> core_ok g (cur w g).
Proof. intros. apply (mi_ok _ Hw); [done|apply (mi_cur _ Hw)]. Qed.

(** A group that holds a shard is the last to have taken it over. *)
Lemma holder_latest x s shx n :
  x <> 0 -> shards (cur w x) !! s = Some shx -> holds shx -> 0 <= n -> closed w n s -> owner n s <> 0 ->
  n <= num (cur w x) /\ gotIt (cur w (owner n s)) n s.
Proof.
  intros Hx Hs Hh Hn0 Hc Hn. destruct (holds_owner _ _ _ _ (cur_ok x Hx) Hs Hh) as [Ho Hg].
  pose proof (ck_num _ _ (cur_ok x Hx)) as H0.
  destruct (Z.lt_trichotomy n (num (cur w x))) as [Hlt|[->|Hgt]].
  - split; [lia|]. left. apply (mi_closed _ Hw x (num (cur w x)) s); auto.
  - split; [lia|]. by rewrite Ho.
  - specialize (Hc (num (cur w x)) ltac:(lia)). rewrite Ho in Hc. specialize (Hc Hx). lia.
Qed.

Lemma holder_unique x y s shx shy :
  x <> 0 -> y <> 0 -> shards (cur w x) !! s = Some shx -> holds shx ->
  shards (cur w y) !! s = Some shy -> holds shy -> x = y.
Proof.
  intros Hx Hy Hsx Hhx Hsy Hhy.
  destruct (holds_owner _ _ _ _ (cur_ok x Hx) Hsx Hhx) as [Hox Hgx].
  destruct (holds_owner _ _ _ _ (cur_ok y Hy) Hsy Hhy) as [Hoy Hgy].
  destruct (holder_latest x s shx (num (cur w y))) as [Hle _]; try done.
  { apply cur_ok, Hy. } { by apply (mi_closed _ Hw y). } { by rewrite Hoy. }
  destruct (holder_latest y s shy (num (cur w x))) as [Hle' _]; try done.
  { apply cur_ok, Hx. } { by apply (mi_closed _ Hw x). } { by rewrite Hox. }
  assert (num (cur w x) = num (cur w y)) as E by lia. congruence.
Qed.

(** When a copy is being given up, all earlier owners have given up theirs. *)
Lemma bepulling_closed p k s sh :
  p <> 0 -> k ∈ seen w p -> shards k !! s = Some sh -> State sh = BePulling ->
  closed w (num k) s /\ owner (num k) s <> 0.
Proof.
  intros Hp Hk Hs Hst. destruct (bepulling_owner _ _ _ _ (mi_ok _ Hw _ _ Hp Hk) Hs Hst) as (Hr & H0 & Ho & Hne).
  destruct (mi_mono _ Hw _ _ Hk) as [Hle _].
  split; [|apply owner_assigned; [done|by rewrite Ho]].
  assert (closed w (num k - 1) s) as Hc.
  { apply (mi_closed _ Hw p); [done|done|]. left. lia. }
  intros m Hm Hom. destruct (decide (m = num k - 1)) as [->|]; [rewrite Ho; lia|]. apply Hc; [lia|done].
Qed.

(** While a group holds a shard no other copy counts. *)
Lemma holder_no_frozen x s shx p k sh :
  x <> 0 -> shards (cur w x) !! s = Some shx -> holds shx ->
  p <> 0 -> k ∈ seen w p -> shards k !! s = Some sh -> State sh = BePulling ->
  gotIt (cur w (owner (num k) s)) (num k) s.
Proof.
  intros Hx Hsx Hhx Hp Hk Hs Hst. destruct (bepulling_closed _ _ _ _ Hp Hk Hs Hst) as [Hc Ho].
  pose proof (ck_num _ _ (mi_ok _ Hw _ _ Hp Hk)). by apply (holder_latest x s shx).
Qed.

(** A group's next state: the invariant holds if its own part does. *)
Lemma minv_setCore g k hist' :
  let w' := mkSystem (upd (cur w) g k) (upd (seen w) g (k :: seen w g)) (pulls w) (deletes w)
              (proposed w) hist' in
  g <> 0 -> core_ok g k ->
  num (cur w g) <= num k -> (forall n s, gotIt (cur w g) n s -> gotIt k n s) ->
  (forall n s, owner n s = g -> gotIt k n s -> closed w' n s) ->
  (forall n s, 0 < n -> owner (n - 1) s = g -> owner n s <> g -> 0 <= s < NShards ->
     (n < num k \/ num k = n /\ forall sh, shards k !! s = Some sh -> State sh <> BePulling) ->
     gotIt (cur w (owner n s)) n s) ->
  (forall s sh, shards k !! s = Some sh -> State sh = BePulling ->
     ~ gotIt (cur w (owner (num k) s)) (num k) s -> contents (Data sh) (dedup k) (hist' s)) ->
  (forall s sh, shards k !! s = Some sh -> holds sh -> contents (Data sh) (dedup k) (hist' s)) ->
  (forall s, increasing (hist' s)) ->
  (forall s, hist' s = hist w s \/ exists sh, shards (cur w g) !! s = Some sh /\ holds sh) ->
  minv w'.
Proof.
  intros w' Hg Hok Hnum Hgot Hcl Hleft Hfro Hdat Hinc Hh.
  assert (forall g', num (cur w g') <= num (cur w' g')) as Hn'.
  { intros g'. simpl. unfold upd. case_decide; [by subst|lia]. }
  assert (forall g' n s, gotIt (cur w g') n s -> gotIt (cur w' g') n s) as Hg'.
  { intros g' n s. simpl. unfold upd. case_decide; [subst|]; auto. }
  assert (forall n s, closed w n s -> closed w' n s) as Hc'.
  { intros n s Hc m Hm Ho. specialize (Hc m Hm Ho). specialize (Hn' (owner m s)). lia. }
  assert (forall g' k', k' ∈ seen w' g' -> k' ∈ seen w g' \/ g' = g /\ k' = k) as Hseen.
  { intros g' k'. simpl. unfold upd. case_decide; [subst|by left].
    intros [->|?]%elem_of_cons; auto. }
  split.
  - intros g'. simpl. unfold upd. case_decide; [by left|apply (mi_cur _ Hw)].
  - intros g' k' H0 [Hin|[-> ->]]%Hseen; [by apply (mi_ok _ Hw)|done].
  - intros g' k' [Hin|[-> ->]]%Hseen.
    + destruct (mi_mono _ Hw _ _ Hin) as [? ?]. specialize (Hn' g'). split; [lia|auto].
    + simpl. rewrite upd_eq. auto with lia.
  - intros g' n s H0 Ho. simpl. unfold upd. case_decide; [subst; auto|].
    intros ?. by eapply Hc', (mi_closed _ Hw).
  - intros p k' n s H0 [Hin|[-> ->]]%Hseen ? ? ? ? ?; apply Hg'; [by eapply (mi_left _ Hw p k')|auto].
  - intros p k' s sh H0 [Hin|[-> ->]]%Hseen Hs Hst Hno; [|eauto].
    assert (~ gotIt (cur w (owner (num k') s)) (num k') s) as Hno' by auto.
    simpl. destruct (Hh s) as [->|(shg & ? & ?)]; [by eapply (mi_frozen _ Hw)|].
    destruct Hno'. by eapply (holder_no_frozen g s shg p k' sh).
  - intros g' s sh H0. simpl. unfold upd. case_decide as E; [subst; auto|]. intros Hs Hhs.
    destruct (Hh s) as [->|(shg & ? & ?)]; [by eapply (mi_data _ Hw)|].
    destruct E. by eapply (holder_unique g' g).
  - exact Hinc.
  - intros s Hne. destruct (Hh s) as [E|(sh & Hs & Hhs)].
    + simpl in Hne. rewrite E in Hne. destruct (mi_hist _ Hw s Hne) as (? & n & ? & ? & ?). eauto 6.
    + pose proof (cur_ok g Hg) as Hck. destruct (holds_owner _ _ _ _ Hck Hs Hhs) as [Ho ?].
      split; [by eapply shard_in_range|]. exists (num (cur w g)). rewrite Ho.
      split_and!; [apply Hck|done|auto].
  - apply (mi_pulls _ Hw).
  - intros ? ? ? ? ? Hin Hs. destruct (mi_deletes _ Hw _ _ _ _ _ Hin Hs). auto.
  - intros g' op Hin. pose proof (mi_proposed _ Hw _ _ Hin) as Hp. destruct op as [| |n ss data d|n ss|]; try done.
    + intros s Hs. destruct (Hp s Hs) as (H0 & Hg0 & Ho & Hc & Hd). split_and!; auto. intros Hno.
      assert (~ gotIt (cur w g') n s) as Hno' by auto.
      simpl. destruct (Hh s) as [->|(sh & ? & ?)]; [auto|]. destruct Hno'. rewrite <- Ho.
      apply (holder_latest g s sh); try done. by rewrite Ho.
    + intros s Hs. apply Hg', Hp, Hs.
Qed.

(** The same, when the group's shards and configuration stay as they are. *)
Lemma minv_quiet g k hist' :
  g <> 0 -> k = cur w g -> (forall s, hist' s = hist w s) ->
  minv (mkSystem (upd (cur w) g k) (upd (seen w) g (k :: seen w g)) (pulls w) (deletes w) (proposed w) hist').
Proof.
  intros Hg -> Hh. pose proof (cur_ok g Hg) as Hok. pose proof (mi_cur _ Hw g) as Hin.
  apply minv_setCore; try done.
  - intros n s Ho Hgk. pose proof (mi_closed _ Hw g n s Hg Ho Hgk) as Hcl.
    intros m Hm Hom. specialize (Hcl m Hm Hom). simpl. unfold upd. case_decide as E; [rewrite <- E|]; done.
  - intros n s. intros. by eapply (mi_left _ Hw g (cur w g)).
  - intros s sh. rewrite Hh. intros. by eapply (mi_frozen _ Hw g (cur w g)).
  - intros s sh. rewrite Hh. by apply (mi_data _ Hw).
  - intros s. rewrite Hh. apply (mi_once _ Hw).
  - intros s. left. apply Hh.
Qed.

(** ** Client operations *)

Lemma applyClientOp_cases g t key value cid seq k :
  let k' := (applyClientOp g t key value cid seq k).1 in
  let wr := writeOf g t key value cid seq k in
  let s := key2shard key in
  (k' = k /\ wr = []) \/
  exists sh x, shards k !! s = Some sh /\ State sh = Serving /\ wr = [x] /\
    shards k' = <[s := mkShard (applyWrite (Data sh) x) Serving]> (shards k) /\
    config k' = config k /\ prevConfig k' = prevConfig k /\
    dedup k' = <[w_cid x := w_seq x]> (dedup k) /\ forall last, dedup k !! w_cid x = Some last -> last < w_seq x.
Proof.
  unfold applyClientOp, writeOf, canServe. set (s := key2shard key).
  destruct (negb _); [by left|]. destruct (shards k !! s) as [sh|] eqn:Hs; [|by left].
  case_bool_decide as Hst; [|by left]. simpl.
  destruct t; [left; by case_match|..];
    (destruct (dedup k !! cid) as [last|] eqn:Hd; [destruct (Z.leb_spec seq last); [by left|]|]; right;
     eexists sh, _; split_and!; try done; simpl; try (by rewrite Hst); rewrite Hd; naive_solver).
Qed.

Lemma minv_write g s sh x k :
  g <> 0 -> shards (cur w g) !! s = Some sh -> State sh = Serving ->
  shards k = <[s := mkShard (applyWrite (Data sh) x) Serving]> (shards (cur w g)) ->
  config k = config (cur w g) -> prevConfig k = prevConfig (cur w g) ->
  dedup k = <[w_cid x := w_seq x]> (dedup (cur w g)) ->
  (forall last, dedup (cur w g) !! w_cid x = Some last -> last < w_seq x) ->
  minv (w |> setCore g k |> addWrites s [x]).
Proof.
  intros Hg Hs Hst Hk Hc Hp Hd Hlt. pose proof (dedup_le_insert _ _ _ Hlt) as Hle. rewrite <- Hd in Hle.
  assert (contents (Data sh) (dedup (cur w g)) (hist w s)) as Hcon by (apply (mi_data _ Hw g); [done|done|by left]). pose proof (cur_ok g Hg) as Hok. pose proof (mi_cur _ Hw g) as Hin.
  assert (num k = num (cur w g)) as Hn by (unfold num; by rewrite Hc).
  assert (forall s' sh', shards k !! s' = Some sh' -> s' <> s -> shards (cur w g) !! s' = Some sh') as Hother.
  { intros s' sh'. rewrite Hk. intros H1 ?. by rewrite lookup_insert_ne in H1. }
  assert (forall n s', gotIt k n s' <-> gotIt (cur w g) n s') as Hgot.
  { intros n s'. unfold gotIt. rewrite Hn, Hk. destruct (decide (s' = s)) as [->|].
    - rewrite lookup_insert_eq, Hs. split; intros [?|[? _]]; auto; right; split; eauto.
    - by rewrite lookup_insert_ne. }
  apply minv_setCore; rewrite ?Hn; try done.
  - destruct Hok. split; rewrite ?Hn, ?Hc, ?Hp; try done.
    + intros s' Hs'. rewrite Hk. destruct (decide (s' = s)) as [->|]; [|by rewrite lookup_insert_ne; auto].
      rewrite lookup_insert_eq. specialize (ck_shard0 s Hs'). rewrite Hs in ck_shard0.
      unfold shard_ok in *. by rewrite Hst in ck_shard0.
    + intros s' Hs'. rewrite Hk, lookup_insert_ne; [auto|]. intros ->.
      apply Hs'. by eapply shard_in_range; [apply cur_ok|].
  - intros n s'. apply Hgot.
  - intros n s' Ho Hgk. apply Hgot in Hgk. pose proof (mi_closed _ Hw g n s' Hg Ho Hgk) as Hcl.
    intros m Hm Hom. specialize (Hcl m Hm Hom). simpl. unfold upd. case_decide as E; [rewrite Hn, <- E|]; done.
  - intros n s' ? ? ? ? Hx. eapply (mi_left _ Hw g (cur w g)); try done.
    destruct Hx as [?|[? Hx]]; [by left|right]. split; [done|]. intros sh' Hs'. 
    destruct (decide (s' = s)) as [->|]; [rewrite Hs in Hs'; simplify_eq; by rewrite Hst|].
    apply Hx. rewrite Hk. by rewrite lookup_insert_ne.
  - intros s' sh' Hs' Hb Hno. simpl. destruct (decide (s' = s)) as [->|].
    { rewrite Hk, lookup_insert_eq in Hs'. by simplify_eq/=. }
    rewrite upd_ne by done. eapply contents_le; [done|]. by eapply (mi_frozen _ Hw g (cur w g)); eauto.
  - intros s' sh' Hs' Hh. simpl. destruct (decide (s' = s)) as [->|].
    + rewrite upd_eq. rewrite Hk, lookup_insert_eq in Hs'. simplify_eq. simpl.
      rewrite Hd. by apply contents_write.
    + rewrite upd_ne by done. eapply contents_le; [done|]. by eapply (mi_data _ Hw g); eauto.
  - intros s'. simpl. unfold upd. case_decide; [subst|apply (mi_once _ Hw)].
    eapply increasing_write; [apply Hcon|done|apply (mi_once _ Hw)].
  - intros s'. simpl. destruct (decide (s' = s)) as [->|]; [right; exists sh; split; [done|by left]|left; by rewrite upd_ne].
Qed.

Lemma minv_client g t key value cid seq k res :
  g <> 0 -> applySOp g (ClientOp t key value cid seq) (cur w g) = (k, res) ->
  minv (w |> setCore g k |> addWrites (key2shard key) (writeOf g t key value cid seq (cur w g))).
Proof.
  intros Hg Ha. simpl in Ha. pose proof (applyClientOp_cases g t key value cid seq (cur w g)) as Hc.
  rewrite Ha in Hc. simpl in Hc. destruct Hc as [[-> ->]|(sh & x & Hs & Hst & -> & Hk & Hcf & Hp & Hd & Hlt)].
  - apply minv_quiet; try done. intros s. simpl. unfold upd. case_decide; [subst; by rewrite app_nil_r|done].
  - by eapply minv_write.
Qed.

(** ** Configurations *)

Lemma owner_range n s : 0 <= n -> owner n s <> 0 -> 0 <= s < NShards.
Proof.
  intros Hn Ho. rewrite <- (co_len Hcfg n Hn). unfold owner, shardOwner in Ho.
  destruct (Shards (cfg n) @! s) as [x|] eqn:E; [|done]. by eapply go_index_Some_bound.
Qed.

(** A settled group serves what it owns. *)
Lemma settled_serving g s :
  g <> 0 -> settled (cur w g) = true -> owner (num (cur w g)) s = g ->
  exists sh, shards (cur w g) !! s = Some sh /\ State sh = Serving.
Proof.
  intros Hg Hset Ho. apply bool_decide_eq_true in Hset. pose proof (cur_ok g Hg) as Hok.
  assert (0 <= s < NShards) as Hr by (eapply owner_range; [apply Hok|by rewrite Ho]).
  pose proof (ck_shard _ _ Hok s Hr) as Hsh. destruct (shards (cur w g) !! s) as [sh|] eqn:E; [|done].
  exists sh. split; [done|]. by eapply Hset.
Qed.

(** Before its first owner takes it, a shard has no writes. *)
Lemma unowned_no_writes g s :
  g <> 0 -> owner (num (cur w g)) s = 0 -> owner (num (cur w g) + 1) s = g -> hist w s = [].
Proof.
  intros Hg H0 Ho. pose proof (ck_num _ _ (cur_ok g Hg)) as Hn.
  destruct (decide (hist w s = [])) as [|Hne]; [done|exfalso].
  destruct (mi_hist _ Hw s Hne) as (_ & n & Hn0 & Hon & Hgot).
  assert (num (cur w g) < n) as Hlt.
  { destruct (Z.lt_ge_cases (num (cur w g)) n); [done|]. destruct Hon.
    apply (co_assigned Hcfg (num (cur w g))); [lia|done]. }
  destruct (decide (n = num (cur w g) + 1)) as [->|].
  - rewrite Ho in Hgot. destruct Hgot as [?|[? _]]; lia.
  - pose proof (mi_closed _ Hw _ n s Hon eq_refl Hgot) as Hc.
    specialize (Hc (num (cur w g) + 1) ltac:(lia)). rewrite Ho in Hc. specialize (Hc Hg). lia.
Qed.

(** The shards of a group after it advanced. *)
Definition advanced (g : Z) (k : Core) : Core :=
  mkCore (foldl (migrateShard g (config k) (cfg (num k + 1))) (shards k) shardIndices)
    (dedup k) (config k) (cfg (num k + 1)).

Lemma advanced_num g : g <> 0 -> num (advanced g (cur w g)) = num (cur w g) + 1.
Proof.
  intros Hg. unfold num at 1, advanced. simpl. apply (co_num Hcfg).
  pose proof (ck_num _ _ (cur_ok g Hg)). lia.
Qed.

Lemma advanced_lookup g s :
  g <> 0 -> 0 <= s < NShards -> settled (cur w g) = true ->
  let n := num (cur w g) in
  (owner (n + 1) s <> g /\ owner n s <> g /\ shards (advanced g (cur w g)) !! s = None) \/
  (owner (n + 1) s <> g /\ owner n s = g /\ exists sh, shards (cur w g) !! s = Some sh /\ State sh = Serving /\
     shards (advanced g (cur w g)) !! s = Some (mkShard (Data sh) BePulling)) \/
  (owner (n + 1) s = g /\ owner n s = g /\ exists sh, shards (cur w g) !! s = Some sh /\ State sh = Serving /\
     shards (advanced g (cur w g)) !! s = Some (mkShard (Data sh) Serving)) \/
  (owner (n + 1) s = g /\ owner n s = 0 /\ shards (advanced g (cur w g)) !! s = Some newShard) \/
  (owner (n + 1) s = g /\ owner n s <> g /\ owner n s <> 0 /\
     shards (advanced g (cur w g)) !! s = Some (mkShard ∅ Pulling)).
Proof.
  intros Hg Hr Hset n. pose proof (cur_ok g Hg) as Hok.
  unfold advanced. cbn [shards]. rewrite migrate_lookup, decide_True by done.
  rewrite (ck_config _ _ Hok). fold n. unfold migrated. fold (owner n s) (owner (n + 1) s).
  pose proof (ck_shard _ _ Hok s Hr) as Hsh. fold n in Hsh.
  assert (owner n s <> g -> shards (cur w g) !! s = None) as Hnone.
  { intros Hne. destruct (shards (cur w g) !! s) as [sh|] eqn:E; [|done].
    apply bool_decide_eq_true in Hset. simpl in Hsh. rewrite (Hset _ _ E) in Hsh. done. }
  destruct (Z.eqb_spec (owner (n + 1) s) g) as [Ho1|Ho1], (Z.eqb_spec (owner n s) g) as [Ho|Ho]; simpl.
  - right; right; left. destruct (settled_serving g s Hg Hset Ho) as (sh & Hs & Hst).
    split_and!; [done..|]. exists sh. by rewrite Hs.
  - right; right; right. rewrite (Hnone Ho). destruct (Z.eqb_spec (owner n s) 0); [left|right]; done.
  - right; left. destruct (settled_serving g s Hg Hset Ho) as (sh & Hs & Hst).
    split_and!; [done..|]. exists sh. by rewrite Hs.
  - left. by rewrite (Hnone Ho).
Qed.

Lemma advanced_ok g : g <> 0 -> settled (cur w g) = true -> core_ok g (advanced g (cur w g)).
Proof.
  intros Hg Hset. pose proof (cur_ok g Hg) as Hok. pose proof (ck_num _ _ Hok) as H0.
  pose proof (advanced_num g Hg) as Hn. split; rewrite ?Hn; try lia; try done.
  - intros _. simpl. rewrite (ck_config _ _ Hok). f_equal. lia.
  - intros s Hr. destruct (advanced_lookup g s Hg Hr Hset)
      as [(? & ? & ->)|[(? & ? & sh & ? & ? & ->)|[(? & ? & sh & ? & ? & ->)|[(? & ? & ->)|(? & ? & ? & ->)]]]];
      simpl; replace (num (cur w g) + 1 - 1) with (num (cur w g)) by lia; done || (split_and!; done || lia).
  - intros s Hr. unfold advanced. cbn [shards]. rewrite migrate_lookup, decide_False by done. by apply (ck_range _ _ Hok).
Qed.

(** Serving a shard in the next configuration needs all earlier owners to be done. *)
Lemma advanced_closed g n s :
  g <> 0 -> settled (cur w g) = true -> owner n s = g -> gotIt (advanced g (cur w g)) n s ->
  closed (setCore g (advanced g (cur w g)) w) n s.
Proof.
  intros Hg Hset Ho Hgot. pose proof (advanced_num g Hg) as Hn. set (k := advanced g (cur w g)) in *.
  pose proof (ck_num _ _ (cur_ok g Hg)) as Hc0.
  assert (forall m, 0 <= m <= num (cur w g) -> owner m s = g -> closed w m s) as Hpast.
  { intros m Hm Hom. apply (mi_closed _ Hw g); [done..|]. unfold gotIt.
    destruct (decide (m = num (cur w g))) as [->|]; [right|left; lia].
    destruct (settled_serving g s Hg Hset Hom) as (sh & Hs & Hst). split; [done|]. eauto. }
  intros m Hm Hom. destruct (decide (owner m s = g)) as [E|E].
  { simpl. rewrite E, upd_eq. destruct Hgot as [?|[? _]]; lia. }
  simpl. rewrite upd_ne by done. assert (n <= num (cur w g) \/ n = num (cur w g) + 1) as [Hle|Heq].
  { destruct Hgot as [?|[? _]]; lia. }
  { apply (Hpast n); [lia|done..]. }
  assert (0 <= s < NShards) as Hr by (eapply (owner_range n); [lia|by rewrite Ho]).
  destruct Hgot as [?|(_ & sh & Hs & Hh)]; [lia|]. subst n.
  destruct (advanced_lookup g s Hg Hr Hset)
    as [(? & ? & Hk)|[(? & ? & ? & ? & ? & Hk)|[(? & Ho' & ? & ? & ? & Hk)|[(? & Ho' & Hk)|(? & ? & ? & Hk)]]]]; try done.
  - destruct (decide (m = num (cur w g))) as [->|]; [done|]. apply (Hpast (num (cur w g))); [lia|done|lia|done].
  - destruct Hom. apply (co_assigned Hcfg (num (cur w g))); [lia|done].
  - unfold k in Hs. rewrite Hk in Hs. simplify_eq. by destruct Hh.
Qed.

Lemma minv_advance g :
  g <> 0 -> settled (cur w g) = true -> minv (setCore g (advanced g (cur w g)) w).
Proof.
  intros Hg Hset. pose proof (advanced_num g Hg) as Hn. pose proof (mi_cur _ Hw g) as Hin.
  pose proof (cur_ok g Hg) as Hok. pose proof Hset as Hall. apply bool_decide_eq_true in Hall.
  apply minv_setCore; try rewrite Hn; try lia; auto using advanced_ok.
  - intros n s Hgot. left. rewrite Hn. destruct Hgot as [?|[? _]]; lia.
  - intros n s ? ?. by apply advanced_closed.
  - intros n s Hn0 Hp Ho Hr Hx.
    destruct (decide (n = num (cur w g) + 1)) as [->|].
    + replace (num (cur w g) + 1 - 1) with (num (cur w g)) in Hp by lia.
      destruct (advanced_lookup g s Hg Hr Hset)
        as [(? & ? & Hk)|[(? & ? & ? & ? & ? & Hk)|[(? & Ho' & ? & ? & ? & Hk)|[(? & Ho' & Hk)|(? & ? & ? & Hk)]]]]; try done.
      destruct Hx as [?|[_ Hx]]; [lia|]. by destruct (Hx _ Hk).
    + eapply (mi_left _ Hw g (cur w g)); try done.
      destruct (decide (n = num (cur w g))) as [->|]; [right|left; lia].
      split; [done|]. intros sh Hs. by rewrite (Hall _ _ Hs).
  - intros s sh Hs Hb _. pose proof (shard_in_range _ _ _ _ (advanced_ok g Hg Hset) Hs) as Hr.
    destruct (advanced_lookup g s Hg Hr Hset)
      as [(? & ? & Hk)|[(? & ? & sh0 & Hs0 & Hst & Hk)|[(? & Ho' & ? & ? & ? & Hk)|[(? & Ho' & Hk)|(? & ? & ? & Hk)]]]];
      rewrite Hk in Hs; simplify_eq; try done.
    simpl. apply (mi_data _ Hw g); [done..|by left].
  - intros s sh Hs Hh. pose proof (shard_in_range _ _ _ _ (advanced_ok g Hg Hset) Hs) as Hr.
    destruct (advanced_lookup g s Hg Hr Hset)
      as [(? & ? & Hk)|[(? & ? & sh0 & Hs0 & Hst & Hk)|[(? & Ho' & sh0 & Hs0 & Hst & Hk)|[(? & Ho' & Hk)|(? & ? & ? & Hk)]]]];
      rewrite Hk in Hs; simplify_eq; try (by destruct Hh).
    + simpl. apply (mi_data _ Hw g); [done..|by left].
    + simpl. rewrite (unowned_no_writes g s) by done. split; [done|]. by intros x ?%not_elem_of_nil.
  - intros s. apply (mi_once _ Hw).
Qed.

Lemma minv_config g n k res :
  g <> 0 -> 0 <= n -> applySOp g (ConfigOp (cfg n)) (cur w g) = (k, res) -> minv (setCore g k w).
Proof.
  intros Hg Hn Ha. cbn [applySOp] in Ha. injection Ha as <- _. unfold applyConfig.
  rewrite (co_num Hcfg) by done. destruct (Z.eqb_spec n (Num (config (cur w g)) + 1)) as [->|]; cbn [negb].
  - destruct (settled (cur w g)) eqn:Hset; cbn [negb]; [by apply minv_advance|by apply minv_quiet].
  - by apply minv_quiet.
Qed.

(** ** Installing and deleting *)

(** What InstallShard and DeleteShard may do to a shard of group [g]. *)
Inductive handover (dd : gmap Z Z) (g s : Z) : option Shard -> option Shard -> Prop :=
| ho_same o : handover dd g s o o
| ho_install d d' :
    closed w (num (cur w g)) s -> contents d' dd (hist w s) ->
    handover dd g s (Some (mkShard d Pulling)) (Some (mkShard d' GCing))
| ho_serve d : handover dd g s (Some (mkShard d GCing)) (Some (mkShard d Serving))
| ho_drop d :
    gotIt (cur w (owner (num (cur w g)) s)) (num (cur w g)) s ->
    handover dd g s (Some (mkShard d BePulling)) None.

Lemma minv_handover g k :
  g <> 0 -> config k = config (cur w g) -> prevConfig k = prevConfig (cur w g) ->
  dedup_le (dedup (cur w g)) (dedup k) ->
  (forall s, handover (dedup k) g s (shards (cur w g) !! s) (shards k !! s)) ->
  minv (setCore g k w).
Proof.
  intros Hg Hc Hp Hle Hho. pose proof (cur_ok g Hg) as Hok. pose proof (mi_cur _ Hw g) as Hin.
  assert (num k = num (cur w g)) as Hn by (unfold num; by rewrite Hc).
  apply minv_setCore; rewrite ?Hn; try done; try (intros; by left).
  - split; rewrite ?Hn, ?Hc, ?Hp; try apply Hok.
    + intros s Hr. pose proof (ck_shard _ _ Hok s Hr) as Hs. specialize (Hho s).
      revert Hs Hho. generalize (shards (cur w g) !! s) (shards k !! s). intros o o' Hs Hho.
      destruct Hho; simpl in *; tauto.
    + intros s Hr. pose proof (ck_range _ _ Hok s Hr) as Hs. specialize (Hho s). rewrite Hs in Hho.
      by inversion Hho.
  - intros n s [?|(? & sh & Hs & Hh)]; [left; lia|right]. split; [lia|]. specialize (Hho s). rewrite Hs in Hho.
    inversion Hho; subst; eauto; simpl in Hh; by destruct Hh.
  - intros n s Ho Hgk.
    assert (closed w n s) as Hcl.
    { destruct Hgk as [?|(? & sh & Hs & Hh)]; [apply (mi_closed _ Hw g); try done; left; lia|].
      rewrite Hn in *. subst n. specialize (Hho s). rewrite Hs in Hho.
      assert (closed w (num (cur w g)) s \/ exists sh0, shards (cur w g) !! s = Some sh0 /\ holds sh0)
        as [?|(sh0 & Hs0 & Hh0)]; [|done|].
      { inversion Hho as [o E1 E2|d d' ? ? E1 E2|d E1 E2|];
          [right; exists sh; split; [congruence|done]|by left|].
        right. exists (mkShard d GCing). split; [congruence|by right]. }
      apply (mi_closed _ Hw g); [done..|]. right. eauto. }
    intros m Hm Hom. specialize (Hcl m Hm Hom). simpl. unfold upd. case_decide as E; [rewrite Hn, <- E|]; done.
  - intros n s ? ? ? ? Hx. specialize (Hho s).
    destruct Hx as [?|[Hx0 Hx]]; [eapply (mi_left _ Hw g (cur w g)); try done; by left|]. subst n.
    inversion Hho as [o E1 E2|d d' ? ? E1 E2|d E1 E2|d ? E1 E2]; [| | |done];
      (eapply (mi_left _ Hw g (cur w g)); try done; right; split; [done|]; intros sh Hs;
       rewrite Hs in E1); [apply Hx; congruence|by simplify_eq|by simplify_eq].
  - intros s sh Hs Hb Hno. specialize (Hho s). rewrite Hs in Hho.
    inversion Hho; subst; try done. eapply contents_le; [done|]. by eapply (mi_frozen _ Hw g (cur w g)).
  - intros s sh Hs Hh. specialize (Hho s). rewrite Hs in Hho.
    inversion Hho as [o E1 E2|d d' ? ? E1 E2|d E1 E2|d ? E1 E2]; subst; simpl in *; try done.
    + eapply contents_le; [done|]. by apply (mi_data _ Hw g).
    + eapply contents_le; [done|]. apply (mi_data _ Hw g s (mkShard d GCing)); [done..|by right].
  - intros s. apply (mi_once _ Hw).
Qed.

Lemma minv_apply g op k res :
  g <> 0 -> (g, op) ∈ proposed w -> applySOp g op (cur w g) = (k, res) -> minv (setCore g k w).
Proof.
  intros Hg Hin Ha. pose proof (mi_proposed _ Hw _ _ Hin) as Hp. pose proof (cur_ok g Hg) as Hok.
  destruct op as [| |n ss data d|n ss|]; try done; simpl in Ha; injection Ha as <- _.
  - unfold applyInstallShard. destruct (Z.eqb_spec n (Num (config (cur w g)))) as [E|]; simpl; [|by apply minv_quiet].
    apply minv_handover; [done..|apply mergeDedup_le|]. intros s. simpl. rewrite install_lookup.
    destruct (decide (s ∈ ss)) as [Hs|]; [|constructor]. destruct (Hp s Hs) as (_ & _ & Ho & Hcl & Hd).
    unfold installed. destruct (shards (cur w g) !! s) as [[dt st]|] eqn:Esh; [|constructor].
    simpl. case_bool_decide as Est; [|constructor]. subst st n. apply ho_install; [done|].
    eapply contents_le; [exact (proj1 (mergeDedup_le d _))|]. apply Hd. intros [Hlt|(_ & sh & Hsh & Hh)]; [unfold num in Hlt; lia|].
    rewrite Esh in Hsh. simplify_eq. by destruct Hh.
  - unfold applyDeleteShard. destruct (Z.eqb_spec n (Num (config (cur w g)))) as [E|]; simpl; [|by apply minv_quiet].
    apply minv_handover; [done..|apply dedup_le_refl|]. intros s. simpl. rewrite delete_lookup.
    destruct (decide (s ∈ ss)) as [Hs|]; [|constructor]. specialize (Hp s Hs). unfold deleted.
    destruct (shards (cur w g) !! s) as [[dt []]|]; simpl; try constructor. by subst n.
Qed.

(** ** Messages *)

Lemma minv_addPull m :
  (forall s, s ∈ m.2 -> 0 <= s < NShards /\ 0 < m.1.2 /\ owner m.1.2 s = m.1.1.1 /\ m.1.1.1 <> 0 /\
     owner (m.1.2 - 1) s = m.1.1.2 /\ m.1.1.2 <> m.1.1.1 /\ m.1.1.2 <> 0) ->
  minv (addPull m w).
Proof.
  intros Hm. destruct Hw. split; try done. simpl.
  intros g p n ss s [<-|Hin]%elem_of_cons Hs; [exact (Hm s Hs)|eauto].
Qed.

Lemma minv_addDelete g p n ss :
  (forall s, s ∈ ss -> owner n s = g /\ gotIt (cur w g) n s) -> minv (addDelete (g, p, n, ss) w).
Proof.
  intros Hm. destruct Hw. split; try done. simpl.
  intros g' p' n' ss' s [[= -> -> -> ->]|Hin]%elem_of_cons Hs; [exact (Hm s Hs)|eauto].
Qed.

Lemma minv_propose g op :
  match op with
  | InstallShardOp n ss data d => forall s, s ∈ ss ->
      0 <= n /\ g <> 0 /\ owner n s = g /\ closed w n s /\
      (~ gotIt (cur w g) n s -> contents (go_map_get ∅ data s) d (hist w s))
  | DeleteShardOp n ss => forall s, s ∈ ss -> gotIt (cur w (owner n s)) n s
  | _ => False
  end -> minv (propose g op w).
Proof.
  intros Hm. destruct Hw. split; try done. simpl.
  intros g' op' [[= -> ->]|Hin]%elem_of_cons; [exact Hm|by apply mi_proposed0].
Qed.

Lemma minv_pull g k order p servers n ss :
  g <> 0 -> k ∈ seen w g -> (p, servers, n, ss) ∈ pullRequests order k -> minv (addPull (g, p, n, ss) w).
Proof.
  intros Hg Hk [-> Hss]%migrationRequests_spec. apply minv_addPull. simpl. intros s Hs.
  pose proof (mi_ok _ Hw _ _ Hg Hk) as Hok. destruct (Hss s Hs) as (sh & Hsh & Hst & Hp).
  pose proof (shard_in_range _ _ _ _ Hok Hsh) as Hr. pose proof (ck_shard _ _ Hok s Hr) as Hso.
  rewrite Hsh in Hso. simpl in Hso. rewrite Hst in Hso. destruct Hso as (Ho & H0 & Hne & Hne0).
  rewrite (ck_prev _ _ Hok H0) in Hp. fold (owner (num k - 1) s) in Hp. rewrite <- Hp. auto 10.
Qed.

Lemma minv_pull_reply g p n ss k data d :
  (g, p, n, ss) ∈ pulls w -> k ∈ seen w p -> PullShard true n ss k = (SOK, data, d) ->
  minv (propose g (shardPuller_propose n ss data d) w).
Proof.
  intros Hin Hk (Hn & -> & Hdata)%PullShard_spec. apply minv_propose. simpl. intros s Hs.
  destruct (mi_pulls _ Hw _ _ _ _ _ Hin Hs) as (Hr & H0 & Ho & Hg & Hop & Hpg & Hp).
  destruct (mi_mono _ Hw _ _ Hk) as [Hle _]. fold (num k) in Hn.
  assert (closed w n s) as Hc.
  { assert (closed w (n - 1) s) as Hc by (apply (mi_closed _ Hw p); [done..|]; left; lia).
    intros m Hm Hom. destruct (decide (m = n - 1)) as [->|]; [rewrite Hop; lia|]. apply Hc; [lia|done]. }
  split_and!; [lia|done..|]. intros Hno. rewrite Hdata by done.
  assert (~ (n < num k \/ num k = n /\ forall sh, shards k !! s = Some sh -> State sh <> BePulling)) as Hx.
  { intros Hx. apply Hno. rewrite <- Ho. eapply (mi_left _ Hw p k); try done. congruence. }
  assert (num k = n) as Hk' by (destruct (decide (num k = n)); [done|]; destruct Hx; left; lia).
  subst n. destruct (shards k !! s) as [sh|] eqn:Hsh; [|destruct Hx; by right].
  destruct (decide (State sh = BePulling)) as [Hst|Hst].
  - eapply (mi_frozen _ Hw p k); try done. by rewrite Ho.
  - destruct Hx. right. split; [done|]. intros sh' [= <-]. done.
Qed.

Lemma minv_gc g k order p servers n ss :
  g <> 0 -> k ∈ seen w g -> (p, servers, n, ss) ∈ gcRequests order k -> minv (addDelete (g, p, n, ss) w).
Proof.
  intros Hg Hk [-> Hss]%migrationRequests_spec. apply minv_addDelete. intros s Hs.
  pose proof (mi_ok _ Hw _ _ Hg Hk) as Hok. destruct (Hss s Hs) as (sh & Hsh & Hst & _).
  destruct (holds_owner _ _ _ _ Hok Hsh ltac:(by right)) as [Ho Hgot].
  split; [done|]. by apply (mi_mono _ Hw _ _ Hk).
Qed.

Lemma minv_delete g p n ss k op :
  (g, p, n, ss) ∈ deletes w -> k ∈ seen w p -> DeleteShard true n ss k = inr op -> minv (propose p op w).
Proof.
  intros Hin _ Hd. unfold DeleteShard in Hd. simpl in Hd. repeat case_match; simplify_eq.
  apply minv_propose. intros s Hs. destruct (mi_deletes _ Hw _ _ _ _ _ Hin Hs) as [-> ?]. done.
Qed.

Lemma minv_delete_reply g p n ss :
  (g, p, n, ss) ∈ deletes w -> minv (propose g (shardGC_propose n ss) w).
Proof.
  intros Hin. apply minv_propose. intros s Hs. destruct (mi_deletes _ Hw _ _ _ _ _ Hin Hs) as [-> ?]. done.
Qed.
End excl.

Lemma minv_init : minv minit.
Proof.
  assert (forall s, owner 0 s = 0) as H00.
  { intros s. unfold owner. rewrite (co_zero Hcfg). unfold shardOwner, go_index. case_match; [|done].
    destruct (Shards config0 !! _) eqn:E; [|done]. simpl. by apply lookup_replicate in E as [-> _]. }
  assert (forall g, g <> 0 -> core_ok g core0) as Hok0.
  { intros g Hg. split; try done.
    - change (num core0) with 0. by rewrite (co_zero Hcfg).
    - intros s _. change (num core0) with 0. replace (shards core0 !! s) with (@None Shard) by done.
      unfold shard_ok. rewrite H00. congruence. }
  split; simpl; try done; try (intros; by match goal with H : _ ∈ [] |- _ => apply not_elem_of_nil in H end).
  - intros g. by left.
  - intros g k Hg ->%list_elem_of_singleton. auto.
  - intros g k ->%list_elem_of_singleton. split; [lia|auto].
  - intros g n s _ _ [Hlt|(_ & sh & Hs & _)]; [|done]. intros m Hm. unfold num in Hlt. simpl in Hlt. lia.
  - intros p k n s _ ->%list_elem_of_singleton Hn _ _ _ [Hlt|[Heq _]]; unfold num in *; simpl in *; lia.
  - by intros p k s sh _ ->%list_elem_of_singleton.
Qed.

Lemma mreachable_minv w : rtc mstep minit w -> minv w.
Proof.
  intros Hr. pattern w. eapply rtc_ind_r; [apply minv_init| |exact Hr]. clear w Hr.
  intros w w' _ Hs Hw. destruct Hs;
    eauto using minv_client, minv_config, minv_pull, minv_pull_reply, minv_gc, minv_delete,
      minv_delete_reply, minv_apply.
Qed.

(** Every entry of a duplicate table is a write some group has made. *)
Definition known (w : System) (dd : gmap Z Z) : Prop :=
  forall c last, dd !! c = Some last -> exists s x, x ∈ hist w s /\ w_cid x = c /\ w_seq x = last.

Definition tables_known (w : System) : Prop :=
  (forall g k, k ∈ seen w g -> known w (dedup k)) /\
  (forall g n ss data d, (g, InstallShardOp n ss data d) ∈ proposed w -> known w d).

Lemma known_more w w' dd : (forall s x, x ∈ hist w s -> x ∈ hist w' s) -> known w dd -> known w' dd.
Proof. intros Hh Hk c last Hl. destruct (Hk c last Hl) as (s & x & Hx & ?). exists s, x. eauto. Qed.

Lemma mergeDedup_known w new old : known w new -> known w old -> known w (mergeDedup new old).
Proof.
  intros Hn Ho c last. unfold mergeDedup. rewrite lookup_merge. unfold diag_None.
  destruct (new !! c) as [a|] eqn:Ea, (old !! c) as [b|] eqn:Eb; simpl; intros E; simplify_eq; [case_match|..]; auto.
Qed.

(** A group's next state, when its table is known. *)
Lemma tables_known_setCore w g k hist' :
  tables_known w -> (forall s x, x ∈ hist w s -> x ∈ hist' s) ->
  let w' := mkSystem (upd (cur w) g k) (upd (seen w) g (k :: seen w g)) (pulls w) (deletes w) (proposed w) hist' in
  known w' (dedup k) -> tables_known w'.
Proof.
  intros [Hs Hp] Hh w' Hk. split; simpl.
  - intros g' k'. unfold upd. case_decide; [subst; intros [->|Hin]%elem_of_cons; [done|]|intros Hin];
      (eapply known_more; [|by eapply Hs]); done.
  - intros g' n ss data d Hin. eapply known_more; [|by eapply Hp]. done.
Qed.

Lemma tables_known_propose w g op :
  tables_known w -> (forall n ss data d, op = InstallShardOp n ss data d -> known w d) -> tables_known (propose g op w).
Proof.
  intros [Hs Hp] Hop. split; [done|]. intros g' n ss data d [[= -> <-]|Hin]%elem_of_cons; [by eapply Hop|by eapply Hp].
Qed.

Lemma tables_known_step w w' : minv w -> mstep w w' -> tables_known w -> tables_known w'.
Proof.
  intros Hw Hs Ht. pose proof Ht as [Hseen Hprop]. pose proof (fun g => Hseen g _ (mi_cur _ Hw g)) as Hcur.
  destruct Hs as [g t key value cid seq k res Hg Ha|g n k res Hg Hn Ha|g k order p servers n ss Hg Hk Hin
    |g p n ss k data d Hin Hk Hpull|g k order p servers n ss Hg Hk Hin|g p n ss k op Hin Hk Hd|g p n ss k Hin Hk Hd|g op k res Hg Hin Ha].
  - simpl in Ha. pose proof (applyClientOp_cases g t key value cid seq (cur w g)) as Hc. rewrite Ha in Hc. simpl in Hc.
    assert (forall s x, x ∈ hist w s -> x ∈ upd (hist w) (key2shard key)
      (hist w (key2shard key) ++ writeOf g t key value cid seq (cur w g)) s) as Hh.
    { intros s x Hx. unfold upd. case_decide; [subst; apply elem_of_app; by left|done]. }
    apply (tables_known_setCore w g k _ Ht Hh).
    destruct Hc as [[-> _]|(sh & x & _ & _ & Ew & _ & _ & _ & Hd & _)]; [eapply known_more; [|apply Hcur]; done|].
    rewrite Hd. intros c last [[<- <-]|[_ Hl]]%lookup_insert_Some.
    + exists (key2shard key), x. split; [|done]. simpl. rewrite upd_eq, Ew. apply elem_of_app. right. by apply list_elem_of_singleton.
    + eapply known_more; [|apply Hcur|exact Hl]. done.
  - simpl in Ha. injection Ha as <- _. apply (tables_known_setCore w g _ (hist w) Ht); [done|].
    unfold applyConfig. repeat case_match; apply Hcur.
  - by split.
  - apply tables_known_propose; [done|]. intros ? ? ? ? [= <- <- <- <-].
    apply PullShard_spec in Hpull as (_ & -> & _). by eapply Hseen.
  - by split.
  - apply tables_known_propose; [done|]. intros ? ? ? ? ->. unfold DeleteShard in Hd. by repeat case_match.
  - by apply tables_known_propose.
  - apply (tables_known_setCore w g k (hist w) Ht); [done|]. destruct op as [t key value cid seq|c|n ss data d|n ss|]; simpl in Ha.
    + by destruct (mi_proposed _ Hw _ _ Hin).
    + injection Ha as <- _. unfold applyConfig. repeat case_match; apply Hcur.
    + injection Ha as <- _. unfold applyInstallShard. case_match; [apply Hcur|].
      apply mergeDedup_known; [by eapply Hprop|apply Hcur].
    + injection Ha as <- _. unfold applyDeleteShard. case_match; apply Hcur.
    + injection Ha as <- _. apply Hcur.
Qed.

Lemma mreachable_known w : rtc mstep minit w -> tables_known w.
Proof.
  intros Hr. pattern w. eapply rtc_ind_r; [| |exact Hr].
  - split; simpl; [by intros g k ->%list_elem_of_singleton|by intros ? ? ? ? ? ?%not_elem_of_nil].
  - intros w1 w2 Hr1 Hs Hk. eapply tables_known_step; [by apply mreachable_minv|done|done].
Qed.

(** C8. Whatever messages are lost, delayed or repeated while configurations change, at most
    one group holds a shard at a time (it serves it, or has got it and is having the old
    copy deleted), so that no other group serves it; and the holder has exactly the writes
    accepted for the shard so far, by it and by every earlier owner, among which each
    request of a client occurs at most once and in order, even if it was retried at several
    groups.  The controller is assumed not to unassign a shard again ([controller_ok]). *)
Theorem shard_migration_safe w g s sh :
  rtc mstep minit w -> g <> 0 -> shards (cur w g) !! s = Some sh -> holds sh ->
  (forall g' sh', g' <> 0 -> shards (cur w g') !! s = Some sh' -> holds sh' -> g' = g) /\
  (forall g', g' <> 0 -> canServe g' s (cur w g') = true -> g' = g) /\
  Data sh = replayWrites (hist w s) /\ increasing (hist w s).
Proof.
  intros Hw%mreachable_minv Hg Hs Hh.
  assert (forall g' sh', g' <> 0 -> shards (cur w g') !! s = Some sh' -> holds sh' -> g' = g) as Hu
    by (intros g' sh' Hg' Hs' Hh'; by eapply (holder_unique w Hw g' g s)).
  split_and!; [done| | |].
  - intros g' Hg' (sh' & Hsh' & Hst')%canServe_serving. apply (Hu g' sh'); [done..|by left].
  - by apply (mi_data _ Hw g).
  - apply (mi_once _ Hw).
Qed.
End migration.

(** ** An executable schedule *)

Section schedule.
Variable cfg : Z -> Config.

(** Indices choose among the states seen and the messages sent. *)
Inductive MEvent :=
| EvClient (g : Z) (t : OpType) (key value : string) (cid seq : Z)
| EvConfig (g n : Z)
| EvPull (g : Z) (i j : nat)
| EvPullReply (j i : nat)
| EvGC (g : Z) (i j : nat)
| EvDelete (j i : nat)
| EvDeleteReply (j i : nat)
| EvApply (j : nat).

Definition mexec (ev : MEvent) (w : System) : option System :=
  match ev with
  | EvClient g t key value cid seq =>
      if g =? 0 then None
      else Some (w |> setCore g (applySOp g (ClientOp t key value cid seq) (cur w g)).1
                   |> addWrites (key2shard key) (writeOf g t key value cid seq (cur w g)))
  | EvConfig g n =>
      if (g =? 0) || (n <? 0) then None
      else Some (setCore g (applySOp g (ConfigOp (cfg n)) (cur w g)).1 w)
  | EvPull g i j =>
      if g =? 0 then None
      else k ← seen w g !! i;
           '(p, _, n, ss) ← pullRequests shardIndices k !! j;
           Some (addPull (g, p, n, ss) w)
  | EvPullReply j i =>
      '(g, p, n, ss) ← pulls w !! j;
      k ← seen w p !! i;
      match PullShard true n ss k with
      | (SOK, data, d) => Some (propose g (shardPuller_propose n ss data d) w)
      | _ => None
      end
  | EvGC g i j =>
      if g =? 0 then None
      else k ← seen w g !! i;
           '(p, _, n, ss) ← gcRequests shardIndices k !! j;
           Some (addDelete (g, p, n, ss) w)
  | EvDelete j i =>
      '(g, p, n, ss) ← deletes w !! j;
      k ← seen w p !! i;
      match DeleteShard true n ss k with inr op => Some (propose p op w) | inl _ => None end
  | EvDeleteReply j i =>
      '(g, p, n, ss) ← deletes w !! j;
      k ← seen w p !! i;
      match DeleteShard true n ss k with
      | inl SErrNotReady => None
      | _ => Some (propose g (shardGC_propose n ss) w)
      end
  | EvApply j =>
      '(g, op) ← proposed w !! j;
      if g =? 0 then None else Some (setCore g (applySOp g op (cur w g)).1 w)
  end.

Definition mrun (evs : list MEvent) (w : System) : option System :=
  foldl (fun o ev => w ← o; mexec ev w) (Some w) evs.

Lemma mexec_sound ev w w' : mexec ev w = Some w' -> mstep cfg w w'.
Proof.
  intros He. destruct ev; cbn [mexec] in He.
  - destruct (Z.eqb_spec g 0) as [|Hg]; [done|]. injection He as <-.
    eapply ms_client; [done|apply surjective_pairing].
  - case_match eqn:E; [done|]. b2p. injection He as <-. eapply ms_config; [done..|apply surjective_pairing].
  - destruct (Z.eqb_spec g 0) as [|Hg]; [done|]. apply bind_Some in He as (k & Hk & He).
    apply bind_Some in He as ([[[p sv] n] ss] & Hj & [= <-]).
    eapply ms_pull; [done|by eapply list_elem_of_lookup_2..].
  - apply bind_Some in He as ([[[g p] n] ss] & Hj & He). apply bind_Some in He as (k & Hk & He).
    destruct (PullShard true n ss k) as [[e data] d] eqn:Hp. destruct e; simplify_eq.
    eapply ms_pull_reply; [by eapply list_elem_of_lookup_2..|done].
  - destruct (Z.eqb_spec g 0) as [|Hg]; [done|]. apply bind_Some in He as (k & Hk & He).
    apply bind_Some in He as ([[[p sv] n] ss] & Hj & [= <-]).
    eapply ms_gc; [done|by eapply list_elem_of_lookup_2..].
  - apply bind_Some in He as ([[[g p] n] ss] & Hj & He). apply bind_Some in He as (k & Hk & He).
    case_match eqn:Hd; simplify_eq. eapply ms_delete; [by eapply list_elem_of_lookup_2..|done].
  - apply bind_Some in He as ([[[g p] n] ss] & Hj & He). apply bind_Some in He as (k & Hk & He).
    assert (DeleteShard true n ss k <> inl SErrNotReady) by (intros E; by rewrite E in He).
    assert (w' = propose g (shardGC_propose n ss) w) as -> by (repeat case_match; by simplify_eq).
    eapply ms_delete_reply; [by eapply list_elem_of_lookup_2..|done].
  - apply bind_Some in He as ([g op] & Hj & He). destruct (Z.eqb_spec g 0) as [|Hg]; [done|]. injection He as <-.
    eapply ms_apply; [done|by eapply list_elem_of_lookup_2|apply surjective_pairing].
Qed.

Lemma mrun_sound evs w w' : mrun evs w = Some w' -> rtc (mstep cfg) w w'.
Proof.
  revert w'. induction evs as [|ev evs IH] using rev_ind; intros w' Hr; [injection Hr as <-; apply rtc_refl|].
  unfold mrun in *. rewrite foldl_app in Hr. cbn [foldl] in Hr.
  apply bind_Some in Hr as (w1 & H1 & He). eapply rtc_r; eauto using mexec_sound.
Qed.
End schedule.

(** All shards go to group 1, then to group 2. *)
Definition demoCfg (n : Z) : Config :=
  if n =? 0 then config0
  else mkConfig n (replicate (Z.to_nat NShards) (if n =? 1 then 1 else 2)) {[ 1 := ["s1"%string]; 2 := ["s2"%string] ]}.

Lemma demoCfg_owner n s : n <> 0 -> 0 <= s < NShards -> shardOwner (demoCfg n) s = if n =? 1 then 1 else 2.
Proof.
  intros Hn Hs. unfold shardOwner, demoCfg. rewrite (proj2 (Z.eqb_neq _ _) Hn). cbn [Shards].
  unfold go_index. destruct (Z.leb_spec 0 s); [|lia]. rewrite lookup_replicate_2; [done|lia].
Qed.

Lemma demoCfg_ok : controller_ok demoCfg.
Proof.
  split; [done| | |].
  - intros n Hn. unfold demoCfg. by destruct (Z.eqb_spec n 0) as [->|].
  - intros n _. unfold demoCfg. destruct (n =? 0); [done|]. cbn [Shards]. unfold zlen.
    by rewrite length_replicate.
  - intros n m s Hm H0. destruct (decide (0 <= s < NShards)) as [Hs|Hs].
    + destruct (decide (n = 0)) as [->|Hn]; [by replace m with 0 by lia|].
      rewrite demoCfg_owner in H0 by done. by case_match.
    + unfold shardOwner. destruct (Shards (demoCfg m) @! s) as [x|] eqn:E; [|done].
      apply go_index_Some_bound in E. exfalso. apply Hs. unfold demoCfg in E.
      destruct (m =? 0); [done|]. cbn [Shards] in E. unfold zlen in E. rewrite length_replicate in E. done.
Qed.

(** A write at group 1, the hand-over, the same request again and a new one at group 2. *)
Definition demoMigration : list MEvent :=
  [EvConfig 1 1; EvConfig 2 1; EvClient 1 TPut "k" "a" 7 1; EvConfig 1 2; EvConfig 2 2;
   EvPull 2 0 0; EvPullReply 0 0; EvApply 0; EvGC 2 0 0; EvDelete 0 0; EvApply 0;
   EvDeleteReply 0 0; EvApply 0; EvClient 2 TPut "k" "a" 7 1; EvClient 2 TAppend "k" "b" 7 2].

Lemma shard_migration_safe_witness :
  exists w sh, shards (cur w 2) !! key2shard "k" = Some sh /\ holds sh /\
    Data sh = replayWrites (hist w (key2shard "k")) /\
    hist w (key2shard "k") = [mkWrite TPut "k" "a" 7 1; mkWrite TAppend "k" "b" 7 2].
Proof.
  assert ((fun w => (canServe 2 (key2shard "k") (cur w 2), hist w (key2shard "k"))) <$>
    mrun demoCfg demoMigration minit = Some (true, [mkWrite TPut "k" "a" 7 1; mkWrite TAppend "k" "b" 7 2])) as Hr
    by (vm_compute; reflexivity).
  destruct (proj1 (fmap_Some _ _ _) Hr) as (w & Hw & [= Hs Hh]). symmetry in Hs.
  destruct (canServe_serving _ _ _ Hs) as (sh & Hsh & Hst).
  destruct (shard_migration_safe demoCfg demoCfg_ok w 2 (key2shard "k") sh (mrun_sound _ _ _ _ Hw))
    as (_ & _ & Hd & _); [lia|exact Hsh|left; exact Hst|].
  exists w, sh. split_and!; [exact Hsh|left; exact Hst|exact Hd|by symmetry].
Defined.

(** ** A copy nobody deletes *)

(** The state after a list of commands. *)
Definition applyAll (g : Z) (ops : list SOp) (k : Core) : Core := foldl (fun k op => (applySOp g op k).1) k ops.

(** The command deletes shard [s] for the present configuration. *)
Definition deletesShard (k : Core) (s : Z) (op : SOp) : Prop :=
  match op with DeleteShardOp n ss => n = Num (config k) /\ s ∈ ss | _ => False end.

Lemma applySOp_bepulling g op k s sh :
  shards k !! s = Some sh -> State sh = BePulling -> ~ deletesShard k s op ->
  let k' := (applySOp g op k).1 in config k' = config k /\ shards k' !! s = Some sh.
Proof.
  intros Hs Hst Hno. destruct op as [t key value cid seq|c|n ss data d|n ss|]; simpl.
  - pose proof (applyClientOp_cases g t key value cid seq k) as Hc. simpl in Hc.
    destruct Hc as [[-> _]|(sh' & x & Hs' & Hst' & _ & -> & -> & _)]; [done|]. split; [done|].
    rewrite lookup_insert_ne; [done|]. intros <-. simplify_eq. congruence.
  - unfold applyConfig. case_match; [done|]. assert (settled k = false) as ->; [|done].
    apply bool_decide_eq_false. intros Hall. specialize (Hall _ _ Hs). simpl in Hall. congruence.
  - unfold applyInstallShard. case_match; [done|]. simpl. split; [done|]. rewrite install_lookup, Hs.
    case_decide; [|done]. simpl. by rewrite Hst.
  - unfold applyDeleteShard. destruct (Z.eqb_spec n (Num (config k))) as [E|]; [|done]. simpl. split; [done|].
    rewrite delete_lookup, Hs. case_decide; [|done]. by destruct Hno.
  - done.
Qed.

(** While a group has a shard to give up, it stays in its configuration: no command
    but the deletion of that shard lets it go on. *)
Theorem bepulling_blocks g ops k s sh :
  shards k !! s = Some sh -> State sh = BePulling -> Forall (fun op => ~ deletesShard k s op) ops ->
  config (applyAll g ops k) = config k /\ shards (applyAll g ops k) !! s = Some sh.
Proof.
  intros Hs Hst. induction ops as [|op ops IH] using rev_ind; intros Hno; [done|].
  apply Forall_app in Hno as [Hno Hop]. apply (proj1 (Forall_singleton _ _)) in Hop.
  destruct (IH Hno) as [Hc Hs']. unfold applyAll in *. rewrite foldl_app. cbn [foldl].
  set (k1 := foldl _ k ops) in *.
  destruct (applySOp_bepulling g op k1 s sh Hs' Hst) as [Hc2 ?]; [|split; [congruence|done]].
  intros Hd. apply Hop. destruct op; try done. simpl in *. by rewrite <- Hc.
Qed.

Definition demoBlocked : Core := mkCore {[ 3 := mkShard ∅ BePulling ]} ∅ (demoCfg 1) (demoCfg 2).

Lemma bepulling_blocks_witness :
  config (applyAll 1 [ConfigOp (demoCfg 3); DeleteShardOp 1 [3]; ClientOp TPut "k" "v" 1 1] demoBlocked) = demoCfg 2.
Proof.
  apply (bepulling_blocks 1 [ConfigOp (demoCfg 3); DeleteShardOp 1 [3]; ClientOp TPut "k" "v" 1 1]
    demoBlocked 3 (mkShard ∅ BePulling)); [reflexivity|reflexivity|].
  repeat constructor; simpl; try tauto. intros [E _]. by vm_compute in E.
Defined.

(** ** A shard that goes to nobody *)

Section unassigned.
Variable cfg : Z -> Config.
Hypothesis Hzero : cfg 0 = config0.
Hypothesis Hnum : forall n, 0 <= n -> Num (cfg n) = n.

(** A command that changes shards, each in a way that fits the configurations. *)
Lemma core_ok_change g k k' :
  config k' = config k -> prevConfig k' = prevConfig k ->
  (forall s, shards k !! s = None -> shards k' !! s = None) ->
  (forall s, shard_ok cfg g (num k) s (shards k !! s) -> shard_ok cfg g (num k) s (shards k' !! s)) ->
  core_ok cfg g k -> core_ok cfg g k'.
Proof.
  intros Ec Ep Hn Hs [H1 H2 H3 H4 H5]. assert (num k' = num k) as E by (unfold num; by rewrite Ec).
  split; rewrite ?E, ?Ec, ?Ep; auto.
Qed.

Lemma core_ok_advance g n k :
  g <> 0 -> 0 <= n -> core_ok cfg g k -> core_ok cfg g (applyConfig g (cfg n) k).
Proof.
  intros Hg Hn Hok. unfold applyConfig. rewrite Hnum by done.
  destruct (Z.eqb_spec n (Num (config k) + 1)) as [->|]; cbn [negb]; [|done].
  destruct (settled k) eqn:Hset; cbn [negb]; [|done]. apply bool_decide_eq_true in Hset.
  pose proof (ck_num _ _ _ Hok) as H0. fold (num k) in *. set (k' := mkCore _ _ _ _).
  assert (num k' = num k + 1) as E by (unfold num, k'; simpl; by rewrite Hnum).
  split; rewrite ?E; [lia|done| | |].
  - intros _. simpl. rewrite (ck_config _ _ _ Hok). f_equal. lia.
  - intros s Hr. unfold k'. cbn [shards]. rewrite migrate_lookup, decide_True by done. rewrite (ck_config _ _ _ Hok).
    pose proof (ck_shard _ _ _ Hok s Hr) as Hs. unfold migrated. change (shardOwner (cfg (num k)) s) with (owner cfg (num k) s).
    change (shardOwner (cfg (num k + 1)) s) with (owner cfg (num k + 1) s).
    replace (num k + 1 - 1) with (num k) in * by lia. unfold shard_ok in *.
    destruct (shards k !! s) as [sh|] eqn:Esh; [rewrite (Hset _ _ Esh) in Hs|];
      destruct (Z.eqb_spec (owner cfg (num k + 1) s) g), (Z.eqb_spec (owner cfg (num k) s) g),
        (Z.eqb_spec (owner cfg (num k) s) 0); simpl; rewrite ?Hs in *; try done;
      replace (num k + 1 - 1) with (num k) by lia; try (split_and!; done || lia); congruence.
  - intros s Hr. unfold k'. cbn [shards]. rewrite migrate_lookup, decide_False by done. by apply (ck_range _ _ _ Hok).
Qed.

Lemma core_ok_apply g op k :
  g <> 0 -> (forall c, op = ConfigOp c -> exists n, 0 <= n /\ c = cfg n) -> core_ok cfg g k ->
  core_ok cfg g (applySOp g op k).1.
Proof.
  intros Hg Hc Hok. destruct op as [t key value cid seq|c|n ss data d|n ss|]; simpl; [| | | |done].
  - pose proof (applyClientOp_cases g t key value cid seq k) as Ha. simpl in Ha.
    destruct Ha as [[-> _]|(sh & x & Hs & Hst & _ & Es & Ec & Ep & _)]; [done|].
    apply (core_ok_change g k); try done; intros s; rewrite Es; destruct (decide (s = key2shard key)) as [->|];
      rewrite ?lookup_insert_eq, ?lookup_insert_ne by done; try done; rewrite Hs; try done. simpl. by rewrite Hst.
  - destruct (Hc c eq_refl) as (n & ? & ->). by apply core_ok_advance.
  - unfold applyInstallShard. case_match; [done|]. apply (core_ok_change g k); try done; intros s; simpl; rewrite install_lookup;
      case_decide; try done; [by intros ->|]. unfold installed. destruct (shards k !! s) as [[dt []]|]; done.
  - unfold applyDeleteShard. case_match; [done|]. apply (core_ok_change g k); try done; intros s; simpl; rewrite delete_lookup;
      case_decide; try done; [by intros ->|]. unfold deleted. destruct (shards k !! s) as [[dt []]|]; simpl; tauto.
Qed.

(** What holds whatever shards the configurations assign: groups fit their configurations,
    and only a group that owns a shard asks for its deletion. *)
Record linv (w : System) : Prop := {
  li_cur g : cur w g ∈ seen w g;
  li_ok g k : g <> 0 -> k ∈ seen w g -> core_ok cfg g k /\ num k <= num (cur w g);
  li_deletes g p n ss s : (g, p, n, ss) ∈ deletes w -> s ∈ ss -> owner cfg n s <> 0;
  li_proposed g n ss s : (g, DeleteShardOp n ss) ∈ proposed w -> s ∈ ss -> owner cfg n s <> 0;
  li_config g c : (g, ConfigOp c) ∉ proposed w;
}.

Lemma applySOp_num g op k : num k <= num (applySOp g op k).1.
Proof.
  destruct op as [t key value cid seq|c|n ss data d|n ss|]; simpl; [| | | |lia].
  - pose proof (applyClientOp_cases g t key value cid seq k) as Ha. simpl in Ha.
    destruct Ha as [[-> _]|(sh & x & _ & _ & _ & _ & Ec & _)]; [lia|]. unfold num. rewrite Ec. lia.
  - unfold applyConfig. destruct (Z.eqb_spec (Num c) (Num (config k) + 1)); simpl; [|lia]. case_match; [lia|]. unfold num. simpl. lia.
  - unfold applyInstallShard. case_match; unfold num; simpl; lia.
  - unfold applyDeleteShard. case_match; unfold num; simpl; lia.
Qed.

Lemma linv_setCore w g op :
  linv w -> g <> 0 -> (forall c, op = ConfigOp c -> exists n, 0 <= n /\ c = cfg n) ->
  linv (setCore g (applySOp g op (cur w g)).1 w).
Proof.
  intros [H1 H2 H3 H4 H5] Hg Hop. split; simpl; try done.
  - intros g'. upd_cases g g'; [left|apply H1].
  - intros g' k Hg'. upd_cases g g'; [|by apply H2]. intros [->|Hk]%elem_of_cons.
    + split; [|lia]. apply core_ok_apply; [done..|]. by apply H2.
    + destruct (H2 g k Hg Hk). split; [done|]. pose proof (applySOp_num g op (cur w g)). lia.
Qed.

Lemma linv_step w w' : linv w -> mstep cfg w w' -> linv w'.
Proof.
  intros Hl Hs. destruct Hs as [g t key value cid seq k res Hg Ha|g n k res Hg Hn Ha|g k order p sv n ss Hg Hk Hin
    |g p n ss k data d Hin Hk Hp|g k order p sv n ss Hg Hk Hin|g p n ss k op Hin Hk Hd|g p n ss k Hin Hk Hd|g op k res Hg Hin Ha].
  - destruct (linv_setCore w g (ClientOp t key value cid seq) Hl Hg) as [H1 H2 H3 H4 H5]; [done|]. rewrite Ha in *. by split.
  - pose proof (linv_setCore w g (ConfigOp (cfg n)) Hl Hg) as Hx. rewrite Ha in Hx. apply Hx. intros c [= <-]. eauto.
  - destruct Hl. by split.
  - destruct Hl as [H1 H2 H3 H4 H5]. split; simpl; try done.
    + intros g' m ss' s [?|?]%elem_of_cons; [done|by eapply H4].
    + intros g' c [?|?]%elem_of_cons; [done|by eapply H5].
  - destruct Hl as [H1 H2 H3 H4 H5]. split; simpl; try done.
    intros g' p' m ss' s [[= -> -> -> ->]|?]%elem_of_cons Hs; [|by eapply H3].
    apply migrationRequests_spec in Hin as [-> Hin]. destruct (Hin s Hs) as (sh & Hsh & Hst & _).
    destruct (H2 g k Hg Hk) as [Hok _]. destruct (decide (0 <= s < NShards)) as [Hr|Hr]; [|by rewrite (ck_range _ _ _ Hok) in Hsh].
    pose proof (ck_shard _ _ _ Hok s Hr) as Hx. unfold shard_ok in Hx. rewrite Hsh, Hst in Hx. fold (num k). destruct Hx as [-> _]. done.
  - destruct Hl as [H1 H2 H3 H4 H5]. unfold DeleteShard in Hd. simpl in Hd. repeat case_match; simplify_eq. split; simpl; try done.
    + intros g' m ss' s [[= -> -> ->]|?]%elem_of_cons; [by eapply H3|by eapply H4].
    + intros g' c [?|?]%elem_of_cons; [done|by eapply H5].
  - destruct Hl as [H1 H2 H3 H4 H5]. split; simpl; try done.
    + intros g' m ss' s [[= -> -> ->]|?]%elem_of_cons; [by eapply H3|by eapply H4].
    + intros g' c [?|?]%elem_of_cons; [done|by eapply H5].
  - pose proof (linv_setCore w g op Hl Hg) as Hx. rewrite Ha in Hx. apply Hx. intros c ->. by destruct (li_config _ Hl g c).
Qed.

Lemma linv_reachable w : rtc (mstep cfg) minit w -> linv w.
Proof.
  intros Hr. pattern w. eapply rtc_ind_r; [| |exact Hr]; [|eauto using linv_step].
  split; simpl; [intros g; left| |by intros ? ? ? ? ? ?%not_elem_of_nil|by intros ? ? ? ? ?%not_elem_of_nil|by intros ? ? ?%not_elem_of_nil].
  intros g k Hg ->%list_elem_of_singleton. split; [|lia].
  assert (forall s, owner cfg 0 s = 0) as Ho.
  { intros s. unfold owner, shardOwner. rewrite Hzero. unfold config0. cbn [Shards]. destruct (_ @! s) as [x|] eqn:E; [|done].
    unfold go_index in E. case_match; [|done]. by apply lookup_replicate in E as [-> _]. }
  split; unfold num; simpl; try done. intros s Hr'. rewrite lookup_empty. simpl. by rewrite Ho.
Qed.

(** The copy of a group whose configuration gives the shard to nobody stays. *)
Lemma abandoned_step w w' g s sh :
  linv w -> mstep cfg w w' -> g <> 0 -> shards (cur w g) !! s = Some sh -> State sh = BePulling ->
  shardOwner (config (cur w g)) s = 0 ->
  shards (cur w' g) !! s = Some sh /\ config (cur w' g) = config (cur w g).
Proof.
  intros Hl Hstep Hg Hs Hst Ho. pose proof (proj1 (li_ok _ Hl g _ Hg (li_cur _ Hl g))) as Hok.
  assert (forall g' op k res, applySOp g' op (cur w g') = (k, res) ->
    (forall n ss, op = DeleteShardOp n ss -> s ∈ ss -> owner cfg n s <> 0) ->
    shards (upd (cur w) g' k g) !! s = Some sh /\ config (upd (cur w) g' k g) = config (cur w g)) as Happ.
  { intros g' op k res Ha Hno. upd_cases g' g; [|done].
    destruct (applySOp_bepulling g' op (cur w g') s sh Hs Hst) as [H1 H2]; [|by rewrite Ha in *].
    destruct op; simpl; try (by intros []). intros [-> Hin]. apply (Hno _ _ eq_refl Hin). unfold owner.
    fold (num (cur w g')). by rewrite <- (ck_config _ _ _ Hok). }
  destruct Hstep as [g' t key value cid seq k res Hg' Ha|g' n k res Hg' Hn Ha| | | | | |g' op k res Hg' Hin Ha];
    try done; simpl; (eapply Happ; [exact Ha|]); try done.
  intros n ss -> Hss. by eapply (li_proposed _ Hl).
Qed.

(** C38. A shard that a configuration assigns to nobody, because the last group has left,
    is abandoned.  Its last owner keeps it, to be given up, in every later state, and never
    leaves that configuration; no group asks for the shard for this or the next
    configuration; the owner refuses its data to whoever asks for a later one; and a group
    that gets the shard in the next configuration starts an empty one. *)
Theorem unassigned_shard_abandoned w w' g s sh :
  rtc (mstep cfg) minit w -> g <> 0 -> shards (cur w g) !! s = Some sh -> State sh = BePulling ->
  shardOwner (config (cur w g)) s = 0 -> rtc (mstep cfg) w w' ->
  let n := num (cur w g) in
  (shards (cur w' g) !! s = Some sh /\ config (cur w' g) = config (cur w g)) /\
  (forall g' k order p servers m ss, g' <> 0 -> k ∈ seen w' g' -> (p, servers, m, ss) ∈ pullRequests order k ->
     s ∈ ss -> m <> n /\ m <> n + 1) /\
  (forall k m ss, k ∈ seen w' g -> n < m -> PullShard true m ss k = (SErrNotReady, ∅, ∅)) /\
  (forall g', g' <> 0 -> num (cur w' g') = n -> settled (cur w' g') = true -> shardOwner (cfg (n + 1)) s = g' ->
     shards (applyConfig g' (cfg (n + 1)) (cur w' g')) !! s = Some newShard).
Proof.
  intros Hw%linv_reachable Hg Hs Hst Ho Hr n.
  pose proof (proj1 (li_ok _ Hw g _ Hg (li_cur _ Hw g))) as Hok.
  assert (owner cfg n s = 0) as Hon by (unfold owner, n; by rewrite <- (ck_config _ _ _ Hok)).
  assert (0 <= s < NShards) as Hrange by (destruct (decide (0 <= s < NShards)); [done|by rewrite (ck_range _ _ _ Hok) in Hs]).
  pose proof (ck_num _ _ _ Hok) as H0. fold n in H0.
  assert (linv w' /\ shards (cur w' g) !! s = Some sh /\ config (cur w' g) = config (cur w g)) as (Hl' & Hs' & Hc').
  { clear Hon. revert Hw Hs Ho. clear Hok H0. subst n. induction Hr as [w|w w1 w2 Hstep _ IH]; intros Hw Hs Ho; [done|].
    destruct (abandoned_step _ _ _ _ _ Hw Hstep Hg Hs Hst Ho) as [H1 H2]. rewrite <- H2. apply IH; [by eapply linv_step|done|by rewrite H2]. }
  split_and!; [done..| | |].
  - intros g' k order p sv m ss Hg' Hk Hin Hss. apply migrationRequests_spec in Hin as [-> Hin].
    destruct (Hin s Hss) as (sh' & Hsh & Hpull & _). destruct (li_ok _ Hl' g' k Hg' Hk) as [Hok' _].
    pose proof (ck_shard _ _ _ Hok' s Hrange) as Hx. unfold shard_ok in Hx. rewrite Hsh, Hpull in Hx. fold (num k).
    destruct Hx as (Hx1 & _ & _ & Hx2). split; intros E; rewrite E in *; [congruence|].
    by replace (n + 1 - 1) with n in Hx2 by lia.
  - intros k m ss Hk Hm. destruct (li_ok _ Hl' g k Hg Hk) as [_ Hle]. unfold num in Hle, n. rewrite Hc' in Hle.
    unfold PullShard. simpl. rewrite (proj2 (Z.gtb_lt _ _)); [done|lia].
  - intros g' Hg' Hn' Hset Ho'. pose proof (proj1 (li_ok _ Hl' g' _ Hg' (li_cur _ Hl' g'))) as Hok'.
    unfold applyConfig. rewrite Hnum by lia. fold (num (cur w' g')). rewrite Hn', Z.eqb_refl, Hset. cbn [negb shards].
    rewrite migrate_lookup, decide_True by done. unfold migrated.
    rewrite (ck_config _ _ _ Hok'), Hn', Ho', Z.eqb_refl. change (shardOwner (cfg n) s) with (owner cfg n s). rewrite Hon.
    cbn [negb]. rewrite orb_true_r. pose proof (ck_shard _ _ _ Hok' s Hrange) as Hx. rewrite Hn' in Hx.
    destruct (shards (cur w' g') !! s) as [sh'|] eqn:E; [|done]. apply bool_decide_eq_true in Hset.
    unfold shard_ok in Hx. rewrite (Hset _ _ E) in Hx. congruence.
Qed.
End unassigned.

(** The shards go to group 1, then to nobody, then to group 2. *)
Definition leavingCfg (n : Z) : Config :=
  if n =? 0 then config0
  else mkConfig n (replicate (Z.to_nat NShards) (if n =? 1 then 1 else if n =? 2 then 0 else 2)) ∅.

Definition demoLeaving : list MEvent :=
  [EvConfig 1 1; EvConfig 2 1; EvClient 1 TPut "k" "a" 7 1; EvConfig 1 2].

Lemma unassigned_shard_abandoned_witness :
  exists w' sh, shards (cur w' 1) !! key2shard "k" = Some sh /\ Data sh = {[ "k"%string := "a"%string ]} /\
    State sh = BePulling /\ shards (applyConfig 2 (leavingCfg 3) (cur w' 2)) !! key2shard "k" = Some newShard.
Proof.
  assert ((fun w => (shards (cur w 1) !! key2shard "k", config (cur w 1))) <$> mrun leavingCfg demoLeaving minit =
    Some (Some (mkShard {[ "k"%string := "a"%string ]} BePulling), leavingCfg 2)) as Hr by (vm_compute; reflexivity).
  destruct (proj1 (fmap_Some _ _ _) Hr) as (w & Hw & Hx). injection Hx as Hs Hc. symmetry in Hs, Hc.
  assert ((fun w => (Num (config (cur w 2)), settled (cur w 2))) <$> (mrun leavingCfg demoLeaving minit ≫= mexec leavingCfg (EvConfig 2 2)) =
    Some (2, true)) as Hr' by (vm_compute; reflexivity).
  destruct (proj1 (fmap_Some _ _ _) Hr') as (w' & Hw' & Hx'). rewrite Hw in Hw'. injection Hx' as Hn' Hset.
  destruct (unassigned_shard_abandoned leavingCfg eq_refl) with (w := w) (w' := w') (g := 1) (s := key2shard "k")
    (sh := mkShard {[ "k"%string := "a"%string ]} BePulling) as ([Hs' _] & _ & _ & Hnew).
  - intros n Hn. unfold leavingCfg. destruct (Z.eqb_spec n 0) as [->|]; reflexivity.
  - exact (mrun_sound _ _ _ _ Hw).
  - discriminate.
  - exact Hs.
  - reflexivity.
  - rewrite Hc. vm_compute. reflexivity.
  - apply rtc_once. eapply mexec_sound. exact Hw'.
  - exists w', (mkShard {[ "k"%string := "a"%string ]} BePulling). split_and!; [exact Hs'|reflexivity|reflexivity|].
    assert (num (cur w 1) = 2) as E by (unfold num; rewrite Hc; reflexivity). rewrite E in Hnew.
    apply Hnew; [discriminate|exact (eq_sym Hn')|exact (eq_sym Hset)|vm_compute; reflexivity].
Defined.

Lemma applySOp_err g op k :
  sr_err (applySOp g op k).2 <> SErrWrongLeader /\ sr_err (applySOp g op k).2 <> SErrTimeout.
Proof.
  destruct op; simpl; try done. unfold applyClientOp. repeat case_match; done.
Qed.

(** C37. [DeleteShard] answers [OK] whichever command was applied at the index it waited
    on: [submit] checks the identity of client operations only.  So when another
    leader's command [other] took the index, the new owner is told that the shard is gone
    though the group's state is what [other] made it. *)
Theorem DeleteShard_false_ok `{CoreCodec} kv op other index res kv1 kv2 kv3 ch snap rsize num ss :
  DeleteShard true num ss (core kv) = inr op ->
  skv_submit_register index kv = (kv1, ch) ->
  skv_applyMsg rsize (CommandMsg (Some other) index) kv1 = Some (kv2, snap) ->
  skv_lastApplied kv < index -> skv_dead kv = false ->
  skv_submit_receive op index ch kv2 = Some (kv3, res) ->
  DeleteShard_reply res = SOK /\ core kv3 = (applySOp (gid kv) other (core kv)).1.
Proof.
  intros Hd Hr Ha Hl Hdead Hrec. unfold DeleteShard in Hd. repeat case_match; simplify_eq.
  pose proof (applySOp_err (gid kv) other (core kv)) as [He1 He2].
  unfold skv_submit_register in Hr. injection Hr as <- <-.
  unfold skv_applyMsg in Ha. simpl in Ha. rewrite Hdead in Ha. unfold skv_applyCommand in Ha. simpl in Ha.
  destruct (Z.leb_spec index (skv_lastApplied kv)); [lia|].
  destruct (applySOp (gid kv) other (core kv)) as [k r]. simpl in *.
  unfold wake in Ha. simpl in Ha. rewrite lookup_insert_eq in Ha. simpl in Ha.
  rewrite lookup_app_r, Nat.sub_diag in Ha by done. simpl in Ha. injection Ha as <- <-.
  unfold skv_submit_receive, receive in Hrec. simpl in Hrec.
  rewrite list_lookup_insert_eq in Hrec by (rewrite length_app; simpl; lia). simpl in Hrec.
  injection Hrec as <- <-. split; [|done]. unfold DeleteShard_reply.
  by rewrite !bool_decide_false.
Qed.

(** ** A concrete codec, for the examples *)

#[global] Instance ShardState_countable : Countable ShardState.
Proof.
  apply (inj_countable' (fun st => match st with Serving => 0 | Pulling => 1 | BePulling => 2 | GCing => 3 end)
    (fun z => if z =? 0 then Serving else if z =? 1 then Pulling else if z =? 2 then BePulling else GCing)).
  by intros [].
Defined.

#[global] Instance Shard_eq_dec : EqDecision Shard.
Proof. solve_decision. Defined.

#[global] Instance Shard_countable : Countable Shard.
Proof. apply (inj_countable' (fun s => (Data s, State s)) (fun x => mkShard x.1 x.2)). by intros []. Defined.

#[global] Instance Config_eq_dec : EqDecision Config.
Proof. solve_decision. Defined.

#[global] Instance Config_countable : Countable Config.
Proof.
  apply (inj_countable' (fun c => (Num c, Shards c, Groups c)) (fun x => mkConfig x.1.1 x.1.2 x.2)).
  by intros [].
Defined.

#[global] Instance bitCoreCodec : CoreCodec := {|
  gobEncodeCore k := bitsOfPos (encode (shards k, dedup k, config k, prevConfig k));
  gobDecodeCore b := p ← posOfBits b; (fun '(s, d, c, pc) => mkCore s d pc c) <$> decode p;
|}.

#[global] Instance bitCoreCodecOk : CoreCodecOk.
Proof.
  split; intros k; simpl; [|apply bitsOfPos_nonempty].
  rewrite posOfBits_bitsOfPos. simpl. rewrite decode_encode. by destruct k.
Qed.

Definition demoOldOwner : ShardKV := mkShardKV 0 1 (-1) false demoBlocked (noWaiters sresult) 4.

Lemma DeleteShard_false_ok_witness :
  exists kv3 res, DeleteShard_reply res = SOK /\ core kv3 = demoBlocked /\
    shards (core kv3) !! 3 = Some (mkShard ∅ BePulling).
Proof.
  destruct (skv_submit_register 5 demoOldOwner) as [kv1 ch] eqn:H1.
  destruct (skv_applyMsg 0 (CommandMsg (Some EmptyOp) 5) kv1) as [[kv2 snap]|] eqn:H2;
    [|exfalso; injection H1 as <- <-; by vm_compute in H2].
  destruct (skv_submit_receive (DeleteShardOp 2 [3]) 5 ch kv2) as [[kv3 res]|] eqn:H3;
    [|exfalso; injection H1 as <- <-; vm_compute in H2; injection H2 as <- <-; by vm_compute in H3].
  destruct (DeleteShard_false_ok demoOldOwner (DeleteShardOp 2 [3]) EmptyOp 5 res kv1 kv2 kv3 ch snap 0 2 [3])
    as [Hr Hc]; [reflexivity|done|done|done|done|done|].
  exists kv3, res. rewrite Hc. split; [done|]. split; reflexivity.
Defined.
