(* ===== verification/SkvGroup.v ===== *)
(** * A replica group of the sharded service

    The servers of one group of [src/src/shardkv/], as a service on Raft in the sense of
    [Replicated]: every server of group [g] holds the state that a prefix of the group's
    log determines, through snapshots and restarts, and what a handler answers is the
    outcome of a command of the log. *)

From S2P Require Import Prelude Persister Raft RaftCodec RaftLocal RaftCluster RaftRun RaftAbstract RaftDelivery Replicated Waiters Dedup KvRaft ShardCtrler Rebalance ShardKV ShardMigration.

(** A server and its RPC handlers: those between [Start] and the registration of their
    channel, those that wait, and what [submit] returned to the others.  The background
    loops call [Start] and do not wait: they are handlers that go no further. *)
Record SkvNode := mkSkvNode {
  sn_srv : ShardKV;
  sn_starting : list (SOp * Z);
  sn_waiting : list (SOp * Z * nat);
  sn_answered : list (SOp * sresult);
}.

Section group.
Context `{CoreCodec} (g : Z).
Implicit Types (v : SkvNode) (ops : list SOp).

(** [submit] after [Start] returned. *)
Definition sn_started (op : SOp) (r : Z * Z * bool) v : SkvNode :=
  let '(index, _, isLeader) := r in
  if isLeader then mkSkvNode (sn_srv v) ((op, index) :: sn_starting v) (sn_waiting v) (sn_answered v)
  else mkSkvNode (sn_srv v) (sn_starting v) (sn_waiting v)
         ((op, mkSResult SErrWrongLeader EmptyString 0 0) :: sn_answered v).

(** The critical sections of [submit], and [Kill]. *)
Inductive sn_serves v : SkvNode -> Prop :=
| sn_register op index kv ch ss1 ss2 :
    sn_starting v = ss1 ++ (op, index) :: ss2 -> skv_submit_register index (sn_srv v) = (kv, ch) ->
    sn_serves v (mkSkvNode kv (ss1 ++ ss2) ((op, index, ch) :: sn_waiting v) (sn_answered v))
| sn_receive op index ch kv res ws1 ws2 :
    sn_waiting v = ws1 ++ (op, index, ch) :: ws2 ->
    skv_submit_receive op index ch (sn_srv v) = Some (kv, res) ->
    sn_serves v (mkSkvNode kv (sn_starting v) (ws1 ++ ws2) ((op, res) :: sn_answered v))
| sn_timeout op index ch kv res ws1 ws2 :
    sn_waiting v = ws1 ++ (op, index, ch) :: ws2 ->
    skv_submit_timeout index (sn_srv v) = (kv, res) ->
    sn_serves v (mkSkvNode kv (sn_starting v) (ws1 ++ ws2) ((op, res) :: sn_answered v))
| sn_kill :
    sn_serves v (mkSkvNode (skv_Kill (sn_srv v)) (sn_starting v) (sn_waiting v) (sn_answered v)).

Definition sn_set (kv : ShardKV) v : SkvNode := mkSkvNode kv (sn_starting v) (sn_waiting v) (sn_answered v).

Definition sn_applies (r : Z) (m : ApplyMsg SOp) v v' (snap : option (Z * bytes)) : Prop :=
  exists kv, skv_applyMsg r m (sn_srv v) = Some (kv, snap) /\ v' = sn_set kv v.

Definition sn_boot (ps : Persister) v : SkvNode :=
  let kv := sn_srv v in
  mkSkvNode (skv_StartServer (skv_me kv) (skv_maxraftstate kv) (gid kv) ps) [] [] (sn_answered v).

(** The state after the first [p] commands, and the outcome of the command at index [i]. *)
Definition coreAt ops (p : Z) : Core := applyAll g (take (Z.to_nat p) ops) core0.

Definition outcomeAt ops (i : Z) : option sresult :=
  op ← ops @! (i - 1); Some (applySOp g op (coreAt ops (i - 1))).2.

Definition skvService : RaftService SOp := {|
  Srv := SkvNode;
  applies := sn_applies;
  started := sn_started;
  serves := sn_serves;
  boot := sn_boot;
  takesSnapshots := true;
  snapshotOf ops := gobEncodeCore (applyAll g ops core0);
|}.
#[local] Existing Instance skvService.

(** ** It keeps the contract *)

Context `{!CoreCodecOk}.

(** An answer that is not an error of the server is the outcome of a command, one with
    the client and number of the request if the request is a client's. *)
Definition outcome_ok ops (op : SOp) (res : sresult) : Prop :=
  sr_err res = SErrWrongLeader \/ sr_err res = SErrTimeout \/
  exists i res', outcomeAt ops i = Some res' /\ res = submitCheck op res'.

Record skinv ops (p : Z) v : Prop := {
  sk_pos : 0 <= skv_lastApplied (sn_srv v) <= p /\ p <= zlen ops;
  sk_gid : gid (sn_srv v) = g;
  sk_core : core (sn_srv v) = coreAt ops p;
  sk_waiters : waiters_ok (skv_lastApplied (sn_srv v)) (fun i r => outcomeAt ops i = Some r)
    (sn_waiting v) (skv_waiters (sn_srv v));
  sk_answered op res : (op, res) ∈ sn_answered v -> outcome_ok ops op res;
}.

Lemma coreAt_app ops l p : p <= zlen ops -> coreAt (ops ++ l) p = coreAt ops p.
Proof. intros. unfold coreAt, zlen in *. rewrite take_app_le by lia. done. Qed.

Lemma outcomeAt_more ops l i r : outcomeAt ops i = Some r -> outcomeAt (ops ++ l) i = Some r.
Proof.
  unfold outcomeAt. intros (op & Hop & Hr)%bind_Some. pose proof (go_index_Some_bound _ _ _ Hop).
  rewrite go_index_app_l by lia. rewrite Hop. simpl. by rewrite coreAt_app by lia.
Qed.

Lemma skinv_more ops l p v : skinv ops p v -> skinv (ops ++ l) p v.
Proof.
  intros [Hp Hg Hc Hw Ha]. pose proof (zlen_app ops l). pose proof (zlen_nonneg l). split; [lia|done|..].
  - by rewrite coreAt_app by lia.
  - eapply waiters_ok_weaken; [|done]. intros i r. apply outcomeAt_more.
  - intros op res [?|[?|(i & r & Hr & ?)]]%Ha; [by left|by right; left|right; right].
    exists i, r. split; [by apply outcomeAt_more|done].
Qed.

Lemma skinv_answer ops p v op res :
  outcome_ok ops op res -> skinv ops p v ->
  skinv ops p (mkSkvNode (sn_srv v) (sn_starting v) (sn_waiting v) ((op, res) :: sn_answered v)).
Proof.
  intros Hr [Hp Hg Hc Hw Ha]. split; try done. by intros op' res' [[= -> ->]|?]%elem_of_cons; [|apply Ha].
Qed.

(** Only the channels change. *)
Lemma skinv_waiters ops p v w ss ws :
  waiters_ok (skv_lastApplied (sn_srv v)) (fun i r => outcomeAt ops i = Some r) ws w ->
  skinv ops p v -> skinv ops p (mkSkvNode (set_skv_waiters w (sn_srv v)) ss ws (sn_answered v)).
Proof. intros Hw [Hp Hg Hc _ Ha]. by split. Qed.

(** While it is not killed, the server is where Raft takes it to be. *)
Definition sn_holds ops (p q : Z) v : Prop :=
  exists p', skinv ops p' v /\ (skv_dead (sn_srv v) = false -> p' = p /\ skv_lastApplied (sn_srv v) = q).

Lemma sn_holds_started ops p q op r v : sn_holds ops p q v -> sn_holds ops p q (sn_started op r v).
Proof.
  destruct r as [[index tm] [|]]; intros (p' & Hi & Hd); exists p'; cbn [sn_started]; (split; [|done]).
  - by destruct Hi.
  - apply skinv_answer; [by left|done].
Qed.

Lemma sn_holds_serves ops p q v v' : sn_holds ops p q v -> sn_serves v v' -> sn_holds ops p q v'.
Proof.
  intros (p' & Hi & Hd) Hs. exists p'. pose proof (sk_waiters _ _ _ Hi) as Hok.
  destruct Hs as [op index kv ch ss1 ss2 _ Hr|op index ch kv res ws1 ws2 Hw Hr|op index ch kv res ws1 ws2 Hw Hr|].
  - unfold skv_submit_register in Hr. destruct (register _ _) as [w ch'] eqn:Hg. simplify_eq. split; [|done].
    apply skinv_waiters; [by eapply waiters_ok_register|done].
  - apply bind_Some in Hr as ([w r] & Hr & [= <- <-]). split; [|done]. rewrite Hw in Hok.
    destruct (waiters_ok_receive _ _ _ _ _ _ _ _ _ _ Hok Hr) as [Hok' Hres].
    apply (skinv_answer ops p' (mkSkvNode (set_skv_waiters w (sn_srv v)) (sn_starting v) (ws1 ++ ws2) (sn_answered v)));
      [right; right; by exists index, r|by apply skinv_waiters].
  - injection Hr as <- <-. split; [|done]. rewrite Hw in Hok.
    apply (skinv_answer ops p' (mkSkvNode (set_skv_waiters _ (sn_srv v)) (sn_starting v) (ws1 ++ ws2) (sn_answered v)));
      [by right; left|]. apply skinv_waiters; [by eapply waiters_ok_expire|done].
  - split; [|done]. by destruct Hi.
Qed.

Lemma skv_readSnapshot_core ops kv :
  core (skv_readSnapshot (gobEncodeCore (applyAll g ops core0)) kv) = applyAll g ops core0.
Proof.
  unfold skv_readSnapshot. rewrite core_roundtrip. by destruct (gobEncodeCore _) eqn:E; [destruct (core_nonempty _ E)|].
Qed.

Lemma skv_readSnapshot_frame d kv :
  gid (skv_readSnapshot d kv) = gid kv /\ skv_maxraftstate (skv_readSnapshot d kv) = skv_maxraftstate kv /\
  skv_dead (skv_readSnapshot d kv) = skv_dead kv /\
  skv_waiters (skv_readSnapshot d kv) = skv_waiters kv /\ skv_lastApplied (skv_readSnapshot d kv) = skv_lastApplied kv.
Proof. unfold skv_readSnapshot. by repeat case_match. Qed.

Lemma skinv_boot ops p b ps v :
  0 <= b <= zlen ops -> b = 0 /\ ReadSnapshot ps = [] \/ snapGoodOps ops b (ReadSnapshot ps) ->
  skinv ops p v -> skinv ops b (sn_boot ps v) /\ skv_lastApplied (sn_srv (sn_boot ps v)) = 0.
Proof.
  intros Hb Hs Hi. unfold sn_boot, skv_StartServer. set (kv0 := mkShardKV _ _ _ _ _ _ _).
  destruct (skv_readSnapshot_frame (ReadSnapshot ps) kv0) as (Eg & _ & _ & Ew & El).
  split; [|done]. split; simpl; rewrite ?Eg, ?Ew, ?El.
  - simpl. lia.
  - apply Hi.
  - destruct Hs as [[-> ->]|[_ E]%snapGoodOps_eq]; [done|]. rewrite E. apply skv_readSnapshot_core.
  - apply waiters_ok_none.
  - apply (sk_answered _ _ _ Hi).
Qed.

Lemma coreAt_next ops p op :
  0 <= p -> ops @! p = Some op -> coreAt ops (p + 1) = (applySOp g op (coreAt ops p)).1.
Proof.
  intros Hp Hop. unfold coreAt. rewrite Z2Nat.inj_add by lia. change (Z.to_nat 1) with 1%nat. rewrite Nat.add_1_r.
  unfold go_index in Hop. rewrite (proj2 (Z.leb_le 0 p)) in Hop by lia.
  rewrite (take_S_r _ _ op) by done. unfold applyAll. by rewrite foldl_app.
Qed.

(** What a server does with a message. *)
Lemma skv_applyMsg_dead r m kv : skv_dead kv = true -> skv_applyMsg r m kv = Some (kv, None).
Proof. unfold skv_applyMsg. by intros ->. Qed.

Lemma skv_applyMsg_stale r m kv : msgIndex m <= skv_lastApplied kv -> skv_applyMsg r m kv = Some (kv, None).
Proof.
  intros Hm. unfold skv_applyMsg, skv_applyCommand, skv_applySnapshot.
  destruct (skv_dead kv); [done|]. by destruct m; simpl in Hm; rewrite (proj2 (Z.leb_le _ _)) by lia.
Qed.

(** Applying the next command: it does not block, and a snapshot taken then is that of
    the log up to it. *)
Lemma skinv_command ops p op r v :
  ops @! p = Some op -> skv_dead (sn_srv v) = false -> skinv ops p v ->
  exists kv snap, skv_applyMsg r (CommandMsg (Some op) (p + 1)) (sn_srv v) = Some (kv, snap) /\
    skinv ops (p + 1) (sn_set kv v) /\ skv_lastApplied kv = p + 1 /\
    forall k d, snap = Some (k, d) -> snapGoodOps ops k d.
Proof.
  intros Hop Hd Hi. destruct (sk_pos _ _ _ Hi) as [Hla _]. pose proof (go_index_Some_bound _ _ _ Hop) as Hb.
  unfold skv_applyMsg, skv_applyCommand. rewrite Hd, (proj2 (Z.leb_gt _ _)) by lia. cbn [mbind option_bind].
  cbn [gid core set_skv_lastApplied]. rewrite (sk_gid _ _ _ Hi), (sk_core _ _ _ Hi).
  destruct (applySOp g op (coreAt ops p)) as [k res] eqn:Ha. cbn [skv_waiters set_core set_skv_lastApplied].
  assert (outcomeAt ops (p + 1) = Some res) as Hres.
  { unfold outcomeAt. replace (p + 1 - 1) with p by lia. rewrite Hop. simpl. by rewrite Ha. }
  destruct (waiters_ok_wake (fun i o => outcomeAt ops i = Some o) (skv_lastApplied (sn_srv v)) (sn_waiting v)
    (skv_waiters (sn_srv v)) (p + 1) res (sk_waiters _ _ _ Hi) ltac:(lia) Hres) as (w & Hw & Hok).
  rewrite Hw. cbn [mbind option_bind].
  assert (k = coreAt ops (p + 1)) as Hk by (rewrite (coreAt_next ops p op), Ha by (lia || done); done).
  eexists _, _. split; [done|]. split; [|split; [done|]].
  - split; simpl; [lia|apply Hi|done|done|apply (sk_answered _ _ _ Hi)].
  - intros k' d. unfold skv_maybeSnapshot. case_match; [done|]. intros [= <- <-]. apply snapGoodOps_eq.
    split; [lia|]. simpl. by rewrite Hk.
Qed.

Lemma skinv_snapshot ops p r d t k v :
  0 <= p -> skv_dead (sn_srv v) = false -> skv_lastApplied (sn_srv v) < k -> snapGoodOps ops k d -> skinv ops p v ->
  exists kv, skv_applyMsg r (SnapshotMsg d t k) (sn_srv v) = Some (kv, None) /\
    skinv ops k (sn_set kv v) /\ skv_lastApplied kv = k.
Proof.
  intros Hp Hd Hk [Hb ->]%snapGoodOps_eq Hi. unfold skv_applyMsg, skv_applySnapshot.
  rewrite Hd, (proj2 (Z.leb_gt _ _)) by lia. eexists. split; [done|]. simpl.
  destruct (skv_readSnapshot_frame (gobEncodeCore (applyAll g (take (Z.to_nat k) ops) core0)) (sn_srv v)) as (Eg & _ & _ & Ew & _).
  split; [|done]. split; simpl; [lia|by rewrite Eg; apply Hi|apply skv_readSnapshot_core| |apply (sk_answered _ _ _ Hi)].
  rewrite Ew. eapply waiters_ok_advance; [apply Hi|lia].
Qed.

Lemma sn_holds_step ops p q m p' q' r v :
  0 <= q <= p -> tellsOps ops p q m p' q' -> sn_holds ops p q v ->
  exists kv snap, skv_applyMsg r m (sn_srv v) = Some (kv, snap) /\ sn_holds ops p' q' (sn_set kv v) /\
    forall k d, snap = Some (k, d) -> snapGoodOps ops k d.
Proof.
  intros Hqp Ht (p0 & Hi & Hd). destruct (skv_dead (sn_srv v)) eqn:Hdead.
  { exists (sn_srv v), None. rewrite skv_applyMsg_dead by done. split; [done|]. split; [|done].
    exists p0. split; [by destruct Hi|]. simpl. congruence. }
  destruct (Hd eq_refl) as [-> Hq].
  apply tellsOps_cases in Ht as [(Hle & -> & ->)|[(op & Hop & -> & -> & ->)|(d & t & k & -> & Hlt & Hpk & Hg & -> & ->)]].
  - exists (sn_srv v), None. rewrite skv_applyMsg_stale by (rewrite Hq; done). split; [done|]. split; [|done].
    exists p. split; [by destruct Hi|done].
  - destruct (skinv_command ops p op r v Hop Hdead Hi) as (kv & snap & Ha & Hi' & Hla & Hs).
    exists kv, snap. split; [done|]. split; [by exists (p + 1)|done].
  - destruct (skinv_snapshot ops p r d t k v) as (kv & Ha & Hi' & Hla); [lia|done|lia|done|done|].
    exists kv, None. split; [done|]. split; [by exists k|done].
Qed.

Definition skvServiceOk : RaftServiceOk skvService.
Proof.
  refine {| holdsAt := sn_holds : list SOp -> Z -> Z -> Srv -> Prop; applicable _ := True |}.
  - intros ops ops' p s v Hp (p' & Hi & Hd). exists p'. split; [by apply skinv_more|done].
  - apply sn_holds_started.
  - apply sn_holds_serves.
  - intros ops p s b ps v Hb Hs _ (p' & Hi & _). destruct (skinv_boot ops p' b ps v Hb Hs Hi). exists b. by split.
  - intros ops p s m p' s' r v Hq _ Ht _ _ Hh. destruct (sn_holds_step ops p s m p' s' r v Hq Ht Hh) as (kv & snap & Ha & _).
    exists (sn_set kv v), snap, kv. done.
  - intros ops p s m p' s' r v v' snap Hq _ Ht _ Hh (kv & Ha & ->).
    destruct (sn_holds_step ops p s m p' s' r v Hq Ht Hh) as (kv' & snap' & Ha' & ?). rewrite Ha in Ha'. by simplify_eq.
Defined.

(** With [maxraftstate] negative a server never compacts. *)
Lemma skv_never_compacts : neverCompacts (fun v : Srv => skv_maxraftstate (sn_srv v) < 0).
Proof.
  split; simpl.
  - intros r m v v' snap HQ (kv & Ha & ->). simpl. unfold skv_applyMsg, skv_applyCommand, skv_applySnapshot in Ha.
    destruct (skv_dead _); [by simplify_eq|]. destruct m as [cmd i|d t i]; (destruct (_ <=? _); [by simplify_eq|]).
    + apply bind_Some in Ha as (op & -> & Ha). destruct (applySOp _ _ _) as [k res].
      apply bind_Some in Ha as (w & _ & [= <- <-]). split; [done|]. unfold skv_maybeSnapshot. simpl.
      by rewrite (proj2 (Z.ltb_lt _ _)).
    + injection Ha as <- <-. simpl. destruct (skv_readSnapshot_frame d (sn_srv v)) as (_ & -> & _). done.
  - intros op [[index tm] [|]] v HQ; done.
  - intros v v' HQ Hs. destruct Hs as [op index kv ch ss1 ss2 _ Hr|op index ch kv res ws1 ws2 _ Hr|op index ch kv res ws1 ws2 _ Hr|]; simpl; [| | |done].
    + unfold skv_submit_register in Hr. destruct (register _ _). by simplify_eq.
    + unfold skv_submit_receive in Hr. apply bind_Some in Hr as ([w r] & _ & Hr). by simplify_eq.
    + by injection Hr as <- <-.
  - intros ps v HQ. unfold sn_boot, skv_StartServer. simpl. by destruct (skv_readSnapshot_frame (ReadSnapshot ps)
      (mkShardKV (skv_me (sn_srv v)) (gid (sn_srv v)) (skv_maxraftstate (sn_srv v)) false core0 (noWaiters sresult) 0)) as (_ & -> & _).
Qed.
End group.

(** ** Running a group *)

Inductive SnServe :=
| SnRegister (k : nat)     (* the [k]-th handler registers its channel *)
| SnTake (k : nat)         (* the [k]-th handler that waits receives *)
| SnTimeout (k : nat)      (* ... gives up *)
| SnKill.

Definition snServe (e : SnServe) (v : SkvNode) : option SkvNode :=
  match e with
  | SnRegister k =>
      '(op, index) ← sn_starting v !! k;
      let '(kv, ch) := skv_submit_register index (sn_srv v) in
      Some (mkSkvNode kv (take k (sn_starting v) ++ drop (S k) (sn_starting v))
        ((op, index, ch) :: sn_waiting v) (sn_answered v))
  | SnTake k =>
      '(op, index, ch) ← sn_waiting v !! k;
      '(kv, res) ← skv_submit_receive op index ch (sn_srv v);
      Some (mkSkvNode kv (sn_starting v)
        (take k (sn_waiting v) ++ drop (S k) (sn_waiting v)) ((op, res) :: sn_answered v))
  | SnTimeout k =>
      '(op, index, ch) ← sn_waiting v !! k;
      let '(kv, res) := skv_submit_timeout index (sn_srv v) in
      Some (mkSkvNode kv (sn_starting v)
        (take k (sn_waiting v) ++ drop (S k) (sn_waiting v)) ((op, res) :: sn_answered v))
  | SnKill => Some (sn_set (skv_Kill (sn_srv v)) v)
  end.

Lemma snServe_sound e v v' : snServe e v = Some v' -> sn_serves v v'.
Proof.
  destruct e as [k|k|k|]; cbn [snServe]; intros He.
  - apply bind_Some in He as ([op index] & Hk & He). destruct (skv_submit_register index _) as [kv ch] eqn:Hr. simplify_eq.
    eapply sn_register; [|done]. symmetry. by apply take_drop_middle.
  - apply bind_Some in He as ([[op index] ch] & Hk & He). apply bind_Some in He as ([kv res] & Hr & He). simplify_eq.
    eapply sn_receive; [|done]. symmetry. by apply take_drop_middle.
  - apply bind_Some in He as ([[op index] ch] & Hk & He). destruct (skv_submit_timeout index _) as [kv res] eqn:Hr. simplify_eq.
    eapply sn_timeout; [|done]. symmetry. by apply take_drop_middle.
  - simplify_eq. apply sn_kill.
Qed.

Definition skvExec `{CoreCodec} (g : Z) : ServiceExec (skvService g).
Proof.
  refine (Build_ServiceExec _ (skvService g) SnServe snServe
    (fun r m v => '(kv, snap) ← skv_applyMsg r m (sn_srv v); Some (sn_set kv v, snap)) _ _).
  - apply snServe_sound.
  - intros r m v v' snap ([kv sn] & Ha & [= <- <-])%bind_Some. by exists kv.
Defined.
