(* ===== verification/SkvSystem.v ===== *)
(** * The sharded key/value service, end to end

    All of [src/src/shardkv/] together: groups of servers, each replicated by Raft
    ([SkvGroup]), that take over shards from each other as the configurations change, and
    clerks that look for the group of a key, over a network that loses, delays and repeats
    messages, while servers crash and restart.  The groups are shown to refine the system
    of [ShardMigration], in which a group is a single state; the theorem is that the
    service behaves like one key/value store. *)

From S2P Require Import Prelude Persister Raft RaftCodec RaftLocal RaftCluster RaftRun RaftAbstract RaftDelivery Replicated Waiters Dedup KvRaft KvRaftDelivery ShardCtrler Rebalance ShardKV ShardMigration SkvGroup.

(** ** The commands of all groups *)

(** [d] lists the commands of all groups, each with its group, in the order in which a
    server was first told of them. *)
Definition logOf (g : Z) (d : list (Z * SOp)) : list SOp :=
  omap (fun '(g', op) => if decide (g' = g) then Some op else None) d.

Definition coreOf (d : list (Z * SOp)) (g : Z) : Core := applyAll g (logOf g d) core0.

(** The write the next command makes. *)
Definition writeIn (d : list (Z * SOp)) (c : Z * SOp) : list Write :=
  match c.2 with
  | ClientOp t key value cid seq => writeOf c.1 t key value cid seq (coreOf d c.1)
  | _ => []
  end.

(** The writes made, in order. *)
Definition writesOf (d : list (Z * SOp)) : list Write :=
  (foldl (fun '(pre, ws) c => (pre ++ [c], ws ++ writeIn pre c)) ([], []) d).2.

Definition shardWrites (s : Z) (d : list (Z * SOp)) : list Write :=
  filter (fun x => key2shard (w_key x) = s) (writesOf d).

Lemma writesOf_snoc d c : writesOf (d ++ [c]) = writesOf d ++ writeIn d c.
Proof.
  unfold writesOf. rewrite foldl_app. simpl.
  assert ((foldl (fun '(pre, ws) c => (pre ++ [c], ws ++ writeIn pre c)) ([], []) d).1 = d) as E.
  { clear c. induction d as [|c d IH] using rev_ind; [done|]. rewrite foldl_app. simpl.
    destruct (foldl _ _ d) as [pre ws]. simpl in *. by subst. }
  destruct (foldl _ _ d) as [pre ws]. simpl in *. by subst.
Qed.

Lemma logOf_snoc g d g' op : logOf g (d ++ [(g', op)]) = if decide (g' = g) then logOf g d ++ [op] else logOf g d.
Proof. unfold logOf. rewrite omap_app. simpl. case_decide; [done|by rewrite app_nil_r]. Qed.

Lemma logOf_app g d d' : logOf g (d ++ d') = logOf g d ++ logOf g d'.
Proof. apply omap_app. Qed.

Lemma logOf_same g l : logOf g (pair g <$> l) = l.
Proof. induction l as [|op l IH]; [done|]. unfold logOf in *. simpl. rewrite decide_True by done. simpl. by f_equal. Qed.

Lemma logOf_other g g' (l : list SOp) : g' <> g -> logOf g (pair g' <$> l) = [].
Proof. intros Hne. induction l as [|op l IH]; [done|]. unfold logOf in *. simpl. by rewrite decide_False. Qed.

Lemma coreOf_snoc d g g' op :
  coreOf (d ++ [(g', op)]) g = if decide (g' = g) then (applySOp g op (coreOf d g)).1 else coreOf d g.
Proof. unfold coreOf. rewrite logOf_snoc. case_decide; [|done]. unfold applyAll. by rewrite foldl_app. Qed.

(** A command of a group's log is in [d], after the group's earlier commands. *)
Lemma logOf_lookup g d j op :
  logOf g d !! j = Some op -> exists p, d !! p = Some (g, op) /\ logOf g (take p d) = take j (logOf g d).
Proof.
  revert j. induction d as [|[g' op'] d IH] using rev_ind; intros j; [done|]. rewrite logOf_snoc.
  assert (forall j, logOf g d !! j = Some op -> exists p, (d ++ [(g', op')]) !! p = Some (g, op) /\
    logOf g (take p (d ++ [(g', op')])) = take j (logOf g d)) as Hd.
  { intros j' (p & Hp & E)%IH. pose proof (lookup_lt_Some _ _ _ Hp). exists p.
    split; [by apply lookup_app_l_Some|]. by rewrite take_app_le by lia. }
  case_decide as E; [subst g'|apply Hd]. intros [[? Hj]|[-> <-]]%lookup_snoc_Some.
  - destruct (Hd j Hj) as (p & ? & Ep). exists p. split; [done|]. rewrite Ep. by rewrite take_app_le by lia.
  - exists (length d). split; [by rewrite lookup_app_r, Nat.sub_diag|]. by rewrite !take_app_length.
Qed.

Lemma writesOf_prefix d p : (p <= length d)%nat -> writesOf (take p d) `prefix_of` writesOf d.
Proof.
  induction d as [|c d IH] using rev_ind; intros Hp; [by rewrite take_nil|].
  rewrite length_app in Hp. simpl in Hp. destruct (decide (p = length d + 1)%nat) as [->|].
  { by rewrite take_ge by (rewrite length_app; simpl; lia). }
  rewrite take_app_le by lia. rewrite writesOf_snoc. apply prefix_app_r, IH. lia.
Qed.

(** Where a write was made. *)
Lemma writesOf_lookup d i x :
  writesOf d !! i = Some x -> exists p c, d !! p = Some c /\ writeIn (take p d) c = [x] /\
    writesOf (take p d) = take i (writesOf d).
Proof.
  revert i. induction d as [|c d IH] using rev_ind; intros i Hi; [done|]. rewrite writesOf_snoc in *.
  assert (length (writeIn d c) <= 1)%nat as Hlen.
  { unfold writeIn, writeOf. repeat (case_match; simpl; try lia). }
  destruct (decide (i < length (writesOf d))%nat) as [Hlt|Hge].
  - rewrite lookup_app_l in Hi by done. destruct (IH i Hi) as (p & c' & Hp & Hw & Ht).
    pose proof (lookup_lt_Some _ _ _ Hp). exists p, c'. rewrite !take_app_le by lia.
    split; [by apply lookup_app_l_Some|done].
  - rewrite lookup_app_r in Hi by lia. exists (length d), c.
    split; [by rewrite lookup_app_r, Nat.sub_diag|]. rewrite take_app_length.
    destruct (writeIn d c) as [|y [|]] eqn:Ew; simpl in Hlen; [done| |lia].
    destruct (i - length (writesOf d))%nat as [|j] eqn:Ei; [|done]. simpl in Hi. injection Hi as ->.
    split; [done|]. replace i with (length (writesOf d)) by lia. by rewrite take_app_length.
Qed.

Lemma applyWrite_lookup m x key :
  applyWrite m x !! key =
    if decide (w_key x = key)
    then Some (match w_type x with TPut => w_value x | _ => String.append (default EmptyString (m !! key)) (w_value x) end)
    else m !! key.
Proof.
  unfold applyWrite. case_decide as E; [subst; by rewrite lookup_insert_eq|by rewrite lookup_insert_ne].
Qed.

(** A key's value depends on the writes to its shard only. *)
Lemma replay_shard ws key :
  replayWrites ws !! key = replayWrites (filter (fun x => key2shard (w_key x) = key2shard key) ws) !! key.
Proof.
  induction ws as [|x ws IH] using rev_ind; [done|]. rewrite filter_app. unfold replayWrites in *.
  rewrite foldl_app. cbn [foldl]. rewrite filter_cons, filter_nil. case_decide as Hs.
  - rewrite foldl_app. cbn [foldl]. by rewrite !applyWrite_lookup, IH.
  - rewrite app_nil_r, <- IH, applyWrite_lookup, decide_False; [done|]. by intros <-.
Qed.

(** ** Groups as single states *)

Section tracks.
Context (cfg : Z -> Config).

(** The system of [ShardMigration] that the commands [d] lead to. *)
Record tracks (d : list (Z * SOp)) (w : System) : Prop := {
  tr_reach : rtc (mstep cfg) minit w;
  tr_cur g : g <> 0 -> cur w g = coreOf d g;
  tr_seen g p : g <> 0 -> coreAt g (logOf g d) p ∈ seen w g;
  tr_hist s : hist w s = shardWrites s d;
}.

Lemma tracks_init : tracks [] minit.
Proof. split; [apply rtc_refl|done| |done]. intros g p _. unfold coreAt. change (logOf g []) with (@nil SOp). rewrite take_nil. by left. Qed.

(** The messages and commands under way stay, and no state is forgotten. *)
Record extends (w w' : System) : Prop := {
  ex_pulls : pulls w' = pulls w;
  ex_deletes : deletes w' = deletes w;
  ex_proposed : proposed w' = proposed w;
  ex_seen g k : k ∈ seen w g -> k ∈ seen w' g;
}.

Lemma sys_extends_refl w : extends w w.
Proof. by split. Qed.

Lemma sys_extends_trans w1 w2 w3 : extends w1 w2 -> extends w2 w3 -> extends w1 w3.
Proof. intros [] []. split; [congruence..|auto]. Qed.

Definition commandOk (w : System) (g : Z) (op : SOp) : Prop :=
  match op with
  | ClientOp _ _ _ _ _ | EmptyOp => True
  | ConfigOp c => exists m, 0 <= m /\ c = cfg m
  | _ => (g, op) ∈ proposed w
  end.

Lemma commandOk_extends w w' g op : extends w w' -> commandOk w g op -> commandOk w' g op.
Proof. intros He. destruct op; simpl; rewrite ?(ex_proposed _ _ He); done. Qed.

Lemma coreAt_snoc g ops op p :
  coreAt g (ops ++ [op]) p = if decide (p <= zlen ops) then coreAt g ops p else (applySOp g op (applyAll g ops core0)).1.
Proof.
  case_decide as Hp; [by apply coreAt_app|]. unfold coreAt, zlen in *.
  rewrite take_ge by (rewrite length_app; simpl; lia). unfold applyAll. by rewrite foldl_app.
Qed.

(** The next command is a step of the group, or does nothing. *)
Lemma tracks_setCore d w g op w' :
  g <> 0 -> tracks d w -> rtc (mstep cfg) minit w' ->
  (forall g', cur w' g' = upd (cur w) g (applySOp g op (coreOf d g)).1 g') ->
  (forall g' k, k ∈ seen w g' \/ g' = g /\ k = (applySOp g op (coreOf d g)).1 -> k ∈ seen w' g') ->
  (forall s, hist w' s = shardWrites s (d ++ [(g, op)])) -> tracks (d ++ [(g, op)]) w'.
Proof.
  intros Hg [Hr Hc Hs Hh] Hr' Hc' Hs' Hh'. split; [done| | |done].
  - intros g' Hg'. rewrite Hc', coreOf_snoc. unfold upd. case_decide as E; [subst; by rewrite decide_True|].
    rewrite decide_False by congruence. by apply Hc.
  - intros g' p Hg'. apply Hs'. rewrite logOf_snoc. case_decide as E; [subst g'|left; by apply Hs].
    rewrite coreAt_snoc. case_decide; [left; by apply Hs|by right].
Qed.

Lemma shardWrites_quiet s d c : writeIn d c = [] -> shardWrites s (d ++ [c]) = shardWrites s d.
Proof. intros E. unfold shardWrites. by rewrite writesOf_snoc, E, app_nil_r. Qed.

Lemma shardWrites_client d g t key value cid seq s :
  shardWrites s (d ++ [(g, ClientOp t key value cid seq)]) =
    upd (fun s => shardWrites s d) (key2shard key)
      (shardWrites (key2shard key) d ++ writeOf g t key value cid seq (coreOf d g)) s.
Proof.
  unfold shardWrites, upd. rewrite writesOf_snoc, filter_app. unfold writeIn. cbn [fst snd].
  assert (filter (fun x => key2shard (w_key x) = s) (writeOf g t key value cid seq (coreOf d g)) =
    if decide (s = key2shard key) then writeOf g t key value cid seq (coreOf d g) else []) as ->.
  { unfold writeOf. repeat case_match; rewrite ?filter_cons, ?filter_nil; simpl; repeat case_decide; congruence. }
  case_decide as E; [by subst s|by rewrite app_nil_r].
Qed.

Lemma tracks_snoc d w g op :
  g <> 0 -> tracks d w -> commandOk w g op -> exists w', tracks (d ++ [(g, op)]) w' /\ extends w w'.
Proof.
  intros Hg Ht Hop. destruct (applySOp g op (coreOf d g)) as [k res] eqn:Ha.
  assert (applySOp g op (cur w g) = (k, res)) as Ha' by (by rewrite (tr_cur _ _ Ht g Hg)).
  assert (forall hist', (forall s, hist' s = shardWrites s (d ++ [(g, op)])) ->
    let w' := mkSystem (upd (cur w) g k) (upd (seen w) g (k :: seen w g)) (pulls w) (deletes w) (proposed w) hist' in
    mstep cfg w w' -> tracks (d ++ [(g, op)]) w' /\ extends w w') as Hset.
  { intros hist' Hh w' Hs. split.
    - apply (tracks_setCore d w g op); try done; rewrite ?Ha; simpl.
      + eapply rtc_r; [apply Ht|done].
      + done.
      + intros g' k' [Hin|[-> ->]]; unfold upd; [case_decide; [subst; by right|done]|rewrite decide_True by done; by left].
    - split; try done. intros g' k' Hin. simpl. unfold upd. case_decide; [subst; by right|done]. }
  destruct op as [t key value cid seq|c|m ss data dd|m ss|]; simpl in Hop.
  - eexists. apply Hset; [|by eapply ms_client]. intros s. rewrite shardWrites_client, <- (tr_cur _ _ Ht g Hg).
    simpl. unfold upd. case_decide; by rewrite (tr_hist _ _ Ht).
  - destruct Hop as (m & Hm & ->). eexists. apply (Hset (hist w)); [|by eapply ms_config].
    intros s. by rewrite shardWrites_quiet, (tr_hist _ _ Ht).
  - eexists. apply (Hset (hist w)); [|by eapply ms_apply]. intros s. by rewrite shardWrites_quiet, (tr_hist _ _ Ht).
  - eexists. apply (Hset (hist w)); [|by eapply ms_apply]. intros s. by rewrite shardWrites_quiet, (tr_hist _ _ Ht).
  - exists w. split; [|apply sys_extends_refl]. injection Ha as <- _. apply (tracks_setCore d w g EmptyOp); try done; simpl.
    + apply Ht.
    + intros g'. unfold upd. case_decide; [subst; by apply (tr_cur _ _ Ht)|done].
    + intros g' k [Hin|[-> ->]]; [done|]. rewrite <- (tr_cur _ _ Ht) by done.
      rewrite (tr_cur _ _ Ht) by done. unfold coreOf.
      pose proof (tr_seen _ _ Ht g (zlen (logOf g d)) Hg) as Hin. unfold coreAt, zlen in Hin.
      rewrite Nat2Z.id, take_ge in Hin by done. done.
    + intros s. by rewrite shardWrites_quiet, (tr_hist _ _ Ht).
Qed.

Lemma tracks_app d w g l :
  g <> 0 -> tracks d w -> (forall op, op ∈ l -> commandOk w g op) ->
  exists w', tracks (d ++ (pair g <$> l)) w' /\ extends w w'.
Proof.
  intros Hg. revert d w. induction l as [|op l IH]; intros d w Ht Hl.
  { exists w. simpl. rewrite app_nil_r. split; [done|apply sys_extends_refl]. }
  destruct (tracks_snoc d w g op Hg Ht) as (w1 & Ht1 & He1); [apply Hl; left|].
  destruct (IH _ w1 Ht1) as (w2 & Ht2 & He2).
  { intros op' Hin. eapply commandOk_extends; [done|]. apply Hl. by right. }
  exists w2. cbn [fmap list_fmap]. rewrite cons_middle, app_assoc. split; [done|by eapply sys_extends_trans].
Qed.

(** What holds after the commands [d]: a group that holds a shard has the data its
    writes determine; every entry of a group's duplicate table is a write; and no write is
    made twice. *)
Record sound (d : list (Z * SOp)) : Prop := {
  so_data g s sh : g <> 0 -> shards (coreOf d g) !! s = Some sh -> holds sh ->
    Data sh = replayWrites (shardWrites s d);
  so_table g c last : g <> 0 -> dedup (coreOf d g) !! c = Some last ->
    exists x, x ∈ writesOf d /\ w_cid x = c /\ w_seq x = last;
  so_once s : increasing (shardWrites s d);
  so_holder g g' s sh sh' : g <> 0 -> g' <> 0 -> shards (coreOf d g) !! s = Some sh -> holds sh ->
    shards (coreOf d g') !! s = Some sh' -> holds sh' -> g = g';
}.

Lemma tracks_sound d w : controller_ok cfg -> tracks d w -> sound d.
Proof.
  intros Hcfg Ht. pose proof (mreachable_minv cfg Hcfg w (tr_reach _ _ Ht)) as Hw.
  destruct (mreachable_known cfg Hcfg w (tr_reach _ _ Ht)) as [Hk _]. split.
  - intros g s sh Hg Hs Hh. rewrite <- (tr_cur _ _ Ht) in Hs by done. rewrite <- (tr_hist _ _ Ht).
    apply (mi_data _ _ Hw g s sh Hg Hs Hh).
  - intros g c last Hg Hl. rewrite <- (tr_cur _ _ Ht) in Hl by done.
    destruct (Hk g _ (mi_cur _ _ Hw g) c last Hl) as (s & x & Hx & ?). exists x. split; [|done].
    rewrite (tr_hist _ _ Ht) in Hx. by apply list_elem_of_filter in Hx as [_ ?].
  - intros s. rewrite <- (tr_hist _ _ Ht). apply (mi_once _ _ Hw).
  - intros g g' s sh sh' Hg Hg' Hs Hh Hs' Hh'. rewrite <- (tr_cur _ _ Ht) in Hs, Hs' by done.
    by eapply (holder_unique cfg w Hw g g' s).
Qed.
End tracks.

(** ** The system *)

Inductive SPhase := SIdle | SCalling (op : SOp) (start : nat).

(** A call that returned: its command, the number of commands that servers had been told
    of, over all groups, when it began and when it ended, and its result. *)
Record SCall := mkSCall { h_op : SOp; h_start : nat; h_end : nat; h_res : sresult }.

Record SkvSystem := mkSkvSystem {
  groups : Z -> Replicas SOp SkvNode;
  global : list (Z * SOp);                 (* the commands of all groups, see [logOf] *)
  pullMsgs : list (Z * Z * Z * list Z);    (* PullShard: from, to, ConfigNum, Shards *)
  deleteMsgs : list (Z * Z * Z * list Z);  (* DeleteShard, likewise *)
  deleting : list (Z * Z * Z * list Z);    (* DeleteShard handlers that called [submit] *)
  pending : list (Z * SOp);                (* what loops and handlers are about to [Start] *)
  requests : list (Z * SOp);               (* client requests in the network, by group *)
  sclerks : Z -> SClerk;
  sbusy : Z -> SPhase;
  calls : list SOp;                        (* the commands of all calls made *)
  shistory : list SCall;
}.

Definition withGroup (g : Z) (r : Replicas SOp SkvNode) (s : SkvSystem) : SkvSystem :=
  mkSkvSystem (upd (groups s) g r)
    (global s ++ (pair g <$> drop (length (opsOf (groups s g))) (opsOf r)))
    (pullMsgs s) (deleteMsgs s) (deleting s) (pending s) (requests s) (sclerks s) (sbusy s) (calls s) (shistory s).
Definition addPullMsg (m : Z * Z * Z * list Z) (s : SkvSystem) : SkvSystem :=
  mkSkvSystem (groups s) (global s) (m :: pullMsgs s) (deleteMsgs s) (deleting s) (pending s) (requests s)
    (sclerks s) (sbusy s) (calls s) (shistory s).
Definition addDeleteMsg (m : Z * Z * Z * list Z) (s : SkvSystem) : SkvSystem :=
  mkSkvSystem (groups s) (global s) (pullMsgs s) (m :: deleteMsgs s) (deleting s) (pending s) (requests s)
    (sclerks s) (sbusy s) (calls s) (shistory s).
Definition addDeleting (m : Z * Z * Z * list Z) (s : SkvSystem) : SkvSystem :=
  mkSkvSystem (groups s) (global s) (pullMsgs s) (deleteMsgs s) (m :: deleting s) (pending s) (requests s)
    (sclerks s) (sbusy s) (calls s) (shistory s).
Definition addPending (g : Z) (op : SOp) (s : SkvSystem) : SkvSystem :=
  mkSkvSystem (groups s) (global s) (pullMsgs s) (deleteMsgs s) (deleting s) ((g, op) :: pending s) (requests s)
    (sclerks s) (sbusy s) (calls s) (shistory s).
Definition addRequest (g : Z) (op : SOp) (s : SkvSystem) : SkvSystem :=
  mkSkvSystem (groups s) (global s) (pullMsgs s) (deleteMsgs s) (deleting s) (pending s) ((g, op) :: requests s)
    (sclerks s) (sbusy s) (calls s) (shistory s).
Definition setClerk (c : Z) (ck : SClerk) (s : SkvSystem) : SkvSystem :=
  mkSkvSystem (groups s) (global s) (pullMsgs s) (deleteMsgs s) (deleting s) (pending s) (requests s)
    (upd (sclerks s) c ck) (sbusy s) (calls s) (shistory s).
Definition beginCall (c : Z) (op : SOp) (s : SkvSystem) : SkvSystem :=
  mkSkvSystem (groups s) (global s) (pullMsgs s) (deleteMsgs s) (deleting s) (pending s) (requests s)
    (sclerks s) (upd (sbusy s) c (SCalling op (length (global s)))) (op :: calls s) (shistory s).
Definition endCall (c : Z) (h : SCall) (s : SkvSystem) : SkvSystem :=
  mkSkvSystem (groups s) (global s) (pullMsgs s) (deleteMsgs s) (deleting s) (pending s) (requests s)
    (sclerks s) (upd (sbusy s) c SIdle) (calls s) (shistory s ++ [h]).

(** The command of a call of [Get] or [PutAppend]. *)
Definition skvCall (t : OpType) (key value : string) (cid seq : Z) : SOp :=
  ClientOp t key (match t with TGet => EmptyString | _ => value end) cid seq.

(** What the handler of a client request submits, if it does. *)
Definition skvHandler (op : SOp) (kv : ShardKV) : SErr + SOp :=
  match op with
  | ClientOp TGet key _ cid seq => skv_Get key cid seq kv
  | ClientOp t key value cid seq => skv_PutAppend t key value cid seq kv
  | _ => inl SErrWrongGroup
  end.

(** The replies that end the clerk's loops. *)
Definition skvAccepts (op : SOp) (res : sresult) : bool :=
  match op with ClientOp TGet _ _ _ _ => goodGet (sr_err res) | _ => goodPut (sr_err res) end.

(** The group the clerk takes to be in charge of the command's key. *)
Definition skvTarget (op : SOp) (c : Config) : Z :=
  match op with ClientOp _ key _ _ _ => shardOwner c (key2shard key) | _ => 0 end.

Section steps.
Context `{StateCodec SOp} `{CoreCodec} (n : nat) (ordered : bool) (cfg : Z -> Config).
Implicit Types (s : SkvSystem).

(** The state server [i] of group [g] holds now. *)
Definition serverCore s (g i : Z) : Core := core (sn_srv (servers (groups s g) i)).

(** A loop or handler on server [i] of group [g] reads the server's state; the answers
    it gets to its calls, and whether it is the leader, may be anything possible. *)
Inductive skstep s : SkvSystem -> Prop :=
| sk_group g a (r : Replicas SOp SkvNode) :
    g <> 0 -> rpstep (RS := skvService g) n ordered (groups s g) a r ->
    (forall i op x, a = AStart i op x -> (g, op) ∈ pending s) ->
    skstep s (withGroup g r s)
| sk_poll g i isLeader query op :
    g <> 0 -> peer n i -> (forall m, exists k, 0 <= k /\ query m = cfg k) ->
    configPoller isLeader query (serverCore s g i) = Some op ->
    skstep s (addPending g op s)
| sk_pull g i order p names num ss :
    g <> 0 -> peer n i -> (p, names, num, ss) ∈ pullRequests order (serverCore s g i) ->
    skstep s (addPullMsg (g, p, num, ss) s)
| sk_pull_reply g p num ss j isLeader data d :
    p <> 0 -> (g, p, num, ss) ∈ pullMsgs s -> peer n j ->
    PullShard isLeader num ss (serverCore s p j) = (SOK, data, d) ->
    skstep s (addPending g (shardPuller_propose num ss data d) s)
| sk_gc g i order p names num ss :
    g <> 0 -> peer n i -> (p, names, num, ss) ∈ gcRequests order (serverCore s g i) ->
    skstep s (addDeleteMsg (g, p, num, ss) s)
| sk_delete g p num ss j isLeader op :
    p <> 0 -> (g, p, num, ss) ∈ deleteMsgs s -> peer n j ->
    DeleteShard isLeader num ss (serverCore s p j) = inr op ->
    skstep s (s |> addDeleting (g, p, num, ss) |> addPending p op)
| sk_delete_done g p num ss j isLeader : (* answered at once *)
    p <> 0 -> (g, p, num, ss) ∈ deleteMsgs s -> peer n j ->
    DeleteShard isLeader num ss (serverCore s p j) = inl SOK ->
    skstep s (addPending g (shardGC_propose num ss) s)
| sk_delete_reply g p num ss j res : (* answered after [submit] *)
    p <> 0 -> (g, p, num, ss) ∈ deleting s -> peer n j ->
    (DeleteShardOp num ss, res) ∈ sn_answered (servers (groups s p) j) -> DeleteShard_reply res = SOK ->
    skstep s (addPending g (shardGC_propose num ss) s)
| sk_empty g isLeader hasCurrentTermLog op :
    g <> 0 -> emptyLogChecker isLeader hasCurrentTermLog = Some op ->
    skstep s (addPending g op s)
| sk_handle g i op op' :
    g <> 0 -> peer n i -> (g, op) ∈ requests s ->
    skvHandler op (sn_srv (servers (groups s g) i)) = inr op' ->
    skstep s (addPending g op' s)
| sk_call c t key value ck seq :
    sbusy s c = SIdle -> sck_seq (sclerks s c) < 2 ^ 63 - 1 -> sck_nextSeq (sclerks s c) = (ck, seq) ->
    skstep s (s |> setClerk c ck |> beginCall c (skvCall t key value (sck_clientId ck) seq))
| sk_send c op start :
    sbusy s c = SCalling op start -> is_Some (Groups (sck_config (sclerks s c)) !! skvTarget op (sck_config (sclerks s c))) ->
    skstep s (addRequest (skvTarget op (sck_config (sclerks s c))) op s)
| sk_refresh c m : (* the latest configuration, for the next round *)
    0 <= m ->
    skstep s (setClerk c (mkSClerk (cfg m) (sck_clientId (sclerks s c)) (sck_seq (sclerks s c))) s)
| sk_return c op start g i res :
    sbusy s c = SCalling op start -> g <> 0 -> peer n i ->
    (op, res) ∈ sn_answered (servers (groups s g) i) -> skvAccepts op res = true ->
    skstep s (endCall c (mkSCall op start (length (global s)) res) s).

Definition sknode0 (max g i : Z) : SkvNode := mkSkvNode (skv_StartServer i max g MakePersister) [] [] [].

(** Clerk [c] drew [c] as its identifier. *)
Definition skinit (envs : Z -> Z -> Env) (max : Z) : SkvSystem :=
  mkSkvSystem (fun g => rpinit (RS := skvService g) n (envs g) (sknode0 max g)) [] [] [] [] [] []
    MakeSClerk (fun _ => SIdle) [] [].

Definition skreachable (max : Z) s : Prop := exists envs, rtc skstep (skinit envs max) s.

(** ** The groups refine [ShardMigration] *)

Context `{!CoreCodecOk} `{!StateCodecOk SOp}.

Definition compactsNot (v : SkvNode) : Prop := skv_maxraftstate (sn_srv v) < 0.

Record grouped s : Prop := {
  gr_inv g : g <> 0 -> exists A, rinv (RSO := skvServiceOk g) n A (groups s g);
  gr_tame g : g <> 0 -> tame (RS := skvService g) n ordered compactsNot (groups s g);
  gr_log g : g <> 0 -> opsOf (groups s g) = logOf g (global s);
  gr_submitted g op : g <> 0 -> Some op ∈ submitted (obs (groups s g)) -> (g, op) ∈ pending s;
  gr_global g op : (g, op) ∈ global s -> g <> 0 /\ (g, op) ∈ pending s;
  gr_sound p : sound (take p (global s));
}.

Record linked s (w : System) : Prop := {
  lk_tracks : tracks cfg (global s) w;
  lk_pulls : pulls w = pullMsgs s;
  lk_deletes : deletes w = deleteMsgs s;
  lk_deleting g p num ss : (g, p, num, ss) ∈ deleting s ->
    (g, p, num, ss) ∈ deletes w /\ exists k, k ∈ seen w p /\ DeleteShard true num ss k <> inl SErrNotReady;
  lk_pending g op : (g, op) ∈ pending s -> commandOk cfg w g op;
}.

(** What a server holds is the state after a prefix of its group's commands. *)
Lemma server_prefix s g i :
  grouped s -> g <> 0 -> peer n i ->
  exists p, skinv g (logOf g (global s)) p (servers (groups s g) i).
Proof.
  intros Hs Hg Hi. destruct (gr_inv _ Hs g Hg) as [A Hr].
  destruct (rinv_holds (RSO := skvServiceOk g) n A _ i Hr Hi) as (p & q & _ & _ & p' & Hk & _).
  exists p'. by rewrite <- (gr_log _ Hs g Hg).
Qed.

Lemma server_seen s w g i :
  grouped s -> linked s w -> g <> 0 -> peer n i -> serverCore s g i ∈ seen w g.
Proof.
  intros Hs Hl Hg Hi. destruct (server_prefix s g i Hs Hg Hi) as [p Hk]. unfold serverCore.
  rewrite (sk_core _ _ _ _ Hk). by apply (tr_seen _ _ _ (lk_tracks _ _ Hl)).
Qed.

(** The commands a group's step adds. *)
Lemma group_step_log s g a (r : Replicas SOp SkvNode) :
  grouped s -> g <> 0 -> rpstep (RS := skvService g) n ordered (groups s g) a r ->
  (forall i op x, a = AStart i op x -> (g, op) ∈ pending s) ->
  exists A l, rinv (RSO := skvServiceOk g) n A r /\ tame (RS := skvService g) n ordered compactsNot r /\
    opsOf r = logOf g (global s) ++ l /\ drop (length (opsOf (groups s g))) (opsOf r) = l /\
    (forall op, Some op ∈ submitted (obs r) -> (g, op) ∈ pending s) /\ (forall op, op ∈ l -> (g, op) ∈ pending s).
Proof.
  intros Hs Hg Hstep Ha. destruct (gr_inv _ Hs g Hg) as [A Hr]. pose proof (gr_tame _ Hs g Hg) as Ht.
  destruct (replicas_inv_step (RSO := skvServiceOk g) n ordered compactsNot A _ a r Ht Hr Hstep) as (A' & Hr' & _).
  pose proof (tame_step (RSO := skvServiceOk g) n ordered _ A _ a r Hr Ht Hstep) as Ht'.
  destruct (rpstep_grows (RS := skvService g) n ordered _ _ _ Hstep) as [[l El0] Hsub].
  assert (opsOf r = opsOf (groups s g) ++ l) as El by exact El0. clear El0.
  exists A', l. split; [done|]. split; [done|]. split; [by rewrite <- (gr_log _ Hs g Hg)|].
  split; [by rewrite El, drop_app_length|].
  assert (forall op, Some op ∈ submitted (obs r) -> (g, op) ∈ pending s) as Hsub'.
  { intros op [?|(i & op' & x & -> & [= <-])]%Hsub; [by apply (gr_submitted _ Hs)|by eapply Ha]. }
  split; [done|]. intros op Hop. apply Hsub'. eapply (rinv_submitted (RSO := skvServiceOk g) n); [done|].
  change (op ∈ opsOf r). rewrite El. apply elem_of_app. by right.
Qed.

Lemma take_app_pair (d : list (Z * SOp)) (g : Z) (l : list SOp) p :
  take p (d ++ (pair g <$> l)) = take p d ++ (pair g <$> take (p - length d) l).
Proof. by rewrite take_app, fmap_take. Qed.

Lemma grouped_group s w g a (r : Replicas SOp SkvNode) :
  controller_ok cfg -> grouped s -> linked s w -> g <> 0 ->
  rpstep (RS := skvService g) n ordered (groups s g) a r ->
  (forall i op x, a = AStart i op x -> (g, op) ∈ pending s) ->
  grouped (withGroup g r s) /\ exists w', linked (withGroup g r s) w'.
Proof.
  intros Hcfg Hs Hl Hg Hstep Ha.
  destruct (group_step_log s g a r Hs Hg Hstep Ha) as (A & l & Hr & Ht & El & Ed & Hsub & Hpend).
  assert (forall l', (forall op, op ∈ l' -> op ∈ l) ->
    exists w', tracks cfg (global s ++ (pair g <$> l')) w' /\ extends w w') as Htr.
  { intros l' Hl'. apply tracks_app; [done|apply Hl|]. intros op Hop. by apply (lk_pending _ _ Hl), Hpend, Hl'. }
  unfold withGroup. rewrite Ed. split.
  - split; cbn [groups global pending].
    + intros g' Hg'. upd_cases g g'; [by exists A|by apply (gr_inv _ Hs)].
    + intros g' Hg'. upd_cases g g'; [done|by apply (gr_tame _ Hs)].
    + intros g' Hg'. rewrite logOf_app. upd_cases g g'; [by rewrite logOf_same|].
      rewrite logOf_other, app_nil_r by done. by apply (gr_log _ Hs).
    + intros g' op Hg'. upd_cases g g'; [apply Hsub|by apply (gr_submitted _ Hs)].
    + intros g' op [Hin|(op' & [= -> ->] & Hin)%list_elem_of_fmap]%elem_of_app; [by apply (gr_global _ Hs)|].
      split; [done|by apply Hpend].
    + intros p. rewrite take_app_pair. destruct (decide (p <= length (global s))%nat) as [Hp|Hp].
      { replace (p - length (global s))%nat with 0%nat by lia. simpl. rewrite app_nil_r. apply (gr_sound _ Hs). }
      rewrite (take_ge (global s)) by lia. destruct (Htr (take (p - length (global s)) l)) as (w' & Hw' & _).
      { intros op. by apply subseteq_take. }
      by eapply tracks_sound.
  - destruct (Htr l) as (w' & Hw' & [Ep Edl Epr Esn]); [done|]. exists w'.
    split; cbn [groups global pending pullMsgs deleteMsgs deleting].
    + done.
    + rewrite Ep. apply Hl.
    + rewrite Edl. apply Hl.
    + intros g' p num ss Hin. rewrite Edl. destruct (lk_deleting _ _ Hl _ _ _ _ Hin) as (? & k & ? & ?).
      split; [done|]. exists k. auto.
    + intros g' op Hin. eapply (commandOk_extends cfg w); [by split|by apply (lk_pending _ _ Hl)].
Qed.

(** Messages are sent, loops and handlers go on; the groups stay as they are. *)
Lemma grouped_msg s s' :
  groups s' = groups s -> global s' = global s -> (forall x, x ∈ pending s -> x ∈ pending s') ->
  grouped s -> grouped s'.
Proof.
  intros Eg El Hp Hs. split; rewrite ?Eg, ?El; intros.
  - by apply (gr_inv _ Hs).
  - by apply (gr_tame _ Hs).
  - by apply (gr_log _ Hs).
  - by apply Hp, (gr_submitted _ Hs).
  - destruct (gr_global _ Hs g op) as [? ?]; [done|]. auto.
  - apply (gr_sound _ Hs).
Qed.

Lemma linked_msg s s' w w' :
  linked s w -> rtc (mstep cfg) w w' -> cur w' = cur w -> seen w' = seen w -> hist w' = hist w ->
  (forall x, x ∈ proposed w -> x ∈ proposed w') -> (forall x, x ∈ deletes w -> x ∈ deletes w') ->
  global s' = global s -> pulls w' = pullMsgs s' -> deletes w' = deleteMsgs s' ->
  (forall g p num ss, (g, p, num, ss) ∈ deleting s' -> (g, p, num, ss) ∈ deleting s \/
     (g, p, num, ss) ∈ deletes w /\ exists k, k ∈ seen w p /\ DeleteShard true num ss k <> inl SErrNotReady) ->
  (forall g op, (g, op) ∈ pending s' -> (g, op) ∈ pending s \/ commandOk cfg w' g op) ->
  linked s' w'.
Proof.
  intros Hl Hr Ec Es Eh Hp Hd Eg Epl Edl Hdel Hpend. split; [|done|done| |].
  - rewrite Eg. destruct (lk_tracks _ _ Hl) as [Hr0 Hc0 Hs0 Hh0].
    split; [by etrans|intros g; rewrite Ec; apply Hc0|intros g p; rewrite Es; apply Hs0|intros x; rewrite Eh; apply Hh0].
  - intros g p num ss Hin. rewrite Es. destruct (Hdel _ _ _ _ Hin) as [Hold|[? ?]]; [|auto].
    destruct (lk_deleting _ _ Hl _ _ _ _ Hold). auto.
  - intros g op Hin. destruct (Hpend _ _ Hin) as [Hold|?]; [|done]. apply (lk_pending _ _ Hl) in Hold.
    destruct op; simpl in *; auto.
Qed.

(** A command is proposed that the system of [ShardMigration] proposes too. *)
Lemma linked_propose s s' w g op :
  linked s w -> mstep cfg w (propose g op w) -> global s' = global s -> pullMsgs s' = pullMsgs s ->
  deleteMsgs s' = deleteMsgs s ->
  (forall g p num ss, (g, p, num, ss) ∈ deleting s' -> (g, p, num, ss) ∈ deleting s \/
     (g, p, num, ss) ∈ deletes w /\ exists k, k ∈ seen w p /\ DeleteShard true num ss k <> inl SErrNotReady) ->
  pending s' = (g, op) :: pending s -> commandOk cfg (propose g op w) g op -> linked s' (propose g op w).
Proof.
  intros Hl Hst Eg Ep Ed Hdel Epd Hop. eapply (linked_msg s s' w); try done.
  - by apply rtc_once.
  - intros x Hx. by right.
  - simpl. rewrite Ep. apply Hl.
  - simpl. rewrite Ed. apply Hl.
  - intros g' op'. rewrite Epd. intros [[= -> ->]|?]%elem_of_cons; [by right|by left].
Qed.

(** A command that needs no message. *)
Lemma linked_pending s s' w g op :
  linked s w -> commandOk cfg w g op -> global s' = global s -> pullMsgs s' = pullMsgs s ->
  deleteMsgs s' = deleteMsgs s -> deleting s' = deleting s -> pending s' = (g, op) :: pending s -> linked s' w.
Proof.
  intros Hl Hop Eg Ep Ed Edl Epd. eapply (linked_msg s s' w); try done.
  - by rewrite Ep; apply Hl.
  - by rewrite Ed; apply Hl.
  - rewrite Edl. auto.
  - intros g' op'. rewrite Epd. intros [[= -> ->]|?]%elem_of_cons; [by right|by left].
Qed.

Lemma DeleteShard_found isLeader num ss k x :
  DeleteShard isLeader num ss k = x -> x = inl SOK \/ (exists op, x = inr op) -> isLeader = true.
Proof. destruct isLeader; [done|]. intros <- [?|[? ?]]; done. Qed.

Lemma linked_step s s' w :
  controller_ok cfg -> grouped s -> linked s w ->
  (forall g op, (g, op) ∈ requests s -> exists t key value cid seq, op = ClientOp t key value cid seq) ->
  skstep s s' -> grouped s' /\ exists w', linked s' w'.
Proof.
  intros Hcfg Hs Hl Hreq Hstep. pose proof (server_seen s w) as Hseen.
  destruct Hstep as [g a r Hg Hstep Ha|g i isLeader query op Hg Hi Hq Hp|g i order p names num ss Hg Hi Hin
    |g p num ss j isLeader data d Hp Hin Hj Hpull|g i order p names num ss Hg Hi Hin
    |g p num ss j isLeader op Hp Hin Hj Hd|g p num ss j isLeader Hp Hin Hj Hd|g p num ss j res Hp Hin Hj Hans Hres
    |g isLeader has op Hg He|g i op op' Hg Hi Hin Hh|c t key value ck seq Hb Hlt Hn|c op start Hb Ht|c m Hm|c op start g i res Hb Hg Hi Hans Hacc];
    [by eapply grouped_group|(split; [apply (grouped_msg s); try done; intros; by right|])..].
  - exists w. eapply (linked_pending s _ w g op); try done. unfold configPoller, configPoller_next, configPoller_propose in Hp.
    destruct isLeader; [|done]. destruct (settled _); [|done]. simpl in Hp. case_match; [|done]. injection Hp as <-.
    destruct (Hq (Num (config (serverCore s g i)) + 1)) as (k & ? & ->). by exists k.
  - exists (addPull (g, p, num, ss) w). eapply (linked_msg s _ w); try done; [apply rtc_once; by eapply (ms_pull cfg w g (serverCore s g i)); auto|..].
    all: simpl; rewrite ?(lk_pulls _ _ Hl), ?(lk_deletes _ _ Hl); auto.
  - assert (isLeader = true) as -> by (by destruct isLeader).
    eexists. eapply (linked_propose s _ w); try done; [|by auto|by left].
    eapply (ms_pull_reply cfg w g p num ss (serverCore s p j)); [by rewrite (lk_pulls _ _ Hl)|auto|done].
  - exists (addDelete (g, p, num, ss) w). eapply (linked_msg s _ w); try done; [apply rtc_once; by eapply (ms_gc cfg w g (serverCore s g i)); auto|..].
    all: simpl; rewrite ?(lk_pulls _ _ Hl), ?(lk_deletes _ _ Hl); auto. intros x Hx. by right.
  - pose proof (DeleteShard_found _ _ _ _ _ Hd ltac:(eauto)) as ->. rewrite <- (lk_deletes _ _ Hl) in Hin.
    assert (op = DeleteShardOp num ss) as -> by (unfold DeleteShard in Hd; by repeat case_match; simplify_eq).
    eexists. eapply (linked_propose s _ w); try done; [by eapply (ms_delete cfg w g p num ss (serverCore s p j)); auto| |by left].
    intros g' p' num' ss' [[= -> -> -> ->]|?]%elem_of_cons; [right|by left]. split; [done|].
    exists (serverCore s p j). split; [auto|]. by rewrite Hd.
  - pose proof (DeleteShard_found _ _ _ _ _ Hd ltac:(eauto)) as ->. rewrite <- (lk_deletes _ _ Hl) in Hin.
    eexists. eapply (linked_propose s _ w); try done; [|by auto|by left].
    eapply (ms_delete_reply cfg w g p num ss (serverCore s p j)); [done|auto|by rewrite Hd].
  - destruct (lk_deleting _ _ Hl _ _ _ _ Hin) as (Hin' & k & Hk & Hnr).
    eexists. eapply (linked_propose s _ w); try done; [|by auto|by left]. by eapply ms_delete_reply.
  - exists w. eapply (linked_pending s _ w g op); try done. unfold emptyLogChecker in He. by case_match; simplify_eq.
  - exists w. eapply (linked_pending s _ w g op'); try done.
    destruct (Hreq _ _ Hin) as (t & key & value & cid & seq & ->). unfold skvHandler, skv_Get, skv_PutAppend in Hh.
    by destruct t; case_match; simplify_eq.
  - exists w. eapply (linked_msg s _ w); try done; try apply Hl; auto.
  - exists w. eapply (linked_msg s _ w); try done; try apply Hl; auto.
  - exists w. eapply (linked_msg s _ w); try done; try apply Hl; auto.
  - exists w. eapply (linked_msg s _ w); try done; try apply Hl; auto.
Qed.

Lemma grouped_init envs max : (0 < n)%nat -> ordered = true \/ max < 0 -> grouped (skinit envs max).
Proof.
  intros Hn Ho. split; simpl; intros.
  - exists ainit. apply (rinv_init (RSO := skvServiceOk g) n); [done|]. intros i. exists 0. split; [|done].
    split; simpl; [done|done|done|apply waiters_ok_none|by intros op res ?%not_elem_of_nil].
  - apply tame_init. destruct Ho as [?|?]; [by left|right]. split; [apply skv_never_compacts|done].
  - done.
  - by match goal with Hin : _ ∈ [] |- _ => apply not_elem_of_nil in Hin end.
  - by match goal with Hin : _ ∈ [] |- _ => apply not_elem_of_nil in Hin end.
  - rewrite take_nil. split; [done|done| |done]. by intros s i j x y _ ?.
Qed.

Lemma linked_init envs max : linked (skinit envs max) minit.
Proof.
  split; simpl; [apply tracks_init|done|done|..];
    intros; by match goal with Hin : _ ∈ [] |- _ => apply not_elem_of_nil in Hin end.
Qed.
End steps.

(** ** The clerks *)

Definition sopId (op : SOp) : Z * Z := match op with ClientOp _ _ _ cid seq => (cid, seq) | _ => (0, 0) end.

(** The call took effect while it ran: a [Get] read the store of all writes made before;
    a [Put] or [Append] made its write. *)
Definition skvLinearized (d : list (Z * SOp)) (op : SOp) (start en : nat) (res : sresult) : Prop :=
  exists p g, (start <= p < en)%nat /\ d !! p = Some (g, op) /\
    match op with
    | ClientOp TGet key _ _ _ =>
        match replayWrites (writesOf (take p d)) !! key with
        | Some v => sr_err res = SOK /\ sr_value res = v
        | None => sr_err res = SErrNoKey /\ sr_value res = EmptyString
        end
    | ClientOp t key value cid seq =>
        sr_err res = SOK /\ writesOf (take (S p) d) = writesOf (take p d) ++ [mkWrite t key value cid seq]
    | _ => False
    end.

Lemma skv_linearized_app d d' op start en res :
  skvLinearized d op start en res -> skvLinearized (d ++ d') op start en res.
Proof.
  intros (p & g & Hp & Hop & Hr). pose proof (lookup_lt_Some _ _ _ Hop). exists p, g.
  split; [done|]. split; [by apply lookup_app_l_Some|]. by rewrite !take_app_le by lia.
Qed.

Record clerked (s : SkvSystem) : Prop := {
  sl_clerk c : sck_clientId (sclerks s c) = c /\ 0 <= sck_seq (sclerks s c) < 2 ^ 63;
  sl_calls op : op ∈ calls s -> exists t key value cid seq, op = skvCall t key value cid seq /\
    0 < seq <= sck_seq (sclerks s cid);
  sl_unique op op' : op ∈ calls s -> op' ∈ calls s -> sopId op = sopId op' -> op = op';
  sl_requests g op : (g, op) ∈ requests s -> op ∈ calls s;
  sl_pending g t key value cid seq : (g, ClientOp t key value cid seq) ∈ pending s ->
    ClientOp t key value cid seq ∈ calls s;
  sl_busy c op start : sbusy s c = SCalling op start ->
    op ∈ calls s /\ sopId op = (c, sck_seq (sclerks s c)) /\ (start <= length (global s))%nat /\
    forall j g, global s !! j = Some (g, op) -> (start <= j)%nat;
  sl_history h : h ∈ shistory s -> skvLinearized (global s) (h_op h) (h_start h) (h_end h) (h_res h);
}.

Lemma skvHandler_same t key value cid seq kv op' :
  skvHandler (skvCall t key value cid seq) kv = inr op' -> op' = skvCall t key value cid seq.
Proof. unfold skvHandler, skvCall, skv_Get, skv_PutAppend. by destruct t; case_match; intros [= <-]. Qed.

(** Only the groups move. *)
Lemma clerked_group s g r : clerked s -> clerked (withGroup g r s).
Proof.
  intros [H1 H2 H3 H4 H5 H6 H7]. split; try done; simpl.
  - intros c op start Hb. destruct (H6 _ _ _ Hb) as (? & ? & ? & Hj). rewrite length_app. split_and!; [done|done|lia|].
    intros j g' Hl. destruct (decide (j < length (global s))%nat); [|lia]. rewrite lookup_app_l in Hl by done. eauto.
  - intros h Hin. by apply skv_linearized_app, H7.
Qed.

(** A command is about to be started; a client's is one of the calls. *)
Lemma clerked_pending s s' :
  clerked s -> global s' = global s -> requests s' = requests s -> sclerks s' = sclerks s -> sbusy s' = sbusy s ->
  calls s' = calls s -> shistory s' = shistory s ->
  (forall g t key value cid seq, (g, ClientOp t key value cid seq) ∈ pending s' ->
     (g, ClientOp t key value cid seq) ∈ pending s \/ ClientOp t key value cid seq ∈ calls s) -> clerked s'.
Proof.
  intros [H1 H2 H3 H4 H5 H6 H7] Eg Er Ec Eb El Eh Hp. split; rewrite ?Eg, ?Er, ?Ec, ?Eb, ?El, ?Eh; try done.
  intros g t key value cid seq [?|?]%Hp; eauto.
Qed.

Lemma clerked_call s c t key value ck seq :
  clerked s -> (forall g op, (g, op) ∈ global s -> (g, op) ∈ pending s) -> sbusy s c = SIdle ->
  sck_seq (sclerks s c) < 2 ^ 63 - 1 -> sck_nextSeq (sclerks s c) = (ck, seq) ->
  clerked (s |> setClerk c ck |> beginCall c (skvCall t key value (sck_clientId ck) seq)).
Proof.
  intros [H1 H2 H3 H4 H5 H6 H7] Hg Hidle Hlt Hn. destruct (H1 c) as [Hid Hr]. unfold sck_nextSeq in Hn.
  rewrite wrap_signed_small in Hn by lia. injection Hn as <- <-. cbn [sck_clientId]. rewrite Hid.
  set (op := skvCall t key value c (sck_seq (sclerks s c) + 1)).
  assert (forall op', op' ∈ calls s -> sopId op' <> sopId op) as Hnew.
  { intros op' (t' & k' & v' & cid & seq & -> & Hs)%H2 [= -> ->]. lia. }
  assert (op ∉ calls s) as Hnotin by (intros Hin; by apply (Hnew op Hin)).
  split; simpl.
  - intros c'. upd_cases c c'; [|apply H1]. simpl. split; [done|lia].
  - intros op' [->|(t' & k' & v' & cid & seq & -> & Hs)%H2]%elem_of_cons.
    + exists t, key, value, c, (sck_seq (sclerks s c) + 1). rewrite upd_eq. simpl. split; [done|lia].
    + exists t', k', v', cid, seq. split; [done|]. upd_cases c cid; simpl; lia.
  - intros op1 op2 [->|Hi1]%elem_of_cons [->|Hi2]%elem_of_cons E; [done|..|by apply H3].
    + by destruct (Hnew op2 Hi2).
    + by destruct (Hnew op1 Hi1).
  - intros g op' Hin. right. by eapply H4.
  - intros g t' k' v' cid seq Hin. right. by eapply H5.
  - intros c' op' start. upd_cases c c'.
    + intros [= <- <-]. split; [by left|]. split; [done|]. split; [done|]. intros j g Hj. exfalso. apply Hnotin.
      eapply (H5 g), Hg, list_elem_of_lookup_2, Hj.
    + intros Hb. destruct (H6 _ _ _ Hb) as (? & ? & ? & ?). split_and!; [by right|done..].
  - done.
Qed.

Lemma clerked_refresh s c conf :
  clerked s -> clerked (setClerk c (mkSClerk conf (sck_clientId (sclerks s c)) (sck_seq (sclerks s c))) s).
Proof.
  intros [H1 H2 H3 H4 H5 H6 H7].
  assert (forall c', sck_clientId (upd (sclerks s) c (mkSClerk conf (sck_clientId (sclerks s c)) (sck_seq (sclerks s c))) c') =
      sck_clientId (sclerks s c') /\
    sck_seq (upd (sclerks s) c (mkSClerk conf (sck_clientId (sclerks s c)) (sck_seq (sclerks s c))) c') = sck_seq (sclerks s c')) as E.
  { intros c'. by upd_cases c c'. }
  split; simpl; try done.
  - intros c'. destruct (E c') as [-> ->]. apply H1.
  - intros op (t & key & value & cid & seq & -> & ?)%H2. exists t, key, value, cid, seq. destruct (E cid) as [_ ->]. done.
  - intros c' op start Hb. destruct (E c') as [_ ->]. by apply H6.
Qed.

Lemma clerked_send s c op start g : clerked s -> sbusy s c = SCalling op start -> clerked (addRequest g op s).
Proof.
  intros [H1 H2 H3 H4 H5 H6 H7] Hb. split; try done. simpl.
  intros g' op' [[= -> ->]|?]%elem_of_cons; [by eapply H6|by eapply H4].
Qed.

Lemma clerked_return s c op start res :
  clerked s -> sbusy s c = SCalling op start -> skvLinearized (global s) op start (length (global s)) res ->
  clerked (endCall c (mkSCall op start (length (global s)) res) s).
Proof.
  intros [H1 H2 H3 H4 H5 H6 H7] Hb Hl. split; try done; simpl.
  - intros c' op' start'. upd_cases c c'; [done|apply H6].
  - intros h [?| ->%list_elem_of_singleton]%elem_of_app; [by apply H7|done].
Qed.

(** ** What a client is answered *)

(** What a group does with a client's operation that it accepts. *)
Lemma applyClientOp_accepted g t key value cid seq k res :
  (applyClientOp g t key value cid seq k).2 = res -> sr_err res = SOK \/ sr_err res = SErrNoKey ->
  exists sh, shards k !! key2shard key = Some sh /\ State sh = Serving /\
    match t with
    | TGet => match Data sh !! key with
              | Some v => sr_err res = SOK /\ sr_value res = v
              | None => sr_err res = SErrNoKey /\ sr_value res = EmptyString
              end
    | _ => sr_err res = SOK /\
        (writeOf g t key value cid seq k = [mkWrite t key value cid seq] \/
         exists last, dedup k !! cid = Some last /\ seq <= last)
    end.
Proof.
  unfold applyClientOp, writeOf, canServe. intros <-. destruct (negb _); [by intros [?|?]|].
  destruct (shards k !! key2shard key) as [sh|] eqn:Hs; [|by intros [?|?]].
  case_bool_decide as Hst; cbn [negb]; [|by intros [?|?]]. intros _. exists sh. split; [done|]. split; [done|].
  destruct t; [by destruct (Data sh !! key)|..];
    (destruct (dedup k !! cid) as [last|]; [destruct (Z.leb_spec seq last)|]; simpl; split; [done|eauto|done|eauto|done|eauto]).
Qed.

Lemma applySOp_id g op k :
  sr_err (applySOp g op k).2 = ErrNone \/
  exists t key value cid seq, op = ClientOp t key value cid seq /\
    sr_clientId (applySOp g op k).2 = cid /\ sr_seq (applySOp g op k).2 = seq.
Proof.
  destruct op as [t key value cid seq| | | |]; try (by left). right. exists t, key, value, cid, seq. split; [done|].
  simpl. unfold applyClientOp. repeat case_match; done.
Qed.

Section answers.
Context `{StateCodec SOp} `{CoreCodec} (n : nat) (ordered : bool) (cfg : Z -> Config).
Context `{!CoreCodecOk} `{!StateCodecOk SOp}.
Implicit Types (s : SkvSystem).

(** An accepted answer is the outcome of the call's own command. *)
Lemma answer_position s g i t key value cid seq res :
  grouped n ordered s -> clerked s -> g <> 0 -> peer n i ->
  let op := ClientOp t key value cid seq in
  op ∈ calls s -> (op, res) ∈ sn_answered (servers (groups s g) i) ->
  sr_err res = SOK \/ sr_err res = SErrNoKey ->
  exists p, global s !! p = Some (g, op) /\ res = (applySOp g op (coreOf (take p (global s)) g)).2.
Proof.
  intros Hs Hc Hg Hi op Hop Hans Hres. destruct (server_prefix n ordered s g i Hs Hg Hi) as [p0 Hk].
  destruct (sk_answered _ _ _ _ Hk _ _ Hans) as [E|[E|(j & res' & Hout & Hchk)]]; [destruct Hres; congruence..|].
  assert (sr_clientId res' = cid /\ sr_seq res' = seq /\ res = res') as (Ec & Es & ->).
  { unfold op, submitCheck in Hchk. destruct (Z.eqb_spec (sr_clientId res') cid), (Z.eqb_spec (sr_seq res') seq);
      simpl in Hchk; subst; auto; by destruct Hres. }
  unfold outcomeAt in Hout. apply bind_Some in Hout as (op' & Hop' & [= <-]).
  pose proof (go_index_Some_bound _ _ _ Hop') as Hj. unfold go_index in Hop'.
  rewrite (proj2 (Z.leb_le 0 (j - 1))) in Hop' by lia.
  destruct (logOf_lookup g (global s) _ op' Hop') as (p & Hp & Elog).
  assert (op' = op) as ->.
  { destruct (applySOp_id g op' (coreAt g (logOf g (global s)) (j - 1))) as [E|(t' & k' & v' & cid' & seq' & -> & E1 & E2)];
      [destruct Hres; congruence|].
    apply (sl_unique _ Hc); [|done|simpl; congruence]. eapply (sl_pending _ Hc g).
    by eapply (gr_global _ _ _ Hs), list_elem_of_lookup_2. }
  exists p. split; [done|]. unfold coreOf, coreAt. by rewrite Elog.
Qed.

(** The write that a group takes for already made was made by the call. *)
Lemma seen_write s g t key value cid seq last p :
  grouped n ordered s -> clerked s -> g <> 0 -> (p <= length (global s))%nat ->
  let op := ClientOp t key value cid seq in
  op ∈ calls s -> seq = sck_seq (sclerks s cid) ->
  dedup (coreOf (take p (global s)) g) !! cid = Some last -> seq <= last ->
  exists q g', global s !! q = Some (g', op) /\
    writesOf (take (S q) (global s)) = writesOf (take q (global s)) ++ [mkWrite t key value cid seq].
Proof.
  intros Hs Hc Hg Hp op Hop Hseq Hd Hle.
  destruct (so_table _ (gr_sound _ _ _ Hs p) g cid last Hg Hd) as (x & Hx & Ecid & Elast).
  apply list_elem_of_lookup in Hx as (i & Hi).
  eapply (prefix_lookup_Some _ (writesOf (global s))) in Hi; [|by apply writesOf_prefix].
  destruct (writesOf_lookup _ _ _ Hi) as (q & [g' op'] & Hq & Hw & _). exists q, g'.
  assert (exists t' k' v', op' = ClientOp t' k' v' cid last /\ x = mkWrite t' k' v' cid last) as (t' & k' & v' & -> & ->).
  { unfold writeIn in Hw. cbn [fst snd] in Hw. destruct op' as [t' k' v' cid' seq'| | | |]; try done.
    exists t', k', v'. unfold writeOf in Hw. repeat case_match; by simplify_eq. }
  assert (ClientOp t' k' v' cid last ∈ calls s) as Hin'.
  { eapply (sl_pending _ Hc g'). by eapply (gr_global _ _ _ Hs), list_elem_of_lookup_2. }
  assert (last = seq) as ->.
  { destruct (sl_calls _ Hc _ Hin') as (? & ? & ? & ? & ? & [= _ _ _ <- <-] & ?). lia. }
  assert (ClientOp t' k' v' cid seq = op) as [= -> -> ->] by (by apply (sl_unique _ Hc)).
  split; [done|]. rewrite (take_S_r _ _ _ Hq), writesOf_snoc. by rewrite Hw.
Qed.

Lemma answer_skvLinearized s g i c op start res :
  grouped n ordered s -> clerked s -> g <> 0 -> peer n i -> sbusy s c = SCalling op start ->
  (op, res) ∈ sn_answered (servers (groups s g) i) -> skvAccepts op res = true ->
  skvLinearized (global s) op start (length (global s)) res.
Proof.
  intros Hs Hc Hg Hi Hb Hans Hacc. destruct (sl_busy _ Hc _ _ _ Hb) as (Hop & Hid & _ & Hstart).
  destruct (sl_calls _ Hc _ Hop) as (t & key & value0 & cid & seq & E & _). unfold skvCall in E.
  set (value := match t with TGet => EmptyString | _ => value0 end) in E. clearbody value. subst op.
  injection Hid as -> Hseq.
  assert (sr_err res = SOK \/ sr_err res = SErrNoKey) as Hres.
  { unfold skvAccepts, goodGet, goodPut in Hacc. destruct t; [apply orb_prop in Hacc as [?|?]|..]; b2p; auto. }
  destruct (answer_position s g i t key value c seq res Hs Hc Hg Hi Hop Hans Hres) as (p & Hp & Eres).
  pose proof (lookup_lt_Some _ _ _ Hp) as Hlt.
  destruct (applyClientOp_accepted g t key value c seq _ res (eq_sym Eres) Hres) as (sh & Hsh & Hst & Hr).
  destruct t.
  { exists p, g. split; [specialize (Hstart _ _ Hp); lia|]. split; [done|]. rewrite replay_shard.
    fold (shardWrites (key2shard key) (take p (global s))).
    rewrite <- (so_data _ (gr_sound _ _ _ Hs p) g _ sh Hg Hsh) by (by left). done. }
  all: destruct Hr as [Hok [Hw|(last & Hd & Hle)]].
  1,3: exists p, g; split; [specialize (Hstart _ _ Hp); lia|]; split; [done|]; split; [done|];
    rewrite (take_S_r _ _ _ Hp), writesOf_snoc; unfold writeIn; cbn [fst snd]; by rewrite Hw.
  all: edestruct (seen_write s g) as (q & g' & Hq & Hw);
    [exact Hs|exact Hc|exact Hg| |exact Hop|exact Hseq|exact Hd|done|]; [lia|];
    exists q, g'; pose proof (lookup_lt_Some _ _ _ Hq); split; [specialize (Hstart _ _ Hq); lia|done].
Qed.

(** ** The theorem *)

Record sysinv s : Prop := {
  sy_grouped : grouped n ordered s;
  sy_linked : exists w, linked cfg s w;
  sy_clerked : clerked s;
}.

Lemma sysinv_step s s' : controller_ok cfg -> sysinv s -> skstep n ordered cfg s s' -> sysinv s'.
Proof.
  intros Hcfg [Hs [w Hl] Hc] Hstep.
  destruct (linked_step n ordered cfg s s' w Hcfg Hs Hl) as [Hs' Hl']; [|done|].
  { intros g op Hin. apply (sl_requests _ Hc), (sl_calls _ Hc) in Hin as (t & key & value & cid & seq & -> & _). unfold skvCall. eauto 10. }
  split; [done..|]. clear Hs' Hl'.
  assert (forall g op, (forall t key value cid seq, op = ClientOp t key value cid seq -> op ∈ calls s) ->
    clerked (addPending g op s)) as Hadd.
  { intros g op Hop. apply (clerked_pending s); try done.
    intros g' t key value cid seq [[= <- E]|?]%elem_of_cons; [right|by left]. rewrite E. by eapply Hop. }
  destruct Hstep as [g a r Hg Hstep Ha|g i isLeader query op Hg Hi Hq Hp|g i order p names num ss Hg Hi Hin
    |g p num ss j isLeader data d Hp Hin Hj Hpull|g i order p names num ss Hg Hi Hin
    |g p num ss j isLeader op Hp Hin Hj Hd|g p num ss j isLeader Hp Hin Hj Hd|g p num ss j res Hp Hin Hj Hans Hres
    |g isLeader has op Hg He|g i op op' Hg Hi Hin Hh|c t key value ck seq Hb Hlt Hn|c op start Hb Ht|c m Hm|c op start g i res Hb Hg Hi Hans Hacc].
  - by apply clerked_group.
  - apply Hadd. intros t key value cid seq ->. unfold configPoller, configPoller_propose in Hp.
    destruct isLeader; [|done]. apply bind_Some in Hp as (m & _ & Hp). by case_match.
  - by apply (clerked_pending s); auto.
  - by apply Hadd.
  - by apply (clerked_pending s); auto.
  - apply (clerked_pending s); try done. intros g' t key value cid seq [[= <- E]|?]%elem_of_cons; [|by left].
    unfold DeleteShard in Hd. by repeat case_match; simplify_eq.
  - by apply Hadd.
  - by apply Hadd.
  - apply Hadd. unfold emptyLogChecker in He. case_match; simplify_eq. by intros.
  - apply Hadd. intros t key value cid seq ->. pose proof (sl_requests _ Hc _ _ Hin) as Hop.
    destruct (sl_calls _ Hc _ Hop) as (t' & key' & value' & cid' & seq' & -> & _). by apply skvHandler_same in Hh as ->.
  - apply clerked_call; try done. intros g op Hin. by apply (gr_global _ _ _ Hs).
  - by eapply clerked_send.
  - by apply clerked_refresh.
  - apply clerked_return; [done|done|]. by eapply answer_skvLinearized.
Qed.

Lemma skreachable_inv max s :
  controller_ok cfg -> (0 < n)%nat -> ordered = true \/ max < 0 -> skreachable n ordered cfg max s -> sysinv s.
Proof.
  intros Hcfg Hn Ho (envs & Hr). assert (sysinv (skinit n envs max)) as Hi.
  { split; [by apply grouped_init|exists minit; apply linked_init|].
    split; simpl; try done; intros; by match goal with Hin : _ ∈ [] |- _ => apply not_elem_of_nil in Hin end. }
  revert Hi. induction Hr; eauto using sysinv_step.
Qed.

(** Every write is that of a call, and none is made twice. *)
Lemma write_call s x : sysinv s -> x ∈ writesOf (global s) ->
  ClientOp (w_type x) (w_key x) (w_value x) (w_cid x) (w_seq x) ∈ calls s.
Proof.
  intros Hs [i Hi]%list_elem_of_lookup. destruct (writesOf_lookup _ _ _ Hi) as (q & [g op] & Hq & Hw & _).
  eapply (sl_pending _ (sy_clerked _ Hs) g), (gr_global _ _ _ (sy_grouped _ Hs)), list_elem_of_lookup_2.
  rewrite Hq. do 2 f_equal. unfold writeIn in Hw. cbn [fst snd] in Hw. destruct op as [t k v cid seq| | | |]; try done.
  unfold writeOf in Hw. repeat case_match; by simplify_eq.
Qed.

Lemma filter_split {A} (P : A -> Prop) `{forall x, Decision (P x)} (l : list A) i j x y :
  (i < j)%nat -> l !! i = Some x -> l !! j = Some y -> P x -> P y ->
  exists i' j', (i' < j')%nat /\ filter P l !! i' = Some x /\ filter P l !! j' = Some y.
Proof.
  intros Hij Hx Hy HPx HPy. pose proof (lookup_lt_Some _ _ _ Hy) as Hlt.
  rewrite <- (take_drop j l) in *. assert (length (take j l) = j) as Hlen by (rewrite length_take; rewrite length_app, length_take, length_drop in Hlt; lia).
  rewrite lookup_app_l in Hx by lia. rewrite lookup_app_r, Hlen, Nat.sub_diag in Hy by lia.
  assert (x ∈ filter P (take j l)) as Hx' by (apply list_elem_of_filter; split; [done|by eapply list_elem_of_lookup_2]).
  assert (y ∈ filter P (drop j l)) as Hy' by (apply list_elem_of_filter; split; [done|by eapply list_elem_of_lookup_2]).
  apply list_elem_of_lookup in Hx' as [i' Hi'], Hy' as [j' Hj']. pose proof (lookup_lt_Some _ _ _ Hi').
  exists i', (length (filter P (take j l)) + j')%nat. rewrite filter_app. split; [lia|].
  split; [by apply lookup_app_l_Some|]. rewrite lookup_app_r by lia. by replace (_ + j' - _)%nat with j' by lia.
Qed.

Lemma writes_once s : sysinv s -> NoDup ((fun x => (w_cid x, w_seq x)) <$> writesOf (global s)).
Proof.
  intros Hs. apply NoDup_alt. intros i j id Hi Hj.
  rewrite list_lookup_fmap in Hi, Hj. apply fmap_Some in Hi as (x & Hx & ->), Hj as (y & Hy & E).
  injection E as Ec Es.
  assert (key2shard (w_key x) = key2shard (w_key y)) as Ek.
  { f_equal. pose proof (sl_unique _ (sy_clerked _ Hs) _ _ (write_call s x Hs ltac:(by eapply list_elem_of_lookup_2))
      (write_call s y Hs ltac:(by eapply list_elem_of_lookup_2)) ltac:(simpl; congruence)) as [= _ -> _ _ _]. done. }
  pose proof (so_once _ (gr_sound _ _ _ (sy_grouped _ Hs) (length (global s))) (key2shard (w_key y))) as Hinc.
  rewrite firstn_all in Hinc. unfold shardWrites in Hinc.
  destruct (Nat.lt_trichotomy i j) as [Hlt|[?|Hlt]]; [exfalso|done|exfalso].
  - destruct (filter_split (fun x => key2shard (w_key x) = key2shard (w_key y)) _ _ _ _ _ Hlt Hx Hy) as (i' & j' & Hlt' & Hx' & Hy'); [done|done|].
    specialize (Hinc _ _ _ _ Hlt' Hx' Hy' Ec). lia.
  - destruct (filter_split (fun x => key2shard (w_key x) = key2shard (w_key y)) _ _ _ _ _ Hlt Hy Hx) as (i' & j' & Hlt' & Hx' & Hy'); [done|done|].
    specialize (Hinc _ _ _ _ Hlt' Hx' Hy' (eq_sym Ec)). lia.
Qed.

(** C5. The sharded service behaves like one key/value store: while configurations change,
    shards move from group to group, servers crash, restart and take snapshots, and messages
    are lost, delayed and repeated, every call that returned took effect between its
    invocation and its return, a [Get] with the value that the writes made until then, at
    all groups, give its key, a [Put] or [Append] as one of these writes; each request is
    executed at most once, also if it was retried at several groups; and every server holds
    the state of a prefix of its group's commands.  The controller is assumed not to
    unassign a shard again ([controller_ok]).  If servers do not compact their logs ([max]
    negative) nothing is assumed of Raft; if they do, this is about the runs in which no
    command is received before a snapshot that was installed before it ([ordered]). *)
Theorem shardkv_linearizable max s :
  controller_ok cfg -> (0 < n)%nat -> ordered = true \/ max < 0 -> skreachable n ordered cfg max s ->
  (forall h, h ∈ shistory s -> skvLinearized (global s) (h_op h) (h_start h) (h_end h) (h_res h)) /\
  NoDup ((fun x => (w_cid x, w_seq x)) <$> writesOf (global s)) /\
  (forall x, x ∈ writesOf (global s) -> ClientOp (w_type x) (w_key x) (w_value x) (w_cid x) (w_seq x) ∈ calls s) /\
  forall g i, g <> 0 -> peer n i -> exists p, 0 <= p <= zlen (logOf g (global s)) /\
    serverCore s g i = coreAt g (logOf g (global s)) p.
Proof.
  intros Hcfg Hn Ho Hr. pose proof (skreachable_inv max s Hcfg Hn Ho Hr) as Hs.
  split; [apply (sl_history _ (sy_clerked _ Hs))|]. split; [by apply writes_once|].
  split; [intros x; by apply write_call|]. intros g i Hg Hi.
  destruct (server_prefix n ordered s g i (sy_grouped _ Hs) Hg Hi) as [p Hk]. exists p.
  pose proof (sk_pos _ _ _ _ Hk). split; [lia|]. apply (sk_core _ _ _ _ Hk).
Qed.

(** At any time at most one group serves a shard, as far as the commands its servers have
    been told of are concerned. *)
Theorem shardkv_one_owner max s g g' shard :
  controller_ok cfg -> (0 < n)%nat -> ordered = true \/ max < 0 -> skreachable n ordered cfg max s ->
  g <> 0 -> g' <> 0 -> canServe g shard (coreOf (global s) g) = true ->
  canServe g' shard (coreOf (global s) g') = true -> g = g'.
Proof.
  intros Hcfg Hn Ho Hr Hg Hg' (sh & Hs & Hst)%canServe_serving (sh' & Hs' & Hst')%canServe_serving.
  pose proof (gr_sound _ _ _ (sy_grouped _ (skreachable_inv max s Hcfg Hn Ho Hr)) (length (global s))) as Hsnd.
  rewrite firstn_all in Hsnd. by eapply (so_holder _ Hsnd g g' shard sh sh'); try (by left).
Qed.
End answers.

(** ** Running the system *)

Section run.
Context `{EqDecision SOp} `{StateCodec SOp} `{CoreCodec} (n : nat) (ordered : bool) (cfg : Z -> Config).
Implicit Types (s : SkvSystem).

Inductive SkEvent :=
| SkRep (g : Z) (ev : RpEvent (Op := SOp) (SE := skvExec g))
| SkStart (g i : Z) (k : nat)             (* the [k]-th command that is pending *)
| SkPoll (g i : Z)
| SkPull (g i : Z) (k : nat)              (* the [k]-th request of the round *)
| SkPullReply (k : nat) (j : Z)           (* the [k]-th message arrives at server [j] *)
| SkGC (g i : Z) (k : nat)
| SkDelete (k : nat) (j : Z)
| SkDeleteReply (k : nat) (j : Z) (a : nat) (* with the [a]-th answer of server [j] *)
| SkHandle (k : nat) (i : Z)
| SkCall (c : Z) (t : OpType) (key value : string)
| SkSend (c : Z)
| SkRefresh (c m : Z)
| SkReturn (c g i : Z) (k : nat).

Definition isGroup (g i : Z) : bool := negb (g =? 0) && isPeer n i.

Definition keysOf (k : Core) : list Z := (map_to_list (shards k)).*1.

Definition skexec (ev : SkEvent) s : option SkvSystem :=
  match ev with
  | SkRep g ev =>
      if g =? 0 then None else
      '(a, r) ← rpexec (SE := skvExec g) n ordered ev (groups s g);
      match a with AStart _ _ _ => None | _ => Some (withGroup g r s) end
  | SkStart g i k =>
      if g =? 0 then None else
      '(g', op) ← pending s !! k;
      if g' =? g then
        '(a, r) ← rpexec (SE := skvExec g) n ordered (RStart i op) (groups s g);
        match a with AStart _ op' _ => if bool_decide (op' = op) then Some (withGroup g r s) else None | _ => None end
      else None
  | SkPoll g i =>
      if isGroup g i then
        op ← configPoller true (fun m => cfg (Z.max 0 m)) (serverCore s g i); Some (addPending g op s)
      else None
  | SkPull g i k =>
      if isGroup g i then
        '(p, _, num, ss) ← pullRequests (keysOf (serverCore s g i)) (serverCore s g i) !! k;
        Some (addPullMsg (g, p, num, ss) s)
      else None
  | SkPullReply k j =>
      '(g, p, num, ss) ← pullMsgs s !! k;
      if isGroup p j then
        match PullShard true num ss (serverCore s p j) with
        | (SOK, data, d) => Some (addPending g (shardPuller_propose num ss data d) s)
        | _ => None
        end
      else None
  | SkGC g i k =>
      if isGroup g i then
        '(p, _, num, ss) ← gcRequests (keysOf (serverCore s g i)) (serverCore s g i) !! k;
        Some (addDeleteMsg (g, p, num, ss) s)
      else None
  | SkDelete k j =>
      '(g, p, num, ss) ← deleteMsgs s !! k;
      if isGroup p j then
        match DeleteShard true num ss (serverCore s p j) with
        | inr op => Some (s |> addDeleting (g, p, num, ss) |> addPending p op)
        | inl SOK => Some (addPending g (shardGC_propose num ss) s)
        | _ => None
        end
      else None
  | SkDeleteReply k j a =>
      '(g, p, num, ss) ← deleting s !! k;
      if isGroup p j then
        '(op, res) ← sn_answered (servers (groups s p) j) !! a;
        if bool_decide (op = DeleteShardOp num ss) && bool_decide (DeleteShard_reply res = SOK)
        then Some (addPending g (shardGC_propose num ss) s) else None
      else None
  | SkHandle k i =>
      '(g, op) ← requests s !! k;
      if isGroup g i then
        match skvHandler op (sn_srv (servers (groups s g) i)) with
        | inr op' => Some (addPending g op' s) | inl _ => None end
      else None
  | SkCall c t key value =>
      match sbusy s c with
      | SIdle =>
          if sck_seq (sclerks s c) <? 2 ^ 63 - 1 then
            let '(ck, seq) := sck_nextSeq (sclerks s c) in
            Some (s |> setClerk c ck |> beginCall c (skvCall t key value (sck_clientId ck) seq))
          else None
      | SCalling _ _ => None
      end
  | SkSend c =>
      match sbusy s c with
      | SCalling op _ =>
          let conf := sck_config (sclerks s c) in
          if isSome (Groups conf !! skvTarget op conf) then Some (addRequest (skvTarget op conf) op s) else None
      | SIdle => None
      end
  | SkRefresh c m =>
      if 0 <=? m then Some (setClerk c (mkSClerk (cfg m) (sck_clientId (sclerks s c)) (sck_seq (sclerks s c))) s) else None
  | SkReturn c g i k =>
      if isGroup g i then
        '(op', res) ← sn_answered (servers (groups s g) i) !! k;
        match sbusy s c with
        | SCalling op start =>
            if bool_decide (op' = op) && skvAccepts op res
            then Some (endCall c (mkSCall op start (length (global s)) res) s) else None
        | SIdle => None
        end
      else None
  end.

Definition skrun (evs : list SkEvent) s : option SkvSystem :=
  foldl (fun o ev => s ← o; skexec ev s) (Some s) evs.

Lemma isGroup_spec g i : isGroup g i = true -> g <> 0 /\ peer n i.
Proof. unfold isGroup. intros [Hg Hi]%andb_prop. apply isPeer_peer in Hi. split; [|done]. b2p. done. Qed.

Ltac group_tac He :=
  match type of He with (if isGroup ?g ?i then _ else _) = _ =>
    let Hg := fresh "Hg" in let Hi := fresh "Hi" in
    destruct (isGroup g i) eqn:Hg; [apply isGroup_spec in Hg as [Hg Hi]|done] end.

Lemma skexec_sound ev s s' : skexec ev s = Some s' -> skstep n ordered cfg s s'.
Proof.
  intros He. destruct ev as [g ev|g i k|g i|g i k|k j|g i k|k j|k j a|k i|c t key value|c|c m|c g i k]; cbn [skexec] in He.
  - destruct (Z.eqb_spec g 0) as [|Hg]; [done|]. apply bind_Some in He as ([a r] & Hr & He). apply (rpexec_sound (SE := skvExec g)) in Hr.
    assert (forall i op x, a <> AStart i op x) as Ha by (intros i op x ->; done).
    assert (s' = withGroup g r s) as -> by (by destruct a; simplify_eq).
    eapply sk_group; [done|exact Hr|]. intros i op x ->. by destruct (Ha i op x).
  - destruct (Z.eqb_spec g 0) as [|Hg]; [done|]. apply bind_Some in He as ([g' op] & Hk & He).
    destruct (Z.eqb_spec g' g) as [->|]; [|done]. apply bind_Some in He as ([a r] & Hr & He). apply (rpexec_sound (SE := skvExec g)) in Hr.
    destruct a as [|j op' x|]; [done| |done]. case_bool_decide; [|done]. subst op'. injection He as <-.
    eapply sk_group; [done|exact Hr|]. intros ? ? ? [= _ <- _]. by eapply list_elem_of_lookup_2.
  - group_tac He. apply bind_Some in He as (op & Hp & He). simplify_eq. eapply sk_poll; [done|done| |done].
    intros m. exists (Z.max 0 m). split; [lia|done].
  - group_tac He. apply bind_Some in He as ([[[p names] num] ss] & Hk & He). simplify_eq.
    eapply sk_pull; [done|done|by eapply list_elem_of_lookup_2].
  - apply bind_Some in He as ([[[g p] num] ss] & Hk & He). group_tac He.
    destruct (PullShard _ _ _ _) as [[[] data] d] eqn:Hp; simplify_eq.
    eapply sk_pull_reply; [done|by eapply list_elem_of_lookup_2|done|done].
  - group_tac He. apply bind_Some in He as ([[[p names] num] ss] & Hk & He). simplify_eq.
    eapply sk_gc; [done|done|by eapply list_elem_of_lookup_2].
  - apply bind_Some in He as ([[[g p] num] ss] & Hk & He). group_tac He. apply list_elem_of_lookup_2 in Hk.
    destruct (DeleteShard _ _ _ _) as [[]|op] eqn:Hd; simplify_eq; [by eapply sk_delete_done|by eapply sk_delete].
  - apply bind_Some in He as ([[[g p] num] ss] & Hk & He). group_tac He. apply list_elem_of_lookup_2 in Hk.
    apply bind_Some in He as ([op res] & Ha & He). destruct (_ && _) eqn:Hc; [|done]. apply andb_prop in Hc as [? ?]. b2p.
    simplify_eq. eapply sk_delete_reply; [done|done|done|by eapply list_elem_of_lookup_2|done].
  - apply bind_Some in He as ([g op] & Hk & He). group_tac He. apply list_elem_of_lookup_2 in Hk.
    destruct (skvHandler _ _) as [|op'] eqn:Hh; simplify_eq. by eapply sk_handle.
  - case_match eqn:Hb; [|done]. case_match eqn:Hs; [|done]. b2p. destruct (sck_nextSeq _) as [ck seq] eqn:Hn. simplify_eq.
    by apply sk_call.
  - destruct (sbusy s c) as [|op start] eqn:Hb; [done|]. destruct (Groups _ !! _) eqn:Hg; [|done]. simpl in He. simplify_eq.
    eapply sk_send; [done|by rewrite Hg].
  - case_match eqn:Hm; [|done]. b2p. simplify_eq. by apply sk_refresh.
  - group_tac He. apply bind_Some in He as ([op' res] & Hk & He). destruct (sbusy s c) as [|op start] eqn:Hb; [done|].
    destruct (_ && _) eqn:Hc; [|done]. apply andb_prop in Hc as [? ?]. b2p. subst op'. simplify_eq.
    eapply sk_return; [done|done|done|by eapply list_elem_of_lookup_2|done].
Qed.

Lemma skrun_sound evs s s' : skrun evs s = Some s' -> rtc (skstep n ordered cfg) s s'.
Proof.
  revert s'. induction evs as [|ev evs IH] using rev_ind; intros s' Hr; [injection Hr as <-; apply rtc_refl|].
  unfold skrun in *. rewrite foldl_app in Hr. simpl in Hr.
  apply bind_Some in Hr as (s1 & Hs1 & He). eapply rtc_r; eauto using skexec_sound.
Qed.
End run.

(** ** Example *)

#[global] Instance SOp_eq_dec : EqDecision SOp.
Proof. solve_decision. Defined.

#[global] Instance SOp_countable : Countable SOp.
Proof.
  refine (inj_countable' (fun op => match op with
      | ClientOp t key value cid seq => inl (t, key, value, cid, seq)
      | ConfigOp c => inr (inl c)
      | InstallShardOp num ss data d => inr (inr (inl (num, ss, data, d)))
      | DeleteShardOp num ss => inr (inr (inr (inl (num, ss))))
      | EmptyOp => inr (inr (inr (inr tt))) end)
    (fun x => match x with
      | inl (t, key, value, cid, seq) => ClientOp t key value cid seq
      | inr (inl c) => ConfigOp c
      | inr (inr (inl (num, ss, data, d))) => InstallShardOp num ss data d
      | inr (inr (inr (inl (num, ss)))) => DeleteShardOp num ss
      | inr (inr (inr (inr _))) => EmptyOp end) _).
  by intros [].
Defined.

Abbreviation skraft g ev := (SkRep g (RRaft ev)).
Abbreviation skgo g k := (SkRep g (RRaft (EvThread lateEnv k))).
Abbreviation skserve g e := (SkRep g (RServe (SE := skvExec g) 0 e)).

(** Server 0 of group [g] becomes leader; it starts the latest pending command, and its
    service applies it; the same for a handler that waits for the outcome. *)
Definition demoElect (g : Z) : list SkEvent :=
  [skraft g (EvTick lateEnv 0); skgo g 0; skgo g 0; skraft g (EvLose 0); skgo g 0; skgo g 0; skgo g 0; skgo g 0;
   skraft g (EvLose 0)].

Definition demoCommit (g : Z) : list SkEvent :=
  [skgo g 0; skgo g 0; skgo g 0; skgo g 0; skraft g (EvLose 0);
   skraft g (EvApplier 0); SkRep g (RReceive (EvDeliver 0)); SkRep g (RApply 0)].

Definition demoStart (g : Z) : list SkEvent := SkStart g 0 0 :: demoCommit g.

Definition demoSubmit (g : Z) : list SkEvent :=
  [SkStart g 0 0; skserve g (SnRegister 0)] ++ demoCommit g ++ [skserve g (SnTake 0)].

(** Clerk 5 puts a key at group 1; the shards move to group 2; the clerk looks for the
    key at group 1, learns of the new configuration, and reads it at group 2. *)
Definition demoSkv : list SkEvent :=
  demoElect 1 ++ [SkPoll 1 0] ++ demoStart 1 ++
  [SkRefresh 5 1; SkCall 5 TPut "k" "a"; SkSend 5; SkHandle 0 0] ++ demoSubmit 1 ++
  [SkReturn 5 1 0 0; SkPoll 1 0] ++ demoStart 1 ++
  demoElect 2 ++ [SkPoll 2 0] ++ demoStart 2 ++ [SkPoll 2 0] ++ demoStart 2 ++
  [SkPull 2 0 0; SkPullReply 0 0] ++ demoStart 2 ++
  [SkGC 2 0 0; SkDelete 0 0] ++ demoSubmit 1 ++ [SkDeleteReply 0 0 0] ++ demoStart 2 ++
  [SkCall 5 TGet "k" EmptyString; SkSend 5; SkRefresh 5 2; SkSend 5; SkHandle 0 0] ++ demoSubmit 2 ++ [SkReturn 5 2 0 0].

Definition demoSystem : SkvSystem :=
  let s0 := skinit 3 (fun _ _ => demoEnv) (-1) in default s0 (skrun 3 false demoCfg demoSkv s0).

Lemma demoSystem_reachable : skreachable 3 false demoCfg (-1) demoSystem.
Proof.
  exists (fun _ _ => demoEnv). apply (skrun_sound 3 false demoCfg demoSkv). unfold demoSystem.
  assert (isSome (skrun 3 false demoCfg demoSkv (skinit 3 (fun _ _ => demoEnv) (-1))) = true) as E by (vm_compute; reflexivity).
  destruct (skrun 3 false demoCfg demoSkv _); [reflexivity|discriminate E].
Qed.

Lemma shardkv_linearizable_witness :
  (fun h => (h_op h, sr_value (h_res h))) <$> shistory demoSystem =
    [(ClientOp TPut "k" "a" 5 1, EmptyString); (ClientOp TGet "k" EmptyString 5 2, "a"%string)] /\
  forall h, h ∈ shistory demoSystem ->
    skvLinearized (global demoSystem) (h_op h) (h_start h) (h_end h) (h_res h).
Proof.
  split; [vm_compute; reflexivity|].
  apply (shardkv_linearizable 3 false demoCfg (-1) demoSystem demoCfg_ok); [lia|right; lia|exact demoSystem_reachable].
Defined.

Lemma shardkv_one_owner_witness :
  forall g, g <> 0 -> canServe g 3 (coreOf (global demoSystem) g) = true -> g = 2.
Proof.
  intros g Hg Hs.
  apply (shardkv_one_owner 3 false demoCfg (-1) demoSystem g 2 3 demoCfg_ok); [lia|right; lia|exact demoSystem_reachable|done|lia|done|].
  vm_compute. reflexivity.
Defined.
