(* ===== verification/SkvController.v ===== *)
(** * The controller serves the sharded service

    [SkvSystem] relies on what the controller tells the groups: configuration [n] is
    number [n], the first one is empty, and a shard that has been assigned is not
    unassigned later ([controller_ok]).  This file shows that the configurations the shard
    controller makes are such, as long as its users do not remove the last group or assign
    shards to groups that are not there, and that every answer to a Query is one of them. *)

From S2P Require Import Prelude Persister Raft Waiters Dedup KvRaft ShardCtrler Rebalance ScCluster ShardKV ShardMigration.

(** Configuration [m] of a controller; beyond its last one, the last one again. *)
Definition cfgOf (sc : ShardCtrler) (m : Z) : Config :=
  match configs sc @! m with
  | Some c => c
  | None => mkConfig m (Shards (default config0 (last (configs sc)))) (Groups (default config0 (last (configs sc))))
  end.

(** The uses of the controller that leave every shard assigned. *)
Definition steady (op : ScOp) (c : Config) : Prop :=
  match so_Type op with
  | Join => so_Servers op !! 0 = None
  | Leave => Groups c = ∅ \/ exists g, is_Some (Groups c !! g) /\ g ∉ so_GIDs op
  | Move => 0 <= so_Shard op < NShards /\ is_Some (Groups c !! so_GID op)
  | Query => True
  end.

Definition steadyLog (ops : list ScOp) : Prop :=
  forall k op sc c, ops !! k = Some op -> scRun ascending (take k ops) (StartServer 0) = Some sc ->
    last (configs sc) = Some c -> steady op c.

(** All shards have a group, or none has and there are no groups. *)
Definition wellAssigned (c : Config) : Prop :=
  Groups c !! 0 = None /\ zlen (Shards c) = NShards /\
  (Groups c = ∅ -> forall s, shardOwner c s = 0) /\
  (Groups c <> ∅ -> forall s, 0 <= s < NShards -> shardOwner c s <> 0).

(** The configurations of a controller that is used so. *)
Record steadyConfigs (cs : list Config) : Prop := {
  sd_first : cs !! 0%nat = Some config0;
  sd_num i c : cs !! i = Some c -> Num c = Z.of_nat i;
  sd_assigned i c : cs !! i = Some c -> wellAssigned c;
  sd_groups i j c c' : (i <= j)%nat -> cs !! i = Some c -> cs !! j = Some c' -> Groups c' = ∅ -> Groups c = ∅;
}.

Lemma shardOwner_zero (k : nat) c s : Shards c = replicate k 0 -> shardOwner c s = 0.
Proof.
  intros E. unfold shardOwner, go_index. rewrite E. case_match; [|done].
  destruct (replicate k 0 !! _) as [x|] eqn:Hx; [|done]. by apply lookup_replicate in Hx as [-> _].
Qed.

Lemma wellAssigned_assigned c :
  Groups c !! 0 = None -> zlen (Shards c) = NShards -> assigned c -> wellAssigned c.
Proof.
  intros H0 Hlen Ha. split; [done|]. split; [done|]. unfold assigned in Ha. case_decide as Hg.
  - split; [|done]. intros _ s. by eapply shardOwner_zero.
  - split; [done|]. intros _ s Hs. destruct Ha as [Ha _]. destruct (Ha s Hs) as (g & [x Hx] & Hsh).
    unfold shardOwner. rewrite Hsh. simpl. intros ->. congruence.
Qed.

Lemma steady_numbered cs sc : configs sc = cs -> steadyConfigs cs -> numbered sc.
Proof.
  intros <- Hs. split; [pose proof (sd_first _ Hs) as E; by destruct (configs sc)|].
  intros i c Hc. split; [by apply (sd_num _ Hs)|]. by apply (sd_assigned _ Hs i c Hc).
Qed.

(** One more change. *)
Lemma steadyConfigs_mutation op sc lc sc' :
  steadyConfigs (configs sc) -> last (configs sc) = Some lc -> so_Type op <> Query -> steady op lc ->
  applyMutation ascending op sc = Some sc' -> steadyConfigs (configs sc').
Proof.
  intros Hs Hlast Hq Hst Ha. pose proof (steady_numbered _ sc eq_refl Hs) as Hn.
  pose proof (last_lookup (configs sc)) as Hll. rewrite Hlast in Hll.
  assert (configs sc @! (zlen (configs sc) - 1) = Some lc) as Hlc.
  { unfold go_index, zlen. assert (configs sc <> []) by (by destruct (configs sc)).
    destruct (configs sc) as [|x xs] eqn:E; [done|]. rewrite (proj2 (Z.leb_le 0 _)) by (simpl; lia).
    replace (Z.to_nat _) with (Nat.pred (length (x :: xs))) by (simpl; lia). done. }
  pose proof (sd_assigned _ Hs _ lc (eq_sym Hll)) as (H0 & Hlen & Hemp & Hfull).
  destruct (applyMutation_config ascending op sc lc ascending_visits) as (sc1 & nc & Ha1 & Hcs & Hnum & Hnc); [|done|done|].
  { intros E. unfold steady in Hst. rewrite E in Hst. tauto. }
  unfold madeBy in Hnc.
  destruct (applyMutation_spec ascending op sc ascending_visits) as (sc2 & nc2 & Ha2 & Hn2 & Hcs2); [|done|].
  { intros E. unfold steady in Hst. rewrite E in Hst. tauto. }
  rewrite Ha in Ha1, Ha2. injection Ha1 as <-. injection Ha2 as <-. rewrite Hcs in Hcs2.
  assert (zlen (Shards nc) = NShards) as Hnlen.
  { destruct Hn2 as [_ Hn2]. destruct (Hn2 (length (configs sc)) nc) as [_ ?]; [|done].
    by rewrite Hcs, lookup_app_r, Nat.sub_diag. }
  assert (wellAssigned nc /\ (Groups nc = ∅ -> Groups lc = ∅)) as [Hwa Hgr].
  { unfold steady in Hst. destruct (so_Type op); [| | |done].
    - destruct Hnc as [Eg Has]. split; [apply wellAssigned_assigned; [|done|done]; rewrite Eg|rewrite Eg; intros E].
      + rewrite lookup_union, Hst, H0. done.
      + apply map_empty. intros g. pose proof (lookup_empty (M := gmap Z) (A := list string) g) as Eg'. rewrite <- E in Eg'.
        by apply lookup_union_None in Eg' as [_ ?].
    - destruct Hnc as [Eg Has]. split; [apply wellAssigned_assigned; [|done|done]; rewrite Eg; by case_decide|].
      intros E. destruct Hst as [?|(g & [x Hx] & Hg)]; [done|]. specialize (Eg g). rewrite E, decide_False in Eg by done.
      rewrite lookup_empty in Eg. congruence.
    - destruct Hnc as [Eg Hsh]. destruct Hst as [Hr [x Hx]]. rewrite Eg. split; [|done].
      split; [by rewrite Eg|]. split; [done|]. rewrite Eg. split.
      + intros E. rewrite E, lookup_empty in Hx. done.
      + intros Hne s Hs'. unfold shardOwner. rewrite Hsh. destruct (Z.eqb_spec s (so_Shard op)); [simpl|by apply Hfull].
        intros E. rewrite E in Hx. congruence. }
  rewrite Hcs. split.
  - apply lookup_app_l_Some, Hs.
  - intros i c [[_ Hi]|[-> <-]]%lookup_snoc_Some; [by apply (sd_num _ Hs)|].
    rewrite Hnum, (sd_num _ Hs _ _ (eq_sym Hll)). pose proof (lookup_lt_Some _ _ _ (eq_sym Hll)). lia.
  - intros i c [[_ Hi]|[-> <-]]%lookup_snoc_Some; [by eapply (sd_assigned _ Hs)|done].
  - intros i j c c' Hij [[Hi0 Hi]|[-> <-]]%lookup_snoc_Some [[Hj0 Hj]|[-> <-]]%lookup_snoc_Some E.
    + by eapply (sd_groups _ Hs i j).
    + eapply (sd_groups _ Hs i (Nat.pred (length (configs sc)))); [lia|done|done|auto].
    + lia.
    + done.
Qed.

(** The configurations after any log of such uses. *)
Lemma scRun_steady ops sc :
  steadyLog ops -> scRun ascending ops (StartServer 0) = Some sc -> steadyConfigs (configs sc).
Proof.
  revert sc. induction ops as [|op ops IH] using rev_ind; intros sc Hst Hr.
  { injection Hr as <-. split; simpl; [done|..].
    - intros [|i] c; simpl; [by intros [= <-]|done].
    - intros [|i] c; simpl; [|done]. intros [= <-]. split; [done|]. split; [done|]. split; [|done].
      intros _ s. by eapply shardOwner_zero.
    - intros [|i] [|j] c c' Hij; simpl; [by intros [= <-] [= <-]|done|lia|done]. }
  rewrite scRun_snoc in Hr. apply bind_Some in Hr as (sc1 & Hr & Ha).
  assert (steadyConfigs (configs sc1)) as Hs1.
  { apply IH; [|done]. intros k op' sc' c Hk. pose proof (lookup_lt_Some _ _ _ Hk) as Hlt.
    rewrite <- (take_app_le ops [op] k) by lia. apply (Hst k). by apply lookup_app_l_Some. }
  destruct (last (configs sc1)) as [lc|] eqn:Hlast;
    [|apply last_None in Hlast; pose proof (sd_first _ Hs1) as E; by rewrite Hlast in E].
  assert (steady op lc) as Hop.
  { apply (Hst (length ops) op sc1); [by rewrite lookup_app_r, Nat.sub_diag|by rewrite take_app_length|done]. }
  unfold applyScOp in Ha. case_bool_decide as Hq; [by simplify_eq|]. cbv zeta in Ha.
  destruct (match sc_dedup sc1 !! _ with None => true | Some _ => _ end); [|by simplify_eq].
  apply bind_Some in Ha as (sc2 & Hm & [= <-]). simpl. by eapply steadyConfigs_mutation.
Qed.

(** Configurations are never lost. *)
Lemma scRun_prefix ops k st sc :
  scRun ascending (take k ops) (StartServer 0) = Some st -> scRun ascending ops (StartServer 0) = Some sc ->
  configs st `prefix_of` configs sc.
Proof.
  intros Hk Hr. rewrite <- (take_drop k ops) in Hr. unfold scRun in *. rewrite foldl_app, Hk in Hr.
  revert sc Hr. induction (drop k ops) as [|op l IH] using rev_ind; intros sc Hr; [by injection Hr as <-|].
  rewrite foldl_app in Hr. simpl in Hr. apply bind_Some in Hr as (sc1 & Hr & Ha). etrans; [by apply IH|].
  unfold applyScOp in Ha. case_bool_decide; [by simplify_eq|]. cbv zeta in Ha. case_match; [|by simplify_eq].
  apply bind_Some in Ha as (sc2 & Hm & [= <-]). simpl. unfold applyMutation in Hm.
  apply bind_Some in Hm as (lc & _ & Hm). apply bind_Some in Hm as (nc & _ & [= <-]). simpl. by apply prefix_app_r.
Qed.

Lemma cfgOf_lookup sc m c : configs sc @! m = Some c -> cfgOf sc m = c.
Proof. intros E. unfold cfgOf. by rewrite E. Qed.

(** Configuration [m] is one of the controller's, up to its number. *)
Lemma cfgOf_cases sc m :
  steadyConfigs (configs sc) -> 0 <= m ->
  exists i c, configs sc !! i = Some c /\ Z.of_nat i <= m /\ Shards (cfgOf sc m) = Shards c /\ Groups (cfgOf sc m) = Groups c /\
    Num (cfgOf sc m) = m /\ (Z.of_nat i = m \/ S i = length (configs sc)).
Proof.
  intros Hs Hm. unfold cfgOf. destruct (configs sc @! m) as [c|] eqn:E.
  - exists (Z.to_nat m), c. unfold go_index in E. rewrite (proj2 (Z.leb_le 0 m)) in E by lia.
    pose proof (sd_num _ Hs _ _ E). split_and!; [done|lia|done|done|lia|left; lia].
  - unfold go_index in E. rewrite (proj2 (Z.leb_le 0 m)) in E by lia. apply lookup_ge_None_1 in E.
    rewrite last_lookup. destruct (configs sc !! Nat.pred (length (configs sc))) as [c|] eqn:Hc.
    + exists (Nat.pred (length (configs sc))), c. pose proof (lookup_lt_Some _ _ _ Hc).
      split_and!; [done|lia|done|done|done|right; lia].
    + exfalso. apply lookup_ge_None_1 in Hc. pose proof (sd_first _ Hs) as H0. apply lookup_lt_Some in H0. lia.
Qed.

(** C28. A controller whose users leave every shard assigned tells the groups what they rely
    on; and whatever number a Query asks for, at whatever moment, the answer is one of
    the configurations. *)
Theorem controller_serves ops sc :
  steadyLog ops -> scRun ascending ops (StartServer 0) = Some sc ->
  controller_ok (cfgOf sc) /\
  forall k st num c, scRun ascending (take k ops) (StartServer 0) = Some st -> configAt num st = Some c ->
    exists m, 0 <= m /\ c = cfgOf sc m.
Proof.
  intros Hst Hr. pose proof (scRun_steady ops sc Hst Hr) as Hs. split.
  - split.
    + apply cfgOf_lookup. apply (sd_first _ Hs).
    + intros m Hm. by destruct (cfgOf_cases sc m Hs Hm) as (i & c & _ & _ & _ & _ & ? & _).
    + intros m Hm. destruct (cfgOf_cases sc m Hs Hm) as (i & c & Hc & _ & -> & _). by apply (sd_assigned _ Hs i c Hc).
    + intros n m s Hmn H0. destruct (cfgOf_cases sc m Hs ltac:(lia)) as (i & c & Hc & Him & Esh & Egr & _ & Hi).
      destruct (cfgOf_cases sc n Hs ltac:(lia)) as (j & c' & Hc' & Hjn & Esh' & Egr' & _ & Hj).
      assert (i <= j)%nat as Hij by (pose proof (lookup_lt_Some _ _ _ Hc); destruct Hi, Hj; lia).
      unfold shardOwner in *. rewrite Esh, Esh' in *.
      destruct (sd_assigned _ Hs _ _ Hc) as (_ & Hlen & Hz & _), (sd_assigned _ Hs _ _ Hc') as (_ & Hlen' & _ & Hnz).
      destruct (decide (0 <= s < NShards)) as [Hr0|Hr0].
      * apply Hz. apply (sd_groups _ Hs i j c c' Hij Hc Hc').
        destruct (decide (Groups c' = ∅)) as [|Hne]; [done|]. by destruct (Hnz Hne s Hr0).
      * destruct (Shards c @! s) as [x|] eqn:Ex; [|done]. apply go_index_Some_bound in Ex. rewrite Hlen in Ex. done.
  - intros k st num c Hk Hc.
    destruct (scRun_prefix ops k st sc Hk Hr) as [l Hl].
    assert (exists m, 0 <= m /\ configs st @! m = Some c) as (m & Hm & Hcm).
    { unfold configAt in Hc. pose proof (go_index_Some_bound (configs st)) as Hb.
      case_match; [exists (zlen (configs st) - 1)|exists num]; (split; [by apply (Hb _ c Hc)|done]). }
    exists m. split; [done|]. symmetry. apply cfgOf_lookup. rewrite Hl.
    pose proof (go_index_Some_bound _ _ _ Hcm). by rewrite go_index_app_l by lia.
Qed.

(** Whether a log is used so, by evaluation. *)
Definition steadyb (op : ScOp) (c : Config) : bool :=
  match so_Type op with
  | Join => negb (isSome (so_Servers op !! 0))
  | Leave => existsb (fun g => isSome (Groups c !! g) && bool_decide (g ∉ so_GIDs op)) (map fst (map_to_list (Groups c)))
  | Move => bool_decide (0 <= so_Shard op < NShards) && isSome (Groups c !! so_GID op)
  | Query => true
  end.

Definition steadyAt (ops : list ScOp) (k : nat) : bool :=
  match ops !! k, scRun ascending (take k ops) (StartServer 0) with
  | Some op, Some sc => steadyb op (default config0 (last (configs sc)))
  | _, _ => true
  end.

Lemma isSome_is_Some {A} (o : option A) : isSome o = true -> is_Some o.
Proof. destruct o; [by eexists|done]. Qed.

Lemma steadyb_steady op c : steadyb op c = true -> steady op c.
Proof.
  unfold steadyb, steady. destruct (so_Type op); [by destruct (so_Servers op !! 0)| | |done].
  - intros (g & _ & [Hg Hn]%andb_true_iff)%existsb_exists. right. exists g.
    split; [by apply isSome_is_Some|by apply bool_decide_eq_true in Hn].
  - intros [Hr Hg]%andb_true_iff. split; [by apply bool_decide_eq_true in Hr|by apply isSome_is_Some].
Qed.

Lemma steadyLog_check ops : forallb (steadyAt ops) (seq 0 (length ops)) = true -> steadyLog ops.
Proof.
  intros H k op sc c Hk Hr Hl. apply steadyb_steady. rewrite forallb_forall in H. specialize (H k).
  unfold steadyAt in H. rewrite Hk, Hr, Hl in H. apply H, in_seq. apply lookup_lt_Some in Hk. lia.
Qed.

Definition demoSteady : list ScOp :=
  [Join_op {[ 1 := []; 2 := [] ]} 7 1; Move_op 3 2 7 2; Leave_op [1] 7 3; Query_op (-1) 7 4].

Lemma demoSteady_log : steadyLog demoSteady.
Proof. apply steadyLog_check. vm_compute. reflexivity. Qed.

Lemma controller_serves_witness :
  exists sc, scRun ascending demoSteady (StartServer 0) = Some sc /\ zlen (configs sc) = 4 /\
    controller_ok (cfgOf sc).
Proof.
  assert (isSome (scRun ascending demoSteady (StartServer 0)) = true) as E by (vm_compute; reflexivity).
  assert ((fun sc => zlen (configs sc)) <$> scRun ascending demoSteady (StartServer 0) = Some 4) as E4 by (vm_compute; reflexivity).
  destruct (scRun ascending demoSteady (StartServer 0)) as [sc|] eqn:Hr; [|discriminate E]. exists sc.
  split; [reflexivity|]. split; [by injection E4|]. exact (proj1 (controller_serves demoSteady sc demoSteady_log Hr)).
Defined.
