(* ===== verification/MapReduce.v ===== *)
(** * MapReduce: [src/src/mr/], [src/src/mrapps/], [src/src/main/mrsequential.go]

    The coordinator that hands out tasks, the workers' map and reduce tasks over
    the intermediate files, the sequential program, and the word-count and indexer
    applications.  Handlers of the coordinator run under [c.mu]; files are written to a
    temporary name and renamed, so a write is one step. *)

From S2P Require Import Prelude.

(** ** Data *)

Record KeyValue := mkKV { Key : string; Value : string }.

Inductive TaskType := TaskNone | TaskMap | TaskReduce | TaskExit.

Inductive taskState := stateIdle | stateInProgress | stateDone.

#[global] Instance taskState_eq_dec : EqDecision taskState.
Proof. solve_decision. Defined.

Record taskInfo := mkTask { t_state : taskState; startTime : Z }.

Record RequestTaskReply := mkReply {
  Type_ : TaskType; TaskID : Z; File : string; NMap : Z; NReduce : Z }.

Record Coordinator := mkCoordinator {
  files : list string;
  nMap : Z;
  nReduce : Z;
  mapTasks : list taskInfo;
  reduceTasks : list taskInfo;
  mapDone : Z;
  reduceDone : Z;
}.

(** ** Coordinator *)

(** In nanoseconds. *)
Definition taskTimeout : Z := 10 * 1000000000.

Definition available (now : Z) (t : taskInfo) : bool :=
  bool_decide (t_state t = stateIdle) ||
  (bool_decide (t_state t = stateInProgress) && (now - startTime t >? taskTimeout)).

(** The first task of the list that can be handed out, now in progress. *)
Fixpoint claim (now : Z) (i : Z) (ts : list taskInfo) : option (Z * list taskInfo) :=
  match ts with
  | [] => None
  | t :: ts =>
      if available now t then Some (i, mkTask stateInProgress now :: ts)
      else '(j, ts') ← claim now (i + 1) ts; Some (j, t :: ts')
  end.

(** [None]: a panic ([c.files[i]]). *)
Definition RequestTask (now : Z) (c : Coordinator) : option (Coordinator * RequestTaskReply) :=
  let wait := mkReply TaskNone 0 EmptyString 0 0 in
  if mapDone c <? nMap c then
    match claim now 0 (mapTasks c) with
    | Some (i, ts) =>
        file ← files c @! i;
        Some (mkCoordinator (files c) (nMap c) (nReduce c) ts (reduceTasks c) (mapDone c) (reduceDone c),
              mkReply TaskMap i file (nMap c) (nReduce c))
    | None => Some (c, wait)
    end
  else if reduceDone c <? nReduce c then
    match claim now 0 (reduceTasks c) with
    | Some (i, ts) =>
        Some (mkCoordinator (files c) (nMap c) (nReduce c) (mapTasks c) ts (mapDone c) (reduceDone c),
              mkReply TaskReduce i EmptyString (nMap c) (nReduce c))
    | None => Some (c, wait)
    end
  else Some (c, mkReply TaskExit 0 EmptyString 0 0).

(** Mark task [id] done; the second component says if it was not. *)
Definition finish (id : Z) (ts : list taskInfo) : option (list taskInfo * bool) :=
  t ← ts @! id;
  if bool_decide (t_state t = stateDone) then Some (ts, false)
  else ts' ← go_update ts id (mkTask stateDone (startTime t)); Some (ts', true).

Definition ReportTask (type : TaskType) (id : Z) (c : Coordinator) : option Coordinator :=
  match type with
  | TaskMap =>
      '(ts, new) ← finish id (mapTasks c);
      Some (mkCoordinator (files c) (nMap c) (nReduce c) ts (reduceTasks c)
              (if (new : bool) then mapDone c + 1 else mapDone c) (reduceDone c))
  | TaskReduce =>
      '(ts, new) ← finish id (reduceTasks c);
      Some (mkCoordinator (files c) (nMap c) (nReduce c) (mapTasks c) ts (mapDone c)
              (if (new : bool) then reduceDone c + 1 else reduceDone c))
  | _ => Some c
  end.

Definition Done (c : Coordinator) : bool := reduceDone c =? nReduce c.

Definition MakeCoordinator (fs : list string) (nr : Z) : Coordinator :=
  mkCoordinator fs (zlen fs) nr (replicate (length fs) (mkTask stateIdle 0))
    (replicate (Z.to_nat nr) (mkTask stateIdle 0)) 0 0.

(** ** Worker *)

(** [hash/fnv]'s 32-bit FNV-1a. *)
Definition fnvOffset : Z := 2166136261.
Definition fnvPrime : Z := 16777619.

Fixpoint fnv32a (h : Z) (key : string) : Z :=
  match key with
  | EmptyString => h
  | String b key => fnv32a ((Z.lxor h (Z.of_N (Ascii.N_of_ascii b)) * fnvPrime) mod 2 ^ 32) key
  end.

Definition ihash (key : string) : Z := Z.land (fnv32a fnvOffset key) 0x7fffffff.

(** [None]: division by zero. *)
Definition bucketIndex (n : Z) (kv : KeyValue) : option Z :=
  if n =? 0 then None else Some (Z.rem (ihash (Key kv)) n).

(** The buckets of [doMap]. *)
Definition buckets (n : Z) (kva : list KeyValue) : option (list (list KeyValue)) :=
  foldl (fun o kv =>
    bs ← o; r ← bucketIndex n kv; b ← bs @! r; go_update bs r (b ++ [kv]))
    (Some (replicate (Z.to_nat n) [])) kva.

(** The inner loop [for j < len && intermediate[j].Key == intermediate[i].Key]: the
    values of a run of one key, and what follows it. *)
Fixpoint takeRun (k : string) (l : list KeyValue) : list string * list KeyValue :=
  match l with
  | kv :: l' =>
      if bool_decide (Key kv = k) then let '(vs, rest) := takeRun k l' in (Value kv :: vs, rest)
      else ([], l)
  | [] => ([], [])
  end.

(** The reduce loop, one output line per run; [fuel] bounds the number of runs. *)
Fixpoint reduceRuns (reducef : string -> list string -> string) (fuel : nat) (l : list KeyValue)
  : option (list (string * string)) :=
  match l with
  | [] => Some []
  | kv :: l' =>
      match fuel with
      | O => None
      | S fuel =>
          let '(vs, rest) := takeRun (Key kv) l' in
          lines ← reduceRuns reducef fuel rest;
          Some ((Key kv, reducef (Key kv) (Value kv :: vs)) :: lines)
      end
  end.

Section programs.
Variable mapf : string -> string -> list KeyValue.
Variable reducef : string -> list string -> string.
Variable sortKV : list KeyValue -> list KeyValue.  (* [sort.Sort(byKey(...))] *)
Variable readFile : string -> option string.       (* the input files; [None]: cannot open *)

(** The output of a reduce: sort, then one line per key. *)
Definition reduceOutput (l : list KeyValue) : option (list (string * string)) :=
  let l := sortKV l in reduceRuns reducef (length l) l.

(** [main] of [mrsequential.go] on the given input files. *)
Definition mrsequential (fs : list string) : option (list (string * string)) :=
  inter ← foldl (fun o f => acc ← o; content ← readFile f; Some (acc ++ mapf f content)) (Some []) fs;
  reduceOutput inter.

(** What [doMap] writes: file [mr-id-r] for each bucket [r]. *)
Definition doMap (file : string) (n : Z) : option (list (list KeyValue)) :=
  content ← readFile file; buckets n (mapf file content).

(** The intermediate files, and the output files. *)
Abbreviation Inter := (gmap (Z * Z) (list KeyValue)).

(** One round of [doReduce]'s reading loop: a missing file is skipped. *)
Definition readInter (m r : Z) (fs : Inter) (acc : list KeyValue) : list KeyValue :=
  acc ++ default [] (fs !! (m, r)).

(** ** The system *)

(** What a worker is doing: writing its buckets from number [r] on; about to report
    the map; reading the intermediate files from number [m] on; writing the output; about
    to report the reduce. *)
Inductive Worker :=
| WMap (id r : Z) (bs : list (list KeyValue))
| WMapReport (id : Z)
| WReduce (id m : Z) (acc : list KeyValue)
| WOutput (id : Z) (lines : list (string * string))
| WReduceReport (id : Z).

Record System := mkSystem {
  coord : Coordinator;
  inter : Inter;
  outs : gmap Z (list (string * string));
  workers : list Worker;
}.

(** [Worker] after it got a task; a map whose file cannot be read exits. *)
Definition startTask (reply : RequestTaskReply) : list Worker :=
  match Type_ reply with
  | TaskMap => match doMap (File reply) (NReduce reply) with
               | Some bs => [WMap (TaskID reply) 0 bs] | None => [] end
  | TaskReduce => [WReduce (TaskID reply) 0 []]
  | _ => []
  end.

Inductive wstep (w : System) : System -> Prop :=
| w_request now c reply : (* some worker asks for a task *)
    RequestTask now (coord w) = Some (c, reply) ->
    wstep w (mkSystem c (inter w) (outs w) (startTask reply ++ workers w))
| w_map_write ws1 ws2 id r bs b :
    workers w = ws1 ++ WMap id r bs :: ws2 -> r < nReduce (coord w) -> bs @! r = Some b ->
    wstep w (mkSystem (coord w) (<[(id, r) := b]> (inter w)) (outs w) (ws1 ++ WMap id (r + 1) bs :: ws2))
| w_map_end ws1 ws2 id r bs :
    workers w = ws1 ++ WMap id r bs :: ws2 -> nReduce (coord w) <= r ->
    wstep w (mkSystem (coord w) (inter w) (outs w) (ws1 ++ WMapReport id :: ws2))
| w_map_report ws1 ws2 id c :
    workers w = ws1 ++ WMapReport id :: ws2 -> ReportTask TaskMap id (coord w) = Some c ->
    wstep w (mkSystem c (inter w) (outs w) (ws1 ++ ws2))
| w_reduce_read ws1 ws2 id m acc :
    workers w = ws1 ++ WReduce id m acc :: ws2 -> m < nMap (coord w) ->
    wstep w (mkSystem (coord w) (inter w) (outs w) (ws1 ++ WReduce id (m + 1) (readInter m id (inter w) acc) :: ws2))
| w_reduce_end ws1 ws2 id m acc lines :
    workers w = ws1 ++ WReduce id m acc :: ws2 -> nMap (coord w) <= m -> reduceOutput acc = Some lines ->
    wstep w (mkSystem (coord w) (inter w) (outs w) (ws1 ++ WOutput id lines :: ws2))
| w_output ws1 ws2 id lines :
    workers w = ws1 ++ WOutput id lines :: ws2 ->
    wstep w (mkSystem (coord w) (inter w) (<[id := lines]> (outs w)) (ws1 ++ WReduceReport id :: ws2))
| w_reduce_report ws1 ws2 id c :
    workers w = ws1 ++ WReduceReport id :: ws2 -> ReportTask TaskReduce id (coord w) = Some c ->
    wstep w (mkSystem c (inter w) (outs w) (ws1 ++ ws2))
| w_crash ws1 t ws2 : (* a worker dies, at any point *)
    workers w = ws1 ++ t :: ws2 ->
    wstep w (mkSystem (coord w) (inter w) (outs w) (ws1 ++ ws2)).

Definition winit (fs : list string) (nr : Z) : System := mkSystem (MakeCoordinator fs nr) ∅ ∅ [].
End programs.

(** ** Applications *)

(** [unicode.IsLetter] on the bytes of an ASCII text. *)
Definition isLetter (b : Ascii.ascii) : bool :=
  let n := Z.of_N (Ascii.N_of_ascii b) in
  ((65 <=? n) && (n <=? 90)) || ((97 <=? n) && (n <=? 122)).

(** [strings.FieldsFunc(s, !isLetter)]: the maximal runs of letters. *)
Fixpoint fieldsFrom (word : string) (s : string) : list string :=
  match s with
  | EmptyString => if bool_decide (word = EmptyString) then [] else [word]
  | String b s =>
      if isLetter b then fieldsFrom (String.append word (String b EmptyString)) s
      else if bool_decide (word = EmptyString) then fieldsFrom EmptyString s
      else word :: fieldsFrom EmptyString s
  end.

Definition fields (s : string) : list string := fieldsFrom EmptyString s.

(** [wc.go] *)
Definition wcMap (filename contents : string) : list KeyValue :=
  (fun w => mkKV w "1") <$> fields contents.

Definition itoa (n : nat) : string := pretty n.

Definition wcReduce (key : string) (values : list string) : string := itoa (length values).

(** [indexer.go]; [order] is the order in which [range m] yields the words. *)
Definition indexerMap (order : gset string -> list string) (document value : string) : list KeyValue :=
  (fun w => mkKV w document) <$> order (list_to_set (fields value)).

Definition indexerReduce (key : string) (values : list string) : string :=
  let values := sortStrings values in
  String.append (itoa (length values)) (String.append " " (String.concat "," values)).
