(* ===== verification/MapReduceProofs.v ===== *)
(** * MapReduce computes what the sequential program does

    The grouping loop is correct on sorted input, the buckets partition a map's
    output, the coordinator hands out and counts tasks correctly, and a finished job's
    output files hold together a line for each key, whatever workers crashed or were too
    slow: those of [mrsequential], if the order of a key's values does not matter. *)

From S2P Require Import Prelude MapReduce.

(** ** Grouping *)

(** The values of a key, in order. *)
Definition vals (k : string) (l : list KeyValue) : list string :=
  Value <$> filter (fun kv => Key kv = k) l.

Definition keyLe (a b : KeyValue) : Prop := String.le (Key a) (Key b).

Lemma takeRun_spec k l vs rest :
  takeRun k l = (vs, rest) ->
  exists run, l = run ++ rest /\ Forall (fun kv => Key kv = k) run /\ vs = Value <$> run /\
    match rest with [] => True | kv :: _ => Key kv <> k end.
Proof.
  revert vs rest. induction l as [|kv l IH]; intros vs rest; simpl.
  { intros [= <- <-]. by exists []. }
  case_bool_decide as Hk.
  - destruct (takeRun k l) as [vs' rest'] eqn:E. intros [= <- <-].
    destruct (IH _ _ eq_refl) as (run & -> & Hf & -> & Hr). exists (kv :: run).
    split_and!; [done|by constructor|done|done].
  - intros [= <- <-]. exists []. by split_and!.
Qed.

(** In a sorted list the run of its first key has all of that key's values. *)
Lemma sorted_run kv l run rest :
  StronglySorted keyLe (kv :: l) -> l = run ++ rest -> Forall (fun x => Key x = Key kv) run ->
  match rest with [] => True | x :: _ => Key x <> Key kv end ->
  Forall (fun x => Key x <> Key kv) rest /\ StronglySorted keyLe rest.
Proof.
  intros Hs -> Hrun Hhd. apply StronglySorted_inv in Hs as [Hs Hall].
  apply StronglySorted_app in Hs as (_ & _ & Hs). split; [|done].
  destruct rest as [|x rest]; [constructor|]. apply StronglySorted_inv in Hs as [_ Hx].
  apply Forall_app in Hall as [_ Hall]. apply Forall_cons in Hall as [Hkx _].
  constructor; [done|]. eapply Forall_impl; [exact Hx|]. intros y Hxy Hy. apply Hhd.
  unfold keyLe in *. rewrite Hy in Hxy. by apply (anti_symm String.le).
Qed.

Lemma filter_run k (run : list KeyValue) :
  Forall (fun x => Key x = k) run -> filter (fun x => Key x = k) run = run.
Proof. induction 1 as [|x l Hx _ IH]; [done|]. by rewrite filter_cons_True, IH. Qed.

Lemma filter_norun k (rest : list KeyValue) :
  Forall (fun x => Key x <> k) rest -> filter (fun x => Key x = k) rest = [].
Proof. induction 1 as [|x l Hx _ IH]; [done|]. by rewrite filter_cons_False. Qed.

(** On sorted input the loop ends, with one line for each key: what [reducef]
    makes of all its values. *)
Lemma reduceRuns_spec reducef fuel l :
  StronglySorted keyLe l -> (length l <= fuel)%nat ->
  exists lines, reduceRuns reducef fuel l = Some lines /\ NoDup lines.*1 /\
    forall k out, (k, out) ∈ lines <-> k ∈ Key <$> l /\ out = reducef k (vals k l).
Proof.
  revert l. induction fuel as [|fuel IH]; intros l Hs Hl.
  { destruct l; [|simpl in Hl; lia]. exists []. split_and!; [done|constructor|set_solver]. }
  destruct l as [|kv l]; [exists []; split_and!; [done|constructor|set_solver]|].
  simpl. destruct (takeRun (Key kv) l) as [vs rest] eqn:Ht.
  destruct (takeRun_spec _ _ _ _ Ht) as (run & El & Hrun & -> & Hhd).
  destruct (sorted_run kv l run rest) as [Hno Hsr]; [done..|].
  destruct (IH rest) as (lines & -> & Hnd & Hin); [done| |].
  { subst l. simpl in Hl. rewrite length_app in Hl. lia. }
  simpl. eexists. split; [done|]. simpl.
  assert (forall k, k ∈ Key <$> rest -> k <> Key kv) as Hk.
  { intros k (x & -> & Hx)%list_elem_of_fmap E. rewrite Forall_forall in Hno. by eapply Hno. }
  split.
  - constructor; [|done]. intros ([k out] & E & [Hk' _]%Hin)%list_elem_of_fmap. simpl in E. subst k.
    by eapply Hk.
  - intros k out. rewrite elem_of_cons. unfold vals. destruct (decide (k = Key kv)) as [->|Hne].
    + rewrite filter_cons_True, El, filter_app, (filter_run _ _ Hrun), (filter_norun _ _ Hno), app_nil_r by done.
      simpl. split.
      * intros [[= ->]|[Hk' _]%Hin]; [split; [by left|done]|]. by apply Hk in Hk'.
      * intros [_ ->]. by left.
    + rewrite filter_cons_False, El, filter_app by done.
      assert (filter (fun x => Key x = k) run = []) as ->.
      { apply filter_norun. eapply Forall_impl; [exact Hrun|]. simpl. congruence. }
      rewrite Hin. unfold vals. simpl. rewrite elem_of_cons, fmap_app, elem_of_app. split.
      * intros [[= -> _]|[? ->]]; [done|tauto].
      * intros [[->|[Hr|?]] ->]; [done| |tauto].
        apply list_elem_of_fmap in Hr as (x & -> & Hx). rewrite Forall_forall in Hrun.
        by rewrite (Hrun x Hx) in Hne.
Qed.

(** ** Buckets *)

Lemma ihash_bound key : 0 <= ihash key < 2 ^ 31.
Proof.
  unfold ihash. change 0x7fffffff with (Z.ones 31). rewrite Z.land_ones by lia.
  apply Z.mod_pos_bound. lia.
Qed.

Lemma bucketIndex_Some n kv :
  0 < n -> exists r, bucketIndex n kv = Some r /\ r = Z.rem (ihash (Key kv)) n /\ 0 <= r < n.
Proof.
  intros Hn. unfold bucketIndex. rewrite (proj2 (Z.eqb_neq n 0)) by lia.
  eexists. split_and!; [done..| |]; pose proof (ihash_bound (Key kv)); apply Z.rem_bound_pos; lia.
Qed.

(** The pairs of bucket [r]. *)
Definition inBucket (n r : Z) (kva : list KeyValue) : list KeyValue :=
  filter (fun kv => Z.rem (ihash (Key kv)) n = r) kva.

Lemma buckets_spec n kva :
  0 < n -> exists bs, buckets n kva = Some bs /\ zlen bs = n /\
    forall r, 0 <= r < n -> bs @! r = Some (inBucket n r kva).
Proof.
  intros Hn. induction kva as [|kv kva IH] using rev_ind.
  { eexists. split; [done|]. split; [unfold zlen; rewrite length_replicate; lia|].
    intros r Hr. unfold go_index. destruct (Z.leb_spec 0 r); [|lia]. rewrite lookup_replicate_2; [done|lia]. }
  destruct IH as (bs & Hb & Hlen & Hin). unfold buckets in *. rewrite foldl_app, Hb. cbn [foldl mbind option_bind].
  destruct (bucketIndex_Some n kv Hn) as (r & -> & Er & Hr). cbn [mbind option_bind].
  rewrite (Hin r Hr). cbn [mbind option_bind].
  destruct (go_update bs r (inBucket n r kva ++ [kv])) as [bs'|] eqn:Hu;
    [|by rewrite go_update_Some in Hu by lia].
  exists bs'. split; [done|]. split; [unfold zlen in *; by rewrite (go_update_length _ _ _ _ Hu)|].
  intros r' Hr'. rewrite (go_update_index _ _ _ _ r' Hu). unfold inBucket. rewrite filter_app, filter_cons, filter_nil.
  destruct (Z.eqb_spec r' r) as [->|]; [by rewrite decide_True by done|].
  rewrite decide_False by congruence. rewrite app_nil_r. by apply Hin.
Qed.

(** Every pair a map emits is in exactly the bucket its key hashes to, and the
    buckets keep the order of the pairs; there are [n] of them. *)
Theorem buckets_partition n kva :
  0 < n -> exists bs, buckets n kva = Some bs /\ zlen bs = n /\
    (forall r, 0 <= r < n -> bs @! r = Some (filter (fun kv => Z.rem (ihash (Key kv)) n = r) kva)) /\
    forall kv, kv ∈ kva -> exists r b, 0 <= r < n /\ bs @! r = Some b /\ kv ∈ b /\
      forall r' b', bs @! r' = Some b' -> kv ∈ b' -> r' = r.
Proof.
  intros Hn. destruct (buckets_spec n kva Hn) as (bs & Hb & Hlen & Hin).
  exists bs. split_and!; [done..|]. intros kv Hkv.
  destruct (bucketIndex_Some n kv Hn) as (r & _ & Er & Hr).
  exists r, (inBucket n r kva). split_and!; [lia..|by apply Hin|by apply list_elem_of_filter|].
  intros r' b' Hb' Hin'. pose proof (go_index_Some_bound _ _ _ Hb') as Hr'.
  rewrite (Hin r') in Hb' by lia. simplify_eq. apply list_elem_of_filter in Hin' as [? _]. congruence.
Qed.

Lemma buckets_partition_witness :
  exists bs, buckets 3 [mkKV "a" "1"; mkKV "b" "1"; mkKV "a" "2"] = Some bs /\ zlen bs = 3.
Proof.
  destruct (buckets_partition 3 [mkKV "a" "1"; mkKV "b" "1"; mkKV "a" "2"] ltac:(lia)) as (bs & Hb & Hl & _).
  exists bs. split; [exact Hb|exact Hl].
Defined.

(** ** The lines of all reduces together *)

#[global] Instance vals_proper k : Proper ((≡ₚ) ==> (≡ₚ)) (vals k).
Proof. intros l l' Hp. unfold vals. by rewrite Hp. Qed.

Section output.
Context (reducef : string -> list string -> string) (sortKV : list KeyValue -> list KeyValue).

(** What is relied on of [sort.Sort(byKey(l))]: a sorted permutation (not stable). *)
Class Sorter : Prop := {
  sort_perm : forall l, sortKV l ≡ₚ l;
  sort_sorted : forall l, StronglySorted keyLe (sortKV l);
}.

(** The reduce function does not depend on the order of the values. *)
Class OrderInsensitive : Prop := {
  reducef_perm : forall k vs vs', vs ≡ₚ vs' -> reducef k vs = reducef k vs';
}.

(** [lines] is a result of reducing [l]: one line for each key, what [reducef] makes of
    the key's values in some order. *)
Definition linesFor (l : list KeyValue) (lines : list (string * string)) : Prop :=
  NoDup lines.*1 /\ (forall k, k ∈ lines.*1 <-> k ∈ Key <$> l) /\
  forall k out, (k, out) ∈ lines -> exists vs, vs ≡ₚ vals k l /\ out = reducef k vs.

Lemma NoDup_of_fst {A B} (l : list (A * B)) : NoDup l.*1 -> NoDup l.
Proof. apply NoDup_fmap_1. Qed.

Lemma elem_of_fst {A B} (l : list (A * B)) k : k ∈ l.*1 <-> exists x, (k, x) ∈ l.
Proof.
  rewrite list_elem_of_fmap. split; [intros ([k' x] & -> & ?); eauto|intros [x ?]; by exists (k, x)].
Qed.

(** If the order of the values does not matter, there is one result. *)
Lemma linesFor_in `{OrderInsensitive} l lines k out :
  linesFor l lines -> (k, out) ∈ lines <-> k ∈ Key <$> l /\ out = reducef k (vals k l).
Proof.
  intros (_ & Hk & Hv). split.
  - intros Hin. destruct (Hv k out Hin) as (vs & Hp & ->). split; [apply Hk, elem_of_fst; eauto|by apply reducef_perm].
  - intros [(out' & Hin)%Hk%elem_of_fst ->]. destruct (Hv k out' Hin) as (vs & Hp & ->).
    by rewrite <- (reducef_perm k _ _ Hp).
Qed.

Lemma linesFor_unique `{OrderInsensitive} l lines lines' :
  linesFor l lines -> linesFor l lines' -> lines ≡ₚ lines'.
Proof.
  intros Hl Hl'. apply NoDup_Permutation; [apply NoDup_of_fst, Hl|apply NoDup_of_fst, Hl'|].
  intros [k out]. by rewrite (linesFor_in l lines), (linesFor_in l lines').
Qed.

Context `{Sorter}.

Lemma reduceOutput_lines l : exists lines, reduceOutput reducef sortKV l = Some lines /\ linesFor l lines.
Proof.
  unfold reduceOutput.
  destruct (reduceRuns_spec reducef (length (sortKV l)) (sortKV l)) as (lines & -> & Hnd & Hin);
    [apply sort_sorted|done|].
  exists lines. split; [done|]. split; [done|]. split.
  - intros k. rewrite elem_of_fst, <- (sort_perm l). split; [by intros (out & [? _]%Hin)|].
    intros Hk. eexists. by apply Hin.
  - intros k out [_ ->]%Hin. exists (vals k (sortKV l)). split; [by rewrite sort_perm|done].
Qed.

Lemma reduceOutput_spec `{OrderInsensitive} l :
  exists lines, reduceOutput reducef sortKV l = Some lines /\ NoDup lines.*1 /\
    forall k out, (k, out) ∈ lines <-> k ∈ Key <$> l /\ out = reducef k (vals k l).
Proof.
  destruct (reduceOutput_lines l) as (lines & -> & Hl). exists lines. split; [done|]. split; [apply Hl|].
  intros k out. by apply linesFor_in.
Qed.

Lemma vals_inBucket n k l :
  vals k (inBucket n (Z.rem (ihash k) n) l) = vals k l.
Proof.
  unfold vals, inBucket. f_equal. induction l as [|kv l IH]; [done|]. rewrite !filter_cons.
  destruct (decide (Key kv = k)) as [<-|Hne].
  - rewrite decide_True by done. rewrite filter_cons_True by done. by rewrite IH.
  - destruct (decide (Z.rem (ihash (Key kv)) n = Z.rem (ihash k) n)); [by rewrite filter_cons_False|done].
Qed.

Lemma keys_inBucket n r k l :
  k ∈ Key <$> inBucket n r l <-> Z.rem (ihash k) n = r /\ k ∈ Key <$> l.
Proof.
  unfold inBucket. rewrite !list_elem_of_fmap. split.
  - intros (kv & -> & [? ?]%list_elem_of_filter). eauto.
  - intros (Hr & kv & -> & ?). exists kv. split; [done|]. by apply list_elem_of_filter.
Qed.

(** Results for the buckets are together one for all of it. *)
Lemma linesFor_buckets n l liness :
  0 < n -> Forall2 (fun r ls => linesFor (inBucket n r l) ls) (seqZ 0 n) liness -> linesFor l (mjoin liness).
Proof.
  intros Hn Hf.
  assert (forall ls, ls ∈ liness -> exists r, r ∈ seqZ 0 n /\ linesFor (inBucket n r l) ls) as Hof.
  { intros ls [i Hi]%list_elem_of_lookup. destruct (Forall2_lookup_r _ _ _ _ _ Hf Hi) as (r & Hr & ?).
    exists r. split; [by eapply list_elem_of_lookup_2|done]. }
  split_and!.
  - pose proof (NoDup_seqZ 0 n) as Hrs. clear Hof. revert Hf Hrs. generalize (seqZ 0 n). intros rs Hf.
    induction Hf as [|r ls rs liness Hr Hf IH]; intros Hrs; [constructor|].
    apply NoDup_cons in Hrs as [Hnr Hrs]. simpl. rewrite fmap_app. apply NoDup_app. split_and!; [apply Hr| |by apply IH].
    intros k [<- _]%(proj1 (proj2 Hr))%keys_inBucket (out & (ls' & Hk' & [i Hi]%list_elem_of_lookup)%list_elem_of_join)%elem_of_fst.
    destruct (Forall2_lookup_r _ _ _ _ _ Hf Hi) as (r' & Hr' & Hx). apply Hnr.
    assert (k ∈ ls'.*1) as [<- _]%(proj1 (proj2 Hx))%keys_inBucket by (apply elem_of_fst; eauto).
    by eapply list_elem_of_lookup_2.
  - intros k. rewrite elem_of_fst. split.
    + intros (out & (ls & Hk & Hls)%list_elem_of_join). destruct (Hof ls Hls) as (r & _ & _ & Hkeys & _).
      apply (keys_inBucket n r), Hkeys, elem_of_fst. eauto.
    + intros Hk. assert (0 <= Z.rem (ihash k) n < n) as Hr by (pose proof (ihash_bound k); apply Z.rem_bound_pos; lia).
      assert (Z.rem (ihash k) n ∈ seqZ 0 n) as [i Hi]%list_elem_of_lookup by (apply elem_of_seqZ; lia).
      destruct (Forall2_lookup_l _ _ _ _ _ Hf Hi) as (ls & Hls & _ & Hkeys & _).
      assert (k ∈ ls.*1) as (out & Hout)%elem_of_fst by (by apply Hkeys, keys_inBucket).
      exists out. apply list_elem_of_join. exists ls. split; [done|by eapply list_elem_of_lookup_2].
  - intros k out (ls & Hk & Hls)%list_elem_of_join. destruct (Hof ls Hls) as (r & _ & _ & Hkeys & Hv).
    destruct (Hv k out Hk) as (vs & Hp & ->). exists vs. split; [|done].
    assert (k ∈ ls.*1) as [<- _]%Hkeys%keys_inBucket by (apply elem_of_fst; eauto). by rewrite vals_inBucket in Hp.
Qed.

(** The reduces of the buckets together are a reduce of it all. *)
Lemma reduce_buckets n l :
  0 < n ->
  exists liness, Forall2 (fun r ls => reduceOutput reducef sortKV (inBucket n r l) = Some ls) (seqZ 0 n) liness /\
    linesFor l (mjoin liness).
Proof.
  intros Hn.
  assert (forall rs, exists liness, Forall2 (fun r ls => reduceOutput reducef sortKV (inBucket n r l) = Some ls) rs liness /\
    Forall2 (fun r ls => linesFor (inBucket n r l) ls) rs liness) as Hall.
  { intros rs. induction rs as [|r rs (ls & IH1 & IH2)]; [by exists []|].
    destruct (reduceOutput_lines (inBucket n r l)) as (x & ? & ?). exists (x :: ls). split; by constructor. }
  destruct (Hall (seqZ 0 n)) as (liness & H1 & H2). exists liness. split; [done|]. by apply (linesFor_buckets n).
Qed.
End output.

(** ** The coordinator *)

Definition isDone (t : taskInfo) : Prop := t_state t = stateDone.

#[global] Instance isDone_dec t : Decision (isDone t).
Proof. unfold isDone. apply _. Defined.

Lemma available_not_done now t : available now t = true -> ~ isDone t.
Proof. unfold available, isDone. intros Ha Hd. rewrite Hd in Ha. done. Qed.

(** Claiming a task changes no other, and takes one that is not done. *)
Lemma claim_spec now i ts j ts' :
  claim now i ts = Some (j, ts') ->
  exists t, ts @! (j - i) = Some t /\ available now t = true /\
    go_update ts (j - i) (mkTask stateInProgress now) = Some ts' /\
    countP isDone ts' = countP isDone ts.
Proof.
  revert i j ts'. induction ts as [|t ts IH]; intros i j ts'; simpl; [done|].
  destruct (available now t) eqn:Ha.
  - intros [= <- <-]. exists t. rewrite Z.sub_diag. split_and!; [done..| |].
    + rewrite go_update_Some; [done|]. rewrite zlen_cons. pose proof (zlen_nonneg ts). lia.
    + rewrite !countP_cons. rewrite (decide_False (P := isDone t)) by by eapply available_not_done. done.
  - intros ([j' ts1] & Hc & [= <- <-])%bind_Some. destruct (IH _ _ _ Hc) as (t' & Ht & Ha' & Hu & Hn).
    pose proof (go_index_Some_bound _ _ _ Ht) as Hb. exists t'.
    replace (j' - i) with (j' - (i + 1) + 1) by lia. split_and!; [|done| |].
    + rewrite go_index_cons by lia. by replace (j' - (i + 1) + 1 - 1) with (j' - (i + 1)) by lia.
    + rewrite go_update_Some by (rewrite zlen_cons; lia). rewrite go_update_Some in Hu by lia.
      injection Hu as <-. by replace (Z.to_nat (j' - (i + 1) + 1)) with (S (Z.to_nat (j' - (i + 1)))) by lia.
    + by rewrite !countP_cons, Hn.
Qed.

Lemma claim_none now i ts : claim now i ts = None -> Forall (fun t => available now t = false) ts.
Proof.
  revert i. induction ts as [|t ts IH]; intros i; simpl; [constructor|].
  destruct (available now t) eqn:Ha; [done|]. intros Hc. apply bind_None in Hc as [Hc|([? ?] & _ & ?)]; [|done].
  constructor; eauto.
Qed.

Lemma go_update_count (ts ts' : list taskInfo) i x t :
  go_update ts i x = Some ts' -> ts @! i = Some t ->
  countP isDone ts' = countP isDone ts + (if decide (isDone x) then 1 else 0) - (if decide (isDone t) then 1 else 0).
Proof.
  intros Hu Ht. pose proof (go_index_Some_bound _ _ _ Ht) as Hb. rewrite go_update_Some in Hu by done.
  injection Hu as <-. unfold go_index in Ht. destruct (Z.leb_spec 0 i); [|done].
  rewrite <- (take_drop_middle ts (Z.to_nat i) t Ht) at 2.
  rewrite insert_take_drop by (unfold zlen in Hb; lia).
  unfold countP. rewrite !filter_app, !filter_cons, !zlen_app.
  repeat case_decide; rewrite ?zlen_cons; lia.
Qed.

Lemma finish_spec id ts ts' b :
  finish id ts = Some (ts', b) ->
  length ts' = length ts /\ countP isDone ts' = countP isDone ts + Z.b2z b /\
  (exists t, ts' @! id = Some t /\ isDone t) /\
  forall j, j <> id -> ts' @! j = ts @! j.
Proof.
  intros Hf. unfold finish in Hf. apply bind_Some in Hf as (t & Ht & Hf).
  case_bool_decide as Hd.
  - simplify_eq. split_and!; [done|simpl; lia|by exists t|done].
  - apply bind_Some in Hf as (ts1 & Hu & [= <- <-]). split_and!.
    + by eapply go_update_length.
    + rewrite (go_update_count _ _ _ _ t Hu Ht). rewrite decide_True by done.
      rewrite (decide_False (P := isDone t)) by done. simpl. lia.
    + eexists. rewrite (go_update_index _ _ _ _ id Hu), Z.eqb_refl. done.
    + intros j Hj. rewrite (go_update_index _ _ _ _ j Hu). by rewrite (proj2 (Z.eqb_neq _ _)).
Qed.

Lemma finish_total id ts : 0 <= id < zlen ts -> is_Some (finish id ts).
Proof.
  intros Hid. destruct (go_index_in_range ts id Hid) as [t Ht]. unfold finish. rewrite Ht. simpl.
  case_bool_decide; [eauto|]. rewrite go_update_Some by done. simpl. eauto.
Qed.

Lemma countP_full {A} (P : A -> Prop) `{forall x, Decision (P x)} l :
  countP P l = zlen l -> Forall P l.
Proof.
  induction l as [|x l IH]; [constructor|]. rewrite countP_cons, zlen_cons. intros Hc.
  pose proof (countP_le P l). case_decide; [|lia]. constructor; [done|]. apply IH. lia.
Qed.

(** The counters count the tasks that are done. *)
Record coord_ok (fs : list string) (nr : Z) (c : Coordinator) : Prop := {
  cd_files : files c = fs;
  cd_nMap : nMap c = zlen fs;
  cd_nReduce : nReduce c = nr;
  cd_maps : zlen (mapTasks c) = zlen fs;
  cd_reduces : zlen (reduceTasks c) = nr;
  cd_mapDone : mapDone c = countP isDone (mapTasks c);
  cd_reduceDone : reduceDone c = countP isDone (reduceTasks c);
}.

Lemma coord_ok_init fs nr : 0 <= nr -> coord_ok fs nr (MakeCoordinator fs nr).
Proof.
  intros Hn. assert (forall k, countP isDone (replicate k (mkTask stateIdle 0)) = 0) as Hz.
  { intros k. apply countP_none. intros x [-> _]%elem_of_replicate. done. }
  split; simpl; rewrite ?Hz; unfold zlen; rewrite ?length_replicate; done || lia.
Qed.

Lemma go_update_zlen {A} (l l' : list A) i x : go_update l i x = Some l' -> zlen l' = zlen l.
Proof. intros Hu. unfold zlen. by rewrite (go_update_length _ _ _ _ Hu). Qed.

(** The answer to a worker: a map task that is not done while maps are missing, a
    reduce task that is not done once all maps are, nothing to do when all are handed out
    and none has timed out, exit when everything is done. *)
Theorem RequestTask_spec fs nr now c :
  coord_ok fs nr c ->
  exists c' reply, RequestTask now c = Some (c', reply) /\ coord_ok fs nr c' /\
    match Type_ reply with
    | TaskMap => mapDone c < zlen fs /\ fs @! TaskID reply = Some (File reply) /\
        NReduce reply = nr /\ exists t, mapTasks c @! TaskID reply = Some t /\ available now t = true
    | TaskReduce => mapDone c = zlen fs /\ reduceDone c < nr /\ NMap reply = zlen fs /\
        exists t, reduceTasks c @! TaskID reply = Some t /\ available now t = true
    | TaskNone => c' = c /\
        (mapDone c < zlen fs /\ Forall (fun t => available now t = false) (mapTasks c) \/
         mapDone c = zlen fs /\ reduceDone c < nr /\ Forall (fun t => available now t = false) (reduceTasks c))
    | TaskExit => c' = c /\ Forall isDone (mapTasks c) /\ Forall isDone (reduceTasks c)
    end.
Proof.
  intros Hok. destruct Hok as [Hfs Hm Hr Hlm Hlr Hdm Hdr]. unfold RequestTask. rewrite Hm, Hr.
  pose proof (countP_le isDone (mapTasks c)) as Hbm. pose proof (countP_le isDone (reduceTasks c)) as Hbr.
  destruct (Z.ltb_spec (mapDone c) (zlen fs)) as [Hlt|Hge].
  - destruct (claim now 0 (mapTasks c)) as [[i ts]|] eqn:Hc.
    + destruct (claim_spec _ _ _ _ _ Hc) as (t & Ht & Ha & Hu & Hn). rewrite Z.sub_0_r in *.
      pose proof (go_index_Some_bound _ _ _ Ht) as Hi.
      destruct (go_index_in_range fs i) as [f Hf]; [lia|]. rewrite Hfs, Hf. simpl.
      eexists _, _. split; [done|]. split; [|simpl; eauto 10].
      split; simpl; try done; [by rewrite (go_update_zlen _ _ _ _ Hu)|by rewrite Hn].
    + eexists _, _. split; [done|]. split; [done|]. simpl. split; [done|]. left. eauto using claim_none.
  - assert (mapDone c = zlen fs) as Hall by lia.
    destruct (Z.ltb_spec (reduceDone c) nr) as [Hlt|Hge'].
    + destruct (claim now 0 (reduceTasks c)) as [[i ts]|] eqn:Hc.
      * destruct (claim_spec _ _ _ _ _ Hc) as (t & Ht & Ha & Hu & Hn). rewrite Z.sub_0_r in *.
        eexists _, _. split; [done|]. split; [|simpl; eauto 10].
        split; simpl; try done; [by rewrite (go_update_zlen _ _ _ _ Hu)|by rewrite Hn].
      * eexists _, _. split; [done|]. split; [done|]. simpl. split; [done|]. right. eauto using claim_none.
    + eexists _, _. split; [done|]. split; [done|]. simpl. split_and!; [done|apply (countP_full isDone); lia..].
Qed.

Lemma RequestTask_spec_witness :
  exists c' reply, RequestTask 0 (MakeCoordinator ["f"%string] 2) = Some (c', reply) /\ Type_ reply = TaskMap.
Proof.
  destruct (RequestTask_spec ["f"%string] 2 0 (MakeCoordinator ["f"%string] 2)) as (c' & reply & Hr & _).
  - apply coord_ok_init. lia.
  - exists c', reply. split; [exact Hr|]. vm_compute in Hr. by injection Hr as <- <-.
Defined.

(** ** Jobs *)

Section job.
Context (mapf : string -> string -> list KeyValue) (reducef : string -> list string -> string).
Context (sortKV : list KeyValue -> list KeyValue) (readFile : string -> option string).
Context (fs : list string) (nr : Z).
Context `{!Sorter sortKV}.
Hypothesis Hnr : 0 < nr.
Hypothesis Hread : forall f, f ∈ fs -> is_Some (readFile f).

(** What map [m] emits, and what it leaves for reduce [r]. *)
Definition emitted (m : Z) : list KeyValue :=
  match fs @! m with
  | Some f => match readFile f with Some content => mapf f content | None => [] end
  | None => []
  end.

Definition part (m r : Z) : list KeyValue := inBucket nr r (emitted m).

Definition upTo (m r : Z) : list KeyValue := mjoin ((fun m => part m r) <$> seqZ 0 m).

Definition expected (r : Z) : option (list (string * string)) :=
  reduceOutput reducef sortKV (upTo (zlen fs) r).

(** The files of map [m] for the reduces below [r] are written. *)
Definition written (w : System) (m r : Z) : Prop :=
  forall r', 0 <= r' < r -> inter w !! (m, r') = Some (part m r').

Definition worker_ok (w : System) (t : Worker) : Prop :=
  match t with
  | WMap m r bs => 0 <= m < zlen fs /\ 0 <= r /\ written w m (Z.min r nr) /\
      (forall r', 0 <= r' < nr -> bs @! r' = Some (part m r'))
  | WMapReport m => 0 <= m < zlen fs /\ written w m nr
  | WReduce r m acc => 0 <= r < nr /\ mapDone (coord w) = zlen fs /\ 0 <= m <= zlen fs /\ acc = upTo m r
  | WOutput r lines => 0 <= r < nr /\ expected r = Some lines
  | WReduceReport r => 0 <= r < nr /\ is_Some (outs w !! r)
  end.

Record winv (w : System) : Prop := {
  wi_coord : coord_ok fs nr (coord w);
  wi_inter m r l : inter w !! (m, r) = Some l -> l = part m r;
  wi_maps m t : mapTasks (coord w) @! m = Some t -> isDone t -> written w m nr;
  wi_outs r lines : outs w !! r = Some lines -> expected r = Some lines;
  wi_reduces r t : reduceTasks (coord w) @! r = Some t -> isDone t -> is_Some (outs w !! r);
  wi_workers t : t ∈ workers w -> worker_ok w t;
}.

(** Files and counters only grow. *)
Record grows (w w' : System) : Prop := {
  gr_inter k l : inter w !! k = Some l -> inter w' !! k = Some l;
  gr_outs r : is_Some (outs w !! r) -> is_Some (outs w' !! r);
  gr_mapDone : mapDone (coord w) = zlen fs -> mapDone (coord w') = zlen fs;
}.

Lemma worker_ok_grows w w' t : grows w w' -> worker_ok w t -> worker_ok w' t.
Proof.
  intros [Hi Ho Hm]. assert (forall m r, written w m r -> written w' m r) as Hw.
  { intros m r Hw r' Hr'. apply Hi, Hw, Hr'. }
  destruct t; simpl; intros Ht; destruct_and!; split_and!; eauto.
Qed.

Lemma winv_init : winv (winit fs nr).
Proof.
  assert (forall k j t, replicate k (mkTask stateIdle 0) @! j = Some t -> ~ isDone t) as Hidle.
  { intros k j t. unfold go_index. case_match; [|done]. intros [-> _]%lookup_replicate. done. }
  split; simpl; try done.
  - apply coord_ok_init. lia.
  - intros m t Ht Hd. by destruct (Hidle _ _ _ Ht).
  - intros m t Ht Hd. by destruct (Hidle _ _ _ Ht).
  - by intros t ?%not_elem_of_nil.
Qed.

Lemma emitted_file m f : fs @! m = Some f -> exists content, readFile f = Some content /\ emitted m = mapf f content.
Proof.
  intros Hf. destruct (Hread f) as [content Hc].
  { unfold go_index in Hf. case_match; [|done]. by eapply list_elem_of_lookup_2. }
  exists content. unfold emitted. by rewrite Hf, Hc.
Qed.

Lemma isDone_update (ts ts' : list taskInfo) i now j t :
  go_update ts i (mkTask stateInProgress now) = Some ts' -> ts' @! j = Some t -> isDone t -> ts @! j = Some t.
Proof.
  intros Hu Ht Hd. rewrite (go_update_index _ _ _ _ j Hu) in Ht. by destruct (j =? i); simplify_eq.
Qed.

Lemma winv_request w now c reply :
  winv w -> RequestTask now (coord w) = Some (c, reply) ->
  winv (mkSystem c (inter w) (outs w) (startTask mapf readFile reply ++ workers w)).
Proof.
  intros [] Hr. destruct wi_coord0 as [Hfs Hm Hrn Hlm Hlr Hdm Hdr].
  assert (coord_ok fs nr (coord w)) as Hok by by split.
  unfold RequestTask in Hr. rewrite Hm, Hrn in Hr.
  pose proof (countP_le isDone (mapTasks (coord w))) as Hbm.
  destruct (Z.ltb_spec (mapDone (coord w)) (zlen fs)).
  { destruct (claim now 0 (mapTasks (coord w))) as [[i ts]|] eqn:Hc; [|by simplify_eq; destruct w].
    destruct (claim_spec _ _ _ _ _ Hc) as (t & Ht & Ha & Hu & Hn). rewrite Z.sub_0_r in *.
    rewrite Hfs in Hr. apply bind_Some in Hr as (f & Hf & [= <- <-]).
    split; simpl; try done.
    - split; simpl; try done; [by rewrite (go_update_zlen _ _ _ _ Hu)|by rewrite Hn].
    - intros m t' Ht' Hd. eapply wi_maps0; [|done]. by eapply isDone_update.
    - unfold startTask, doMap. simpl. destruct (emitted_file i f Hf) as (content & Hcon & He).
      rewrite Hcon. simpl. destruct (buckets_spec nr (mapf f content) Hnr) as (bs & -> & _ & Hbs).
      intros t' [->|Hin]%elem_of_cons; [|eapply (worker_ok_grows w); [by split|auto]].
      simpl. pose proof (go_index_Some_bound _ _ _ Hf). split_and!; try lia.
      + intros r' Hr'. lia.
      + intros r' Hr'. unfold part. rewrite He. auto. }
  destruct (Z.ltb_spec (reduceDone (coord w)) nr); [|by simplify_eq; destruct w].
  destruct (claim now 0 (reduceTasks (coord w))) as [[i ts]|] eqn:Hc; [|by simplify_eq; destruct w].
  destruct (claim_spec _ _ _ _ _ Hc) as (t & Ht & Ha & Hu & Hn). rewrite Z.sub_0_r in *.
  pose proof (go_index_Some_bound _ _ _ Ht) as Hi. injection Hr as <- <-.
  split; simpl; try done.
  - split; simpl; try done; [by rewrite (go_update_zlen _ _ _ _ Hu)|by rewrite Hn].
  - intros m t' Ht' Hd. eapply wi_reduces0; [|done]. by eapply isDone_update.
  - intros t' [->|Hin]%elem_of_cons; [|eapply (worker_ok_grows w); [by split|auto]].
    simpl. pose proof (zlen_nonneg fs). split_and!; try lia. done.
Qed.

(** The workers after one of them made a step. *)
Lemma workers_step w w' ws1 t ts ws2 :
  winv w -> grows w w' -> workers w = ws1 ++ t :: ws2 -> workers w' = ws1 ++ ts ++ ws2 ->
  (forall t', t' ∈ ts -> worker_ok w' t') -> forall t', t' ∈ workers w' -> worker_ok w' t'.
Proof.
  intros Hi Hg Hw Hw' Hts t' Hin. rewrite Hw' in Hin. rewrite !elem_of_app in Hin.
  assert (t' ∈ ws1 \/ t' ∈ ws2 -> worker_ok w' t') as Hold.
  { intros Ho. eapply worker_ok_grows; [exact Hg|]. apply (wi_workers _ Hi). rewrite Hw.
    rewrite elem_of_app, elem_of_cons. tauto. }
  destruct Hin as [?|[?|?]]; auto.
Qed.

Lemma winv_map_write w ws1 ws2 id r bs b :
  winv w -> workers w = ws1 ++ WMap id r bs :: ws2 -> r < nReduce (coord w) -> bs @! r = Some b ->
  winv (mkSystem (coord w) (<[(id, r) := b]> (inter w)) (outs w) (ws1 ++ WMap id (r + 1) bs :: ws2)).
Proof.
  intros Hi Hw Hr Hb. destruct (wi_workers _ Hi (WMap id r bs)) as (Hid & Hr0 & Hwr & Hbs); [rewrite Hw; set_solver|].
  rewrite (cd_nReduce _ _ _ (wi_coord _ Hi)) in Hr. rewrite Hbs in Hb by lia. injection Hb as <-.
  set (w' := mkSystem _ _ _ _).
  assert (grows w w') as Hg.
  { split; simpl; [|done..]. intros k l Hk. destruct (decide (k = (id, r))) as [->|].
    - rewrite lookup_insert_eq. by rewrite (wi_inter _ Hi _ _ _ Hk).
    - by rewrite lookup_insert_ne. }
  assert (forall m r', written w m r' -> written w' m r') as Hww.
  { intros m r' Hm r'' Hr''. apply Hg, Hm, Hr''. }
  split; try apply Hi.
  - intros m r' l. simpl. rewrite lookup_insert_Some. intros [[[= <- <-] <-]|[_ ?]]; [done|by apply (wi_inter _ Hi)].
  - intros m t Ht Hd. apply Hww. by eapply (wi_maps _ Hi).
  - eapply (workers_step w w' ws1 _ [WMap id (r + 1) bs] ws2); try done.
    intros t ->%list_elem_of_singleton. simpl. split_and!; [lia..| |done].
    intros r' Hr'. simpl. destruct (decide (r' = r)) as [->|]; [by rewrite lookup_insert_eq|].
    rewrite lookup_insert_ne by congruence. apply Hwr. lia.
Qed.

Lemma winv_map_end w ws1 ws2 id r bs :
  winv w -> workers w = ws1 ++ WMap id r bs :: ws2 -> nReduce (coord w) <= r ->
  winv (mkSystem (coord w) (inter w) (outs w) (ws1 ++ WMapReport id :: ws2)).
Proof.
  intros Hi Hw Hr. destruct (wi_workers _ Hi (WMap id r bs)) as (Hid & Hr0 & Hwr & _); [rewrite Hw; set_solver|].
  rewrite (cd_nReduce _ _ _ (wi_coord _ Hi)) in Hr.
  split; try apply Hi. eapply (workers_step w _ ws1 _ [WMapReport id] ws2); try done.
  intros t ->%list_elem_of_singleton. simpl. split; [lia|]. intros r' Hr'. apply Hwr. lia.
Qed.

Lemma winv_map_report w ws1 ws2 id c :
  winv w -> workers w = ws1 ++ WMapReport id :: ws2 -> ReportTask TaskMap id (coord w) = Some c ->
  winv (mkSystem c (inter w) (outs w) (ws1 ++ ws2)).
Proof.
  intros Hi Hw Hr. destruct (wi_workers _ Hi (WMapReport id)) as (Hid & Hwr); [rewrite Hw; set_solver|].
  simpl in Hr. apply bind_Some in Hr as ([ts b] & Hf & [= <-]).
  destruct (finish_spec _ _ _ _ Hf) as (Hlen & Hcnt & _ & Hoth).
  destruct (wi_coord _ Hi) as [Hfs Hm Hrn Hlm Hlr Hdm Hdr].
  assert (zlen ts = zlen fs) as Hlts by (rewrite <- Hlm; unfold zlen; by rewrite Hlen).
  pose proof (countP_le isDone ts) as Hbound.
  set (w' := mkSystem _ _ _ _).
  assert (grows w w') as Hg.
  { split; [done..|]. simpl. rewrite Hdm. intros E. destruct b; simpl in Hcnt; lia. }
  split; try apply Hi.
  - split; simpl; try done. rewrite Hcnt, Hdm. destruct b; simpl; lia.
  - intros m t Ht Hd. simpl in Ht. destruct (decide (m = id)) as [->|]; [exact Hwr|].
    rewrite Hoth in Ht by done. by eapply (wi_maps _ Hi).
  - eapply (workers_step w w' ws1 _ [] ws2); try done. by intros t ?%not_elem_of_nil.
Qed.

Lemma maps_written w m r :
  winv w -> mapDone (coord w) = zlen fs -> 0 <= m < zlen fs -> 0 <= r < nr -> inter w !! (m, r) = Some (part m r).
Proof.
  intros Hi Hd Hm Hr. destruct (wi_coord _ Hi) as [Hfs _ _ Hlm _ Hdm _].
  assert (Forall isDone (mapTasks (coord w))) as Hall by (apply (countP_full isDone); lia).
  destruct (go_index_in_range (mapTasks (coord w)) m) as [t Ht]; [lia|].
  apply (wi_maps _ Hi m t Ht); [|done]. unfold go_index in Ht. case_match; [|done].
  rewrite Forall_forall in Hall. apply Hall. by eapply list_elem_of_lookup_2.
Qed.

Lemma upTo_next m r : 0 <= m -> upTo (m + 1) r = upTo m r ++ part m r.
Proof.
  intros Hm. unfold upTo. rewrite (seqZ_app 0 m 1) by lia. rewrite fmap_app.
  rewrite join_app. f_equal. simpl. by rewrite app_nil_r.
Qed.

Lemma winv_reduce_read w ws1 ws2 id m acc :
  winv w -> workers w = ws1 ++ WReduce id m acc :: ws2 -> m < nMap (coord w) ->
  winv (mkSystem (coord w) (inter w) (outs w)
          (ws1 ++ WReduce id (m + 1) (readInter m id (inter w) acc) :: ws2)).
Proof.
  intros Hi Hw Hm. destruct (wi_workers _ Hi (WReduce id m acc)) as (Hid & Hd & Hm0 & ->); [rewrite Hw; set_solver|].
  rewrite (cd_nMap _ _ _ (wi_coord _ Hi)) in Hm.
  split; try apply Hi. eapply (workers_step w _ ws1 _ [_] ws2); try done.
  intros t ->%list_elem_of_singleton. simpl. split_and!; try lia.
  unfold readInter. rewrite (maps_written w m id) by (done || lia). simpl. by rewrite upTo_next by lia.
Qed.

Lemma winv_reduce_end w ws1 ws2 id m acc lines :
  winv w -> workers w = ws1 ++ WReduce id m acc :: ws2 -> nMap (coord w) <= m ->
  reduceOutput reducef sortKV acc = Some lines ->
  winv (mkSystem (coord w) (inter w) (outs w) (ws1 ++ WOutput id lines :: ws2)).
Proof.
  intros Hi Hw Hm Ho. destruct (wi_workers _ Hi (WReduce id m acc)) as (Hid & Hd & Hm0 & ->); [rewrite Hw; set_solver|].
  rewrite (cd_nMap _ _ _ (wi_coord _ Hi)) in Hm.
  split; try apply Hi. eapply (workers_step w _ ws1 _ [_] ws2); try done.
  intros t ->%list_elem_of_singleton. simpl. split; [done|]. unfold expected.
  by replace (zlen fs) with m by lia.
Qed.

Lemma winv_output w ws1 ws2 id lines :
  winv w -> workers w = ws1 ++ WOutput id lines :: ws2 ->
  winv (mkSystem (coord w) (inter w) (<[id := lines]> (outs w)) (ws1 ++ WReduceReport id :: ws2)).
Proof.
  intros Hi Hw. destruct (wi_workers _ Hi (WOutput id lines)) as (Hid & He); [rewrite Hw; set_solver|].
  set (w' := mkSystem _ _ _ _). assert (grows w w') as Hg.
  { split; simpl; [done| |done]. intros r Hr. destruct (decide (r = id)) as [->|];
      [by rewrite lookup_insert_eq|by rewrite lookup_insert_ne]. }
  split; try apply Hi.
  - intros r l. simpl. rewrite lookup_insert_Some. intros [[<- <-]|[_ ?]]; [done|by apply (wi_outs _ Hi)].
  - intros r t Ht Hd. apply Hg. by eapply (wi_reduces _ Hi).
  - eapply (workers_step w w' ws1 _ [_] ws2); try done. intros t ->%list_elem_of_singleton. simpl.
    split; [done|]. by rewrite lookup_insert_eq.
Qed.

Lemma winv_reduce_report w ws1 ws2 id c :
  winv w -> workers w = ws1 ++ WReduceReport id :: ws2 -> ReportTask TaskReduce id (coord w) = Some c ->
  winv (mkSystem c (inter w) (outs w) (ws1 ++ ws2)).
Proof.
  intros Hi Hw Hr. destruct (wi_workers _ Hi (WReduceReport id)) as (Hid & Hout); [rewrite Hw; set_solver|].
  simpl in Hr. apply bind_Some in Hr as ([ts b] & Hf & [= <-]).
  destruct (finish_spec _ _ _ _ Hf) as (Hlen & Hcnt & _ & Hoth).
  destruct (wi_coord _ Hi) as [Hfs Hm Hrn Hlm Hlr Hdm Hdr].
  split; try apply Hi.
  - split; simpl; try done; [unfold zlen in *; lia|]. rewrite Hcnt, Hdr. destruct b; simpl; lia.
  - intros r t Ht Hd. simpl in Ht |- *. destruct (decide (r = id)) as [->|]; [exact Hout|].
    rewrite Hoth in Ht by done. by eapply (wi_reduces _ Hi).
  - eapply (workers_step w _ ws1 _ [] ws2); try done. by intros t ?%not_elem_of_nil.
Qed.

Lemma winv_crash w ws1 t ws2 :
  winv w -> workers w = ws1 ++ t :: ws2 -> winv (mkSystem (coord w) (inter w) (outs w) (ws1 ++ ws2)).
Proof.
  intros Hi Hw. split; try apply Hi. eapply (workers_step w _ ws1 _ [] ws2); try done.
  by intros t' ?%not_elem_of_nil.
Qed.

Lemma wreachable_winv w :
  rtc (wstep mapf reducef sortKV readFile) (winit fs nr) w -> winv w.
Proof.
  intros Hr. pattern w. eapply rtc_ind_r; [apply winv_init| |exact Hr]. clear w Hr.
  intros w w' _ Hs Hw. destruct Hs;
    eauto using winv_request, winv_map_write, winv_map_end, winv_map_report, winv_reduce_read,
      winv_reduce_end, winv_output, winv_reduce_report, winv_crash.
Qed.

(** ** The result *)

Definition allEmitted : list KeyValue := mjoin (emitted <$> seqZ 0 (zlen fs)).

Lemma seq_emitted k :
  (k <= length fs)%nat ->
  foldl (fun o f => acc ← o; content ← readFile f; Some (acc ++ mapf f content)) (Some []) (take k fs) =
    Some (mjoin (emitted <$> seqZ 0 (Z.of_nat k))).
Proof.
  induction k as [|k IH]; intros Hk; [by rewrite take_0|].
  destruct (lookup_lt_is_Some_2 fs k) as [f Hf]; [lia|].
  rewrite (take_S_r _ _ f), foldl_app, IH by (done || lia). cbn [foldl mbind option_bind].
  destruct (emitted_file (Z.of_nat k) f) as (content & -> & He); [by rewrite go_index_nat|].
  cbn [mbind option_bind]. f_equal. rewrite <- He.
  replace (Z.of_nat (S k)) with (Z.of_nat k + 1) by lia. rewrite (seqZ_app 0 (Z.of_nat k) 1) by lia.
  rewrite fmap_app, join_app. f_equal. simpl. by rewrite app_nil_r.
Qed.

Lemma inBucket_join n r (ls : list (list KeyValue)) :
  inBucket n r (mjoin ls) = mjoin (inBucket n r <$> ls).
Proof.
  induction ls as [|l ls IH]; [done|]. simpl. unfold inBucket in *. by rewrite filter_app, IH.
Qed.

Lemma upTo_all r : upTo (zlen fs) r = inBucket nr r allEmitted.
Proof. unfold upTo, allEmitted. by rewrite inBucket_join, <- list_fmap_compose. Qed.

(** C10. When the coordinator reports the job done, every output file is there, and
    together they have one line for each key the maps emit for the input files, what the
    reduce function makes of all the values of that key, in some order; so do the lines of
    [mrsequential], and if the order of the values does not matter to the reduce function,
    they are the same lines.  This holds whatever tasks were given to several workers,
    however often workers crashed, and in whatever order things happened, for map and reduce
    functions that are functions of their arguments, input files that can be read, and at
    least one reduce task. *)
Theorem mapreduce_correct w :
  rtc (wstep mapf reducef sortKV readFile) (winit fs nr) w -> Done (coord w) = true ->
  exists liness lines,
    Forall2 (fun r ls => outs w !! r = Some ls) (seqZ 0 nr) liness /\
    mrsequential mapf reducef sortKV readFile fs = Some lines /\
    linesFor reducef allEmitted (mjoin liness) /\ linesFor reducef allEmitted lines /\
    (OrderInsensitive reducef -> mjoin liness ≡ₚ lines).
Proof.
  intros Hi%wreachable_winv Hdone. apply Z.eqb_eq in Hdone.
  destruct (wi_coord _ Hi) as [Hfs Hm Hrn Hlm Hlr Hdm Hdr].
  assert (Forall isDone (reduceTasks (coord w))) as Hall by (apply (countP_full isDone); lia).
  destruct (reduce_buckets reducef sortKV nr allEmitted Hnr) as (liness & Hf & Hp).
  destruct (reduceOutput_lines reducef sortKV allEmitted) as (lines & Hl & Hseq).
  exists liness, lines. split_and!; [|unfold mrsequential|done|done|intros ?; by eapply linesFor_unique].
  - apply Forall2_same_length_lookup_2; [by eapply Forall2_length|].
    intros i r ls Hr Hls. destruct (Forall2_lookup_l _ _ _ _ _ Hf Hr) as (ls' & Hls' & He). simplify_eq.
    assert (0 <= r < nr) as Hrr by (apply list_elem_of_lookup_2, elem_of_seqZ in Hr; lia).
    destruct (go_index_in_range (reduceTasks (coord w)) r) as [t Ht]; [lia|].
    destruct (wi_reduces _ Hi r t Ht) as [ls' Ho].
    { unfold go_index in Ht. case_match; [|done]. rewrite Forall_forall in Hall. apply Hall.
      by eapply list_elem_of_lookup_2. }
    pose proof (wi_outs _ Hi _ _ Ho) as Hx. unfold expected in Hx. rewrite upTo_all in Hx. congruence.
  - pose proof (seq_emitted (length fs) ltac:(lia)) as Hs. rewrite firstn_all in Hs. rewrite Hs. exact Hl.
Qed.
End job.

(** ** The applications *)

#[global] Instance wcReduce_insensitive : OrderInsensitive wcReduce.
Proof. split. intros k vs vs' Hp. unfold wcReduce. by rewrite Hp. Qed.

#[global] Instance indexerReduce_insensitive : OrderInsensitive indexerReduce.
Proof.
  split. intros k vs vs' Hp. unfold indexerReduce. assert (sortStrings vs = sortStrings vs') as ->; [|done].
  apply (StronglySorted_unique String.le); [apply (StronglySorted_merge_sort String.le)..|].
  unfold sortStrings. by rewrite !merge_sort_Permutation.
Qed.

(** A sort by key, for the examples. *)
#[global] Instance keyLe_dec : RelDecision keyLe.
Proof. intros a b. unfold keyLe. apply _. Defined.
#[global] Instance keyLe_trans : Transitive keyLe.
Proof. intros a b c. unfold keyLe. by etrans. Qed.
#[global] Instance keyLe_total : Total keyLe.
Proof. intros a b. unfold keyLe. apply (total String.le). Qed.

Definition sortByKey (l : list KeyValue) : list KeyValue := merge_sort keyLe l.

#[global] Instance sortByKey_sorter : Sorter sortByKey.
Proof. split; intros l; [apply merge_sort_Permutation|apply (StronglySorted_merge_sort keyLe)]. Qed.

Definition demoFile (f : string) : option string :=
  if bool_decide (f = "f"%string) then Some "to be, or not to be"%string else None.

(** An executable schedule: a worker asks at some time, or worker [i] goes on. *)
Inductive WEvent := EvRequest (now : Z) | EvWork (i : nat).

Section schedule.
Variables (mapf : string -> string -> list KeyValue) (reducef : string -> list string -> string).
Variables (sortKV : list KeyValue -> list KeyValue) (readFile : string -> option string).

Definition wexec (ev : WEvent) (w : System) : option System :=
  match ev with
  | EvRequest now =>
      '(c, reply) ← RequestTask now (coord w);
      Some (mkSystem c (inter w) (outs w) (startTask mapf readFile reply ++ workers w))
  | EvWork i =>
      t ← workers w !! i;
      let ws1 := take i (workers w) in
      let ws2 := drop (S i) (workers w) in
      match t with
      | WMap id r bs =>
          if r <? nReduce (coord w) then
            b ← bs @! r; Some (mkSystem (coord w) (<[(id, r) := b]> (inter w)) (outs w) (ws1 ++ WMap id (r + 1) bs :: ws2))
          else Some (mkSystem (coord w) (inter w) (outs w) (ws1 ++ WMapReport id :: ws2))
      | WMapReport id =>
          c ← ReportTask TaskMap id (coord w); Some (mkSystem c (inter w) (outs w) (ws1 ++ ws2))
      | WReduce id m acc =>
          if m <? nMap (coord w) then
            Some (mkSystem (coord w) (inter w) (outs w) (ws1 ++ WReduce id (m + 1) (readInter m id (inter w) acc) :: ws2))
          else
            lines ← reduceOutput reducef sortKV acc;
            Some (mkSystem (coord w) (inter w) (outs w) (ws1 ++ WOutput id lines :: ws2))
      | WOutput id lines =>
          Some (mkSystem (coord w) (inter w) (<[id := lines]> (outs w)) (ws1 ++ WReduceReport id :: ws2))
      | WReduceReport id =>
          c ← ReportTask TaskReduce id (coord w); Some (mkSystem c (inter w) (outs w) (ws1 ++ ws2))
      end
  end.

Definition wrun (evs : list WEvent) (w : System) : option System :=
  foldl (fun o ev => o ≫= wexec ev) (Some w) evs.

Lemma wexec_sound ev w w' : wexec ev w = Some w' -> wstep mapf reducef sortKV readFile w w'.
Proof.
  destruct ev as [now|i]; simpl.
  - intros ([c reply] & Hr & [= <-])%bind_Some. by eapply w_request.
  - intros (t & Ht & Hw)%bind_Some. pose proof (take_drop_middle _ _ _ Ht) as Hws. symmetry in Hws.
    destruct t as [id r bs|id|id m acc|id lines|id].
    + destruct (Z.ltb_spec r (nReduce (coord w))).
      * apply bind_Some in Hw as (b & Hb & [= <-]). by eapply w_map_write.
      * simplify_eq. by eapply w_map_end.
    + apply bind_Some in Hw as (c & Hc & [= <-]). by eapply w_map_report.
    + destruct (Z.ltb_spec m (nMap (coord w))).
      * simplify_eq. by eapply w_reduce_read.
      * apply bind_Some in Hw as (lines & Hl & [= <-]). by eapply w_reduce_end.
    + simplify_eq. by eapply w_output.
    + apply bind_Some in Hw as (c & Hc & [= <-]). by eapply w_reduce_report.
Qed.

Lemma wrun_sound evs w w' : wrun evs w = Some w' -> rtc (wstep mapf reducef sortKV readFile) w w'.
Proof.
  unfold wrun. revert w'. induction evs as [|ev evs IH] using rev_ind; intros w' Hr; [by simplify_eq/=|].
  rewrite foldl_app in Hr. simpl in Hr. apply bind_Some in Hr as (w1 & H1 & He).
  eapply rtc_r; eauto using wexec_sound.
Qed.
End schedule.

(** One file, one reduce; the reduce is given to a second worker too. *)
Definition demoSchedule : list WEvent :=
  [EvRequest 0; EvWork 0; EvWork 0; EvWork 0; EvRequest 0; EvRequest 20000000000;
   EvWork 0; EvWork 0; EvWork 0; EvWork 0].

Lemma demo_job :
  exists w, rtc (wstep wcMap wcReduce sortByKey demoFile) (winit ["f"%string] 1) w /\
    Done (coord w) = true /\ outs w !! 0 = Some [("be", "2"); ("not", "1"); ("or", "1"); ("to", "2")]%string.
Proof.
  assert ((fun w => (Done (coord w), outs w !! 0)) <$> wrun wcMap wcReduce sortByKey demoFile demoSchedule (winit ["f"%string] 1)
    = Some (true, Some [("be", "2"); ("not", "1"); ("or", "1"); ("to", "2")]%string)) as Hrun by (vm_compute; reflexivity).
  apply fmap_Some in Hrun as (w & Hw & Hq). exists w. split; [exact (wrun_sound _ _ _ _ _ _ _ Hw)|]. clear Hw.
  injection Hq as Hd Ho. split; symmetry; [exact Hd|exact Ho].
Qed.

Lemma mapreduce_correct_witness :
  exists w liness lines, outs w !! 0 = Some [("be", "2"); ("not", "1"); ("or", "1"); ("to", "2")]%string /\
    mrsequential wcMap wcReduce sortByKey demoFile ["f"%string] = Some lines /\ mjoin liness ≡ₚ lines.
Proof.
  destruct demo_job as (w & Hr & Hd & Ho).
  destruct (mapreduce_correct wcMap wcReduce sortByKey demoFile ["f"%string] 1 ltac:(lia)
    ltac:(intros f ->%list_elem_of_singleton; eauto) w Hr Hd) as (liness & lines & _ & Hs & _ & _ & Hp).
  exists w, liness, lines. split_and!; [exact Ho|exact Hs|exact (Hp wcReduce_insensitive)].
Defined.

(** ** Word count *)

(** The words of the input files, in order. *)
Definition inputWords (readFile : string -> option string) (fs : list string) : list string :=
  mjoin ((fun f => fields (default EmptyString (readFile f))) <$> fs).

Lemma wc_allEmitted readFile fs :
  (forall f, f ∈ fs -> is_Some (readFile f)) ->
  foldl (fun o f => acc ← o; content ← readFile f; Some (acc ++ wcMap f content)) (Some []) fs =
    Some ((fun w => mkKV w "1") <$> inputWords readFile fs).
Proof.
  induction fs as [|f fs IH] using rev_ind; intros Hr; [done|].
  rewrite foldl_app, IH by (intros g ?; apply Hr, elem_of_snoc; by left). cbn [foldl mbind option_bind].
  destruct (Hr f) as [content Hc]; [apply elem_of_snoc; by right|]. rewrite Hc. cbn [mbind option_bind].
  unfold inputWords. rewrite fmap_app, join_app, fmap_app. simpl. by rewrite Hc, app_nil_r.
Qed.

(** The sequential word count prints each word of the input once, with the number of
    its occurrences. *)
Theorem wc_counts readFile sortKV fs :
  Sorter sortKV -> (forall f, f ∈ fs -> is_Some (readFile f)) ->
  exists lines, mrsequential wcMap wcReduce sortKV readFile fs = Some lines /\ NoDup lines.*1 /\
    forall k out, (k, out) ∈ lines <->
      k ∈ inputWords readFile fs /\ out = itoa (length (filter (fun w => w = k) (inputWords readFile fs))).
Proof.
  intros Hsort Hr. unfold mrsequential. rewrite wc_allEmitted by done. cbn [mbind option_bind].
  destruct (reduceOutput_spec wcReduce sortKV ((fun w => mkKV w "1") <$> inputWords readFile fs))
    as (lines & -> & Hnd & Hin).
  exists lines. split_and!; [done..|]. intros k out. rewrite Hin. unfold wcReduce, vals.
  generalize (inputWords readFile fs). intros ws. rewrite length_fmap, <- list_fmap_compose.
  assert (Key ∘ (fun w => mkKV w "1") <$> ws = ws) as ->.
  { clear. induction ws as [|w ws IH]; [done|]. simpl. by f_equal. }
  assert (length (filter (fun kv => Key kv = k) ((fun w => mkKV w "1") <$> ws)) = length (filter (fun w => w = k) ws)) as ->;
    [|done].
  clear. induction ws as [|w ws IH]; [done|]. rewrite fmap_cons, !filter_cons. simpl.
  destruct (decide (w = k)); simpl; by rewrite IH.
Qed.

Lemma wc_counts_witness :
  exists lines, mrsequential wcMap wcReduce sortByKey demoFile ["f"%string] = Some lines /\ NoDup lines.*1.
Proof.
  destruct (wc_counts demoFile sortByKey ["f"%string]) as (lines & Hl & Hnd & _).
  - apply sortByKey_sorter.
  - intros f ->%list_elem_of_singleton. by eexists.
  - exists lines. split; [exact Hl|exact Hnd].
Defined.
