(* ===== verification/Porcupine.v ===== *)
(** * The linearizability checker (porcupine/bitset.go, checker.go, model.go, porcupine.go)

    The definitions of the checker the key/value tests rely on: bitsets, the
    construction of the entry list, the search over a doubly linked list that is
    unlinked and relinked in place, and the collection of the partitions' results.
    Nodes live in a heap and are reached through pointers, as in the source; [None]
    is a nil dereference, an index out of range or a failed type assertion. *)

From S2P Require Import Prelude.

(** ** bitset.go *)

(** The words are [uint64]s. *)
Abbreviation bitset := (list Z).

Definition newBitset (bits : Z) : bitset :=
  let extra := if negb (bits mod 64 =? 0) then 1 else 0 in
  replicate (Z.to_nat (bits / 64 + extra)) 0.

Definition bitsetIndex (pos : Z) : Z * Z := (pos / 64, pos mod 64).

Definition set (b : bitset) (pos : Z) : option bitset :=
  let '(major, minor) := bitsetIndex pos in
  w ← b @! major; go_update b major (Z.lor w (Z.shiftl 1 minor)).

Definition clear (b : bitset) (pos : Z) : option bitset :=
  let '(major, minor) := bitsetIndex pos in
  w ← b @! major; go_update b major (Z.ldiff w (Z.shiftl 1 minor)).

Definition get (b : bitset) (pos : Z) : option bool :=
  let '(major, minor) := bitsetIndex pos in
  w ← b @! major; Some (negb (Z.land w (Z.shiftl 1 minor) =? 0)).

(** [bits.OnesCount64]. *)
Definition OnesCount64 (w : Z) : Z := zlen (filter (fun i => Z.testbit w i = true) (seqZ 0 64)).

Definition popcnt (b : bitset) : Z := foldl (fun total v => total + OnesCount64 v) 0 b.

Definition hash (b : bitset) : Z := foldl Z.lxor (popcnt b) b.

Definition equals (b b2 : bitset) : bool :=
  if negb (zlen b =? zlen b2) then false else bool_decide (b = b2).

(** ** model.go *)

(** The values [interface{}] stands for: inputs, outputs and states of a model. *)
Section checker.
Context {In Out St : Type} `{!EqDecision St}.

Record Operation := mkOperation {
  ClientId : Z; Input : In; Call : Z; Output : Out; Return : Z;
}.

Inductive EventKind := CallEvent | ReturnEvent.

Record Event := mkEvent { ev_ClientId : Z; ev_Kind : EventKind; ev_Value : In + Out; ev_Id : Z }.

(** [None]: the field is nil.  The two descriptions are for the visualization only. *)
Record Model := mkModel {
  Partition : option (list Operation -> list (list Operation));
  PartitionEvent : option (list Event -> list (list Event));
  Init : St;
  Step : St -> In -> Out -> bool * St;
  Equal : option (St -> St -> bool);
}.

Definition NoPartition (history : list Operation) : list (list Operation) := [history].
Definition NoPartitionEvent (history : list Event) : list (list Event) := [history].
Definition ShallowEqual (state1 state2 : St) : bool := bool_decide (state1 = state2).

Definition fillDefault (m : Model) : Model :=
  mkModel (Some (default NoPartition (Partition m))) (Some (default NoPartitionEvent (PartitionEvent m)))
    (Init m) (Step m) (Some (default ShallowEqual (Equal m))).

Inductive CheckResult := Unknown | Ok | Illegal.

(** ** checker.go: entries *)

Inductive entryKind := callEntry | returnEntry.

#[global] Instance entryKind_eq_dec : EqDecision entryKind.
Proof. solve_decision. Defined.

Record entry := mkEntry {
  kind : entryKind; value : In + Out; id : Z; time : Z; clientId : Z;
}.

(** [byTime.Less] *)
Definition Less (a b : entry) : bool :=
  if negb (time a =? time b) then time a <? time b
  else bool_decide (kind a = callEntry) && bool_decide (kind b = returnEntry).

(** [sort.Sort(byTime(...))] *)
Variable sortEntries : list entry -> list entry.

(** The two entries of each operation, numbered from [id]. *)
Fixpoint opEntries (id : Z) (history : list Operation) : list entry :=
  match history with
  | [] => []
  | elem :: history =>
      mkEntry callEntry (inl (Input elem)) id (Call elem) (ClientId elem)
      :: mkEntry returnEntry (inr (Output elem)) id (Return elem) (ClientId elem)
      :: opEntries (id + 1) history
  end.

Definition makeEntries (history : list Operation) : list entry := sortEntries (opEntries 0 history).

(** The loop of [renumber]: the new events, the renumbering and the next number. *)
Definition renumberStep (acc : list Event * gmap Z Z * Z) (v : Event) : list Event * gmap Z Z * Z :=
  let '(e, m, id) := acc in
  match m !! ev_Id v with
  | Some r => (e ++ [mkEvent (ev_ClientId v) (ev_Kind v) (ev_Value v) r], m, id)
  | None => (e ++ [mkEvent (ev_ClientId v) (ev_Kind v) (ev_Value v) id], <[ev_Id v := id]> m, id + 1)
  end.

Definition renumber (events : list Event) : list Event := (foldl renumberStep ([], ∅, 0) events).1.1.

Definition convertEntries (events : list Event) : list entry :=
  imap (fun i elem =>
    mkEntry (match ev_Kind elem with ReturnEvent => returnEntry | CallEvent => callEntry end)
      (ev_Value elem) (ev_Id elem) (Z.of_nat i) (ev_ClientId elem)) events.

(** ** The linked list *)

Abbreviation ptr := nat.

Record node := mkNode {
  n_value : option (In + Out); n_match : option ptr; n_id : Z; next : option ptr; prev : option ptr;
}.

Abbreviation heap := (gmap ptr node).

(** [p.next = q] and [p.prev = q]. *)
Definition setNext (p : ptr) (q : option ptr) (h : heap) : option heap :=
  n ← h !! p; Some (<[p := mkNode (n_value n) (n_match n) (n_id n) q (prev n)]> h).
Definition setPrev (p : ptr) (q : option ptr) (h : heap) : option heap :=
  n ← h !! p; Some (<[p := mkNode (n_value n) (n_match n) (n_id n) (next n) q]> h).

(** [p.next] and [p.prev] where they are dereferenced: [None] also when they are nil. *)
Definition nextOf (p : ptr) (h : heap) : option ptr := h !! p ≫= next.
Definition prevOf (p : ptr) (h : heap) : option ptr := h !! p ≫= prev.

Definition insertBefore (n : ptr) (mark : option ptr) (h : heap) : option heap :=
  match mark with
  | None => Some h
  | Some mark =>
      nd ← h !! mark;
      let beforeMark := prev nd in
      h ← setPrev mark (Some n) h;
      h ← setNext n (Some mark) h;
      match beforeMark with
      | None => Some h
      | Some b => h ← setPrev n (Some b) h; setNext b (Some n) h
      end
  end.

(** [length]; [fuel] bounds the number of nodes. *)
Fixpoint length_ (fuel : nat) (n : option ptr) (h : heap) : option Z :=
  match n with
  | None => Some 0
  | Some p =>
      match fuel with
      | O => None
      | S fuel => nd ← h !! p; l ← length_ fuel (next nd) h; Some (l + 1)
      end
  end.

(** The loop body of [makeLinkedEntries] for entry [i]: the node is allocated at
    address [i].  (Addresses are never compared, only followed.) *)
Definition linkEntry (x : ptr * entry) (acc : option (option ptr * gmap Z ptr * heap))
  : option (option ptr * gmap Z ptr * heap) :=
  let '(i, elem) := x in
  '(root, mtch, h) ← acc;
  match kind elem with
  | returnEntry =>
      h ← insertBefore i root (<[i := mkNode (Some (value elem)) None (id elem) None None]> h);
      Some (Some i, <[id elem := i]> mtch, h)
  | callEntry =>
      h ← insertBefore i root (<[i := mkNode (Some (value elem)) (mtch !! id elem) (id elem) None None]> h);
      Some (Some i, mtch, h)
  end.

Definition makeLinkedEntries (entries : list entry) : option (option ptr * heap) :=
  '(root, _, h) ← foldr linkEntry (Some (None, ∅, ∅)) (imap pair entries);
  Some (root, h).

(** [lift] and [unlift], assignment by assignment. *)
Definition lift (e : ptr) (h : heap) : option heap :=
  nd ← h !! e;
  p ← prev nd; h ← setNext p (next nd) h;
  q ← next nd; h ← setPrev q (prev nd) h;
  m ← n_match nd; md ← h !! m;
  mp ← prev md; h ← setNext mp (next md) h;
  match next md with None => Some h | Some mq => setPrev mq (prev md) h end.

Definition unlift (e : ptr) (h : heap) : option heap :=
  nd ← h !! e;
  m ← n_match nd; md ← h !! m;
  mp ← prev md; h ← setNext mp (Some m) h;
  h ← match next md with None => Some h | Some mq => setPrev mq (Some m) h end;
  nd ← h !! e;
  p ← prev nd; h ← setNext p (Some e) h;
  q ← next nd; setPrev q (Some e) h.

(** ** The search *)

Section search.
Variable model : Model.

Abbreviation cacheT := (gmap Z (list (bitset * St))).

Definition cacheContains (cache : cacheT) (e : bitset * St) : option bool :=
  equal ← Equal model;
  Some (existsb (fun elem => equals e.1 elem.1 && equal e.2 elem.2) (go_map_get [] cache (hash e.1))).

Record Search := mkSearch {
  s_entry : option ptr;
  s_heap : heap;
  s_linearized : bitset;
  s_cache : cacheT;
  s_calls : list (ptr * St);
  s_longest : list (option (list Z));
  s_state : St;
}.

(** The ids of the calls made so far, in order. *)
Definition callIds (h : heap) (calls : list (ptr * St)) : option (list Z) :=
  mapM (fun v : ptr * St => n_id <$> h !! v.1) calls.

(** [longest[v.entry.id] = &seq] for every call whose longest prefix is shorter. *)
Definition updateLongest (seq : list Z) (longest : list (option (list Z))) : option (list (option (list Z))) :=
  foldl (fun o i =>
    longest ← o; l ← longest @! i;
    if match l with None => true | Some s => zlen seq >? zlen s end
    then go_update longest i (Some seq) else Some longest) (Some longest) seq.

(** One iteration of the loop of [checkSingle]: the next state, or the result. *)
Definition iterate (head : ptr) (computePartial killed : bool) (s : Search)
  : option (Search + bool * list (option (list Z))) :=
  let 'mkSearch en h linearized cache calls longest state := s in
  hd ← h !! head;
  match next hd with
  | None =>
      seq ← callIds h calls;
      Some (inr (true, (fun _ => Some seq) <$> longest))
  | Some _ =>
      if killed then Some (inr (false, longest))
      else
        e ← en; nd ← h !! e;
        match n_match nd with
        | Some matching =>
            md ← h !! matching;
            input ← n_value nd ≫= (fun v => match v with inl i => Some i | _ => None end);
            output ← n_value md ≫= (fun v => match v with inr o => Some o | _ => None end);
            let '(ok, newState) := Step model state input output in
            if (ok : bool) then
              newLinearized ← set linearized (n_id nd);
              hit ← cacheContains cache (newLinearized, newState);
              if (hit : bool) then
                Some (inl (mkSearch (next nd) h linearized cache calls longest state))
              else
                let hash := hash newLinearized in
                let cache := <[hash := go_map_get [] cache hash ++ [(newLinearized, newState)]]> cache in
                h ← lift e h;
                hd ← h !! head;
                Some (inl (mkSearch (next hd) h newLinearized cache (calls ++ [(e, state)]) longest newState))
            else Some (inl (mkSearch (next nd) h linearized cache calls longest state))
        | None =>
            match last calls with
            | None => Some (inr (false, longest))
            | Some (e, state) =>
                longest ← (if computePartial then seq ← callIds h calls; updateLongest seq longest else Some longest);
                nd ← h !! e;
                linearized ← clear linearized (n_id nd);
                h ← unlift e h;
                nd ← h !! e;
                Some (inl (mkSearch (next nd) h linearized cache (take (length calls - 1) calls) longest state))
            end
        end
  end.

(** [kill i] is what the [i]-th iteration reads of the kill flag. *)
Fixpoint searchLoop (head : ptr) (computePartial : bool) (kill : nat -> bool) (fuel i : nat) (s : Search)
  : option (bool * list (option (list Z))) :=
  match fuel with
  | O => None
  | S fuel =>
      r ← iterate head computePartial (kill i) s;
      match r with
      | inl s => searchLoop head computePartial kill fuel (S i) s
      | inr res => Some res
      end
  end.

(** The state before the loop, and the head of the list. *)
Definition startSearch (history : list entry) : option (ptr * Search) :=
  '(root, h) ← makeLinkedEntries history;
  l ← length_ (length history) root h;
  let n := l / 2 in
  let head := length history in
  h ← insertBefore head root (<[head := mkNode None None (-1) None None]> h);
  Some (head, mkSearch root h (newBitset n) ∅ [] (replicate (Z.to_nat n) None) (Init model)).

Definition checkSingle (fuel : nat) (history : list entry) (computePartial : bool) (kill : nat -> bool)
  : option (bool * list (option (list Z))) :=
  '(head, s) ← startSearch history; searchLoop head computePartial kill fuel 0 s.

(** ** Collecting the results *)

(** The receive loop of [checkParallel] on the results and the timer in the order they
    arrive ([None]: the timer): [ok] and [timedOut] at its end.  No more arrivals: the
    [select] blocks. *)
Fixpoint collect (computeInfo : bool) (len count : Z) (ok : bool) (arrivals : list (option bool))
  : option (bool * bool) :=
  match arrivals with
  | [] => None
  | Some result :: arrivals =>
      let count := count + 1 in
      let ok := ok && result in
      if negb ok && negb computeInfo then Some (ok, false)
      else if count >=? len then Some (ok, false)
      else collect computeInfo len count ok arrivals
  | None :: _ => Some (ok, true)
  end.

Definition verdict (r : bool * bool) : CheckResult :=
  let '(ok, timedOut) := r in
  if negb ok then Illegal else if timedOut then Unknown else Ok.

(** [order] lists whose result arrives when: [Some i] for partition [i], [None] for
    the timer, which exists only for a positive timeout.  The kill flag is raised
    after the last result that is looked at. *)
Definition checkParallel (fuel : nat) (history : list (list entry)) (computeInfo : bool) (timeout : Z)
    (order : list (option nat)) : option CheckResult :=
  arrivals ← mapM (fun o : option nat =>
    match o with
    | Some i => sub ← history !! i; r ← checkSingle fuel sub computeInfo (fun _ => false); Some (Some r.1)
    | None => if timeout >? 0 then Some None else None
    end) order;
  r ← collect computeInfo (zlen history) 0 true arrivals;
  Some (verdict r).
End search.

Definition checkEvents (model : Model) (fuel : nat) (history : list Event) (verbose : bool) (timeout : Z)
    (order : list (option nat)) : option CheckResult :=
  let model := fillDefault model in
  part ← PartitionEvent model;
  checkParallel model fuel ((fun sub => convertEntries (renumber sub)) <$> part history) verbose timeout order.

Definition checkOperations (model : Model) (fuel : nat) (history : list Operation) (verbose : bool) (timeout : Z)
    (order : list (option nat)) : option CheckResult :=
  let model := fillDefault model in
  part ← Partition model;
  checkParallel model fuel (makeEntries <$> part history) verbose timeout order.

(** ** porcupine.go *)

Definition isOk (r : CheckResult) : bool := match r with Ok => true | _ => false end.

Definition CheckOperations (model : Model) (fuel : nat) (history : list Operation) (order : list (option nat)) : option bool :=
  isOk <$> checkOperations model fuel history false 0 order.
Definition CheckOperationsTimeout (model : Model) (fuel : nat) (history : list Operation) (timeout : Z)
    (order : list (option nat)) : option CheckResult :=
  checkOperations model fuel history false timeout order.
Definition CheckEvents (model : Model) (fuel : nat) (history : list Event) (order : list (option nat)) : option bool :=
  isOk <$> checkEvents model fuel history false 0 order.
Definition CheckEventsTimeout (model : Model) (fuel : nat) (history : list Event) (timeout : Z)
    (order : list (option nat)) : option CheckResult :=
  checkEvents model fuel history false timeout order.
End checker.

Arguments Operation : clear implicits.
Arguments Event : clear implicits.
Arguments Model : clear implicits.
Arguments entry : clear implicits.
Arguments node : clear implicits.
Arguments Search : clear implicits.
