(* ===== verification/PorcupineList.v ===== *)
(** * Porcupine: bitsets and the linked list

    The laws of bitset.go on 64-bit words, and what the pointer operations of
    checker.go do to the doubly linked list: [lift] takes a call and its return out
    of the list, [unlift] restores the very same heap, and [makeLinkedEntries] builds
    the list of the entries with every call matched to its return. *)

From S2P Require Import Prelude Porcupine.

(** ** Bitsets *)

(** The words are 64-bit. *)
Definition word (w : Z) : Prop := 0 <= w < 2 ^ 64.

Lemma bit_mask i : 0 <= i -> 0 <= i mod 64 < 64 /\ 0 <= i / 64.
Proof. intros Hi. split; [apply Z.mod_pos_bound; lia|apply Z.div_pos; lia]. Qed.

Lemma same_bit i j : i / 64 = j / 64 -> i mod 64 = j mod 64 -> i = j.
Proof. intros Hd Hm. rewrite (Z.div_mod i 64), (Z.div_mod j 64) by lia. congruence. Qed.

Lemma testbit_one k j : 0 <= k -> Z.testbit (Z.shiftl 1 k) j = bool_decide (j = k).
Proof.
  intros Hk. rewrite Z.shiftl_1_l. case_bool_decide as E.
  - subst. by apply Z.pow2_bits_true.
  - apply Z.pow2_bits_false. congruence.
Qed.

Lemma land_one w k : 0 <= k -> negb (Z.land w (Z.shiftl 1 k) =? 0) = Z.testbit w k.
Proof.
  intros Hk. destruct (Z.testbit w k) eqn:E.
  - apply negb_true_iff, Z.eqb_neq. intros H0.
    assert (Z.testbit (Z.land w (Z.shiftl 1 k)) k = false) as H1 by (rewrite H0; apply Z.bits_0).
    rewrite Z.land_spec, E, testbit_one in H1 by done. by rewrite bool_decide_eq_true_2 in H1.
  - apply negb_false_iff, Z.eqb_eq, Z.bits_inj'. intros j Hj.
    rewrite Z.land_spec, testbit_one, Z.bits_0 by done. case_bool_decide; [subst; by rewrite E|apply andb_false_r].
Qed.

(** What [get], [set] and [clear] do, in terms of a test of one bit of one word. *)
Lemma get_eq b i : 0 <= i -> get b i = (fun w => Z.testbit w (i mod 64)) <$> b @! (i / 64).
Proof.
  intros Hi. unfold get, bitsetIndex. destruct (b @! (i / 64)) as [w|]; [|done]. simpl.
  rewrite land_one; [done|]. apply bit_mask, Hi.
Qed.

Lemma get_update b i w b' j :
  0 <= i -> 0 <= j -> go_update b (i / 64) w = Some b' ->
  get b' j = if decide (j / 64 = i / 64) then Some (Z.testbit w (j mod 64)) else get b j.
Proof.
  intros Hi Hj Hu. rewrite !get_eq by done.
  rewrite (go_update_index _ _ _ _ (j / 64) Hu).
  by destruct (Z.eqb_spec (j / 64) (i / 64)), (decide (j / 64 = i / 64)).
Qed.

Lemma set_in_range b i : 0 <= i -> is_Some (get b i) -> is_Some (set b i).
Proof.
  intros Hi [x Hx]. rewrite get_eq in Hx by done. unfold set, bitsetIndex.
  destruct (b @! (i / 64)) as [w|] eqn:E; [|done]. simpl.
  rewrite go_update_Some; [eauto|]. by apply go_index_Some_bound in E.
Qed.

(** [set] sets one bit and no other. *)
Lemma get_set b i b' j :
  0 <= i -> 0 <= j -> set b i = Some b' -> get b' j = if decide (j = i) then Some true else get b j.
Proof.
  intros Hi Hj Hs. unfold set, bitsetIndex in Hs. destruct (b @! (i / 64)) as [w|] eqn:E; [|done]. simpl in Hs.
  rewrite (get_update b i _ b' j Hi Hj Hs), (get_eq b j Hj).
  destruct (bit_mask i Hi), (bit_mask j Hj).
  destruct (decide (j / 64 = i / 64)) as [Ed|Ed]; [|rewrite decide_False; [done|congruence]].
  rewrite Z.lor_spec, testbit_one by lia. rewrite Ed, E. simpl.
  destruct (decide (j = i)) as [->|Hne]; [rewrite bool_decide_eq_true_2, orb_true_r; done|].
  rewrite bool_decide_eq_false_2, orb_false_r; [done|]. intros Hm. by apply Hne, same_bit.
Qed.

(** [clear] undoes a [set] of a clear bit. *)
Lemma clear_set b i b' : 0 <= i -> get b i = Some false -> set b i = Some b' -> clear b' i = Some b.
Proof.
  intros Hi Hg Hs. rewrite get_eq in Hg by done. unfold set, clear, bitsetIndex in *.
  destruct (b @! (i / 64)) as [w|] eqn:E; [|done]. simpl in Hs. simpl in Hg. injection Hg as Hg.
  destruct (bit_mask i Hi). pose proof (go_update_length _ _ _ _ Hs) as Hl.
  pose proof (go_index_Some_bound _ _ _ E) as Hb.
  rewrite (go_update_index _ _ _ _ (i / 64) Hs), Z.eqb_refl. simpl.
  assert (Z.ldiff (Z.lor w (Z.shiftl 1 (i mod 64))) (Z.shiftl 1 (i mod 64)) = w) as ->.
  { apply Z.bits_inj'. intros j Hj. rewrite Z.ldiff_spec, Z.lor_spec, testbit_one by lia.
    case_bool_decide; [subst; by rewrite Hg|]. simpl. by rewrite orb_false_r, andb_true_r. }
  rewrite go_update_Some by (unfold zlen in *; lia). f_equal.
  apply go_index_ext. intros j Hj.
  rewrite (go_update_index b' (i / 64) w _ j); [|apply go_update_Some; unfold zlen in *; lia].
  rewrite (go_update_index _ _ _ _ j Hs). destruct (Z.eqb_spec j (i / 64)); congruence.
Qed.

Lemma get_newBitset n i : 0 <= i < n -> get (newBitset n) i = Some false.
Proof.
  intros Hi. rewrite get_eq by lia. unfold newBitset, go_index. destruct (bit_mask i ltac:(lia)) as [? Hd].
  rewrite (proj2 (Z.leb_le _ _) Hd). rewrite lookup_replicate_2; [simpl; by rewrite Z.bits_0|].
  pose proof (Z.div_le_mono i (n - 1) 64 ltac:(lia) ltac:(lia)).
  pose proof (Z.div_mod n 64 ltac:(lia)). pose proof (Z.mod_pos_bound n 64 ltac:(lia)).
  assert (i / 64 < n / 64 + (if negb (n mod 64 =? 0) then 1 else 0)); [|lia].
  destruct (Z.eqb_spec (n mod 64) 0); simpl.
  - apply Z.div_lt_upper_bound; lia.
  - pose proof (Z.div_lt_upper_bound i 64 (n / 64 + 1)). lia.
Qed.

Lemma equals_eq b b2 : equals b b2 = true <-> b = b2.
Proof.
  unfold equals. destruct (Z.eqb_spec (zlen b) (zlen b2)); simpl.
  - by rewrite bool_decide_eq_true.
  - split; [done|congruence].
Qed.

Lemma word_bits w : word w <-> 0 <= w /\ forall j, 64 <= j -> Z.testbit w j = false.
Proof.
  unfold word. split.
  - intros [H0 H1]. split; [done|]. intros j Hj. apply Z.bits_above_log2; [done|].
    destruct (Z.eq_dec w 0) as [->|]; [simpl; lia|]. apply Z.log2_lt_pow2; [lia|].
    eapply Z.lt_le_trans; [done|]. apply Z.pow_le_mono_r; lia.
  - intros [H0 Hb]. split; [done|]. destruct (Z.lt_ge_cases w (2 ^ 64)) as [|Hge]; [done|].
    assert (64 <= Z.log2 w) as Hl by (apply Z.log2_le_pow2; lia).
    pose proof (Hb _ Hl). rewrite Z.bit_log2 in *; [done|lia].
Qed.

(** Words stay 64-bit. *)
Lemma set_words b i b' : 0 <= i -> Forall word b -> set b i = Some b' -> Forall word b'.
Proof.
  intros Hi Hb Hs. unfold set, bitsetIndex in Hs. destruct (b @! (i / 64)) as [w|] eqn:E; [|done]. simpl in Hs.
  pose proof (go_index_Some_bound _ _ _ E) as Hr. rewrite go_update_Some in Hs by done. injection Hs as <-.
  apply Forall_insert; [done|].
  assert (word w) as [Hw Hb']%word_bits.
  { unfold go_index in E. destruct (0 <=? i / 64); [|done]. by eapply Forall_lookup_1. }
  destruct (bit_mask i Hi). apply word_bits. split.
  - apply Z.lor_nonneg. split; [done|]. rewrite Z.shiftl_1_l. apply Z.pow_nonneg. lia.
  - intros j Hj. rewrite Z.lor_spec, testbit_one, Hb' by lia. simpl. apply bool_decide_eq_false_2. lia.
Qed.

(** ** The linked list *)

Section links.
Context {In Out : Type}.
Implicit Types (h : gmap nat (node In Out)) (n : node In Out).

Definition endOf (a : nat) (l : list nat) : nat := default a (last l).

(** [l] follows [a]: [next] and [prev] link the nodes in order. *)
Fixpoint seg h (a : nat) (l : list nat) : Prop :=
  match l with
  | [] => True
  | b :: l => nextOf a h = Some b /\ prevOf b h = Some a /\ seg h b l
  end.

(** [l] is everything that follows [a]. *)
Definition chain h (a : nat) (l : list nat) : Prop := seg h a l /\ nextOf (endOf a l) h = None.

(** The fields that are never assigned. *)
Definition static (p : nat) h : option (option (In + Out) * option nat * Z) :=
  (fun n => (n_value n, n_match n, n_id n)) <$> h !! p.

Lemma endOf_cons a b l : endOf a (b :: l) = endOf b l.
Proof. unfold endOf. rewrite last_cons. by destruct (last l). Qed.

Lemma endOf_app a l1 l2 : endOf a (l1 ++ l2) = endOf (endOf a l1) l2.
Proof. revert a. induction l1 as [|b l1 IH]; intros a; [done|]. simpl. rewrite !endOf_cons. apply IH. Qed.

Lemma endOf_elem a l : endOf a l ∈ a :: l.
Proof.
  revert a. induction l as [|b l IH]; intros a; [by left|]. rewrite endOf_cons. right. apply IH.
Qed.

Lemma seg_app h a l1 l2 : seg h a (l1 ++ l2) <-> seg h a l1 /\ seg h (endOf a l1) l2.
Proof.
  revert a. induction l1 as [|b l1 IH]; intros a; simpl; [tauto|]. rewrite IH, endOf_cons. tauto.
Qed.

Lemma seg_frame h h' a l :
  NoDup (a :: l) -> seg h a l ->
  (forall y, y ∈ a :: l -> y <> endOf a l -> nextOf y h' = nextOf y h) ->
  (forall y, y ∈ l -> prevOf y h' = prevOf y h) -> seg h' a l.
Proof.
  revert a. induction l as [|b l IH]; intros a Hnd Hs Hn Hp; [done|].
  destruct Hs as (Ha & Hb & Hs). apply NoDup_cons in Hnd as [Hab Hnd]. rewrite endOf_cons in Hn. simpl.
  rewrite Hn, Hp; [|by left|by left|].
  - split; [done|]. split; [done|]. apply IH; [done..| |].
    + intros y Hy. apply Hn. by right.
    + intros y Hy. apply Hp. by right.
  - intros ->. apply Hab, endOf_elem.
Qed.

Lemma nextOf_is_Some h p q : nextOf p h = Some q -> is_Some (h !! p).
Proof. unfold nextOf. destruct (h !! p); [eauto|done]. Qed.

(** Taking one node out of the list and putting it back. *)
Definition unlink (x : nat) h : option (gmap nat (node In Out)) :=
  nd ← h !! x; p ← prev nd; h ← setNext p (next nd) h;
  match next nd with None => Some h | Some q => setPrev q (prev nd) h end.

Definition relink (x : nat) h : option (gmap nat (node In Out)) :=
  nd ← h !! x; p ← prev nd; h ← setNext p (Some x) h;
  match next nd with None => Some h | Some q => setPrev q (Some x) h end.

Lemma lift_unlink e h nd q m :
  h !! e = Some nd -> next nd = Some q -> n_match nd = Some m -> lift e h = h1 ← unlink e h; unlink m h1.
Proof.
  intros He Hq Hm. unfold lift, unlink. rewrite He. simpl. rewrite Hq, Hm. simpl.
  destruct (prev nd) as [p|]; [|done]. simpl. by destruct (setNext p (Some q) h).
Qed.

Lemma unlift_relink e h nd m :
  h !! e = Some nd -> n_match nd = Some m ->
  (forall h1 nd1, relink m h = Some h1 -> h1 !! e = Some nd1 -> is_Some (next nd1)) ->
  unlift e h = h1 ← relink m h; relink e h1.
Proof.
  intros He Hm Hq. unfold unlift, relink in *. rewrite He. simpl. rewrite Hm. simpl.
  destruct (h !! m) as [md|]; [|done]. simpl in *. destruct (prev md) as [mp|]; [|done]. simpl in *.
  destruct (setNext mp (Some m) h) as [h1|]; [|done]. simpl in *.
  destruct (match next md with None => Some h1 | Some mq => setPrev mq (Some m) h1 end) as [h2|]; [|done]. simpl.
  destruct (h2 !! e) as [nd2|] eqn:E2; [|done]. simpl. destruct (prev nd2) as [p|]; [|done]. simpl.
  destruct (setNext p (Some e) h2) as [h3|]; [|done]. simpl.
  destruct (Hq h2 nd2 eq_refl E2) as [q ->]. done.
Qed.

(** [h'] is [h] with [next] of [p] and, if there is a [q], [prev] of [q] assigned. *)
Definition rewired (p : nat) (pn : option nat) (q : option nat) (qp : option nat) h h' : Prop :=
  (forall y, nextOf y h' = if decide (y = p) then pn else nextOf y h) /\
  (forall y, prevOf y h' = if decide (q = Some y) then qp else prevOf y h) /\
  (forall y, static y h' = static y h).

Lemma rewire p pn q qp h :
  is_Some (h !! p) -> (forall y, q = Some y -> y <> p /\ is_Some (h !! y)) ->
  exists h', (h1 ← setNext p pn h; match q with None => Some h1 | Some q => setPrev q qp h1 end) = Some h' /\
             rewired p pn q qp h h' /\ (forall y, y <> p -> q <> Some y -> h' !! y = h !! y).
Proof.
  intros [np Hp] Hq. unfold setNext. rewrite Hp. simpl. destruct q as [q|].
  - destruct (Hq q eq_refl) as [Hne [nq0 Hq0]]. unfold setPrev.
    rewrite lookup_insert_ne, Hq0 by done. simpl. eexists. split; [done|].
    split; [|intros y Hy Hy'; rewrite !lookup_insert_ne by congruence; done].
    split_and!; intros y; unfold nextOf, prevOf, static;
      (destruct (decide (y = q)) as [->|Hy]; [|destruct (decide (y = p)) as [->|Hy']]);
      rewrite ?lookup_insert_eq, ?lookup_insert_ne by done; rewrite ?lookup_insert_eq, ?lookup_insert_ne by done; simpl;
      rewrite ?Hp, ?Hq0; simpl;
      try (rewrite decide_True by congruence); try (rewrite decide_False by congruence); done.
  - eexists. split; [done|]. split; [|intros y Hy _; by rewrite lookup_insert_ne].
    split_and!; intros y; unfold nextOf, prevOf, static; destruct (decide (y = p)) as [->|Hy];
      rewrite ?lookup_insert_eq, ?lookup_insert_ne by done; simpl; rewrite ?Hp; simpl; done.
Qed.

Lemma heap_ext h h' :
  (forall y, nextOf y h = nextOf y h') -> (forall y, prevOf y h = prevOf y h') ->
  (forall y, static y h = static y h') -> h = h'.
Proof.
  intros Hn Hp Hs. apply map_eq. intros y. specialize (Hn y). specialize (Hp y). specialize (Hs y).
  unfold nextOf, prevOf, static in *. destruct (h !! y) as [[]|], (h' !! y) as [[]|]; simpl in *; congruence.
Qed.

Lemma static_is_Some h h' y : static y h' = static y h -> is_Some (h !! y) -> is_Some (h' !! y).
Proof. unfold static. intros E [n Hn]. rewrite Hn in E. destruct (h' !! y); [eauto|done]. Qed.

Lemma NoDup_end a l1 l2 : NoDup (a :: l1 ++ l2) -> endOf a l1 ∉ l2.
Proof.
  intros Hnd Hin. change (a :: l1 ++ l2) with ((a :: l1) ++ l2) in Hnd. apply NoDup_app in Hnd as (_ & Hd & _).
  by apply (Hd (endOf a l1)), Hin; apply endOf_elem.
Qed.

(** The neighbours of a node of the list. *)
Lemma chain_around h a l1 x l2 :
  chain h a (l1 ++ x :: l2) ->
  seg h a l1 /\ nextOf (endOf a l1) h = Some x /\ prevOf x h = Some (endOf a l1) /\
  nextOf x h = head l2 /\ (forall q, head l2 = Some q -> prevOf q h = Some x) /\
  (forall q l3, l2 = q :: l3 -> chain h q l3).
Proof.
  intros [Hs He]. rewrite endOf_app, endOf_cons in He. apply seg_app in Hs as [H1 (H2 & H3 & H4)].
  split_and!; try done.
  - destruct l2 as [|q l3]; [done|]. by destruct H4.
  - intros q Hq. destruct l2 as [|q' l3]; [done|]. simplify_eq/=. by destruct H4 as (_ & ? & _).
  - intros q l3 ->. destruct H4 as (_ & _ & H4). split; [done|]. by rewrite endOf_cons in He.
Qed.

(** The list without [x], given how its neighbours were assigned. *)
Lemma chain_without h h' a l1 x l2 :
  NoDup (a :: l1 ++ x :: l2) -> chain h a (l1 ++ x :: l2) ->
  rewired (endOf a l1) (nextOf x h) (head l2) (Some (endOf a l1)) h h' -> chain h' a (l1 ++ l2).
Proof.
  intros Hnd Hc (Rn & Rp & _). destruct (chain_around _ _ _ _ _ Hc) as (H1 & H2 & H3 & H4 & H5 & H6).
  pose proof (NoDup_end _ _ _ Hnd) as Hend.
  assert (NoDup (a :: l1) /\ (forall y, y ∈ a :: l1 -> y ∉ x :: l2) /\ NoDup (x :: l2)) as (Hd1 & Hd & Hd2)
    by (by apply NoDup_app).
  assert (seg h' a l1) as Hs1.
  { apply (seg_frame h); [done..| |].
    - intros y Hy Hne. rewrite Rn. by rewrite decide_False.
    - intros y Hy. rewrite Rp. apply decide_False. intros Hh. apply (Hd y); [by right|].
      right. destruct l2; [done|]. simplify_eq/=. by left. }
  destruct l2 as [|q l3]; simpl in *.
  { rewrite app_nil_r. split; [done|]. rewrite Rn. by rewrite decide_True. }
  destruct (H6 q l3 eq_refl) as [H7 H8].
  assert (endOf a l1 <> q /\ endOf a l1 ∉ l3) as [Hq Hl3] by (split; intros Heq; apply Hend; right; [rewrite Heq; left|by right]).
  split; [|rewrite endOf_app, endOf_cons, Rn, decide_False; [done|]].
  - apply seg_app. split; [done|]. simpl. rewrite Rn, Rp, !decide_True by done. split; [done|]. split; [done|].
    apply NoDup_cons in Hd2 as [_ Hd2]. apply (seg_frame h); [done..| |].
    + intros y Hy _. rewrite Rn. apply decide_False. intros ->. apply elem_of_cons in Hy as [Hy|Hy]; congruence.
    + intros y Hy. rewrite Rp. apply decide_False. intros [= ->]. by apply NoDup_cons in Hd2 as [? _].
  - intros Heq. pose proof (endOf_elem q l3) as Hin. rewrite Heq in Hin. apply elem_of_cons in Hin as [|]; done.
Qed.

(** Unlinking takes a node out of the list; relinking it restores the heap. *)
Lemma unlink_spec h a l1 x l2 :
  NoDup (a :: l1 ++ x :: l2) -> chain h a (l1 ++ x :: l2) -> (forall y, y ∈ a :: l1 ++ x :: l2 -> is_Some (h !! y)) ->
  exists h', unlink x h = Some h' /\ chain h' a (l1 ++ l2) /\ relink x h' = Some h /\
             (forall y, static y h' = static y h) /\ h' !! x = h !! x.
Proof.
  intros Hnd Hc Hdom. destruct (chain_around _ _ _ _ _ Hc) as (H1 & H2 & H3 & H4 & H5 & H6).
  destruct (Hdom x) as [nx Hx]; [right; apply elem_of_app; right; by left|].
  assert (next nx = head l2 /\ prev nx = Some (endOf a l1)) as [Hn Hp]
    by (unfold nextOf, prevOf in *; rewrite Hx in *; done).
  pose proof (NoDup_end _ _ _ Hnd) as Hend.
  assert (x ∉ l2) as Hx2.
  { change (a :: l1 ++ x :: l2) with ((a :: l1) ++ x :: l2) in Hnd. apply NoDup_app in Hnd as (_ & _ & Hnd).
    by apply NoDup_cons in Hnd as [? _]. }
  assert (forall q, head l2 = Some q -> q <> endOf a l1 /\ q <> x /\ is_Some (h !! q)) as Hq.
  { intros q Hq. destruct l2 as [|q' l3]; [done|]. simplify_eq/=. split_and!.
    - intros Heq. apply Hend. rewrite <- Heq. right. by left.
    - intros Heq. apply Hx2. rewrite Heq. by left.
    - apply Hdom. right. apply elem_of_app. right. right. by left. }
  destruct (rewire (endOf a l1) (next nx) (head l2) (Some (endOf a l1)) h) as (h' & E & R & Fr).
  { by apply (nextOf_is_Some _ _ x). }
  { intros q Hh. destruct (Hq q Hh) as (? & _ & ?). done. }
  assert (h' !! x = Some nx) as Hx'.
  { rewrite Fr; [done| |].
    - intros Heq. apply Hend. rewrite <- Heq. by left.
    - intros Hh. destruct (Hq x Hh) as (_ & ? & _). done. }
  exists h'. split_and!.
  - unfold unlink. rewrite Hx. simpl. rewrite Hp, Hn. simpl. by rewrite Hn in E.
  - apply (chain_without h h' a l1 x l2); [done..|]. rewrite H4. by rewrite Hn in R.
  - destruct R as (Rn & Rp & Rs).
    destruct (rewire (endOf a l1) (Some x) (head l2) (Some x) h') as (h2 & E2 & (Rn2 & Rp2 & Rs2) & _).
    { apply (static_is_Some h); [done|]. by apply (nextOf_is_Some _ _ x). }
    { intros q Hh. destruct (Hq q Hh) as (? & _ & ?). split; [done|]. by apply (static_is_Some h). }
    unfold relink. rewrite Hx'. simpl. rewrite Hp, Hn. simpl. rewrite E2. f_equal.
    apply heap_ext; intros y.
    + rewrite Rn2, Rn. case_decide; [by subst|done].
    + rewrite Rp2, Rp. case_decide as Hh; [by rewrite (H5 y)|done].
    + by rewrite Rs2, Rs.
  - by destruct R as (_ & _ & ?).
  - by rewrite Hx, Hx'.
Qed.

(** [lift] takes a call and its return out of the list; [unlift] restores the heap. *)
Lemma lift_spec h a l1 e l2 m l3 nd :
  NoDup (a :: l1 ++ e :: l2 ++ m :: l3) -> chain h a (l1 ++ e :: l2 ++ m :: l3) ->
  (forall y, y ∈ a :: l1 ++ e :: l2 ++ m :: l3 -> is_Some (h !! y)) ->
  h !! e = Some nd -> n_match nd = Some m ->
  exists h', lift e h = Some h' /\ chain h' a (l1 ++ l2 ++ l3) /\ unlift e h' = Some h /\
             forall y, static y h' = static y h.
Proof.
  intros Hnd Hc Hdom He Hm.
  destruct (unlink_spec h a l1 e (l2 ++ m :: l3)) as (h1 & U1 & C1 & R1 & S1 & E1); [done..|].
  rewrite app_assoc in C1.
  destruct (unlink_spec h1 a (l1 ++ l2) m l3) as (h2 & U2 & C2 & R2 & S2 & E2); [|done|..].
  { rewrite <- app_assoc. change (a :: l1 ++ l2 ++ m :: l3) with ((a :: l1) ++ l2 ++ m :: l3).
    eapply sublist_NoDup; [exact Hnd|]. change (a :: l1 ++ e :: l2 ++ m :: l3) with ((a :: l1) ++ e :: l2 ++ m :: l3).
    apply sublist_app; [done|]. by constructor. }
  { intros y Hy. apply (static_is_Some h); [done|]. apply Hdom. rewrite <- app_assoc in Hy.
    repeat rewrite ?elem_of_cons, ?elem_of_app in Hy. repeat rewrite ?elem_of_cons, ?elem_of_app. tauto. }
  assert (exists q, next nd = Some q) as [q Hq].
  { destruct (chain_around _ _ _ _ _ Hc) as (_ & _ & _ & Hx & _). unfold nextOf in Hx. rewrite He in Hx.
    simpl in Hx. rewrite Hx. destruct l2; simpl; eauto. }
  exists h2. split_and!.
  - rewrite (lift_unlink e h nd q m) by done. by rewrite U1.
  - by rewrite <- app_assoc in C2.
  - assert (exists nd2, h2 !! e = Some nd2 /\ n_match nd2 = Some m) as (nd2 & He2 & Hm2).
    { assert (static e h2 = static e h) as Hs by (by rewrite S2, S1). unfold static in Hs. rewrite He in Hs.
      destruct (h2 !! e) as [nd2|]; simplify_eq/=. exists nd2. split; [done|]. congruence. }
    rewrite (unlift_relink e h2 nd2 m); [by rewrite R2|done..|].
    intros h3 nd3 Hr Hn3. simplify_eq. rewrite E1, He in Hn3. simplify_eq. eauto.
  - intros y. by rewrite S2, S1.
Qed.

Lemma length_chain h a l (fuel : nat) :
  (forall y, y ∈ a :: l -> is_Some (h !! y)) -> chain h a l -> (length l < fuel)%nat ->
  length_ fuel (Some a) h = Some (zlen (a :: l)).
Proof.
  revert a fuel. induction l as [|b l IH]; intros a fuel Hdom [Hs He] Hf; (destruct fuel as [|fuel]; [simpl in Hf; lia|]);
    destruct (Hdom a (list_elem_of_here _ _)) as [nd Ha]; cbn [length_]; rewrite Ha; cbn [mbind option_bind].
  - unfold endOf, nextOf in He. simpl in He. rewrite Ha in He. simpl in He. rewrite He. by destruct fuel.
  - destruct Hs as (Hn & Hp & Hs). unfold nextOf in Hn. rewrite Ha in Hn. simpl in Hn. rewrite Hn.
    rewrite IH; [rewrite !zlen_cons; done| | |simpl in Hf; lia].
    + intros y Hy. apply Hdom. by right.
    + split; [done|]. by rewrite endOf_cons in He.
Qed.

(** Where the return of each operation is, in a list of entries numbered from [k]. *)
Fixpoint retMap (k : nat) (es : list (entry In Out)) : gmap Z nat :=
  match es with
  | [] => ∅
  | e :: es => match kind e with
               | returnEntry => <[id e := k]> (retMap (S k) es)
               | callEntry => retMap (S k) es
               end
  end.

Definition matchOf (k : nat) (e : entry In Out) (es : list (entry In Out)) : option nat :=
  match kind e with callEntry => retMap (S k) es !! id e | returnEntry => None end.


(** [h] is the list [L], and nothing else. *)
Definition listAt h (L : list nat) : Prop :=
  (forall y, is_Some (h !! y) <-> y ∈ L) /\ NoDup L /\
  match L with [] => True | a :: l => chain h a l /\ prevOf a h = None end.

(** [insertBefore] at the front. *)
Lemma insertBefore_front h L i n :
  listAt h L -> i ∉ L -> next n = None -> prev n = None ->
  exists h', insertBefore i (head L) (<[i := n]> h) = Some h' /\ listAt h' (i :: L) /\
             forall y, static y h' = static y (<[i := n]> h).
Proof.
  intros (Hdom & Hnd & Hc) Hi Hn Hp. destruct L as [|k l].
  - exists (<[i := n]> h). split; [done|]. split; [|done]. split; [|split].
    + intros y. rewrite lookup_insert_is_Some, Hdom, elem_of_cons. destruct (decide (y = i)); naive_solver.
    + by apply NoDup_singleton.
    + unfold chain, endOf, nextOf, prevOf. simpl. by rewrite lookup_insert_eq.
  - destruct Hc as [[Hs He] Hk]. destruct (proj2 (Hdom k) (list_elem_of_here _ _)) as [nk Hnk].
    assert (i <> k) as Hik by (intros ->; apply Hi; by left).
    unfold prevOf in Hk. rewrite Hnk in Hk. simpl in Hk.
    cbn [head]. unfold insertBefore, setPrev. rewrite (lookup_insert_ne h i k n) by done. rewrite Hnk. cbn [mbind option_bind].
    rewrite Hk. unfold setNext. rewrite lookup_insert_ne, lookup_insert_eq by done. cbn [mbind option_bind].
    set (h' := <[i := _]> _). exists h'. split; [done|].
    assert (forall y, nextOf y h' = if decide (y = i) then Some k else nextOf y h) as Rn.
    { intros y. unfold nextOf, h'. case_decide as Hy; [subst; by rewrite lookup_insert_eq|].
      rewrite lookup_insert_ne by done. destruct (decide (y = k)) as [->|]; [by rewrite lookup_insert_eq, Hnk|].
      by rewrite !lookup_insert_ne. }
    assert (forall y, y <> i -> prevOf y h' = if decide (y = k) then Some i else prevOf y h) as Rp.
    { intros y Hy. unfold prevOf, h'. rewrite lookup_insert_ne by done.
      case_decide as Hyk; [subst; by rewrite lookup_insert_eq|]. by rewrite !lookup_insert_ne. }
    split; [|intros y; unfold static, h'; destruct (decide (y = i)) as [->|]; [by rewrite !lookup_insert_eq|];
      rewrite lookup_insert_ne by done; destruct (decide (y = k)) as [->|];
      [rewrite lookup_insert_eq, lookup_insert_ne, Hnk by done; done|by rewrite !lookup_insert_ne]].
    split; [|split; [|split; [split|]]].
    + intros y. unfold h'. rewrite !lookup_insert_is_Some, Hdom, !elem_of_cons.
      destruct (decide (y = i)), (decide (y = k)); naive_solver.
    + by apply NoDup_cons.
    + simpl. rewrite Rn, decide_True, Rp, decide_True by done. split_and!; try done.
      * apply (seg_frame h); [done..| |].
        -- intros y Hy _. rewrite Rn. apply decide_False. by intros ->.
        -- intros y Hy. apply NoDup_cons in Hnd as [Hkl _]. rewrite Rp; [|intros ->; apply Hi; by right].
           apply decide_False. by intros ->.
    + rewrite endOf_cons, Rn, decide_False; [done|]. intros Heq. apply Hi. rewrite <- Heq. apply endOf_elem.
    + unfold prevOf, h'. rewrite lookup_insert_eq. done.
Qed.

(** The list [makeLinkedEntries] builds: a node for each entry, in order. *)
Lemma linkEntries_spec (es : list (entry In Out)) (k : nat) :
  exists h, foldr linkEntry (Some (None, ∅, ∅)) (imap (fun i => pair (k + i)%nat) es)
              = Some (head (seq k (length es)), retMap k es, h) /\
            listAt h (seq k (length es)) /\
            forall i e, es !! i = Some e ->
              static (k + i) h = Some (Some (value e), matchOf (k + i) e (drop (S i) es), id e).
Proof.
  revert k. induction es as [|e es IH]; intros k.
  { exists ∅. split; [done|]. split; [|done]. split_and!; try done; [|constructor].
    intros y. simpl. rewrite lookup_empty. split; [by intros []|]. by intros ?%not_elem_of_nil. }
  destruct (IH (S k)) as (h & Hf & Hl & Hst).
  set (nd := mkNode (Some (value e)) (matchOf k e es) (id e) None None).
  destruct (insertBefore_front h (seq (S k) (length es)) k nd) as (h' & Hi & Hl' & Hst'); [done| |done..|].
  { rewrite elem_of_seq. lia. }
  assert (imap (fun i => pair (k + i)%nat) (e :: es) = (k, e) :: imap (fun i => pair (S k + i)%nat) es) as ->.
  { rewrite imap_cons. f_equal; [f_equal; lia|]. apply imap_ext. intros i x _. simpl. f_equal. lia. }
  exists h'. cbn [foldr linkEntry]. rewrite Hf. cbn [mbind option_bind length seq head]. split; [|split; [done|]].
  - unfold nd, matchOf in Hi. destruct (kind e) eqn:Ek; rewrite Hi; cbn [mbind option_bind retMap]; by rewrite Ek.
  - intros [|i] e' He; simpl in He.
    + simplify_eq. rewrite Nat.add_0_r, Hst'. unfold static. by rewrite lookup_insert_eq.
    + rewrite Hst'. unfold static. rewrite lookup_insert_ne by lia. fold (static (k + S i) h).
      replace (k + S i)%nat with (S k + i)%nat by lia. by apply Hst.
Qed.

Lemma retMap_unique (es : list (entry In Out)) (k t : nat) e :
  es !! t = Some e -> kind e = returnEntry ->
  (forall t' e', es !! t' = Some e' -> kind e' = returnEntry -> id e' = id e -> t' = t) ->
  retMap k es !! id e = Some (k + t)%nat.
Proof.
  revert k t. induction es as [|x es IH]; intros k t He Hk Hu; [done|].
  destruct t as [|t]; simpl in He; cbn [retMap].
  - simplify_eq. rewrite Hk, lookup_insert_eq. f_equal. lia.
  - assert (retMap (S k) es !! id e = Some (k + S t)%nat) as Hr.
    { rewrite (IH (S k) t); [f_equal; lia|done..|]. intros t' e' H1 H2 H3. specialize (Hu (S t') e' H1 H2 H3). lia. }
    destruct (kind x) eqn:Ex; [done|]. rewrite lookup_insert_ne; [done|]. intros Heq.
    specialize (Hu 0%nat x eq_refl Ex Heq). lia.
Qed.
End links.

(** ** Theorem *)

(** [lift] takes a call [e] and its return [m] out of the linked list, [l1 ++ l2 ++ l3]
    being left between them, and [unlift] puts them back: the heap is the one before,
    pointer by pointer. *)
Theorem lift_unlift {In Out} (h : gmap nat (node In Out)) a l1 e l2 m l3 nd :
  NoDup (a :: l1 ++ e :: l2 ++ m :: l3) -> chain h a (l1 ++ e :: l2 ++ m :: l3) ->
  (forall y, y ∈ a :: l1 ++ e :: l2 ++ m :: l3 -> is_Some (h !! y)) ->
  h !! e = Some nd -> n_match nd = Some m ->
  exists h', lift e h = Some h' /\ chain h' a (l1 ++ l2 ++ l3) /\ unlift e h' = Some h /\
             forall y, static y h' = static y h.
Proof. apply lift_spec. Qed.

(** A head, a call, another call, and the return of the first. *)
Definition demoHeap : gmap nat (node unit unit) :=
  {[0%nat := mkNode None None (-1) (Some 1%nat) None;
    1%nat := mkNode (Some (inl ())) (Some 3%nat) 0 (Some 2%nat) (Some 0%nat);
    2%nat := mkNode (Some (inl ())) None 1 (Some 3%nat) (Some 1%nat);
    3%nat := mkNode (Some (inr ())) None 0 None (Some 2%nat)]}.

Lemma lift_unlift_witness :
  exists h', lift 1 demoHeap = Some h' /\ chain h' 0 [2%nat] /\ unlift 1 h' = Some demoHeap.
Proof.
  destruct (lift_unlift demoHeap 0 [] 1 [2%nat] 3 []
    (mkNode (Some (inl ())) (Some 3%nat) 0 (Some 2%nat) (Some 0%nat))) as (h' & Hl & Hc & Hu & _).
  - apply (bool_decide_unpack _). vm_compute. exact I.
  - vm_compute. repeat split.
  - intros y Hy. simpl in Hy. rewrite !elem_of_cons in Hy.
    destruct Hy as [->|[->|[->|[->|Hy]]]]; [eexists; vm_compute; reflexivity..|].
    by apply not_elem_of_nil in Hy.
  - vm_compute. reflexivity.
  - reflexivity.
  - exists h'. split; [exact Hl|]. split; [exact Hc|exact Hu].
Defined.
