(* ===== verification/PorcupineBitset.v ===== *)
(** * Porcupine: bitsets as sets of positions

    A bitset made by [newBitset n] and changed by [set] and [clear] at positions below
    [n] is a set of positions: reads and writes stay inside the words, the words stay
    64 bits wide, [popcnt] is the size of the set and [hash] a 64-bit number. *)

From S2P Require Import Prelude Porcupine PorcupineList.

(** ** Reading and clearing *)

Lemma clear_in_range b i : 0 <= i -> is_Some (get b i) -> is_Some (clear b i).
Proof.
  intros Hi [x Hx]. rewrite get_eq in Hx by done. unfold clear, bitsetIndex.
  destruct (b @! (i / 64)) as [w|] eqn:E; [|done]. simpl.
  rewrite go_update_Some; [eauto|]. by apply go_index_Some_bound in E.
Qed.

Lemma get_clear b i b' j :
  0 <= i -> 0 <= j -> clear b i = Some b' -> get b' j = if decide (j = i) then Some false else get b j.
Proof.
  intros Hi Hj Hs. unfold clear, bitsetIndex in Hs. destruct (b @! (i / 64)) as [w|] eqn:E; [|done]. simpl in Hs.
  rewrite (get_update b i _ b' j Hi Hj Hs), (get_eq b j Hj).
  destruct (bit_mask i Hi), (bit_mask j Hj).
  destruct (decide (j / 64 = i / 64)) as [Ed|Ed]; [|rewrite decide_False; [done|congruence]].
  rewrite Z.ldiff_spec, testbit_one by lia. rewrite Ed, E. simpl.
  destruct (decide (j = i)) as [->|Hne]; [by rewrite bool_decide_eq_true_2, andb_false_r|].
  rewrite bool_decide_eq_false_2, andb_true_r; [done|]. intros Hm. by apply Hne, same_bit.
Qed.

Lemma clear_words b i b' : 0 <= i -> Forall word b -> clear b i = Some b' -> Forall word b'.
Proof.
  intros Hi Hb Hs. unfold clear, bitsetIndex in Hs. destruct (b @! (i / 64)) as [w|] eqn:E; [|done]. simpl in Hs.
  pose proof (go_index_Some_bound _ _ _ E) as Hr. rewrite go_update_Some in Hs by done. injection Hs as <-.
  apply Forall_insert; [done|].
  assert (word w) as [Hw Hb']%word_bits.
  { unfold go_index in E. destruct (0 <=? i / 64); [|done]. by eapply Forall_lookup_1. }
  apply word_bits. split; [apply Z.ldiff_nonneg; auto|]. intros j Hj. by rewrite Z.ldiff_spec, Hb'.
Qed.

Lemma update_length b i b' : (set b i = Some b' \/ clear b i = Some b') -> length b' = length b.
Proof. unfold set, clear. intros [Hs|Hs]; simpl in Hs; bind_all; by eapply go_update_length. Qed.

(** ** Counting *)

(** The positions whose bit is set. *)
Definition bits (b : bitset) : list Z := filter (fun i => get b i = Some true) (seqZ 0 (64 * zlen b)).

Lemma get_cons_low w b i : 0 <= i < 64 -> get (w :: b) i = Some (Z.testbit w i).
Proof. intros Hi. rewrite get_eq, Z.div_small, Z.mod_small by lia. done. Qed.

Lemma get_cons_high w b i : 0 <= i -> get (w :: b) (64 + i) = get b i.
Proof.
  intros Hi. rewrite !get_eq by lia. replace (64 + i) with (i + 1 * 64) by lia.
  rewrite Z.div_add, Z.mod_add by lia. pose proof (Z.div_pos i 64). rewrite go_index_cons by lia. do 2 f_equal. lia.
Qed.

Lemma bits_cons w b : zlen (bits (w :: b)) = OnesCount64 w + zlen (bits b).
Proof.
  unfold bits, OnesCount64. rewrite zlen_cons. pose proof (zlen_nonneg b).
  replace (64 * (zlen b + 1)) with (64 + 64 * zlen b) by lia.
  rewrite seqZ_app, filter_app, zlen_app by lia. f_equal.
  - apply countP_ext. intros i Hi%elem_of_seqZ. rewrite get_cons_low by lia. split; congruence.
  - replace (seqZ (0 + 64) (64 * zlen b)) with (Z.add 64 <$> seqZ 0 (64 * zlen b)) by (by rewrite fmap_add_seqZ).
    etrans; [symmetry; apply (countP_fmap (Z.add 64))|]. apply countP_ext. intros i Hi%elem_of_seqZ.
    by rewrite get_cons_high by lia.
Qed.

Lemma popcnt_bits b : popcnt b = zlen (bits b).
Proof.
  unfold popcnt. assert (forall acc, foldl (fun total v => total + OnesCount64 v) acc b = acc + zlen (bits b)) as Hacc.
  { induction b as [|w b IH]; intros acc; simpl; [unfold zlen; simpl; lia|].
    rewrite IH, bits_cons. lia. }
  by rewrite Hacc.
Qed.

(** ** Hashing *)

Lemma lxor_word w w' : word w -> word w' -> word (Z.lxor w w').
Proof.
  intros [H0 H1]%word_bits [H0' H1']%word_bits. apply word_bits. split; [by apply Z.lxor_nonneg|].
  intros j Hj. by rewrite Z.lxor_spec, H1, H1'.
Qed.

Lemma hash_word b : Forall word b -> word (popcnt b) -> word (hash b).
Proof.
  unfold hash. generalize (popcnt b). induction b as [|w b IH]; intros acc Hb Ha; simpl; [done|].
  apply Forall_cons in Hb as [Hw Hb]. apply IH; [done|]. by apply lxor_word.
Qed.

(** ** The set a bitset stands for *)

(** [b] is the result of [set] and [clear] at positions below [n], [D] the positions
    set and not cleared since. *)
Inductive bitset_run (n : Z) : bitset -> gset Z -> Prop :=
| br_new : bitset_run n (newBitset n) ∅
| br_set b D i b' : bitset_run n b D -> 0 <= i < n -> set b i = Some b' -> bitset_run n b' ({[i]} ∪ D)
| br_clear b D i b' : bitset_run n b D -> 0 <= i < n -> clear b i = Some b' -> bitset_run n b' (D ∖ {[i]}).

Record holds_set (n : Z) (b : bitset) (D : gset Z) : Prop := {
  hs_len : zlen b = (n + 63) / 64;
  hs_words : Forall word b;
  hs_range : forall i, i ∈ D -> 0 <= i < n;
  hs_get : forall i, 0 <= i < 64 * zlen b -> get b i = Some (bool_decide (i ∈ D));
}.

Lemma get_range b i : 0 <= i < 64 * zlen b -> is_Some (get b i).
Proof.
  intros Hi. rewrite get_eq by lia. destruct (go_index_in_range b (i / 64)) as [w ->]; [|eauto].
  split; [apply Z.div_pos; lia|]. apply Z.div_lt_upper_bound; lia.
Qed.

Lemma chunks n : 0 <= n -> n / 64 + (if negb (n mod 64 =? 0) then 1 else 0) = (n + 63) / 64.
Proof.
  intros Hn. destruct (Z.eqb_spec (n mod 64) 0); simpl; lia_div.
Qed.

Lemma holds_set_run n b D : 0 <= n -> bitset_run n b D -> holds_set n b D.
Proof.
  intros Hn. induction 1 as [|b D i b' _ [Hl Hw Hr Hg] Hi Hs|b D i b' _ [Hl Hw Hr Hg] Hi Hs].
  - assert (zlen (newBitset n) = (n + 63) / 64) as Hl.
    { unfold newBitset, zlen. rewrite length_replicate, chunks by done. pose proof (Z.div_pos (n + 63) 64). lia. }
    split; [done| |set_solver|].
    + unfold newBitset. apply Forall_replicate. unfold word. lia.
    + intros i Hi. rewrite bool_decide_eq_false_2 by set_solver. destruct (get_range _ _ Hi) as [x Hx].
      rewrite Hx. rewrite get_eq in Hx by lia. apply fmap_Some in Hx as (w & Hw & ->).
      unfold go_index in Hw. case_match; [|done]. apply lookup_replicate in Hw as [-> _]. by rewrite Z.bits_0.
  - assert (zlen b' = zlen b) as E by (unfold zlen; rewrite (update_length b i b'); auto).
    split; [congruence|eapply set_words; [|done..]; lia|set_solver|].
    intros j Hj. rewrite E in Hj. rewrite (get_set b i b' j) by (done || lia).
    case_decide as Ej; [by rewrite bool_decide_eq_true_2 by set_solver|].
    rewrite Hg by lia. f_equal. apply bool_decide_ext. set_solver.
  - assert (zlen b' = zlen b) as E by (unfold zlen; rewrite (update_length b i b'); auto).
    split; [congruence|eapply clear_words; [|done..]; lia|set_solver|].
    intros j Hj. rewrite E in Hj. rewrite (get_clear b i b' j) by (done || lia).
    case_decide as Ej; [by rewrite bool_decide_eq_false_2 by set_solver|].
    rewrite Hg by lia. f_equal. apply bool_decide_ext. set_solver.
Qed.

Lemma holds_set_popcnt n b D : 0 <= n -> holds_set n b D -> popcnt b = Z.of_nat (size D).
Proof.
  intros Hn [Hl Hw Hr Hg]. rewrite popcnt_bits. unfold size, set_size, zlen. f_equal.
  apply Permutation_length, NoDup_Permutation; [apply NoDup_filter, NoDup_seqZ|apply NoDup_elements|].
  intros i. unfold bits. rewrite list_elem_of_filter, elem_of_seqZ, elem_of_elements. split.
  - intros [Hi Hir]. rewrite Hg in Hi by lia. injection Hi as Hi. by apply bool_decide_eq_true in Hi.
  - intros Hi. pose proof (Hr i Hi). assert (i < 64 * zlen b) by (rewrite Hl; lia_div).
    split; [|lia]. rewrite Hg by lia. by rewrite bool_decide_eq_true_2.
Qed.

Lemma size_bound n (D : gset Z) : 0 <= n -> (forall i, i ∈ D -> 0 <= i < n) -> Z.of_nat (size D) <= n.
Proof.
  intros Hn HD. assert (size D <= size (list_to_set (seqZ 0 n) : gset Z))%nat as Hle.
  { apply subseteq_size. intros i Hi. apply elem_of_list_to_set, elem_of_seqZ. specialize (HD i Hi). lia. }
  rewrite size_list_to_set, length_seqZ in Hle by apply NoDup_seqZ. lia.
Qed.

(** ** Theorem *)

(** A bitset for [n] bits ([n] a 64-bit [uint]) is a set of positions below [n], held
    in [ceil(n/64)] words of 64 bits: [get], [set] and [clear] at a position below [n]
    stay inside the slice, [get] says whether the position is in the set, [popcnt] is
    the number of positions and at most [n], and [hash] fits 64 bits. *)
Theorem bitset_bounds n b D :
  0 <= n < 2 ^ 64 -> bitset_run n b D ->
  zlen b = (n + 63) / 64 /\ Forall word b /\
  (forall i, 0 <= i < n -> get b i = Some (bool_decide (i ∈ D)) /\ is_Some (set b i) /\ is_Some (clear b i)) /\
  popcnt b = Z.of_nat (size D) /\ popcnt b <= n /\ 0 <= hash b < 2 ^ 64.
Proof.
  intros Hn Hrun. pose proof (holds_set_run n b D ltac:(lia) Hrun) as Hh. pose proof Hh as [Hl Hw Hr Hg].
  pose proof (holds_set_popcnt n b D ltac:(lia) Hh) as Hp. pose proof (size_bound n D ltac:(lia) Hr).
  split; [done|]. split; [done|]. split.
  - intros i Hi. assert (0 <= i < 64 * zlen b) as Hib by (rewrite Hl; lia_div).
    split; [by apply Hg|]. split; [apply set_in_range|apply clear_in_range]; (lia || by apply get_range).
  - split; [done|]. split; [lia|]. apply hash_word; [done|]. unfold word. lia.
Qed.

(** Positions 3 and 70 of a bitset of 100, after 5 was set and cleared. *)
Lemma bitset_bounds_witness :
  exists b, bitset_run 100 b ({[70]} ∪ ({[3]} ∪ ({[5]} ∪ ∅) ∖ {[5]})) /\
    get b 70 = Some true /\ popcnt b = 2 /\ hash b = 74 /\ 0 <= hash b < 2 ^ 64.
Proof.
  eexists. assert (bitset_run 100 [8; 64] ({[70]} ∪ ({[3]} ∪ ({[5]} ∪ ∅) ∖ {[5]}))) as Hrun.
  { apply (br_set _ [8; 0] _ 70); [|lia|vm_compute; reflexivity].
    apply (br_set _ [0; 0] _ 3); [|lia|vm_compute; reflexivity].
    apply (br_clear _ [32; 0] _ 5); [|lia|vm_compute; reflexivity].
    apply (br_set _ [0; 0] _ 5); [|lia|vm_compute; reflexivity].
    exact (br_new 100). }
  split; [exact Hrun|]. split; [vm_compute; reflexivity|]. split; [vm_compute; reflexivity|].
  split; [vm_compute; reflexivity|].
  exact (proj2 (proj2 (proj2 (proj2 (proj2 (bitset_bounds 100 _ _ ltac:(lia) Hrun)))))).
Defined.
