(* ===== verification/PorcupineSearch.v ===== *)
(** * Porcupine: the search is a decision procedure

    What it means for a history of entries to be linearizable, and that [checkSingle]
    decides it: from any point of the search either a linearization is found, or the
    search comes back with the list, bitset and stack it started from, having
    shown that there is none.  The cache is sound because an entry is either a dead end
    or on the path to the current state, and the latter have fewer operations done. *)

From S2P Require Import Prelude Porcupine PorcupineList.

(** ** Linearizability *)

Section search.
Context {In Out St : Type} (model : Model In Out St) (es : list (entry In Out)) (n : Z).

(** The entries of [n] operations, numbered from 0: each has one call, and after it
    one return. *)
Record wfEntries : Prop := {
  we_len : zlen es = 2 * n;
  we_id i e : es !! i = Some e -> 0 <= id e < n;
  we_uniq i j e e' : es !! i = Some e -> es !! j = Some e' -> kind e = kind e' -> id e = id e' -> i = j;
  we_ret i e : es !! i = Some e -> kind e = callEntry ->
    exists j e', es !! j = Some e' /\ kind e' = returnEntry /\ id e' = id e /\ (i < j)%nat;
  we_call k : 0 <= k < n -> exists i e, es !! i = Some e /\ kind e = callEntry /\ id e = k;
  we_val i e : es !! i = Some e ->
    match kind e with callEntry => exists x, value e = inl x | returnEntry => exists y, value e = inr y end;
}.

(** Operation [k] is called with [x] at entry [i]; it returns [y] at entry [j]. *)
Definition callAt (k : Z) (i : nat) (x : In) : Prop :=
  exists e, es !! i = Some e /\ kind e = callEntry /\ id e = k /\ value e = inl x.
Definition returnAt (k : Z) (j : nat) (y : Out) : Prop :=
  exists e, es !! j = Some e /\ kind e = returnEntry /\ id e = k /\ value e = inr y.

(** [a] returned before [b] was called. *)
Definition precedes (a b : Z) : Prop :=
  exists j y i x, returnAt a j y /\ callAt b i x /\ (j < i)%nat.

(** The operations [sigma], one after the other from state [s], give the outputs that
    were returned. *)
Fixpoint legal (s : St) (sigma : list Z) : Prop :=
  match sigma with
  | [] => True
  | k :: sigma => exists i x j y s', callAt k i x /\ returnAt k j y /\ Step model s x y = (true, s') /\ legal s' sigma
  end.

(** [sigma] completes a run in which the operations [D] were done. *)
Definition completes (D : gset Z) (s : St) (sigma : list Z) : Prop :=
  NoDup sigma /\ (forall k, k ∈ sigma <-> 0 <= k < n /\ k ∉ D) /\
  (forall a b l1 l2, precedes a b -> sigma = l1 ++ b :: l2 -> a ∈ D \/ a ∈ l1) /\ legal s sigma.

(** The history has a linearization: an order of all operations that respects the
    order of those that do not overlap and that the model allows. *)
Definition linearization (sigma : list Z) : Prop :=
  sigma ≡ₚ seqZ 0 n /\
  (forall a b l1 l2, precedes a b -> sigma = l1 ++ b :: l2 -> a ∈ l1) /\ legal (Init model) sigma.

Lemma completes_linearization sigma : completes ∅ (Init model) sigma <-> linearization sigma.
Proof.
  unfold completes, linearization. split.
  - intros (Hnd & Hel & Hpr & Hl). split_and!; [|intros a b l1 l2 H1 H2|done].
    + apply NoDup_Permutation; [done|apply NoDup_seqZ|]. intros k. rewrite Hel, elem_of_seqZ. set_solver by lia.
    + destruct (Hpr a b l1 l2 H1 H2) as [?%not_elem_of_empty|?]; done.
  - intros (Hp & Hpr & Hl). split_and!; [|intros k|intros a b l1 l2 H1 H2; right; by eapply Hpr|done].
    + rewrite Hp. apply NoDup_seqZ.
    + rewrite Hp, elem_of_seqZ. set_solver by lia.
Qed.

Hypothesis Hes : wfEntries.

Lemma callAt_fun k i x i' x' : callAt k i x -> callAt k i' x' -> i = i' /\ x = x'.
Proof.
  intros (e & He & Hk & Hi & Hv) (e' & He' & Hk' & Hi' & Hv').
  assert (i = i') by (eapply (we_uniq Hes); [done..|congruence|congruence]). simplify_eq. split; congruence.
Qed.

Lemma returnAt_fun k i x i' x' : returnAt k i x -> returnAt k i' x' -> i = i' /\ x = x'.
Proof.
  intros (e & He & Hk & Hi & Hv) (e' & He' & Hk' & Hi' & Hv').
  assert (i = i') by (eapply (we_uniq Hes); [done..|congruence|congruence]). simplify_eq. split; congruence.
Qed.

Lemma call_return k : 0 <= k < n -> exists i x j y, callAt k i x /\ returnAt k j y /\ (i < j)%nat.
Proof.
  intros Hk. destruct (we_call Hes k Hk) as (i & e & He & Hke & Hie).
  destruct (we_ret Hes _ _ He Hke) as (j & e' & He' & Hke' & Hie' & Hij).
  pose proof (we_val Hes _ _ He) as Hv. rewrite Hke in Hv. destruct Hv as [x Hx].
  pose proof (we_val Hes _ _ He') as Hv. rewrite Hke' in Hv. destruct Hv as [y Hy].
  exists i, x, j, y. split_and!; [by exists e|exists e'; split_and!; congruence|done].
Qed.

(** Operation [k] may come next: it is not done, and whatever returned before its
    call is. *)
Definition candidate (D : gset Z) (k : Z) : Prop := 0 <= k < n /\ k ∉ D /\ forall a, precedes a k -> a ∈ D.

Lemma completes_cons D s k sigma i x j y s' :
  candidate D k -> callAt k i x -> returnAt k j y -> Step model s x y = (true, s') ->
  completes ({[k]} ∪ D) s' sigma -> completes D s (k :: sigma).
Proof.
  intros (Hk & HkD & Hc) Hci Hrj Hs (Hnd & Hel & Hpr & Hl). split_and!.
  - apply NoDup_cons. split; [|done]. rewrite Hel. set_solver.
  - intros k'. rewrite elem_of_cons, Hel. destruct (decide (k' = k)); set_solver.
  - intros a b [|c l1] l2 Hab [= <- Heq]; [left; by apply Hc|].
    destruct (Hpr a b l1 l2 Hab Heq) as [Hin|Hin]; [|right; by right].
    apply elem_of_union in Hin as [->%elem_of_singleton|?]; [right; by left|by left].
  - exists i, x, j, y, s'. done.
Qed.

Lemma completes_uncons D s sigma :
  completes D s sigma -> sigma = [] \/
  exists k sigma' i x j y s', sigma = k :: sigma' /\ candidate D k /\ callAt k i x /\ returnAt k j y /\
    Step model s x y = (true, s') /\ completes ({[k]} ∪ D) s' sigma'.
Proof.
  intros (Hnd & Hel & Hpr & Hl). destruct sigma as [|k sigma]; [by left|right].
  destruct Hl as (i & x & j & y & s' & Hci & Hrj & Hs & Hl). apply NoDup_cons in Hnd as [Hk Hnd].
  destruct (proj1 (Hel k) (list_elem_of_here _ _)) as [Hkn HkD].
  exists k, sigma, i, x, j, y, s'. split; [done|]. split; [split; [done|split; [done|]]|do 3 (split; [done|]); split; [done|split; [|split]]].
  - intros a Ha. destruct (Hpr a k [] sigma Ha eq_refl) as [|?%not_elem_of_nil]; done.
  - intros k'. specialize (Hel k'). rewrite elem_of_cons in Hel. destruct (decide (k' = k)); set_solver.
  - intros a b l1 l2 Hab ->. destruct (Hpr a b (k :: l1) l2 Hab eq_refl) as [?|Hin]; [left; set_solver|].
    apply elem_of_cons in Hin as [->|]; [left; set_solver|by right].
  - done.
Qed.

(** ** The search *)

Definition idAt (i : nat) : Z := default (-1) (id <$> es !! i).

(** The entries of the operations that are not done. *)
Definition remaining (D : gset Z) : list nat := filter (fun i => idAt i ∉ D) (seq 0 (length es)).

Lemma elem_of_remaining D i : i ∈ remaining D <-> idAt i ∉ D /\ (i < length es)%nat.
Proof. unfold remaining. rewrite list_elem_of_filter, elem_of_seq. split; intros [? ?]; split; try done; lia. Qed.

Lemma remaining_sorted D : StronglySorted lt (remaining D).
Proof.
  unfold remaining. generalize 0%nat as k. induction (length es) as [|m IH]; intros k; [constructor|].
  simpl. rewrite filter_cons. case_decide; [|apply IH]. constructor; [apply IH|].
  apply Forall_forall. intros i [_ Hi%elem_of_seq]%list_elem_of_filter. lia.
Qed.

Lemma remaining_NoDup D : NoDup (remaining D).
Proof. apply NoDup_filter, NoDup_seq. Qed.

Lemma filter_id {A} (P : A -> Prop) `{forall x, Decision (P x)} (l : list A) :
  (forall x, x ∈ l -> P x) -> filter P l = l.
Proof.
  intros HP. induction l as [|x l IH]; [done|]. rewrite filter_cons_True by (apply HP; by left).
  f_equal. apply IH. intros y Hy. apply HP. by right.
Qed.

Lemma callAt_id k i x : callAt k i x -> idAt i = k /\ (i < length es)%nat.
Proof. intros (e & He & _ & Hi & _). unfold idAt. rewrite He. split; [done|]. by apply lookup_lt_Some in He. Qed.

Lemma returnAt_id k i x : returnAt k i x -> idAt i = k /\ (i < length es)%nat.
Proof. intros (e & He & _ & Hi & _). unfold idAt. rewrite He. split; [done|]. by apply lookup_lt_Some in He. Qed.

Lemma idAt_cases k l c x r y :
  callAt k c x -> returnAt k r y -> (l < length es)%nat -> idAt l = k -> l = c \/ l = r.
Proof.
  intros (e & He & Hk & Hi & _) (e' & He' & Hk' & Hi' & _) Hl Hid.
  destruct (lookup_lt_is_Some_2 es l Hl) as [el Hel]. unfold idAt in Hid. rewrite Hel in Hid. simpl in Hid.
  destruct (kind el) eqn:Ek; [left|right]; eapply (we_uniq Hes); try done; congruence.
Qed.

(** Doing operation [k] takes its call and its return out of what remains. *)
Lemma remaining_do D k c x r y pre suf :
  remaining D = pre ++ c :: suf -> callAt k c x -> returnAt k r y -> (c < r)%nat -> k ∉ D ->
  exists l2 l3, suf = l2 ++ r :: l3 /\ remaining ({[k]} ∪ D) = pre ++ l2 ++ l3.
Proof.
  intros Hrem Hc Hr Hcr HkD. destruct (callAt_id _ _ _ Hc) as [Hic _]. destruct (returnAt_id _ _ _ Hr) as [Hir Hrl].
  assert (r ∈ remaining D) as Hin by (apply elem_of_remaining; by rewrite Hir).
  pose proof (remaining_sorted D) as Hs. rewrite Hrem in Hs, Hin.
  apply elem_of_app in Hin as [Hin|Hin].
  { pose proof (StronglySorted_app_1_elem_of _ _ _ r c Hs Hin (list_elem_of_here _ _)). lia. }
  apply elem_of_cons in Hin as [->|Hin]; [lia|]. apply list_elem_of_split in Hin as (l2 & l3 & ->).
  exists l2, l3. split; [done|].
  assert (remaining ({[k]} ∪ D) = filter (fun i => idAt i <> k) (remaining D)) as ->.
  { unfold remaining. rewrite list_filter_filter. apply list_filter_iff. intros i. set_solver. }
  pose proof (remaining_NoDup D) as Hnd. rewrite Hrem in *.
  assert (forall i, i ∈ pre \/ i ∈ l2 \/ i ∈ l3 -> idAt i <> k) as Hother.
  { intros i Hi Hid. assert (i ∈ remaining D) as [_ Hil]%elem_of_remaining.
    { rewrite Hrem, elem_of_app, elem_of_cons, elem_of_app, elem_of_cons. tauto. }
    apply NoDup_app in Hnd as (_ & Hd1 & Hnd). apply NoDup_cons in Hnd as [Hd2 Hnd].
    apply NoDup_app in Hnd as (_ & Hd3 & Hnd). apply NoDup_cons in Hnd as [Hd4 _].
    rewrite elem_of_app, elem_of_cons in Hd2.
    destruct (idAt_cases _ _ _ _ _ _ Hc Hr Hil Hid) as [->| ->]; destruct Hi as [Hi|[Hi|Hi]];
      try tauto; specialize (Hd1 _ Hi) || specialize (Hd3 _ Hi); repeat rewrite ?elem_of_cons, ?elem_of_app in *; tauto. }
  rewrite filter_app, filter_cons_False, filter_app, filter_cons_False by naive_solver.
  rewrite !filter_id by (intros i Hi; apply Hother; tauto). done.
Qed.

(** What the model's [Equal] must be: equal states allow the same steps, to equal
    states. *)
Definition equalOk (equal : St -> St -> bool) : Prop :=
  forall s s', equal s s' = true -> forall x y,
    (Step model s x y).1 = (Step model s' x y).1 /\
    ((Step model s x y).1 = true -> equal (Step model s x y).2 (Step model s' x y).2 = true).

Lemma completes_equal equal D s s' sigma :
  equalOk equal -> equal s s' = true -> completes D s sigma -> completes D s' sigma.
Proof.
  intros Ho He (H1 & H2 & H3 & Hl). split_and!; [done..|]. clear H1 H2 H3.
  revert s s' He Hl. induction sigma as [|k sigma IH]; intros s s' He; [done|].
  intros (i & x & j & y & t & Hc & Hr & Hs & Hl). destruct (Ho s s' He x y) as [H1 H2]. rewrite Hs in H1, H2.
  destruct (Step model s' x y) as [b t'] eqn:Hs'. simpl in *. subst b.
  exists i, x, j, y, t'. split_and!; [done..|]. apply (IH t); [by apply H2|done].
Qed.

Definition bitsOf (b : bitset) : gset Z := list_to_set (filter (fun k => get b k = Some true) (seqZ 0 n)).

(** The bitset [b] is the set [D]. *)
Definition represents (b : bitset) (D : gset Z) : Prop :=
  (forall k, k ∈ D -> 0 <= k < n) /\ forall k, 0 <= k < n -> get b k = Some (bool_decide (k ∈ D)).

Lemma represents_bitsOf b D : represents b D -> bitsOf b = D.
Proof.
  intros [Hr Hb]. apply set_eq. intros k. unfold bitsOf.
  rewrite elem_of_list_to_set, list_elem_of_filter, elem_of_seqZ. split.
  - intros [Hg Hk]. rewrite Hb in Hg by lia. injection Hg as Hg. by apply bool_decide_eq_true in Hg.
  - intros Hk. pose proof (Hr k Hk). rewrite Hb, bool_decide_eq_true_2 by done. split; [done|lia].
Qed.

Lemma represents_set b D k : represents b D -> 0 <= k < n -> exists b', set b k = Some b' /\ represents b' ({[k]} ∪ D).
Proof.
  intros [Hr Hb] Hk. destruct (set_in_range b k) as [b' Hs]; [lia|rewrite Hb by done; eauto|].
  exists b'. split; [done|]. split.
  - intros k' [->%elem_of_singleton|?]%elem_of_union; auto.
  - intros k' Hk'. rewrite (get_set b k b' k') by (done || lia). case_decide as E.
    + subst. rewrite bool_decide_eq_true_2; [done|set_solver].
    + rewrite Hb by done. f_equal. apply bool_decide_ext. set_solver.
Qed.

Lemma represents_clear b b' D k : represents b D -> 0 <= k < n -> k ∉ D -> set b k = Some b' -> clear b' k = Some b.
Proof.
  intros [Hr Hb] Hk HkD Hs. apply clear_set; [lia| |done]. rewrite Hb by done. by rewrite bool_decide_eq_false_2.
Qed.

(** The cache. *)
Abbreviation cacheT := (gmap Z (list (bitset * St))).

Definition inCache (cache : cacheT) (e : bitset * St) : Prop := exists hsh l, cache !! hsh = Some l /\ e ∈ l.

Definition addCache (cache : cacheT) (e : bitset * St) : cacheT :=
  <[hash e.1 := go_map_get [] cache (hash e.1) ++ [e]]> cache.

Lemma inCache_add cache e e' : inCache (addCache cache e) e' -> inCache cache e' \/ e' = e.
Proof.
  intros (hsh & l & Hl & He). unfold addCache in Hl.
  destruct (decide (hsh = hash e.1)) as [->|Hne].
  - rewrite lookup_insert_eq in Hl. simplify_eq. apply elem_of_snoc in He as [He|He]; [|by right].
    left. unfold go_map_get in He. destruct (cache !! hash e.1) as [l|] eqn:El; simpl in He; [by exists (hash e.1), l|].
    by apply not_elem_of_nil in He.
  - rewrite lookup_insert_ne in Hl by done. left. by exists hsh, l.
Qed.

Lemma cacheContains_spec equal cache e :
  Equal model = Some equal ->
  exists hit, cacheContains model cache e = Some hit /\
              (hit = true -> exists s, inCache cache (e.1, s) /\ equal e.2 s = true).
Proof.
  intros He. unfold cacheContains. rewrite He. eexists. split; [reflexivity|].
  intros (elem & Hin & Hb)%existsb_exists. apply andb_true_iff in Hb as [Hb%equals_eq Hs].
  destruct elem as [b s]. simpl in *. exists s. split; [|done]. apply list_elem_of_In in Hin.
  unfold go_map_get in Hin. destruct (cache !! hash e.1) as [l|] eqn:El; simpl in Hin.
  - exists (hash e.1), l. split; [done|]. by rewrite Hb.
  - by apply not_elem_of_nil in Hin.
Qed.

(** An entry of the cache that leads nowhere. *)
Definition dead (e : bitset * St) : Prop := forall sigma, ~ completes (bitsOf e.1) e.2 sigma.

(** With [D] done, the cache holds dead ends and states on the way to this one. *)
Definition cacheOk (D : gset Z) (cache : cacheT) : Prop :=
  forall e, inCache cache e -> dead e \/ (size (bitsOf e.1) <= size D)%nat.

Lemma size_do (D : gset Z) k : k ∉ D -> size ({[k]} ∪ D) = S (size D).
Proof. intros Hk. rewrite size_union by set_solver. by rewrite size_singleton. Qed.

Abbreviation hd := (length es).

(** The heap holds the entries, linked in order without those of [D]. *)
Record heapOk (D : gset Z) (h : gmap nat (node In Out)) : Prop := {
  ho_chain : chain h hd (remaining D);
  ho_dom y : (y <= hd)%nat -> is_Some (h !! y);
  ho_nodes i e : es !! i = Some e -> static i h = Some (Some (value e), matchOf i e (drop (S i) es), id e);
}.

Definition ids (calls : list (nat * St)) : list Z := idAt ∘ fst <$> calls.

Lemma static_node (h : gmap nat (node In Out)) p v m k :
  static p h = Some (v, m, k) -> exists nd, h !! p = Some nd /\ n_value nd = v /\ n_match nd = m /\ n_id nd = k.
Proof. unfold static. destruct (h !! p) as [nd|]; intros; simplify_eq/=. eauto. Qed.

Lemma node_return D h k r y :
  heapOk D h -> returnAt k r y -> exists md, h !! r = Some md /\ n_value md = Some (inr y) /\ n_match md = None.
Proof.
  intros Hh (e & He & Hk & Hi & Hv). destruct (static_node _ _ _ _ _ (ho_nodes _ _ Hh _ _ He)) as (nd & Hn & H1 & H2 & _).
  exists nd. unfold matchOf in H2. rewrite Hk in H2. rewrite Hv in H1. done.
Qed.

Lemma node_call D h k c x r y :
  heapOk D h -> callAt k c x -> returnAt k r y -> (c < r)%nat ->
  exists nd, h !! c = Some nd /\ n_value nd = Some (inl x) /\ n_match nd = Some r /\ n_id nd = k.
Proof.
  intros Hh (e & He & Hk & Hi & Hv) (e' & He' & Hk' & Hi' & Hv') Hcr.
  destruct (static_node _ _ _ _ _ (ho_nodes _ _ Hh _ _ He)) as (nd & Hn & H1 & H2 & H3).
  exists nd. split_and!; [done|congruence| |congruence]. rewrite H2. unfold matchOf. rewrite Hk, Hi, <- Hi'.
  rewrite (retMap_unique _ (S c) (r - S c) e'); [f_equal; lia| |done|].
  - rewrite lookup_drop, <- He'. f_equal. lia.
  - intros t e'' Ht Hk'' Hi''. rewrite lookup_drop in Ht.
    assert (S c + t = r)%nat by (eapply (we_uniq Hes); [done..|congruence|congruence]). lia.
Qed.

Lemma next_of_node (h : gmap nat (node In Out)) p nd : h !! p = Some nd -> next nd = nextOf p h.
Proof. intros H. unfold nextOf. by rewrite H. Qed.

Lemma head_next D h : heapOk D h -> exists nd, h !! hd = Some nd /\ next nd = head (remaining D).
Proof.
  intros Hh. destruct (ho_dom _ _ Hh hd ltac:(lia)) as [nd Hn]. exists nd. split; [done|].
  rewrite (next_of_node _ _ _ Hn). destruct (ho_chain _ _ Hh) as [Hs He].
  destruct (remaining D); [done|]. by destruct Hs.
Qed.

Lemma remaining_next D h pre c suf :
  heapOk D h -> remaining D = pre ++ c :: suf -> exists nd, h !! c = Some nd /\ next nd = head suf.
Proof.
  intros Hh Hr. destruct (ho_dom _ _ Hh c) as [nd Hn].
  { assert (c ∈ remaining D) as [_ Hc]%elem_of_remaining; [|lia]. rewrite Hr, elem_of_app, elem_of_cons. tauto. }
  exists nd. split; [done|]. rewrite (next_of_node _ _ _ Hn).
  pose proof (ho_chain _ _ Hh) as Hc. rewrite Hr in Hc. by destruct (chain_around _ _ _ _ _ Hc) as (_ & _ & _ & ? & _).
Qed.

Lemma hd_fresh D : NoDup (hd :: remaining D).
Proof. apply NoDup_cons. split; [|apply remaining_NoDup]. intros [_ H]%elem_of_remaining. lia. Qed.

(** Lifting a call keeps the heap well-formed; unlifting it restores the heap. *)
Lemma heapOk_lift D h k c x r y pre suf :
  heapOk D h -> remaining D = pre ++ c :: suf -> callAt k c x -> returnAt k r y -> (c < r)%nat -> k ∉ D ->
  exists h', lift c h = Some h' /\ heapOk ({[k]} ∪ D) h' /\ unlift c h' = Some h.
Proof.
  intros Hh Hr Hc Hret Hcr Hk. destruct (remaining_do _ _ _ _ _ _ _ _ Hr Hc Hret Hcr Hk) as (l2 & l3 & -> & Hr').
  destruct (node_call _ _ _ _ _ _ _ Hh Hc Hret Hcr) as (nd & Hn & _ & Hm & _).
  pose proof (hd_fresh D) as Hnd. pose proof (ho_chain _ _ Hh) as Hch. rewrite Hr in Hnd, Hch.
  destruct (lift_spec h hd pre c l2 r l3 nd) as (h' & Hl & Hc' & Hu & Hs); [done..| |done|done|].
  { intros z Hz. apply (ho_dom _ _ Hh). rewrite <- Hr in Hz.
    apply elem_of_cons in Hz as [->|[_ Hz]%elem_of_remaining]; lia. }
  exists h'. split; [done|]. split; [|done]. split.
  - by rewrite Hr'.
  - intros z Hz. apply (static_is_Some h); [done|]. by apply (ho_dom _ _ Hh).
  - intros i e He. rewrite Hs. by apply (ho_nodes _ _ Hh).
Qed.

Lemma callIds_ok D h calls :
  heapOk D h -> (forall p s, (p, s) ∈ calls -> (p < hd)%nat) -> callIds h calls = Some (ids calls).
Proof.
  intros Hh Hc. unfold callIds, ids. apply mapM_Some_2, Forall2_fmap_r, Forall2_same_length_lookup_2; [done|].
  intros i [p s] v' H1 H2. simplify_eq. simpl. apply list_elem_of_lookup_2, Hc in H1.
  destruct (lookup_lt_is_Some_2 es p H1) as [e He].
  destruct (static_node _ _ _ _ _ (ho_nodes _ _ Hh _ _ He)) as (nd & Hn & _ & _ & Hi).
  rewrite Hn. simpl. unfold idAt. rewrite He. simpl. by rewrite Hi.
Qed.

Lemma updateLongest_total sq longest :
  (forall k, k ∈ sq -> 0 <= k < zlen longest) ->
  exists longest', updateLongest sq longest = Some longest' /\ length longest' = length longest.
Proof.
  unfold updateLongest. match goal with |- context [foldl ?f _ _] => set (F := f) end. revert longest.
  generalize sq as l. intros l. induction l as [|k l IH]; intros longest Hk; [eauto|].
  cbn [foldl]. unfold F at 2. cbn [mbind option_bind].
  destruct (go_index_in_range longest k) as [o Ho]; [apply Hk; by left|]. rewrite Ho. cbn [mbind option_bind].
  destruct (match o with None => true | Some s => zlen sq >? zlen s end).
  - rewrite go_update_Some by (apply Hk; by left).
    destruct (IH (<[Z.to_nat k := Some sq]> longest)) as (l' & Hl' & Hlen); [|exists l'; by rewrite Hlen, length_insert].
    intros k' Hk'. unfold zlen. rewrite length_insert. apply Hk. by right.
  - apply IH. intros k' Hk'. apply Hk. by right.
Qed.

(** One iteration in each case. *)
Section steps.
Context (equal : St -> St -> bool) (Hequal : Equal model = Some equal) (Hok : equalOk equal) (cp : bool).

Definition step (s s' : Search In Out St) : Prop := iterate model hd cp false s = Some (inl s').

Record inv (D : gset Z) (h : gmap nat (node In Out)) (B : bitset) (calls : list (nat * St))
    (longest : list (option (list Z))) : Prop := {
  iv_heap : heapOk D h;
  iv_bits : represents B D;
  iv_calls p s : (p, s) ∈ calls -> (p < hd)%nat;
  iv_longest : zlen longest = n;
}.

Lemma idAt_range p : (p < hd)%nat -> 0 <= idAt p < n.
Proof. intros Hp. destruct (lookup_lt_is_Some_2 es p Hp) as [e He]. unfold idAt. rewrite He. by apply (we_id Hes p). Qed.

Lemma step_call D h B cache calls longest s pre c suf k x r y :
  inv D h B calls longest -> remaining D = pre ++ c :: suf -> callAt k c x -> returnAt k r y -> (c < r)%nat ->
  iterate model hd cp false (mkSearch (Some c) h B cache calls longest s) =
    let '(ok, s') := Step model s x y in
    let skip := Some (inl (mkSearch (head suf) h B cache calls longest s)) in
    if (ok : bool) then
      B' ← set B k; hit ← cacheContains model cache (B', s');
      if (hit : bool) then skip
      else h' ← lift c h; nd ← h' !! hd;
           Some (inl (mkSearch (next nd) h' B' (addCache cache (B', s')) (calls ++ [(c, s)]) longest s'))
    else skip.
Proof.
  intros Hi Hr Hc Hret Hcr. pose proof (iv_heap _ _ _ _ _ Hi) as Hh.
  destruct (head_next _ _ Hh) as (nh & Hn & Hnn).
  destruct (node_call _ _ _ _ _ _ _ Hh Hc Hret Hcr) as (nd & Hnd & Hv & Hm & Hid).
  destruct (node_return _ _ _ _ _ Hh Hret) as (md & Hmd & Hv' & _).
  destruct (remaining_next _ _ _ _ _ Hh Hr) as (nd' & Hnd' & Hnx). simplify_eq.
  unfold iterate. rewrite Hn. cbn [mbind option_bind]. rewrite Hnn, Hr.
  assert (exists p, head (pre ++ c :: suf) = Some p) as [p ->] by (destruct pre; simpl; eauto).
  rewrite Hnd. cbn [mbind option_bind]. rewrite Hm, Hmd. cbn [mbind option_bind]. rewrite Hv, Hv'. cbn [mbind option_bind].
  destruct (Step model s x y) as [[] s']; rewrite Hnx; done.
Qed.

Lemma step_pop D h B h' B' cache calls longest s s' pre c suf k x r y pre' r' y' k' suf' :
  inv D h B calls longest -> remaining D = pre ++ c :: suf -> callAt k c x -> returnAt k r y -> (c < r)%nat ->
  inv ({[k]} ∪ D) h' B' (calls ++ [(c, s)]) longest -> unlift c h' = Some h -> clear B' k = Some B ->
  remaining ({[k]} ∪ D) = pre' ++ r' :: suf' -> returnAt k' r' y' ->
  exists longest', length longest' = length longest /\
    step (mkSearch (Some r') h' B' cache (calls ++ [(c, s)]) longest s')
         (mkSearch (head suf) h B cache calls longest' s).
Proof.
  intros Hi Hr Hc Hret Hcr Hi' Hu Hcl Hr' Hret'. pose proof (iv_heap _ _ _ _ _ Hi) as Hh.
  pose proof (iv_heap _ _ _ _ _ Hi') as Hh'.
  destruct (head_next _ _ Hh') as (nh & Hn & Hnn). rewrite Hr' in Hnn.
  assert (exists p, head (pre' ++ r' :: suf') = Some p) as [p Hp] by (destruct pre'; simpl; eauto). rewrite Hp in Hnn.
  destruct (node_return _ _ _ _ _ Hh' Hret') as (md & Hmd & _ & Hm).
  destruct (node_call _ _ _ _ _ _ _ Hh' Hc Hret Hcr) as (nd & Hnd & _ & _ & Hid).
  destruct (remaining_next _ _ _ _ _ Hh Hr) as (nd' & Hnd' & Hnx).
  assert (exists longest', (if cp then sq ← callIds h' (calls ++ [(c, s)]); updateLongest sq longest else Some longest)
            = Some longest' /\ length longest' = length longest) as (longest' & Hl & Hlen).
  { destruct cp; [|eauto]. rewrite (callIds_ok _ _ _ Hh' (iv_calls _ _ _ _ _ Hi')). cbn [mbind option_bind].
    apply updateLongest_total. rewrite (iv_longest _ _ _ _ _ Hi'). intros j Hj.
    unfold ids in Hj. apply list_elem_of_fmap in Hj as ([p' s0] & -> & Hin). simpl.
    by apply idAt_range, (iv_calls _ _ _ _ _ Hi' _ _ Hin). }
  exists longest'. split; [done|]. unfold step, iterate.
  rewrite Hn. cbn [mbind option_bind]. rewrite Hnn, Hmd. cbn [mbind option_bind]. rewrite Hm, last_snoc, Hl.
  cbn [mbind option_bind]. rewrite Hnd. cbn [mbind option_bind]. rewrite Hid, Hcl. cbn [mbind option_bind].
  rewrite Hu. cbn [mbind option_bind]. rewrite Hnd'. cbn [mbind option_bind]. rewrite Hnx.
  rewrite length_app. simpl. rewrite Nat.add_sub, take_app_length. done.
Qed.

Lemma iter_stop D h B cache longest s pre r suf k y :
  inv D h B [] longest -> remaining D = pre ++ r :: suf -> returnAt k r y ->
  iterate model hd cp false (mkSearch (Some r) h B cache [] longest s) = Some (inr (false, longest)).
Proof.
  intros Hi Hr Hret. pose proof (iv_heap _ _ _ _ _ Hi) as Hh.
  destruct (head_next _ _ Hh) as (nh & Hn & Hnn). rewrite Hr in Hnn.
  assert (exists p, head (pre ++ r :: suf) = Some p) as [p Hp] by (destruct pre; simpl; eauto). rewrite Hp in Hnn.
  destruct (node_return _ _ _ _ _ Hh Hret) as (md & Hmd & _ & Hm).
  unfold iterate. rewrite Hn. cbn [mbind option_bind]. rewrite Hnn, Hmd. cbn [mbind option_bind]. by rewrite Hm.
Qed.

Lemma iter_done D h B cache calls longest s en :
  inv D h B calls longest -> remaining D = [] ->
  iterate model hd cp false (mkSearch en h B cache calls longest s)
    = Some (inr (true, replicate (Z.to_nat n) (Some (ids calls)))).
Proof.
  intros Hi Hr. pose proof (iv_heap _ _ _ _ _ Hi) as Hh. destruct (head_next _ _ Hh) as (nh & Hn & Hnn).
  rewrite Hr in Hnn. unfold iterate. rewrite Hn. cbn [mbind option_bind]. rewrite Hnn. simpl.
  rewrite (callIds_ok _ _ _ Hh (iv_calls _ _ _ _ _ Hi)). simpl. do 3 f_equal.
  pose proof (iv_longest _ _ _ _ _ Hi) as Hl. unfold zlen in Hl. rewrite <- Hl, Nat2Z.id.
  clear. induction longest as [|o l IH]; [done|]. simpl. by f_equal.
Qed.

(** ** Exploring a state *)

(** The search from [st] ends with a linearization that extends the calls made so far. *)
Definition succeeds (D : gset Z) (s : St) (calls : list (nat * St)) (st : Search In Out St) : Prop :=
  exists fin sigma, rtc step st fin /\
    iterate model hd cp false fin = Some (inr (true, replicate (Z.to_nat n) (Some (ids calls ++ sigma)))) /\
    completes D s sigma.

(** It comes back to the same list, bitset, calls and state at a return, and there is
    no linearization; what it added to the cache are dead ends. *)
Definition exhausts (D : gset Z) (s : St) h B calls (cache : cacheT) (longest : list (option (list Z)))
    (st : Search In Out St) : Prop :=
  exists pre r suf k y cache' longest', rtc step st (mkSearch (Some r) h B cache' calls longest' s) /\
    remaining D = pre ++ r :: suf /\ returnAt k r y /\ (forall sigma, ~ completes D s sigma) /\
    (forall e, inCache cache' e -> inCache cache e \/ dead e) /\ length longest' = length longest.

Definition outcome D s h B calls cache longest st : Prop :=
  succeeds D s calls st \/ exhausts D s h B calls cache longest st.

Lemma outcome_step D s h B calls cache longest st cache' longest' st' :
  rtc step st st' -> (forall e, inCache cache' e -> inCache cache e \/ dead e) -> length longest' = length longest ->
  outcome D s h B calls cache' longest' st' -> outcome D s h B calls cache longest st.
Proof.
  intros Hst Hc Hl [(fin & sigma & Hrun & Hfin & Hco)|(pre & r & suf & k & y & c2 & l2 & Hrun & H1 & H2 & H3 & H4 & H5)].
  - left. exists fin, sigma. split; [by etrans|done].
  - right. exists pre, r, suf, k, y, c2, l2. split; [by etrans|]. split_and!; try done; [|congruence].
    intros e [He|He]%H4; [by apply Hc|by right].
Qed.

(** The calls of entry [c] were tried without success. *)
Definition tried (D : gset Z) (s : St) (c : nat) : Prop :=
  exists k x, callAt k c x /\
    forall r y s' sigma, returnAt k r y -> Step model s x y = (true, s') -> ~ completes ({[k]} ∪ D) s' sigma.

Lemma call_not_return k c x k' y : callAt k c x -> returnAt k' c y -> False.
Proof. intros (e & He & Hk & _) (e' & He' & Hk' & _). congruence. Qed.

Lemma entry_cases c : (c < hd)%nat -> (exists k x, callAt k c x /\ 0 <= k < n) \/ (exists k y, returnAt k c y).
Proof.
  intros Hc. destruct (lookup_lt_is_Some_2 es c Hc) as [e He]. pose proof (we_val Hes _ _ He) as Hv.
  destruct (kind e) eqn:Ek; destruct Hv as [v Hv]; [left|right]; exists (id e), v; [|by exists e].
  split; [by exists e|]. by apply (we_id Hes c).
Qed.

(** At a return everything that could come next has been tried. *)
Lemma no_completion D s pre r suf k y sigma :
  remaining D = pre ++ r :: suf -> returnAt k r y -> (forall c, c ∈ pre -> tried D s c) -> ~ completes D s sigma.
Proof.
  intros Hr Hret Hpre Hco. destruct (returnAt_id _ _ _ Hret) as [Hid Hlt].
  assert (k ∉ D) as HkD.
  { assert (r ∈ remaining D) as [? _]%elem_of_remaining; [|by rewrite <- Hid].
    rewrite Hr, elem_of_app, elem_of_cons. tauto. }
  assert (0 <= k < n) as Hk by (rewrite <- Hid; by apply idAt_range).
  destruct (completes_uncons _ _ _ Hco) as [->|(k0 & sg & i & x & j & y0 & s' & -> & Hcand & Hci & Hrj & Hs & Hco')].
  { destruct Hco as (_ & Hel & _). by apply (not_elem_of_nil k), Hel. }
  destruct Hcand as (_ & HkD0 & Hbefore). destruct (callAt_id _ _ _ Hci) as [Hii Hil].
  assert (i ∈ remaining D) as Hin by (apply elem_of_remaining; by rewrite Hii).
  rewrite Hr in Hin. apply elem_of_app in Hin as [Hin|[->|Hin]%elem_of_cons].
  - destruct (Hpre i Hin) as (k1 & x1 & Hc1 & Ht).
    assert (k1 = k0) as -> by (destruct (callAt_id _ _ _ Hc1); congruence).
    destruct (callAt_fun _ _ _ _ _ Hci Hc1) as [_ <-]. by eapply Ht.
  - by eapply call_not_return.
  - apply HkD, Hbefore. exists r, y, i, x. split_and!; [done..|].
    pose proof (remaining_sorted D) as Hsort. rewrite Hr in Hsort. apply StronglySorted_app_1_r in Hsort.
    apply StronglySorted_cons in Hsort as [Hf _]. rewrite Forall_forall in Hf. by apply Hf.
Qed.

(** A call before which only calls remain may come next. *)
Lemma call_candidate D s pre c suf k x :
  remaining D = pre ++ c :: suf -> callAt k c x -> 0 <= k < n -> (forall c', c' ∈ pre -> tried D s c') -> candidate D k.
Proof.
  intros Hr Hc Hk Hpre. destruct (callAt_id _ _ _ Hc) as [Hid Hlt]. split; [done|]. split.
  { assert (c ∈ remaining D) as [? _]%elem_of_remaining; [|by rewrite <- Hid].
    rewrite Hr, elem_of_app, elem_of_cons. tauto. }
  intros a (j & y & i & x' & Hj & Hi & Hji). destruct (callAt_fun _ _ _ _ _ Hc Hi) as [<- _].
  destruct (decide (a ∈ D)) as [|Ha]; [done|exfalso]. destruct (returnAt_id _ _ _ Hj) as [Hja Hjl].
  assert (j ∈ remaining D) as Hin by (apply elem_of_remaining; by rewrite Hja).
  pose proof (remaining_sorted D) as Hsort. rewrite Hr in Hin, Hsort.
  apply elem_of_app in Hin as [Hin|[->|Hin]%elem_of_cons].
  - destruct (Hpre j Hin) as (k1 & x1 & Hc1 & _). by eapply call_not_return.
  - lia.
  - apply StronglySorted_app_1_r, StronglySorted_cons in Hsort as [Hf _]. rewrite Forall_forall in Hf.
    specialize (Hf j Hin). lia.
Qed.

Lemma remaining_nil D s : (forall k, k ∈ D -> 0 <= k < n) -> remaining D = [] -> completes D s [].
Proof.
  intros HD Hr. split; [constructor|]. split; [|split; [|done]].
  - intros k. split; [by intros ?%not_elem_of_nil|]. intros [Hk HkD].
    destruct (call_return k Hk) as (i & x & _ & _ & Hc & _). destruct (callAt_id _ _ _ Hc) as [Hid Hl].
    assert (i ∈ remaining D) as Hin by (apply elem_of_remaining; by rewrite Hid). rewrite Hr in Hin.
    by apply not_elem_of_nil in Hin.
  - intros a b [] l2 _ ?; done.
Qed.

Lemma tried_intro D s c k x r y :
  callAt k c x -> returnAt k r y -> (forall s' sigma, Step model s x y = (true, s') -> ~ completes ({[k]} ∪ D) s' sigma) ->
  tried D s c.
Proof.
  intros Hc Hr Ht. exists k, x. split; [done|]. intros r' y' s' sigma Hr' Hs.
  destruct (returnAt_fun _ _ _ _ _ Hr Hr') as [_ <-]. by apply Ht.
Qed.

(** Every exploration with [D] done has an outcome. *)
Definition explored (D : gset Z) : Prop :=
  forall h B calls longest cache s pre suf,
    inv D h B calls longest -> cacheOk D cache -> remaining D = pre ++ suf -> suf <> [] ->
    (forall c, c ∈ pre -> tried D s c) ->
    outcome D s h B calls cache longest (mkSearch (head suf) h B cache calls longest s).

Lemma inv_do D h B calls longest k c x r y pre suf s :
  inv D h B calls longest -> remaining D = pre ++ c :: suf -> callAt k c x -> returnAt k r y -> (c < r)%nat -> candidate D k ->
  exists h' B', lift c h = Some h' /\ set B k = Some B' /\ unlift c h' = Some h /\ clear B' k = Some B /\
    inv ({[k]} ∪ D) h' B' (calls ++ [(c, s)]) longest /\ bitsOf B' = {[k]} ∪ D.
Proof.
  intros Hi Hr Hc Hret Hcr (Hk & HkD & _).
  destruct (heapOk_lift _ _ _ _ _ _ _ _ _ (iv_heap _ _ _ _ _ Hi) Hr Hc Hret Hcr HkD) as (h' & Hl & Hh' & Hu).
  destruct (represents_set _ _ _ (iv_bits _ _ _ _ _ Hi) Hk) as (B' & Hs & HB').
  exists h', B'. split_and!; [done..| | |].
  - eapply represents_clear; [apply (iv_bits _ _ _ _ _ Hi)|done..].
  - split; [done..| |apply (iv_longest _ _ _ _ _ Hi)]. intros p s0 [Hin|[= -> ->]]%elem_of_snoc.
    + by apply (iv_calls _ _ _ _ _ Hi _ _ Hin).
    + by destruct (callAt_id _ _ _ Hc).
  - by apply represents_bitsOf.
Qed.

Lemma cacheOk_do D cache k e :
  k ∉ D -> cacheOk D cache -> bitsOf e.1 = {[k]} ∪ D -> cacheOk ({[k]} ∪ D) (addCache cache e).
Proof.
  intros Hk Hc He e' [Hin| ->]%inCache_add.
  - rewrite (size_do D k Hk). destruct (Hc e' Hin) as [|]; [by left|right; lia].
  - right. by rewrite He.
Qed.

Lemma ids_snoc calls c s : ids (calls ++ [(c, s)]) = ids calls ++ [idAt c].
Proof. unfold ids. by rewrite fmap_app. Qed.

(** Making a call that is not in the cache: either the search succeeds from there, or
    it comes back to the next entry. *)
Lemma explore_child D h B calls longest cache s pre c suf k x r y s' B' :
  explored ({[k]} ∪ D) ->
  inv D h B calls longest -> cacheOk D cache -> remaining D = pre ++ c :: suf ->
  callAt k c x -> returnAt k r y -> (c < r)%nat -> candidate D k ->
  Step model s x y = (true, s') -> set B k = Some B' -> cacheContains model cache (B', s') = Some false ->
  let st := mkSearch (Some c) h B cache calls longest s in
  succeeds D s calls st \/
  exists cache' longest', rtc step st (mkSearch (head suf) h B cache' calls longest' s) /\
    (forall e, inCache cache' e -> inCache cache e \/ dead e) /\ length longest' = length longest /\
    forall sigma, ~ completes ({[k]} ∪ D) s' sigma.
Proof.
  intros IH Hi Hca Hr Hc Hret Hcr Hcand HS HB Hhit st.
  destruct (inv_do D h B calls longest k c x r y pre suf s) as (h' & B2 & Hl & HB2 & Hu & Hcl & Hi' & Hbits); [done..|].
  assert (B2 = B') as -> by congruence.
  destruct (head_next _ _ (iv_heap _ _ _ _ _ Hi')) as (nh & Hnh & Hnx).
  set (st' := mkSearch (head (remaining ({[k]} ∪ D))) h' B' (addCache cache (B', s')) (calls ++ [(c, s)]) longest s').
  assert (step st st') as Hst.
  { unfold step, st. rewrite (step_call D h B cache calls longest s pre c suf k x r y) by done.
    rewrite HS, HB. cbn [mbind option_bind]. rewrite Hhit. cbn [mbind option_bind].
    rewrite Hl. cbn [mbind option_bind]. rewrite Hnh. cbn [mbind option_bind]. by rewrite Hnx. }
  destruct (callAt_id _ _ _ Hc) as [Hid _]. destruct Hcand as (Hk & HkD & Hbe).
  destruct (decide (remaining ({[k]} ∪ D) = [])) as [Hnil|Hne].
  - left. exists st', [k]. split_and!.
    + by apply rtc_once.
    + unfold st'. rewrite (iter_done ({[k]} ∪ D)) by done. by rewrite ids_snoc, Hid.
    + eapply completes_cons; [done..|]. apply remaining_nil; [|done]. apply (iv_bits _ _ _ _ _ Hi').
  - destruct (IH h' B' (calls ++ [(c, s)]) longest (addCache cache (B', s')) s' [] (remaining ({[k]} ∪ D)))
      as [(fin & sg & Hrun & Hfin & Hco)|(pre' & r' & suf' & k' & y' & c2 & l2 & Hrun & H1 & H2 & H3 & H4 & H5)]; try done.
    { by apply cacheOk_do. }
    { by intros ? ?%not_elem_of_nil. }
    + left. exists fin, (k :: sg). split_and!.
      * by eapply rtc_l.
      * rewrite Hfin, ids_snoc, Hid, <- app_assoc. done.
      * by eapply completes_cons.
    + right. destruct (step_pop D h B h' B' c2 calls l2 s s' pre c suf k x r y pre' r' y' k' suf')
        as (l3 & Hl3 & Hpop); try done.
      1,2: split; [apply Hi|apply Hi|apply Hi|unfold zlen; rewrite H5; apply Hi] ||
           (split; [apply Hi'|apply Hi'|apply Hi'|unfold zlen; rewrite H5; apply Hi']).
      exists c2, l3. split_and!; [|intros e [[He| ->]%inCache_add|He]%H4; [by left| |by right]|congruence|done].
      * eapply rtc_l; [done|]. etrans; [done|]. by apply rtc_once.
      * right. intros sg. simpl. rewrite Hbits. apply H3.
Qed.

(** A state that is in the cache has been explored. *)
Lemma cached_tried D cache B B' k s' :
  cacheOk D cache -> represents B D -> 0 <= k < n -> k ∉ D -> set B k = Some B' ->
  cacheContains model cache (B', s') = Some true -> forall sigma, ~ completes ({[k]} ∪ D) s' sigma.
Proof.
  intros Hca HB Hk HkD Hs Hhit sg Hco.
  destruct (cacheContains_spec equal cache (B', s') Hequal) as (hit & Hh & Hin).
  assert (hit = true) as -> by congruence. destruct (Hin eq_refl) as (s0 & He & Heq). simpl in Heq.
  destruct (represents_set _ _ _ HB Hk) as (B2 & HB2 & Hrep). assert (B2 = B') as -> by congruence.
  destruct (Hca _ He) as [Hd|Hd]; simpl in Hd.
  - apply (Hd sg). simpl. rewrite (represents_bitsOf _ _ Hrep). by eapply completes_equal.
  - rewrite (represents_bitsOf _ _ Hrep), size_do in Hd by done. lia.
Qed.

(** Trying the call at [c] ends in success, or moves on to the next entry with [c] tried. *)
Lemma explore_call D h B calls longest cache s pre c suf k x :
  (forall k, candidate D k -> explored ({[k]} ∪ D)) ->
  inv D h B calls longest -> cacheOk D cache -> remaining D = pre ++ c :: suf ->
  (forall c', c' ∈ pre -> tried D s c') -> callAt k c x -> 0 <= k < n ->
  let st := mkSearch (Some c) h B cache calls longest s in
  succeeds D s calls st \/
  exists cache' longest', rtc step st (mkSearch (head suf) h B cache' calls longest' s) /\
    (forall e, inCache cache' e -> inCache cache e \/ dead e) /\ length longest' = length longest /\ tried D s c.
Proof.
  intros IH Hi Hca Hr Hpre Hc Hk st.
  destruct (call_return k Hk) as (i & x' & r & y & Hc' & Hret & Hcr).
  destruct (callAt_fun _ _ _ _ _ Hc Hc') as [<- <-].
  pose proof (call_candidate _ _ _ _ _ _ _ Hr Hc Hk Hpre) as Hcand.
  pose proof (step_call D h B cache calls longest s pre c suf k x r y Hi Hr Hc Hret Hcr) as Hstep.
  destruct (Step model s x y) as [[] s'] eqn:HS.
  - destruct (represents_set _ _ _ (iv_bits _ _ _ _ _ Hi) Hk) as (B' & HB' & _).
    destruct (cacheContains_spec equal cache (B', s') Hequal) as ([] & Hhit & _).
    + right. exists cache, longest. split_and!; [|by left|done|].
      * apply rtc_once. unfold step, st. rewrite Hstep, HB'. cbn [mbind option_bind]. by rewrite Hhit.
      * apply (tried_intro D s c k x r y); [done..|]. intros s2 sg HS2. rewrite HS in HS2. injection HS2 as <-.
        apply (cached_tried D cache B B' k s'); [done|apply (iv_bits _ _ _ _ _ Hi)|done|apply Hcand|done..].
    + destruct (explore_child D h B calls longest cache s pre c suf k x r y s' B')
        as [Hs|(c2 & l2 & Hrun & H1 & H2 & H3)]; try done; [by apply IH|by left|].
      right. exists c2, l2. split_and!; [done..|]. apply (tried_intro D s c k x r y); [done..|].
      intros s2 sg HS2. rewrite HS in HS2. injection HS2 as <-. apply H3.
  - right. exists cache, longest. split_and!; [|by left|done|].
    + apply rtc_once. unfold step, st. by rewrite Hstep.
    + apply (tried_intro D s c k x r y); [done..|]. intros s2 sg HS2. congruence.
Qed.

Lemma cacheOk_weaken D cache cache' :
  cacheOk D cache -> (forall e, inCache cache' e -> inCache cache e \/ dead e) -> cacheOk D cache'.
Proof. intros Hc Hs e [He|He]%Hs; [by apply Hc|by left]. Qed.

(** The scan of the remaining entries. *)
Lemma explore_scan D : (forall k, candidate D k -> explored ({[k]} ∪ D)) -> explored D.
Proof.
  intros IH h B calls longest cache s pre suf Hi Hca Hr Hne Hpre.
  revert pre cache longest Hi Hca Hr Hne Hpre. induction suf as [|c suf IHs]; intros; [done|]. clear Hne.
  assert (c < hd)%nat as Hlt.
  { assert (c ∈ remaining D) as [_ ?]%elem_of_remaining; [|done]. rewrite Hr, elem_of_app, elem_of_cons. tauto. }
  destruct (entry_cases c Hlt) as [(k & x & Hc & Hk)|(k & y & Hret)].
  - destruct (explore_call D h B calls longest cache s pre c suf k x) as [Hs|(c2 & l2 & Hrun & H1 & H2 & H3)];
      try done; [by left|].
    eapply outcome_step; [done..|]. apply (IHs (pre ++ [c])).
    + split; [apply Hi..|unfold zlen; rewrite H2; apply Hi].
    + by eapply cacheOk_weaken.
    + by rewrite <- app_assoc.
    + destruct (call_return k Hk) as (i & x' & r & y & Hc' & Hret & Hcr).
      destruct (callAt_fun _ _ _ _ _ Hc Hc') as [<- <-].
      destruct (call_candidate _ _ _ _ _ _ _ Hr Hc Hk Hpre) as (_ & HkD & _).
      destruct (remaining_do _ _ _ _ _ _ _ _ Hr Hc Hret Hcr HkD) as (l3 & l4 & -> & _). by destruct l3.
    + intros c' [Hin| ->]%elem_of_snoc; [by apply Hpre|done].
  - right. exists pre, c, suf, k, y, cache, longest. split_and!; try done; [|by left].
    intros sg. by eapply no_completion.
Qed.

Lemma explore D : (forall k, k ∈ D -> 0 <= k < n) -> explored D.
Proof.
  remember (Z.to_nat n - size D)%nat as m eqn:Hm. revert D Hm.
  induction m as [m IH] using lt_wf_ind. intros D -> HD. apply explore_scan. intros k (Hk & HkD & _).
  assert (forall k', k' ∈ {[k]} ∪ D -> 0 <= k' < n) as HD' by set_solver.
  eapply IH; [|done|done]. rewrite size_do by done.
  assert (S (size D) <= Z.to_nat n)%nat; [|lia]. rewrite <- (size_do D k HkD).
  transitivity (size (list_to_set (seqZ 0 n) : gset Z)).
  - apply subseteq_size. intros k' Hk'. apply elem_of_list_to_set, elem_of_seqZ. specialize (HD' k' Hk'). lia.
  - rewrite size_list_to_set by apply NoDup_seqZ. by rewrite length_seqZ.
Qed.
End steps.

(** ** The start and the loop *)

Lemma remaining_empty : remaining ∅ = seq 0 hd.
Proof. apply filter_id. intros i _. apply not_elem_of_empty. Qed.

Lemma startSearch_spec :
  exists h, startSearch model es = Some (hd, mkSearch (head (remaining ∅)) h (newBitset n) ∅ [] (replicate (Z.to_nat n) None) (Init model)) /\
            inv ∅ h (newBitset n) [] (replicate (Z.to_nat n) None).
Proof.
  destruct (linkEntries_spec es 0) as (h & Hf & Hl & Hst).
  assert (0 <= n) as Hn by (pose proof (we_len Hes); pose proof (zlen_nonneg es); lia).
  assert (length_ hd (head (seq 0 hd)) h = Some (zlen es)) as Hlen.
  { destruct Hl as (Hdom & Hnd & Hc). destruct es as [|e0 es'] eqn:Ees; [done|].
    cbn [length seq head] in *. destruct Hc as [Hc _]. rewrite (length_chain h 0 (seq 1 (length es'))).
    - unfold zlen. simpl. by rewrite length_seq.
    - intros y Hy. by apply Hdom.
    - done.
    - rewrite length_seq. lia. }
  destruct (insertBefore_front h (seq 0 hd) hd (mkNode None None (-1) None None)) as (h' & Hi & Hl' & Hst'); try done.
  { rewrite elem_of_seq. lia. }
  exists h'. split.
  - unfold startSearch, makeLinkedEntries. change (imap pair es) with (imap (fun i => pair (0 + i)%nat) es).
    rewrite Hf. cbn [mbind option_bind]. rewrite Hlen. cbn [mbind option_bind]. rewrite Hi. cbn [mbind option_bind].
    rewrite (we_len Hes), remaining_empty. replace (2 * n / 2) with n; [done|]. rewrite Z.mul_comm, Z.div_mul; lia.
  - destruct Hl' as (Hdom & _ & Hc & _). split.
    + split; [by rewrite remaining_empty| |].
      * intros y Hy. apply Hdom, elem_of_cons. rewrite elem_of_seq. lia.
      * intros i e He. rewrite Hst'. unfold static. pose proof (lookup_lt_Some _ _ _ He).
        rewrite lookup_insert_ne by lia. by apply Hst.
    + split; [by intros k ?%not_elem_of_empty|]. intros k Hk. rewrite get_newBitset by done.
      by rewrite bool_decide_eq_false_2 by apply not_elem_of_empty.
    + by intros p s ?%not_elem_of_nil.
    + unfold zlen. rewrite length_replicate. lia.
Qed.

Lemma searchLoop_run cp s fin r :
  rtc (step cp) s fin -> iterate model hd cp false fin = Some (inr r) ->
  exists k, forall fuel i, (k <= fuel)%nat -> searchLoop model hd cp (fun _ => false) fuel i s = Some r.
Proof.
  intros Hrun Hfin. induction Hrun as [s|s s' fin Hs Hrun IH].
  - exists 1%nat. intros [|fuel] i Hf; [lia|]. cbn [searchLoop]. by rewrite Hfin.
  - destruct (IH Hfin) as [k Hk]. exists (S k). intros [|fuel] i Hf; [lia|]. cbn [searchLoop].
    unfold step in Hs. rewrite Hs. cbn [mbind option_bind]. apply Hk. lia.
Qed.
End search.

(** A search that was stopped early does not say yes. *)
Lemma searchLoop_kill {In Out St} (model : Model In Out St) head cp kill fuel i s l :
  searchLoop model head cp kill fuel i s = Some (true, l) ->
  searchLoop model head cp (fun _ => false) fuel i s = Some (true, l).
Proof.
  revert i s. induction fuel as [|fuel IH]; intros i s; [done|]. cbn [searchLoop].
  destruct s as [en h B cache calls longest st]. unfold iterate.
  destruct (h !! head) as [nd|]; [|done]. cbn [mbind option_bind]. destruct (next nd); [|by destruct (callIds h calls)].
  destruct (kill i); [done|].
  match goal with |- context [mbind _ ?o] => destruct o as [[s'|r]|] end; [apply IH|done|done].
Qed.

(** The search of well-formed entries, from the start to its answer. *)
Lemma checkSingle_decides {In Out St} (model : Model In Out St) equal es n cp :
  wfEntries es n -> Equal model = Some equal -> equalOk model equal ->
  exists fuel b longest,
    (forall fuel', (fuel <= fuel')%nat -> checkSingle model fuel' es cp (fun _ => false) = Some (b, longest)) /\
    if (b : bool) then exists sigma, linearization model es n sigma /\ longest = replicate (Z.to_nat n) (Some sigma)
    else forall sigma, ~ linearization model es n sigma.
Proof.
  intros Hes Heq Hok. destruct (startSearch_spec model es n Hes) as (h & Hst & Hi).
  set (s0 := mkSearch _ h _ _ _ _ _) in Hst.
  assert (exists fin b longest, rtc (step model es cp) s0 fin /\
            iterate model (length es) cp false fin = Some (inr (b, longest)) /\
            if (b : bool) then exists sigma, linearization model es n sigma /\ longest = replicate (Z.to_nat n) (Some sigma)
            else forall sigma, ~ linearization model es n sigma) as (fin & b & longest & Hrun & Hfin & Hb).
  { destruct (decide (remaining es ∅ = [])) as [Hnil|Hne].
    - exists s0, true, (replicate (Z.to_nat n) (Some [])). split_and!; [done| |].
      + by apply (iter_done model es n cp ∅).
      + exists []. split; [|done]. apply completes_linearization, remaining_nil; [done|by intros k ?%not_elem_of_empty|done].
    - destruct (explore model es n Hes equal Heq Hok cp ∅) with h (newBitset n) ([] : list (nat * St))
        (replicate (Z.to_nat n) (None : option (list Z))) (∅ : gmap Z (list (bitset * St))) (Init model) ([] : list nat)
        (remaining es ∅) as [(fin & sg & Hrun & Hfin & Hco)|(pre & r & suf & k & y & c & l & Hrun & H1 & H2 & H3 & _ & H5)]; try done.
      + intros e (hsh & l & Hl & _). by rewrite lookup_empty in Hl.
      + by intros c ?%not_elem_of_nil.
      + eexists fin, true, _. split; [done|]. split; [done|]. exists sg. split; [by apply completes_linearization|done].
      + eexists _, false, l. split; [done|]. split; [|intros sg Hl; by apply (H3 sg), completes_linearization].
        apply (iter_stop model es n cp ∅ h (newBitset n) c l (Init model) pre r suf k y); [|done..].
        split; [apply Hi..|unfold zlen; rewrite H5; apply Hi]. }
  destruct (searchLoop_run model es cp s0 fin (b, longest) Hrun Hfin) as [k Hk].
  exists k, b, longest. split; [|done]. intros fuel' Hf. unfold checkSingle. rewrite Hst. by apply Hk.
Qed.

(** C13. The search of one partition is a decision procedure for linearizability: given
    enough fuel it answers, its answer does not depend on the fuel, and it says yes
    exactly when the history has a linearization, which it then returns. *)
Theorem checkSingle_correct {In Out St} (model : Model In Out St) equal es n cp :
  wfEntries es n -> Equal model = Some equal -> equalOk model equal ->
  exists fuel b longest,
    (forall fuel', (fuel <= fuel')%nat -> checkSingle model fuel' es cp (fun _ => false) = Some (b, longest)) /\
    if (b : bool) then exists sigma, linearization model es n sigma /\ longest = replicate (Z.to_nat n) (Some sigma)
    else forall sigma, ~ linearization model es n sigma.
Proof. apply checkSingle_decides. Qed.
