(* ===== verification/Models.v ===== *)
(** * The key/value model of the checker (models/kv.go)

    [KvModel]: histories are split by key, and a state is the value of one key. *)

From S2P Require Import Prelude Porcupine.

(** [Op]: 0 is get, 1 put, 2 append, anything else an append that returns the old value. *)
Record KvInput := mkKvInput { Op : Z; Key : string; Value : string }.
Record KvOutput := mkKvOutput { OutValue : string }.

Abbreviation KvOperation := (Operation KvInput KvOutput).

Definition keyOf (v : KvOperation) : string := Key (Input v).

(** The operations of each key, in the order of the history. *)
Definition byKey (history : list KvOperation) : gmap string (list KvOperation) :=
  foldl (fun m v => <[keyOf v := go_map_get [] m (keyOf v) ++ [v]]> m) ∅ history.

(** [order] is the order in which [range m] yields the keys. *)
Definition kvPartition (order : gset string -> list string) (history : list KvOperation) : list (list KvOperation) :=
  let m := byKey history in
  let keys := sortStrings (order (dom m)) in
  (fun k => go_map_get [] m k) <$> keys.

Definition kvInit : string := EmptyString.

Definition kvStep (st : string) (inp : KvInput) (out : KvOutput) : bool * string :=
  if Op inp =? 0 then (bool_decide (OutValue out = st), st)
  else if Op inp =? 1 then (true, Value inp)
  else if Op inp =? 2 then (true, String.append st (Value inp))
  else (bool_decide (OutValue out = st), String.append st (Value inp)).

Definition KvModel (order : gset string -> list string) : Model KvInput KvOutput string :=
  mkModel (Some (kvPartition order)) None kvInit kvStep None.
