(* ===== verification/PorcupineOps.v ===== *)
(** * Porcupine: histories of operations

    From timed operations to entries and back: the entries of a history are well formed,
    and their linearizations are the orders of the operations that respect real time
    and the model.  So the verdict of the checker, collected from its partitions in any
    order, is about the history it was given. *)

From S2P Require Import Prelude Porcupine PorcupineList PorcupineSearch.

Section ops.
Context {In Out St : Type}.
Implicit Types (history sigma : list (Operation In Out)).

(** What is relied on of [sort.Sort]: it permutes, and leaves no element that is less
    than an earlier one. *)
Definition notLess (a b : entry In Out) : Prop := Less b a = false.

Class EntrySorter (sortEntries : list (entry In Out) -> list (entry In Out)) : Prop := {
  sortEntries_perm l : sortEntries l ≡ₚ l;
  sortEntries_sorted l : StronglySorted notLess (sortEntries l);
}.

(** [x] did not return before [y] was called. *)
Definition mayFollow (y x : Operation In Out) : Prop := ~ Return x < Call y.

(** The model allows the operations in this order. *)
Fixpoint runs (step : St -> In -> Out -> bool * St) (s : St) sigma : Prop :=
  match sigma with
  | [] => True
  | o :: sigma => (step s (Input o) (Output o)).1 = true /\ runs step (step s (Input o) (Output o)).2 sigma
  end.

(** A history is linearizable: its operations can be put in an order in which none
    comes after one that was called when it had returned, and that the model allows. *)
Definition linearizable (init : St) (step : St -> In -> Out -> bool * St) history : Prop :=
  exists sigma, sigma ≡ₚ history /\ StronglySorted mayFollow sigma /\ runs step init sigma.

(** ** The entries of a history *)

Definition callOf (k : Z) (o : Operation In Out) : entry In Out :=
  mkEntry callEntry (inl (Input o)) k (Call o) (ClientId o).
Definition returnOf (k : Z) (o : Operation In Out) : entry In Out :=
  mkEntry returnEntry (inr (Output o)) k (Return o) (ClientId o).

Lemma elem_of_opEntries k0 history e :
  e ∈ opEntries k0 history <->
  exists i o, history !! i = Some o /\ (e = callOf (k0 + Z.of_nat i) o \/ e = returnOf (k0 + Z.of_nat i) o).
Proof.
  revert k0. induction history as [|o history IH]; intros k0; simpl.
  - split; [by intros ?%not_elem_of_nil|]. by intros (i & o & ? & _).
  - rewrite !elem_of_cons, IH. split.
    + intros [->|[->|(i & o' & Hi & He)]].
      * exists 0%nat, o. rewrite Z.add_0_r. auto.
      * exists 0%nat, o. rewrite Z.add_0_r. auto.
      * exists (S i), o'. replace (k0 + Z.of_nat (S i)) with (k0 + 1 + Z.of_nat i) by lia. auto.
    + intros ([|i] & o' & Hi & He); simpl in Hi.
      * simplify_eq. rewrite Z.add_0_r in He. tauto.
      * right. right. exists i, o'. replace (k0 + Z.of_nat (S i)) with (k0 + 1 + Z.of_nat i) in He by lia. auto.
Qed.

(** What identifies an entry. *)
Definition tag (e : entry In Out) : entryKind * Z := (kind e, id e).

Lemma opEntries_tags k0 history : NoDup (tag <$> opEntries k0 history).
Proof.
  revert k0. induction history as [|o history IH]; intros k0; [constructor|]. simpl.
  assert (forall t k, (t, k) ∈ tag <$> opEntries (k0 + 1) history -> k <> k0) as Hk.
  { intros t k (e & Ht & (i & o' & _ & He)%elem_of_opEntries)%list_elem_of_fmap.
    destruct He as [->| ->]; injection Ht as -> ->; lia. }
  apply NoDup_cons. split; [|apply NoDup_cons; split; [|apply IH]].
  - intros [?|Hin]%elem_of_cons; [done|]. by eapply Hk.
  - intros Hin. by eapply Hk.
Qed.

Lemma zlen_opEntries k0 history : zlen (opEntries k0 history) = 2 * zlen history.
Proof. revert k0. induction history as [|o l IH]; intros k0; [done|]. simpl. rewrite !zlen_cons, IH. lia. Qed.

Section entries.
Context (sortEntries : list (entry In Out) -> list (entry In Out)) `{!EntrySorter sortEntries}.
Context (history : list (Operation In Out)).
Hypothesis Htimes : Forall (fun o => Call o <= Return o) history.

Abbreviation es := (makeEntries sortEntries history).

Lemma elem_of_makeEntries e :
  e ∈ es <-> exists k o, history @! k = Some o /\ (e = callOf k o \/ e = returnOf k o).
Proof.
  unfold makeEntries. rewrite (sortEntries_perm _), elem_of_opEntries. split.
  - intros (i & o & Hi & He). exists (Z.of_nat i), o. by rewrite go_index_nat.
  - intros (k & o & Hk & He). pose proof (go_index_Some_bound _ _ _ Hk). exists (Z.to_nat k), o.
    rewrite <- go_index_nat, !Z.add_0_l, Z2Nat.id by lia. done.
Qed.

Lemma makeEntries_uniq i j e e' :
  es !! i = Some e -> es !! j = Some e' -> kind e = kind e' -> id e = id e' -> i = j.
Proof.
  intros Hi Hj Hk Hid. assert (NoDup (tag <$> es)) as Hnd.
  { unfold makeEntries. rewrite (sortEntries_perm _). apply opEntries_tags. }
  apply (NoDup_lookup (tag <$> es) i j (tag e)); [done|..].
  - by rewrite list_lookup_fmap, Hi.
  - rewrite list_lookup_fmap, Hj. unfold tag. simpl. congruence.
Qed.

Lemma makeEntries_at i e :
  es !! i = Some e -> exists o, history @! id e = Some o /\ (e = callOf (id e) o \/ e = returnOf (id e) o).
Proof.
  intros Hi. apply list_elem_of_lookup_2, elem_of_makeEntries in Hi as (k & o & Hk & He).
  exists o. destruct He as [->| ->]; auto.
Qed.

Lemma entry_of e : e ∈ es -> exists i, es !! i = Some e.
Proof. apply list_elem_of_lookup_1. Qed.

(** A call is sorted before a return that is not earlier. *)
Lemma call_first i j a oa b ob :
  es !! i = Some (callOf a oa) -> es !! j = Some (returnOf b ob) -> (i < j)%nat <-> Call oa <= Return ob.
Proof.
  intros Hi Hj. assert (i <> j) as Hne by (intros ->; rewrite Hi in Hj; discriminate).
  pose proof (sortEntries_sorted (opEntries 0 history)) as Hs. fold es in Hs.
  assert (forall p q x y, (p < q)%nat -> es !! p = Some x -> es !! q = Some y -> notLess x y) as Hord.
  { intros p q x y Hpq Hp Hq. rewrite <- (take_drop_middle _ _ _ Hp) in Hs.
    apply StronglySorted_app_1_r, StronglySorted_cons in Hs as [Hf _]. rewrite Forall_forall in Hf. apply Hf.
    apply list_elem_of_lookup. exists (q - S p)%nat. rewrite lookup_drop, <- Hq. f_equal. lia. }
  unfold notLess, Less in Hord. split.
  - intros Hij. specialize (Hord i j _ _ Hij Hi Hj). simpl in Hord.
    destruct (Z.eqb_spec (Return ob) (Call oa)); simpl in Hord; [lia|]. b2p. lia.
  - intros Hle. destruct (decide (i < j)%nat) as [|Hge]; [done|exfalso].
    specialize (Hord j i _ _ ltac:(lia) Hj Hi). simpl in Hord.
    destruct (Z.eqb_spec (Call oa) (Return ob)); simpl in Hord; [done|]. b2p. lia.
Qed.

Lemma makeEntries_wf : wfEntries es (zlen history).
Proof.
  split.
  - unfold makeEntries, zlen. rewrite (sortEntries_perm _). apply (zlen_opEntries 0).
  - intros i e (o & Ho & _)%makeEntries_at. by eapply go_index_Some_bound.
  - apply makeEntries_uniq.
  - intros i e Hi Hk. destruct (makeEntries_at _ _ Hi) as (o & Ho & [He|He]); [|by rewrite He in Hk].
    destruct (entry_of (returnOf (id e) o)) as [j Hj]; [apply elem_of_makeEntries; eauto|].
    exists j, (returnOf (id e) o). split_and!; [done..|]. rewrite He in Hi. apply (call_first _ _ _ _ _ _ Hi Hj).
    rewrite Forall_forall in Htimes. apply Htimes. unfold go_index in Ho. destruct (0 <=? id e); [|done].
    by eapply list_elem_of_lookup_2.
  - intros k Hk. destruct (go_index_in_range history k Hk) as [o Ho].
    destruct (entry_of (callOf k o)) as [i Hi]; [apply elem_of_makeEntries; eauto|]. by exists i, (callOf k o).
  - intros i e (o & _ & [->| ->])%makeEntries_at; simpl; eauto.
Qed.

Lemma callAt_ops k i x : callAt es k i x -> exists o, history @! k = Some o /\ x = Input o /\ es !! i = Some (callOf k o).
Proof.
  intros (e & He & Hk & Hid & Hv). destruct (makeEntries_at _ _ He) as (o & Ho & [Hq|Hq]);
    rewrite Hid in *; rewrite Hq in *; [|done]. exists o. split_and!; [done| |done]. by injection Hv.
Qed.

Lemma returnAt_ops k j y : returnAt es k j y -> exists o, history @! k = Some o /\ y = Output o /\ es !! j = Some (returnOf k o).
Proof.
  intros (e & He & Hk & Hid & Hv). destruct (makeEntries_at _ _ He) as (o & Ho & [Hq|Hq]);
    rewrite Hid in *; rewrite Hq in *; [done|]. exists o. split_and!; [done| |done]. by injection Hv.
Qed.

Lemma ops_callAt k o : history @! k = Some o -> exists i, callAt es k i (Input o) /\ es !! i = Some (callOf k o).
Proof.
  intros Ho. destruct (entry_of (callOf k o)) as [i Hi]; [apply elem_of_makeEntries; eauto|].
  exists i. split; [|done]. by exists (callOf k o).
Qed.

Lemma ops_returnAt k o : history @! k = Some o -> exists j, returnAt es k j (Output o) /\ es !! j = Some (returnOf k o).
Proof.
  intros Ho. destruct (entry_of (returnOf k o)) as [i Hi]; [apply elem_of_makeEntries; eauto|].
  exists i. split; [|done]. by exists (returnOf k o).
Qed.

(** The order of the entries is the order of real time. *)
Lemma precedes_ops a b oa ob :
  history @! a = Some oa -> history @! b = Some ob -> precedes es a b <-> Return oa < Call ob.
Proof.
  intros Ha Hb. split.
  - intros (j & y & i & x & Hr & Hc & Hji).
    destruct (returnAt_ops _ _ _ Hr) as (oa' & Ha' & _ & Hj). destruct (callAt_ops _ _ _ Hc) as (ob' & Hb' & _ & Hi).
    simplify_eq. destruct (call_first _ _ _ _ _ _ Hi Hj) as [_ Himp]. destruct (Z.lt_ge_cases (Return oa) (Call ob)); [done|].
    specialize (Himp ltac:(lia)). lia.
  - intros Hlt. destruct (ops_returnAt _ _ Ha) as (j & Hr & Hj). destruct (ops_callAt _ _ Hb) as (i & Hc & Hi).
    exists j, (Output oa), i, (Input ob). split_and!; [done..|].
    destruct (call_first _ _ _ _ _ _ Hi Hj) as [Himp _]. destruct (decide (j < i)%nat) as [|Hge]; [done|].
    assert (i <> j) by (intros ->; rewrite Hi in Hj; discriminate). specialize (Himp ltac:(lia)). lia.
Qed.

(** [ks] names the operations [sigma] by their numbers. *)
Abbreviation names := (Forall2 (fun k o => history @! k = Some o)).

Lemma names_all : names (seqZ 0 (zlen history)) history.
Proof.
  apply Forall2_same_length_lookup_2; [rewrite length_seqZ; unfold zlen; lia|].
  intros i k o Hk Ho. apply lookup_seqZ in Hk as [-> _]. by rewrite Z.add_0_l, go_index_nat.
Qed.

Lemma names_fmap ks sigma : names ks sigma <-> (fun k => history @! k) <$> ks = Some <$> sigma.
Proof.
  split.
  - induction 1 as [|k o ks sigma Hk _ IH]; [done|]. rewrite !fmap_cons. by rewrite Hk, IH.
  - revert sigma. induction ks as [|k ks IH]; intros [|o sigma]; try done. rewrite !fmap_cons.
    intros [= Hk Hr]. constructor; [done|]. by apply IH.
Qed.

Lemma names_exists ks : (forall k, k ∈ ks -> 0 <= k < zlen history) -> exists sigma, names ks sigma.
Proof.
  induction ks as [|k ks IH]; intros Hk; [by exists []|].
  destruct IH as [sigma Hs]; [intros; apply Hk; by right|].
  destruct (go_index_in_range history k) as [o Ho]; [apply Hk; by left|]. exists (o :: sigma). by constructor.
Qed.

Lemma names_perm ks sigma : names ks sigma -> ks ≡ₚ seqZ 0 (zlen history) -> sigma ≡ₚ history.
Proof.
  intros Hn%names_fmap Hp. pose proof (proj1 (names_fmap _ _) names_all) as Ha.
  apply (fmap_Permutation (fun k => history @! k)) in Hp. rewrite Hn, Ha in Hp.
  apply Permutation_map_inv in Hp as (l & Heq & Hp). apply (inj (fmap Some)) in Heq. by subst.
Qed.

Lemma names_of sigma : sigma ≡ₚ history -> exists ks, names ks sigma /\ ks ≡ₚ seqZ 0 (zlen history).
Proof.
  intros Hp. pose proof (proj1 (names_fmap _ _) names_all) as Ha.
  apply (fmap_Permutation Some) in Hp. rewrite <- Ha in Hp.
  apply Permutation_map_inv in Hp as (ks & Heq & Hp). exists ks. split; [by apply names_fmap|done].
Qed.

Lemma StronglySorted_names ks sigma :
  names ks sigma -> StronglySorted (fun a b => ~ precedes es b a) ks <-> StronglySorted mayFollow sigma.
Proof.
  induction 1 as [|k o ks sigma Hk Hn IH]; [split; constructor|].
  rewrite !StronglySorted_cons, IH. split; intros [Hf Hs]; (split; [|done]); clear Hs IH.
  - induction Hn as [|k' o' ks sigma Hk' _ IH]; [constructor|]. apply Forall_cons in Hf as [Hf1 Hf2].
    constructor; [|by apply IH]. unfold mayFollow. by rewrite <- (precedes_ops k' k o' o).
  - induction Hn as [|k' o' ks sigma Hk' _ IH]; [constructor|]. apply Forall_cons in Hf as [Hf1 Hf2].
    constructor; [|by apply IH]. by rewrite (precedes_ops k' k o' o).
Qed.

Lemma legal_names (model : Model In Out St) ks sigma s :
  names ks sigma -> legal model es s ks <-> runs (Step model) s sigma.
Proof.
  intros Hn. revert s. induction Hn as [|k o ks sigma Hk _ IH]; intros s; [done|]. simpl. split.
  - intros (i & x & j & y & s' & Hc & Hr & Hs & Hl).
    destruct (callAt_ops _ _ _ Hc) as (o1 & H1 & -> & _). destruct (returnAt_ops _ _ _ Hr) as (o2 & H2 & -> & _).
    simplify_eq. rewrite Hs. simpl. split; [done|]. by apply IH.
  - intros [Hs Hl]. destruct (ops_callAt _ _ Hk) as (i & Hc & _). destruct (ops_returnAt _ _ Hk) as (j & Hr & _).
    destruct (Step model s (Input o) (Output o)) as [b s'] eqn:E. simpl in *. subst b.
    exists i, (Input o), j, (Output o), s'. split_and!; [done..|]. by apply IH.
Qed.
End entries.

Lemma StronglySorted_intro {A} (R : A -> A -> Prop) l :
  (forall l1 x l2 y, l = l1 ++ x :: l2 -> y ∈ l2 -> R x y) -> StronglySorted R l.
Proof.
  induction l as [|x l IH]; intros HR; constructor.
  - apply IH. intros l1 z l2 y -> Hy. by apply (HR (x :: l1) z l2).
  - apply Forall_forall. intros y Hy. by apply (HR [] x l).
Qed.

(** Two ways to say that an order respects [R]. *)
Lemma StronglySorted_before {A} (R : A -> A -> Prop) l :
  NoDup l -> (forall a b, R a b -> a ∈ l /\ a <> b) ->
  StronglySorted (fun a b => ~ R b a) l <-> forall a b l1 l2, R a b -> l = l1 ++ b :: l2 -> a ∈ l1.
Proof.
  intros Hnd HR. split.
  - intros Hs a b l1 l2 Hab ->. destruct (HR a b Hab) as [Hin Hne].
    apply elem_of_app in Hin as [|[->|Hin]%elem_of_cons]; [done..|].
    apply StronglySorted_app_1_r, StronglySorted_cons in Hs as [Hf _]. rewrite Forall_forall in Hf. by destruct (Hf a Hin).
  - intros Hb. apply StronglySorted_intro. intros l1 x l2 y -> Hy Hyx. specialize (Hb y x l1 l2 Hyx eq_refl).
    apply NoDup_app in Hnd as (_ & Hd & _). apply (Hd y Hb). by right.
Qed.

(** The linearizations the search looks for are those of the operations. *)
Lemma linearization_ops sortEntries `{!EntrySorter sortEntries} (model : Model In Out St) history :
  Forall (fun o => Call o <= Return o) history ->
  (exists ks, linearization model (makeEntries sortEntries history) (zlen history) ks) <->
  linearizable (Init model) (Step model) history.
Proof.
  intros Ht. set (es := makeEntries sortEntries history).
  assert (forall ks, ks ≡ₚ seqZ 0 (zlen history) ->
    StronglySorted (fun a b => ~ precedes es b a) ks <->
    forall a b l1 l2, precedes es a b -> ks = l1 ++ b :: l2 -> a ∈ l1) as Hbef.
  { intros ks Hp. apply StronglySorted_before; [rewrite Hp; apply NoDup_seqZ|].
    intros a b Hab. pose proof Hab as (j & y & i & x & Hr & Hc & _).
    destruct (returnAt_ops _ _ _ _ _ Hr) as (oa & Ha & _). destruct (callAt_ops _ _ _ _ _ Hc) as (ob & Hb & _).
    apply (precedes_ops sortEntries history a b oa ob Ha Hb) in Hab. split.
    - rewrite Hp, elem_of_seqZ. apply go_index_Some_bound in Ha. lia.
    - intros ->. assert (oa = ob) as -> by congruence. rewrite Forall_forall in Ht. unfold go_index in Hb. destruct (0 <=? b); [|done].
      apply list_elem_of_lookup_2, Ht in Hb. lia. }
  split.
  - intros (ks & Hp & Hpre & Hl). destruct (names_exists history ks) as [sigma Hn].
    { intros k. rewrite Hp, elem_of_seqZ. lia. }
    exists sigma. split_and!; [by eapply names_perm| |by eapply legal_names].
    apply (StronglySorted_names sortEntries history _ _ Hn). by apply Hbef.
  - intros (sigma & Hp & Hs & Hr). destruct (names_of history _ Hp) as (ks & Hn & Hk).
    exists ks. split_and!; [done| |by eapply legal_names].
    apply Hbef; [done|]. by eapply StronglySorted_names.
Qed.

(** ** Collecting the partitions' results *)

Lemma collect_all ci len count ok (bs : list bool) :
  bs <> [] -> count + zlen bs = len ->
  collect ci len count ok (Some <$> bs) = Some (ok && forallb (fun b => b) bs, false).
Proof.
  revert count ok. induction bs as [|b bs IH]; intros count ok Hne Hlen; [done|]. rewrite fmap_cons. cbn [collect forallb].
  rewrite zlen_cons in Hlen. rewrite andb_assoc.
  destruct (negb (ok && b) && negb ci) eqn:E; [b2p; by rewrite H|].
  destruct bs as [|b' bs].
  - rewrite zlen_nil in Hlen. rewrite (proj2 (Z.geb_le _ _)) by lia. simpl. by rewrite andb_true_r.
  - pose proof (zlen_nonneg bs). rewrite zlen_cons in Hlen.
    destruct (Z.geb_spec (count + 1) len); [lia|]. apply IH; [done|]. rewrite zlen_cons. lia.
Qed.

(** What the loop can conclude from some of the results, and the timer. *)
Lemma collect_partial ci len count ok arrivals r timedOut :
  collect ci len count ok arrivals = Some (r, timedOut) ->
  exists bs rest, arrivals = (Some <$> bs) ++ rest /\ r = ok && forallb (fun b => b) bs /\
    if (timedOut : bool) then exists rest', rest = None :: rest'
    else r = true -> len <= count + zlen bs.
Proof.
  revert count ok. induction arrivals as [|[b|] arrivals IH]; intros count ok; cbn [collect]; [done| |].
  - destruct (negb (ok && b) && negb ci) eqn:E.
    { intros [= <- <-]. b2p. exists [b], arrivals. simpl. rewrite H. split_and!; [done| |done].
      rewrite andb_true_r. by rewrite H. }
    destruct (Z.geb_spec (count + 1) len).
    { intros [= <- <-]. exists [b], arrivals. simpl. rewrite andb_true_r. split_and!; [done..|]. intros _. unfold zlen. simpl. lia. }
    intros (bs & rest & -> & -> & Hrest)%IH. exists (b :: bs), rest. simpl. rewrite andb_assoc. split_and!; [done..|].
    destruct timedOut; [done|]. intros Ht. specialize (Hrest Ht). rewrite zlen_cons. lia.
  - intros [= <- <-]. exists [], (None :: arrivals). simpl. rewrite andb_true_r. eauto.
Qed.

Section check.
Context (sortEntries : list (entry In Out) -> list (entry In Out)) `{!EntrySorter sortEntries}.

(** Equal states of the model behave alike. *)
Definition modelOk (model : Model In Out St) : Prop :=
  forall equal, Equal model = Some equal -> equalOk model equal.

Lemma shallowEqual_ok `{!EqDecision St} (model : Model In Out St) : equalOk model (fun s1 s2 => ShallowEqual s1 s2).
Proof.
  intros s s' ->%bool_decide_eq_true x y. split; [done|]. intros _. by apply bool_decide_eq_true.
Qed.

Context `{!EqDecision St} (model : Model In Out St) (Hmodel : modelOk model).

Abbreviation filled := (fillDefault model).

Lemma filled_equal : exists equal, Equal filled = Some equal /\ equalOk filled equal.
Proof.
  unfold fillDefault. simpl. destruct (Equal model) as [equal|] eqn:E; simpl.
  - exists equal. split; [done|]. by apply Hmodel.
  - eexists. split; [done|]. apply (shallowEqual_ok filled).
Qed.

Abbreviation goodTimes := (Forall (fun o : Operation In Out => Call o <= Return o)).
Abbreviation lin := (linearizable (Init model) (Step model)).

Lemma checkSingle_ops history cp :
  goodTimes history ->
  exists fuel b longest,
    (forall fuel', (fuel <= fuel')%nat ->
       checkSingle filled fuel' (makeEntries sortEntries history) cp (fun _ => false) = Some (b, longest)) /\
    (b = true <-> lin history).
Proof.
  intros Ht. destruct filled_equal as (equal & He & Hok).
  destruct (checkSingle_decides filled equal _ _ cp (makeEntries_wf sortEntries history Ht) He Hok)
    as (fuel & b & longest & Hf & Hb).
  exists fuel, b, longest. split; [done|]. rewrite <- (linearization_ops sortEntries filled history Ht).
  destruct b; split; try done.
  - intros _. destruct Hb as (ks & Hks & _). by exists ks.
  - intros [ks Hks]. by destruct (Hb ks).
Qed.

Abbreviation single fuel cp p := (checkSingle filled fuel (makeEntries sortEntries p) cp (fun _ => false)).

(** One amount of fuel for all partitions, and their answers. *)
Lemma checkSingle_all ps cp :
  (forall p, p ∈ ps -> goodTimes p) ->
  exists fuel bs, Forall2 (fun p b => b = true <-> lin p) ps bs /\
    forall fuel', (fuel <= fuel')%nat ->
      Forall2 (fun p b => exists longest, single fuel' cp p = Some (b, longest)) ps bs.
Proof.
  induction ps as [|p ps IH]; intros Ht; [exists 0%nat, []; split; [|intros]; constructor|].
  destruct IH as (f1 & bs & Hb & Hf1); [intros; apply Ht; by right|].
  destruct (checkSingle_ops p cp) as (f2 & b & longest & Hf2 & Hlin); [apply Ht; by left|].
  exists (f1 `max` f2)%nat, (b :: bs). split; [by constructor|]. intros fuel' Hf. constructor; [|apply Hf1; lia].
  exists longest. apply Hf2. lia.
Qed.

Lemma searchLoop_mono head cp kill fuel fuel' i s r :
  searchLoop filled head cp kill fuel i s = Some r -> (fuel <= fuel')%nat ->
  searchLoop filled head cp kill fuel' i s = Some r.
Proof.
  revert fuel' i s. induction fuel as [|fuel IH]; intros [|fuel'] i s; cbn [searchLoop]; try (done || lia).
  destruct (iterate filled head cp (kill i) s) as [[s'|r']|]; [|done|done].
  cbn [mbind option_bind]. intros Hr Hf. apply IH; [done|lia].
Qed.

(** Any answer is the answer. *)
Lemma checkSingle_answer fuel cp p b longest :
  goodTimes p -> single fuel cp p = Some (b, longest) -> b = true <-> lin p.
Proof.
  intros Ht Hs. destruct (checkSingle_ops p cp Ht) as (f2 & b' & l' & Hf2 & Hlin).
  specialize (Hf2 (fuel `max` f2)%nat ltac:(lia)). unfold checkSingle in *.
  destruct (startSearch filled (makeEntries sortEntries p)) as [[head s]|]; [|done]. cbn [mbind option_bind] in *.
  apply (searchLoop_mono _ _ _ _ (fuel `max` f2)) in Hs; [|lia]. rewrite Hs in Hf2. by simplify_eq.
Qed.

Lemma forallb_perm (l1 l2 : list bool) : l1 ≡ₚ l2 -> forallb (fun b => b) l1 = forallb (fun b => b) l2.
Proof. induction 1; simpl; [done|congruence| |congruence]. by rewrite !andb_assoc, (andb_comm x). Qed.

Lemma forallb_lin ps bs :
  Forall2 (fun p b => b = true <-> lin p) ps bs -> forallb (fun b => b) bs = true <-> forall p, p ∈ ps -> lin p.
Proof.
  induction 1 as [|p b ps bs Hb _ IH]; simpl; [split; [intros _ p ?%not_elem_of_nil|]; done|].
  rewrite andb_true_iff, Hb, IH. split.
  - intros [H1 H2] q [->|Hq]%elem_of_cons; auto.
  - intros Hall. split; [apply Hall; by left|]. intros q Hq. apply Hall. by right.
Qed.

Lemma arrivals_all fuel cp timeout ps bs l :
  Forall2 (fun p b => exists longest, single fuel cp p = Some (b, longest)) ps bs ->
  l ≡ₚ seq 0 (length ps) ->
  exists bs', bs' ≡ₚ bs /\
    mapM (fun o : option nat =>
      match o with
      | Some i => sub ← (makeEntries sortEntries <$> ps) !! i; r ← checkSingle filled fuel sub cp (fun _ => false); Some (Some r.1)
      | None => if timeout >? 0 then Some None else None
      end) (Some <$> l) = Some (Some <$> bs').
Proof.
  intros Hf Hl. assert (exists bs', (fun i => bs !! i) <$> l = Some <$> bs' /\ bs' ≡ₚ bs) as (bs' & Hbs & Hp).
  { assert ((fun i => bs !! i) <$> seq 0 (length ps) = Some <$> bs) as Hall.
    { rewrite (Forall2_length _ _ _ Hf). clear. apply list_eq. intros i. rewrite !list_lookup_fmap.
      destruct (decide (i < length bs)%nat) as [Hi|Hi].
      - rewrite lookup_seq_lt by done. destruct (lookup_lt_is_Some_2 bs i Hi) as [b Hb]. simpl. by rewrite Hb.
      - rewrite lookup_seq_ge, lookup_ge_None_2 by lia. done. }
    apply (fmap_Permutation (fun i => bs !! i)) in Hl. rewrite Hall in Hl. symmetry in Hl.
    apply Permutation_sym, Permutation_map_inv in Hl as (bs' & Heq & Hp). by exists bs'. }
  exists bs'. split; [done|]. apply mapM_Some_2, Forall2_fmap_l, Forall2_fmap_r.
  clear Hl Hp. revert bs' Hbs. induction l as [|i l IH]; intros [|b bs'] Hbs; try done; constructor.
  - rewrite !fmap_cons in Hbs. injection Hbs as Hb _.
    destruct (Forall2_lookup_r _ _ _ _ _ Hf Hb) as (p & Hp & longest & Hs).
    unfold compose. rewrite list_lookup_fmap, Hp. cbn [fmap option_fmap option_map mbind option_bind]. by rewrite Hs.
  - apply IH. rewrite !fmap_cons in Hbs. by injection Hbs.
Qed.

(** Without a timeout, and once every partition has been checked, the verdict is [Ok]
    exactly if every partition of the history is linearizable; which result arrives
    first makes no difference. *)
Lemma checkOperations_decides history verbose l :
  let ps := default NoPartition (Partition model) history in
  ps <> [] -> (forall p, p ∈ ps -> goodTimes p) -> l ≡ₚ seq 0 (length ps) ->
  exists fuel b, (forall fuel', (fuel <= fuel')%nat ->
      checkOperations sortEntries model fuel' history verbose 0 (Some <$> l) = Some (if (b : bool) then Ok else Illegal)) /\
    (b = true <-> forall p, p ∈ ps -> lin p).
Proof.
  intros ps Hne Ht Hl. destruct (checkSingle_all ps verbose Ht) as (fuel & bs & Hb & Hf).
  exists fuel, (forallb (fun b => b) bs). split; [|by apply forallb_lin].
  intros fuel' Hfu. destruct (arrivals_all fuel' verbose 0 ps bs l (Hf fuel' Hfu) Hl) as (bs' & Hp & Hm).
  unfold checkOperations. cbn [fillDefault Partition mbind option_bind]. fold ps. unfold checkParallel.
  change (mkModel _ _ _ _ _) with filled. rewrite Hm. cbn [mbind option_bind].
  rewrite collect_all.
  - cbn [mbind option_bind verdict]. rewrite (forallb_perm _ _ Hp). by destruct (forallb (fun b => b) bs).
  - intros ->. apply Permutation_nil in Hp. subst bs. by apply Forall2_nil_inv_r in Hb.
  - unfold zlen. rewrite Hp, length_fmap, (Forall2_length _ _ _ Hb). lia.
Qed.

(** The partitions whose results were received, with their results. *)
Lemma arrivals_some fuel cp timeout (ps : list (list (Operation In Out))) order bs rest :
  mapM (fun o : option nat =>
    match o with
    | Some i => sub ← (makeEntries sortEntries <$> ps) !! i; r ← checkSingle filled fuel sub cp (fun _ => false); Some (Some r.1)
    | None => if timeout >? 0 then Some None else None
    end) order = Some ((Some <$> bs) ++ rest) ->
  exists ixs order', order = (Some <$> ixs) ++ order' /\
    Forall2 (fun i b => exists p longest, ps !! i = Some p /\ single fuel cp p = Some (b, longest)) ixs bs /\
    (forall rest', rest = None :: rest' -> exists order'', order' = None :: order'').
Proof.
  revert order. induction bs as [|b bs IH]; intros order Hm.
  - exists [], order. split_and!; [done|constructor|]. intros rest' ->. simpl in Hm.
    apply mapM_Some_1 in Hm. apply Forall2_cons_inv_r in Hm as (o & order'' & Ho & _ & ->). exists order''.
    destruct o as [i|]; [|done]. apply bind_Some in Ho as (sub & _ & Ho). by apply bind_Some in Ho as (r & _ & ?).
  - apply mapM_Some_1 in Hm. apply Forall2_cons_inv_r in Hm as (o & order2 & Ho & Hm & ->).
    apply mapM_Some_2 in Hm. destruct (IH order2 Hm) as (ixs & order' & -> & Hf & Hr).
    destruct o as [i|]; [|by destruct (timeout >? 0)].
    apply bind_Some in Ho as (sub & Hs & Ho). apply bind_Some in Ho as ([b' longest] & Hc & [= <-]).
    rewrite list_lookup_fmap in Hs. apply fmap_Some in Hs as (p & Hp & ->).
    exists (i :: ixs), order'. split_and!; [done| |done]. constructor; [|done]. exists p, longest. done.
Qed.

Lemma omap_Some {A} (l : list A) : omap (fun o => o) (Some <$> l) = l.
Proof. induction l as [|x l IH]; [done|]. simpl. by f_equal. Qed.

(** [n] different numbers below [n] are all of them. *)
Lemma all_covered (ixs : list nat) (n : nat) :
  NoDup ixs -> (forall i, i ∈ ixs -> (i < n)%nat) -> (n <= length ixs)%nat -> forall i, (i < n)%nat -> i ∈ ixs.
Proof.
  intros Hnd Hlt Hlen. assert (ixs ≡ₚ seq 0 n) as Hp.
  { apply submseteq_length_Permutation; [|rewrite length_seq; lia].
    apply NoDup_submseteq; [done|]. intros i Hi. apply elem_of_seq. specialize (Hlt i Hi). lia. }
  intros i Hi. rewrite Hp, elem_of_seq. lia.
Qed.

(** Whatever arrives first, results or the timer, an answer can be trusted: [Ok] means
    that every partition is linearizable, [Illegal] that one is not, and only the timer
    makes the result [Unknown]. *)
Lemma checkOperations_sound fuel history verbose timeout order r :
  let ps := default NoPartition (Partition model) history in
  (forall p, p ∈ ps -> goodTimes p) -> NoDup (omap (fun o => o) order) ->
  checkOperations sortEntries model fuel history verbose timeout order = Some r ->
  match r with
  | Ok => forall p, p ∈ ps -> lin p
  | Illegal => exists p, p ∈ ps /\ ~ lin p
  | Unknown => None ∈ order
  end.
Proof.
  intros ps Ht Honce Hc. unfold checkOperations in Hc. cbn [fillDefault Partition mbind option_bind] in Hc. fold ps in Hc.
  unfold checkParallel in Hc. change (mkModel _ _ _ _ _) with filled in Hc.
  apply bind_Some in Hc as (arrivals & Hm & Hc). apply bind_Some in Hc as ([ok timedOut] & Hcol & [= <-]).
  apply collect_partial in Hcol as (bs & rest & -> & Hok & Hend). simpl in Hok.
  destruct (arrivals_some _ _ _ _ _ _ _ Hm) as (ixs & order' & -> & Hf & Hrest).
  assert (Forall2 (fun i b => exists p, ps !! i = Some p /\ (b = true <-> lin p)) ixs bs) as Hans.
  { eapply Forall2_impl; [done|]. intros i b (p & longest & Hp & Hs). exists p. split; [done|].
    eapply checkSingle_answer; [|done]. apply Ht. by eapply list_elem_of_lookup_2. }
  unfold verdict. destruct ok; simpl.
  - destruct timedOut.
    { destruct Hend as [rest' ->]. destruct (Hrest rest' eq_refl) as [order'' ->]. apply elem_of_app. right. by left. }
    specialize (Hend eq_refl). intros p Hp. apply list_elem_of_lookup in Hp as [i Hi].
    assert (i ∈ ixs) as Hin.
    { apply (all_covered ixs (length ps)).
      - rewrite omap_app, omap_Some in Honce. by apply NoDup_app in Honce as (? & _).
      - intros j Hj. apply list_elem_of_lookup in Hj as [t Ht'].
        destruct (Forall2_lookup_l _ _ _ _ _ Hans Ht') as (b & _ & q & Hq & _). by eapply lookup_lt_Some.
      - rewrite (Forall2_length _ _ _ Hans). unfold zlen in Hend. rewrite length_fmap in Hend. lia.
      - by eapply lookup_lt_Some. }
    apply list_elem_of_lookup in Hin as [t Ht']. destruct (Forall2_lookup_l _ _ _ _ _ Hans Ht') as (b & Hb & q & Hq & Hl).
    simplify_eq. apply Hl. symmetry in Hok. rewrite forallb_forall in Hok. apply Hok, list_elem_of_In.
    by eapply list_elem_of_lookup_2.
  - assert (exists i : nat, bs !! i = Some false) as [i Hi].
    { clear -Hok. induction bs as [|[] bs IH]; simpl in Hok; [done| |by exists 0%nat].
      destruct (IH Hok) as [i Hi]. by exists (S i). }
    destruct (Forall2_lookup_r _ _ _ _ _ Hans Hi) as (j & _ & p & Hp & Hl). exists p.
    split; [by eapply list_elem_of_lookup_2|]. by intros ?%Hl.
Qed.
End check.
End ops.

(** ** Sorting entries *)

(** An instance of the sort: [Less] is a strict weak order. *)
Section sorting.
Context {In Out : Type}.

#[global] Instance notLess_dec : RelDecision (@notLess In Out).
Proof. intros a b. unfold notLess. apply _. Defined.

Lemma Less_spec (a b : entry In Out) :
  Less a b = true <-> time a < time b \/ time a = time b /\ kind a = callEntry /\ kind b = returnEntry.
Proof.
  unfold Less. destruct (Z.eqb_spec (time a) (time b)) as [E|E]; simpl.
  - rewrite andb_true_iff, !bool_decide_eq_true. split; [|intros [?|(_ & ? & ?)]; [lia|done]]. tauto.
  - rewrite Z.ltb_lt. split; [by left|]. intros [?|[? _]]; done.
Qed.

#[global] Instance notLess_total : Total (@notLess In Out).
Proof.
  intros a b. unfold notLess. destruct (Less b a) eqn:E1; [right|by left]. apply not_true_iff_false. intros E2.
  apply Less_spec in E1. apply Less_spec in E2. destruct E1 as [?|(? & ? & ?)], E2 as [?|(? & ? & ?)]; (lia || congruence).
Qed.

#[global] Instance notLess_trans : Transitive (@notLess In Out).
Proof.
  intros a b c. unfold notLess. rewrite <- !not_true_iff_false, !Less_spec. intros H1 H2 H3.
  apply Decidable.not_or in H1 as [H1 H1'], H2 as [H2 H2']. destruct H3 as [?|(? & Hc & Ha)]; [lia|].
  destruct (kind b) eqn:Hb; [apply H1'|apply H2']; split_and!; (done || lia).
Qed.

Definition sortByTime (l : list (entry In Out)) : list (entry In Out) := merge_sort notLess l.

#[global] Instance sortByTime_sorter : EntrySorter sortByTime.
Proof. split; intros l; [apply merge_sort_Permutation|apply (StronglySorted_merge_sort notLess)]. Qed.
End sorting.

(** ** The verdicts *)

(** C31. Whatever arrives first, results or the timer, an answer of the checker can be
    trusted: [Ok] means that every partition is linearizable, [Illegal] that one is not,
    and only the timer makes the result [Unknown]. *)
Theorem check_answers {In Out St} `{!EqDecision St} sortEntries `{!EntrySorter sortEntries}
    (model : Model In Out St) fuel history verbose timeout order r :
  modelOk model -> let ps := default NoPartition (Partition model) history in
  (forall p, p ∈ ps -> Forall (fun o => Call o <= Return o) p) -> NoDup (omap (fun o => o) order) ->
  checkOperations sortEntries model fuel history verbose timeout order = Some r ->
  match r with
  | Ok => forall p, p ∈ ps -> linearizable (Init model) (Step model) p
  | Illegal => exists p, p ∈ ps /\ ~ linearizable (Init model) (Step model) p
  | Unknown => None ∈ order
  end.
Proof. intros Hm ps Ht Hnd Hc. by eapply checkOperations_sound. Qed.
