(* ===== verification/PorcupineKv.v ===== *)
(** * Porcupine: the key/value model

    The partition of a history by key loses nothing: the history is linearizable as a
    history of the whole store exactly if the operations of each key are linearizable on
    that key's value.  So [CheckOperations] with [KvModel] decides linearizability of the
    key/value services' histories. *)

From S2P Require Import Prelude Porcupine PorcupineList PorcupineSearch PorcupineOps Models.

(** ** The key/value model *)

Section kv.
Implicit Types (history sigma : list KvOperation).

(** The operations of one key. *)
Definition ofKey (k : string) history : list KvOperation := filter (fun o => keyOf o = k) history.

Lemma byKey_lookup history k :
  byKey history !! k = match ofKey k history with [] => None | l => Some l end.
Proof.
  unfold byKey. induction history as [|v history IH] using rev_ind; [done|].
  rewrite foldl_app. cbn [foldl]. set (m := foldl _ _ history) in *. unfold ofKey. rewrite filter_app, filter_cons. fold (ofKey k history).
  destruct (decide (keyOf v = k)) as [<-|Hne].
  - rewrite lookup_insert_eq. unfold go_map_get. rewrite IH. by destruct (ofKey (keyOf v) history).
  - rewrite lookup_insert_ne, IH by done. by rewrite app_nil_r.
Qed.

Lemma byKey_get history k : go_map_get [] (byKey history) k = ofKey k history.
Proof. unfold go_map_get. rewrite byKey_lookup. by destruct (ofKey k history). Qed.

(** Go's map iteration yields every key once. *)
Class KeyOrder (order : gset string -> list string) : Prop := { order_perm X : order X ≡ₚ elements X }.

Context (order : gset string -> list string) `{!KeyOrder order}.

(** The partitions are the operations of each key that occurs. *)
Lemma elem_of_kvPartition history p :
  p ∈ kvPartition order history <-> exists k, p = ofKey k history /\ p <> [].
Proof.
  unfold kvPartition. rewrite list_elem_of_fmap. setoid_rewrite byKey_get. unfold sortStrings.
  setoid_rewrite (merge_sort_Permutation String.le). setoid_rewrite (order_perm (dom (byKey history))).
  setoid_rewrite elem_of_elements. setoid_rewrite elem_of_dom. setoid_rewrite byKey_lookup.
  split; intros (k & -> & Hk); exists k; (split; [done|]); destruct (ofKey k history); [by destruct Hk|done|done|eauto].
Qed.

(** The whole store, as a model: each operation acts on the value of its key. *)
Definition storeStep (m : gmap string string) (inp : KvInput) (out : KvOutput) : bool * gmap string string :=
  let '(ok, v) := kvStep (go_map_get EmptyString m (Key inp)) inp out in (ok, <[Key inp := v]> m).

(** A run of the store is a run of each key. *)
Lemma runs_keys m sigma :
  runs storeStep m sigma <-> forall k, runs kvStep (go_map_get EmptyString m k) (ofKey k sigma).
Proof.
  revert m. induction sigma as [|o sigma IH]; intros m; [done|]. cbn [runs].
  destruct (kvStep (go_map_get EmptyString m (keyOf o)) (Input o) (Output o)) as [ok v] eqn:E.
  assert (storeStep m (Input o) (Output o) = (ok, <[keyOf o := v]> m)) as ->
    by (unfold storeStep; fold (keyOf o); by rewrite E).
  cbn [fst snd]. rewrite IH.
  assert (forall k, ofKey k (o :: sigma) = if decide (keyOf o = k) then o :: ofKey k sigma else ofKey k sigma) as Hcons
    by (intros k; unfold ofKey; by rewrite filter_cons).
  assert (forall k, runs kvStep (go_map_get EmptyString m k) (ofKey k (o :: sigma)) <->
    if decide (keyOf o = k) then ok = true /\ runs kvStep v (ofKey k sigma)
    else runs kvStep (go_map_get EmptyString m k) (ofKey k sigma)) as Hk.
  { intros k. rewrite Hcons. destruct (decide (keyOf o = k)) as [<-|]; [|done]. cbn [runs]. by rewrite E. }
  setoid_rewrite Hk. split.
  - intros [Hok Hr] k. specialize (Hr k). rewrite go_map_get_insert in Hr.
    destruct (decide (keyOf o = k)) as [<-|Hne]; [by rewrite decide_True in Hr|by rewrite decide_False in Hr by congruence].
  - intros Hr. split; [specialize (Hr (keyOf o)); rewrite decide_True in Hr by done; by destruct Hr|].
    intros k. specialize (Hr k). rewrite go_map_get_insert.
    destruct (decide (keyOf o = k)) as [<-|Hne]; [rewrite decide_True by done; by destruct Hr|by rewrite decide_False by congruence].
Qed.

Lemma runs_store sigma : runs storeStep ∅ sigma <-> forall k, runs kvStep kvInit (ofKey k sigma).
Proof.
  rewrite runs_keys. assert (forall k, go_map_get EmptyString (∅ : gmap string string) k = kvInit) as Hk.
  { intros k. unfold go_map_get. by rewrite lookup_empty. }
  by setoid_rewrite Hk.
Qed.

Lemma ofKey_nil k history : k ∉ keyOf <$> history -> ofKey k history = [].
Proof.
  intros Hk. destruct (ofKey k history) as [|o l] eqn:E; [done|exfalso]. apply Hk.
  assert (o ∈ ofKey k history) as [<- Ho]%list_elem_of_filter by (rewrite E; by left). by apply list_elem_of_fmap_2.
Qed.

Lemma StronglySorted_filter {A} (R : A -> A -> Prop) (P : A -> Prop) `{forall x, Decision (P x)} l :
  StronglySorted R l -> StronglySorted R (filter P l).
Proof.
  induction 1 as [|x l _ IH Hf]; [constructor|]. rewrite filter_cons. case_decide; [|done]. constructor; [done|].
  apply Forall_forall. intros y [_ Hy]%list_elem_of_filter. rewrite Forall_forall in Hf. by apply Hf.
Qed.

(** An operation that returned first. *)
Lemma earliest_return history :
  history <> [] -> exists a, a ∈ history /\ forall b, b ∈ history -> Return a <= Return b.
Proof.
  induction history as [|o [|o' h] IH]; intros Hne; [done| |].
  - exists o. split; [by left|]. intros b ->%list_elem_of_singleton. lia.
  - destruct IH as (a & Ha & Hmin); [done|]. destruct (Z.le_gt_cases (Return o) (Return a)).
    + exists o. split; [by left|]. intros b [->|Hb]%elem_of_cons; [lia|]. specialize (Hmin b Hb). lia.
    + exists a. split; [by right|]. intros b [->|Hb]%elem_of_cons; [lia|]. by apply Hmin.
Qed.

(** Orders of the operations of each key that respect real time are those of one order
    of all operations that does: take the first operation of the key whose operation
    returned first. *)
Lemma merge_keys history (L : string -> list KvOperation) :
  (forall k, L k ≡ₚ ofKey k history) -> (forall k, StronglySorted mayFollow (L k)) ->
  Forall (fun o => Call o <= Return o) history ->
  exists sigma, sigma ≡ₚ history /\ StronglySorted mayFollow sigma /\ forall k, ofKey k sigma = L k.
Proof.
  remember (length history) as n eqn:Hn. revert history L Hn. induction n as [|n IH]; intros history L Hn Hp Hs Ht.
  { destruct history; [|done]. exists []. split_and!; [done|constructor|]. intros k. symmetry. apply Permutation_nil. symmetry. apply Hp. }
  destruct (earliest_return history) as (a & Ha & Hmin); [by intros ->|].
  assert (a ∈ L (keyOf a)) as Hin by (rewrite Hp; by apply list_elem_of_filter).
  destruct (L (keyOf a)) as [|h t] eqn:EL; [by apply not_elem_of_nil in Hin|].
  assert (h ∈ history /\ keyOf h = keyOf a) as [Hh Hkh].
  { assert (h ∈ ofKey (keyOf a) history) as [? ?]%list_elem_of_filter by (rewrite <- Hp, EL; by left). done. }
  apply elem_of_Permutation in Hh as [history' Hh].
  pose proof (Hs (keyOf a)) as Hsa. rewrite EL in Hsa. apply StronglySorted_cons in Hsa as [Hfst Hst].
  destruct (IH history' (fun k => if decide (k = keyOf a) then t else L k)) as (sigma & Hsp & Hss & Hsk).
  - rewrite Hh in Hn. simpl in Hn. congruence.
  - intros k. specialize (Hp k). unfold ofKey in *. rewrite Hh, filter_cons in Hp. destruct (decide (k = keyOf a)) as [->|Hne].
    + rewrite EL, decide_True in Hp by done. by apply (inj (h ::.)) in Hp.
    + rewrite decide_False in Hp; [done|congruence].
  - intros k. case_decide; [done|apply Hs].
  - rewrite Hh in Ht. by apply Forall_cons in Ht as [_ ?].
  - exists (h :: sigma). split_and!; [by rewrite Hsp| |].
    + constructor; [done|]. apply Forall_forall. intros b Hb. rewrite Hsp in Hb. unfold mayFollow.
      assert (b ∈ history) as Hb' by (rewrite Hh; by right). specialize (Hmin b Hb').
      assert (Call h <= Return a); [|lia]. apply elem_of_cons in Hin as [->|Hin].
      * rewrite Hh in Ht. by apply Forall_cons in Ht as [? _].
      * rewrite Forall_forall in Hfst. specialize (Hfst a Hin). unfold mayFollow in Hfst. lia.
    + intros k. unfold ofKey in *. rewrite filter_cons, (Hsk k), Hkh. destruct (decide (keyOf a = k)) as [<-|Hne].
      * by rewrite decide_True.
      * rewrite decide_False; [done|congruence].
Qed.

(** Splitting a history by key loses nothing. *)
Lemma kv_locality history :
  Forall (fun o => Call o <= Return o) history ->
  linearizable ∅ storeStep history <-> forall k, linearizable kvInit kvStep (ofKey k history).
Proof.
  intros Ht. split.
  - intros (sigma & Hp & Hs & Hr) k. exists (ofKey k sigma). split_and!.
    + unfold ofKey. by rewrite Hp.
    + by apply StronglySorted_filter.
    + by apply runs_store.
  - intros Hk. assert (exists L, forall k, L k ≡ₚ ofKey k history /\ StronglySorted mayFollow (L k) /\ runs kvStep kvInit (L k))
      as [L HL].
    { assert (forall X : gset string, exists L, forall k, k ∈ X ->
        L k ≡ₚ ofKey k history /\ StronglySorted mayFollow (L k) /\ runs kvStep kvInit (L k)) as HX.
      { intros X. induction X as [|x X Hx IH] using set_ind_L; [by exists (fun _ => [])|].
        destruct IH as [L HL]. destruct (Hk x) as (sg & H1 & H2 & H3).
        exists (fun k => if decide (k = x) then sg else L k). intros k Hin. case_decide; [by subst|]. apply HL. set_solver. }
      destruct (HX (list_to_set (keyOf <$> history))) as [L HL].
      exists (fun k => if decide (k ∈ keyOf <$> history) then L k else []). intros k. case_decide as Hin.
      - apply HL. by apply elem_of_list_to_set.
      - rewrite (ofKey_nil k history Hin). split_and!; [done|constructor|done]. }
    destruct (merge_keys history L) as (sigma & Hsp & Hss & Hsk); [intros k; apply HL|intros k; apply HL|done|].
    exists sigma. split_and!; [done..|]. apply runs_store. intros k. rewrite Hsk. apply HL.
Qed.
End kv.

#[global] Instance elements_order : KeyOrder elements.
Proof. by split. Qed.

Lemma kvModel_ok order : modelOk (KvModel order).
Proof. by intros equal ?. Qed.

(** C11. With the key/value model, on a history that is not empty and in which no operation
    returns before it is called, [CheckOperations] returns, given enough fuel and whatever
    the order in which the partitions finish, and says yes exactly if the history is
    linearizable as a history of the whole store. *)
Theorem kvmodel_decides sortEntries `{!EntrySorter sortEntries} order `{!KeyOrder order} history l :
  history <> [] -> Forall (fun o => Call o <= Return o) history ->
  l ≡ₚ seq 0 (length (kvPartition order history)) ->
  exists fuel b, (forall fuel', (fuel <= fuel')%nat ->
      CheckOperations sortEntries (KvModel order) fuel' history (Some <$> l) = Some b) /\
    (b = true <-> linearizable ∅ storeStep history).
Proof.
  intros Hne Ht Hl. destruct (checkOperations_decides sortEntries (KvModel order) (kvModel_ok order) history false l)
    as (fuel & b & Hf & Hb); [|intros p Hp|done|].
  - destruct history as [|o history]; [done|]. simpl. intros Hnil.
    assert (ofKey (keyOf o) (o :: history) ∈ kvPartition order (o :: history)) as Hin.
    { apply elem_of_kvPartition; [done|]. exists (keyOf o). split; [done|]. unfold ofKey. by rewrite filter_cons_True. }
    rewrite Hnil in Hin. by apply not_elem_of_nil in Hin.
  - simpl in Hp. apply elem_of_kvPartition in Hp as (k & -> & _); [|done]. unfold ofKey.
    apply Forall_forall. intros o [_ Ho]%list_elem_of_filter. rewrite Forall_forall in Ht. by apply Ht.
  - exists fuel, b. split; [intros fuel' Hfu; unfold CheckOperations; rewrite Hf by done; by destruct b|].
    rewrite Hb, kv_locality by done. simpl. split.
    + intros Hp k. destruct (ofKey k history) as [|o h] eqn:E; [by exists []; split_and!; [|constructor|]|].
      rewrite <- E. apply Hp, elem_of_kvPartition; [done|]. exists k. by rewrite E.
    + intros Hk p (k & -> & _)%elem_of_kvPartition; [|done]. apply Hk.
Qed.

(** C40. The history of nobody is not checked: it has no partitions, and [checkParallel]
    waits for a first result before it counts them, so [CheckOperations] never returns. *)
Theorem empty_history_blocks sortEntries order `{!KeyOrder order} fuel arrivals :
  CheckOperations sortEntries (KvModel order) fuel [] arrivals = None.
Proof.
  assert (kvPartition order [] = []) as Hnil.
  { destruct (kvPartition order []) as [|p ps] eqn:E; [done|].
    assert (p ∈ kvPartition order []) as Hp by (rewrite E; by left).
    apply elem_of_kvPartition in Hp as (k & -> & ?); done. }
  unfold CheckOperations, checkOperations. cbn [fillDefault Partition mbind option_bind].
  change (default NoPartition (Partition (KvModel order)) []) with (kvPartition order []). rewrite Hnil.
  unfold checkParallel. destruct arrivals as [|[i|] l]; done.
Qed.

(** Two clients: a put overlaps a get that already sees it, and a later get. *)
Definition demoHistory : list KvOperation :=
  [mkOperation 0 (mkKvInput 1 "x" "1") 0 (mkKvOutput "") 10;
   mkOperation 1 (mkKvInput 0 "x" "") 2 (mkKvOutput "1") 4;
   mkOperation 1 (mkKvInput 0 "y" "") 5 (mkKvOutput "") 6;
   mkOperation 0 (mkKvInput 0 "x" "") 11 (mkKvOutput "1") 12]%string.

Lemma demo_times : Forall (fun o : KvOperation => Call o <= Return o) demoHistory.
Proof. repeat constructor; simpl; lia. Qed.

Lemma demo_checked :
  checkOperations sortByTime (KvModel elements) 100 demoHistory false 0 [Some 1%nat; Some 0%nat] = Some Ok.
Proof. vm_compute. reflexivity. Qed.

Lemma demo_linearizable : linearizable ∅ storeStep demoHistory.
Proof.
  exists demoHistory. split_and!; [done| |].
  - repeat constructor; unfold mayFollow; simpl; lia.
  - by vm_compute.
Qed.

Lemma kvmodel_decides_witness :
  exists fuel, (forall fuel', (fuel <= fuel')%nat ->
    CheckOperations sortByTime (KvModel elements) fuel' demoHistory (Some <$> [1; 0]%nat) = Some true) /\
    linearizable ∅ storeStep demoHistory.
Proof.
  destruct (kvmodel_decides sortByTime elements demoHistory [1; 0]%nat) as (fuel & b & Hf & Hb).
  - discriminate.
  - exact demo_times.
  - assert (length (kvPartition elements demoHistory) = 2%nat) as -> by (vm_compute; reflexivity). apply perm_swap.
  - assert (b = true) as ->.
    { apply Hb. exact demo_linearizable. }
    exists fuel. split; [exact Hf|apply Hb; reflexivity].
Defined.

Lemma check_answers_witness : linearizable kvInit kvStep (ofKey "x" demoHistory).
Proof.
  refine (check_answers sortByTime (KvModel elements) 100 demoHistory false 0 [Some 1%nat; Some 0%nat] Ok
    (kvModel_ok elements) _ _ demo_checked _ _).
  - intros p (k & -> & _)%(elem_of_kvPartition elements). apply Forall_forall.
    intros o [_ Ho]%list_elem_of_filter. pose proof demo_times as Ht. rewrite Forall_forall in Ht. exact (Ht o Ho).
  - vm_compute. repeat constructor; set_solver.
  - apply (elem_of_kvPartition elements). exists "x"%string. split; [reflexivity|]. vm_compute. discriminate.
Defined.

Lemma checkSingle_correct_witness :
  exists fuel b longest, (forall fuel', (fuel <= fuel')%nat ->
    checkSingle (fillDefault (KvModel elements)) fuel' (makeEntries sortByTime demoHistory) true (fun _ => false)
      = Some (b, longest)).
Proof.
  destruct (checkSingle_correct (fillDefault (KvModel elements)) _ (makeEntries sortByTime demoHistory) 4 true
    (makeEntries_wf sortByTime demoHistory demo_times) eq_refl (shallowEqual_ok _)) as (fuel & b & longest & Hf & _).
  exists fuel, b, longest. exact Hf.
Defined.

Lemma empty_history_blocks_witness :
  CheckOperations sortByTime (KvModel elements) 100 [] [] = None.
Proof. exact (empty_history_blocks sortByTime elements 100 []). Defined.
