(* ===== verification/PorcupineEvents.v ===== *)
(** * Porcupine: histories of events

    [renumber] gives the operations of an event history the numbers 0, 1, ..., and
    [CheckEvents] decides whether the calls of the history as it was given can be ordered. *)

From S2P Require Import Prelude Porcupine PorcupineList PorcupineSearch PorcupineOps Models.

(** ** Histories of events *)

Section events.
Context {In Out St : Type}.
Implicit Types (evs : list (Event In Out)) (es : list (entry In Out)).

(** [v] with its number replaced. *)
Definition renamed (r : Z -> Z) (v : Event In Out) : Event In Out :=
  mkEvent (ev_ClientId v) (ev_Kind v) (ev_Value v) (r (ev_Id v)).

(** [renumber] renames the numbers of the events to 0, 1, ... in the order in which they
    appear. *)
Lemma renumber_spec evs :
  exists (m : gmap Z Z) (n : Z), renumber evs = renamed (fun i => default 0 (m !! i)) <$> evs /\ 0 <= n /\
    (forall i, is_Some (m !! i) <-> i ∈ ev_Id <$> evs) /\
    (forall i j k, m !! i = Some k -> m !! j = Some k -> i = j) /\
    (forall k, 0 <= k < n <-> exists i, m !! i = Some k).
Proof.
  unfold renumber. assert (exists e m n, foldl renumberStep ([], ∅, 0) evs = (e, m, n) /\
    e = renamed (fun i => default 0 (m !! i)) <$> evs /\ 0 <= n /\
    (forall i, is_Some (m !! i) <-> i ∈ ev_Id <$> evs) /\
    (forall i j k, m !! i = Some k -> m !! j = Some k -> i = j) /\
    (forall k, 0 <= k < n <-> exists i, m !! i = Some k)) as (e & m & n & Hf & -> & Hrest); [|exists m, n; by rewrite Hf].
  induction evs as [|v evs IH] using rev_ind.
  { exists [], ∅, 0. split_and!; try done.
    - intros i. rewrite lookup_empty. split; [by intros []|by intros ?%not_elem_of_nil].
    - intros k. split; [lia|]. intros [i Hi]. by rewrite lookup_empty in Hi. }
  destruct IH as (e & m & n & Hf & -> & Hn & Hdom & Hinj & Hran). rewrite foldl_app, Hf. cbn [foldl renumberStep].
  destruct (m !! ev_Id v) as [r|] eqn:E.
  - eexists _, m, n. split; [done|]. split_and!; try done.
    + rewrite fmap_app. cbn. unfold renamed at 3. by rewrite E.
    + intros i. rewrite Hdom, fmap_app. cbn. rewrite elem_of_snoc. split; [by left|]. intros [?| ->]; [done|].
      apply Hdom. eauto.
  - eexists _, (<[ev_Id v := n]> m), (n + 1). split; [done|]. split_and!.
    + rewrite fmap_app. cbn. f_equal; [|unfold renamed; by rewrite lookup_insert_eq].
      apply list_fmap_ext. intros j w Hw. unfold renamed. f_equal. rewrite lookup_insert_ne; [done|].
      intros Heq. assert (is_Some (m !! ev_Id v)) as [? ?]; [|congruence]. apply Hdom. rewrite Heq.
      by eapply list_elem_of_fmap_2, list_elem_of_lookup_2.
    + lia.
    + intros i. rewrite lookup_insert_is_Some, Hdom, fmap_app. cbn. rewrite elem_of_snoc.
      destruct (decide (i = ev_Id v)); naive_solver.
    + intros i j k Hi Hj. rewrite lookup_insert_Some in Hi, Hj.
      destruct Hi as [[<- <-]|[? Hi]], Hj as [[<- Hk]|[? Hj]]; [done| | |by eapply Hinj].
      * exfalso. assert (0 <= n < n); [|lia]. apply Hran. eauto.
      * subst k. exfalso. assert (0 <= n < n); [|lia]. apply Hran. eauto.
    + intros k. split.
      * intros Hk. destruct (decide (k = n)) as [->|]; [exists (ev_Id v); by rewrite lookup_insert_eq|].
        destruct (proj1 (Hran k)) as [i Hi]; [lia|]. exists i. rewrite lookup_insert_ne; [done|]. congruence.
      * intros [i Hi]. rewrite lookup_insert_Some in Hi. destruct Hi as [[_ <-]|[_ Hi]]; [lia|].
        assert (0 <= k < n); [|lia]. apply Hran. eauto.
Qed.

(** Each number has one call, and later one return, with values of the right kind. *)
Record wfEvents evs : Prop := {
  wv_uniq i j v w : evs !! i = Some v -> evs !! j = Some w -> ev_Kind v = ev_Kind w -> ev_Id v = ev_Id w -> i = j;
  wv_ret i v : evs !! i = Some v -> ev_Kind v = CallEvent ->
    exists j w, evs !! j = Some w /\ ev_Kind w = ReturnEvent /\ ev_Id w = ev_Id v /\ (i < j)%nat;
  wv_call j w : evs !! j = Some w -> ev_Kind w = ReturnEvent ->
    exists i v, evs !! i = Some v /\ ev_Kind v = CallEvent /\ ev_Id v = ev_Id w;
  wv_val i v : evs !! i = Some v ->
    match ev_Kind v with CallEvent => exists x, ev_Value v = inl x | ReturnEvent => exists y, ev_Value v = inr y end;
}.

Lemma lookup_convertEntries evs i :
  convertEntries evs !! i = (fun v => mkEntry (match ev_Kind v with ReturnEvent => returnEntry | CallEvent => callEntry end)
    (ev_Value v) (ev_Id v) (Z.of_nat i) (ev_ClientId v)) <$> evs !! i.
Proof. unfold convertEntries. by rewrite list_lookup_imap. Qed.

#[global] Instance EventKind_eq_dec : EqDecision EventKind.
Proof. solve_decision. Defined.

(** The numbers of the calls. *)
Definition callNumbers evs : list Z := ev_Id <$> filter (fun v => ev_Kind v = CallEvent) evs.

(** An order of the calls that respects the order of events that do not overlap and
    that the model allows. *)
Definition evLinearization (model : Model In Out St) evs (sigma : list Z) : Prop :=
  sigma ≡ₚ callNumbers evs /\
  (forall a b l1 l2, precedes (convertEntries evs) a b -> sigma = l1 ++ b :: l2 -> a ∈ l1) /\
  legal model (convertEntries evs) (Init model) sigma.

Lemma kind_numbers evs kd :
  (forall i j v w, evs !! i = Some v -> evs !! j = Some w -> ev_Kind v = ev_Kind w -> ev_Id v = ev_Id w -> i = j) ->
  NoDup (ev_Id <$> filter (fun v => ev_Kind v = kd) evs).
Proof.
  induction evs as [|v evs IH]; intros Hu; [constructor|]. rewrite filter_cons.
  assert (NoDup (ev_Id <$> filter (fun v => ev_Kind v = kd) evs)) as Hnd.
  { apply IH. intros i j v1 w1 H1 H2 H3 H4. specialize (Hu (S i) (S j) v1 w1 H1 H2 H3 H4). lia. }
  case_decide as Hk; [|done]. rewrite fmap_cons. apply NoDup_cons. split; [|done].
  intros (w & Hw & [Hkw Hin]%list_elem_of_filter)%list_elem_of_fmap. apply list_elem_of_lookup in Hin as [j Hj].
  specialize (Hu 0%nat (S j) v w eq_refl Hj ltac:(congruence) Hw). lia.
Qed.

Lemma length_kinds evs :
  length evs = (length (filter (fun v => ev_Kind v = CallEvent) evs) + length (filter (fun v => ev_Kind v = ReturnEvent) evs))%nat.
Proof.
  induction evs as [|v evs IH]; [done|]. rewrite !filter_cons. destruct (ev_Kind v) eqn:E; repeat case_decide; simpl; congruence || lia.
Qed.

Section numbered.
Context evs (Hevs : wfEvents evs) (r : Z -> Z) (n : Z).
Hypothesis r_inj : forall i j, i ∈ ev_Id <$> evs -> j ∈ ev_Id <$> evs -> r i = r j -> i = j.
Hypothesis r_range : forall k, 0 <= k < n <-> exists i, i ∈ ev_Id <$> evs /\ r i = k.
Hypothesis Hn : 0 <= n.

Abbreviation es' := (convertEntries (renamed r <$> evs)).

Lemma lookup_renamed i e :
  es' !! i = Some e <-> exists v, evs !! i = Some v /\ e = mkEntry
    (match ev_Kind v with ReturnEvent => returnEntry | CallEvent => callEntry end)
    (ev_Value v) (r (ev_Id v)) (Z.of_nat i) (ev_ClientId v).
Proof.
  rewrite lookup_convertEntries, list_lookup_fmap. destruct (evs !! i) as [v|]; simpl; naive_solver.
Qed.

Lemma in_numbers i v : evs !! i = Some v -> ev_Id v ∈ ev_Id <$> evs.
Proof. intros H. by eapply list_elem_of_fmap_2, list_elem_of_lookup_2. Qed.

Lemma elem_of_callNumbers k : k ∈ callNumbers evs <-> k ∈ ev_Id <$> evs.
Proof.
  unfold callNumbers. rewrite !list_elem_of_fmap. split.
  - intros (v & -> & [_ Hv]%list_elem_of_filter). eauto.
  - intros (v & -> & Hv). destruct (ev_Kind v) eqn:E; [exists v; by rewrite list_elem_of_filter|].
    apply list_elem_of_lookup in Hv as [j Hj]. destruct (wv_call _ Hevs _ _ Hj E) as (i & w & Hi & Hk & Hid).
    exists w. rewrite list_elem_of_filter. split_and!; [done..|]. by eapply list_elem_of_lookup_2.
Qed.

Lemma numbers_perm (l : list Z) : NoDup l -> (forall k, k ∈ l <-> k ∈ ev_Id <$> evs) -> r <$> l ≡ₚ seqZ 0 n.
Proof.
  intros Hnd Hl. apply NoDup_Permutation; [|apply NoDup_seqZ|].
  - apply NoDup_fmap_2_strong; [|done]. intros x y Hx Hy. apply r_inj; by apply Hl.
  - intros k. rewrite list_elem_of_fmap, elem_of_seqZ, Z.add_0_l, r_range. split.
    + intros (i & -> & Hi). exists i. by rewrite <- Hl.
    + intros (i & Hi & <-). exists i. by rewrite Hl.
Qed.

Lemma numbers_length (l : list Z) : NoDup l -> (forall k, k ∈ l <-> k ∈ ev_Id <$> evs) -> zlen l = n.
Proof.
  intros Hnd Hl. pose proof (Permutation_length (numbers_perm l Hnd Hl)) as Hlen.
  rewrite length_fmap, length_seqZ in Hlen. unfold zlen. lia.
Qed.

Lemma renamed_wf : wfEntries es' n.
Proof.
  split.
  - unfold zlen, convertEntries. rewrite length_imap, length_fmap, (length_kinds evs).
    assert (zlen (callNumbers evs) = n) as H1.
    { apply numbers_length; [apply kind_numbers, wv_uniq, Hevs|apply elem_of_callNumbers]. }
    assert (zlen (ev_Id <$> filter (fun v => ev_Kind v = ReturnEvent) evs) = n) as H2.
    { apply numbers_length; [apply kind_numbers, wv_uniq, Hevs|]. intros k. rewrite !list_elem_of_fmap. split.
      - intros (v & -> & [_ Hv]%list_elem_of_filter). eauto.
      - intros (v & -> & Hv). destruct (ev_Kind v) eqn:E; [|exists v; by rewrite list_elem_of_filter].
        apply list_elem_of_lookup in Hv as [j Hj]. destruct (wv_ret _ Hevs _ _ Hj E) as (i & w & Hi & Hk & Hid & _).
        exists w. rewrite list_elem_of_filter. split_and!; [done..|]. by eapply list_elem_of_lookup_2. }
    unfold callNumbers, zlen in *. rewrite length_fmap in *. lia.
  - intros i e (v & Hv & ->)%lookup_renamed. simpl. apply r_range. exists (ev_Id v). split; [by eapply in_numbers|done].
  - intros i j e e' (v & Hv & ->)%lookup_renamed (w & Hw & ->)%lookup_renamed Hk Hid. simpl in *.
    apply r_inj in Hid; [|by eapply in_numbers..]. eapply (wv_uniq _ Hevs); [done..| |done].
    by destruct (ev_Kind v), (ev_Kind w).
  - intros i e (v & Hv & ->)%lookup_renamed Hk. simpl in *. destruct (ev_Kind v) eqn:E; [|done].
    destruct (wv_ret _ Hevs _ _ Hv E) as (j & w & Hj & Hkw & Hid & Hij).
    exists j. eexists. split; [apply lookup_renamed; eauto|]. simpl. by rewrite Hkw, Hid.
  - intros k Hk. apply r_range in Hk as (i & Hi & <-). apply elem_of_callNumbers in Hi.
    apply list_elem_of_fmap in Hi as (v & -> & [Hkv Hin]%list_elem_of_filter). apply list_elem_of_lookup in Hin as [j Hj].
    exists j. eexists. split; [apply lookup_renamed; eauto|]. simpl. by rewrite Hkv.
  - intros i e (v & Hv & ->)%lookup_renamed. simpl. pose proof (wv_val _ Hevs _ _ Hv). by destruct (ev_Kind v).
Qed.

Abbreviation es0 := (convertEntries evs).

Lemma callAt_renamed k' i x : callAt es' k' i x <-> exists k, k ∈ ev_Id <$> evs /\ k' = r k /\ callAt es0 k i x.
Proof.
  unfold callAt. setoid_rewrite lookup_renamed. setoid_rewrite lookup_convertEntries. split.
  - intros (e & (v & Hv & ->) & H1 & H2 & H3). exists (ev_Id v). split_and!; [by eapply in_numbers|by symmetry|].
    rewrite Hv. eexists. split; [reflexivity|]. by simpl in *.
  - intros (k & _ & -> & e & He & H1 & H2 & H3). apply fmap_Some in He as (v & Hv & ->). eexists.
    split; [by exists v|]. simpl in *. by subst k.
Qed.

Lemma returnAt_renamed k' i x : returnAt es' k' i x <-> exists k, k ∈ ev_Id <$> evs /\ k' = r k /\ returnAt es0 k i x.
Proof.
  unfold returnAt. setoid_rewrite lookup_renamed. setoid_rewrite lookup_convertEntries. split.
  - intros (e & (v & Hv & ->) & H1 & H2 & H3). exists (ev_Id v). split_and!; [by eapply in_numbers|by symmetry|].
    rewrite Hv. eexists. split; [reflexivity|]. by simpl in *.
  - intros (k & _ & -> & e & He & H1 & H2 & H3). apply fmap_Some in He as (v & Hv & ->). eexists.
    split; [by exists v|]. simpl in *. by subst k.
Qed.

Lemma precedes_renamed a' b' :
  precedes es' a' b' <-> exists a b, a ∈ ev_Id <$> evs /\ b ∈ ev_Id <$> evs /\ a' = r a /\ b' = r b /\ precedes es0 a b.
Proof.
  split.
  - intros (j & y & i & x & (a & Ha & -> & Hra)%returnAt_renamed & (b & Hb & -> & Hcb)%callAt_renamed & Hji).
    exists a, b. split_and!; try done. by exists j, y, i, x.
  - intros (a & b & Ha & Hb & -> & -> & j & y & i & x & Hra & Hcb & Hji). exists j, y, i, x.
    split_and!; [|by apply callAt_renamed; exists b|done]. apply returnAt_renamed. by exists a.
Qed.

Lemma legal_renamed (model : Model In Out St) s sigma :
  (forall k, k ∈ sigma -> k ∈ ev_Id <$> evs) -> legal model es' s (r <$> sigma) <-> legal model es0 s sigma.
Proof.
  revert s. induction sigma as [|k sigma IH]; intros s Hk; [done|].
  assert (k ∈ ev_Id <$> evs) as Hkin by (apply Hk; by left).
  assert (forall k', k' ∈ sigma -> k' ∈ ev_Id <$> evs) as Hk' by (intros; apply Hk; by right).
  cbn [legal fmap list_fmap]. split; intros (i & x & j & y & s' & Hc & Hr & Hs & Hl); exists i, x, j, y, s'.
  - apply callAt_renamed in Hc as (k1 & H1 & E1 & Hc). apply returnAt_renamed in Hr as (k2 & H2 & E2 & Hr).
    apply r_inj in E1; [|done..]. apply r_inj in E2; [|done..]. subst k1 k2. split_and!; [done..|]. by apply IH.
  - split_and!; [apply callAt_renamed; eauto|apply returnAt_renamed; eauto|done|]. by apply IH.
Qed.

Lemma numbers_in sigma : sigma ≡ₚ callNumbers evs -> forall k, k ∈ sigma -> k ∈ ev_Id <$> evs.
Proof. intros Hp k. by rewrite Hp, elem_of_callNumbers. Qed.

Lemma precedes_in a b : precedes es0 a b -> a ∈ ev_Id <$> evs /\ b ∈ ev_Id <$> evs.
Proof.
  intros (j & y & i & x & (e & He & _ & <- & _) & (e' & He' & _ & <- & _) & _). rewrite lookup_convertEntries in He, He'.
  apply fmap_Some in He as (v & Hv & ->). apply fmap_Some in He' as (w & Hw & ->). simpl. eauto using in_numbers.
Qed.

Lemma linearization_renamed (model : Model In Out St) :
  (exists ks, linearization model es' n ks) <-> exists sigma, evLinearization model evs sigma.
Proof.
  assert (r <$> callNumbers evs ≡ₚ seqZ 0 n) as Hall.
  { apply numbers_perm; [apply kind_numbers, wv_uniq, Hevs|apply elem_of_callNumbers]. }
  assert (forall sigma, sigma ≡ₚ callNumbers evs ->
    (forall a b l1 l2, precedes es' a b -> r <$> sigma = l1 ++ b :: l2 -> a ∈ l1) <->
    (forall a b l1 l2, precedes es0 a b -> sigma = l1 ++ b :: l2 -> a ∈ l1)) as Hpre.
  { intros sigma Hp. split.
    - intros H a b l1 l2 Hab ->. destruct (precedes_in a b Hab) as [Ha Hb].
      assert (r a ∈ r <$> l1) as (a2 & E & Ha2)%list_elem_of_fmap.
      { apply (H (r a) (r b) _ (r <$> l2)); [apply precedes_renamed; eauto 8|by rewrite fmap_app]. }
      apply r_inj in E; [by subst|done|]. apply (numbers_in _ Hp). apply elem_of_app. by left.
    - intros H a' b' l1' l2' (a & b & Ha & Hb & -> & -> & Hab)%precedes_renamed Heq.
      apply fmap_app_inv in Heq as (l1 & l2 & -> & Heq & ->). symmetry in Heq. apply fmap_cons_inv in Heq as (b2 & l3 & E & -> & ->).
      apply list_elem_of_fmap_2, (H a b l1 l3 Hab). f_equal. f_equal. apply r_inj; [|done|by symmetry].
      apply (numbers_in _ Hp). rewrite elem_of_app, elem_of_cons. tauto. }
  split.
  - intros (ks & Hp & H1 & H2). rewrite <- Hall in Hp. apply Permutation_map_inv in Hp as (sigma & -> & Hp).
    symmetry in Hp. exists sigma. split_and!; [done|by apply Hpre|]. by apply (legal_renamed model _ _ (numbers_in _ Hp)).
  - intros (sigma & Hp & H1 & H2). exists (r <$> sigma). split_and!; [by rewrite Hp|by apply Hpre|].
    by apply (legal_renamed model _ _ (numbers_in _ Hp)).
Qed.
End numbered.

(** C32. A history of events is checked as it stands, whatever numbers its operations have:
    [CheckEvents] returns, given enough fuel, and says yes exactly if the calls can be
    ordered. *)
Theorem events_decided `{!EqDecision St} (model : Model In Out St) evs :
  modelOk model -> PartitionEvent model = None -> wfEvents evs ->
  exists fuel b, (forall fuel', (fuel <= fuel')%nat -> CheckEvents model fuel' evs [Some 0%nat] = Some b) /\
    (b = true <-> exists sigma, evLinearization model evs sigma).
Proof.
  intros Hm Hpart Hevs. destruct (filled_equal model Hm) as (equal & He & Hok).
  destruct (renumber_spec evs) as (m & n & Hr & Hn & Hdom & Hinj & Hran).
  set (r := fun i => default 0 (m !! i)) in Hr.
  assert (forall i j, i ∈ ev_Id <$> evs -> j ∈ ev_Id <$> evs -> r i = r j -> i = j) as Hri.
  { intros i j [x Hx]%Hdom [y Hy]%Hdom. unfold r. rewrite Hx, Hy. simpl. intros ->. by eapply Hinj. }
  assert (forall k, 0 <= k < n <-> exists i, i ∈ ev_Id <$> evs /\ r i = k) as Hrr.
  { intros k. rewrite Hran. split.
    - intros [i Hi]. exists i. rewrite <- Hdom. unfold r. rewrite Hi. eauto.
    - intros (i & [x Hx]%Hdom & <-). exists i. unfold r. by rewrite Hx. }
  destruct (checkSingle_decides (fillDefault model) equal _ _ false (renamed_wf evs Hevs r n Hri Hrr Hn) He Hok)
    as (fuel & b & longest & Hf & Hb).
  exists fuel, b. split.
  - intros fuel' Hfu. unfold CheckEvents, checkEvents. cbn [fillDefault PartitionEvent mbind option_bind].
    change (mkModel _ _ _ _ _) with (fillDefault model). rewrite Hpart.
    change (default NoPartitionEvent None evs) with [evs]. cbn [fmap list_fmap]. unfold checkParallel.
    cbn [mapM lookup list_lookup mbind option_bind]. rewrite Hr, Hf by done. cbn. by destruct b.
  - rewrite <- (linearization_renamed evs Hevs r n Hri Hrr (fillDefault model)). destruct b; split; try done.
    + intros _. destruct Hb as (ks & Hks & _). by exists ks.
    + intros [ks Hks]. by destruct (Hb ks).
Qed.
End events.

(** A call and its return, numbered 7. *)
Definition demoEvents : list (Event KvInput KvOutput) :=
  [mkEvent 0 CallEvent (inl (mkKvInput 0 "x" "")) 7; mkEvent 0 ReturnEvent (inr (mkKvOutput "")) 7]%string.

Lemma demoEvents_wf : wfEvents demoEvents.
Proof.
  split.
  - intros [|[|]] [|[|]] v w; simpl; naive_solver.
  - intros [|[|]] v [= <-] Hk; [|done]. exists 1%nat, (mkEvent 0 ReturnEvent (inr (mkKvOutput "")) 7).
    split_and!; (done || lia).
  - intros [|[|]] w [= <-] Hk; [done|]. by exists 0%nat, (mkEvent 0 CallEvent (inl (mkKvInput 0 "x" "")) 7).
  - intros [|[|]] v [= <-]; simpl; eauto.
Qed.

Lemma events_decided_witness :
  exists fuel b, (forall fuel', (fuel <= fuel')%nat -> CheckEvents (KvModel elements) fuel' demoEvents [Some 0%nat] = Some b) /\
    (b = true <-> exists sigma, evLinearization (KvModel elements) demoEvents sigma).
Proof.
  apply (events_decided (KvModel elements) demoEvents).
  - intros equal Heq. discriminate.
  - reflexivity.
  - exact demoEvents_wf.
Defined.
