(* ===== verification/LabRpc.v ===== *)
(** * The simulated network (labrpc/labrpc.go)

    Client ends, the network's tables, servers with their services, and what happens to
    a request between [Call] and its result.  Values are encoded with gob, a parameter;
    [None] is a panic or [log.Fatalf].  Random numbers are arguments; delays only let
    other steps come first. *)

From S2P Require Import Prelude.

(** ** Values *)

(** [encoding/gob] with [reflect]: the type of a value, its encoding ([None]: the encoder
    reports an error), decoding at a type, and the zero value of a type.  Values that gob
    does not tell apart (in unexported fields, or an empty slice and nil) are one value. *)
Class Gob (V Ty : Type) := {
  typeOf : V -> Ty;
  gobEncode : V -> option bytes;
  gobDecode : Ty -> bytes -> option V;
  zeroValue : Ty -> V;
}.

Class GobOk V Ty `{Gob V Ty} : Prop := {
  gob_roundtrip v b : gobEncode v = Some b -> gobDecode (typeOf v) b = Some v;
}.

Section labrpc.
Context {Name V Ty App : Type} `{Countable Name} `{Gob V Ty}.

(** ** Services and servers *)

(** What [reflect] tells of a method: its name, whether it is exported, its numbers of
    parameters and results, whether the last parameter is a pointer, the type it points
    to, and what calling it does to the receiver, as one step; a handler that waits for other
    steps meanwhile is not represented.  [None]: the call panics or does not return. *)
Record ReflectMethod := mkReflectMethod {
  m_Name : string; m_PkgPath : string; m_NumIn : Z; m_In2Ptr : bool; m_NumOut : Z;
  m_replyType : Ty; m_Func : V -> App -> option (App * V);
}.

Record Service := mkService { svc_name : string; svc_methods : gmap string ReflectMethod }.

Definition suitable (m : ReflectMethod) : bool :=
  negb (negb (bool_decide (m_PkgPath m = EmptyString)) || negb (m_NumIn m =? 3) ||
        negb (m_In2Ptr m) || negb (m_NumOut m =? 0)).

(** [MakeService] on a receiver of type [name] with the given methods. *)
Definition MakeService (name : string) (methods : list ReflectMethod) : Service :=
  mkService name (foldl (fun ms m => if suitable m then <[m_Name m := m]> ms else ms) ∅ methods).

Record Server := mkServer { services : gmap string Service; srv_count : Z }.

Definition MakeServer : Server := mkServer ∅ 0.

Definition AddService (svc : Service) (rs : Server) : Server :=
  mkServer (<[svc_name svc := svc]> (services rs)) (srv_count rs).

(** ** Messages *)

Record reqMsg := mkReq { endname : Name; svcMeth : string; argsType : Ty; args : bytes }.
Record replyMsg := mkReply { ok : bool; reply : bytes }.

Definition failure : replyMsg := mkReply false [].

(** The request [Call] sends. *)
Definition Call_request (e : Name) (sm : string) (a : V) : option reqMsg :=
  b ← gobEncode a; Some (mkReq e sm (typeOf a) b).

(** What [Call] does with the reply, for a reply variable of type [ty]: the decoded reply,
    or false. *)
Definition Call_result (ty : Ty) (rep : replyMsg) : option (option V) :=
  if ok rep then v ← gobDecode ty (reply rep); Some (Some v) else Some None.

Definition Service_dispatch (svc : Service) (methname : string) (req : reqMsg) (app : App) : option (App * replyMsg) :=
  method ← svc_methods svc !! methname;
  let a := default (zeroValue (argsType req)) (gobDecode (argsType req) (args req)) in
  '(app, r) ← m_Func method a app;
  Some (app, mkReply true (default [] (gobEncode r))).

(** [strings.LastIndex(s, ".")]: where the last dot is. *)
Fixpoint lastDot (s : string) : option nat :=
  match s with
  | EmptyString => None
  | String c s => match lastDot s with
                  | Some i => Some (S i)
                  | None => if bool_decide (c = Ascii.ascii_of_nat 46) then Some O else None
                  end
  end.

Definition splitMethod (s : string) : option (string * string) :=
  dot ← lastDot s; Some (String.substring 0 dot s, String.substring (S dot) (String.length s - S dot) s).

Definition Server_dispatch (rs : Server) (req : reqMsg) (app : App) : option (Server * App * replyMsg) :=
  let rs := mkServer (services rs) (srv_count rs + 1) in
  '(serviceName, methodName) ← splitMethod (svcMeth req);
  service ← services rs !! serviceName;
  '(app, rep) ← Service_dispatch service methodName req app;
  Some (rs, app, rep).

(** The method a request calls, with what it is given and what it returns. *)
Definition handlerRun (rs : Server) (req : reqMsg) (app : App) : option (V * V) :=
  '(serviceName, methodName) ← splitMethod (svcMeth req);
  service ← services rs !! serviceName;
  method ← svc_methods service !! methodName;
  let a := default (zeroValue (argsType req)) (gobDecode (argsType req) (args req)) in
  '(_, r) ← m_Func method a app;
  Some (a, r).

(** ** The network *)

(** Servers are pointers into [objs]; [None] is a nil entry. *)
Record Network := mkNetwork {
  reliable : bool; longDelays : bool; longReordering : bool;
  ends : gset Name; enabled : gmap Name bool; servers : gmap Name (option nat);
  connections : gmap Name (option Name);
  done : bool; count : Z; nbytes : Z;
}.

Definition MakeNetwork : Network := mkNetwork true false false ∅ ∅ ∅ ∅ false 0 0.

Implicit Types (rn : Network).

Definition Cleanup rn : option Network :=
  if done rn then None
  else Some (mkNetwork (reliable rn) (longDelays rn) (longReordering rn) (ends rn) (enabled rn) (servers rn)
               (connections rn) true (count rn) (nbytes rn)).

Definition Reliable (yes : bool) rn : Network :=
  mkNetwork yes (longDelays rn) (longReordering rn) (ends rn) (enabled rn) (servers rn) (connections rn)
    (done rn) (count rn) (nbytes rn).
Definition LongReordering (yes : bool) rn : Network :=
  mkNetwork (reliable rn) (longDelays rn) yes (ends rn) (enabled rn) (servers rn) (connections rn)
    (done rn) (count rn) (nbytes rn).
Definition LongDelays (yes : bool) rn : Network :=
  mkNetwork (reliable rn) yes (longReordering rn) (ends rn) (enabled rn) (servers rn) (connections rn)
    (done rn) (count rn) (nbytes rn).

Definition readEndnameInfo (e : Name) rn : bool * option Name * option nat * bool * bool :=
  let servername := go_map_get None (connections rn) e in
  let server := n ← servername; go_map_get None (servers rn) n in
  (go_map_get false (enabled rn) e, servername, server, reliable rn, longReordering rn).

Definition isServerDead (e servername : Name) (server : nat) rn : bool :=
  negb (go_map_get false (enabled rn) e) || negb (bool_decide (go_map_get None (servers rn) servername = Some server)).

Definition MakeEnd (e : Name) rn : option Network :=
  if bool_decide (e ∈ ends rn) then None
  else Some (mkNetwork (reliable rn) (longDelays rn) (longReordering rn) ({[e]} ∪ ends rn) (<[e := false]> (enabled rn))
               (servers rn) (<[e := None]> (connections rn)) (done rn) (count rn) (nbytes rn)).

Definition DeleteEnd (e : Name) rn : option Network :=
  if bool_decide (e ∈ ends rn) then
    Some (mkNetwork (reliable rn) (longDelays rn) (longReordering rn) (ends rn ∖ {[e]}) (delete e (enabled rn))
            (servers rn) (delete e (connections rn)) (done rn) (count rn) (nbytes rn))
  else None.

Definition setServers (s : gmap Name (option nat)) rn : Network :=
  mkNetwork (reliable rn) (longDelays rn) (longReordering rn) (ends rn) (enabled rn) s (connections rn)
    (done rn) (count rn) (nbytes rn).

Definition AddServer (n : Name) (rs : nat) rn : Network := setServers (<[n := Some rs]> (servers rn)) rn.
Definition DeleteServer (n : Name) rn : Network := setServers (<[n := None]> (servers rn)) rn.

Definition Connect (e n : Name) rn : Network :=
  mkNetwork (reliable rn) (longDelays rn) (longReordering rn) (ends rn) (enabled rn) (servers rn)
    (<[e := Some n]> (connections rn)) (done rn) (count rn) (nbytes rn).

Definition Enable (e : Name) (yes : bool) rn : Network :=
  mkNetwork (reliable rn) (longDelays rn) (longReordering rn) (ends rn) (<[e := yes]> (enabled rn)) (servers rn)
    (connections rn) (done rn) (count rn) (nbytes rn).

(** The counters are an [int32] and an [int64]. *)
Definition addCount rn : Network :=
  mkNetwork (reliable rn) (longDelays rn) (longReordering rn) (ends rn) (enabled rn) (servers rn)
    (connections rn) (done rn) (wrap_signed 32 (count rn + 1)) (nbytes rn).
Definition addBytes (n : Z) rn : Network :=
  mkNetwork (reliable rn) (longDelays rn) (longReordering rn) (ends rn) (enabled rn) (servers rn)
    (connections rn) (done rn) (count rn) (wrap_signed 64 (nbytes rn + n)).

Definition GetCount (objs : gmap nat Server) (n : Name) rn : option Z :=
  p ← go_map_get None (servers rn) n; rs ← objs !! p; Some (srv_count rs).
Definition GetTotalCount rn : Z := count rn.
Definition GetTotalBytes rn : Z := nbytes rn.

(** ** What happens to a request *)

(** The receiving goroutine of [MakeNetwork]. *)
Definition receiveReq (req : reqMsg) rn : Network := addBytes (zlen (args req)) (addCount rn).

(** [processReq] up to the call of the handler: no reply is simulated, the request is
    dropped, or the handler is started on a server.  [roll] is [rand.Int()]. *)
Inductive Start := NoReply | Dropped | Execute (servername : Name) (server : nat) (rel longre : bool).

Definition processReq_start (roll : Z) (req : reqMsg) rn : Start :=
  match readEndnameInfo (endname req) rn with
  | (true, Some sn, Some server, rel, longre) =>
      if negb rel && (Z.rem roll 1000 <? 100) then Dropped else Execute sn server rel longre
  | _ => NoReply
  end.

(** The loop that waits for the handler, after 100 ms: stop waiting? *)
Definition processReq_timer (req : reqMsg) (sn : Name) (server : nat) rn : bool :=
  isServerDead (endname req) sn server rn.

(** After the loop: the reply to send ([None] if the loop gave up waiting for one), and
    whether it is delayed.  [roll2] is [rand.Intn(900)]. *)
Definition processReq_finish (roll1 roll2 : Z) (req : reqMsg) (sn : Name) (server : nat) (rel longre : bool)
    (rep : option replyMsg) rn : replyMsg * bool :=
  match rep with
  | Some rep =>
      if isServerDead (endname req) sn server rn then (failure, false)
      else if negb rel && (Z.rem roll1 1000 <? 100) then (failure, false)
      else if longre && (roll2 <? 600) then (rep, true)
      else (rep, false)
  | None => (failure, false)
  end.

(** Sending the reply; the bytes of a handler's reply are counted. *)
Definition sendReply (rep : replyMsg) rn : Network :=
  if ok rep then addBytes (zlen (reply rep)) rn else rn.

(** ** The system *)

(** Where a request is: on its way to the network, received, waiting for its handler, or
    about to be answered. *)
Inductive Phase :=
| Sent | Received | Waiting (sn : Name) (server : nat) (rel longre : bool) | Replying (rep : replyMsg) | Answered.

(** The goroutine that runs the handler: not started, running on a server, or done. *)
Inductive Handler := Idle | Running (server : nat) | Returned (rep : replyMsg).

(** One call: its arguments, the type of its reply variable, its request, and the result
    once there is one ([Some None] is false). *)
Record CallSt := mkCall {
  c_args : V; c_replyType : Ty; c_req : reqMsg; c_phase : Phase; c_handler : Handler; c_result : option (option V);
}.

Record System := mkSystem {
  net : Network; objs : gmap nat Server; app : App; calls : list CallSt;
  execs : list (nat * (V * V)); (* the handler executions so far: which call, its arguments and reply *)
}.

Definition set_phase (p : Phase) (c : CallSt) : CallSt :=
  mkCall (c_args c) (c_replyType c) (c_req c) p (c_handler c) (c_result c).
Definition set_handler (h : Handler) (c : CallSt) : CallSt :=
  mkCall (c_args c) (c_replyType c) (c_req c) (c_phase c) h (c_result c).
Definition set_result (r : option V) (c : CallSt) : CallSt :=
  mkCall (c_args c) (c_replyType c) (c_req c) Answered (c_handler c) (Some r).

Definition setCall (k : nat) (c : CallSt) (w : System) : System :=
  mkSystem (net w) (objs w) (app w) (<[k := c]> (calls w)) (execs w).
Definition setNet (rn : Network) (w : System) : System :=
  mkSystem rn (objs w) (app w) (calls w) (execs w).

(** Changes of the network's tables by the test harness. *)
Inductive Admin :=
| ACleanup | AReliable (yes : bool) | ALongReordering (yes : bool) | ALongDelays (yes : bool)
| AMakeEnd (e : Name) | ADeleteEnd (e : Name) | AAddServer (n : Name) (rs : nat) | ADeleteServer (n : Name)
| AConnect (e n : Name) | AEnable (e : Name) (yes : bool).

Definition admin (a : Admin) rn : option Network :=
  match a with
  | ACleanup => Cleanup rn
  | AReliable yes => Some (Reliable yes rn)
  | ALongReordering yes => Some (LongReordering yes rn)
  | ALongDelays yes => Some (LongDelays yes rn)
  | AMakeEnd e => MakeEnd e rn
  | ADeleteEnd e => DeleteEnd e rn
  | AAddServer n rs => Some (AddServer n rs rn)
  | ADeleteServer n => Some (DeleteServer n rn)
  | AConnect e n => Some (Connect e n rn)
  | AEnable e yes => Some (Enable e yes rn)
  end.

(** The steps, labelled by the table changes. *)
Inductive rstep (w : System) : option Admin -> System -> Prop :=
| r_call e sm a ty req : (* [Call] *)
    Call_request e sm a = Some req ->
    rstep w None (mkSystem (net w) (objs w) (app w) (calls w ++ [mkCall a ty req Sent Idle None]) (execs w))
| r_cleaned k c : (* the network is gone *)
    calls w !! k = Some c -> c_phase c = Sent -> done (net w) = true ->
    rstep w None (setCall k (set_result None c) w)
| r_receive k c :
    calls w !! k = Some c -> c_phase c = Sent ->
    rstep w None (w |> setCall k (set_phase Received c) |> setNet (receiveReq (c_req c) (net w)))
| r_start k c roll :
    calls w !! k = Some c -> c_phase c = Received ->
    rstep w None (setCall k (match processReq_start roll (c_req c) (net w) with
      | Execute sn server rel longre => c |> set_phase (Waiting sn server rel longre) |> set_handler (Running server)
      | _ => set_phase (Replying failure) c
      end) w)
| r_exec k c server rs rs' a' rep x : (* the handler runs on the server *)
    calls w !! k = Some c -> c_handler c = Running server -> objs w !! server = Some rs ->
    Server_dispatch rs (c_req c) (app w) = Some (rs', a', rep) -> handlerRun rs (c_req c) (app w) = Some x ->
    rstep w None (mkSystem (net w) (<[server := rs']> (objs w)) a' (<[k := set_handler (Returned rep) c]> (calls w))
                    (execs w ++ [(k, x)]))
| r_return k c sn server rel longre rep roll1 roll2 : (* the reply is taken from the handler *)
    calls w !! k = Some c -> c_phase c = Waiting sn server rel longre -> c_handler c = Returned rep ->
    rstep w None (setCall k (set_phase
      (Replying (processReq_finish roll1 roll2 (c_req c) sn server rel longre (Some rep) (net w)).1) c) w)
| r_timer k c sn server rel longre roll1 roll2 : (* the server is found dead while waiting *)
    calls w !! k = Some c -> c_phase c = Waiting sn server rel longre ->
    processReq_timer (c_req c) sn server (net w) = true ->
    rstep w None (setCall k (set_phase
      (Replying (processReq_finish roll1 roll2 (c_req c) sn server rel longre None (net w)).1) c) w)
| r_reply k c rep r :
    calls w !! k = Some c -> c_phase c = Replying rep -> Call_result (c_replyType c) rep = Some r ->
    rstep w None (w |> setCall k (set_result r c) |> setNet (sendReply rep (net w)))
| r_admin a rn :
    admin a (net w) = Some rn -> rstep w (Some a) (setNet rn w).

Definition anyStep (w w' : System) : Prop := exists l, rstep w l w'.

Definition initial (objs : gmap nat Server) (app : App) : System := mkSystem MakeNetwork objs app [] [].
End labrpc.
