(* ===== verification/LabRpcProofs.v ===== *)
(** * The network's promises

    A call that returns true was executed, once, and got the reply of its own execution;
    no request is executed twice; a server that was deleted answers no call that waits
    for it; and on a reliable network a call to a connected server whose handler returns
    gets the reply of that handler. *)

From S2P Require Import Prelude LabRpc.

Section rpc.
Context {Name V Ty App : Type} `{Countable Name} `{GobOk V Ty}.
Implicit Types (w : @System Name V Ty App _ _) (c : @CallSt Name V Ty).

Lemma dispatch_run (rs : @Server V Ty App) (req : @reqMsg Name Ty) (a : App) rs' a' rep :
  Server_dispatch rs req a = Some (rs', a', rep) ->
  exists x, handlerRun rs req a = Some x /\ rep = mkReply true (default [] (gobEncode x.2)) /\
    x.1 = default (zeroValue (argsType req)) (gobDecode (argsType req) (args req)) /\
    services rs' = services rs /\ srv_count rs' = srv_count rs + 1.
Proof.
  unfold Server_dispatch, handlerRun. destruct (splitMethod (svcMeth req)) as [[sn mn]|]; [|done]. cbn [mbind option_bind].
  cbn [services]. destruct (services rs !! sn) as [svc|]; [|done]. cbn [mbind option_bind]. unfold Service_dispatch.
  destruct (svc_methods svc !! mn) as [m|]; [|done]. cbn [mbind option_bind].
  destruct (m_Func m _ a) as [[a2 r]|]; [|done]. cbn. intros [= <- <- <-]. eexists. split; [done|]. done.
Qed.

Lemma run_dispatch (rs : @Server V Ty App) (req : @reqMsg Name Ty) (a : App) x :
  handlerRun rs req a = Some x -> exists rs' a' rep, Server_dispatch rs req a = Some (rs', a', rep).
Proof.
  unfold Server_dispatch, handlerRun. destruct (splitMethod (svcMeth req)) as [[sn mn]|]; [|done]. cbn [mbind option_bind].
  cbn [services]. destruct (services rs !! sn) as [svc|]; [|done]. cbn [mbind option_bind]. unfold Service_dispatch.
  destruct (svc_methods svc !! mn) as [m|]; [|done]. cbn [mbind option_bind].
  destruct (m_Func m _ a) as [[a2 r]|]; [|done]. cbn. eauto.
Qed.

(** The executions of call [k]. *)
Definition execsOf (k : nat) (l : list (nat * (V * V))) : list (V * V) := (filter (fun x => x.1 = k) l).*2.

Lemma execsOf_snoc k l j x : execsOf k (l ++ [(j, x)]) = execsOf k l ++ (if decide (j = k) then [x] else []).
Proof. unfold execsOf. rewrite filter_app, fmap_app, filter_cons. simpl. by case_decide. Qed.

(** What holds of a call at any time. *)
Record call_ok (l : list (nat * (V * V))) (k : nat) c : Prop := {
  co_args : exists b, gobEncode (c_args c) = Some b /\ args (c_req c) = b /\ argsType (c_req c) = typeOf (c_args c);
  co_execs : match c_handler c with
             | Returned rep => exists r, execsOf k l = [(c_args c, r)] /\ rep = mkReply true (default [] (gobEncode r))
             | _ => execsOf k l = []
             end;
  co_phase : match c_phase c with
             | Sent | Received => c_handler c = Idle
             | Waiting _ server _ _ => c_handler c <> Idle
             | Replying rep => ok rep = true -> c_handler c = Returned rep
             | Answered => True
             end;
  co_result : forall v, c_result c = Some (Some v) ->
    exists rep, c_handler c = Returned rep /\ gobDecode (c_replyType c) (reply rep) = Some v;
  co_answered : c_result c <> None -> c_phase c = Answered;
}.

Record rinv w : Prop := {
  ri_calls k c : calls w !! k = Some c -> call_ok (execs w) k c;
  ri_execs k x : (k, x) ∈ execs w -> (k < length (calls w))%nat;
}.

Lemma execsOf_nil k (l : list (nat * (V * V))) : (forall x, (k, x) ∉ l) -> execsOf k l = [].
Proof.
  intros Hl. unfold execsOf. induction l as [|[j x] l IH]; [done|]. rewrite filter_cons. simpl. case_decide.
  - subst. destruct (Hl x). by left.
  - apply IH. intros y Hy. apply (Hl y). by right.
Qed.

(** A step that changes one call and no execution. *)
Lemma rinv_setCall w k c c' :
  rinv w -> calls w !! k = Some c -> (call_ok (execs w) k c -> call_ok (execs w) k c') -> rinv (setCall k c' w).
Proof.
  intros [Hc He] Hk Hok. split; simpl.
  - intros j d Hd. apply list_lookup_insert_Some in Hd as [(<- & <- & _)|[_ Hd]]; [|by apply Hc]. by apply Hok, Hc.
  - intros j x Hx. rewrite length_insert. by eapply He.
Qed.

Lemma rinv_setNet w rn : rinv w -> rinv (setNet rn w).
Proof. by intros [Hc He]; split. Qed.

Lemma rinv_exec w k c server rs rs' a' rep x :
  rinv w -> calls w !! k = Some c -> c_handler c = Running server ->
  Server_dispatch rs (c_req c) (app w) = Some (rs', a', rep) -> handlerRun rs (c_req c) (app w) = Some x ->
  rinv (mkSystem (net w) (<[server := rs']> (objs w)) a' (<[k := set_handler (Returned rep) c]> (calls w)) (execs w ++ [(k, x)])).
Proof.
  intros [Hc He] Hk Hh Hdis Hrun. destruct (dispatch_run _ _ _ _ _ _ Hdis) as (x' & Hx' & -> & Hx1 & _ & _).
  assert (x' = x) as -> by congruence. clear Hx'.
  pose proof (Hc k c Hk) as [(b & Hb & Ha & Hty) H2 H3 H4 H4']. rewrite Hh in *. split; simpl.
  - intros j d Hd. apply list_lookup_insert_Some in Hd as [(<- & <- & _)|[Hne Hd]].
    + split; simpl.
      * by exists b.
      * exists x.2. rewrite execsOf_snoc, H2, decide_True by done. split; [|done]. destruct x as [xa xr]. simpl in *.
        rewrite Ha, Hty, (gob_roundtrip _ _ Hb) in Hx1. simpl in Hx1. by subst xa.
      * destruct (c_phase c) as [| |?? ? ?|rep|]; try done. intros Hok%H3. done.
      * intros v Hv. by destruct (H4 v Hv) as (rep & ? & _).
      * done.
    + destruct (Hc j d Hd) as [H5 H6 H7 H8 H9]. split; [done| |done..]. rewrite execsOf_snoc, decide_False, app_nil_r by done. done.
  - intros j y Hy. rewrite length_insert. apply elem_of_snoc in Hy as [Hy|[= -> ->]]; [by eapply He|]. by eapply lookup_lt_Some.
Qed.

(** A call in another phase has no result. *)
Ltac not_answered :=
  intros Hn; match goal with Ha : _ -> c_phase _ = Answered |- _ => specialize (Ha Hn); congruence end.

Lemma rinv_step w l w' : rinv w -> rstep w l w' -> rinv w'.
Proof.
  intros Hw Hs. inversion Hs as [e sm a ty req Hreq|k c Hk Hp Hd|k c Hk Hp|k c roll Hk Hp
    |k c server rs rs' a' rep x Hk Hh Ho Hdis Hrun|k c sn server rel longre rep r1 r2 Hk Hp Hh
    |k c sn server rel longre r1 r2 Hk Hp Ht|k c rep r Hk Hp Hr|a rn Ha]; subst; clear Hs.
  - destruct Hw as [Hc He]. split; simpl.
    + intros k c Hk. apply lookup_snoc_Some in Hk as [[_ Hk]|[-> <-]]; [by apply Hc|].
      unfold Call_request in Hreq. destruct (gobEncode a) as [b|] eqn:Eb; [|done]. cbn in Hreq. simplify_eq.
      split; simpl; [by exists b| |done..]. apply execsOf_nil. intros x Hx%He. lia.
    + intros k x Hx%He. rewrite length_app. simpl. lia.
  - eapply rinv_setCall; [done..|]. intros [H5 H6 H7 H8 H9]. by split.
  - eapply rinv_setNet, rinv_setCall; [done..|]. intros [H5 H6 H7 H8 H9]. rewrite Hp in H7. split; simpl; try done; not_answered.
  - eapply rinv_setCall; [done..|]. intros [H5 H6 H7 H8 H9]. rewrite Hp in H7.
    destruct (processReq_start roll (c_req c) (net w)); split; simpl; try done; rewrite ?H7 in *; try (done || not_answered).
    intros v Hv. by destruct (H8 v Hv) as (rep & ? & _).
  - by eapply rinv_exec.
  - eapply rinv_setCall; [done..|]. intros [H5 H6 H7 H8 H9]. split; simpl; try (done || not_answered). unfold failure.
    repeat case_match; simpl; done.
  - eapply rinv_setCall; [done..|]. intros [H5 H6 H7 H8 H9]. split; simpl; try done; not_answered.
  - eapply rinv_setNet, rinv_setCall; [done..|]. intros [H5 H6 H7 H8 H9]. rewrite Hp in H7. split; simpl; try done.
    intros v [= ->]. unfold Call_result in Hr. destruct (ok rep) eqn:Eo; [|done]. exists rep. split; [by apply H7|].
    by destruct (gobDecode (c_replyType c) (reply rep)); simplify_eq/=.
  - by apply rinv_setNet.
Qed.

Abbreviation start ob a := (initial ob a : @System Name V Ty App _ _).

Lemma rinv_reachable ob a w : rtc anyStep (start ob a) w -> rinv w.
Proof.
  assert (rinv (start ob a)) as H0i.
  { split; simpl; [|by intros k x ?%not_elem_of_nil]. intros k c Hk. by rewrite lookup_nil in Hk. }
  revert H0i. generalize (start ob a). intros w0 H0i Hr. induction Hr as [w|w w1 w2 [l Hs] _ IH]; [done|].
  apply IH. by eapply rinv_step.
Qed.

(** C17. A call that returned true was executed exactly once, with the arguments that were
    passed, and the reply it delivered is that execution's; no call is executed twice,
    whatever becomes of it. *)
Theorem rpc_executed_once ob a w k c :
  rtc anyStep (start ob a) w -> calls w !! k = Some c ->
  (length (execsOf k (execs w)) <= 1)%nat /\
  forall v, c_result c = Some (Some v) -> exists r, execsOf k (execs w) = [(c_args c, r)] /\
    (typeOf r = c_replyType c -> is_Some (gobEncode r) -> v = r).
Proof.
  intros Hr Hk. destruct (ri_calls _ (rinv_reachable _ _ _ Hr) k c Hk) as [_ He _ Hres _]. split.
  - destruct (c_handler c); [rewrite He; simpl; lia..|]. destruct He as (r & -> & _). done.
  - intros v Hv. destruct (Hres v Hv) as (rep & Hh & Hdec). rewrite Hh in He. destruct He as (r & Hx & ->).
    exists r. split; [done|]. intros Hty [b Hb]. simpl in Hdec. rewrite Hb in Hdec. simpl in Hdec.
    rewrite <- Hty, (gob_roundtrip _ _ Hb) in Hdec. by simplify_eq.
Qed.

(** ** Deleted servers *)

(** Steps that do not put [server] back on the network. *)
Definition without (server : nat) w w' : Prop :=
  exists l, rstep w l w' /\ forall n, l <> Some (AAddServer n server).

Definition absent (server : nat) w : Prop := forall n, servers (net w) !! n <> Some (Some server).

(** The call waits for [server], or has been told that there is no reply. *)
Definition unanswered (server : nat) c : Prop :=
  match c_phase c with
  | Waiting _ server' _ _ => server' = server
  | Replying rep => rep = failure
  | Answered => c_result c = Some None
  | _ => False
  end.

Lemma absent_dead server w e sn : absent server w -> isServerDead e sn server (net w) = true.
Proof.
  intros Ha. unfold isServerDead. apply orb_true_iff. right. apply negb_true_iff, bool_decide_eq_false_2.
  unfold go_map_get. destruct (servers (net w) !! sn) as [o|] eqn:E; simpl; [|done]. intros ->. by destruct (Ha sn).
Qed.

Lemma absent_step server w w' : absent server w -> without server w w' -> absent server w'.
Proof.
  intros Ha (l & Hs & Hl). inversion Hs as [| | | | | | |k c rep r Hk Hp Hr|a rn Hadm]; subst; try exact Ha.
  - unfold absent. simpl. unfold sendReply. by destruct (ok rep).
  - intros n. simpl. destruct a; simpl in Hadm; unfold Cleanup, MakeEnd, DeleteEnd in Hadm; repeat case_match; simplify_eq; simpl;
      try apply Ha.
    + rewrite lookup_insert_Some. intros [[-> [= ->]]|[_ Hn]]; [by destruct (Hl n)|by destruct (Ha n)].
    + rewrite lookup_insert_Some. intros [[-> ?]|[_ Hn]]; [done|by destruct (Ha n)].
Qed.

Lemma unanswered_step server w w' k c :
  absent server w -> without server w w' -> calls w !! k = Some c -> unanswered server c ->
  exists c', calls w' !! k = Some c' /\ unanswered server c'.
Proof.
  intros Ha (l & Hs & _) Hk Hu.
  assert (forall j d d', calls w !! j = Some d -> (j = k -> unanswered server d') ->
    exists c', <[j := d']> (calls w) !! k = Some c' /\ unanswered server c') as Hset.
  { intros j d d' Hj Hd. destruct (decide (j = k)) as [->|Hne].
    - exists d'. split; [|by apply Hd]. apply list_lookup_insert_eq. by eapply lookup_lt_Some.
    - exists c. by rewrite list_lookup_insert_ne. }
  inversion Hs as [e sm a ty req Hreq|j d Hj Hp Hd|j d Hj Hp|j d roll Hj Hp
    |j d sv rs rs' a' rep x Hj Hh Ho Hdis Hrun|j d sn sv rel longre rep r1 r2 Hj Hp Hh
    |j d sn sv rel longre r1 r2 Hj Hp Ht|j d rep r Hj Hp Hr|a rn Hadm]; subst; simpl;
    try (eapply Hset; [exact Hj|intros ->; simplify_eq; unfold unanswered in *; rewrite ?Hp in Hu; try done]).
  - exists c. split; [|done]. by apply lookup_app_l_Some.
  - subst sv. rewrite absent_dead by done. done.
  - subst rep. unfold Call_result in Hr. simpl in *. by simplify_eq.
  - by exists c.
Qed.

(** C34. When a server has been deleted and is not added again, a call that waits for it does
    not return true: no reply of the old server reaches a client. *)
Theorem deleted_server_silent server w w' k c :
  absent server w -> calls w !! k = Some c -> (exists sn rel longre, c_phase c = Waiting sn server rel longre) ->
  rtc (without server) w w' ->
  exists c', calls w' !! k = Some c' /\ (c_phase c' = Answered -> c_result c' = Some None).
Proof.
  intros Ha Hk (sn & rel & longre & Hp) Hr. assert (unanswered server c) as Hu by (unfold unanswered; by rewrite Hp).
  clear Hp. revert c Hk Hu Ha. induction Hr as [w|w w1 w2 Hs _ IH]; intros c Hk Hu Ha.
  - exists c. split; [done|]. intros Hp. unfold unanswered in Hu. by rewrite Hp in Hu.
  - destruct (unanswered_step _ _ _ _ _ Ha Hs Hk Hu) as (c1 & Hk1 & Hu1).
    apply (IH c1); [done..|]. by eapply absent_step.
Qed.

(** ** A reliable network *)

(** The end is connected to [server], which is up, and nothing is lost. *)
Definition connected (e : Name) (server : nat) w : Prop :=
  reliable (net w) = true /\ done (net w) = false /\
  exists sn, readEndnameInfo e (net w) = (true, Some sn, Some server, true, longReordering (net w)).

(** Whatever state it finds, the handler that [server] has for the call returns a reply
    of the type that the caller expects. *)
Definition handled (server : nat) w c : Prop :=
  exists rs, objs w !! server = Some rs /\
    forall a, exists x, handlerRun rs (c_req c) a = Some x /\ typeOf x.2 = c_replyType c /\ is_Some (gobEncode x.2).

(** Steps other than changes of the network's tables. *)
Definition quietStep w w' : Prop := rstep w None w'.

(** The handler of call [k] has returned [r]. *)
Definition returned w (k : nat) c (r : V) : Prop :=
  exists b, gobEncode r = Some b /\ typeOf r = c_replyType c /\ c_handler c = Returned (mkReply true b) /\
    execsOf k (execs w) = [(c_args c, r)].

(** The call [k] through [e] is on its way to [server] and back. *)
Definition delivered (e : Name) (server : nat) w (k : nat) c : Prop :=
  endname (c_req c) = e /\
  match c_phase c with
  | Sent | Received => True
  | Waiting sn server' rel _ => server' = server /\ rel = true /\ isServerDead e sn server (net w) = false /\
      (c_handler c = Running server \/ exists r, returned w k c r)
  | Replying rep => exists r, returned w k c r /\ c_handler c = Returned rep
  | Answered => exists r, returned w k c r /\ c_result c = Some (Some r)
  end.

(** The same tables; the counters may differ. *)
Definition sameTables (rn rn' : @Network Name _ _) : Prop :=
  reliable rn' = reliable rn /\ done rn' = done rn /\ longReordering rn' = longReordering rn /\
  enabled rn' = enabled rn /\ servers rn' = servers rn /\ connections rn' = connections rn.

Lemma quiet_tables w w' : quietStep w w' -> sameTables (net w) (net w').
Proof.
  intros Hs. inversion Hs; subst; try done. unfold sameTables. simpl. unfold sendReply. by destruct (ok rep).
Qed.

Lemma connected_same e server w w' : sameTables (net w) (net w') -> connected e server w -> connected e server w'.
Proof.
  intros (E1 & E2 & E3 & E4 & E5 & E6). unfold connected, readEndnameInfo. by rewrite E1, E2, E3, E4, E5, E6.
Qed.

Lemma dead_same e sn server w w' :
  sameTables (net w) (net w') -> isServerDead e sn server (net w') = isServerDead e sn server (net w).
Proof. intros (_ & _ & _ & E4 & E5 & _). unfold isServerDead. by rewrite E4, E5. Qed.

Lemma connected_start e server w roll (req : @reqMsg Name Ty) :
  connected e server w -> endname req = e ->
  exists sn, processReq_start roll req (net w) = Execute sn server true (longReordering (net w)) /\
    isServerDead e sn server (net w) = false.
Proof.
  intros (Hrel & Hd & sn & Hi) He. exists sn. unfold processReq_start. rewrite He, Hi. simpl.
  split; [done|]. unfold readEndnameInfo, isServerDead in *. injection Hi as H5 H6 H7 _. rewrite H6 in H7. simpl in H7.
  rewrite H5, H7. simpl. by rewrite bool_decide_eq_true_2.
Qed.

(** Running a handler does not change which handlers a server has. *)
Lemma handlerRun_services rs rs' (req : @reqMsg Name Ty) (a : App) :
  services rs' = services rs -> handlerRun rs' req a = handlerRun rs req a.
Proof. intros E. unfold handlerRun. by rewrite E. Qed.

Lemma handled_step server w w' c : quietStep w w' -> handled server w c -> handled server w' c.
Proof.
  intros Hs (rs & Hrs & Hh). inversion Hs as [| | | |j d sv rs0 rs' a' rep x Hj Hhd Ho Hdis Hrun| | | |]; subst; try (by exists rs).
  unfold handled. cbn [objs]. destruct (decide (sv = server)) as [->|Hne]; [|rewrite lookup_insert_ne by done; by exists rs].
  simplify_eq. rewrite lookup_insert_eq. exists rs'. split; [done|]. intros a.
  destruct (dispatch_run _ _ _ _ _ _ Hdis) as (_ & _ & _ & _ & E & _). by rewrite (handlerRun_services rs).
Qed.

Lemma returned_same w w' k c c' r :
  execsOf k (execs w') = execsOf k (execs w) -> c_replyType c' = c_replyType c -> c_args c' = c_args c ->
  c_handler c' = c_handler c -> returned w k c r -> returned w' k c' r.
Proof. intros E1 E2 E3 E4 (b & ?). exists b. by rewrite E1, E2, E3, E4. Qed.

Lemma delivered_same e server w w' k c :
  sameTables (net w) (net w') -> execsOf k (execs w') = execsOf k (execs w) ->
  delivered e server w k c -> delivered e server w' k c.
Proof.
  intros Ht Hx [He Hp]. split; [done|]. assert (forall r, returned w k c r -> returned w' k c r) as Hr
    by (intros r; by apply returned_same).
  destruct (c_phase c) as [| |sn sv rel lr|rep|]; try done.
  - rewrite (dead_same _ _ _ w) by done. naive_solver.
  - naive_solver.
  - naive_solver.
Qed.

(** Executions of other calls. *)
Lemma execsOf_other j k l (x : V * V) : j <> k -> execsOf k (l ++ [(j, x)]) = execsOf k l.
Proof. intros. by rewrite execsOf_snoc, decide_False, app_nil_r. Qed.

(** A call that is executed by a handler of the right kind. *)
Lemma exec_returned w k c server rs rs' a' rep x net' objs' calls' :
  rinv w -> calls w !! k = Some c -> c_handler c = Running server -> objs w !! server = Some rs -> handled server w c ->
  Server_dispatch rs (c_req c) (app w) = Some (rs', a', rep) -> handlerRun rs (c_req c) (app w) = Some x ->
  returned (mkSystem net' objs' a' calls' (execs w ++ [(k, x)])) k (set_handler (Returned rep) c) x.2.
Proof.
  intros Hinv Hk Hh Ho (rs0 & Hrs & Hhd) Hdis Hrun. simplify_eq.
  destruct (dispatch_run _ _ _ _ _ _ Hdis) as (x' & Hx' & -> & Hx1 & _). simplify_eq.
  destruct (Hhd (app w)) as (x0 & Hx0 & Hty & [b Hb]). simplify_eq. exists b. rewrite Hb. simpl. split_and!; try done.
  destruct (ri_calls _ Hinv k c Hk) as [(ba & Hba & Ha & Hat) Hex _ _ _]. rewrite Hh in Hex.
  rewrite execsOf_snoc, Hex, decide_True by done. simpl. rewrite Ha, Hat, (gob_roundtrip _ _ Hba) in Hx1. simpl in Hx1.
  destruct x as [xa xr]. simpl in *. by subst xa.
Qed.

Lemma delivered_step e server w w' k c :
  rinv w -> connected e server w -> handled server w c -> quietStep w w' -> calls w !! k = Some c ->
  delivered e server w k c ->
  exists c', calls w' !! k = Some c' /\ delivered e server w' k c' /\ c_req c' = c_req c /\
    c_replyType c' = c_replyType c /\ c_args c' = c_args c.
Proof.
  intros Hinv Hcon Hhan Hs Hk [He Hu]. pose proof (quiet_tables _ _ Hs) as Ht.
  inversion Hs as [e' sm a ty req Hreq|j d Hj Hp Hd|j d Hj Hp|j d roll Hj Hp
    |j d sv rs rs' a' rep x Hj Hh Ho Hdis Hrun|j d sn sv rel longre rep r1 r2 Hj Hp Hh
    |j d sn sv rel longre r1 r2 Hj Hp Ht'|j d rep r Hj Hp Hr|]; subst; cbn [calls setNet setCall];
    try (destruct (decide (j = k)) as [->|Hne];
      [simplify_eq; eexists; split; [apply list_lookup_insert_eq; by eapply lookup_lt_Some|]; rewrite ?Hp in Hu
      |exists c; rewrite list_lookup_insert_ne by done; split; [done|]; split; [|done]; apply (delivered_same _ _ w); try done;
         try (by apply execsOf_other)]).
  - exists c. split; [by apply lookup_app_l_Some|]. split; [|done]. by apply (delivered_same _ _ w).
  - destruct Hcon as (_ & Hdone & _). congruence.
  - done.
  - destruct (connected_start _ _ w roll (c_req c) Hcon eq_refl) as (sn & -> & Hdead).
    split; [|done]. split; [done|]. simpl. split_and!; auto.
  - split; [|done]. split; [done|]. cbn [c_phase set_handler c_handler].
    destruct (ri_calls _ Hinv k c Hk) as [_ _ Hph _ _].
    destruct (c_phase c) as [| |sn sv' rel lr|rep'|] eqn:Hp; try congruence.
    + destruct Hu as (-> & -> & Hdead & [Hrn|(r & b & _ & _ & Hrn & _)]); [|congruence].
      assert (sv = server) as -> by congruence. split_and!; [done..|]. right. exists x.2. by eapply exec_returned.
    + destruct Hu as (r & (b & _ & _ & Hrn & _) & _). congruence.
    + destruct Hu as (r & (b & _ & _ & Hrn & _) & _). congruence.
  - split; [|done]. split; [done|]. destruct Hu as (-> & -> & Hdead & [Hrn|(r & Hret)]); [congruence|].
    simpl. rewrite Hdead. simpl. exists r. split; [by apply (returned_same w _ k c)|]. by destruct (longre && (r2 <? 600)).
  - destruct Hu as (-> & -> & Hdead & _). unfold processReq_timer in Ht'. congruence.
  - split; [|done]. split; [done|]. destruct Hu as (v & (b & Hb & Hty & Hrn & Hx) & Hrep).
    assert (rep = mkReply true b) as -> by congruence. exists v. split; [exists b; by split_and!|]. unfold Call_result in Hr. cbn [ok reply] in Hr.
    rewrite <- Hty, (gob_roundtrip _ _ Hb) in Hr. simpl in Hr |- *. congruence.
Qed.

(** *** Progress *)

(** The steps a call still has to take. *)
Definition remaining c : nat :=
  match c_phase c, c_handler c with
  | Sent, _ => 5 | Received, _ => 4
  | Waiting _ _ _ _, Returned _ => 2 | Waiting _ _ _ _, _ => 3
  | Replying _, _ => 1 | Answered, _ => 0
  end.

Lemma delivered_progress e server w k c :
  rinv w -> connected e server w -> handled server w c -> calls w !! k = Some c -> delivered e server w k c ->
  c_phase c = Answered \/
  exists w' c', quietStep w w' /\ calls w' !! k = Some c' /\ (remaining c' < remaining c)%nat.
Proof.
  intros Hinv Hcon Hhan Hk [He Hu]. pose proof (lookup_lt_Some _ _ _ Hk) as Hlt.
  destruct (ri_calls _ Hinv k c Hk) as [_ _ Hph _ _]. unfold remaining.
  destruct (c_phase c) as [| |sn sv rel lr|rep|] eqn:Hp; [right..|by left].
  - eexists _, _. split; [by eapply r_receive|]. split; [by apply list_lookup_insert_eq|simpl; lia].
  - eexists _, _. split; [by apply (r_start _ k c 0)|]. split; [by apply list_lookup_insert_eq|].
    destruct (connected_start _ _ w 0 (c_req c) Hcon He) as (sn & -> & _). simpl. lia.
  - destruct Hu as (-> & -> & Hdead & [Hrn|(r & b & _ & _ & Hrn & _)]); rewrite Hrn.
    + destruct Hhan as (rs & Hrs & Hh). destruct (Hh (app w)) as (x & Hx & _).
      destruct (run_dispatch _ _ _ _ Hx) as (rs' & a' & rep & Hd).
      eexists _, _. split; [by eapply r_exec|]. split; [by apply list_lookup_insert_eq|]. simpl. rewrite Hp. lia.
    + eexists _, _. split; [by eapply (r_return _ k c sn server true lr (mkReply true b) 0 0)|]. split; [by apply list_lookup_insert_eq|simpl; lia].
  - destruct Hu as (v & (b & Hb & Hty & Hrn & _) & Hrep). assert (rep = mkReply true b) as -> by congruence.
    eexists _, _. split; [eapply (r_reply _ k c _ (Some v)); [done..|]|].
    { unfold Call_result. cbn [ok reply]. by rewrite <- Hty, (gob_roundtrip _ _ Hb). }
    split; [by apply list_lookup_insert_eq|simpl; lia].
Qed.

(** What a run without changes of the tables leaves of such a call. *)
Lemma delivered_run e server w w' k c :
  rinv w -> connected e server w -> handled server w c -> calls w !! k = Some c -> delivered e server w k c ->
  rtc quietStep w w' ->
  exists c', calls w' !! k = Some c' /\ delivered e server w' k c' /\ handled server w' c' /\ c_args c' = c_args c /\
    rinv w' /\ connected e server w'.
Proof.
  intros Hr Hcon Hhan Hk Hd Hq. revert c Hk Hd Hcon Hhan Hr. induction Hq as [w|w w1 w2 Hs _ IH]; intros c Hk Hd Hcon Hhan Hr.
  { exists c. by split_and!. }
  destruct (delivered_step _ _ _ _ _ _ Hr Hcon Hhan Hs Hk Hd) as (c1 & Hk1 & Hd1 & E1 & E2 & E3).
  destruct (IH c1) as (c' & ? & ? & ? & Ea & ? & ?); [done|done| | | |exists c'; split_and!; congruence].
  - apply (connected_same _ _ w); [by apply quiet_tables|done].
  - destruct (handled_step _ _ _ _ Hs Hhan) as (rs & Hrs & Hh). exists rs. by rewrite E1, E2.
  - by eapply rinv_step.
Qed.

(** An answer is never out of reach: some steps of the call itself lead to it. *)
Lemma delivered_answered e server w k c :
  rinv w -> connected e server w -> handled server w c -> calls w !! k = Some c -> delivered e server w k c ->
  exists m w' c', (m <= remaining c)%nat /\ nsteps quietStep m w w' /\ calls w' !! k = Some c' /\ c_phase c' = Answered.
Proof.
  remember (remaining c) as m eqn:Em. revert w c Em. induction (lt_wf m) as [m _ IH].
  intros w c -> Hr Hcon Hhan Hk Hd.
  destruct (delivered_progress _ _ _ _ _ Hr Hcon Hhan Hk Hd) as [Hp|(w1 & c1 & Hs & Hk1 & Hlt)].
  { exists 0%nat, w, c. split_and!; [lia|constructor|done|done]. }
  destruct (delivered_run e server w w1 k c) as (c1' & Hk1' & Hd1 & Hh1 & _ & Hr1 & Hc1); [done..|by apply rtc_once|].
  simplify_eq. destruct (IH (remaining c1) ltac:(lia) w1 c1 eq_refl) as (m & w' & c' & Hm & Hn & ? & ?); [done..|].
  exists (S m), w', c'. split_and!; [lia|by econstructor|done|done].
Qed.

(** C18. On a reliable network, while an end stays connected to a server that is up and
    whose handler returns, a call through that end succeeds: at any time of a run in which
    the network's tables do not change, if the call has returned, then with the reply of
    its handler, which was executed once, with the arguments of the call; and if it has
    not, some steps of the call itself, five at most, make it return. *)
Theorem reliable_call ob a e server w w' k c :
  rtc anyStep (start ob a) w -> connected e server w -> handled server w c ->
  calls w !! k = Some c -> c_phase c = Sent -> endname (c_req c) = e -> rtc quietStep w w' ->
  exists c', calls w' !! k = Some c' /\
    match c_result c' with
    | Some res => exists v, res = Some v /\ execsOf k (execs w') = [(c_args c, v)]
    | None => exists m w'' c'' v, (m <= 5)%nat /\ nsteps quietStep m w' w'' /\ calls w'' !! k = Some c'' /\
        c_result c'' = Some (Some v)
    end.
Proof.
  intros Hr Hcon Hhan Hk Hp He Hq. apply rinv_reachable in Hr.
  assert (delivered e server w k c) as Hd by (split; [done|]; by rewrite Hp).
  destruct (delivered_run e server w w' k c) as (c' & Hk' & Hd' & Hh' & Ea & Hr' & Hc'); [done..|].
  exists c'. split; [done|]. destruct (c_result c') as [res|] eqn:Hres.
  - destruct Hd' as [_ Hd']. rewrite (co_answered _ _ _ (ri_calls _ Hr' _ _ Hk')) in Hd' by congruence.
    destruct Hd' as (v & (b & _ & _ & _ & Hx) & E). exists v. rewrite <- Ea. split; [congruence|done].
  - destruct (delivered_answered e server w' k c') as (m & w'' & c'' & Hm & Hn & Hk'' & Hans); [done..|].
    assert (remaining c' <= 5)%nat by (unfold remaining; repeat case_match; lia).
    destruct (delivered_run e server w' w'' k c') as (c2 & Hk2 & [_ Hd2] & _); [done..|apply rtc_nsteps; eauto|].
    simplify_eq. rewrite Hans in Hd2. destruct Hd2 as (v & _ & E). exists m, w'', c'', v. split_and!; (done || lia).
Qed.
End rpc.

(** ** A concrete network *)

(** Byte strings as values, encoded as themselves. *)
#[global] Instance bytesGob : Gob bytes unit := {|
  typeOf _ := tt; gobEncode b := Some b; gobDecode _ b := Some b; zeroValue _ := [];
|}.

#[global] Instance bytesGob_ok : GobOk bytes unit.
Proof. split. by intros v b [= ->]. Qed.

(** A service that counts its calls and returns its argument. *)
Definition demoService : @Service bytes unit nat :=
  MakeService "Echo" [mkReflectMethod "Call" EmptyString 3 true 0 tt (fun a n => Some (S n, a))].

Definition demoServers : gmap nat (@Server bytes unit nat) := {[0%nat := AddService demoService MakeServer]}.

(** End 1 is connected to server 5, which is object 0. *)
Definition demoNet : @Network Z _ _ := MakeNetwork |> Connect 1 5 |> Enable 1 true |> AddServer 5 0.

Definition demoStart : @System Z bytes unit nat _ _ := initial demoServers 0%nat.

Definition demoReq : @reqMsg Z unit := mkReq 1 "Echo.Call" tt [Byte.x01].
Definition demoCall (p : Phase) (h : Handler) (r : option (option bytes)) : @CallSt Z bytes unit :=
  mkCall [Byte.x01] tt demoReq p h r.

Definition demoSent : @System Z bytes unit nat _ _ := mkSystem demoNet demoServers 0%nat [demoCall Sent Idle None] [].

Lemma demoSent_reachable : rtc anyStep demoStart demoSent.
Proof.
  eapply rtc_l; [eexists; apply (r_admin _ (AConnect 1 5)); reflexivity|].
  eapply rtc_l; [eexists; apply (r_admin _ (AEnable 1 true)); reflexivity|].
  eapply rtc_l; [eexists; apply (r_admin _ (AAddServer 5 0%nat)); reflexivity|].
  eapply rtc_l; [eexists; apply (r_call _ 1 "Echo.Call" [Byte.x01] tt); reflexivity|].
  apply rtc_refl.
Qed.

Definition demoReply : replyMsg := mkReply true [Byte.x01].

Lemma demo_answered : exists w, rtc quietStep demoSent w /\ calls w = [demoCall Answered (Returned demoReply) (Some (Some [Byte.x01]))].
Proof.
  eexists. split.
  - eapply rtc_l; [eapply (r_receive _ 0%nat); reflexivity|].
    eapply rtc_l; [eapply (r_start _ 0%nat _ 500); reflexivity|].
    eapply rtc_l; [eapply (r_exec _ 0%nat); [reflexivity|reflexivity|reflexivity|vm_compute; reflexivity|vm_compute; reflexivity]|].
    eapply rtc_l; [eapply (r_return _ 0%nat _ 5 0%nat true false demoReply 500 0); reflexivity|].
    eapply rtc_l; [eapply (r_reply _ 0%nat _ demoReply (Some [Byte.x01])); reflexivity|].
    apply rtc_refl.
  - vm_compute. reflexivity.
Qed.

Lemma quiet_any (w w' : @System Z bytes unit nat _ _) : rtc quietStep w w' -> rtc anyStep w w'.
Proof. apply rtc_subrel. intros x y Hs. by exists None. Qed.

Lemma rpc_executed_once_witness :
  exists w c r, calls w !! 0%nat = Some c /\ c_result c = Some (Some [Byte.x01]) /\
    @execsOf bytes 0 (execs w) = [([Byte.x01], r)] /\ rtc anyStep demoStart w.
Proof.
  destruct demo_answered as (w & Hr & Hc).
  assert (rtc anyStep demoStart w) as Hrw by (etrans; [exact demoSent_reachable|exact (quiet_any _ _ Hr)]).
  assert (calls w !! 0%nat = Some (demoCall Answered (Returned demoReply) (Some (Some [Byte.x01])))) as Hk
    by (rewrite Hc; reflexivity).
  destruct (rpc_executed_once demoServers 0%nat w 0%nat _ Hrw Hk) as [_ Hx].
  destruct (Hx _ eq_refl) as (r & He & _). exists w, (demoCall Answered (Returned demoReply) (Some (Some [Byte.x01]))), r. split_and!; [exact Hk|reflexivity|exact He|exact Hrw].
Defined.

(** The call has been started, and the server is deleted; the handler, which goes on, runs. *)
Definition demoDeleted : @System Z bytes unit nat _ _ :=
  mkSystem (DeleteServer 5 demoNet) demoServers 0%nat [demoCall (Waiting 5 0%nat true false) (Running 0%nat) None] [].

Lemma demo_unanswered : exists w, rtc (without 0) demoDeleted w /\
  calls w = [demoCall Answered (Returned demoReply) (Some None)].
Proof.
  eexists. split.
  - eapply rtc_l; [exists None; split; [eapply (r_exec _ 0%nat); [reflexivity|reflexivity|reflexivity|vm_compute; reflexivity|vm_compute; reflexivity]|done]|].
    eapply rtc_l; [exists None; split; [eapply (r_return _ 0%nat _ 5 0%nat true false demoReply 500 0); reflexivity|done]|].
    eapply rtc_l; [exists None; split; [eapply (r_reply _ 0%nat _ failure None); reflexivity|done]|].
    apply rtc_refl.
  - vm_compute. reflexivity.
Qed.

Lemma deleted_server_silent_witness :
  exists w c', rtc (without 0) demoDeleted w /\ calls w !! 0%nat = Some c' /\ c_phase c' = Answered /\ c_result c' = Some None.
Proof.
  destruct demo_unanswered as (w & Hr & Hc).
  destruct (deleted_server_silent (App := nat) 0%nat demoDeleted w 0%nat (demoCall (Waiting 5 0%nat true false) (Running 0%nat) None))
    as (c' & Hk & Hres).
  - intros n. destruct (decide (n = 5)) as [->|Hne]; [vm_compute; discriminate|].
    simpl. rewrite !lookup_insert_ne by congruence. rewrite lookup_empty. discriminate.
  - reflexivity.
  - exists 5, true, false. reflexivity.
  - exact Hr.
  - assert (c_phase c' = Answered) as Hp by (rewrite Hc in Hk; injection Hk as <-; reflexivity).
    exists w, c'. split_and!; [exact Hr|exact Hk|exact Hp|exact (Hres Hp)].
Defined.

Lemma reliable_call_witness :
  exists w' c' v, rtc quietStep demoSent w' /\ calls w' !! 0%nat = Some c' /\ c_result c' = Some (Some v) /\
    execsOf 0 (execs w') = [([Byte.x01], v)].
Proof.
  destruct demo_answered as (w & Hr & Hc).
  destruct (reliable_call demoServers 0%nat 1 0%nat demoSent w 0%nat (demoCall Sent Idle None)) as (c' & Hk & Hres).
  - exact demoSent_reachable.
  - split_and!; [reflexivity|reflexivity|]. exists 5. vm_compute. reflexivity.
  - eexists. split; [reflexivity|]. intros a. eexists. split; [vm_compute; reflexivity|]. split; [reflexivity|]. eexists. reflexivity.
  - reflexivity.
  - reflexivity.
  - reflexivity.
  - exact Hr.
  - assert (c_result c' = Some (Some [Byte.x01])) as E by (rewrite Hc in Hk; injection Hk as <-; reflexivity).
    rewrite E in Hres. destruct Hres as (v & Hv & Hx). exists w, c', v. split_and!; [exact Hr|exact Hk| |exact Hx].
    rewrite E. exact (f_equal Some Hv).
Defined.
