(* ===== verification/LabGob.v ===== *)
(** * The checked encoder (labgob/labgob.go)

    What labgob adds to encoding/gob: every type that is encoded, decoded or registered is
    searched for lower-case fields, which gob would leave out, and a value to decode into
    for values that are not zero.  Go's types are a table from type identities to
    descriptions, which may refer to each other in cycles. *)

From S2P Require Import Prelude.

(** What [reflect] tells of a type: its kind, with the fields of a struct, the element
    of a slice, array or pointer, and the element and key of a map. *)
Inductive TypeDesc :=
| StructT (fields : list (string * Z))
| ElemT (elem : Z)
| MapT (elem key : Z)
| OtherT.

(** [unicode.IsUpper] of the first rune, for ASCII names. *)
Definition isUpper (name : string) : bool :=
  match name with
  | EmptyString => false
  | String c _ => let n := Z.of_N (Ascii.N_of_ascii c) in (65 <=? n) && (n <=? 90)
  end.

(** The package's variables. *)
Record Lab := mkLab { checked : gset Z; errorCount : Z }.

Section labgob.
Variable types : gmap Z TypeDesc.
Implicit Types (st : Lab).

(** The complaint about one field. *)
Definition complain (name : string) st : Lab :=
  if isUpper name then st else mkLab (checked st) (errorCount st + 1).

(** [checkType]; [None]: no such type, or out of fuel. *)
Fixpoint checkType (fuel : nat) (t : Z) st : option Lab :=
  match fuel with
  | O => None
  | S fuel =>
      desc ← types !! t;
      if bool_decide (t ∈ checked st) then Some st
      else
        let st := mkLab ({[t]} ∪ checked st) (errorCount st) in
        match desc with
        | StructT fields => foldl (fun o f => st ← o; checkType fuel f.2 (complain f.1 st)) (Some st) fields
        | ElemT elem => checkType fuel elem st
        | MapT elem key => st ← checkType fuel elem st; checkType fuel key st
        | OtherT => Some st
        end
  end.

(** ** Decoding into a variable *)

(** A value as [checkDefault] sees it: a basic value is its type's name and whether it is
    the zero value. *)
Inductive GoValue :=
| VStruct (fields : list (string * GoValue))
| VPtr (elem : option GoValue)
| VBasic (tname : string) (zero : bool)
| VOther.

(** The error count and the variables that were warned about. *)
Abbreviation Warnings := (Z * list string)%type.

Definition warn (what : string) (w : Warnings) : Warnings :=
  (w.1 + 1, if w.1 <? 1 then w.2 ++ [what] else w.2).

Definition fieldName (name f : string) : string :=
  if bool_decide (name = EmptyString) then f else String.append name (String.append "." f).

(** [checkDefault1] with [4 - depth] levels left. *)
Fixpoint checkDefault1 (levels : nat) (v : GoValue) (name : string) (w : Warnings) : Warnings :=
  match levels with
  | O => w
  | S levels =>
      match v with
      | VStruct fields => foldl (fun w f => checkDefault1 levels f.2 (fieldName name f.1) w) w fields
      | VPtr None => w
      | VPtr (Some v) => checkDefault1 levels v name w
      | VBasic tname zero =>
          if (zero : bool) then w else warn (if bool_decide (name = EmptyString) then tname else name) w
      | VOther => w
      end
  end.

(** [None] is a nil interface. *)
Definition checkDefault (v : option GoValue) (w : Warnings) : Warnings :=
  match v with None => w | Some v => checkDefault1 3 v EmptyString w end.

(** ** What is checked *)

(** The types a type refers to. *)
Definition children (t : Z) : list Z :=
  match types !! t with
  | Some (StructT fields) => fields.*2
  | Some (ElemT elem) => [elem]
  | Some (MapT elem key) => [elem; key]
  | _ => []
  end.

(** The lower-case fields of a type. *)
Definition badFields (t : Z) : Z :=
  match types !! t with
  | Some (StructT fields) => zlen (filter (fun f => isUpper f.1 = false) fields)
  | _ => 0
  end.

Definition refersTo (t u : Z) : Prop := u ∈ children t.

(** The table describes every type that is referred to. *)
Definition complete : Prop := forall t u, is_Some (types !! t) -> u ∈ children t -> is_Some (types !! u).

(** The types still to check. *)
Definition unchecked st : gset Z := dom types ∖ checked st.

(** [st'] follows [st]: some types reachable from [t] were checked, with a complaint for
    each lower-case field, [extra] of them about fields of types not yet closed. *)
Record extends (ts : list Z) (extra : Z) st st' : Prop := {
  ex_mono : checked st ⊆ checked st';
  ex_reach u : u ∈ checked st' -> u ∉ checked st -> exists t, t ∈ ts /\ rtc refersTo t u;
  ex_in t : t ∈ ts -> t ∈ checked st';
  ex_closed u v : u ∈ checked st' -> u ∉ checked st -> v ∈ children u -> v ∈ checked st';
  ex_errors : errorCount st' = errorCount st + extra + sumZ badFields (elements (checked st' ∖ checked st));
}.
End labgob.
