(* ===== verification/LabGobProofs.v ===== *)
(** * The checked encoder finds every lower-case field

    [checkType] terminates on any types, cyclic or not, checks every type that the given
    one refers to, directly or not, and complains exactly once about each lower-case
    field. *)

From S2P Require Import Prelude LabGob.

Lemma sumZ_perm {A} (f : A -> Z) l l' : l ≡ₚ l' -> sumZ f l = sumZ f l'.
Proof. induction 1; rewrite ?sumZ_cons in *; lia. Qed.

Section check.
Context (types : gmap Z TypeDesc) (Hcomplete : complete types).
Implicit Types (st : Lab).

Lemma sum_split (X Y Z : gset Z) :
  X ⊆ Y -> Y ⊆ Z ->
  sumZ (badFields types) (elements (Z ∖ X)) = sumZ (badFields types) (elements (Y ∖ X)) + sumZ (badFields types) (elements (Z ∖ Y)).
Proof.
  intros H1 H2. rewrite <- sumZ_app. apply sumZ_perm. rewrite <- elements_disj_union by set_solver.
  apply elements_proper. intros x. destruct (decide (x ∈ Y)); set_solver.
Qed.

Lemma extends_refl st st' extra :
  checked st' = checked st -> errorCount st' = errorCount st + extra -> extends types [] extra st st'.
Proof.
  intros H1 H2. split; rewrite ?H1; [done|done|by intros t ?%not_elem_of_nil|done|].
  replace (checked st ∖ checked st) with (∅ : gset Z) by set_solver. rewrite elements_empty, H2. unfold sumZ. simpl. lia.
Qed.

Lemma extends_trans ts e st st1 ts' e' st2 :
  extends types ts e st st1 -> extends types ts' e' st1 st2 -> extends types (ts ++ ts') (e + e') st st2.
Proof.
  intros [M1 R1 I1 C1 E1] [M2 R2 I2 C2 E2]. split.
  - set_solver.
  - intros u Hu Hn. destruct (decide (u ∈ checked st1)) as [H1|H1].
    + destruct (R1 u H1 Hn) as (t & Ht & Hr). exists t. split; [apply elem_of_app; by left|done].
    + destruct (R2 u Hu H1) as (t & Ht & Hr). exists t. split; [apply elem_of_app; by right|done].
  - intros t [Ht|Ht]%elem_of_app; [by apply M2, I1|by apply I2].
  - intros u v Hu Hn Hv. destruct (decide (u ∈ checked st1)) as [H1|H1]; [by apply M2, (C1 u)|by apply (C2 u)].
  - rewrite E2, E1, (sum_split (checked st) (checked st1) (checked st2)) by done. lia.
Qed.

(** After the children of [t], the type [t] is done. *)
Lemma extends_node t st st' :
  t ∉ checked st -> extends types (children types t) (badFields types t) (mkLab ({[t]} ∪ checked st) (errorCount st)) st' ->
  extends types [t] 0 st st'.
Proof.
  intros Ht [M R I C E]. simpl in *. assert (t ∈ checked st') as Ht' by set_solver. split.
  - set_solver.
  - intros u Hu Hn. exists t. split; [by left|]. destruct (decide (u = t)) as [->|Hne]; [done|].
    destruct (R u Hu) as (c & Hc & Hr); [set_solver|]. by eapply rtc_l.
  - by intros t' ->%list_elem_of_singleton.
  - intros u v Hu Hn Hv. destruct (decide (u = t)) as [->|Hne]; [by apply I|]. apply (C u); [done|set_solver|done].
  - rewrite E, (sum_split (checked st) ({[t]} ∪ checked st) (checked st')) by set_solver.
    replace (({[t]} ∪ checked st) ∖ checked st) with ({[t]} : gset Z) by set_solver. rewrite elements_singleton.
    unfold sumZ at 2. simpl. lia.
Qed.

Definition enough (fuel : nat) st : Prop := (size (unchecked types st) < fuel)%nat.

Lemma enough_mono fuel st st' : checked st ⊆ checked st' -> enough fuel st -> enough fuel st'.
Proof.
  unfold enough. intros Hs Hf. eapply Nat.le_lt_trans; [|exact Hf]. apply subseteq_size. unfold unchecked. set_solver.
Qed.

Lemma enough_node fuel t st :
  is_Some (types !! t) -> t ∉ checked st -> enough (S fuel) st -> enough fuel (mkLab ({[t]} ∪ checked st) (errorCount st)).
Proof.
  unfold enough. intros Ht Hn Hf. apply elem_of_dom in Ht.
  assert (size (unchecked types (mkLab ({[t]} ∪ checked st) (errorCount st))) < size (unchecked types st))%nat; [|lia].
  apply subset_size. unfold unchecked. simpl. split; [set_solver|]. intros Hsub.
  assert (t ∈ dom types ∖ ({[t]} ∪ checked st)); [apply Hsub|]; set_solver.
Qed.

(** The loop over the fields of a struct, given what [checkType] does on each. *)
Lemma checkFields_extends fuel fields st1 :
  (forall t st, is_Some (types !! t) -> enough fuel st ->
     exists st', checkType types fuel t st = Some st' /\ extends types [t] 0 st st') ->
  enough fuel st1 -> (forall u, u ∈ fields.*2 -> is_Some (types !! u)) ->
  exists st', foldl (fun o f => st ← o; checkType types fuel f.2 (complain f.1 st)) (Some st1) fields = Some st' /\
    extends types fields.*2 (zlen (filter (fun f => isUpper f.1 = false) fields)) st1 st'.
Proof.
  intros IH. revert st1. induction fields as [|f fields IHf]; intros st1 Hf1 Hch; cbn [foldl mbind option_bind].
  { exists st1. split; [done|]. by apply extends_refl; [|unfold zlen; simpl; lia]. }
  assert (checked (complain f.1 st1) = checked st1) as Hck by (unfold complain; by case_match).
  destruct (IH f.2 (complain f.1 st1)) as (st2 & Hs2 & He2); [apply Hch; by left|by eapply enough_mono; [|exact Hf1]; rewrite Hck|].
  rewrite Hs2. destruct (IHf st2) as (st3 & Hs3 & He3).
  { eapply enough_mono; [|exact Hf1]. rewrite <- Hck. by destruct He2. }
  { intros u Hu. apply Hch. by right. }
  exists st3. split; [done|].
  assert (extends types [] (if isUpper f.1 then 0 else 1) st1 (complain f.1 st1)) as He1.
  { apply extends_refl; [done|]. unfold complain. destruct (isUpper f.1); simpl; lia. }
  pose proof (extends_trans _ _ _ _ _ _ _ (extends_trans _ _ _ _ _ _ _ He1 He2) He3) as He. simpl in He.
  rewrite fmap_cons. replace (zlen (filter (fun g => isUpper g.1 = false) (f :: fields)))
    with ((if isUpper f.1 then 0 else 1) + 0 + zlen (filter (fun g => isUpper g.1 = false) fields)); [done|].
  rewrite filter_cons. destruct (isUpper f.1); simpl; [lia|]. rewrite zlen_cons. lia.
Qed.

Lemma checkType_extends fuel t st :
  is_Some (types !! t) -> enough fuel st -> exists st', checkType types fuel t st = Some st' /\ extends types [t] 0 st st'.
Proof.
  revert t st. induction fuel as [|fuel IH]; intros t st Ht Hf; [unfold enough in Hf; lia|].
  cbn [checkType]. destruct (types !! t) as [desc|] eqn:Et; [|by destruct Ht]. cbn [mbind option_bind].
  case_bool_decide as Hc.
  { exists st. split; [done|]. destruct (extends_refl st st 0 eq_refl ltac:(lia)) as [M R I C E].
    split; [done| |by intros t' ->%list_elem_of_singleton|done|done]. intros u Hu Hn. done. }
  set (st1 := mkLab ({[t]} ∪ checked st) (errorCount st)).
  assert (enough fuel st1) as Hf1 by (apply enough_node; rewrite ?Et; eauto).
  assert (forall u, u ∈ children types t -> is_Some (types !! u)) as Hch by (intros u; apply Hcomplete; by rewrite Et).
  enough (exists st', match desc with
        | StructT fields => foldl (fun o f => st ← o; checkType types fuel f.2 (complain f.1 st)) (Some st1) fields
        | ElemT elem => checkType types fuel elem st1
        | MapT elem key => st ← checkType types fuel elem st1; checkType types fuel key st
        | OtherT => Some st1
        end = Some st' /\ extends types (children types t) (badFields types t) st1 st') as (st' & Hs & He).
  { exists st'. split; [done|]. by apply extends_node. }
  unfold children, badFields in *. rewrite Et in *. destruct desc as [fields|elem|elem key|].
  - by apply checkFields_extends.
  - apply IH; [apply Hch; by left|done].
  - destruct (IH elem st1) as (st2 & Hs2 & He2); [apply Hch; by left|done|]. rewrite Hs2. cbn [mbind option_bind].
    destruct (IH key st2) as (st3 & Hs3 & He3); [apply Hch; right; by left| |].
    { eapply enough_mono; [|exact Hf1]. by destruct He2. }
    exists st3. split; [done|]. exact (extends_trans _ _ _ _ _ _ _ He2 He3).
  - exists st1. split; [done|]. apply extends_refl; [done|lia].
Qed.

(** A state in which, with each type, those it refers to have been checked. *)
Definition closed st : Prop := forall u v, u ∈ checked st -> v ∈ children types u -> v ∈ checked st.
End check.

(** C35. [checkType] terminates whatever cycles the types have.  It checks every type that can
    be reached from the given one, and no other; it complains once about each
    lower-case field of the types it had not checked before, so that checking the type
    again does nothing. *)
Theorem checkType_complete types t st fuel :
  complete types -> is_Some (types !! t) -> closed types st -> (size (dom types) < fuel)%nat ->
  exists st', checkType types fuel t st = Some st' /\ closed types st' /\
    (forall u, u ∈ checked st' <-> u ∈ checked st \/ rtc (refersTo types) t u) /\
    errorCount st' = errorCount st + sumZ (badFields types) (elements (checked st' ∖ checked st)) /\
    checkType types fuel t st' = Some st'.
Proof.
  intros Hco Ht Hcl Hf. destruct (checkType_extends types Hco fuel t st Ht) as (st' & Hs & [M R I C E]).
  { unfold enough, unchecked. eapply Nat.le_lt_trans; [|exact Hf]. apply subseteq_size. set_solver. }
  assert (closed types st') as Hcl'.
  { intros u v Hu Hv. destruct (decide (u ∈ checked st)) as [Hu'|Hu']; [by apply M, (Hcl u)|by apply (C u)]. }
  assert (t ∈ checked st') as Hin by (apply I; by left).
  exists st'. split_and!; [done..| |lia|].
  - intros u. split.
    + intros Hu. destruct (decide (u ∈ checked st)) as [|Hn]; [by left|right].
      by destruct (R u Hu Hn) as (t' & ->%list_elem_of_singleton & Hr).
    + intros [Hu|Hr]; [by apply M|]. clear -Hr Hcl' Hin. induction Hr as [|a b c Hab _ IH]; [done|]. apply IH. by apply (Hcl' a).
  - destruct fuel as [|fuel]; [lia|]. cbn [checkType]. destruct Ht as [desc ->]. cbn [mbind option_bind].
    by rewrite bool_decide_eq_true_2.
Qed.

(** A list node whose value has a lower-case field, and points to the next one. *)
Definition demoTypes : gmap Z TypeDesc :=
  list_to_map [(0, ElemT 1); (1, StructT [("Value", 2); ("next", 0)]%string); (2, StructT [("x", 3)]%string); (3, OtherT)].

Lemma demoTypes_complete : complete demoTypes.
Proof.
  intros t u Ht Hu. apply elem_of_dom in Ht. assert (t ∈ [0; 1; 2; 3]) as Hin.
  { apply elem_of_elements in Ht. vm_compute in Ht. set_solver. }
  assert (Forall (fun t => Forall (fun u => is_Some (demoTypes !! u)) (children demoTypes t)) [0; 1; 2; 3]) as Hall
    by (repeat constructor; vm_compute; eauto).
  rewrite Forall_forall in Hall. specialize (Hall t Hin). rewrite Forall_forall in Hall. by apply Hall.
Qed.

Lemma checkType_complete_witness :
  exists st', checkType demoTypes 5 0 (mkLab ∅ 0) = Some st' /\ errorCount st' = 2 /\ checkType demoTypes 5 0 st' = Some st'.
Proof.
  destruct (checkType_complete demoTypes 0 (mkLab ∅ 0) 5) as (st' & Hs & _ & _ & _ & Hagain).
  - exact demoTypes_complete.
  - eexists. vm_compute. reflexivity.
  - intros u v Hu. by apply not_elem_of_empty in Hu.
  - vm_compute. lia.
  - exists st'. split; [exact Hs|]. split; [|exact Hagain].
    assert (errorCount <$> checkType demoTypes 5 0 (mkLab ∅ 0) = Some 2) as Hc by (vm_compute; reflexivity).
    rewrite Hs in Hc. simpl in Hc. congruence.
Defined.

(** A reply that holds a structure is not looked into: the third level, after the pointer
    and the reply itself, is the last. *)
Lemma nested_value_not_checked w :
  checkDefault (Some (VPtr (Some (VStruct [("Config", VStruct [("Num", VBasic "int" false)])])))%string) w = w.
Proof. reflexivity. Qed.
