(* ===== verification/Harness.v ===== *)
(** * What the test harnesses share

    The [config.go] files drive clusters of servers over the simulated network.  This file
    holds what they have in common: the names they give to client ends and servers, the
    outcomes of their checks, their loops, and what switching client ends on and off does
    to the network's tables. *)

From S2P Require Import Prelude LabRpc Persister.

(** ** Names *)

(** [interface{}] keys of the network's maps: client ends are strings, servers integers or
    strings. *)
Inductive NetName := NStr (s : string) | NInt (i : Z).

#[global] Instance NetName_eq_dec : EqDecision NetName.
Proof. solve_decision. Defined.

#[global] Instance NetName_countable : Countable NetName.
Proof.
  apply (inj_countable' (fun x => match x with NStr s => inl s | NInt i => inr i end)
    (fun x => match x with inl s => NStr s | inr i => NInt i end)). by intros [].
Defined.

Abbreviation TestNet := (Network (Name := NetName)).

(** ** Outcomes *)

(** A check or a call of the harness returns, ends the test with [t.Fatal] or [log.Fatal],
    or panics. *)
Inductive Outcome (E A : Type) := Done (a : A) | Fatal (e : E) | Panicked.
Arguments Done {E A} _.
Arguments Fatal {E A} _.
Arguments Panicked {E A}.

#[global] Instance Outcome_ret {E} : MRet (Outcome E) := fun A => Done.
#[global] Instance Outcome_bind {E} : MBind (Outcome E) := fun A B f o =>
  match o with Done a => f a | Fatal e => Fatal e | Panicked => Panicked end.

Definition orPanic {E A} (o : option A) : Outcome E A :=
  match o with Some a => Done a | None => Panicked end.

Lemma outcome_bind_Done {E A B} (o : Outcome E A) (f : A -> Outcome E B) b :
  mbind f o = Done b <-> exists a, o = Done a /\ f a = Done b.
Proof. destruct o; simpl; naive_solver. Qed.

Lemma orPanic_Done {E A} (o : option A) (a : A) : orPanic (E := E) o = Done a <-> o = Some a.
Proof. destruct o; simpl; naive_solver. Qed.

(** ** Loops *)

(** [for _, x := range l], with a body that changes a state. *)
Fixpoint forEach {M : Type -> Type} `{!MRet M} `{!MBind M} {A St} (l : list A) (f : A -> St -> M St) (s : St) : M St :=
  match l with
  | [] => mret s
  | x :: l => s' ← f x s; forEach l f s'
  end.

(** [for i := 0; i < n; i++]. *)
Abbreviation below n := (seqZ 0 n).

(** A loop whose body does not panic, with an invariant that says which elements are done. *)
Lemma forEach_rule {A St} (I : list A -> St -> Prop) (l : list A) (f : A -> St -> option St) (s : St) :
  I [] s ->
  (forall l1 x l2 s, l = l1 ++ x :: l2 -> I l1 s -> exists s', f x s = Some s' /\ I (l1 ++ [x]) s') ->
  exists s', forEach l f s = Some s' /\ I l s'.
Proof.
  intros H0 Hf. assert (forall l2 l1 s, l = l1 ++ l2 -> I l1 s -> exists s', forEach l2 f s = Some s' /\ I l s') as H.
  { induction l2 as [|x l2 IH]; intros l1 s1 E H1; simpl.
    - exists s1. rewrite E, app_nil_r. by split.
    - destruct (Hf l1 x l2 s1 E H1) as (s2 & E2 & H2). rewrite E2. simpl. apply (IH (l1 ++ [x])); [|done].
      by rewrite <- app_assoc. }
  by apply (H l []).
Qed.

Lemma forEach_rule_done {E A St} (I : list A -> St -> Prop) (l : list A) (f : A -> St -> Outcome E St) (s : St) :
  I [] s ->
  (forall l1 x l2 s, l = l1 ++ x :: l2 -> I l1 s -> exists s', f x s = Done s' /\ I (l1 ++ [x]) s') ->
  exists s', forEach l f s = Done s' /\ I l s'.
Proof.
  intros H0 Hf. assert (forall l2 l1 s, l = l1 ++ l2 -> I l1 s -> exists s', forEach l2 f s = Done s' /\ I l s') as H.
  { induction l2 as [|x l2 IH]; intros l1 s1 Eq H1; simpl.
    - exists s1. rewrite Eq, app_nil_r. by split.
    - destruct (Hf l1 x l2 s1 Eq H1) as (s2 & E2 & H2). rewrite E2. simpl. apply (IH (l1 ++ [x])); [|done].
      by rewrite <- app_assoc. }
  by apply (H l []).
Qed.

(** The numbers done before [i]. *)
Lemma below_split (N : Z) l1 i l2 : below N = l1 ++ i :: l2 -> 0 <= i < N /\ forall j, j ∈ l1 <-> 0 <= j < i.
Proof.
  intros E. assert (i = zlen l1) as Ei.
  { assert (below N !! length l1 = Some i) as Hi by (rewrite E; by apply list_lookup_middle).
    apply lookup_seqZ in Hi as [-> _]. unfold zlen. lia. }
  assert (i ∈ below N) as Hi%elem_of_seqZ by (rewrite E; apply elem_of_app; right; left).
  split; [lia|]. intros j. split.
  - intros [k Hk]%list_elem_of_lookup. pose proof (lookup_lt_Some _ _ _ Hk). apply (lookup_app_l_Some _ (i :: l2)) in Hk.
    rewrite <- E in Hk. apply lookup_seqZ in Hk as [-> _]. unfold zlen in Ei. lia.
  - intros Hj. apply list_elem_of_lookup. exists (Z.to_nat j). rewrite <- (lookup_app_l l1 (i :: l2)) by (unfold zlen in Ei; lia).
    rewrite <- E. apply lookup_seqZ. lia.
Qed.

Lemma forEach_total {A St} (l : list A) (f : A -> St -> option St) (g : A -> St -> St) (s : St) :
  (forall x s, x ∈ l -> f x s = Some (g x s)) -> forEach l f s = Some (foldl (fun s x => g x s) s l).
Proof.
  revert s. induction l as [|x l IH]; intros s Hf; [done|]. simpl. rewrite Hf by (by left). simpl.
  apply IH. intros y s' Hy. apply Hf. by right.
Qed.

Lemma go_index_lookup {A} (l : list A) (j : Z) x : l @! j = Some x <-> 0 <= j /\ l !! Z.to_nat j = Some x.
Proof. unfold go_index. destruct (Z.leb_spec 0 j); naive_solver lia. Qed.

(** ** Persisters *)

(** Persisters are objects: the harness and a Raft peer point to the same one.  A pointer
    is an index into the list of all persisters allocated so far. *)
Definition newPersister (ps : Persister) (heap : list Persister) : list Persister * nat :=
  (heap ++ [ps], length heap).

(** ** Client ends *)

Section switches.
Implicit Types (rn : TestNet).

Definition switchAll (yes : bool) (es : list NetName) rn : TestNet :=
  foldl (fun rn e => Enable e yes rn) rn es.

Definition isEnabled rn (e : NetName) : bool := go_map_get false (enabled rn) e.

(** The tables without those that say which ends are enabled. *)
Definition sameEnds rn rn' : Prop :=
  reliable rn' = reliable rn /\ longDelays rn' = longDelays rn /\ longReordering rn' = longReordering rn /\
  ends rn' = ends rn /\ servers rn' = servers rn /\ connections rn' = connections rn /\
  LabRpc.done rn' = LabRpc.done rn.

Lemma sameEnds_refl rn : sameEnds rn rn.
Proof. by split_and!. Qed.

Lemma sameEnds_trans rn1 rn2 rn3 : sameEnds rn1 rn2 -> sameEnds rn2 rn3 -> sameEnds rn1 rn3.
Proof. unfold sameEnds. intros (?&?&?&?&?&?&?) (?&?&?&?&?&?&?). split_and!; congruence. Qed.

Lemma Enable_isEnabled e yes rn e' :
  isEnabled (Enable e yes rn) e' = if decide (e' = e) then yes else isEnabled rn e'.
Proof. apply go_map_get_insert. Qed.

Lemma switchAll_isEnabled yes es rn e :
  isEnabled (switchAll yes es rn) e = if decide (e ∈ es) then yes else isEnabled rn e.
Proof.
  revert rn. induction es as [|e' es IH]; intros rn; [done|]. simpl. rewrite IH, Enable_isEnabled.
  repeat case_decide; set_solver.
Qed.

Lemma switchAll_sameEnds yes es rn : sameEnds rn (switchAll yes es rn).
Proof.
  revert rn. induction es as [|e es IH]; intros rn; [apply sameEnds_refl|]. simpl.
  eapply sameEnds_trans; [|apply IH]. by split_and!.
Qed.

Lemma switchAll_app yes es es' rn : switchAll yes es' (switchAll yes es rn) = switchAll yes (es ++ es') rn.
Proof. unfold switchAll. by rewrite foldl_app. Qed.

(** A loop that switches the ends a function picks. *)
Lemma forEach_switch {A} yes (l : list A) (f : A -> TestNet -> option TestNet) (g : A -> option NetName) rn :
  (forall x rn, x ∈ l -> f x rn = Some (match g x with Some e => Enable e yes rn | None => rn end)) ->
  forEach l f rn = Some (switchAll yes (omap g l) rn).
Proof.
  revert rn. induction l as [|x l IH]; intros rn Hf; [done|]. simpl. rewrite Hf by (by left). simpl.
  rewrite IH by (intros; apply Hf; by right). by destruct (g x).
Qed.

(** *** New ends *)

(** [ends[j] = net.MakeEnd(names[j]); net.Connect(names[j], to(j))] for all [j]. *)
Definition makeEnds (names : list (NetName * NetName)) rn : option TestNet :=
  forEach names (fun '(e, srv) rn => rn ← MakeEnd e rn; Some (Connect e srv rn)) rn.

(** The tables without the ends. *)
Definition sameServers rn rn' : Prop :=
  reliable rn' = reliable rn /\ longDelays rn' = longDelays rn /\ longReordering rn' = longReordering rn /\
  servers rn' = servers rn /\ LabRpc.done rn' = LabRpc.done rn.

Lemma makeEnds_spec names rn :
  NoDup (names.*1) -> (forall e, e ∈ names.*1 -> e ∉ ends rn) ->
  exists rn', makeEnds names rn = Some rn' /\ sameServers rn rn' /\
    ends rn' = ends rn ∪ list_to_set (names.*1) /\
    (forall e, isEnabled rn' e = if decide (e ∈ names.*1) then false else isEnabled rn e) /\
    (forall e srv, (e, srv) ∈ names -> go_map_get None (connections rn') e = Some srv) /\
    (forall e, e ∉ names.*1 -> go_map_get None (connections rn') e = go_map_get None (connections rn) e).
Proof.
  intros Hnd Hfr.
  destruct (forEach_rule (fun done rn' => sameServers rn rn' /\ ends rn' = ends rn ∪ list_to_set (done.*1) /\
    (forall e, isEnabled rn' e = if decide (e ∈ done.*1) then false else isEnabled rn e) /\
    (forall e srv, (e, srv) ∈ done -> go_map_get None (connections rn') e = Some srv) /\
    (forall e, e ∉ done.*1 -> go_map_get None (connections rn') e = go_map_get None (connections rn) e))
    names (fun '(e, srv) rn => rn ← MakeEnd e rn; Some (Connect e srv rn)) rn) as (rn' & Hr & HI); [| |by exists rn'].
  - split; [by split_and!|]. split; [set_solver|]. split; [done|]. split; [by intros ? ? ?%not_elem_of_nil|done].
  - intros l1 [e srv] l2 rn1 E (Hs & He & Hen & Hc & Hc'). subst names.
    rewrite fmap_app, fmap_cons in Hnd, Hfr. apply NoDup_app in Hnd as (_ & Hd & [Hn _]%NoDup_cons).
    assert (e ∉ l1.*1) as Hl1. { intros H. apply (Hd e H). by left. }
    assert (e ∉ ends rn1) as Hne.
    { rewrite He. intros [?|?%elem_of_list_to_set]%elem_of_union; [|done]. apply (Hfr e); [|done]. set_solver. }
    unfold MakeEnd. rewrite bool_decide_eq_false_2 by done. simpl. eexists. split; [done|].
    rewrite fmap_app. cbn [fmap list_fmap fst]. split; [done|]. cbn [ends connections]. split; [rewrite He; set_solver|]. split.
    { intros e'. unfold isEnabled. cbn [enabled Connect]. rewrite go_map_get_insert. fold (isEnabled rn1 e'). rewrite Hen.
      repeat case_decide; set_solver. }
    split.
    + intros e' srv' [Hin|[= -> ->]]%elem_of_snoc; cbn [connections Connect].
      * rewrite go_map_get_insert, decide_False; [rewrite go_map_get_insert, decide_False; [by apply Hc|]|];
          intros ->; apply Hl1; by apply (list_elem_of_fmap_2 fst) in Hin.
      * by rewrite go_map_get_insert, decide_True.
    + intros e' He'. cbn [connections Connect]. rewrite !go_map_get_insert, !decide_False by set_solver. apply Hc'. set_solver.
Qed.
End switches.
