(* ===== verification/RaftConfig.v ===== *)
(** * The Raft test harness: [src/src/raft/config.go]

    The struct [config] with its operations.  Its fields are grouped by what they are for:
    [Wires] is the network with the client ends of each server, [Procs] the Raft instances
    and their persisters, [Books] what the instances reported through [applyCh], [Stats]
    the numbers for the report.  Instances and persisters are objects that the harness and
    the running servers share, so they are reached through pointers.  Random strings, the
    clock and what is read from running instances are arguments.  A panic is [None] where
    nothing else can go wrong, and [Panicked] where the test can fail, too. *)

From S2P Require Import Prelude LabRpc Persister Raft Harness.

(** The snapshots the harness makes: [lastIncludedIndex] and [xlog], gob encoded. *)
Class SnapCodec (Cmd : Type) := {
  encodeSnap : Z -> list (option Cmd) -> bytes;
  decodeSnap : bytes -> option (Z * list (option Cmd));
}.

Class SnapCodecOk (Cmd : Type) `{SnapCodec Cmd} : Prop := {
  snap_roundtrip k l : decodeSnap (encodeSnap k l) = Some (k, l);
  snap_nonempty k l : encodeSnap k l <> [];
}.

(** ** Wires *)

(** [endnames[i]] is nil until server [i] is started. *)
Record Wires := mkWires {
  net : TestNet;
  connected : list bool;
  endnames : list (option (list string));
}.
Implicit Types (ws : Wires).

Definition set_net (rn : TestNet) ws : Wires := mkWires rn (connected ws) (endnames ws).

(** [cfg.endnames[i][j]]. *)
Definition endnameAt ws (i j : Z) : option NetName :=
  row ← endnames ws @! i; names ← row; e ← names @! j; Some (NStr e).

Definition connect (n i : Z) ws : option Wires :=
  conn ← go_update (connected ws) i true;
  let ws := mkWires (net ws) conn (endnames ws) in
  rn ← forEach (below n) (fun j rn =>
         on ← connected ws @! j;
         if on : bool then e ← endnameAt ws i j; Some (Enable e true rn) else Some rn) (net ws);
  rn ← forEach (below n) (fun j rn =>
         on ← connected ws @! j;
         if on : bool then e ← endnameAt ws j i; Some (Enable e true rn) else Some rn) rn;
  Some (set_net rn ws).

Definition disconnect (n i : Z) ws : option Wires :=
  conn ← go_update (connected ws) i false;
  let ws := mkWires (net ws) conn (endnames ws) in
  rn ← forEach (below n) (fun j rn =>
         row ← endnames ws @! i;
         match row with
         | Some _ => e ← endnameAt ws i j; Some (Enable e false rn)
         | None => Some rn
         end) (net ws);
  rn ← forEach (below n) (fun j rn =>
         row ← endnames ws @! j;
         match row with
         | Some _ => e ← endnameAt ws j i; Some (Enable e false rn)
         | None => Some rn
         end) rn;
  Some (set_net rn ws).

(** The new client ends of [start1]; [names] are the random strings. *)
Definition freshEnds (n i : Z) (names : list string) ws : option Wires :=
  rows ← go_update (endnames ws) i (Some names);
  let ws := mkWires (net ws) (connected ws) rows in
  rn ← forEach (below n) (fun j rn =>
         e ← endnameAt ws i j; rn ← MakeEnd e rn; Some (Connect e (NInt j) rn)) (net ws);
  Some (set_net rn ws).

Definition setunreliable (unrel : bool) ws : Wires := set_net (Reliable (negb unrel) (net ws)) ws.
Definition setlongreordering (longrel : bool) ws : Wires := set_net (LongReordering longrel (net ws)) ws.
Definition rpcTotal ws : Z := GetTotalCount (net ws).
Definition bytesTotal ws : Z := GetTotalBytes (net ws).

Section config.
Context {Cmd : Type} `{EqDecision Cmd} `{StateCodec Cmd} `{SnapCodec Cmd}.
Context {V Ty App : Type}.

(** ** Instances *)

(** A Raft instance and the persister it was made with. *)
Record Instance := mkInstance { in_raft : Raft Cmd; in_persister : nat }.

(** [rafts] and [saved] hold pointers or nil; the other fields are the objects. *)
Record Procs := mkProcs {
  rafts : list (option nat);
  saved : list (option nat);
  heap : list Persister;
  objs : list Instance;
  srvs : gmap nat (@LabRpc.Server V Ty App);
}.
Implicit Types (ps : Procs).

Definition set_saved (l : list (option nat)) (h : list Persister) ps : Procs :=
  mkProcs (rafts ps) l h (objs ps) (srvs ps).

(** [cfg.saved[i] = p] for a new persister [p] with the given content. *)
Definition savePersister (i : Z) (p : Persister) ps : option Procs :=
  let '(h, ptr) := newPersister p (heap ps) in
  l ← go_update (saved ps) i (Some ptr); Some (set_saved l h ps).

(** The content of [cfg.saved[i]], or [None] if it is nil. *)
Definition savedPersister (i : Z) ps : option (option Persister) :=
  ptr ← saved ps @! i;
  match ptr with Some ptr => p ← heap ps !! ptr; Some (Some p) | None => Some None end.

(** [rf.Kill()] and [cfg.rafts[i] = nil], if there is an instance. *)
Definition killRaft (i : Z) ps : option Procs :=
  ptr ← rafts ps @! i;
  match ptr with
  | Some k =>
      o ← objs ps !! k;
      l ← go_update (rafts ps) i None;
      Some (mkProcs l (saved ps) (heap ps) (<[k := mkInstance (Kill (in_raft o)) (in_persister o)]> (objs ps)) (srvs ps))
  | None => Some ps
  end.

(** The end of [crash1]: what is saved goes to yet another persister. *)
Definition rewritePersister (i : Z) ps : option Procs :=
  p ← savedPersister i ps;
  match p with
  | Some p => savePersister i (Save (ReadRaftState p) (ReadSnapshot p) MakePersister) ps
  | None => Some ps
  end.

(** [crash1] after the network calls. *)
Definition crashProcs (i : Z) ps : option Procs :=
  p ← savedPersister i ps;
  ps ← (match p with Some p => savePersister i (Copy p) ps | None => Some ps end);
  ps ← killRaft i ps;
  rewritePersister i ps.

(** The persister [start1] passes to [Make]. *)
Definition freshPersister (i : Z) ps : option Procs :=
  p ← savedPersister i ps;
  savePersister i (match p with Some p => Copy p | None => MakePersister end) ps.

(** [Make], [cfg.rafts[i] = rf] and the new [labrpc] server; [svcs k] are the services
    [MakeService] makes of instance [k]. *)
Definition makeRaft (svcs : nat -> list (@LabRpc.Service V Ty App)) (env : Env) (n i : Z) ps : option (Procs * nat) :=
  ptr ← saved ps @! i; ptr ← ptr;
  p ← heap ps !! ptr;
  let k := length (objs ps) in
  l ← go_update (rafts ps) i (Some k);
  let srv := foldl (fun srv svc => AddService svc srv) MakeServer (svcs k) in
  Some (mkProcs l (saved ps) (heap ps) (objs ps ++ [mkInstance (Make env (Z.to_nat n) i p) ptr]) (<[k := srv]> (srvs ps)), k).

Definition rpcCount (server : Z) ws ps : option Z := GetCount (srvs ps) (NInt server) (net ws).

(** Maximum log size across all servers. *)
Definition LogSize (n : Z) ps : option Z :=
  forEach (below n) (fun i logsize =>
    p ← savedPersister i ps; p ← p;
    let sz := RaftStateSize p in
    Some (if sz >? logsize then sz else logsize)) 0.

(** ** Books *)

(** What [err_msg] reports. *)
Inductive ApplyError :=
| CommitMismatch (index i : Z) (v : option Cmd) (j : Z) (old : option Cmd)
| ApplyOutOfOrder (i index : Z)
| ApplyUnexpected (i expected got : Z)
| SnapshotIndexMismatch (i : Z).

(** Why a test fails. *)
Inductive Failure :=
| ApplyFailed (e : ApplyError)
| NilSnapshot
| SnapshotDecodeError
| TookTooLong
| TooManyLeaders (term count : Z)
| NoLeader
| TermsDisagree
| LeaderClaims (i : Z)
| ValuesDiffer (index : Z) (cmd cmd1 : option Cmd)
| TooFewDecided (nd index n : Z)
| NoAgreement (cmd : option Cmd).

(** [logs[i]] maps the indices server [i] reported to their commands; [applyErr[i]] is
    [None] for the empty string. *)
Record Books := mkBooks {
  logs : list (gmap Z (option Cmd));
  applied_upto : list Z; (* cfg.lastApplied *)
  maxIndex : Z;
  applyErr : list (option ApplyError);
}.
Implicit Types (bk : Books).

Abbreviation outcome := (Outcome Failure).

Definition set_logs (l : list (gmap Z (option Cmd))) bk : Books := mkBooks l (applied_upto bk) (maxIndex bk) (applyErr bk).
Definition set_applied_upto (l : list Z) bk : Books := mkBooks (logs bk) l (maxIndex bk) (applyErr bk).

(** The error, if any, and whether the entry before was reported. *)
Definition checkLogs (i : Z) (v : option Cmd) (index : Z) bk : option (option ApplyError * bool * Books) :=
  err ← forEach (below (zlen (logs bk))) (fun j err =>
          l ← logs bk @! j;
          Some (match l !! index with
                | Some old => if bool_decide (old = v) then err else Some (CommitMismatch index i v j old)
                | None => err
                end)) None;
  l ← logs bk @! i;
  let prevok := isSome (l !! (index - 1)) in
  ls ← go_update (logs bk) i (<[index := v]> l);
  Some (err, prevok,
        mkBooks ls (applied_upto bk) (if index >? maxIndex bk then index else maxIndex bk) (applyErr bk)).

(** One message of [applier]. *)
Definition applier1 (i : Z) (m : ApplyMsg Cmd) bk : outcome Books :=
  match m with
  | SnapshotMsg _ _ _ => Done bk
  | CommandMsg v index =>
      '(err, prevok, bk) ← orPanic (checkLogs i v index bk);
      let err := if (index >? 1) && negb prevok then Some (ApplyOutOfOrder i index) else err in
      match err with Some e => Fatal (ApplyFailed e) | None => Done bk end
  end.

(** The entries [xlog] as a map from their positions. *)
Fixpoint logOfList (j : Z) (xlog : list (option Cmd)) : gmap Z (option Cmd) :=
  match xlog with [] => ∅ | v :: xlog => <[j := v]> (logOfList (j + 1) xlog) end.

(** A nil slice and an empty one are both [[]]: the first is reported as such, the second
    cannot be decoded. *)
Definition ingestSnap (i : Z) (snapshot : bytes) (index : Z) bk : outcome (option ApplyError * Books) :=
  match snapshot with
  | [] => Fatal NilSnapshot
  | _ =>
      match decodeSnap snapshot with
      | None => Fatal SnapshotDecodeError
      | Some (lastIncludedIndex, xlog) =>
          if negb (index =? -1) && negb (index =? lastIncludedIndex)
          then Done (Some (SnapshotIndexMismatch i), bk)
          else
            ls ← orPanic (go_update (logs bk) i (logOfList 0 xlog));
            la ← orPanic (go_update (applied_upto bk) i lastIncludedIndex);
            Done (None, bk |> set_logs ls |> set_applied_upto la)
      end
  end.

Definition SnapShotInterval : Z := 10.

(** The snapshot after command [index]. *)
Definition makeSnap (index : Z) (l : gmap Z (option Cmd)) : bytes :=
  encodeSnap index ((fun j => go_map_get None l j) <$> seqZ 0 (index + 1)).

(** One message of [applierSnap]: the books, and the arguments of [rf.Snapshot] if it is
    called. *)
Definition applierSnap1 (i : Z) (m : ApplyMsg Cmd) bk : outcome (Books * option (Z * bytes)) :=
  match m with
  | SnapshotMsg snapshot _ index =>
      '(err, bk) ← ingestSnap i snapshot index bk;
      match err with Some e => Fatal (ApplyFailed e) | None => Done (bk, None) end
  | CommandMsg v index =>
      la ← orPanic (applied_upto bk @! i);
      '(err, bk) ←
        (if negb (index =? la + 1) then Done (Some (ApplyUnexpected i (la + 1) index), bk)
         else
           '(err, prevok, bk) ← orPanic (checkLogs i v index bk);
           Done (if (index >? 1) && negb prevok then Some (ApplyOutOfOrder i index) else err, bk));
      la ← orPanic (go_update (applied_upto bk) i index);
      let bk := set_applied_upto la bk in
      l ← orPanic (logs bk @! i);
      let snap := if Z.rem (index + 1) SnapShotInterval =? 0 then Some (index, makeSnap index l) else None in
      match err with Some e => Fatal (ApplyFailed e) | None => Done (bk, snap) end
  end.

(** ** The whole *)

Record Stats := mkStats { start : Z; t0 : Z; rpcs0 : Z; cmds0 : Z; bytes0 : Z; maxIndex0 : Z }.

Record config := mkConfig {
  n : Z;
  finished : bool;
  failed : bool; (* cfg.t.Failed() *)
  wires : Wires;
  procs : Procs;
  books : Books;
  stats : Stats;
}.
Implicit Types (cfg : config).

Definition set_wires ws cfg : config :=
  mkConfig (n cfg) (finished cfg) (failed cfg) ws (procs cfg) (books cfg) (stats cfg).
Definition set_procs ps cfg : config :=
  mkConfig (n cfg) (finished cfg) (failed cfg) (wires cfg) ps (books cfg) (stats cfg).
Definition set_books bk cfg : config :=
  mkConfig (n cfg) (finished cfg) (failed cfg) (wires cfg) (procs cfg) bk (stats cfg).
Definition set_stats (st : Stats) cfg : config :=
  mkConfig (n cfg) (finished cfg) (failed cfg) (wires cfg) (procs cfg) (books cfg) st.

(** Shut down a server but save its persistent state. *)
Definition crash1 (i : Z) cfg : option config :=
  ws ← disconnect (n cfg) i (wires cfg);
  let ws := set_net (DeleteServer (NInt i) (net ws)) ws in
  ps ← crashProcs i (procs cfg);
  Some (cfg |> set_wires ws |> set_procs ps).

(** [start1] until it makes the instance: the books, if the persister holds a snapshot. *)
Definition startBooks (i : Z) ps bk : outcome Books :=
  la ← orPanic (go_update (applied_upto bk) i 0);
  let bk := set_applied_upto la bk in
  p ← orPanic (savedPersister i ps);
  match p with
  | Some p =>
      if 0 <? zlen (ReadSnapshot p) then
        '(err, bk) ← ingestSnap i (ReadSnapshot p) (-1) bk;
        match err with Some e => Fatal (ApplyFailed e) | None => Done bk end
      else Done bk
  | None => Done bk
  end.

(** Start or re-start a Raft; [names] are the random strings for its client ends. *)
Definition start1 (svcs : nat -> list (@LabRpc.Service V Ty App)) (env : Env) (names : list string) (i : Z) cfg : outcome config :=
  cfg ← orPanic (crash1 i cfg);
  ws ← orPanic (freshEnds (n cfg) i names (wires cfg));
  bk ← startBooks i (procs cfg) (books cfg);
  ps ← orPanic (freshPersister i (procs cfg));
  '(ps, k) ← orPanic (makeRaft svcs env (n cfg) i ps);
  let ws := set_net (AddServer (NInt i) k (net ws)) ws in
  Done (cfg |> set_wires ws |> set_procs ps |> set_books bk).

(** [make_config] up to the first server. *)
Definition emptyConfig (now n : Z) (unreliable : bool) : config :=
  let k := Z.to_nat n in
  let ws := mkWires MakeNetwork (replicate k false) (replicate k None) in
  let ws := setunreliable unreliable ws in
  let ws := set_net (LongDelays true (net ws)) ws in
  mkConfig n false false ws
    (mkProcs (replicate k None) (replicate k None) [] [] ∅)
    (mkBooks (replicate k ∅) (replicate k 0) 0 (replicate k None))
    (mkStats now 0 0 0 0 0).

Definition make_config (svcs : nat -> list (@LabRpc.Service V Ty App)) (now : Z) (envs : Z -> Env)
    (names : Z -> list string) (n : Z) (unreliable : bool) : outcome config :=
  cfg ← forEach (below n) (fun i cfg => start1 svcs (envs i) (names i) i cfg) (emptyConfig now n unreliable);
  forEach (below n) (fun i cfg =>
    ws ← orPanic (connect n i (wires cfg)); Done (set_wires ws cfg)) cfg.

Definition checkTimeout (now : Z) cfg : outcome unit :=
  if negb (failed cfg) && (120 * 1000000000 <? now - start (stats cfg)) then Fatal TookTooLong else Done ().

Definition checkFinished cfg : bool := finished cfg.

Definition cleanup (now : Z) cfg : outcome config :=
  let cfg := mkConfig (n cfg) true (failed cfg) (wires cfg) (procs cfg) (books cfg) (stats cfg) in
  ps ← orPanic (forEach (below (zlen (rafts (procs cfg)))) (fun i ps =>
         ptr ← rafts ps @! i;
         match ptr with
         | Some k => o ← objs ps !! k;
             Some (mkProcs (rafts ps) (saved ps) (heap ps) (<[k := mkInstance (Kill (in_raft o)) (in_persister o)]> (objs ps)) (srvs ps))
         | None => Some ps
         end) (procs cfg));
  rn ← orPanic (Cleanup (net (wires cfg)));
  let cfg := cfg |> set_procs ps |> set_wires (set_net rn (wires cfg)) in
  _ ← checkTimeout now cfg; Done cfg.

Definition begin (now : Z) cfg : config :=
  set_stats (mkStats (start (stats cfg)) now (rpcTotal (wires cfg)) 0 (bytesTotal (wires cfg)) (maxIndex (books cfg))) cfg.

(** The numbers [end] prints, unless the test has failed. *)
Definition end_ (now : Z) cfg : outcome (option (Z * Z * Z * Z * Z)) :=
  _ ← checkTimeout now cfg;
  Done (if failed cfg then None else
    Some (now - t0 (stats cfg), n cfg, rpcTotal (wires cfg) - rpcs0 (stats cfg),
          bytesTotal (wires cfg) - bytes0 (stats cfg), maxIndex (books cfg) - maxIndex0 (stats cfg))).

(** ** Checks *)

(** [cfg.rafts[i].GetState()] for the servers, each when it is called; [None] is a nil
    pointer. *)
Abbreviation States := (Z -> option (Z * bool)).

(** The connected servers that take themselves for leaders, by term. *)
Definition leadersByTerm (n : Z) (conn : list bool) (st : States) : option (gmap Z (list Z)) :=
  forEach (below n) (fun i leaders =>
    on ← conn @! i;
    if on : bool then
      '(term, leader) ← st i;
      Some (if leader : bool then <[term := go_map_get [] leaders term ++ [i]]> leaders else leaders)
    else Some leaders) ∅.

(** One iteration; [order] is the order in which the map is iterated. *)
Definition checkLeaders (order : gmap Z (list Z) -> list Z) (n : Z) (conn : list bool) (st : States)
  : outcome (option Z) :=
  leaders ← orPanic (leadersByTerm n conn st);
  lastTermWithLeader ← forEach (order leaders) (fun term last =>
    let ls := go_map_get [] leaders term in
    if 1 <? zlen ls then Fatal (TooManyLeaders term (zlen ls))
    else Done (if term >? last then term else last)) (-1);
  if bool_decide (leaders = ∅) then Done None
  else l ← orPanic (go_map_get [] leaders lastTermWithLeader @! 0); Done (Some l).

Fixpoint checkOneLeader (order : gmap Z (list Z) -> list Z) (n : Z) (rounds : list (list bool * States))
  : outcome Z :=
  match rounds with
  | [] => Fatal NoLeader
  | (conn, st) :: rounds =>
      l ← checkLeaders order n conn st;
      match l with Some l => Done l | None => checkOneLeader order n rounds end
  end.

Definition checkTerms (n : Z) (conn : list bool) (st : States) : outcome Z :=
  forEach (below n) (fun i term =>
    on ← orPanic (conn @! i);
    if on : bool then
      '(xterm, _) ← orPanic (st i);
      if term =? -1 then Done xterm
      else if negb (term =? xterm) then Fatal TermsDisagree else Done term
    else Done term) (-1).

Definition checkNoLeader (n : Z) (conn : list bool) (st : States) : outcome unit :=
  forEach (below n) (fun i _ =>
    on ← orPanic (conn @! i);
    if on : bool then
      '(_, is_leader) ← orPanic (st i);
      if is_leader : bool then Fatal (LeaderClaims i) else Done ()
    else Done ()) ().

(** How many servers think a log entry is committed?  [views] are [applyErr[i]] and
    [logs[i]] of the servers, each when it is read. *)
Abbreviation View := (option ApplyError * gmap Z (option Cmd))%type.

Definition nCommitted (index : Z) (views : list View) : outcome (Z * option Cmd) :=
  forEach views (fun '(err, l) '(count, cmd) =>
    match err with
    | Some e => Fatal (ApplyFailed e)
    | None =>
        match l !! index with
        | Some cmd1 =>
            if (0 <? count) && negb (bool_decide (cmd = cmd1)) then Fatal (ValuesDiffer index cmd cmd1)
            else Done (count + 1, cmd1)
        | None => Done (count, cmd)
        end
    end) (0, None).

(** Wait for at least [k] servers to commit.  An iteration reads the logs, and then the
    states of the servers; [None]: some server has moved on to a later term ([return -1]). *)
Fixpoint waitLoop (index k startTerm : Z) (iters : list (list View * list (Z * bool))) : outcome (option unit) :=
  match iters with
  | [] => Done (Some ())
  | (views, states) :: iters =>
      '(nd, _) ← nCommitted index views;
      if k <=? nd then Done (Some ())
      else if (-1 <? startTerm) && existsb (fun '(t, _) => startTerm <? t) states then Done None
      else waitLoop index k startTerm iters
  end.

(** [None] is the result [-1]. *)
Definition wait (index k startTerm : Z) (iters : list (list View * list (Z * bool))) (views : list View)
  : outcome (option (option Cmd)) :=
  r ← waitLoop index k startTerm iters;
  match r with
  | None => Done None
  | Some () =>
      '(nd, cmd) ← nCommitted index views;
      if nd <? k then Fatal (TooFewDecided nd index k) else Done (Some cmd)
  end.

(** One iteration of the loop of [one]: what [rf.Start(cmd)] answers for each server
    ([None]: not connected, or nil), and the logs at each poll of the two seconds after. *)
Record Attempt := mkAttempt { at_start : Z -> option (Z * Z * bool); at_polls : list (list View) }.

(** Try all the servers, maybe one is the leader. *)
Fixpoint trySubmit (fuel : nat) (n starts : Z) (answer : Z -> option (Z * Z * bool)) : Z * Z :=
  match fuel with
  | O => (starts, -1)
  | S fuel =>
      let starts := Z.rem (starts + 1) n in
      match answer starts with
      | Some (index1, _, true) => (starts, index1)
      | _ => trySubmit fuel n starts answer
      end
  end.

(** The polls: whether [cmd] was committed at [index]. *)
Fixpoint pollLoop (cmd : option Cmd) (index expected : Z) (polls : list (list View)) : outcome bool :=
  match polls with
  | [] => Done false
  | views :: polls =>
      '(nd, cmd1) ← nCommitted index views;
      if (0 <? nd) && (expected <=? nd) && bool_decide (cmd1 = cmd) then Done true
      else pollLoop cmd index expected polls
  end.

(** [fin] is [checkFinished] at the end; the loop runs until ten seconds are over or it
    is set. *)
Fixpoint one (cmd : option Cmd) (expected : Z) (retry : bool) (n starts : Z) (fin : bool) (atts : list Attempt) : outcome Z :=
  match atts with
  | [] => if fin then Done (-1) else Fatal (NoAgreement cmd)
  | at_ :: atts =>
      let '(starts, index) := trySubmit (Z.to_nat n) n starts (at_start at_) in
      if negb (index =? -1) then
        ok ← pollLoop cmd index expected (at_polls at_);
        if ok : bool then Done index
        else if negb retry then Fatal (NoAgreement cmd)
        else one cmd expected retry n starts fin atts
      else one cmd expected retry n starts fin atts
  end.
End config.
