(* ===== verification/RaftConfigWires.v ===== *)
(** * Which servers of the Raft test harness can reach each other

    The harness of [RaftConfig] cuts servers off and restarts them by switching client ends
    on and off.  In every state its operations lead to, exactly the ends between two
    connected servers are enabled: in particular the ends of earlier instances of a server,
    which may still run, are cut off for good. *)

From S2P Require Import Prelude LabRpc Persister Raft Harness RaftConfig.

Implicit Types (ws : Wires).

Definition isConnected ws (i : Z) : bool := default false (connected ws @! i).

(** ** The invariant *)

Record wired (N : Z) ws : Prop := {
  wd_connected : zlen (connected ws) = N;
  wd_rows : zlen (endnames ws) = N;
  wd_row i names : endnames ws @! i = Some (Some names) -> zlen names = N;
  wd_off i : isConnected ws i = true -> exists names, endnames ws @! i = Some (Some names);
  wd_inj i j i' j' e : endnameAt ws i j = Some e -> endnameAt ws i' j' = Some e -> i = i' /\ j = j';
  wd_ends i j e : endnameAt ws i j = Some e ->
    e ∈ ends (net ws) /\ go_map_get None (connections (net ws)) e = Some (NInt j);
  wd_enabled e : isEnabled (net ws) e = true <->
    exists i j, endnameAt ws i j = Some e /\ isConnected ws i = true /\ isConnected ws j = true;
}.

Lemma endnameAt_Some ws i j e :
  endnameAt ws i j = Some e ->
  exists names s, endnames ws @! i = Some (Some names) /\ names @! j = Some s /\ e = NStr s.
Proof.
  unfold endnameAt. destruct (endnames ws @! i) as [[names|]|]; [|done|done]. simpl.
  destruct (names @! j) as [s|] eqn:E; [|done]. simpl. intros [= <-]. eauto.
Qed.

Lemma endnameAt_bounds N ws i j e : wired N ws -> endnameAt ws i j = Some e -> 0 <= i < N /\ 0 <= j < N.
Proof.
  intros Hw (names & s & Hi & Hj & _)%endnameAt_Some. pose proof (wd_row _ _ Hw _ _ Hi) as Hl.
  apply go_index_Some_bound in Hi, Hj. rewrite (wd_rows _ _ Hw) in Hi. lia.
Qed.

Lemma endnameAt_row N ws i j names :
  wired N ws -> endnames ws @! i = Some (Some names) -> 0 <= j < N -> exists e, endnameAt ws i j = Some e.
Proof.
  intros Hw Hi Hj. rewrite <- (wd_row _ _ Hw _ _ Hi) in Hj. destruct (go_index_in_range names j Hj) as [s Hs].
  exists (NStr s). unfold endnameAt. rewrite Hi. simpl. by rewrite Hs.
Qed.

Lemma isConnected_bounds N ws i : wired N ws -> isConnected ws i = true -> 0 <= i < N.
Proof.
  intros Hw. unfold isConnected. destruct (connected ws @! i) as [b|] eqn:E; [|done].
  apply go_index_Some_bound in E. by rewrite (wd_connected _ _ Hw) in E.
Qed.

Lemma elem_of_below (N j : Z) : j ∈ below N <-> 0 <= j < N.
Proof. rewrite elem_of_seqZ. lia. Qed.

(** Tables that agree on the ends. *)
Lemma wired_net N ws rn :
  wired N ws -> ends rn = ends (net ws) -> enabled rn = enabled (net ws) -> connections rn = connections (net ws) ->
  wired N (set_net rn ws).
Proof.
  intros [H1 H2 H3 H4 H5 H6 H7] Ee En Ec. split; try done; simpl.
  - intros i j e. rewrite Ee, Ec. apply H6.
  - intros e. unfold isEnabled. rewrite En. apply H7.
Qed.

Lemma set_connected_cases ws i b l j :
  go_update (connected ws) i b = Some l ->
  isConnected (mkWires (net ws) l (endnames ws)) j = if j =? i then b else isConnected ws j.
Proof.
  intros Hl. unfold isConnected. simpl. rewrite (go_update_index _ _ _ _ j Hl). by destruct (j =? i).
Qed.

(** ** Switching *)

(** The servers connected change, and so do some ends, to match. *)
Lemma wired_switch N ws conn yes es :
  wired N ws -> length conn = length (connected ws) ->
  let ws' := mkWires (switchAll yes es (net ws)) conn (endnames ws) in
  (forall j, isConnected ws' j = true -> exists names, endnames ws @! j = Some (Some names)) ->
  (forall e, isEnabled (net ws') e = true <->
    exists i j, endnameAt ws i j = Some e /\ isConnected ws' i = true /\ isConnected ws' j = true) ->
  wired N ws'.
Proof.
  intros Hw Hlen ws' Hoff Hen. destruct (switchAll_sameEnds yes es (net ws)) as (_ & _ & _ & Ee & _ & Ec & _).
  split; [|apply Hw|apply Hw|exact Hoff|apply Hw| |exact Hen].
  - rewrite <- (wd_connected _ _ Hw). unfold zlen. by rewrite <- Hlen.
  - cbn [net ws']. rewrite Ee, Ec. apply (wd_ends _ _ Hw).
Qed.

(** The two loops of [connect] and [disconnect]: those of the ends of [i] and to [i] that
    [on] picks are switched. *)
Definition picked ws (i : Z) (on : Z -> bool) (N : Z) : list NetName :=
  omap (fun j => if on j then endnameAt ws i j else None) (below N) ++
  omap (fun j => if on j then endnameAt ws j i else None) (below N).

Lemma elem_of_picked N ws i on e :
  wired N ws ->
  e ∈ picked ws i on N <-> exists j, on j = true /\ (endnameAt ws i j = Some e \/ endnameAt ws j i = Some e).
Proof.
  intros Hw. unfold picked. rewrite elem_of_app, !list_elem_of_omap. split.
  - intros [(j & Hj & He)|(j & Hj & He)]; destruct (on j) eqn:?; try done; eauto.
  - intros (j & Hj & He). assert (0 <= j < N) as Hb.
    { destruct He as [He|He]; by apply (endnameAt_bounds N) in He as [? ?]. }
    destruct He; [left|right]; exists j; (split; [by apply elem_of_below|]); by rewrite Hj.
Qed.

Lemma go_index_default {A} (d : A) l (j : Z) : 0 <= j < zlen l -> l @! j = Some (default d (l @! j)).
Proof. intros Hj. destruct (go_index_in_range l j Hj) as [x ->]. done. Qed.

(** ** [connect] *)

Lemma connect_switches N ws i names conn :
  wired N ws -> endnames ws @! i = Some (Some names) -> go_update (connected ws) i true = Some conn ->
  connect N i ws = Some (mkWires (switchAll true (picked ws i (isConnected (mkWires (net ws) conn (endnames ws))) N) (net ws))
    conn (endnames ws)).
Proof.
  intros Hw Hrow Hc. unfold connect. rewrite Hc. simpl. set (ws1 := mkWires (net ws) conn (endnames ws)).
  assert (forall j, j ∈ below N -> conn @! j = Some (isConnected ws1 j)) as Hget.
  { intros j Hj%elem_of_below. apply (go_index_default false conn). unfold zlen. rewrite (go_update_length _ _ _ _ Hc).
    fold (zlen (connected ws)). by rewrite (wd_connected _ _ Hw). }
  assert (forall j, 0 <= j < N -> exists e, endnameAt ws i j = Some e) as Hout by (intros; by eapply endnameAt_row).
  assert (forall j, isConnected ws1 j = true -> exists e, endnameAt ws j i = Some e) as Hin.
  { intros j Hj. apply go_index_Some_bound in Hrow as Hi. rewrite (wd_rows _ _ Hw) in Hi.
    unfold ws1 in Hj. rewrite (set_connected_cases _ _ _ _ j Hc) in Hj. destruct (Z.eqb_spec j i) as [E|_]; [rewrite E; by apply Hout|].
    destruct (wd_off _ _ Hw j Hj) as [names' Hn]. by eapply endnameAt_row. }
  rewrite (forEach_switch true _ _ (fun j => if isConnected ws1 j then endnameAt ws i j else None)).
  2: { intros j rn Hj. rewrite (Hget j Hj). simpl. destruct (isConnected ws1 j); [|done].
       apply elem_of_below in Hj. destruct (Hout j Hj) as [e He]. change (endnameAt ws1 i j) with (endnameAt ws i j). by rewrite He. }
  simpl. rewrite (forEach_switch true _ _ (fun j => if isConnected ws1 j then endnameAt ws j i else None)).
  2: { intros j rn Hj. rewrite (Hget j Hj). simpl. destruct (isConnected ws1 j) eqn:Hcj; [|done].
       destruct (Hin j Hcj) as [e He]. change (endnameAt ws1 j i) with (endnameAt ws j i). by rewrite He. }
  simpl. rewrite switchAll_app. done.
Qed.

Lemma connect_wired N ws i names :
  wired N ws -> endnames ws @! i = Some (Some names) ->
  exists ws', connect N i ws = Some ws' /\ wired N ws' /\ endnames ws' = endnames ws /\
    sameEnds (net ws) (net ws') /\ forall j, isConnected ws' j = (j =? i) || isConnected ws j.
Proof.
  intros Hw Hrow. destruct (go_update (connected ws) i true) as [conn|] eqn:Hc.
  2: { apply go_index_Some_bound in Hrow. rewrite (wd_rows _ _ Hw), <- (wd_connected _ _ Hw) in Hrow.
       by rewrite go_update_Some in Hc. }
  rewrite (connect_switches N ws i names conn Hw Hrow Hc). eexists. split; [done|].
  set (ws1 := mkWires (net ws) conn (endnames ws)). set (es := picked _ _ _ _).
  assert (forall j, isConnected ws1 j = (j =? i) || isConnected ws j) as Hcon.
  { intros j. unfold ws1. rewrite (set_connected_cases _ _ _ _ j Hc). by destruct (j =? i). }
  split; [|split; [done|split; [apply switchAll_sameEnds|exact Hcon]]].
  apply wired_switch; [done|by eapply go_update_length| |].
  - intros j Hj. change (isConnected ws1 j = true) in Hj. rewrite Hcon in Hj.
    apply orb_true_iff in Hj as [->%Z.eqb_eq|Hj]; [by exists names|by apply (wd_off _ _ Hw)].
  - intros e. cbn [net]. rewrite switchAll_isEnabled. change (isConnected (mkWires _ conn _)) with (isConnected ws1).
    case_decide as Hd.
    + split; [intros _|done]. apply (elem_of_picked N) in Hd as (j & Hj & [He|He]); [exists i, j|exists j, i|done];
        (split; [done|]); split; try done; by rewrite Hcon, Z.eqb_refl.
    + rewrite (wd_enabled _ _ Hw). split; intros (i' & j' & He & H1 & H2); exists i', j'; (split; [done|]).
      * by rewrite !Hcon, H1, H2, !orb_true_r.
      * destruct (decide (i' = i)) as [->|]; [destruct Hd; apply elem_of_picked; eauto|].
        destruct (decide (j' = i)) as [->|]; [destruct Hd; apply elem_of_picked; eauto|].
        rewrite Hcon in H1, H2. rewrite (proj2 (Z.eqb_neq i' i)) in H1 by done. rewrite (proj2 (Z.eqb_neq j' i)) in H2 by done. done.
Qed.

(** ** [disconnect] *)

Definition hasRow ws (j : Z) : bool := match endnames ws @! j with Some (Some _) => true | _ => false end.

(** [disconnect] switches off the ends of [i] and to [i]. *)
Lemma disconnect_wired N ws i :
  wired N ws -> 0 <= i < N ->
  exists ws', disconnect N i ws = Some ws' /\ wired N ws' /\ endnames ws' = endnames ws /\
    sameEnds (net ws) (net ws') /\ forall j, isConnected ws' j = negb (j =? i) && isConnected ws j.
Proof.
  intros Hw Hi. unfold disconnect. rewrite go_update_Some by (by rewrite (wd_connected _ _ Hw)).
  set (conn := <[_ := _]> _). assert (go_update (connected ws) i false = Some conn) as Hc.
  { apply go_update_Some. by rewrite (wd_connected _ _ Hw). }
  simpl. set (ws1 := mkWires (net ws) conn (endnames ws)).
  assert (forall j, isConnected ws1 j = negb (j =? i) && isConnected ws j) as Hcon.
  { intros j. unfold ws1. rewrite (set_connected_cases _ _ _ _ j Hc). by destruct (j =? i). }
  rewrite (forEach_switch false _ _ (fun j => endnameAt ws i j)).
  2: { intros j rn Hj%elem_of_below. destruct (go_index_in_range (endnames ws) i) as [[names|] Hrow]; [by rewrite (wd_rows _ _ Hw)| |];
       rewrite Hrow; simpl; [|unfold endnameAt; by rewrite Hrow].
       destruct (endnameAt_row N ws i j names Hw Hrow Hj) as [e He]. change (endnameAt ws1 i j) with (endnameAt ws i j). by rewrite He. }
  simpl. rewrite (forEach_switch false _ _ (fun j => endnameAt ws j i)).
  2: { intros j rn Hj%elem_of_below. destruct (go_index_in_range (endnames ws) j) as [[names|] Hrow]; [by rewrite (wd_rows _ _ Hw)| |];
       rewrite Hrow; simpl; [|unfold endnameAt; by rewrite Hrow].
       destruct (endnameAt_row N ws j i names Hw Hrow Hi) as [e He]. change (endnameAt ws1 j i) with (endnameAt ws j i). by rewrite He. }
  simpl. rewrite switchAll_app. eexists. split; [done|]. set (es := _ ++ _).
  change es with (picked ws i (fun _ => true) N). clear es. set (es := picked _ _ _ _).
  split; [|split; [done|split; [apply switchAll_sameEnds|exact Hcon]]].
  change (wired N (mkWires (switchAll false es (net ws)) conn (endnames ws))).
  apply wired_switch; [done|by eapply go_update_length| |].
  - intros j Hj. change (isConnected ws1 j = true) in Hj. rewrite Hcon in Hj. b2p. by apply (wd_off _ _ Hw).
  - intros e. cbn [net]. rewrite switchAll_isEnabled. change (isConnected (mkWires _ conn _)) with (isConnected ws1).
    case_decide as Hd.
    + split; [done|]. apply (elem_of_picked N) in Hd as (j & _ & He); [|done]. intros (i' & j' & He' & H1 & H2).
      rewrite Hcon in H1, H2. b2p. destruct He as [He|He]; by destruct (wd_inj _ _ Hw _ _ _ _ _ He He').
    + rewrite (wd_enabled _ _ Hw). split; intros (i' & j' & He & H1 & H2); exists i', j'; (split; [done|]).
      * rewrite !Hcon, H1, H2, !andb_true_r, !negb_true_iff, !Z.eqb_neq.
        split; intros ->; destruct Hd; apply elem_of_picked; eauto.
      * rewrite !Hcon in H1, H2. by b2p.
Qed.

(** ** New ends *)

Lemma freshEnds_makeEnds N ws i names rows :
  go_update (endnames ws) i (Some names) = Some rows -> zlen names = N ->
  freshEnds N i names ws =
    rn ← makeEnds (imap (fun j s => (NStr s, NInt (Z.of_nat j))) names) (net ws);
    Some (mkWires rn (connected ws) rows).
Proof.
  intros Hr Hn. unfold freshEnds, makeEnds. rewrite Hr. simpl.
  set (ws1 := mkWires (net ws) (connected ws) rows).
  assert (forall s k, names !! k = Some s -> endnameAt ws1 i (Z.of_nat k) = Some (NStr s)) as He.
  { intros s k Hk. unfold endnameAt, ws1. simpl. rewrite (go_update_index _ _ _ _ i Hr), Z.eqb_refl. simpl.
    by rewrite go_index_nat, Hk. }
  assert (forall l k rn, drop k names = l ->
    forEach (seqZ (Z.of_nat k) (zlen l)) (fun j rn => e ← endnameAt ws1 i j; rn ← MakeEnd e rn; Some (Connect e (NInt j) rn)) rn =
    forEach (imap (fun j s => (NStr s, NInt (Z.of_nat (k + j)))) l) (fun '(e, srv) rn => rn ← MakeEnd e rn; Some (Connect e srv rn)) rn) as Hl.
  { induction l as [|s l IH]; intros k rn Hd; [done|]. rewrite zlen_cons, seqZ_cons by (pose proof (zlen_nonneg l); lia).
    simpl. assert (names !! k = Some s) as Hk by (rewrite <- (Nat.add_0_r k), <- lookup_drop, Hd; done).
    rewrite (He s k Hk). simpl. rewrite Nat.add_0_r. destruct (MakeEnd (NStr s) rn) as [rn1|]; [|done]. simpl.
    replace (Z.pred (zlen l + 1)) with (zlen l) by lia. replace (Z.succ (Z.of_nat k)) with (Z.of_nat (S k)) by lia.
    rewrite IH by (replace (S k) with (k + 1)%nat by lia; by rewrite <- drop_drop, Hd).
    f_equal. apply imap_ext. intros j s' _. simpl. do 3 f_equal. lia. }
  rewrite <- Hn. change (seqZ 0 (zlen names)) with (seqZ (Z.of_nat 0) (zlen names)). by rewrite (Hl names 0%nat).
Qed.

(** The names of the client ends after [endnames[i] = names]. *)
Lemma freshRow ws i names rows rn :
  go_update (endnames ws) i (Some names) = Some rows ->
  let ws' := mkWires rn (connected ws) rows in
  (forall j, rows @! j = if j =? i then Some (Some names) else endnames ws @! j) /\
  (forall i' j e, endnameAt ws' i' j = Some e <->
    i' = i /\ (exists s, names @! j = Some s /\ e = NStr s) \/ i' <> i /\ endnameAt ws i' j = Some e).
Proof.
  intros Hr ws'. assert (forall j, rows @! j = if j =? i then Some (Some names) else endnames ws @! j) as Hrows.
  { intros j. apply (go_update_index _ _ _ _ j Hr). }
  split; [done|]. intros i' j e. unfold endnameAt, ws'. simpl. rewrite Hrows.
  destruct (Z.eqb_spec i' i) as [->|Hne]; simpl; [|naive_solver]. destruct (names @! j); simpl; naive_solver.
Qed.

(** The new ends, with the servers they lead to. *)
Definition newEnds (names : list string) : list (NetName * NetName) :=
  imap (fun j s => (NStr s, NInt (Z.of_nat j))) names.

Lemma newEnds_names names : (newEnds names).*1 = NStr <$> names.
Proof. unfold newEnds. rewrite fmap_imap. apply (imap_const (fun s => NStr s)). Qed.

Lemma elem_of_newEnds names j s : names @! j = Some s -> (NStr s, NInt j) ∈ newEnds names.
Proof.
  intros [Hj Hs]%go_index_lookup. apply list_elem_of_lookup. exists (Z.to_nat j). unfold newEnds.
  rewrite list_lookup_imap, Hs. simpl. by rewrite Z2Nat.id.
Qed.

(** Server [i], which is not connected, gets new ends, all of them disabled. *)
Lemma freshEnds_wired N ws i names :
  wired N ws -> 0 <= i < N -> isConnected ws i = false ->
  zlen names = N -> NoDup names -> (forall s, s ∈ names -> NStr s ∉ ends (net ws)) ->
  exists ws', freshEnds N i names ws = Some ws' /\ wired N ws' /\ sameServers (net ws) (net ws') /\
    endnames ws' @! i = Some (Some names) /\
    forall j, isConnected ws' j = isConnected ws j /\ (j <> i -> endnames ws' @! j = endnames ws @! j).
Proof.
  intros Hw Hi Hoff Hlen Hnd Hfr.
  destruct (go_update (endnames ws) i (Some names)) as [rows|] eqn:Hr; [|by rewrite go_update_Some in Hr by (by rewrite (wd_rows _ _ Hw))].
  rewrite (freshEnds_makeEnds N ws i names rows Hr Hlen). fold (newEnds names).
  destruct (makeEnds_spec (newEnds names) (net ws)) as (rn & -> & Hs & He & Hen & Hc & Hc').
  { rewrite newEnds_names. apply NoDup_fmap_2; [|done]. by intros ? ? [= ->]. }
  { rewrite newEnds_names. intros e (s & -> & Hin)%list_elem_of_fmap. by apply Hfr. }
  rewrite newEnds_names in *. simpl. eexists. split; [done|]. destruct (freshRow ws i names rows rn Hr) as [Hrows Hat].
  set (ws' := mkWires rn (connected ws) rows) in *.
  assert (forall j s, names @! j = Some s -> NStr s ∈ NStr <$> names) as Hin.
  { intros j s [_ Hj]%go_index_lookup. by eapply list_elem_of_fmap_2, list_elem_of_lookup_2. }
  assert (forall i' j e, endnameAt ws i' j = Some e -> e ∉ NStr <$> names) as Hout.
  { intros i' j e Hj (s & -> & Hs')%list_elem_of_fmap. by apply (Hfr s), (wd_ends _ _ Hw i' j). }
  split; [|split; [done|split; [cbn [endnames ws']; by rewrite Hrows, Z.eqb_refl|]]].
  2: { intros j. split; [done|]. intros Hne. cbn [endnames ws']. by rewrite Hrows, (proj2 (Z.eqb_neq _ _)). }
  split; cbn [net connected endnames ws']; [apply Hw| | | | | |].
  - rewrite <- (wd_rows _ _ Hw). unfold zlen. by rewrite (go_update_length _ _ _ _ Hr).
  - intros j names'. rewrite Hrows. destruct (j =? i); [by intros [= <-]|apply Hw].
  - intros j Hj. rewrite Hrows. destruct (j =? i); [eauto|by apply (wd_off _ _ Hw)].
  - intros i1 j1 i2 j2 e [[-> (s & E1 & ->)]|[N1 H1]]%Hat [[-> (s2 & E2 & E)]|[N2 H2]]%Hat.
    + injection E as <-. split; [done|]. apply go_index_lookup in E1 as [? E1], E2 as [? E2].
      pose proof (NoDup_lookup _ _ _ _ Hnd E1 E2). lia.
    + by destruct (Hout _ _ _ H2); eapply Hin.
    + subst e. by destruct (Hout _ _ _ H1); eapply Hin.
    + by eapply (wd_inj _ _ Hw).
  - intros i' j e [[-> (s & E & ->)]|[Hne H']]%Hat; rewrite He.
    + split; [apply elem_of_union; right; apply elem_of_list_to_set; by eapply Hin|by apply Hc, elem_of_newEnds].
    + rewrite Hc' by (by eapply Hout). destruct (wd_ends _ _ Hw _ _ _ H'). split; [set_solver|done].
  - intros e. rewrite Hen. change (isConnected ws') with (isConnected ws). case_decide as Hd.
    + split; [done|]. intros (i' & j' & [[-> _]|[_ H']]%Hat & H1 & _); [congruence|by destruct (Hout _ _ _ H')].
    + rewrite (wd_enabled _ _ Hw). split; intros (i' & j' & H' & H1 & H2); exists i', j'; (split; [|done]).
      * apply Hat. right. split; [|done]. intros ->. congruence.
      * apply Hat in H' as [[-> _]|[_ ?]]; [congruence|done].
Qed.

Lemma freshEnds_ends N ws i names ws' :
  zlen names = N -> freshEnds N i names ws = Some ws' ->
  ends (net ws') = ends (net ws) ∪ list_to_set (NStr <$> names).
Proof.
  intros Hlen Hf. destruct (go_update (endnames ws) i (Some names)) as [rows|] eqn:Hr; [|unfold freshEnds in Hf; by rewrite Hr in Hf].
  rewrite (freshEnds_makeEnds N ws i names rows Hr Hlen) in Hf. apply bind_Some in Hf as (rn & Hm & [= <-]). cbn [net].
  fold (newEnds names) in Hm. rewrite <- newEnds_names. revert Hm. generalize (net ws). clear.
  induction (newEnds names) as [|[e srv] l IH]; intros rn0 Hm; simpl in *.
  - injection Hm as <-. set_solver.
  - unfold makeEnds in Hm, IH. simpl in Hm. unfold MakeEnd in Hm. case_bool_decide; [done|]. simpl in Hm.
    rewrite (IH _ Hm). simpl. set_solver.
Qed.
