(* ===== verification/RaftConfigProcs.v ===== *)
(** * Crashes and restarts in the Raft test harness

    [crash1] and [start1] of [RaftConfig] stand for the crash and the restart of a machine,
    which [RaftCluster] models as one step, [Make] on what the peer has saved.  The harness
    cannot stop the old instance: it goes on with its goroutines and its persister.  This
    file shows that the harness gives each new instance the state its predecessor had
    saved, in a persister of its own, so that the running instances are the peers of the
    cluster model whatever the old ones still do. *)

From S2P Require Import Prelude LabRpc Persister Raft RaftLocal RaftCluster Harness RaftConfig RaftConfigWires.

Section procs.
Context {Cmd : Type} `{EqDecision Cmd} `{StateCodec Cmd} `{SnapCodec Cmd}.
Context {V Ty App : Type}.
Implicit Types (ps : @Procs Cmd V Ty App) (nd : Z -> Raft Cmd) (rf : Raft Cmd).

(** ** Instances at work *)

(** A critical section of instance [k] leaves it in state [rf]; it writes its own
    persister. *)
Definition instanceRuns (k : nat) rf ps : option Procs :=
  o ← objs ps !! k;
  Some (mkProcs (rafts ps) (saved ps) (<[in_persister o := persister rf]> (heap ps))
          (<[k := mkInstance rf (in_persister o)]> (objs ps)) (srvs ps)).

(** ** The invariant *)

(** The persister of server [i] holds what peer [i] of the model has saved; while the
    server is up, its instance is that peer, and no other instance has that persister. *)
Record owned (N : Z) ps nd : Prop := {
  ow_rafts : zlen (rafts ps) = N;
  ow_saved : zlen (saved ps) = N;
  ow_kept i : 0 <= i < N ->
    savedPersister i ps = Some (Some (persister (nd i))) \/
    savedPersister i ps = Some None /\ persister (nd i) = MakePersister /\ rafts ps @! i = Some None;
  ow_live i k : rafts ps @! i = Some (Some k) ->
    exists o, objs ps !! k = Some o /\ in_raft o = nd i /\ saved ps @! i = Some (Some (in_persister o));
  ow_alias i k o : objs ps !! k = Some o -> saved ps @! i = Some (Some (in_persister o)) ->
    rafts ps @! i = Some (Some k);
  ow_distinct i j p : saved ps @! i = Some (Some p) -> saved ps @! j = Some (Some p) -> i = j;
  ow_objs k o : objs ps !! k = Some o -> (in_persister o < length (heap ps))%nat;
}.

Lemma savedPersister_Some i ps p :
  savedPersister i ps = Some (Some p) <-> exists ptr, saved ps @! i = Some (Some ptr) /\ heap ps !! ptr = Some p.
Proof.
  unfold savedPersister. destruct (saved ps @! i) as [[ptr|]|]; simpl; [|naive_solver..].
  destruct (heap ps !! ptr) eqn:E; simpl; naive_solver.
Qed.

Lemma savedPersister_None i ps : savedPersister i ps = Some None <-> saved ps @! i = Some None.
Proof.
  unfold savedPersister. destruct (saved ps @! i) as [[ptr|]|]; simpl; [|naive_solver..].
  destruct (heap ps !! ptr); naive_solver.
Qed.

Lemma ow_saved_ptr N ps nd i ptr :
  owned N ps nd -> saved ps @! i = Some (Some ptr) -> heap ps !! ptr = Some (persister (nd i)).
Proof.
  intros Ho Hi. pose proof (go_index_Some_bound _ _ _ Hi) as Hb. rewrite (ow_saved _ _ _ Ho) in Hb.
  destruct (ow_kept _ _ _ Ho i Hb) as [(ptr' & ? & ?)%savedPersister_Some|[?%savedPersister_None _]]; congruence.
Qed.

(** The other servers are those of the model, too. *)
Lemma owned_ext N ps nd nd' : (forall i, 0 <= i < N -> nd i = nd' i) -> owned N ps nd -> owned N ps nd'.
Proof.
  intros E [H1 H2 H3 H4 H5 H6 H7]. split; try done.
  - intros i Hi. rewrite <- E by done. by apply H3.
  - intros i k Hk. pose proof (go_index_Some_bound _ _ _ Hk) as Hb. rewrite H1 in Hb. rewrite <- E by done. by apply H4.
Qed.

(** A live instance works: its peer takes the step. *)
Lemma owned_runs N ps nd i k rf :
  owned N ps nd -> rafts ps @! i = Some (Some k) ->
  exists ps', instanceRuns k rf ps = Some ps' /\ owned N ps' (upd nd i rf) /\ rafts ps' = rafts ps /\ srvs ps' = srvs ps.
Proof.
  intros Ho Hk. destruct (ow_live _ _ _ Ho i k Hk) as (o & Hobj & Hin & Hsv).
  unfold instanceRuns. rewrite Hobj. simpl. eexists. split; [done|]. split; [|done].
  pose proof (ow_objs _ _ _ Ho k o Hobj) as Hlt.
  assert (forall j ptr, saved ps @! j = Some (Some ptr) -> ptr = in_persister o -> j = i) as Hd.
  { intros j ptr Hj ->. by eapply (ow_distinct _ _ _ Ho). }
  split; cbn [rafts saved heap objs]; [apply Ho|apply Ho| | | |apply (ow_distinct _ _ _ Ho)|].
  - intros j Hj. destruct (decide (j = i)) as [->|Hne].
    + left. apply savedPersister_Some. rewrite upd_eq. exists (in_persister o). split; [done|].
      by apply list_lookup_insert_eq.
    + rewrite upd_ne by done. destruct (ow_kept _ _ _ Ho j Hj) as [(ptr & Hp & Hh)%savedPersister_Some|(?%savedPersister_None & ?)].
      * left. apply savedPersister_Some. exists ptr. split; [done|]. cbn [heap]. rewrite list_lookup_insert_ne; [done|].
        intros E. apply Hne. by eapply Hd.
      * right. split; [by apply savedPersister_None|done].
  - intros j k' Hj. destruct (decide (k' = k)) as [->|Hne].
    + rewrite list_lookup_insert_eq by (by eapply lookup_lt_Some). eexists. split; [done|]. cbn [in_raft in_persister].
      destruct (ow_live _ _ _ Ho j k Hj) as (o' & Ho' & _ & Hs'). rewrite Hobj in Ho'. injection Ho' as <-.
      pose proof (Hd j _ Hs' eq_refl) as ->. by rewrite upd_eq.
    + rewrite list_lookup_insert_ne by done. rewrite upd_ne; [by apply (ow_live _ _ _ Ho)|]. intros ->. congruence.
  - intros j k' o' [(-> & <- & _)|[_ Ho']]%list_lookup_insert_Some Hs; cbn [in_persister] in Hs.
    + by eapply (ow_alias _ _ _ Ho).
    + by eapply (ow_alias _ _ _ Ho).
  - intros k' o'. rewrite length_insert. intros [(-> & <- & _)|[_ Ho']]%list_lookup_insert_Some; [done|by eapply (ow_objs _ _ _ Ho)].
Qed.

(** An instance that is not the current one of any server works: nothing changes. *)
Lemma owned_stray N ps nd k rf ps' :
  owned N ps nd -> (forall i, rafts ps @! i <> Some (Some k)) -> instanceRuns k rf ps = Some ps' ->
  owned N ps' nd /\ rafts ps' = rafts ps /\ srvs ps' = srvs ps.
Proof.
  intros Ho Hk Hr. unfold instanceRuns in Hr. apply bind_Some in Hr as (o & Hobj & [= <-]). split; [|done].
  assert (forall i ptr, saved ps @! i = Some (Some ptr) -> in_persister o <> ptr) as Hne.
  { intros i ptr Hi <-. by apply (Hk i), (ow_alias _ _ _ Ho _ _ _ Hobj). }
  split; cbn [rafts saved heap objs]; [apply Ho|apply Ho| | | |apply (ow_distinct _ _ _ Ho)|].
  - intros j Hj. destruct (ow_kept _ _ _ Ho j Hj) as [(ptr & Hp & Hh)%savedPersister_Some|(?%savedPersister_None & ?)].
    + left. apply savedPersister_Some. exists ptr. split; [done|]. cbn [heap]. rewrite list_lookup_insert_ne; [done|].
      by eapply Hne.
    + right. split; [by apply savedPersister_None|done].
  - intros j k' Hj. rewrite list_lookup_insert_ne by (intros ->; by destruct (Hk j)). by apply (ow_live _ _ _ Ho).
  - intros j k' o' [(-> & <- & _)|[_ Ho']]%list_lookup_insert_Some Hs; cbn [in_persister] in Hs; by eapply (ow_alias _ _ _ Ho).
  - intros k' o'. rewrite length_insert. intros [(-> & <- & _)|[_ Ho']]%list_lookup_insert_Some;
      [exact (ow_objs _ _ _ Ho _ _ Hobj)|by eapply (ow_objs _ _ _ Ho)].
Qed.

(** ** Persisters *)

(** Server [i] goes down, or stays down, and [saved[i]] becomes a new persister with the
    content the model has for [i]. *)
Lemma owned_detach N ps nd i rs os :
  owned N ps nd -> 0 <= i < N -> go_update (rafts ps) i None = Some rs ->
  (forall k, in_persister <$> os !! k = in_persister <$> objs ps !! k) ->
  (forall j k, j <> i -> rafts ps @! j = Some (Some k) -> os !! k = objs ps !! k) ->
  exists l, go_update (saved ps) i (Some (length (heap ps))) = Some l /\
    let ps' := mkProcs rs l (heap ps ++ [persister (nd i)]) os (srvs ps) in
    owned N ps' nd /\ rs @! i = Some None /\ savedPersister i ps' = Some (Some (persister (nd i))).
Proof.
  intros Ho Hi Hrs Hos Hlive. pose proof (fun j => go_update_index _ _ _ _ j Hrs) as Hr.
  destruct (go_update (saved ps) i (Some (length (heap ps)))) as [l|] eqn:Hl; [|by rewrite go_update_Some in Hl by (by rewrite (ow_saved _ _ _ Ho))].
  exists l. split; [done|]. pose proof (fun j => go_update_index _ _ _ _ j Hl) as Hg.
  assert (forall j ptr, saved ps @! j = Some (Some ptr) -> (ptr < length (heap ps))%nat) as Hlt.
  { intros j ptr Hj. by eapply lookup_lt_Some, ow_saved_ptr. }
  assert (forall k o, os !! k = Some o -> exists o', objs ps !! k = Some o' /\ in_persister o' = in_persister o) as Hos'.
  { intros k o Ho'. specialize (Hos k). rewrite Ho' in Hos. destruct (objs ps !! k) as [o'|]; [|done]. injection Hos as E. eauto. }
  intros ps'. assert (savedPersister i ps' = Some (Some (persister (nd i)))) as Hnew.
  { apply savedPersister_Some. exists (length (heap ps)). cbn [saved heap ps']. rewrite Hg, Z.eqb_refl. split; [done|].
    by rewrite lookup_app_r, Nat.sub_diag. }
  split; [|by rewrite Hr, Z.eqb_refl]. split; cbn [rafts saved heap objs ps'].
  - rewrite <- (ow_rafts _ _ _ Ho). unfold zlen. by rewrite (go_update_length _ _ _ _ Hrs).
  - rewrite <- (ow_saved _ _ _ Ho). unfold zlen. by rewrite (go_update_length _ _ _ _ Hl).
  - intros j Hj. destruct (decide (j = i)) as [->|Hne]; [by left|]. rewrite Hr, (proj2 (Z.eqb_neq _ _)) by done.
    destruct (ow_kept _ _ _ Ho j Hj) as [(ptr & Hp & Hh)%savedPersister_Some|(?%savedPersister_None & ?)].
    + left. apply savedPersister_Some. exists ptr. cbn [saved heap ps']. rewrite Hg, (proj2 (Z.eqb_neq _ _)) by done.
      split; [done|]. by apply lookup_app_l_Some.
    + right. split; [|done]. apply savedPersister_None. cbn [saved ps']. by rewrite Hg, (proj2 (Z.eqb_neq _ _)) by done.
  - intros j k. rewrite Hr, Hg. destruct (Z.eqb_spec j i) as [|Hne]; [done|]. intros Hj. rewrite (Hlive j k Hne Hj).
    by apply (ow_live _ _ _ Ho).
  - intros j k o (o' & Hob & E)%Hos'. rewrite Hr, Hg. pose proof (ow_objs _ _ _ Ho k o' Hob). destruct (j =? i).
    + intros [= E']. lia.
    + rewrite <- E. by apply (ow_alias _ _ _ Ho).
  - intros j j' ptr. rewrite !Hg. destruct (Z.eqb_spec j i) as [->|], (Z.eqb_spec j' i) as [->|]; try done.
    + intros [= <-] Hj'. pose proof (Hlt _ _ Hj'). lia.
    + intros Hj [= <-]. pose proof (Hlt _ _ Hj). lia.
    + by apply (ow_distinct _ _ _ Ho).
  - intros k o (o' & Hob & E)%Hos'. rewrite length_app. pose proof (ow_objs _ _ _ Ho k o' Hob). simpl. lia.
Qed.

(** A new persister for a server that is down. *)
Lemma owned_savePersister N ps nd i p :
  owned N ps nd -> 0 <= i < N -> rafts ps @! i = Some None -> p = persister (nd i) ->
  exists ps', savePersister i p ps = Some ps' /\ owned N ps' nd /\
    rafts ps' = rafts ps /\ srvs ps' = srvs ps /\ objs ps' = objs ps /\ savedPersister i ps' = Some (Some (persister (nd i))).
Proof.
  intros Ho Hi Hr ->. assert (go_update (rafts ps) i None = Some (rafts ps)) as Hrs.
  { rewrite go_update_Some by (by rewrite (ow_rafts _ _ _ Ho)). f_equal. apply list_insert_id. by apply go_index_lookup in Hr as [_ ?]. }
  destruct (owned_detach N ps nd i (rafts ps) (objs ps) Ho Hi Hrs) as (l & Hl & Ho' & _ & Hs); [done..|].
  unfold savePersister, newPersister. rewrite Hl. simpl. eexists. split; [done|]. by split_and!.
Qed.

Lemma owned_killed N ps nd i k o rs :
  owned N ps nd -> rafts ps @! i = Some (Some k) -> objs ps !! k = Some o -> go_update (rafts ps) i None = Some rs ->
  let os := <[k := mkInstance (Kill (in_raft o)) (in_persister o)]> (objs ps) in
  (forall k', in_persister <$> os !! k' = in_persister <$> objs ps !! k') /\
  (forall j k', j <> i -> rafts ps @! j = Some (Some k') -> os !! k' = objs ps !! k').
Proof.
  intros Ho Hk Hob Hrs os. split.
  - intros k'. unfold os. destruct (decide (k' = k)) as [->|Hne]; [|by rewrite list_lookup_insert_ne].
    rewrite list_lookup_insert_eq, Hob by (by eapply lookup_lt_Some). done.
  - intros j k' Hne Hj. unfold os. rewrite list_lookup_insert_ne; [done|]. intros <-. apply Hne.
    destruct (ow_live _ _ _ Ho i k Hk) as (o1 & E1 & _ & S1), (ow_live _ _ _ Ho j k Hj) as (o2 & E2 & _ & S2).
    rewrite E1 in E2. injection E2 as <-. by eapply (ow_distinct _ _ _ Ho).
Qed.

Lemma Copy_id (p : Persister) : Copy p = p.
Proof. by destruct p. Qed.

Lemma Save_Read (p : Persister) : Save (ReadRaftState p) (ReadSnapshot p) MakePersister = p.
Proof. by destruct p. Qed.

(** [crash1]: the server is down, with its persistent state in a persister of its own. *)
Lemma owned_crash N ps nd i :
  owned N ps nd -> 0 <= i < N ->
  exists ps', crashProcs i ps = Some ps' /\ owned N ps' nd /\ rafts ps' @! i = Some None /\ srvs ps' = srvs ps /\
    (forall j, j <> i -> rafts ps' @! j = rafts ps @! j).
Proof.
  intros Ho Hi. unfold crashProcs. destruct (go_index_in_range (rafts ps) i) as [r Hr]; [by rewrite (ow_rafts _ _ _ Ho)|].
  destruct (ow_kept _ _ _ Ho i Hi) as [Hs|(Hs & Hp & Hd)].
  2: { rewrite Hs. simpl. unfold killRaft, rewritePersister. rewrite Hd. simpl. rewrite Hs. simpl. exists ps. by split_and!. }
  rewrite Hs. cbn [mbind option_bind]. unfold savePersister, newPersister. rewrite Copy_id.
  destruct (go_update (rafts ps) i None) as [rs|] eqn:Hrs; [|by rewrite go_update_Some in Hrs by (by rewrite (ow_rafts _ _ _ Ho))].
  assert (forall os, (forall k, in_persister <$> os !! k = in_persister <$> objs ps !! k) ->
    (forall j k, j <> i -> rafts ps @! j = Some (Some k) -> os !! k = objs ps !! k) ->
    exists l, go_update (saved ps) i (Some (length (heap ps))) = Some l /\
    exists ps', rewritePersister i (mkProcs rs l (heap ps ++ [persister (nd i)]) os (srvs ps)) = Some ps' /\
      owned N ps' nd /\ rafts ps' @! i = Some None /\ srvs ps' = srvs ps /\ (forall j, j <> i -> rafts ps' @! j = rafts ps @! j)) as Hnext.
  { intros os H1 H2. destruct (owned_detach N ps nd i rs os Ho Hi Hrs H1 H2) as (l & Hl & Ho' & Hn & Hs'). exists l. split; [done|].
    unfold rewritePersister. rewrite Hs'. cbn [mbind option_bind]. rewrite Save_Read.
    destruct (owned_savePersister N _ nd i (persister (nd i)) Ho' Hi Hn eq_refl) as (ps' & -> & Ho'' & Er & Es & _). exists ps'.
    split; [done|]. split; [done|]. rewrite Er, Es. split; [done|]. split; [done|]. intros j Hne. cbn [rafts].
    by rewrite (go_update_index _ _ _ _ j Hrs), (proj2 (Z.eqb_neq _ _)). }
  unfold killRaft. destruct r as [k|].
  - destruct (ow_live _ _ _ Ho i k Hr) as (o & Hob & _). destruct (owned_killed N ps nd i k o rs Ho Hr Hob Hrs) as [H1 H2].
    destruct (Hnext _ H1 H2) as (l & -> & ps' & Hps & Hrest). exists ps'. cbn [mbind option_bind rafts objs set_saved saved heap srvs].
    rewrite Hr. cbn [mbind option_bind]. rewrite Hob, Hrs. cbn [mbind option_bind]. by split.
  - destruct (Hnext (objs ps)) as (l & -> & ps' & Hps & Hrest); [done..|]. exists ps'.
    cbn [mbind option_bind rafts objs set_saved saved heap srvs]. rewrite Hr. cbn [mbind option_bind].
    assert (rs = rafts ps) as ->; [|by split].
    rewrite go_update_Some in Hrs by (by rewrite (ow_rafts _ _ _ Ho)). injection Hrs as <-. apply list_insert_id.
    by apply go_index_lookup in Hr as [_ ?].
Qed.

(** [start1]: a new instance on a copy of the persister. *)
Lemma owned_fresh N ps nd i :
  owned N ps nd -> 0 <= i < N -> rafts ps @! i = Some None ->
  exists ps', freshPersister i ps = Some ps' /\ owned N ps' nd /\ rafts ps' = rafts ps /\ srvs ps' = srvs ps /\
    savedPersister i ps' = Some (Some (persister (nd i))).
Proof.
  intros Ho Hi Hr. unfold freshPersister.
  destruct (owned_savePersister N ps nd i (persister (nd i)) Ho Hi Hr eq_refl) as (ps' & Hs & Ho' & ? & ? & _ & ?).
  exists ps'. split; [|done].
  destruct (ow_kept _ _ _ Ho i Hi) as [->|(-> & E & _)]; cbn [mbind option_bind]; [by rewrite Copy_id|by rewrite <- E].
Qed.

Lemma owned_make svcs env N ps nd i :
  owned N ps nd -> 0 <= i < N -> rafts ps @! i = Some None -> savedPersister i ps = Some (Some (persister (nd i))) ->
  exists ps' k, makeRaft svcs env N i ps = Some (ps', k) /\
    owned N ps' (upd nd i (Make env (Z.to_nat N) i (persister (nd i)))) /\
    (forall j, rafts ps' @! j = if j =? i then Some (Some k) else rafts ps @! j).
Proof.
  intros Ho Hi Hr (ptr & Hs & Hh)%savedPersister_Some. unfold makeRaft. rewrite Hs. cbn [mbind option_bind]. rewrite Hh. cbn [mbind option_bind].
  destruct (go_update (rafts ps) i _) as [l|] eqn:Hl; [|by rewrite go_update_Some in Hl by (by rewrite (ow_rafts _ _ _ Ho))].
  cbn [mbind option_bind]. eexists _, _. split; [done|]. pose proof (fun j => go_update_index _ _ _ _ j Hl) as Hg.
  split; [|exact Hg]. split; cbn [rafts saved heap objs].
  - rewrite <- (ow_rafts _ _ _ Ho). unfold zlen. by rewrite (go_update_length _ _ _ _ Hl).
  - apply Ho.
  - intros j Hj. destruct (decide (j = i)) as [->|Hne].
    + left. apply savedPersister_Some. exists ptr. split; [done|]. rewrite upd_eq. cbn [heap].
      by destruct (Make_state env (Z.to_nat N) i (persister (nd i))) as (_ & _ & -> & _).
    + rewrite upd_ne by done. destruct (ow_kept _ _ _ Ho j Hj) as [?|(? & ? & ?)]; [by left|right].
      by rewrite Hg, (proj2 (Z.eqb_neq _ _)).
  - intros j k. rewrite Hg. destruct (Z.eqb_spec j i) as [->|Hne].
    + intros [= <-]. rewrite upd_eq. eexists. split; [by rewrite lookup_app_r, Nat.sub_diag|]. done.
    + rewrite upd_ne by done. intros Hj. destruct (ow_live _ _ _ Ho j k Hj) as (o & Hob & ? & ?). exists o.
      split; [by apply lookup_app_l_Some|done].
  - intros j k o [[Hk Hob]|[-> <-]]%lookup_snoc_Some Hj; rewrite Hg.
    + pose proof (ow_alias _ _ _ Ho j k o Hob Hj) as Hk'. rewrite (proj2 (Z.eqb_neq _ _)); [done|]. intros ->. congruence.
    + cbn [in_persister] in Hj. by rewrite (ow_distinct _ _ _ Ho j i ptr), Z.eqb_refl.
  - apply (ow_distinct _ _ _ Ho).
  - intros k o [[Hk Hob]|[-> <-]]%lookup_snoc_Some; [by eapply (ow_objs _ _ _ Ho)|]. cbn [in_persister]. by eapply lookup_lt_Some.
Qed.

Lemma owned_empty N nd :
  0 <= N -> (forall i, 0 <= i < N -> persister (nd i) = MakePersister) ->
  owned N (mkProcs (replicate (Z.to_nat N) None) (replicate (Z.to_nat N) None) [] [] ∅) nd.
Proof.
  intros HN Hp. assert (forall A (x : A) i y, replicate (Z.to_nat N) x @! i = Some y -> y = x) as Hrep.
  { intros A x i y [_ [-> _]%lookup_replicate]%go_index_lookup. done. }
  assert (forall A (x : A), zlen (replicate (Z.to_nat N) x) = N) as Hlen.
  { intros A x. unfold zlen. rewrite length_replicate. lia. }
  split; cbn [rafts saved heap objs]; [apply Hlen|apply Hlen| | | | |].
  - intros i Hi. right. rewrite savedPersister_None. cbn [saved rafts].
    destruct (go_index_in_range (replicate (Z.to_nat N) (@None nat)) i) as [x Hx]; [by rewrite Hlen|].
    pose proof (Hrep _ _ _ _ Hx) as ->. auto.
  - by intros i k ?%Hrep.
  - done.
  - by intros i j p ?%Hrep.
  - done.
Qed.
End procs.
