(* ===== verification/RaftHarness.v ===== *)
(** * The Raft test harness runs the cluster model

    The operations of [RaftConfig] together with the instances at work.  Every run of the
    harness, with servers crashing, restarting and being cut off in any order and old
    instances that go on, is a run of the cluster of [RaftCluster], in which a crash and the
    next start are one restart; and a request is executed only by the current instance of a
    connected server, for the current instance of a connected server. *)

From S2P Require Import Prelude LabRpc Persister Raft RaftCodec RaftLocal RaftCluster RaftRun Harness RaftConfig RaftConfigWires RaftConfigProcs.

Section harness.
Context {Cmd : Type} `{EqDecision Cmd} `{StateCodec Cmd} `{!StateCodecOk Cmd} `{SnapCodec Cmd}.
Context {V Ty App : Type} (svcs : nat -> list (@LabRpc.Service V Ty App)).
Implicit Types (cfg : @config Cmd V Ty App) (nd : Z -> Raft Cmd) (w : Cluster (Cmd := Cmd)) (bk : @Books Cmd).

Record tracks (N : Z) cfg nd : Prop := {
  tr_n : n cfg = N;
  tr_wired : wired N (wires cfg);
  tr_owned : owned N (procs cfg) nd;
  tr_served i : 0 <= i < N ->
    go_map_get None (servers (net (wires cfg))) (NInt i) = mjoin (rafts (procs cfg) @! i);
  tr_logs : zlen (logs (books cfg)) = N;
  tr_applied : zlen (applied_upto (books cfg)) = N;
}.

(** ** Crash *)

Lemma servers_insert rn (i j : Z) (k : option nat) :
  go_map_get None (servers (setServers (<[NInt i := k]> (servers rn)) rn)) (NInt j) =
    if j =? i then k else go_map_get None (servers rn) (NInt j).
Proof.
  simpl. rewrite go_map_get_insert. destruct (Z.eqb_spec j i) as [->|]; [by rewrite decide_True|].
  rewrite decide_False; [done|]. by intros [= ->].
Qed.

Lemma tracks_crash N cfg nd i :
  tracks N cfg nd -> 0 <= i < N ->
  exists cfg', crash1 i cfg = Some cfg' /\ tracks N cfg' nd /\ rafts (procs cfg') @! i = Some None /\
    isConnected (wires cfg') i = false /\ books cfg' = books cfg /\ ends (net (wires cfg')) = ends (net (wires cfg)) /\
    endnames (wires cfg') = endnames (wires cfg) /\
    (forall j, j <> i -> rafts (procs cfg') @! j = rafts (procs cfg) @! j) /\
    (forall j, isConnected (wires cfg') j = negb (j =? i) && isConnected (wires cfg) j).
Proof.
  intros Ht Hi. unfold crash1. rewrite (tr_n _ _ _ Ht).
  destruct (disconnect_wired N (wires cfg) i (tr_wired _ _ _ Ht) Hi) as (ws & -> & Hw & Er & Hs & Hc).
  destruct (owned_crash N (procs cfg) nd i (tr_owned _ _ _ Ht) Hi) as (ps & Hps & Ho & Hr & _ & Hother).
  cbn [mbind option_bind]. rewrite Hps. cbn [mbind option_bind]. eexists. split; [done|].
  destruct Hs as (_ & _ & _ & Ee & Es & _). cbn [wires procs books set_wires set_procs].
  split; [|split; [done|split; [cbn [set_net]; change (isConnected ws i = false); by rewrite Hc, Z.eqb_refl|by split_and!]]].
  split; cbn [n wires procs books set_wires set_procs net set_net]; [apply Ht|by apply wired_net|done| |apply Ht|apply Ht].
  intros j Hj. unfold DeleteServer. rewrite servers_insert. destruct (Z.eqb_spec j i) as [->|Hne]; [by rewrite Hr|].
  rewrite Es, Hother by done. by apply (tr_served _ _ _ Ht).
Qed.

(** ** Start *)

(** What [start1] does to the books, given the persister the model has for the server. *)
Definition bootBooks (i : Z) (p : Persister) bk : Outcome (@Failure Cmd) (@Books Cmd) :=
  la ← orPanic (go_update (applied_upto bk) i 0);
  let bk := set_applied_upto la bk in
  if 0 <? zlen (ReadSnapshot p) then
    '(err, bk) ← ingestSnap i (ReadSnapshot p) (-1) bk;
    match err with Some e => Fatal (ApplyFailed e) | None => Done bk end
  else Done bk.

Lemma startBooks_boot N (ps : @Procs Cmd V Ty App) nd i bk :
  owned N ps nd -> 0 <= i < N -> startBooks i ps bk = bootBooks i (persister (nd i)) bk.
Proof.
  intros Ho Hi. unfold startBooks, bootBooks. destruct (go_update (applied_upto bk) i 0) as [la|]; [|done]. cbn [orPanic mbind Outcome_bind].
  destruct (ow_kept _ _ _ Ho i Hi) as [->|(-> & -> & _)]; done.
Qed.

Lemma bootBooks_length i p bk bk' :
  bootBooks i p bk = Done bk' -> zlen (logs bk') = zlen (logs bk) /\ zlen (applied_upto bk') = zlen (applied_upto bk).
Proof.
  unfold bootBooks. intros (la & Hla%orPanic_Done & Hb)%outcome_bind_Done. apply go_update_length in Hla.
  destruct (0 <? _); [|injection Hb as <-; unfold zlen; simpl; by rewrite Hla].
  apply outcome_bind_Done in Hb as ([err bk1] & Hin & Hb). destruct err; [done|]. injection Hb as <-.
  unfold ingestSnap in Hin. destruct (ReadSnapshot p); [done|]. destruct (decodeSnap _) as [[k xlog]|]; [|done].
  simpl in Hin. apply outcome_bind_Done in Hin as (ls & Hls%orPanic_Done & Hin).
  apply outcome_bind_Done in Hin as (la' & Hla'%orPanic_Done & [= <-]). apply go_update_length in Hls, Hla'.
  unfold zlen. cbn [logs applied_upto set_applied_upto set_logs] in *. by rewrite Hls, Hla', Hla.
Qed.

Definition freshNames (N : Z) (names : list string) cfg : Prop :=
  zlen names = N /\ NoDup names /\ forall s, s ∈ names -> NStr s ∉ ends (net (wires cfg)).

Lemma tracks_start env names N cfg nd i bk :
  tracks N cfg nd -> 0 <= i < N -> freshNames N names cfg ->
  bootBooks i (persister (nd i)) (books cfg) = Done bk ->
  exists cfg', start1 svcs env names i cfg = Done cfg' /\
    tracks N cfg' (upd nd i (Make env (Z.to_nat N) i (persister (nd i)))) /\ books cfg' = bk /\
    ends (net (wires cfg')) = ends (net (wires cfg)) ∪ list_to_set (NStr <$> names) /\
    (forall j, endnames (wires cfg') @! j = if j =? i then Some (Some names) else endnames (wires cfg) @! j) /\
    (exists k, forall j, rafts (procs cfg') @! j = if j =? i then Some (Some k) else rafts (procs cfg) @! j) /\
    (forall j, isConnected (wires cfg') j = negb (j =? i) && isConnected (wires cfg) j).
Proof.
  intros Ht Hi (Hlen & Hnd & Hfr) Hbk. unfold start1.
  destruct (tracks_crash N cfg nd i Ht Hi) as (cfg1 & -> & Ht1 & Hr1 & Hoff & Eb & Ee & Er & Hot & Hco). cbn [orPanic mbind Outcome_bind].
  rewrite (tr_n _ _ _ Ht1).
  destruct (freshEnds_wired N (wires cfg1) i names (tr_wired _ _ _ Ht1) Hi Hoff Hlen Hnd) as (ws & Hfe & Hw & Hs & Hrow & Hrest).
  { intros s Hs. rewrite Ee. by apply Hfr. }
  pose proof (freshEnds_ends N (wires cfg1) i names ws Hlen Hfe) as Hends.
  rewrite Hfe. cbn [orPanic mbind Outcome_bind].
  rewrite (startBooks_boot N _ nd i _ (tr_owned _ _ _ Ht1) Hi), Eb, Hbk. cbn [mbind Outcome_bind].
  destruct (owned_fresh N (procs cfg1) nd i (tr_owned _ _ _ Ht1) Hi Hr1) as (ps2 & -> & Ho2 & Er2 & _ & Hsv2).
  cbn [orPanic mbind Outcome_bind]. rewrite <- Er2 in Hr1.
  destruct (owned_make svcs env N ps2 nd i Ho2 Hi Hr1 Hsv2) as (ps3 & k & -> & Ho3 & Hr3). cbn [orPanic mbind Outcome_bind].
  eexists. split; [done|]. cbn [wires books procs set_wires set_procs set_books net set_net endnames].
  split; [|split; [done|split; [cbn [AddServer ends setServers]; by rewrite Hends, Ee|split; [|split]]]].
  2: { intros j. destruct (Z.eqb_spec j i) as [->|Hne]; [done|]. rewrite <- Er. by apply Hrest. }
  2: { exists k. intros j. rewrite Hr3, Er2. destruct (Z.eqb_spec j i); [done|by apply Hot]. }
  2: { intros j. destruct (Hrest j) as [Hj _]. change (isConnected ws j = negb (j =? i) && isConnected (wires cfg) j). rewrite Hj. apply Hco. }
  destruct (bootBooks_length _ _ _ _ Hbk) as [El Ea].
  split; cbn [n wires procs books set_wires set_procs set_books]; [apply Ht1|by apply wired_net|done| | |].
  - intros j Hj. cbn [net set_net]. unfold AddServer. rewrite servers_insert, Hr3. destruct (Z.eqb_spec j i) as [->|Hne]; [done|].
    destruct Hs as (_ & _ & _ & -> & _). rewrite Er2. by apply (tr_served _ _ _ Ht1).
  - rewrite El. apply Ht.
  - rewrite Ea. apply Ht.
Qed.

Lemma tracks_ext N cfg nd nd' : (forall i, 0 <= i < N -> nd i = nd' i) -> tracks N cfg nd -> tracks N cfg nd'.
Proof. intros E [? ? ? ? ? ?]. split; try done. by eapply owned_ext. Qed.

Lemma tracks_connect N cfg nd i names :
  tracks N cfg nd -> endnames (wires cfg) @! i = Some (Some names) ->
  exists ws, connect N i (wires cfg) = Some ws /\ tracks N (set_wires ws cfg) nd /\ endnames ws = endnames (wires cfg) /\
    forall j, isConnected ws j = (j =? i) || isConnected (wires cfg) j.
Proof.
  intros Ht Hrow. destruct (connect_wired N (wires cfg) i names (tr_wired _ _ _ Ht) Hrow) as (ws & -> & Hw & Er & Hs & Hc).
  exists ws. split; [done|]. split; [|done]. destruct Ht as [? ? ? Hsv ? ?]. split; try done.
  intros j Hj. cbn [wires set_wires procs]. destruct Hs as (_ & _ & _ & _ & -> & _). by apply Hsv.
Qed.

(** ** [make_config] *)

Lemma wired_empty N rn :
  0 <= N -> ends rn = ∅ -> enabled rn = ∅ -> connections rn = ∅ ->
  wired N (mkWires rn (replicate (Z.to_nat N) false) (replicate (Z.to_nat N) None)).
Proof.
  intros HN Ee En Ec.
  assert (forall i, isConnected (mkWires rn (replicate (Z.to_nat N) false) (replicate (Z.to_nat N) None)) i = false) as Hc.
  { intros i. unfold isConnected. simpl. destruct (replicate _ false @! i) as [b|] eqn:E; [|done].
    by apply go_index_lookup in E as [_ [-> _]%lookup_replicate]. }
  assert (forall i j, endnameAt (mkWires rn (replicate (Z.to_nat N) false) (replicate (Z.to_nat N) None)) i j = None) as Hn.
  { intros i j. unfold endnameAt. simpl. destruct (replicate _ None @! i) as [b|] eqn:E; [|done].
    by apply go_index_lookup in E as [_ [-> _]%lookup_replicate]. }
  split; simpl.
  - unfold zlen. rewrite length_replicate. lia.
  - unfold zlen. rewrite length_replicate. lia.
  - by intros i names [_ [E _]%lookup_replicate]%go_index_lookup.
  - intros i. by rewrite Hc.
  - intros i j i' j' e. by rewrite Hn.
  - intros i j e. by rewrite Hn.
  - intros e. unfold isEnabled. rewrite En. split; [done|]. intros (i & j & He & _). by rewrite Hn in He.
Qed.

(** The names of the client ends are all different. *)
Definition distinctNames (N : Z) (names : Z -> list string) : Prop :=
  (forall i, 0 <= i < N -> zlen (names i) = N /\ NoDup (names i)) /\
  forall i j s, 0 <= i < N -> 0 <= j < N -> s ∈ names i -> s ∈ names j -> i = j.

Lemma cinit_persister (nn : nat) envs i : persister (nodes (cinit (Cmd := Cmd) nn envs) i) = MakePersister.
Proof. apply (Make_state (envs i) nn i MakePersister). Qed.

Lemma tracks_empty (nn : nat) now envs unreliable :
  tracks (Z.of_nat nn) (emptyConfig now (Z.of_nat nn) unreliable) (nodes (cinit nn envs)).
Proof.
  split; cbn [n wires procs books emptyConfig]; try done.
  - by apply wired_empty; [lia|..].
  - apply owned_empty; [lia|]. intros i _. apply cinit_persister.
  - intros i Hi. cbn [rafts]. destruct (replicate _ None @! i) as [x|] eqn:E; [|done].
    by apply go_index_lookup in E as [_ [-> _]%lookup_replicate].
  - unfold zlen. simpl. rewrite length_replicate. lia.
  - unfold zlen. simpl. rewrite length_replicate. lia.
Qed.

(** The two loops: all servers are started, and then connected. *)
Lemma start_all (nn : nat) now envs names unreliable (N := Z.of_nat nn) :
  distinctNames N names ->
  exists cfg, forEach (below N) (fun i cfg => start1 svcs (envs i) (names i) i cfg) (emptyConfig now N unreliable) = Done cfg /\
    tracks N cfg (nodes (cinit nn envs)) /\
    forall j, 0 <= j < N -> endnames (wires cfg) @! j = Some (Some (names j)) /\ exists k, rafts (procs cfg) @! j = Some (Some k).
Proof.
  intros [Hn Hd]. set (nd := nodes (cinit nn envs)).
  destruct (forEach_rule_done (fun l cfg => tracks N cfg nd /\
      (forall e, e ∈ ends (net (wires cfg)) -> exists j s, j ∈ l /\ s ∈ names j /\ e = NStr s) /\
      forall j, j ∈ l -> endnames (wires cfg) @! j = Some (Some (names j)) /\ exists k, rafts (procs cfg) @! j = Some (Some k))
    (below N) (fun i cfg => start1 svcs (envs i) (names i) i cfg) (emptyConfig now N unreliable)) as (cfg & Hs & Ht & _ & Hrows).
  - split; [apply tracks_empty|]. split; [|by intros ? ?%not_elem_of_nil]. intros e. simpl. set_solver.
  - intros l1 i l2 cfg [Hi Hl]%below_split (Ht & He & Hr). destruct (Hn i Hi) as [Hlen Hnd].
    destruct (tracks_start (envs i) (names i) N cfg nd i (set_applied_upto (<[Z.to_nat i := 0]> (applied_upto (books cfg))) (books cfg)) Ht Hi)
      as (cfg' & Hs & Ht' & _ & Ee & Er & (k & Hk) & _).
    + split; [done|]. split; [done|]. intros s Hs' (j & s' & Hj & Hsj & [= <-])%He.
      apply Hl in Hj as Hj'. assert (i = j) as -> by (apply (Hd i j s); [done|lia|done|done]). lia.
    + unfold bootBooks. rewrite go_update_Some by (by rewrite (tr_applied _ _ _ Ht)). cbn [orPanic mbind Outcome_bind].
      unfold nd. by rewrite cinit_persister.
    + exists cfg'. split; [done|]. split; [|split].
      * eapply tracks_ext; [|done]. intros j Hj. upd_cases i j; [|done]. unfold nd at 1. rewrite cinit_persister. unfold N. by rewrite Nat2Z.id.
      * intros e. rewrite Ee. intros [(j & s & ? & ? & ?)%He|(s & -> & ?)%elem_of_list_to_set%list_elem_of_fmap]%elem_of_union;
          [exists j, s|exists i, s]; rewrite elem_of_snoc; auto.
      * intros j [Hj| ->]%elem_of_snoc; rewrite Er, Hk; [|rewrite Z.eqb_refl; eauto].
        rewrite (proj2 (Z.eqb_neq _ _)); [by apply Hr|]. apply Hl in Hj. lia.
  - exists cfg. split; [done|]. split; [done|]. intros j Hj%elem_of_below. by apply Hrows.
Qed.

Lemma connect_all N cfg nd (names : Z -> list string) :
  tracks N cfg nd -> (forall j, 0 <= j < N -> endnames (wires cfg) @! j = Some (Some (names j))) ->
  exists cfg', forEach (below N) (fun i cfg => ws ← orPanic (connect N i (wires cfg)); Done (set_wires ws cfg)) cfg
      = Done (E := @Failure Cmd) cfg' /\
    tracks N cfg' nd /\ procs cfg' = procs cfg /\ forall j, 0 <= j < N -> isConnected (wires cfg') j = true.
Proof.
  intros Ht Hrows.
  destruct (forEach_rule_done (fun l cfg' => tracks N cfg' nd /\ endnames (wires cfg') = endnames (wires cfg) /\ procs cfg' = procs cfg /\
        forall j, j ∈ l -> isConnected (wires cfg') j = true)
      (below N) (fun i cfg => ws ← orPanic (connect N i (wires cfg)); Done (E := @Failure Cmd) (set_wires ws cfg)) cfg) as (cfg' & -> & Ht' & _ & Ep & Hc).
  - split; [done|]. split; [done|]. split; [done|]. by intros ? ?%not_elem_of_nil.
  - intros l1 i l2 cfg1 [Hi Hl]%below_split (Ht1 & Er1 & Ep1 & Hc1).
    pose proof (Hrows i Hi) as Hrow. rewrite <- Er1 in Hrow.
    destruct (tracks_connect N cfg1 nd i (names i) Ht1 Hrow) as (ws & -> & Ht2 & Er2 & Hc2). eexists. split; [done|].
    split; [done|]. split; [cbn [wires set_wires]; congruence|]. split; [done|].
    intros j [Hj| ->]%elem_of_snoc; cbn [wires set_wires]; rewrite Hc2, ?Z.eqb_refl; [|done]. by rewrite Hc1, orb_true_r.
  - exists cfg'. split; [done|]. split; [done|]. split; [done|]. intros i Hi%elem_of_below. by apply Hc.
Qed.

(** A full set of servers, all connected. *)
Lemma make_config_tracks (nn : nat) now envs names unreliable :
  distinctNames (Z.of_nat nn) names ->
  exists cfg, make_config svcs now envs names (Z.of_nat nn) unreliable = Done cfg /\
    tracks (Z.of_nat nn) cfg (nodes (cinit nn envs)) /\
    forall i, 0 <= i < Z.of_nat nn -> isConnected (wires cfg) i = true /\ exists k, rafts (procs cfg) @! i = Some (Some k).
Proof.
  intros Hd. unfold make_config. destruct (start_all nn now envs names unreliable Hd) as (cfg & -> & Ht & Hr).
  cbn [mbind Outcome_bind]. destruct (connect_all (Z.of_nat nn) cfg _ names Ht) as (cfg' & -> & Ht' & Ep & Hc); [by apply Hr|].
  exists cfg'. split; [done|]. split; [done|]. intros i Hi. rewrite Ep. split; [by apply Hc|by apply Hr].
Qed.

(** ** The system *)

Context (nn : nat) (N := Z.of_nat nn).
Implicit Types (s : @config Cmd V Ty App * Cluster (Cmd := Cmd)).

(** The tables a request depends on. *)
Definition sameRoutes (rn rn' : TestNet) : Prop :=
  ends rn' = ends rn /\ enabled rn' = enabled rn /\ servers rn' = servers rn /\ connections rn' = connections rn.

(** The harness and the cluster its instances make up.  The test switches servers on and
    off; instances take steps; the network counts messages and may be made unreliable;
    messages from [applyCh] are checked. *)
Inductive hstep s : config * Cluster -> Prop :=
| h_connect i names ws :
    endnames (wires s.1) @! i = Some (Some names) -> connect (n s.1) i (wires s.1) = Some ws ->
    hstep s (set_wires ws s.1, s.2)
| h_disconnect i ws :
    disconnect (n s.1) i (wires s.1) = Some ws -> hstep s (set_wires ws s.1, s.2)
| h_crash i cfg :
    0 <= i < N -> crash1 i s.1 = Some cfg -> hstep s (cfg, s.2)
| h_start env names i cfg :
    0 <= i < N -> freshNames N names s.1 -> start1 svcs env names i s.1 = Done cfg ->
    hstep s (cfg, restart env i s.2)
| h_network rn :
    sameRoutes (net (wires s.1)) rn -> hstep s (set_wires (set_net rn (wires s.1)) s.1, s.2)
| h_applier i m bk :
    applier1 i m (books s.1) = Done bk -> hstep s (set_books bk s.1, s.2)
| h_applierSnap i m bk snap :
    applierSnap1 i m (books s.1) = Done (bk, snap) -> hstep s (set_books bk s.1, s.2)
| h_run i k lb rf ps w : (* the current instance of [i] *)
    rafts (procs s.1) @! i = Some (Some k) -> lstep nn s.2 lb w ->
    (forall j, nodes w j = upd (nodes s.2) i rf j) -> instanceRuns k rf (procs s.1) = Some ps ->
    hstep s (set_procs ps s.1, w)
| h_pass lb w : (* a step of the cluster that changes no peer *)
    lstep nn s.2 lb w -> (forall j, nodes w j = nodes s.2 j) -> hstep s (s.1, w)
| h_stray k rf ps : (* an earlier instance *)
    (forall i, rafts (procs s.1) @! i <> Some (Some k)) -> instanceRuns k rf (procs s.1) = Some ps ->
    hstep s (set_procs ps s.1, s.2).

Definition hinit s : Prop :=
  exists now envs names unreliable, distinctNames N names /\
    make_config svcs now envs names N unreliable = Done s.1 /\ s.2 = cinit nn envs.

Definition hreachable s : Prop := exists s0, hinit s0 /\ rtc hstep s0 s.

Lemma checkLogs_length i v index bk err prevok bk' :
  checkLogs i v index bk = Some (err, prevok, bk') ->
  zlen (logs bk') = zlen (logs bk) /\ applied_upto bk' = applied_upto bk.
Proof.
  unfold checkLogs. intros (err' & _ & H1)%bind_Some. apply bind_Some in H1 as (l & _ & H1).
  apply bind_Some in H1 as (ls & Hls & [= <- <- <-]). apply go_update_length in Hls. split; [|done].
  unfold zlen. simpl. by rewrite Hls.
Qed.

Lemma applier1_length i m bk bk' :
  applier1 i m bk = Done bk' -> zlen (logs bk') = zlen (logs bk) /\ applied_upto bk' = applied_upto bk.
Proof.
  destruct m as [v index|]; [|by intros [= <-]]. unfold applier1.
  intros ([[err prevok] bk1] & Hc%orPanic_Done & Hr)%outcome_bind_Done. cbv beta iota zeta in Hr.
  destruct (_ && _); [done|]. destruct err; [done|]. injection Hr as <-. by eapply checkLogs_length.
Qed.

Lemma ingestSnap_length i d k bk err bk' :
  ingestSnap i d k bk = Done (err, bk') ->
  zlen (logs bk') = zlen (logs bk) /\ zlen (applied_upto bk') = zlen (applied_upto bk).
Proof.
  unfold ingestSnap. destruct d; [done|]. destruct (decodeSnap _) as [[lii xlog]|]; [|done].
  destruct (negb _ && _); [by intros [= <- <-]|].
  intros (ls & Hls%orPanic_Done & Hin)%outcome_bind_Done. apply outcome_bind_Done in Hin as (la & Hla%orPanic_Done & [= <- <-]).
  apply go_update_length in Hls, Hla. unfold zlen. simpl. by rewrite Hls, Hla.
Qed.

Lemma applierSnap1_length i m bk bk' snap :
  applierSnap1 i m bk = Done (bk', snap) ->
  zlen (logs bk') = zlen (logs bk) /\ zlen (applied_upto bk') = zlen (applied_upto bk).
Proof.
  destruct m as [v index|d t k]; unfold applierSnap1.
  - intros (la & _ & Hr)%outcome_bind_Done. apply outcome_bind_Done in Hr as ([err bk1] & Hc & Hr).
    apply outcome_bind_Done in Hr as (la' & Hla%orPanic_Done & Hr). apply outcome_bind_Done in Hr as (l & _ & Hr).
    cbv beta iota zeta in Hr. destruct err; [done|]. injection Hr as <- _. apply go_update_length in Hla.
    assert (zlen (logs bk1) = zlen (logs bk) /\ applied_upto bk1 = applied_upto bk) as [El Ea].
    { destruct (negb _); [by injection Hc as _ <-|]. apply outcome_bind_Done in Hc as ([[e p] bk2] & Hc%orPanic_Done & [= _ <-]).
      by eapply checkLogs_length. }
    cbn [logs applied_upto set_applied_upto]. split; [done|]. unfold zlen. by rewrite Hla, Ea.
  - intros ([err bk1] & Hi & Hr)%outcome_bind_Done. destruct err; [done|]. injection Hr as <- _. by eapply ingestSnap_length.
Qed.

Lemma tracks_step s (s' : @config Cmd V Ty App * Cluster (Cmd := Cmd)) :
  tracks N s.1 (nodes s.2) -> base_inv nn s.2 -> hstep s s' ->
  tracks N s'.1 (nodes s'.2) /\ rtc (cstep nn) s.2 s'.2.
Proof.
  intros Ht Hb Hs. destruct Hs as [i names ws Hrow Hc|i ws Hd|i cfg Hi Hc|env names i cfg Hi Hf Hst|rn Hr|i m bk Ha|i m bk snap Ha
    |i k lb rf ps w Hk Hl Hn Hr|lb w Hl Hn|k rf ps Hk Hr]; cbn [fst snd].
  - split; [|done]. rewrite (tr_n _ _ _ Ht) in Hc. destruct (tracks_connect N _ _ i names Ht Hrow) as (ws' & Hc' & Ht' & _). congruence.
  - split; [|done]. rewrite (tr_n _ _ _ Ht) in Hd. assert (0 <= i < N) as Hi.
    { unfold disconnect in Hd. apply bind_Some in Hd as (l & Hl & _). unfold go_update in Hl.
      rewrite (wd_connected _ _ (tr_wired _ _ _ Ht)) in Hl. destruct (_ && _) eqn:E; [|done]. b2p. lia. }
    destruct (disconnect_wired N _ i (tr_wired _ _ _ Ht) Hi) as (ws' & Hd' & Hw & _ & Hsame & _).
    rewrite Hd in Hd'. injection Hd' as <-. destruct Ht as [? ? ? Hsv ? ?]. split; try done.
    intros j Hj. cbn [wires set_wires procs]. destruct Hsame as (_ & _ & _ & _ & -> & _). by apply Hsv.
  - split; [|done]. destruct (tracks_crash N _ _ i Ht Hi) as (cfg' & Hc' & Ht' & _). congruence.
  - split; [|apply rtc_once; exists (LRestart i); by constructor].
    assert (exists bk, bootBooks i (persister (nodes s.2 i)) (books s.1) = Done bk) as [bk Hbk].
    { unfold start1 in Hst. destruct (tracks_crash N _ _ i Ht Hi) as (cfg1 & Ec & Ht1 & _ & _ & Eb & _).
      rewrite Ec in Hst. cbn [orPanic mbind Outcome_bind] in Hst. apply outcome_bind_Done in Hst as (ws & _ & Hst). apply outcome_bind_Done in Hst as (bk & Hbk & _).
      rewrite (startBooks_boot N _ _ i _ (tr_owned _ _ _ Ht1) Hi), Eb in Hbk. by exists bk. }
    destruct (tracks_start env names N _ _ i bk Ht Hi Hf Hbk) as (cfg' & Hst' & Ht' & _). rewrite Hst in Hst'. injection Hst' as <-.
    eapply tracks_ext; [|done]. intros j Hj. simpl. upd_cases i j; [|done].
    rewrite Copy_id, (bi_npeers _ _ Hb i Hi), (bi_me _ _ Hb i Hi). unfold N. by rewrite Nat2Z.id.
  - split; [|done]. destruct Hr as (E1 & E2 & E3 & E4). destruct Ht as [? ? ? Hsv ? ?]. split; try done; [by apply wired_net|].
    intros j Hj. cbn [wires set_wires procs net set_net]. rewrite E3. by apply Hsv.
  - split; [|done]. destruct (applier1_length _ _ _ _ Ha) as [El Ea]. destruct Ht. split; try done; cbn [books set_books]; congruence.
  - split; [|done]. destruct (applierSnap1_length _ _ _ _ _ Ha) as [El Ea]. destruct Ht. split; try done; cbn [books set_books]; congruence.
  - split; [|apply rtc_once; by exists lb]. destruct (owned_runs N _ _ i k rf (tr_owned _ _ _ Ht) Hk) as (ps' & Hr' & Ho & Er & _).
    rewrite Hr in Hr'. injection Hr' as <-. eapply tracks_ext; [intros; symmetry; apply Hn|].
    destruct Ht as [? ? ? Hsv ? ?]. split; try done. intros j Hj. cbn [procs set_procs wires]. rewrite Er. by apply Hsv.
  - split; [|apply rtc_once; by exists lb]. by eapply tracks_ext; [intros; symmetry; apply Hn|].
  - split; [|done]. destruct (owned_stray N _ _ k rf ps (tr_owned _ _ _ Ht) Hk Hr) as (Ho & Er & _).
    destruct Ht as [? ? ? Hsv ? ?]. split; try done. intros j Hj. cbn [procs set_procs wires]. rewrite Er. by apply Hsv.
Qed.

Lemma hreachable_tracks s : hreachable s -> tracks N s.1 (nodes s.2) /\ creachable nn s.2.
Proof.
  intros (s0 & (now & envs & names & unrel & Hd & Hm & E) & Hs).
  assert (tracks N s0.1 (nodes s0.2) /\ creachable nn s0.2) as Hinit.
  { destruct (make_config_tracks nn now envs names unrel Hd) as (cfg & Hm' & Ht & _). fold N in Hm', Ht. rewrite Hm in Hm'. injection Hm' as <-.
    rewrite E. split; [done|]. by exists envs. }
  clear Hm E Hd. induction Hs as [|s1 s2 s3 H12 _ IH]; [done|]. apply IH. destruct Hinit as [Ht Hr].
  destruct (tracks_step s1 s2 Ht (creachable_base nn _ Hr) H12) as [Ht' Hs']. split; [done|].
  destruct Hr as [envs' Hr]. exists envs'. by etrans.
Qed.

(** ** Theorems *)

(** C19. The harness runs the cluster: whatever it does to its servers, and whatever earlier
    instances still do, the states of the servers that are up are those of a cluster that
    [RaftCluster] can reach, and a server that is down has saved what its peer in that
    cluster would be restarted from. *)
Theorem harness_runs_cluster cfg w :
  hreachable (cfg, w) ->
  creachable nn w /\ forall i, 0 <= i < N ->
    (forall k, rafts (procs cfg) @! i = Some (Some k) -> in_raft <$> objs (procs cfg) !! k = Some (nodes w i)) /\
    (savedPersister i (procs cfg) = Some (Some (persister (nodes w i))) \/
     savedPersister i (procs cfg) = Some None /\ persister (nodes w i) = MakePersister).
Proof.
  intros [Ht Hr]%hreachable_tracks. split; [done|]. intros i Hi. cbn [fst snd] in *. split.
  - intros k Hk. destruct (ow_live _ _ _ (tr_owned _ _ _ Ht) i k Hk) as (o & -> & <- & _). done.
  - destruct (ow_kept _ _ _ (tr_owned _ _ _ Ht) i Hi) as [?|(? & ? & _)]; auto.
Qed.

(** C21. Who talks to whom: a request is executed only if it comes through an end of the
    current instance of a connected server, and then by the current instance of the
    connected server the end leads to; and on a reliable network it is. *)
Theorem harness_routes cfg w roll (req : @reqMsg NetName Ty) :
  hreachable (cfg, w) ->
  let rn := net (wires cfg) in
  (forall sn k rel lre, processReq_start roll req rn = Execute sn k rel lre ->
    exists i j, endnameAt (wires cfg) i j = Some (endname req) /\ sn = NInt j /\
      isConnected (wires cfg) i = true /\ isConnected (wires cfg) j = true /\ rafts (procs cfg) @! j = Some (Some k)) /\
  (forall i j k, endnameAt (wires cfg) i j = Some (endname req) ->
    isConnected (wires cfg) i = true -> isConnected (wires cfg) j = true -> rafts (procs cfg) @! j = Some (Some k) ->
    reliable rn = true -> processReq_start roll req rn = Execute (NInt j) k true (longReordering rn)).
Proof.
  intros [Ht _]%hreachable_tracks rn. subst rn. cbn [fst snd] in Ht. pose proof (tr_wired _ _ _ Ht) as Hw.
  unfold processReq_start, readEndnameInfo. change (go_map_get false (enabled (net (wires cfg))) (endname req)) with (isEnabled (net (wires cfg)) (endname req)). split.
  - intros sn k rel lre. destruct (isEnabled (net (wires cfg)) (endname req)) eqn:He; [|done].
    apply (wd_enabled _ _ Hw) in He as (i & j & He & Hi & Hj). destruct (wd_ends _ _ Hw _ _ _ He) as [_ ->]. cbn [mbind option_bind].
    pose proof (isConnected_bounds _ _ _ Hw Hj) as Hjb. rewrite (tr_served _ _ _ Ht j Hjb).
    destruct (rafts (procs cfg) @! j) as [[k'|]|] eqn:Hr; [|done..]. simpl. destruct (_ && _); [done|]. intros [= <- <- <- <-].
    exists i, j. by split_and!.
  - intros i j k He Hi Hj Hk Hrel. assert (isEnabled (net (wires cfg)) (endname req) = true) as -> by (apply (wd_enabled _ _ Hw); eauto).
    destruct (wd_ends _ _ Hw _ _ _ He) as [_ ->]. cbn [mbind option_bind].
    rewrite (tr_served _ _ _ Ht j) by (by eapply isConnected_bounds). rewrite Hk. simpl. by rewrite Hrel.
Qed.
End harness.

(** ** Running the harness *)

Section hrun.
Context {Cmd : Type} `{EqDecision Cmd} `{StateCodec Cmd} `{!StateCodecOk Cmd} `{SnapCodec Cmd}.
Context {V Ty App : Type} (svcs : nat -> list (@LabRpc.Service V Ty App)) (nn : nat).

Inductive HEvent :=
| HConnect (i : Z)
| HDisconnect (i : Z)
| HCrash (i : Z)
| HStart (env : Env) (names : list string) (i : Z)
| HTick (env : Env) (i : Z)                (* the ticker of the current instance *)
| HStray (k : nat) (rf : Raft Cmd).        (* an earlier instance gets to a state *)

Definition freshNamesb (N : Z) (names : list string) (cfg : @config Cmd V Ty App) : bool :=
  (zlen names =? N) && bool_decide (NoDup names) &&
  forallb (fun s => bool_decide (NStr s ∉ ends (net (wires cfg)))) names.

Definition hexec (ev : HEvent) (s : config * Cluster) : option (config * Cluster) :=
  let '(cfg, w) := s in
  match ev with
  | HConnect i =>
      match endnames (wires cfg) @! i with
      | Some (Some _) => ws ← connect (n cfg) i (wires cfg); Some (set_wires ws cfg, w)
      | _ => None
      end
  | HDisconnect i => ws ← disconnect (n cfg) i (wires cfg); Some (set_wires ws cfg, w)
  | HCrash i => if isPeer nn i then cfg ← crash1 i cfg; Some (cfg, w) else None
  | HStart env names i =>
      if isPeer nn i && freshNamesb (Z.of_nat nn) names cfg then
        match start1 svcs env names i cfg with Done cfg => Some (cfg, restart env i w) | _ => None end
      else None
  | HTick env i =>
      match rafts (procs cfg) @! i with
      | Some (Some k) =>
          w' ← exec nn (EvTick env i) w; ps ← instanceRuns k (nodes w' i) (procs cfg); Some (set_procs ps cfg, w')
      | _ => None
      end
  | HStray k rf =>
      if forallb (fun o => negb (bool_decide (o = Some k))) (rafts (procs cfg)) then
        ps ← instanceRuns k rf (procs cfg); Some (set_procs ps cfg, w)
      else None
  end.

Fixpoint hrun (evs : list HEvent) (s : config * Cluster) : option (config * Cluster) :=
  match evs with [] => Some s | ev :: evs => s ← hexec ev s; hrun evs s end.

Lemma freshNamesb_sound N names cfg : freshNamesb N names cfg = true -> freshNames N names cfg.
Proof.
  unfold freshNamesb. intros [[Hl Hn]%andb_prop Hf]%andb_prop. b2p. split; [done|]. split; [done|]. rewrite forallb_forall in Hf.
  intros s Hs%list_elem_of_In. specialize (Hf s Hs). by apply bool_decide_eq_true in Hf.
Qed.

Lemma hexec_sound ev s s' : hexec ev s = Some s' -> hstep svcs nn s s'.
Proof.
  destruct s as [cfg w]. destruct ev as [i|i|i|env names i|env i|k rf]; simpl; intros He.
  - destruct (endnames (wires cfg) @! i) as [[names|]|] eqn:Hrow; [|done..]. bind_all. by eapply (h_connect _ _ (cfg, w)).
  - bind_all. by eapply (h_disconnect _ _ (cfg, w)).
  - destruct (isPeer nn i) eqn:Hi; [apply isPeer_peer in Hi|done]. bind_all. eapply (h_crash _ _ (cfg, w)); [exact Hi|done].
  - destruct (isPeer nn i) eqn:Hi; [apply isPeer_peer in Hi|done]. destruct (freshNamesb _ _ _) eqn:Hf; [|done]. simpl in He.
    destruct (start1 _ _ _ _ _) eqn:Hs; [|done..]. injection He as <-. eapply (h_start _ _ (cfg, w)); [exact Hi|exact (freshNamesb_sound _ _ _ Hf)|exact Hs].
  - destruct (rafts (procs cfg) @! i) as [[k|]|] eqn:Hk; [|done..]. apply bind_Some in He as (w' & He & Hr).
    apply bind_Some in Hr as (ps & Hr & [= <-]). eapply (h_run _ _ (cfg, w)); [done|exact (exec_label nn (EvTick env i) w w' He)| |done].
    destruct (isPeer nn i); [|done]. apply bind_Some in He as ([rf eff] & _ & [= <-]). intros j. simpl.
    case_match; simpl; unfold upd; repeat case_decide; subst; done.
  - destruct (forallb _ _) eqn:Hf; [|done]. bind_all. eapply (h_stray _ _ (cfg, w)); [|done]. intros i Hi. simpl in Hi.
    rewrite forallb_forall in Hf. apply go_index_lookup in Hi as [_ Hi%list_elem_of_lookup_2%list_elem_of_In%Hf].
    by rewrite bool_decide_eq_true_2 in Hi.
Qed.

Lemma hrun_sound evs s s' : hrun evs s = Some s' -> rtc (hstep svcs nn) s s'.
Proof.
  revert s. induction evs as [|ev evs IH]; intros s Hr; simpl in Hr; [by simplify_eq|].
  apply bind_Some in Hr as (s1 & He & Hr). eapply rtc_l; [exact (hexec_sound _ _ _ He)|by apply IH].
Qed.

Definition distinctNamesb (N : Z) (names : Z -> list string) : bool :=
  forallb (fun i => zlen (names i) =? N) (below N) && bool_decide (NoDup (mjoin (names <$> below N))).

Lemma NoDup_mjoin_fmap {A B} (f : A -> list B) (l : list A) :
  NoDup (mjoin (f <$> l)) ->
  (forall x, x ∈ l -> NoDup (f x)) /\
  (NoDup l -> forall x y b, x ∈ l -> y ∈ l -> b ∈ f x -> b ∈ f y -> x = y).
Proof.
  induction l as [|x l IH]; simpl; [split; [by intros ? ?%not_elem_of_nil|by intros _ ? ? ? ?%not_elem_of_nil]|].
  intros (Hx & Hd & [Hl Hu]%IH)%NoDup_app.
  assert (forall y b, y ∈ l -> b ∈ f x -> b ∈ f y -> False) as Hxl.
  { intros y b Hy Hb Hb'. apply (Hd b Hb). apply list_elem_of_join. exists (f y). split; [done|]. by apply list_elem_of_fmap_2. }
  split; [intros y [->|?]%elem_of_cons; auto|]. intros [_ Hnd]%NoDup_cons y z b [->|Hy]%elem_of_cons [->|Hz]%elem_of_cons Hb Hb'; try done.
  - by destruct (Hxl z b).
  - by destruct (Hxl y b).
  - by eapply Hu.
Qed.

Lemma distinctNamesb_sound N names : distinctNamesb N names = true -> distinctNames N names.
Proof.
  unfold distinctNamesb. intros [Hl Hd]%andb_prop. apply bool_decide_eq_true, NoDup_mjoin_fmap in Hd as [Hd1 Hd2].
  rewrite forallb_forall in Hl. split.
  - intros i Hi%elem_of_below. split; [|by apply Hd1]. apply list_elem_of_In, Hl in Hi. by b2p.
  - intros i j s Hi%elem_of_below Hj%elem_of_below. apply Hd2; [apply NoDup_seqZ|done..].
Qed.
End hrun.
Arguments HEvent Cmd : clear implicits.

(** ** Example *)

#[global] Instance bitSnapCodec Cmd `{Countable Cmd} : SnapCodec Cmd := {|
  encodeSnap k l := bitsOfPos (encode (k, l));
  decodeSnap b := p ← posOfBits b; decode p;
|}.

#[global] Instance bitSnapCodecOk Cmd `{Countable Cmd} : SnapCodecOk Cmd.
Proof.
  split; intros k l; simpl; [|apply bitsOfPos_nonempty]. rewrite posOfBits_bitsOfPos. simpl. by rewrite decode_encode.
Qed.

(** Names for the ends of server [i], in its [r]-th life. *)
Definition demoNames (r i : Z) : list string :=
  (fun j => pretty r +:+ "-" +:+ pretty i +:+ "-" +:+ pretty j)%string <$> below 3.

Abbreviation demoConfig := (@config Z bytes unit nat).

Definition demoMade : option (demoConfig * Cluster (Cmd := Z)) :=
  match make_config (fun _ => []) 0 (fun _ => demoEnv) (demoNames 0) 3 false with
  | Done cfg => Some (cfg, cinit 3 (fun _ => demoEnv))
  | _ => None
  end.

(** Server 1 starts an election and crashes; its old instance goes on and forgets all it
    saved; server 1 is started again and connected. *)
Definition demoHarness : list (HEvent Z) :=
  [HTick lateEnv 1; HCrash 1; HStray 1 (Make demoEnv 3 1 MakePersister); HStart demoEnv (demoNames 1 1) 1; HDisconnect 2; HConnect 1].

Definition demoPlayed : option (demoConfig * Cluster (Cmd := Z)) :=
  s ← demoMade; hrun (fun _ => []) 3 demoHarness s.

Lemma demoPlayed_reachable cfg w : demoPlayed = Some (cfg, w) -> hreachable (fun _ => []) 3 (cfg, w).
Proof.
  unfold demoPlayed, demoMade. intros (s & Hm & Hr%hrun_sound)%bind_Some. exists s. split; [|done].
  destruct (make_config _ _ _ _ _ _) as [cfg0| |] eqn:E; [|done..]. injection Hm as <-.
  exists 0, (fun _ => demoEnv), (demoNames 0), false. split; [apply distinctNamesb_sound; vm_compute; reflexivity|]. by split.
Qed.

(** What the example is about: who is connected, the term server 1 had saved, and the
    pointers to its instance and persister. *)
Definition demoShow : option (list bool * option Z * option (option nat) * option (option nat)) :=
  '(cfg, w) ← demoPlayed;
  Some (isConnected (wires cfg) <$> below 3, currentTerm ∘ in_raft <$> objs (procs cfg) !! 3%nat,
        rafts (procs cfg) @! 1, saved (procs cfg) @! 1).

Lemma demoPlayed_Some : isSome demoPlayed = true.
Proof. vm_compute. reflexivity. Qed.

Lemma harness_runs_cluster_witness :
  demoShow = Some ([true; true; false], Some 1, Some (Some 3%nat), Some (Some 7%nat)) /\
  exists cfg w, demoPlayed = Some (cfg, w) /\ creachable 3 w /\ in_raft <$> objs (procs cfg) !! 3%nat = Some (nodes w 1).
Proof.
  split; [vm_compute; reflexivity|].
  assert ((fun '(cfg, _) => rafts (procs cfg) @! 1) <$> demoPlayed = Some (Some (Some 3%nat))) as Hk by (vm_compute; reflexivity).
  pose proof demoPlayed_Some as E. destruct demoPlayed as [[cfg w]|] eqn:Hp; [|discriminate E]. exists cfg, w. split; [reflexivity|].
  destruct (harness_runs_cluster (fun _ => []) 3 cfg w (demoPlayed_reachable cfg w Hp)) as [Hr Hn]. split; [exact Hr|].
  destruct (Hn 1) as [Hl _]; [split; lia|]. apply Hl. by injection Hk.
Defined.

(** Server 0 calls server 1. *)
Definition demoVote : @reqMsg NetName unit := mkReq (NStr "0-0-1") "Raft.RequestVote" tt [].

Lemma harness_routes_witness :
  exists cfg w, demoPlayed = Some (cfg, w) /\
    processReq_start 0 demoVote (net (wires cfg)) = Execute (NInt 1) 3%nat true false.
Proof.
  assert ((fun '(cfg, _) => (endnameAt (wires cfg) 0 1, isConnected (wires cfg) 0, isConnected (wires cfg) 1, rafts (procs cfg) @! 1,
    reliable (net (wires cfg)), longReordering (net (wires cfg)))) <$> demoPlayed =
    Some (Some (NStr "0-0-1"), true, true, Some (Some 3%nat), true, false)) as Hk by (vm_compute; reflexivity).
  pose proof demoPlayed_Some as E. destruct demoPlayed as [[cfg w]|] eqn:Hp; [|discriminate E]. exists cfg, w. split; [reflexivity|].
  injection Hk as H1 H2 H3 H4 H5 H6. rewrite <- H6.
  exact (proj2 (harness_routes (fun _ => []) 3 cfg w 0 demoVote (demoPlayed_reachable cfg w Hp)) 0 1 3%nat H1 H2 H3 H4 H5).
Defined.
