(* ===== verification/RaftTester.v ===== *)
(** * The checks of the Raft test harness never fail

    The readers of [applyCh] in [raft/config.go] record what each server reports and stop
    the test when two servers report different commands for an index, or a server skips
    one.  Here they run on top of the cluster, for the tests without snapshots
    ([applier]).  A reader takes one message at a time and may check it
    late; a restarted server gets a new reader, while the old one goes on with the messages
    it still has or gets.  In no run does a check fail, and what [nCommitted] and [one]
    return is agreed on for good. *)

From S2P Require Import Prelude LabRpc Persister Raft RaftCodec RaftLocal RaftCluster RaftRun RaftElection RaftAbstract RaftRefinement RaftSafety RaftDelivery Replicated Harness RaftConfig.

Section tester.
Context {Cmd : Type} `{EqDecision Cmd} `{StateCodec Cmd} (nn : nat).
Implicit Types (w : Cluster (Cmd := Cmd)) (A : @Spec Cmd) (bk : @Books Cmd) (o : Observed (Cmd := Cmd)).

(** ** The system *)

(** [pending] are the messages taken from [applyCh] and not yet checked, each with the
    server and the incarnation whose reader has it. *)
Record Tester := mkTester {
  t_obs : Observed (Cmd := Cmd);
  pending : list (Z * nat * ApplyMsg Cmd);
  t_books : Outcome (@Failure Cmd) (@Books Cmd);
}.
Implicit Types (t : Tester).

(** The reader [(i, inc)] has no message in [l]. *)
Definition idle (i : Z) (inc : nat) (l : list (Z * nat * ApplyMsg Cmd)) : Prop := forall m, (i, inc, m) ∉ l.

Inductive tstep t : Tester -> Prop :=
| ts_raft lb w' :
    lstep nn (world (t_obs t)) lb w' -> lb = LTau \/ (exists i cmd r, lb = LStart i cmd r) ->
    tstep t (mkTester (observe lb (t_obs t) w') (pending t) (t_books t))
| ts_receive i m w' :
    lstep nn (world (t_obs t)) (LDeliver i m) w' -> idle i (incs (world (t_obs t)) i) (pending t) ->
    tstep t (mkTester (observe (LDeliver i m) (t_obs t) w') (pending t ++ [(i, incs (world (t_obs t)) i, m)]) (t_books t))
| ts_check l1 i inc m l2 :
    pending t = l1 ++ (i, inc, m) :: l2 -> idle i inc l1 ->
    tstep t (mkTester (t_obs t) (l1 ++ l2) (bk ← t_books t; applier1 i m bk))
| ts_restart i w' late : (* the old instance may still send the message it has *)
    lstep nn (world (t_obs t)) (LRestart i) w' ->
    late = [] \/ (exists m, delivering (world (t_obs t)) i = Some m /\ late = [(i, incs (world (t_obs t)) i, m)]) ->
    tstep t (mkTester (observe (LRestart i) (t_obs t) w') (pending t ++ late) (t_books t)).

Definition emptyBooks : @Books Cmd :=
  mkBooks (replicate nn ∅) (replicate nn 0) 0 (replicate nn None).

Definition tinit (envs : Z -> Env) : Tester := mkTester (dinit nn envs) [] (Done emptyBooks).

Definition treachable t : Prop := exists envs, rtc tstep (tinit envs) t.

(** ** What the checks need *)

Definition noSnap (l : list (option Cmd)) : bytes := [].

Definition reported bk (i k : Z) : Prop := exists l, logs bk @! i = Some l /\ is_Some (l !! k).

(** How far server [i] has got with its messages. *)
Definition position w (i : Z) : Z := (consumed 0 (applied w i)).1.

(** The books hold committed commands only, without gaps; every pending command is
    committed, too, and comes after those before it; and nothing a server was given is
    missing. *)
Record goodBooks A w (pend : list (Z * nat * ApplyMsg Cmd)) bk : Prop := {
  gb_len : zlen (logs bk) = Z.of_nat nn;
  gb_err : applyErr bk = replicate nn None;
  gb_ok i l k v : logs bk @! i = Some l -> l !! k = Some v -> msg_ok nn A (CommandMsg v k);
  gb_gapless i k : reported bk i k -> 1 < k -> reported bk i (k - 1);
  gb_pending l1 i inc m l2 : pend = l1 ++ (i, inc, m) :: l2 ->
    exists c k, m = CommandMsg c k /\ peer nn i /\ (inc <= incs w i)%nat /\ msg_ok nn A m /\
      (1 < k -> reported bk i (k - 1) \/ exists c', (i, inc, CommandMsg c' (k - 1)) ∈ l1);
  gb_covers i k : peer nn i -> 1 <= k <= position w i ->
    reported bk i k \/ exists c, (i, incs w i, CommandMsg c k) ∈ pend;
}.

Record tinv A t : Prop := {
  ti_obs : dinv nn noSnap A (t_obs t);
  ti_nosnap : nosnap nn (world (t_obs t));
  ti_base i : peer nn i -> base (t_obs t) i = 0;
  ti_books : exists bk, t_books t = Done bk /\ goodBooks A (world (t_obs t)) (pending t) bk;
}.

(** ** The books *)

Lemma reported_insert bk i k v l ls mi j k' :
  logs bk @! i = Some l -> go_update (logs bk) i (<[k := v]> l) = Some ls ->
  reported (mkBooks ls (applied_upto bk) mi (applyErr bk)) j k' <-> reported bk j k' \/ j = i /\ k' = k.
Proof.
  intros Hl Hu. unfold reported. cbn [logs]. rewrite (go_update_index _ _ _ _ j Hu).
  destruct (Z.eqb_spec j i) as [->|Hne].
  - split.
    + intros (l' & [= <-] & Hk). destruct (decide (k' = k)) as [->|]; [auto|]. rewrite lookup_insert_ne in Hk by done. eauto.
    + intros [(l' & Hl' & Hk)|[_ ->]]; (eexists; split; [done|]).
      * rewrite Hl in Hl'. injection Hl' as <-. destruct (decide (k' = k)) as [->|]; [by rewrite lookup_insert_eq|by rewrite lookup_insert_ne].
      * by rewrite lookup_insert_eq.
  - naive_solver.
Qed.

(** A command that agrees with all that was reported passes, unless it comes too early. *)
Lemma checkLogs_ok i v index bk l :
  logs bk @! i = Some l ->
  (forall j l' old, logs bk @! j = Some l' -> l' !! index = Some old -> old = v) ->
  exists ls mi, go_update (logs bk) i (<[index := v]> l) = Some ls /\
    checkLogs i v index bk = Some (None, isSome (l !! (index - 1)), mkBooks ls (applied_upto bk) mi (applyErr bk)).
Proof.
  intros Hl Hv. unfold checkLogs.
  assert (forEach (below (zlen (logs bk))) (fun j err => l ← logs bk @! j;
    Some (match l !! index with Some old => if bool_decide (old = v) then err else Some (CommitMismatch index i v j old) | None => err end)) None
    = Some None) as ->.
  { destruct (forEach_rule (fun _ err => err = @None (@ApplyError Cmd)) (below (zlen (logs bk))) (fun j err => l ← logs bk @! j;
      Some (match l !! index with Some old => if bool_decide (old = v) then err else Some (CommitMismatch index i v j old) | None => err end)) None)
      as (? & -> & ->); [done| |done].
    intros l1 j l2 err [Hj _]%below_split ->. destruct (go_index_in_range (logs bk) j Hj) as [l' Hl']. rewrite Hl'. simpl.
    eexists. split; [done|]. destruct (l' !! index) as [old|] eqn:Ho; [|done]. by rewrite bool_decide_eq_true_2 by (by eapply Hv). }
  cbn [mbind option_bind]. rewrite Hl. cbn [mbind option_bind].
  rewrite go_update_Some by (by eapply go_index_Some_bound). cbn [mbind option_bind]. eauto.
Qed.

Lemma applier1_ok i v index bk l :
  logs bk @! i = Some l ->
  (forall j l' old, logs bk @! j = Some l' -> l' !! index = Some old -> old = v) ->
  (1 < index -> is_Some (l !! (index - 1))) ->
  exists ls mi, go_update (logs bk) i (<[index := v]> l) = Some ls /\
    applier1 i (CommandMsg v index) bk = Done (mkBooks ls (applied_upto bk) mi (applyErr bk)).
Proof.
  intros Hl Hv Hp. destruct (checkLogs_ok i v index bk l Hl Hv) as (ls & mi & Hu & Hc). exists ls, mi. split; [done|].
  unfold applier1. rewrite Hc. cbn [orPanic mbind Outcome_bind]. rewrite Z.gtb_ltb. destruct (Z.ltb_spec 1 index) as [Hlt|]; [|done].
  by destruct (Hp Hlt) as [x ->].
Qed.

(** ** Steps *)

Context `{!StateCodecOk Cmd}.

Lemma goodBooks_mono A A' w w' pend bk :
  grows A A' -> (forall i, (incs w i <= incs w' i)%nat) ->
  (forall i k, peer nn i -> 1 <= k <= position w' i -> reported bk i k \/ exists c, (i, incs w' i, CommandMsg c k) ∈ pend) ->
  goodBooks A w pend bk -> goodBooks A' w' pend bk.
Proof.
  intros Hg Hi Hc [Hl He Ho Hgap Hp _]. split; try done.
  - intros i l k v Hl' Hk. by eapply msg_ok_mono; [|by eapply Ho].
  - intros l1 i inc m l2 E. destruct (Hp l1 i inc m l2 E) as (c & k & -> & ? & ? & ? & ?). exists c, k.
    split_and!; [done|done|specialize (Hi i); lia|by eapply msg_ok_mono|done].
Qed.

(** The messages a step leaves alone. *)
Lemma position_same w w' i : applied w' i = applied w i -> position w' i = position w i.
Proof. unfold position. by intros ->. Qed.

Lemma lstep_incs w lb w' i :
  lstep nn w lb w' -> incs w' i = match lb with LRestart j => if decide (i = j) then S (incs w i) else incs w i | _ => incs w i end.
Proof. intros Hs. destruct Hs; simpl; try done; try (by case_match). unfold upd. by case_decide; subst. Qed.

Lemma tinv_step_obs A t lb w' :
  tinv A t -> lstep nn (world (t_obs t)) lb w' -> (forall i k d, lb <> LSnapshot i k d) ->
  exists A', dinv nn noSnap A' (observe lb (t_obs t) w') /\ grows A A' /\ nosnap nn w' /\
    forall i, peer nn i -> base (observe lb (t_obs t) w') i = 0.
Proof.
  intros [Hd Hns Hb _] Hs Hlb.
  destruct (dinv_step nn noSnap A (t_obs t) lb (observe lb (t_obs t) w') Hd) as (A' & Hd' & Hg).
  { exists w'. split_and!; [done|by eapply nosnap_inOrder| |done]. by destruct lb; try done; destruct (Hlb i index snap). }
  exists A'. split_and!; [done|done|exact (nosnap_step nn A _ lb w' (di_rel _ _ _ _ Hd) Hns Hs Hlb)|].
  intros i Hi. destruct lb as [| | | |j]; simpl; try (by apply Hb). upd_cases j i; [by apply Hns|by apply Hb].
Qed.

Lemma tinv_raft A t lb w' :
  tinv A t -> lstep nn (world (t_obs t)) lb w' -> lb = LTau \/ (exists i cmd r, lb = LStart i cmd r) ->
  exists A', tinv A' (mkTester (observe lb (t_obs t) w') (pending t) (t_books t)) /\ grows A A'.
Proof.
  intros Ht Hs Hlb. destruct (tinv_step_obs A t lb w' Ht Hs) as (A' & Hd & Hg & Hns & Hb); [naive_solver|].
  assert (forall i, applied w' i = applied (world (t_obs t)) i /\ incs w' i = incs (world (t_obs t)) i) as Hsame.
  { intros i. rewrite (lstep_applied _ _ _ _ i Hs), (lstep_incs _ _ _ i Hs). destruct Hlb as [->|(? & ? & ? & ->)]; done. }
  exists A'. split; [|done]. destruct (ti_books _ _ Ht) as (bk & Ebk & Hg'). split; cbn [t_obs pending t_books]; try done.
  exists bk. split; [done|]. eapply (goodBooks_mono A A' (world (t_obs t)) w'); [done| | |done].
  - intros i. by destruct (Hsame i) as [_ ->].
  - intros i k Hi. rewrite (position_same _ _ i (proj1 (Hsame i))), (proj2 (Hsame i)). by apply (gb_covers _ _ _ _ Hg').
Qed.

(** The message [m] for server [i] has index at most one past its position, and moves it
    there. *)
Lemma next_message A t i m w' A' :
  tinv A t -> dinv nn noSnap A' (observe (LDeliver i m) (t_obs t) w') -> lstep nn (world (t_obs t)) (LDeliver i m) w' -> peer nn i ->
  exists c k, m = CommandMsg c k /\ k <= position (world (t_obs t)) i + 1 /\
    (position w' i = position (world (t_obs t)) i \/ position w' i = k /\ k = position (world (t_obs t)) i + 1).
Proof.
  intros Ht Hd' Hs Hi. pose proof (nosnap_deliver nn noSnap A (t_obs t) i m w' (ti_obs _ _ Ht) (ti_nosnap _ _ Ht) Hs) as Hm.
  destruct m as [c k|]; [|done]. exists c, k. split; [done|].
  destruct (di_service _ _ _ _ (ti_obs _ _ Ht) i Hi) as [Hb (p & q & Htold & Hpl) _].
  destruct (di_service _ _ _ _ Hd' i Hi) as [Hb' (p' & q' & Htold' & _) _].
  cbn [world observe base] in Hb', Htold'. rewrite (ti_base _ _ Ht i Hi) in *.
  pose proof (told_consumed _ _ _ _ _ _ Hb Htold) as E. pose proof (told_consumed _ _ _ _ _ _ Hb' Htold') as E'.
  unfold position. rewrite E, E'. cbn [fst]. rewrite (lstep_applied _ _ _ _ i Hs), decide_True in Htold' by done.
  assert (told noSnap (clog (observe (LDeliver i (CommandMsg c k)) (t_obs t) w')) 0 (applied (world (t_obs t)) i) p q) as Ht0.
  { destruct (observe_clog (LDeliver i (CommandMsg c k)) (t_obs t) w') as [l ->]. by apply told_app. }
  pose proof (told_bounds _ _ _ _ _ _ Hb Htold) as Hpq.
  pose proof (told_last _ _ _ _ _ _ _ _ _ Hb' Htold' Ht0) as Hlast.
  inversion Hlast as [m0 Hk E0 Ep Eq|c0 Hc0 E0 Ep Eq|]; subst; cbn [msgIndex] in *; [split; [lia|by left]|].
  split; [lia|right; by split].
Qed.

Lemma tinv_receive A t i m w' :
  tinv A t -> lstep nn (world (t_obs t)) (LDeliver i m) w' -> idle i (incs (world (t_obs t)) i) (pending t) ->
  exists A', tinv A' (mkTester (observe (LDeliver i m) (t_obs t) w') (pending t ++ [(i, incs (world (t_obs t)) i, m)]) (t_books t)) /\ grows A A'.
Proof.
  intros Ht Hs Hidle. destruct (tinv_step_obs A t _ w' Ht Hs) as (A' & Hd & Hg & Hns & Hb); [done|].
  pose proof (lstep_peer _ _ _ _ (rl_base _ _ _ (di_rel _ _ _ _ (ti_obs _ _ Ht))) Hs) as Hi. simpl in Hi.
  destruct (next_message A t i m w' A' Ht Hd Hs Hi) as (c & k & -> & Hk & Hpos).
  destruct (ti_books _ _ Ht) as (bk & Ebk & Hgb). exists A'. split; [|done]. split; cbn [t_obs pending t_books]; try done.
  exists bk. split; [done|]. pose proof (fun j => lstep_incs _ _ _ j Hs) as Hinc. simpl in Hinc.
  assert (forall k', 1 <= k' <= position (world (t_obs t)) i -> reported bk i k') as Hcov.
  { intros k' Hk'. destruct (gb_covers _ _ _ _ Hgb i k' Hi Hk') as [?|[c' Hc']]; [done|by destruct (Hidle _ Hc')]. }
  assert (goodBooks A' (world (t_obs t)) (pending t) bk) as Hgb'.
  { eapply goodBooks_mono; [done|done|apply Hgb|done]. }
  destruct Hgb' as [Hl He Ho Hgap Hp Hc]. split; try done.
  - intros l1 j inc m' l2 E. cbn [world observe]. rewrite Hinc. destruct l2 as [|x l2' _] using rev_ind.
    + apply app_inj_tail in E as [<- [= <- <- <-]]. exists c, k. split_and!; [done|done|done| |].
      * apply (rl_received _ _ _ (di_rel _ _ _ _ Hd) i). cbn [world observe]. rewrite (lstep_applied _ _ _ _ i Hs), decide_True by done.
        apply elem_of_app. right. left.
      * intros Hk1. left. apply Hcov. lia.
    + rewrite app_comm_cons, app_assoc in E. apply app_inj_tail in E as [E _]. by apply (Hp l1 j inc m' l2').
  - intros j k' Hj. cbn [world observe]. rewrite Hinc. destruct (decide (j = i)) as [->|Hne].
    + intros Hk'. destruct Hpos as [E|[E1 E2]]; [left; apply Hcov; cbn [world observe] in Hk'; lia|].
      destruct (decide (k' = k)) as [->|]; [right; exists c; apply elem_of_app; right; left|left; apply Hcov; cbn [world observe] in Hk'; lia].
    + rewrite (position_same (world (t_obs t)) w' j) by (rewrite (lstep_applied _ _ _ _ j Hs); by rewrite decide_False).
      intros Hk'. destruct (Hc j k' Hj Hk') as [?|[c' ?]]; [by left|right]. exists c'. apply elem_of_app. by left.
Qed.

(** A list, and the same with an element more. *)
Lemma put_back {X} (x : X) l1 l2 l1' y l2' :
  l1 ++ l2 = l1' ++ y :: l2' ->
  exists l3 l4, l1 ++ x :: l2 = l3 ++ y :: l4 /\ forall z, z ∈ l3 -> z ∈ l1' \/ z = x.
Proof.
  intros [(r & -> & E)|(r & -> & ->)]%app_eq_inv.
  - destruct r as [|y' r]; simpl in E.
    + exists (l1' ++ [x]), l2'. rewrite app_nil_r, <- app_assoc, E. split; [done|]. intros z. by rewrite elem_of_snoc.
    + injection E as <- ->. exists l1', (r ++ x :: l2). rewrite <- app_assoc. split; [done|]. auto.
  - exists (l1 ++ x :: r), l2'. split; [by rewrite <- app_assoc|]. intros z. rewrite !elem_of_app, elem_of_cons. tauto.
Qed.

(** A reader checks its next message. *)
Lemma goodBooks_check A w l1 i inc m l2 bk :
  ainv nn A -> goodBooks A w (l1 ++ (i, inc, m) :: l2) bk -> idle i inc l1 ->
  exists bk', applier1 i m bk = Done bk' /\ goodBooks A w (l1 ++ l2) bk' /\
    forall j k, reported bk j k -> reported bk' j k.
Proof.
  intros HA Hgb Hidle. destruct (gb_pending _ _ _ _ Hgb l1 i inc m l2 eq_refl) as (c & k & -> & Hi & Hinc & Hok & Hprev).
  destruct (go_index_in_range (logs bk) i) as [l Hl]; [by rewrite (gb_len _ _ _ _ Hgb)|].
  assert (1 < k -> reported bk i (k - 1)) as Hp.
  { intros Hk. destruct (Hprev Hk) as [?|[c' Hc']]; [done|by destruct (Hidle _ Hc')]. }
  destruct (applier1_ok i c k bk l Hl) as (ls & mi & Hu & ->).
  { intros j l' old Hl' Ho. eapply msg_ok_agree; [done|by eapply (gb_ok _ _ _ _ Hgb)|done]. }
  { intros Hk. destruct (Hp Hk) as (l' & Hl' & ?). rewrite Hl in Hl'. by injection Hl' as <-. }
  eexists. split; [done|]. set (bk' := mkBooks _ _ _ _).
  pose proof (fun j k' => reported_insert bk i k c l ls mi j k' Hl Hu) as Hr. fold bk' in Hr.
  split; [|intros j k' ?; apply Hr; by left]. destruct Hgb as [Hlen He Ho Hgap Hpd Hc]. split; try done.
  - rewrite <- Hlen. unfold zlen. cbn [logs bk']. by rewrite (go_update_length _ _ _ _ Hu).
  - intros j l' k' v. cbn [logs bk']. rewrite (go_update_index _ _ _ _ j Hu). destruct (j =? i); [|by apply Ho].
    intros [= <-] [[<- <-]|[_ Hk']]%lookup_insert_Some; [done|by eapply Ho].
  - intros j k' [Hj|[-> ->]]%Hr Hk'; apply Hr; [left; by apply Hgap|left; by apply Hp].
  - intros l1' j inc' m' l2' E.
    destruct (put_back (i, inc, CommandMsg c k) _ _ _ _ _ E) as (l3 & l4 & E3 & Hl3).
    destruct (Hpd l3 j inc' m' l4 E3) as (c' & k' & -> & ? & ? & ? & Hpr). exists c', k'. split_and!; try done.
    intros Hk'. destruct (Hpr Hk') as [?|[c'' [?|[= -> -> -> <-]]%Hl3]]; [left; apply Hr; by left|right; eauto|left; apply Hr; by right].
  - intros j k' Hj Hk'. destruct (Hc j k' Hj Hk') as [?|[c' [?|[[= -> <- <- <-]|?]%elem_of_cons]%elem_of_app]].
    + left. apply Hr. by left.
    + right. exists c'. apply elem_of_app. by left.
    + left. apply Hr. by right.
    + right. exists c'. apply elem_of_app. by right.
Qed.

Lemma tinv_restart A t i w' late :
  tinv A t -> lstep nn (world (t_obs t)) (LRestart i) w' ->
  late = [] \/ (exists m, delivering (world (t_obs t)) i = Some m /\ late = [(i, incs (world (t_obs t)) i, m)]) ->
  exists A', tinv A' (mkTester (observe (LRestart i) (t_obs t) w') (pending t ++ late) (t_books t)) /\ grows A A'.
Proof.
  intros Ht Hs Hlate. destruct (tinv_step_obs A t _ w' Ht Hs) as (A' & Hd & Hg & Hns & Hb); [done|].
  pose proof (lstep_peer _ _ _ _ (rl_base _ _ _ (di_rel _ _ _ _ (ti_obs _ _ Ht))) Hs) as Hi. simpl in Hi.
  destruct (ti_books _ _ Ht) as (bk & Ebk & Hgb). exists A'. split; [|done]. split; cbn [t_obs pending t_books]; try done.
  exists bk. split; [done|]. pose proof (fun j => lstep_incs _ _ _ j Hs) as Hinc. simpl in Hinc.
  assert (goodBooks A' w' (pending t) bk) as Hgb'.
  { eapply (goodBooks_mono A A' (world (t_obs t)) w'); [done| | |done].
    - intros j. rewrite Hinc. case_decide; lia.
    - intros j k Hj. pose proof (lstep_applied _ _ _ _ j Hs) as Ha. simpl in Ha. destruct (decide (j = i)) as [->|Hne].
      + unfold position. rewrite Ha. unfold consumed. simpl. lia.
      + rewrite (position_same _ _ j Ha), Hinc, decide_False by done. by apply (gb_covers _ _ _ _ Hgb). }
  destruct Hlate as [->|(m & Hm & ->)]; [by rewrite app_nil_r|].
  destruct (di_service _ _ _ _ (ti_obs _ _ Ht) i Hi) as [Hbs (p & q & Htold & Hpl) _]. rewrite (ti_base _ _ Ht i Hi) in *.
  pose proof (told_consumed _ _ _ _ _ _ Hbs Htold) as E.
  destruct (pl_sending _ _ _ _ _ _ Hpl _ Hm) as (c & k & -> & _ & _ & Hk).
  destruct Hk as [Hk|(own & inc & T & args & m' & r & Hin & _)]; [|by destruct (ns_threads _ _ (ti_nosnap _ _ Ht) _ Hin)].
  pose proof (gb_covers _ _ _ _ Hgb i) as Hcov. unfold position in Hcov. rewrite E in Hcov. cbn [fst] in Hcov.
  destruct Hgb' as [Hl He Ho Hgap Hp Hc]. split; try done.
  - intros l1 j inc m' l2 E'. destruct l2 as [|x l2' _] using rev_ind.
    + apply app_inj_tail in E' as [<- [= <- <- <-]]. exists c, k. split_and!; [done|done| | |].
      * cbn [world observe]. rewrite Hinc, decide_True by done. lia.
      * eapply msg_ok_mono; [done|]. by eapply (rl_delivering _ _ _ (di_rel _ _ _ _ (ti_obs _ _ Ht))).
      * intros Hk1. apply (Hcov (k - 1) Hi). lia.
    + rewrite app_comm_cons, app_assoc in E'. apply app_inj_tail in E' as [E' _]. by apply (Hp l1 j inc m' l2').
  - intros j k' Hj Hk'. destruct (Hc j k' Hj Hk') as [?|[c' ?]]; [by left|right]. exists c'. apply elem_of_app. by left.
Qed.

Lemma tinv_step A t t' :
  tinv A t -> tstep t t' ->
  (exists A', tinv A' t' /\ grows A A') /\
  forall bk bk' i k, t_books t = Done bk -> t_books t' = Done bk' -> reported bk i k -> reported bk' i k.
Proof.
  intros Ht Hs. destruct Hs as [lb w' Hs Hlb|i m w' Hs Hidle|l1 i inc m l2 E Hidle|i w' late Hs Hlate].
  - split; [by apply tinv_raft|]. cbn [t_books]. intros bk bk' i k -> [= <-]. done.
  - split; [by apply tinv_receive|]. cbn [t_books]. intros bk bk' i' k -> [= <-]. done.
  - destruct (ti_books _ _ Ht) as (bk & Ebk & Hgb). rewrite E in Hgb.
    destruct (goodBooks_check A _ l1 i inc m l2 bk (rl_inv _ _ _ (di_rel _ _ _ _ (ti_obs _ _ Ht))) Hgb Hidle) as (bk' & Ha & Hgb' & Hmono).
    cbn [t_books]. rewrite Ebk. cbn [mbind Outcome_bind]. split.
    + exists A. split; [|apply grows_refl]. destruct Ht. split; cbn [t_obs pending t_books]; try done. exists bk'. by split.
    + intros b b' j k [= <-] Hb'. rewrite Ha in Hb'. injection Hb' as <-. apply Hmono.
  - split; [by apply tinv_restart|]. cbn [t_books]. intros bk bk' i' k -> [= <-]. done.
Qed.

Lemma tinv_init envs : (0 < nn)%nat -> tinv ainit (tinit envs).
Proof.
  intros Hn. assert (forall X (x : X) i y, replicate nn x @! i = Some y -> y = x) as Hrep.
  { intros X x i y [_ [-> _]%lookup_replicate]%go_index_lookup. done. }
  split; cbn [t_obs pending t_books tinit]; [by apply dinv_init| |done|].
  - split; simpl; [done|by intros t ?%not_elem_of_nil].
  - exists emptyBooks. split; [done|]. split; cbn [logs applyErr emptyBooks]; [|done|..].
    + unfold zlen. by rewrite length_replicate.
    + intros i l k v ->%Hrep. by rewrite lookup_empty.
    + intros i k (l & ->%Hrep & [x Hx]). by rewrite lookup_empty in Hx.
    + intros l1 i inc m l2 E. by destruct l1.
    + intros i k _. unfold position, consumed. simpl. lia.
Qed.

Lemma treachable_tinv t : (0 < nn)%nat -> treachable t -> exists A, tinv A t.
Proof.
  intros Hn [envs Hs]. pose proof (tinv_init envs Hn) as Hi. revert Hi. generalize (ainit (Cmd := Cmd)).
  induction Hs as [|t1 t2 t3 H12 _ IH]; intros A Ht; [by exists A|].
  destruct (tinv_step A t1 t2 Ht H12) as [(A' & Ht' & _) _]. by eapply IH.
Qed.

Lemma tsteps_mono A t t' bk :
  tinv A t -> rtc tstep t t' -> t_books t = Done bk ->
  exists A' bk', tinv A' t' /\ grows A A' /\ t_books t' = Done bk' /\ forall i k, reported bk i k -> reported bk' i k.
Proof.
  intros Ht Hs. revert A bk Ht. induction Hs as [|t1 t2 t3 H12 _ IH]; intros A bk Ht Hb.
  - exists A, bk. split_and!; [done|apply grows_refl|done|done].
  - destruct (tinv_step A t1 t2 Ht H12) as [(A2 & Ht2 & Hg2) Hm]. destruct (ti_books _ _ Ht2) as (bk2 & Hb2 & _).
    destruct (IH A2 bk2 Ht2 Hb2) as (A3 & bk3 & Ht3 & Hg3 & Hb3 & Hm3). exists A3, bk3.
    split_and!; [done|by eapply grows_trans|done|]. intros i k Hr. by eapply Hm3, Hm.
Qed.

(** ** Theorems *)

(** C20. In the tests without snapshots, the readers of [applyCh] ([applier]) never stop a
    test: in no run, with messages lost and delayed,
    servers restarted at any time and old readers going on, does a check fail or panic; the
    servers' logs agree wherever both have an entry, and have no gaps. *)
Theorem tester_never_fails t :
  (0 < nn)%nat -> treachable t ->
  exists bk, t_books t = Done bk /\ zlen (logs bk) = Z.of_nat nn /\
    (forall i j l l' k v v', logs bk @! i = Some l -> logs bk @! j = Some l' ->
       l !! k = Some v -> l' !! k = Some v' -> v = v') /\
    (forall i l k, logs bk @! i = Some l -> is_Some (l !! k) -> 1 < k -> is_Some (l !! (k - 1))).
Proof.
  intros Hn [A Ht]%treachable_tinv; [|done]. destruct (ti_books _ _ Ht) as (bk & Ebk & Hgb). exists bk.
  split; [done|]. split; [apply Hgb|]. split.
  - intros i j l l' k v v' Hi Hj Hv Hv'. eapply (msg_ok_agree nn A); [apply Ht|exact (gb_ok _ _ _ _ Hgb _ _ _ _ Hi Hv)|exact (gb_ok _ _ _ _ Hgb _ _ _ _ Hj Hv')].
  - intros i l k Hl Hk H1. destruct (gb_gapless _ _ _ _ Hgb i k) as (l' & Hl' & ?); [by exists l|done|]. congruence.
Qed.
End tester.

(** ** Running the tester *)

Section trun.
Context {Cmd : Type} `{EqDecision Cmd} `{StateCodec Cmd} (nn : nat).

Inductive TEvent :=
| TRaft (ev : Event (Cmd := Cmd))   (* a step of the cluster, or a message received *)
| TCheck (k : nat)                  (* the [k]-th pending message is checked *)
| TRestart (env : Env) (i : Z).     (* the old instance still sends what it has *)

Definition idleb (i : Z) (inc : nat) (l : list (Z * nat * ApplyMsg Cmd)) : bool :=
  forallb (fun x => negb (bool_decide (x.1 = (i, inc)))) l.

Definition texec (ev : TEvent) (t : @Tester Cmd) : option Tester :=
  let w := world (t_obs t) in
  match ev with
  | TRaft ev =>
      w' ← exec nn ev w;
      match labelOf ev w with
      | LTau => Some (mkTester (observe LTau (t_obs t) w') (pending t) (t_books t))
      | LStart i cmd r => Some (mkTester (observe (LStart i cmd r) (t_obs t) w') (pending t) (t_books t))
      | LDeliver i m =>
          if idleb i (incs w i) (pending t)
          then Some (mkTester (observe (LDeliver i m) (t_obs t) w') (pending t ++ [(i, incs w i, m)]) (t_books t))
          else None
      | _ => None
      end
  | TCheck k =>
      '(i, inc, m) ← pending t !! k;
      if idleb i inc (take k (pending t))
      then Some (mkTester (t_obs t) (take k (pending t) ++ drop (S k) (pending t)) (bk ← t_books t; applier1 i m bk))
      else None
  | TRestart env i =>
      w' ← exec nn (EvRestart env i) w;
      Some (mkTester (observe (LRestart i) (t_obs t) w')
              (pending t ++ match delivering w i with Some m => [(i, incs w i, m)] | None => [] end) (t_books t))
  end.

Fixpoint trun (evs : list TEvent) (t : Tester) : option Tester :=
  match evs with [] => Some t | ev :: evs => t ← texec ev t; trun evs t end.

Lemma idleb_idle i inc l : idleb i inc l = true -> idle i inc l.
Proof.
  unfold idleb. rewrite forallb_forall. intros Hf m Hm%list_elem_of_In%Hf. apply negb_true_iff, bool_decide_eq_false in Hm. done.
Qed.

Lemma texec_sound ev t t' : texec ev t = Some t' -> tstep nn t t'.
Proof.
  destruct ev as [ev|k|env i]; simpl.
  - intros (w' & He%exec_label & Ht)%bind_Some. destruct (labelOf ev (world (t_obs t))) as [|i cmd r| |i m|]; try done.
    + injection Ht as <-. by apply ts_raft; [|left].
    + injection Ht as <-. apply ts_raft; [done|right; eauto].
    + destruct (idleb _ _ _) eqn:Hi; [|done]. injection Ht as <-. apply ts_receive; [done|by apply idleb_idle].
  - intros ([[i inc] m] & Hk & Ht)%bind_Some. destruct (idleb _ _ _) eqn:Hi; [|done]. injection Ht as <-.
    eapply ts_check; [|by apply idleb_idle]. symmetry. by apply take_drop_middle.
  - intros (w' & He & [= <-])%bind_Some. apply ts_restart; [by apply (exec_label nn (EvRestart env i))|].
    destruct (delivering _ _); [right; eauto|by left].
Qed.

Lemma trun_sound evs t t' : trun evs t = Some t' -> rtc (tstep nn) t t'.
Proof.
  revert t. induction evs as [|ev evs IH]; intros t Hr; simpl in Hr; [by simplify_eq|].
  apply bind_Some in Hr as (t1 & He & Hr). eapply rtc_l; [exact (texec_sound _ _ _ He)|by apply IH].
Qed.
End trun.
Arguments TEvent Cmd : clear implicits.

(** ** Example *)

(** Peer 0 is elected and commits 42 on peers 0 and 1.  Peer 0 reports it; peer 1 is about
    to, when it is restarted: its old reader still does. *)
Definition demoTests : list (TEvent Z) :=
  (TRaft <$> demoElection ++ demoCommit) ++
  [TCheck 0; TRaft (EvThread lateEnv 2); TRaft (EvThread lateEnv 2); TRaft (EvApplier 1); TRestart lateEnv 1; TCheck 0].

Definition demoTested : option (@Tester Z) := trun 3 demoTests (tinit 3 (fun _ => demoEnv)).

Definition demoReports : option (list (list (Z * option Z))) :=
  t ← demoTested; match t_books t with Done bk => Some (map_to_list <$> logs bk) | _ => None end.

Lemma demoTested_reachable t : demoTested = Some t -> treachable 3 t.
Proof. unfold demoTested. intros Ht. exists (fun _ => demoEnv). exact (trun_sound 3 demoTests _ t Ht). Qed.

Lemma demoTested_Some : isSome demoTested = true.
Proof. vm_compute. reflexivity. Qed.

Lemma tester_never_fails_witness :
  demoReports = Some [[(1, Some 42)]; [(1, Some 42)]; []] /\
  exists t bk, demoTested = Some t /\ t_books t = Done bk /\ zlen (logs bk) = 3.
Proof.
  split; [vm_compute; reflexivity|]. pose proof demoTested_Some as E. destruct demoTested as [t|] eqn:Ht; [|discriminate E].
  destruct (tester_never_fails 3 t) as (bk & Hb & Hl & _); [lia|exact (demoTested_reachable t Ht)|].
  exists t, bk. split; [reflexivity|]. split; [exact Hb|exact Hl].
Defined.
