(* ===== verification/RaftChecks.v ===== *)
(** * What the checks of the Raft tests establish

    [nCommitted], [wait] and [one] count the servers that have reported a command;
    [checkOneLeader] looks for the leader.  They read the servers one after the other while
    the cluster goes on.  Together with [RaftTester] and [RaftElection]: none of them ever
    finds the servers disagreeing, and what they return holds from then on. *)

From S2P Require Import Prelude LabRpc Persister Raft RaftCodec RaftLocal RaftCluster RaftRun RaftElection RaftAbstract RaftRefinement RaftSafety RaftDelivery Replicated Harness RaftConfig RaftTester.

(** ** Counting *)

Section counting.
Context {Cmd : Type} `{EqDecision Cmd}.
Implicit Types (views : list (option (@ApplyError Cmd) * gmap Z (option Cmd))).

Definition holds_index (index : Z) (l : gmap Z (option Cmd)) : Prop := is_Some (l !! index).

#[global] Instance holds_index_dec index l : Decision (holds_index index l).
Proof. unfold holds_index. apply _. Defined.

(** [nCommitted] on logs that agree. *)
Lemma nCommitted_agree index views c :
  (forall err l, (err, l) ∈ views -> err = None /\ forall v, l !! index = Some v -> v = c) ->
  exists cmd, nCommitted index views = Done (countP (holds_index index) (views.*2), cmd) /\
    (0 < countP (holds_index index) (views.*2) -> cmd = c).
Proof.
  intros Hv. unfold nCommitted.
  destruct (forEach_rule_done (fun done '(count, cmd) => count = countP (holds_index index) (done.*2) /\ (0 < count -> cmd = c))
    views (fun '(err, l) '(count, cmd) =>
      match err with
      | Some e => Fatal (ApplyFailed e)
      | None => match l !! index with
          | Some cmd1 => if (0 <? count) && negb (bool_decide (cmd = cmd1)) then Fatal (ValuesDiffer index cmd cmd1) else Done (count + 1, cmd1)
          | None => Done (count, cmd)
          end
      end) (0, None)) as ([count cmd] & -> & -> & Hc); [done| |by exists cmd].
  intros l1 [err l] l2 [count cmd] E [Hn Hc]. destruct (Hv err l) as [-> Hval]; [rewrite E; apply elem_of_app; right; left|].
  assert (countP (holds_index index) ((l1 ++ [(None, l)]).*2) = count + (if decide (holds_index index l) then 1 else 0)) as Hcnt.
  { rewrite fmap_app. unfold countP in *. rewrite filter_app, zlen_app, <- Hn. cbn [fmap list_fmap snd]. rewrite filter_cons, filter_nil.
    by case_decide. }
  destruct (l !! index) as [v|] eqn:Hl.
  - assert (holds_index index l) as Hh by (by exists v). rewrite decide_True in Hcnt by done. rewrite (Hval v eq_refl) in *.
    assert ((0 <? count) && negb (bool_decide (cmd = c)) = false) as ->.
    { destruct (Z.ltb_spec 0 count) as [Hlt|]; [|done]. rewrite (Hc Hlt), bool_decide_eq_true_2 by done. done. }
    eexists. split; [done|]. split; [lia|done].
  - rewrite decide_False in Hcnt by (intros [x Hx]; congruence). eexists. split; [done|]. split; [lia|]. apply Hc.
Qed.

(** ** [one] *)

Lemma trySubmit_spec fuel n starts answer starts' index :
  trySubmit fuel n starts answer = (starts', index) ->
  index = -1 \/ exists s tm, answer s = Some (index, tm, true).
Proof.
  revert starts. induction fuel as [|fuel IH]; intros starts; simpl; [intros [= _ <-]; by left|].
  destruct (answer _) as [[[idx tm] [|]]|] eqn:E; [|apply IH|apply IH]. intros [= _ <-]. right. eauto.
Qed.

Lemma pollLoop_spec cmd index expected polls :
  pollLoop cmd index expected polls = Done true ->
  exists views nd, views ∈ polls /\ nCommitted index views = Done (nd, cmd) /\ 0 < nd /\ expected <= nd.
Proof.
  induction polls as [|views polls IH]; simpl; [done|]. intros ([nd cmd1] & Hn & Hr)%outcome_bind_Done.
  destruct (_ && _) eqn:Hg.
  - b2p. subst. exists views, nd. split; [left|]. by split_and!.
  - destruct (IH Hr) as (views' & nd' & ? & ?). exists views', nd'. split; [by right|done].
Qed.

(** When [one] returns an index, a server had accepted the command there, and enough
    servers had reported it. *)
Lemma one_spec cmd expected retry n starts fin atts index :
  one cmd expected retry n starts fin atts = Done index -> index <> -1 ->
  exists att views nd, att ∈ atts /\ views ∈ at_polls att /\
    (exists s tm, at_start att s = Some (index, tm, true)) /\
    nCommitted index views = Done (nd, cmd) /\ 0 < nd /\ expected <= nd.
Proof.
  revert starts. induction atts as [|att atts IH]; intros starts; simpl; [by destruct fin; intros [= <-]|].
  destruct (trySubmit _ _ _ _) as [starts' idx] eqn:Ht. intros Hr Hne.
  assert (forall att', att' ∈ atts -> att' ∈ att :: atts) as Hin by (intros; by right).
  destruct (Z.eqb_spec idx (-1)) as [->|Hidx]; simpl in Hr.
  { destruct (IH starts' Hr Hne) as (att' & views & nd & ? & ?). exists att', views, nd. split; [auto|done]. }
  apply outcome_bind_Done in Hr as ([|] & Hp & Hr).
  - injection Hr as ->. destruct (pollLoop_spec _ _ _ _ Hp) as (views & nd & Hv & Hn). exists att, views, nd.
    split; [left|]. split; [done|]. split; [|done]. by destruct (trySubmit_spec _ _ _ _ _ _ Ht).
  - destruct retry; [|done]. destruct (IH starts' Hr Hne) as (att' & views & nd & ? & ?). exists att', views, nd. split; [auto|done].
Qed.

(** [one] can only fail for want of agreement, if [nCommitted] never fails. *)
Lemma one_outcome cmd expected retry n starts fin atts :
  (forall att views index, att ∈ atts -> views ∈ at_polls att -> exists r, nCommitted (Cmd := Cmd) index views = Done r) ->
  (exists index, one cmd expected retry n starts fin atts = Done index) \/
  one cmd expected retry n starts fin atts = Fatal (NoAgreement cmd).
Proof.
  revert starts. induction atts as [|att atts IH]; intros starts Hn; simpl; [destruct fin; eauto|].
  destruct (trySubmit _ _ _ _) as [starts' idx] eqn:Ht.
  assert (forall s, (exists index, one cmd expected retry n s fin atts = Done index) \/
    one cmd expected retry n s fin atts = Fatal (NoAgreement cmd)) as IH'.
  { intros s. apply IH. intros att' views index Hin. apply Hn. by right. }
  destruct (idx =? -1); simpl; [apply IH'|].
  assert (exists b, pollLoop cmd idx expected (at_polls att) = Done b) as [b ->].
  { assert (forall views, views ∈ at_polls att -> exists r, nCommitted (Cmd := Cmd) idx views = Done r) as Hn' by (intros; by apply (Hn att); [left|]).
    induction (at_polls att) as [|views polls IHp]; simpl; [eauto|].
    destruct (Hn' views) as [[nd c1] ->]; [left|]. cbn [mbind Outcome_bind]. destruct (_ && _); [eauto|]. apply IHp. intros; apply Hn'; by right. }
  cbn [mbind Outcome_bind]. destruct b; [eauto|]. destruct retry; simpl; [apply IH'|by right].
Qed.

(** ** [wait] *)

Lemma wait_spec index k startTerm iters views cmd :
  wait index k startTerm iters views = Done (Some cmd) ->
  exists nd, nCommitted index views = Done (nd, cmd) /\ k <= nd.
Proof.
  unfold wait. intros ([[]|] & _ & Hr)%outcome_bind_Done; [|done].
  apply outcome_bind_Done in Hr as ([nd c] & Hn & Hr). destruct (Z.ltb_spec nd k); [done|]. injection Hr as <-. eauto.
Qed.
End counting.

(** ** With the cluster *)

Section tests.
Context {Cmd : Type} `{EqDecision Cmd} `{StateCodec Cmd} `{!StateCodecOk Cmd} (nn : nat).
Implicit Types (t : @Tester Cmd).

(** [views] are the books of the servers, each as they were at some moment of a run that
    has got to [t]. *)
Definition viewsOf t (views : list (option (@ApplyError Cmd) * gmap Z (option Cmd))) : Prop :=
  length views = nn /\
  forall i err l, views !! i = Some (err, l) ->
    exists t0 bk, treachable nn t0 /\ rtc (tstep nn) t0 t /\ t_books t0 = Done bk /\
      applyErr bk !! i = Some err /\ logs bk !! i = Some l.

(** Servers that have reported [c] at [index]. *)
Definition agreeing bk (index : Z) (c : option Cmd) : Z :=
  countP (fun l => l !! index = Some c) (logs bk).

Lemma viewsOf_sub t A bk views i err l :
  tinv nn A t -> t_books t = Done bk -> viewsOf t views -> views !! i = Some (err, l) -> (0 < nn)%nat ->
  err = None /\ exists l', logs bk !! i = Some l' /\ forall k v, l !! k = Some v -> l' !! k = Some v.
Proof.
  intros Ht Hb [_ Hv] Hi Hn. destruct (Hv i err l Hi) as (t0 & bk0 & Hr0 & Hs & Hb0 & He & Hl).
  destruct (treachable_tinv nn t0 Hn Hr0) as [A0 Ht0]. destruct (ti_books _ _ _ Ht0) as (bk0' & Eb & Hgb). rewrite Hb0 in Eb. injection Eb as <-.
  rewrite (gb_err _ _ _ _ _ Hgb) in He. apply lookup_replicate in He as [-> Hi']. split; [done|].
  destruct (tsteps_mono nn A0 t0 t bk0 Ht0 Hs Hb0) as (A' & bk' & Ht' & Hg & Hb' & Hm). rewrite Hb in Hb'. injection Hb' as <-.
  destruct (ti_books _ _ _ Ht') as (bk1 & Eb & Hgb'). rewrite Hb in Eb. injection Eb as <-.
  assert (logs bk0 @! Z.of_nat i = Some l) as Hl' by (by rewrite go_index_nat).
  destruct (lookup_lt_is_Some_2 (logs bk) i) as [l' Hl1]; [pose proof (gb_len _ _ _ _ _ Hgb'); unfold zlen in *; lia|].
  exists l'. split; [done|]. intros k v Hk. destruct (Hm (Z.of_nat i) k) as (l2 & Hl2 & [v' Hv']); [by exists l; rewrite Hk|].
  rewrite go_index_nat, Hl1 in Hl2. injection Hl2 as <-. rewrite Hv'. f_equal. symmetry.
  eapply (msg_ok_agree nn A'); [apply Ht'| |eapply (gb_ok _ _ _ _ _ Hgb' (Z.of_nat i)); [by rewrite go_index_nat|done]].
  eapply msg_ok_mono; [done|]. exact (gb_ok _ _ _ _ _ Hgb _ _ _ _ Hl' Hk).
Qed.

Lemma agreeing_count bk (ls : list (gmap Z (option Cmd))) index c :
  length ls = length (logs bk) ->
  (forall i l, ls !! i = Some l -> exists l', logs bk !! i = Some l' /\ forall k v, l !! k = Some v -> l' !! k = Some v) ->
  (forall l v, l ∈ ls -> l !! index = Some v -> v = c) ->
  countP (holds_index index) ls <= agreeing bk index c.
Proof.
  unfold agreeing. generalize (logs bk). clear. intros ls'. revert ls. induction ls' as [|l' ls' IH]; intros [|l ls] Hlen Hsub Hc; simpl in Hlen; try lia; [done|].
  rewrite !countP_cons. assert (countP (holds_index index) ls <= countP (fun l => l !! index = Some c) ls') as Hle.
  { apply IH; [lia| |intros l0 v Hl0; apply Hc; by right]. intros i l0 Hl0. apply (Hsub (S i) l0 Hl0). }
  destruct (decide (holds_index index l)) as [[v Hv]|]; [|case_decide; lia].
  rewrite decide_True; [lia|]. destruct (Hsub 0%nat l eq_refl) as (l0 & [= <-] & Hl0). rewrite (Hl0 _ _ Hv). f_equal. apply (Hc l v); [left|done].
Qed.

(** Counting never finds a disagreement, whenever each server is read; the count is at most
    the number of servers that have the command at the end, and it is the only command ever
    reported at that index. *)
Lemma tester_counts_ok t views index :
  (0 < nn)%nat -> treachable nn t -> viewsOf t views ->
  exists count cmd bk, nCommitted index views = Done (count, cmd) /\ t_books t = Done bk /\ 0 <= count /\
    (0 < count -> count <= agreeing bk index cmd /\
      forall i l v, logs bk @! i = Some l -> l !! index = Some v -> v = cmd).
Proof.
  intros Hn Hr Hv. destruct (treachable_tinv nn t Hn Hr) as [A Ht]. destruct (ti_books _ _ _ Ht) as (bk & Eb & Hgb).
  assert (forall i j l l' v v', logs bk !! i = Some l -> logs bk !! j = Some l' -> l !! index = Some v -> l' !! index = Some v' -> v = v') as Hag.
  { intros i j l l' v v' Hi Hj Hl Hl'. rewrite <- go_index_nat in Hi, Hj.
    eapply (msg_ok_agree nn A); [apply Ht|exact (gb_ok _ _ _ _ _ Hgb _ _ _ _ Hi Hl)|exact (gb_ok _ _ _ _ _ Hgb _ _ _ _ Hj Hl')]. }
  (* the command at [index], if any server has one *)
  assert (exists c, forall i l v, logs bk !! i = Some l -> l !! index = Some v -> v = c) as [c Hc].
  { destruct (decide (Exists (holds_index index) (logs bk))) as [(l0 & [i0 Hi0]%list_elem_of_lookup & [c Hc0])%Exists_exists|Hno].
    - exists c. intros i l v Hi Hl. exact (Hag _ _ _ _ _ _ Hi Hi0 Hl Hc0).
    - exists None. intros i l v Hi Hl. destruct Hno. apply Exists_exists. exists l. split; [by eapply list_elem_of_lookup_2|by exists v]. }
  pose proof (fun i err l Hi => viewsOf_sub t A bk views i err l Ht Eb Hv Hi Hn) as Hsub.
  destruct (nCommitted_agree index views c) as (cmd & -> & Hcmd).
  { intros err l [i Hi]%list_elem_of_lookup. destruct (Hsub i err l Hi) as (-> & l' & Hl' & Hs). split; [done|].
    intros v Hl. exact (Hc _ _ _ Hl' (Hs _ _ Hl)). }
  eexists _, cmd, bk. split; [done|]. split; [done|]. split; [apply countP_le|]. intros Hpos. rewrite (Hcmd Hpos). split.
  - apply agreeing_count.
    + rewrite length_fmap. destruct Hv as [-> _]. pose proof (gb_len _ _ _ _ _ Hgb). unfold zlen in *. lia.
    + intros i l. rewrite list_lookup_fmap. destruct (views !! i) as [[err l0]|] eqn:Hi; [|done]. intros [= ->]. by apply (Hsub i err l Hi).
    + intros l v ([err l0] & -> & [i Hi]%list_elem_of_lookup)%list_elem_of_fmap Hl. destruct (Hsub i err l0 Hi) as (_ & l' & Hl' & Hs).
      exact (Hc _ _ _ Hl' (Hs _ _ Hl)).
  - intros i l v [_ Hi]%go_index_lookup. by eapply Hc.
Qed.

(** C22. [one], in a test without snapshots: if it returns an index, at least the expected number of servers have the
    command there, and no server ever reports another one at that index; it fails only if
    the servers did not get to agree in time. *)
Theorem tester_one t cmd expected retry n starts fin atts :
  (0 < nn)%nat -> treachable nn t -> (forall att views, att ∈ atts -> views ∈ at_polls att -> viewsOf t views) ->
  match one cmd expected retry n starts fin atts with
  | Done index =>
      index = -1 \/ exists bk, t_books t = Done bk /\ expected <= agreeing bk index cmd /\
        forall i l v, logs bk @! i = Some l -> l !! index = Some v -> v = cmd
  | Fatal e => e = NoAgreement cmd
  | Panicked => False
  end.
Proof.
  intros Hn Hr Hv. destruct (one_outcome cmd expected retry n starts fin atts) as [[index Hone]|Hone].
  { intros att views index Ha Hp. destruct (tester_counts_ok t views index Hn Hr (Hv att views Ha Hp)) as (count & c & _ & -> & _). eauto. }
  - rewrite Hone. destruct (decide (index = -1)) as [->|Hne]; [by left|right].
    destruct (one_spec _ _ _ _ _ _ _ _ Hone Hne) as (att & views & nd & Ha & Hp & _ & Hnc & Hpos & Hexp).
    destruct (tester_counts_ok t views index Hn Hr (Hv att views Ha Hp)) as (count & c & bk & Hnc' & Hb & _ & Hres).
    rewrite Hnc in Hnc'. injection Hnc' as <- <-. destruct (Hres Hpos) as [? ?]. exists bk. split; [done|]. split; [lia|done].
  - by rewrite Hone.
Qed.
End tests.

(** ** Leaders *)

Section leaders.
Context {Cmd : Type}.
Implicit Types (st : Z -> option (Z * bool)) (conn : list bool).

(** The connected servers that answered as leaders of a term, in order. *)
Definition leadersIn (N : Z) conn st (term : Z) : list Z :=
  filter (fun i => conn @! i = Some true /\ st i = Some (term, true)) (below N).

(** What is read when: connected servers are up, and terms are not negative. *)
Definition answers (N : Z) conn st : Prop :=
  zlen conn = N /\ forall i, 0 <= i < N -> conn @! i = Some true -> exists term leader, st i = Some (term, leader) /\ 0 <= term.

Lemma leadersByTerm_spec N conn st :
  answers N conn st ->
  exists M, leadersByTerm N conn st = Some M /\
    forall term, M !! term = (if decide (leadersIn N conn st term = []) then None else Some (leadersIn N conn st term)).
Proof.
  intros [Hlen Ha]. unfold leadersByTerm, leadersIn.
  destruct (forEach_rule (fun l (M : gmap Z (list Z)) => forall term,
      let ls := filter (fun i => conn @! i = Some true /\ st i = Some (term, true)) l in
      M !! term = if decide (ls = []) then None else Some ls)
    (below N) (fun i leaders => on ← conn @! i;
      if on : bool then '(term, leader) ← st i; Some (if leader : bool then <[term := go_map_get [] leaders term ++ [i]]> leaders else leaders)
      else Some leaders) ∅) as (M & -> & HM); [done| |by exists M].
  intros l1 i l2 M [Hi _]%below_split HM. destruct (go_index_in_range conn i) as [on Hon]; [by rewrite Hlen|]. cbn beta. rewrite Hon. cbn [mbind option_bind].
  assert (forall term, filter (fun i => conn @! i = Some true /\ st i = Some (term, true)) (l1 ++ [i]) =
    filter (fun i => conn @! i = Some true /\ st i = Some (term, true)) l1 ++
      (if decide (conn @! i = Some true /\ st i = Some (term, true)) then [i] else [])) as Hf.
  { intros term. rewrite filter_app, filter_cons, filter_nil. by case_decide. }
  destruct on; [destruct (Ha i Hi Hon) as (tm & [|] & Hst & _); rewrite Hst; cbn [mbind option_bind]|].
  - eexists. split; [done|]. intros term. cbv zeta. rewrite Hf. destruct (decide (term = tm)) as [->|Hne].
    + rewrite lookup_insert_eq, (decide_True (P := _ /\ _)) by done. rewrite decide_False by (by destruct (filter _ l1)).
      f_equal. f_equal. unfold go_map_get. rewrite HM. cbv zeta.
      by destruct (decide (filter (fun i => conn @! i = Some true /\ st i = Some (tm, true)) l1 = [])) as [->|].
    + rewrite lookup_insert_ne, HM by done. cbv zeta. rewrite (decide_False (P := _ /\ _)) by naive_solver. by rewrite app_nil_r.
  - eexists. split; [done|]. intros term. cbv zeta. rewrite Hf, HM. cbv zeta. rewrite (decide_False (P := _ /\ _)) by naive_solver. by rewrite app_nil_r.
  - eexists. split; [done|]. intros term. cbv zeta. rewrite Hf, HM. cbv zeta. rewrite (decide_False (P := _ /\ _)) by naive_solver. by rewrite app_nil_r.
Qed.

(** A map iteration visits every key. *)
Definition iterates (order : gmap Z (list Z) -> list Z) : Prop :=
  forall M k, k ∈ order M <-> is_Some (M !! k).

(** One iteration of [checkOneLeader], if no term has two leaders: the leader of the
    highest term, if there is one. *)
Lemma checkLeaders_spec order N conn st :
  iterates order -> answers N conn st -> (forall term, zlen (leadersIn N conn st term) <= 1) ->
  exists r, checkLeaders (Cmd := Cmd) order N conn st = Done r /\
    match r with
    | Some l => exists term, leadersIn N conn st term = [l] /\ forall term', leadersIn N conn st term' <> [] -> term' <= term
    | None => forall term, leadersIn N conn st term = []
    end.
Proof.
  intros Hord Ha Hone. destruct (leadersByTerm_spec N conn st Ha) as (M & HM & Hget). unfold checkLeaders. rewrite HM. cbn [orPanic mbind Outcome_bind].
  assert (forall term, go_map_get [] M term = leadersIn N conn st term) as Hg.
  { intros term. unfold go_map_get. rewrite Hget. by case_decide. }
  assert (forall term, leadersIn N conn st term <> [] -> term ∈ order M /\ 0 <= term) as Hin.
  { intros term Hne. split; [apply Hord; rewrite Hget; by rewrite decide_False|].
    destruct (leadersIn N conn st term) as [|i ls] eqn:E; [done|]. assert (i ∈ leadersIn N conn st term) as Hi by (rewrite E; left).
    apply list_elem_of_filter in Hi as [[Hc Hs] Hb%elem_of_seqZ]. destruct (proj2 Ha i) as (tm & ld & Hs' & ?); [lia|done|]. congruence. }
  destruct (forEach_rule_done (E := @Failure Cmd) (fun l last => (last = -1 \/ last ∈ l) /\ forall term, term ∈ l -> term <= last)
    (order M) (fun term last =>
      if 1 <? zlen (go_map_get [] M term) then Fatal (TooManyLeaders term (zlen (go_map_get [] M term)))
      else Done (if term >? last then term else last)) (-1))
    as (last & -> & Hlast & Hmax).
  - split; [by left|]. by intros ? ?%not_elem_of_nil.
  - intros l1 term l2 last _ [Hl Hm]. rewrite Hg. destruct (Z.ltb_spec 1 (zlen (leadersIn N conn st term))); [specialize (Hone term); lia|].
    eexists. split; [done|]. rewrite Z.gtb_ltb. split.
    + destruct (Z.ltb_spec last term); [right; apply elem_of_snoc; by right|]. destruct Hl; [by left|right; apply elem_of_snoc; by left].
    + intros term' [Hin'| ->]%elem_of_snoc; [specialize (Hm term' Hin')|]; destruct (Z.ltb_spec last term); lia.
  - cbn [mbind Outcome_bind]. case_bool_decide as HM0.
    + exists None. split; [done|]. intros term. specialize (Hget term). rewrite HM0, lookup_empty in Hget. by case_decide.
    + assert (exists term, leadersIn N conn st term <> []) as [term0 H0].
      { destruct (map_choose M HM0) as (term & ls & Hls). exists term. rewrite Hget in Hls. by case_decide. }
      destruct (Hin term0 H0) as [Hin0 Hpos0]. pose proof (Hmax term0 Hin0).
      destruct Hlast as [->|Hl]; [lia|]. apply Hord in Hl as [ls Hls]. rewrite Hget in Hls. case_decide as Hne; [done|].
      rewrite Hg. destruct (leadersIn N conn st last) as [|l [|l' ls']] eqn:E; [done| |specialize (Hone last); rewrite E, !zlen_cons in Hone; pose proof (zlen_nonneg ls'); lia].
      exists (Some l). split; [done|]. exists last. split; [done|]. intros term' Hne'. by apply Hmax, Hin.
Qed.
End leaders.

Section oneLeader.
Context {Cmd : Type} `{StateCodec Cmd} `{!StateCodecOk Cmd} (nn : nat).

(** No two leaders of a term, at whatever moments of a run they are asked. *)
Lemma leaders_unique w1 w2 i j :
  creachable (Cmd := Cmd) nn w1 -> rtc (cstep nn) w1 w2 -> peer nn i -> peer nn j ->
  role (nodes w1 i) = Leader -> role (nodes w2 j) = Leader ->
  currentTerm (nodes w1 i) = currentTerm (nodes w2 j) -> i = j.
Proof.
  intros Hr Hs Hi Hj Hli Hlj ET. destruct (rel_run nn w1 w2 Hr Hs) as (A1 & A2 & Hr1 & Hr2 & Hg).
  destruct (no_leader _ _ _ _ (rl_nodes _ _ _ Hr1 i Hi) Hli) as (ld1 & [K1 O1 _ _ _ _]).
  destruct (no_leader _ _ _ _ (rl_nodes _ _ _ Hr2 j Hj) Hlj) as (ld2 & [K2 O2 _ _ _ _]).
  destruct (gr_lead _ _ Hg _ _ K1) as (ld' & K' & E1 & E2 & _). rewrite ET, K2 in K'. injection K' as <-. congruence.
Qed.

(** The states of the connected servers, asked one after the other in a run. *)
Definition readings (conn : list bool) (st : Z -> option (Z * bool)) : Prop :=
  zlen conn = Z.of_nat nn /\
  exists at_ : Z -> Cluster (Cmd := Cmd), (forall i, peer nn i -> creachable nn (at_ i)) /\
    (forall i j, peer nn i -> peer nn j -> i <= j -> rtc (cstep nn) (at_ i) (at_ j)) /\
    forall i, peer nn i -> conn @! i = Some true -> st i = Some (GetState (nodes (at_ i) i)).

Lemma readings_ok conn st :
  readings conn st -> answers (Z.of_nat nn) conn st /\ forall term, zlen (leadersIn (Z.of_nat nn) conn st term) <= 1.
Proof.
  intros (Hlen & at_ & Hr & Hord & Hst). split.
  - split; [done|]. intros i Hi Hc. rewrite (Hst i Hi Hc). eexists _, _. split; [done|].
    destruct (rel_reachable nn (at_ i) (Hr i Hi)) as (A & _ & Hrel). rewrite <- (no_cur _ _ _ _ (rl_nodes _ _ _ Hrel i Hi)).
    apply (ai_cur _ _ (rl_inv _ _ _ Hrel)).
  - intros term. set (ls := leadersIn _ _ _ _). assert (forall i, i ∈ ls -> peer nn i /\ role (nodes (at_ i) i) = Leader /\ currentTerm (nodes (at_ i) i) = term) as Hls.
    { intros i [[Hc Hs] Hb%elem_of_seqZ]%list_elem_of_filter. assert (peer nn i) as Hi by (unfold peer; lia).
      rewrite (Hst i Hi Hc) in Hs. injection Hs as Et El%bool_decide_eq_true. done. }
    assert (forall i j, i ∈ ls -> j ∈ ls -> i = j) as Huniq.
    { assert (forall i j, i <= j -> i ∈ ls -> j ∈ ls -> i = j) as Hle.
      { intros i j Hij (Hi & Hri & Hti)%Hls (Hj & Hrj & Htj)%Hls.
        eapply (leaders_unique (at_ i) (at_ j)); [by apply Hr|by apply Hord|done|done|done|done|congruence]. }
      intros i j Hi Hj. destruct (Z.le_ge_cases i j); [by apply Hle|symmetry; by apply Hle]. }
    assert (NoDup ls) as Hnd by (apply NoDup_filter, NoDup_seqZ). destruct ls as [|i [|j ls]]; [done|done|].
    assert (i = j) as -> by (apply Huniq; [left|right; left]). apply NoDup_cons in Hnd as [Hni _]. destruct Hni. left.
Qed.

(** C23. [checkOneLeader] never finds two leaders of a term.  If it returns, it returns the
    leader of the highest term among the connected servers it asked in that iteration; it
    fails only if no connected server took itself for the leader in any of them. *)
Theorem checkOneLeader_ok order rounds :
  iterates order -> (forall conn st, (conn, st) ∈ rounds -> readings conn st) ->
  match checkOneLeader (Cmd := Cmd) order (Z.of_nat nn) rounds with
  | Done l => exists conn st term, (conn, st) ∈ rounds /\ leadersIn (Z.of_nat nn) conn st term = [l] /\
      forall term', leadersIn (Z.of_nat nn) conn st term' <> [] -> term' <= term
  | Fatal e => e = NoLeader /\ forall conn st term, (conn, st) ∈ rounds -> leadersIn (Z.of_nat nn) conn st term = []
  | Panicked => False
  end.
Proof.
  intros Hord. induction rounds as [|[conn st] rounds IH]; intros Hrd; simpl; [split; [done|]; by intros ? ? ? ?%not_elem_of_nil|].
  destruct (readings_ok conn st) as [Ha Hone]; [apply Hrd; left|].
  destruct (checkLeaders_spec (Cmd := Cmd) order (Z.of_nat nn) conn st Hord Ha Hone) as ([l|] & -> & Hl); cbn [mbind Outcome_bind].
  - destruct Hl as (term & ? & ?). exists conn, st, term. split; [left|done].
  - destruct (checkOneLeader order (Z.of_nat nn) rounds) as [l|e|]; specialize (IH (fun c s Hc => Hrd c s (list_elem_of_further _ _ _ Hc))).
    + destruct IH as (c & s & term & ? & ?). exists c, s, term. split; [by right|done].
    + destruct IH as [-> Hno]. split; [done|]. intros c s term [[= -> ->]|Hc]%elem_of_cons; [apply Hl|by apply Hno].
    + done.
Qed.
End oneLeader.

(** ** Examples *)

(** The books as they are now, read all at once. *)
Definition viewsNow (bk : @Books Z) : list (option (@ApplyError Z) * gmap Z (option Z)) := zip (applyErr bk) (logs bk).

Lemma viewsNow_of (nn : nat) t bk :
  treachable nn t -> t_books t = Done bk -> length (viewsNow bk) = nn -> viewsOf nn t (viewsNow bk).
Proof.
  intros Ht Hb Hlen. split; [exact Hlen|]. intros i err l Hi. exists t, bk. split; [exact Ht|]. split; [apply rtc_refl|]. split; [exact Hb|].
  unfold viewsNow in Hi. rewrite lookup_zip_with in Hi. destruct (applyErr bk !! i) as [e|]; [|discriminate Hi].
  destruct (logs bk !! i) as [l'|]; [|discriminate Hi]. injection Hi as <- <-. split; reflexivity.
Qed.

(** Server 0 accepts 42 at index 1; the servers are polled once. *)
Definition demoAttempt (bk : @Books Z) : @Attempt Z :=
  mkAttempt (fun s => if s =? 0 then Some (1, 1, true) else Some (-1, 1, false)) [viewsNow bk].

(** [one] on the books of a run. *)
Definition demoOne (t : @Tester Z) : option (Outcome (@Failure Z) Z * nat) :=
  match t_books t with
  | Done bk => Some (one (Some 42) 2 true 3 0 false [demoAttempt bk], length (viewsNow bk))
  | _ => None
  end.

Lemma demoOne_books t :
  demoOne t = Some (Done 1, 3%nat) ->
  exists bk, t_books t = Done bk /\ one (Some 42) 2 true 3 0 false [demoAttempt bk] = Done 1 /\ length (viewsNow bk) = 3%nat.
Proof.
  unfold demoOne. intros H1. destruct (t_books t) as [bk| |]; [|discriminate H1|discriminate H1]. exists bk. split; [reflexivity|].
  by apply (inj Some), pair_equal_spec in H1.
Qed.

Lemma demoAttempt_views t bk :
  treachable 3 t -> t_books t = Done bk -> length (viewsNow bk) = 3%nat ->
  forall att views, att ∈ [demoAttempt bk] -> views ∈ at_polls att -> viewsOf 3 t views.
Proof.
  intros Hr Hb Hlen att views ->%list_elem_of_singleton ->%list_elem_of_singleton. exact (viewsNow_of 3 t bk Hr Hb Hlen).
Qed.

Lemma tester_one_witness :
  exists t bk, demoTested = Some t /\ t_books t = Done bk /\
    one (Some 42) 2 true 3 0 false [demoAttempt bk] = Done 1 /\ 2 <= agreeing bk 1 (Some 42).
Proof.
  assert (demoTested ≫= demoOne = Some (Done 1, 3%nat)) as H1 by (vm_compute; reflexivity).
  destruct (proj1 (bind_Some _ _ _) H1) as (t & Ht & Ho). destruct (demoOne_books t Ho) as (bk & Hb & Hone & Hlen).
  pose proof (demoTested_reachable t Ht) as Hr. assert (0 < 3)%nat as Hn by lia.
  pose proof (tester_one 3 t (Some 42) 2 true 3 0 false [demoAttempt bk] Hn Hr (demoAttempt_views t bk Hr Hb Hlen)) as Hok.
  rewrite Hone in Hok. destruct Hok as [Hm|(bk' & Hb' & Hc & _)]; [discriminate Hm|].
  rewrite Hb in Hb'. injection Hb' as <-. exists t, bk. split; [exact Ht|]. split; [exact Hb|]. split; [exact Hone|exact Hc].
Defined.

(** The order of the keys in the map. *)
Definition keyOrder (M : gmap Z (list Z)) : list Z := (map_to_list M).*1.

Lemma keyOrder_iterates : iterates keyOrder.
Proof.
  intros M k. unfold keyOrder. rewrite list_elem_of_fmap. split.
  - intros ([k' v] & -> & Hk%elem_of_map_to_list). by exists v.
  - intros [v Hv]. exists (k, v). split; [done|]. by apply elem_of_map_to_list.
Qed.

(** The servers, asked after peer 0 was elected. *)
Definition demoStates (i : Z) : option (Z * bool) := Some (GetState (nodes demoElected i)).

Lemma checkOneLeader_ok_witness :
  checkOneLeader (Cmd := Z) keyOrder 3 [([true; true; true], demoStates)] = Done 0 /\
  exists term, leadersIn 3 [true; true; true] demoStates term = [0].
Proof.
  assert (checkOneLeader (Cmd := Z) keyOrder 3 [([true; true; true], demoStates)] = Done 0) as H1 by (vm_compute; reflexivity).
  split; [exact H1|].
  pose proof (checkOneLeader_ok (Cmd := Z) 3 keyOrder [([true; true; true], demoStates)] keyOrder_iterates) as Hok.
  change (Z.of_nat 3) with 3 in Hok. rewrite H1 in Hok. destruct Hok as (conn & st & term & Hin & Hl & _).
  - intros conn st [= -> ->]%list_elem_of_singleton. split; [reflexivity|]. exists (fun _ => demoElected). split; [|split].
    + intros i _. exists (fun _ => demoEnv). apply (run_sound 3 demoElection). vm_compute. reflexivity.
    + intros i j _ _ _. apply rtc_refl.
    + intros i _ _. reflexivity.
  - apply list_elem_of_singleton in Hin. injection Hin as -> ->. exists term. exact Hl.
Defined.
