(* ===== verification/RaftSnapReader.v ===== *)
(** * The reader of the snapshot tests

    [applierSnap] of [raft/config.go] records what one server reports, stops the test if
    an index is not the next one, and makes the server compact its log after every tenth
    command.  Fed the commands of a log one after the other, and snapshots of the log at any
    time, it never stops the test; the snapshots it makes are those of the log, so that it
    may be fed them in turn, after a restart also.  Any other command stops the test: unlike
    the services, this reader does not skip a command that an earlier snapshot covers or
    wait for one that it lacks. *)

From S2P Require Import Prelude LabRpc Persister Raft RaftCodec RaftLocal RaftCluster RaftRun RaftElection RaftAbstract RaftRefinement RaftSafety RaftDelivery Replicated Harness RaftConfig RaftHarness RaftTester.

Section reader.
Context {Cmd : Type} `{EqDecision Cmd} `{RaftConfig.SnapCodec Cmd} `{!RaftConfig.SnapCodecOk Cmd}.
Context (log : list (option Cmd)).
Implicit Types (bk : @Books Cmd).

(** The snapshot of the first [k] commands; nothing is at index 0. *)
Definition snapData (k : Z) : bytes := encodeSnap k (None :: take (Z.to_nat k) log).

Definition logEntry (k : Z) : option (option Cmd) := if k =? 0 then Some None else log @! (k - 1).

(** Whatever the servers have reported is of the log. *)
Definition agreed bk : Prop :=
  forall j l k v, logs bk @! j = Some l -> l !! k = Some v -> logEntry k = Some v.

(** The reader of server [i] is at index [p] of the log. *)
Record follows (i p : Z) bk : Prop := {
  fo_upto : applied_upto bk @! i = Some p;
  fo_log : exists l, logs bk @! i = Some l /\ forall k, 1 <= k <= p -> is_Some (l !! k);
  fo_agreed : agreed bk;
  fo_range : 0 <= p <= zlen log;
}.

Lemma logOfList_lookup j (xs : list (option Cmd)) k : logOfList j xs !! k = xs @! (k - j).
Proof.
  revert j. induction xs as [|x xs IH]; intros j; simpl; [by unfold go_index; case_match|].
  destruct (decide (k = j)) as [->|Hne]; [by rewrite lookup_insert_eq, Z.sub_diag|].
  rewrite lookup_insert_ne, IH by done. destruct (Z.le_gt_cases j k).
  - rewrite go_index_cons by lia. f_equal. lia.
  - unfold go_index. by rewrite !(proj2 (Z.leb_gt _ _)) by lia.
Qed.

Lemma snapEntries_lookup k j :
  0 <= k -> (None :: take (Z.to_nat k) log) @! j = if decide (0 <= j <= k) then logEntry j else None.
Proof.
  intros Hk. unfold logEntry. destruct (Z.lt_trichotomy j 0) as [Hj|[->|Hj]].
  - rewrite decide_False by lia. unfold go_index. by rewrite (proj2 (Z.leb_gt _ _)) by lia.
  - rewrite decide_True by lia. done.
  - rewrite go_index_cons, (proj2 (Z.eqb_neq j 0)) by lia. case_decide; [apply go_index_take; lia|].
    destruct (take _ _ @! _) eqn:E; [|done]. apply go_index_Some_bound in E. unfold zlen in E. rewrite length_take in E. lia.
Qed.

(** What the reader makes of its own record is the snapshot of the log. *)
Lemma makeSnap_data index l :
  0 <= index <= zlen log -> (forall k v, l !! k = Some v -> logEntry k = Some v) ->
  (forall k, 1 <= k <= index -> is_Some (l !! k)) -> makeSnap index l = snapData index.
Proof.
  intros Hi Ha Hl. unfold makeSnap, snapData. f_equal. apply go_index_ext. intros j Hj.
  rewrite snapEntries_lookup by lia. unfold go_index at 1. rewrite (proj2 (Z.leb_le 0 j) Hj), list_lookup_fmap.
  case_decide as Hd.
  - rewrite lookup_seqZ_lt by lia. simpl. unfold go_map_get. f_equal.
    replace (0 + Z.of_nat (Z.to_nat j)) with j by lia. destruct (l !! j) as [v|] eqn:E; [by rewrite (Ha _ _ E)|].
    destruct (decide (j = 0)) as [->|]; [done|]. destruct (Hl j) as [v Hv]; [lia|]. congruence.
  - by rewrite lookup_seqZ_ge by lia.
Qed.

(** The messages that a reader at index [p] of the log may be given. *)
Inductive feed (p : Z) : ApplyMsg Cmd -> Z -> Prop :=
| feed_command c : log @! p = Some c -> feed p (CommandMsg c (p + 1)) (p + 1)
| feed_snapshot t k : 0 < k <= zlen log -> feed p (SnapshotMsg (snapData k) t k) k.

Lemma ingestSnap_follows i k index bk :
  0 <= i < zlen (logs bk) -> 0 <= i < zlen (applied_upto bk) -> 0 < k <= zlen log -> index = -1 \/ index = k -> agreed bk ->
  exists bk', ingestSnap i (snapData k) index bk = Done (None, bk') /\ follows i k bk'.
Proof.
  intros Hi Hi' Hk Hx Ha. unfold ingestSnap. destruct (snapData k) as [|b d] eqn:E; [by apply snap_nonempty in E|].
  rewrite <- E. unfold snapData. rewrite snap_roundtrip.
  assert (negb (index =? -1) && negb (index =? k) = false) as ->.
  { destruct Hx as [->| ->]; [done|]. rewrite Z.eqb_refl. by rewrite andb_false_r. }
  assert (forall j, logOfList 0 (None :: take (Z.to_nat k) log) !! j = if decide (0 <= j <= k) then logEntry j else None) as Hm
    by (intros j; by rewrite logOfList_lookup, Z.sub_0_r, snapEntries_lookup by lia).
  revert Hm. generalize (logOfList 0 (None :: take (Z.to_nat k) log)). intros m Hm.
  rewrite !go_update_Some by done. cbn [orPanic mbind Outcome_bind]. eexists. split; [done|].
  assert (forall {A} (l : list A) x, 0 <= i < zlen l -> <[Z.to_nat i := x]> l @! i = Some x) as Hat.
  { intros A l x Hl. apply go_index_lookup. split; [lia|]. apply list_lookup_insert_eq. unfold zlen in Hl. lia. }
  split; cbn [set_logs set_applied_upto logs applied_upto].
  - by apply Hat.
  - eexists. split; [by apply Hat|]. intros j Hj. rewrite Hm, decide_True by lia.
    unfold logEntry. rewrite (proj2 (Z.eqb_neq j 0)) by lia. apply go_index_is_Some. lia.
  - intros j l x v. cbn [set_logs set_applied_upto logs]. intros [Hj Hl]%go_index_lookup Hv. destruct (decide (j = i)) as [->|Hne].
    + rewrite list_lookup_insert_eq in Hl by (unfold zlen in Hi; lia). injection Hl as <-.
      rewrite Hm in Hv. by case_decide.
    + rewrite list_lookup_insert_ne in Hl by lia. apply (Ha j l x v); [by apply go_index_lookup|done].
  - lia.
Qed.

Lemma follows_feed i p m p' bk :
  follows i p bk -> feed p m p' ->
  exists bk' snap, applierSnap1 i m bk = Done (bk', snap) /\ follows i p' bk' /\
    (forall k d, snap = Some (k, d) -> d = snapData k /\ 0 < k <= zlen log).
Proof.
  intros [Hu (l & Hl & Hall) Ha Hr] [c Hc|t k Hk]; unfold applierSnap1.
  - rewrite Hu. cbn [orPanic mbind Outcome_bind]. rewrite Z.eqb_refl. cbn [negb].
    assert (logEntry (p + 1) = Some c) as Hent.
    { unfold logEntry. rewrite (proj2 (Z.eqb_neq _ _)) by lia. by replace (p + 1 - 1) with p by lia. }
    destruct (checkLogs_ok i c (p + 1) bk l Hl) as (ls & mi & Hls & ->).
    { intros j l' old Hj Hold. rewrite (Ha _ _ _ _ Hj Hold) in Hent. congruence. }
    cbn [orPanic mbind Outcome_bind].
    assert ((p + 1 >? 1) && negb (isSome (l !! (p + 1 - 1))) = false) as ->.
    { rewrite Z.gtb_ltb. destruct (Z.ltb_spec 1 (p + 1)); [|done]. replace (p + 1 - 1) with p by lia.
      by destruct (Hall p) as [x ->]; [lia|]. }
    pose proof (go_index_Some_bound _ _ _ Hu) as Hiu. pose proof (go_index_Some_bound _ _ _ Hc) as Hpl.
    cbn [applied_upto]. rewrite go_update_Some by done. cbn [orPanic mbind Outcome_bind set_applied_upto logs].
    assert (ls @! i = Some (<[p + 1 := c]> l)) as Hi' by (by rewrite (go_update_index _ _ _ _ i Hls), Z.eqb_refl).
    rewrite Hi'. cbn [orPanic mbind Outcome_bind]. eexists _, _. split; [done|].
    assert (forall k, 1 <= k <= p + 1 -> is_Some (<[p + 1 := c]> l !! k)) as Hall'.
    { intros k Hk. destruct (decide (k = p + 1)) as [->|]; [by rewrite lookup_insert_eq|].
      rewrite lookup_insert_ne by done. apply Hall. lia. }
    assert (forall k v, <[p + 1 := c]> l !! k = Some v -> logEntry k = Some v) as Ha'.
    { intros k v [[<- <-]|[_ Hv]]%lookup_insert_Some; [done|by eapply Ha]. }
    split.
    + split; simpl.
      * apply go_index_lookup. split; [lia|]. apply list_lookup_insert_eq. unfold zlen in Hiu. lia.
      * by eexists.
      * intros j l' k v. simpl. rewrite (go_update_index _ _ _ _ j Hls). destruct (Z.eqb_spec j i); [|by apply Ha].
        intros [= <-]. apply Ha'.
      * lia.
    + intros k d. case_match; [|done]. intros [= <- <-]. split; [|lia]. apply makeSnap_data; [lia|done|done].
  - destruct (ingestSnap_follows i k k bk) as (bk' & -> & Hf); [by eapply go_index_Some_bound..|done|by right|done|].
    eexists _, _. split; [done|]. by split.
Qed.

(** The messages one after the other, with the snapshots that are made. *)
Fixpoint readAll (i : Z) (ms : list (ApplyMsg Cmd)) bk : Outcome (@Failure Cmd) (@Books Cmd * list (Z * bytes)) :=
  match ms with
  | [] => Done (bk, [])
  | m :: ms =>
      '(bk, snap) ← applierSnap1 i m bk;
      '(bk, snaps) ← readAll i ms bk;
      Done (bk, option_list snap ++ snaps)
  end.

Inductive feeds (p : Z) : list (ApplyMsg Cmd) -> Z -> Prop :=
| feeds_nil : feeds p [] p
| feeds_cons m q ms r : feed p m q -> feeds q ms r -> feeds p (m :: ms) r.

(** Fed the log, by commands in turn and snapshots, the reader never stops the test; it
    ends where the messages lead, all it recorded is of the log, and the snapshots it has
    the server take are snapshots of the log. *)
Theorem applierSnap_follows i p ms q bk :
  follows i p bk -> feeds p ms q ->
  exists bk' snaps, readAll i ms bk = Done (bk', snaps) /\ follows i q bk' /\
    forall k d, (k, d) ∈ snaps -> d = snapData k /\ 0 < k <= zlen log.
Proof.
  intros Hf Hs. revert bk Hf. induction Hs as [|p m q ms r Hm _ IH]; intros bk Hf.
  { eexists _, _. split; [done|]. split; [done|]. by intros k d ?%not_elem_of_nil. }
  destruct (follows_feed i p m q bk Hf Hm) as (bk1 & snap & E1 & Hf1 & Hs1).
  destruct (IH bk1 Hf1) as (bk2 & snaps & E2 & Hf2 & Hs2). simpl. rewrite E1. cbn [mbind Outcome_bind]. rewrite E2.
  eexists _, _. split; [done|]. split; [done|]. intros k d [Hin|Hin]%elem_of_app; [|by apply Hs2].
  destruct snap as [[k' d']|]; simpl in Hin; [|by apply not_elem_of_nil in Hin].
  apply list_elem_of_singleton in Hin. injection Hin as -> ->. by apply Hs1.
Qed.

(** A restarted server reads its snapshot first. *)
Lemma startBooks_follows {V Ty App : Type} i (ps : @Procs Cmd V Ty App) bk p k :
  0 <= i < zlen (logs bk) -> 0 <= i < zlen (applied_upto bk) -> agreed bk -> savedPersister i ps = Some (Some p) ->
  k = 0 /\ ReadSnapshot p = [] \/ 0 < k <= zlen log /\ ReadSnapshot p = snapData k ->
  exists bk', startBooks i ps bk = Done bk' /\ follows i k bk'.
Proof.
  intros Hi Hi' Ha Hp Hk. unfold startBooks. rewrite go_update_Some by done. cbn [orPanic mbind Outcome_bind].
  rewrite Hp. cbn [orPanic mbind Outcome_bind]. destruct Hk as [[-> ->]|[Hk ->]].
  - eexists. split; [done|]. destruct (go_index_in_range (logs bk) i Hi) as [l Hl]. pose proof (zlen_nonneg log). split; simpl; [| |done|lia].
    + apply go_index_lookup. split; [lia|]. apply list_lookup_insert_eq. unfold zlen in Hi'. lia.
    + exists l. split; [done|]. intros j Hj. lia.
  - destruct (snapData k) as [|b d] eqn:E; [by apply snap_nonempty in E|]. rewrite <- E.
    assert (0 <? zlen (snapData k) = true) as ->.
    { rewrite E. apply Z.ltb_lt. rewrite zlen_cons. pose proof (zlen_nonneg d). lia. }
    destruct (ingestSnap_follows i k (-1) (set_applied_upto (<[Z.to_nat i := 0]> (applied_upto bk)) bk)) as (bk' & -> & Hf);
      [done| |done|by left|done|by exists bk'].
    simpl. unfold zlen in *. by rewrite length_insert.
Qed.

(** Any other command stops the test. *)
Theorem applierSnap_stops i p bk c k :
  follows i p bk -> k <> p + 1 ->
  applierSnap1 i (CommandMsg c k) bk = Fatal (ApplyFailed (ApplyUnexpected i (p + 1) k)).
Proof.
  intros [Hu (l & Hl & _) _ _] Hk. unfold applierSnap1. rewrite Hu.
  cbn [orPanic mbind Outcome_bind]. rewrite (proj2 (Z.eqb_neq _ _) Hk). cbn [negb mbind Outcome_bind].
  rewrite go_update_Some by (by eapply go_index_Some_bound). cbn [orPanic mbind Outcome_bind set_applied_upto logs].
  by rewrite Hl.
Qed.
End reader.

(** Ten commands, of which the ninth leads to a snapshot that another server reads. *)
Definition demoCommands : list (option Z) := Some <$> seqZ 10 10.

Definition demoFeed : list (ApplyMsg Z) :=
  zip_with (fun c k => CommandMsg c k) (take 9 demoCommands) (seqZ 1 9).

Lemma agreed_empty {Cmd : Type} (log : list (option Cmd)) (m : nat) : agreed log (emptyBooks m).
Proof.
  intros j l k v [_ [-> _]%lookup_replicate]%go_index_lookup Hv. by rewrite lookup_empty in Hv.
Qed.

Lemma applierSnap_follows_witness :
  exists bk snaps, readAll 0 demoFeed (emptyBooks 3) = Done (bk, snaps) /\ follows demoCommands 0 9 bk /\
    snaps.*1 = [9].
Proof.
  assert (match readAll 0 demoFeed (emptyBooks 3) with Done (_, snaps) => snaps.*1 = [9] | _ => False end) as Hs
    by (vm_compute; reflexivity).
  destruct (applierSnap_follows demoCommands 0 0 demoFeed 9 (emptyBooks 3)) as (bk & snaps & Hr & Hf & _).
  - split; [reflexivity| |apply agreed_empty|vm_compute; split; discriminate].
    exists ∅. split; [reflexivity|]. intros k Hk. lia.
  - unfold demoFeed. repeat (eapply feeds_cons; [apply (feed_command demoCommands); reflexivity|]). apply feeds_nil.
  - exists bk, snaps. split; [exact Hr|]. split; [exact Hf|]. rewrite Hr in Hs. exact Hs.
Qed.
